(* ===== verification/_CoqProject ===== *)
-Q . S2P
Prelude.v
Machine.v
Text.v
Witness.v
LockScript.v
LockProtocol.v
Buf.v
BufSpec.v
BufSources.v
BufAdapters.v
BufForward.v
BufProps.v
BufMut.v
Uninit.v
BufMutSinks.v
BufMutAdapters.v
Codec.v
BufMutProps.v
Loom.v
Heap.v
Bytes.v
BytesMut.v
Vtables.v
BytesInv.v
BytesOps.v
BytesPool.v
BytesProps.v
BytesMutOps.v
BytesMutReserve.v
BytesMutPool.v
BytesMutShare.v
BytesMutJoin.v
BytesMutReclaim.v
HBuf.v
HBufSpec.v
HBufSources.v
HBufPut.v
BytesMutProps.v
HBufProps.v
VtablesProps.v
Compare.v
Collect.v
Fmt.v
Serde.v
HandleTypes.v
Conversions.v
SdkUtil.v
SdkAddress.v
SdkBits.v
SdkAddressProps.v
SdkMolecule.v
SdkTransfer.v
SdkSizes.v
SdkTransferProps.v
SdkWasm.v
SdkWasmProps.v
SdkClient.v
SdkClientProps.v
