(* ===== verification/Prelude.v ===== *)
(** * A verification of the CKB ML-DSA-65 lock and of the buffers it is built on

    The repository is a CKB lock script that unlocks a cell for the owner of an ML-DSA-65
    (Dilithium) key, a wallet SDK that builds its transactions and witnesses, and a patched
    copy of the [bytes] crate, which the script's dependencies use for all their byte
    buffers.  This library models the script, the SDK's addresses, transfers, RPC client and
    witness codec, and the buffers as executable definitions, in the source's names where
    these do not clash, and proves them correct.

    ** The parts and the files

    Conventions ([Prelude], [Machine]).  A Rust function that can panic returns [outcome]:
    [Ret] a value or [Fault] with the panic or the undefined behaviour.  [result] is
    Rust's.  Slices are lists of bytes indexed by [Z].  [Machine.Target] is the platform:
    the pointer width (32 or 64), the byte order, and whether debug assertions are on.
    [usize] arithmetic panics on overflow, as the profiles of the workspace ask for.  The
    lock's target is [riscv64].
    A method that takes [&mut self] returns the new [self]; one that returns a mutable
    reference gives a [borrow], the part it borrows and what the whole becomes when that
    part is given back.

    The lock ([Witness], [LockScript], [LockProtocol]).  [LockScript.program_entry],
    [parse_witness] and [blake2b_256] are contracts/dillithium-lock/src/main.rs, branch
    by branch, with its exit codes; [Witness] is the encoder and the parser of
    sdk/src/witness.ts; [LockProtocol] relates the two sides.  The crates the script
    calls are not in the repository and are interfaces with their documented behaviour as
    laws: [CkbStd] (the running script, its args and witness, the transaction hash),
    [Fips204] (key decoding and signature verification) and [Blake2bRef] (the hash).

    The wallet ([SdkUtil], [SdkAddress], [SdkMolecule], [SdkTransfer], over the digits of
    [Text]).  [SdkUtil] is sdk/src/util.ts; [SdkAddress] is address.ts, Bech32m with the
    32-bit bit operators of the language written out ([js_shl], [js_xor], ...);
    [SdkMolecule] is the serialization half of wallet.ts; [SdkTransfer] its coin
    selection, fees, preflight checks and sealing, with lock.ts, hash.ts and the checks of
    crypto.ts.  [SdkWasm] is the rest of crypto.ts: the calls into the WASM module, which copy
    arguments into blocks of its memory and free them again.  [SdkClient] is the RPC client
    of wallet.ts with the wallet state, the inspections and the waiting loops, in a monad
    [CM] over the request counter and the world outside.  A string is the list of its ASCII codes, a [bigint] or an integral
    [number] is a [Z], and an exception is [Err] with a constructor of [SdkError] per
    [throw].  A hash type is [HashData], [HashType] or [HashDataN] with the number after
    the text data.  The WASM module that hashes and signs is not among the sources: its
    exports are the interface [WasmExports] with the laws [WasmLaws], and what the wallet
    uses of it is the interface [Wasm], which [wasm_of] implements.  The node, the network
    and the clock are the interface [Outside] with the laws [ClockLaws].  [SdkBits] has the
    lemmas on bits and checksums, [SdkSizes] those on the sizes of serialized transactions,
    [SdkAddressProps], [SdkTransferProps], [SdkWasmProps] and [SdkClientProps] the
    properties.

    Reading ([Buf], [BufSpec], [BufSources], [BufAdapters], [BufForward], [BufProps]).  [Buf] is the
    trait of buf/buf_impl.rs: the class [BufCore] holds the required methods, [Buf] the
    provided ones a type can override, and the getters are definitions over them.  The
    class [BufLaws] states what an implementation promises (there is a list of bytes
    that [remaining], [chunk] and [advance] walk through), and [BufSpec] proves every
    getter from that; [BufSources] discharges it for slices, cursors and double-ended
    queues, [BufAdapters] for [Chain] and [Take], and models [IntoIter] and [Reader];
    [BufForward] has the methods that deref_forward_buf! writes out for [&mut T] and
    [Box<T>], one definition each, and discharges the laws for them.

    Writing ([BufMut], [Uninit], [BufMutSinks], [BufMutAdapters], [Codec], [BufMutProps]).  The
    same for buf/buf_mut.rs: [chunk_mut] hands out a borrowed slice of possibly
    uninitialised bytes together with the state once the borrow ends; the sinks that
    satisfy [BufMutLaws] are slices, [Vec<u8>], [Chain], [Limit], [&mut T] and [Box<T>];
    [Writer] is on top, and [Codec] pairs every putter with its getter.  [Uninit] is the
    indexing of uninit_slice.rs by the range types.

    Shared storage ([Loom], [Heap], [Bytes], [BytesMut], [Vtables], [VtablesProps]).  [Loom] models the atomics of
    the patched loom.rs, which replaces each atomic by separate reads and writes of a
    cell, as programs of single steps.  [Heap] is a heap of allocations with pointers
    that know their allocation, a monad [HM] over it that faults on every use of memory
    the language forbids (reading uninitialised or freed bytes, writing out of bounds,
    freeing twice or with the wrong size, overlapping [copy_nonoverlapping]), and the
    parts of [Vec<u8>] the crate relies on; the addresses an allocator hands out are the
    interface [Allocator].  [Bytes] is bytes.rs with its six vtables (the one of
    bytes_mut.rs included), the tagged data word and the reference counts, run on the
    steps of [Loom]; [BytesMut] is bytes_mut.rs, with both representations and all six
    ways to make room.  They decide by the name of the vtable; [Vtables] has the tables as
    records of functions over the atomic data word and the calls through them, and
    [VtablesProps] what these calls do to the pool of handles.  The owner
    handed to [from_owner] is a vector, with any [as_ref]
    into it.

    Reading from shared storage ([HBuf], [HBufSpec], [HBufSources], [HBufPut],
    [HBufProps]).  [HBuf] is the trait [Buf] for sources on the heap, in [HM]: the class
    [HBufCore] has the required methods and the destructor, [HBuf] adds [copy_to_bytes].
    Slices, cursors, queues, [Bytes], [BytesMut], references, boxes, [Take] and [Chain]
    are instances, and [bm_put] is [BytesMut::put] from any of them.  [HBufLaws] is the
    contract of such a source within a pool of live handles.

    Around the two buffers.  [Compare] has one instance per [impl] of [PartialEq],
    [PartialOrd], [Ord] and [Hash]; [Collect] is [Extend], [FromIterator] and iteration;
    [Fmt] is fmt/ with [fmt::Write] for [BytesMut] and the message of [TryGetError];
    [Serde] is serde.rs, the serde crate and the data format being interfaces;
    [Conversions] is the views and the [From] and [Default] conversions;
    [HandleTypes] says what a well-formed handle is.

    The proofs about shared storage are in layers.  [BytesInv] says who owns which memory:
    live handles form groups, each over one storage, the groups own the heap between
    them, and a handle that may write has its bytes to itself.  [BytesOps] and
    [BytesMutOps], [BytesMutReserve] show that the operations keep this within one group;
    [BytesPool], [BytesMutPool], [BytesMutShare], [BytesMutJoin] and [BytesMutReclaim]
    lift it to the whole pool of handles; [BytesProps] and [BytesMutProps] state programs
    of operations and the properties.

    ** What the theorems show

    The lock (C1 to C6): a run exits with 0 exactly when the cell is unlocked by a valid
    signature under the key the args commit to, and otherwise with the code of the first
    failing check; the parser accepts exactly the framed encodings, and its additions need
    the 64-bit [usize]; two accepted runs with the same args carry the same key unless the
    hash collides; what the SDK writes the chain reads, and the two parsers agree up to
    trailing bytes, which the chain ignores.

    The wallet (C7 to C11): what it seals the lock accepts, the hash it signs covers every
    field of the transaction, and the sealed size is the estimated one; a transfer balances,
    spends the fewest of the cells in order of capacity that suffice, leaves no change too
    small for a cell and fails only when it must (what suffices is stated from the amount,
    the fee and the size of the payment, not from the builder), though its fee does not
    count the change output; addresses round-trip, each script has one, and no change of a single character
    goes unnoticed; calls into the WASM module give back what they allocated; the client
    collects every page of cells, and waiting ends, with a timeout only when that much time
    has passed on the clock since the call.

    Reading (C12 to C14, C16, C17, C19, C20): every getter decodes the front of the
    buffer or reports the sizes without moving; the copy loops end; adapters read as
    concatenation and prefix, and forwarding methods as the buffer behind them; iteration
    and readers; vectored reads are consecutive,
    except through a [Take] with more than 16 slices; [try_get_int] does not sign-extend
    where [get_int] does.

    Text and data formats (C15, C18): what [Debug] and the hexadecimal formats print reads
    back as the bytes; what is serialized deserializes to the same bytes, and a failing
    deserialization frees what it built.

    Writing (C21 to C25): the write loops end and write exactly the bytes, or panic
    before writing; putters and getters round-trip; appending to a vector, chains,
    limits and writers; indexing uninitialised memory selects the range or panics.

    Atomics (C26): the replaced atomics are indivisible for one thread and lose updates
    between two.

    Shared storage (C27, C30, C32 to C38): every program of operations on [Bytes],
    [BytesMut] and [Vec<u8>] behaves as on a pool of independent byte strings, never uses
    memory it must not and frees all of it, and its handles stay well formed; the calls
    through each of the six vtables share, release, convert and report uniqueness as the
    pool demands; clones and [slice_ref] share the memory they show; [reserve] and
    [try_reclaim] make the room they promise, the packed data word keeps its fields, a
    [Bytes] becomes a [BytesMut] without a copy exactly when nothing shares it, [unsplit]
    undoes [split_off], and dropping one half of a split gives its memory to the other.

    Traits of the buffers (C28, C29, C31, C39, C40): comparison and hashing are those of
    the bytes, but for two orders that are reversed; extending and collecting append every
    item, and panic only where growth does not fit the address space; views and conversions show the bytes;
    [copy_to_bytes] of every source returns the next bytes and leaves the rest, and [put]
    appends a whole source.

    ** Bounds and fuel

    The loops over [chunk] and [chunk_mut] run on a fuel that is the number of bytes left
    to copy: each round of a lawful buffer copies at least one, and the
    theorems state that the loops return.  The provided [copy_to_bytes] and
    [BytesMut::put] call each other; the recursion runs on a fuel of one round, after
    which [put] has memory of its own and copies, and C39 holds for every larger fuel.  The
    inner loop of [convertBits] runs on the number of bits it holds, of which each round
    takes at least one.  [getCells] runs on more rounds than there are cells, each page but
    the last having one, and the waiting loops on one round per interval of the timeout and
    two more ([poll_fuel]), since each sleep takes its interval; C11 holds for every larger
    fuel.  A poll of the balance pages through the cells on a fuel above the number of
    pages the indexer has ([finite_indexer]).  The theorems on shared storage bound the
    number of live handles, or the length of the program, by [isize::MAX], the limit at
    which the source aborts; buffers are at most [isize::MAX] bytes, as in Rust.  Memory
    exhaustion is not modelled.  The theorems on shared storage hold for one thread, which is all
    the patched atomics are meant for.

    ** Not modelled

    [Debug] of a vtable and of [UninitSlice], which print no bytes; the raw pointers of
    [UninitSlice]; the loom tests; debug output; the test crate.  Of the SDK: [scriptId],
    the SHA-256 of a JSON text; loading the WASM file; the encoding of requests as JSON; key
    files and the command line, which are input and output. *)

From stdpp Require Export base list list_numbers numbers option strings.
From Stdlib Require Export ZArith Lia.
From Stdlib Require Export Strings.Byte.
From Stdlib Require Strings.String.

#[export] Set Default Goal Selector "!".
#[export] Set Warnings "-clear-no-such-hyp".
Open Scope Z_scope.

Abbreviation byte := Byte.byte.

#[export] Instance byte_eq_dec : EqDecision byte := Byte.byte_eq_dec.
#[export] Instance byte_inhabited : Inhabited byte := populate Byte.x00.

(** A byte-string literal [b"..."] of printable ASCII. *)
Definition bstr (s : string) : list byte := String.list_byte_of_string s.

(** ** What a Rust function can do other than return

    [PanicAdvance] is [panic_advance] and [PanicDoesNotFit] is
    [panic_does_not_fit] of patches/bytes/src/lib.rs; the other panics are the
    language's and the standard library's.  [Abort] is [crate::abort].
    [UndefinedBehaviour] is an access the unsafe code must never make.
    [Diverge] is a loop that stopped making progress. *)
Inductive fault :=
| PanicAdvance (requested available : Z)
| PanicDoesNotFit (size nbytes : Z)
| PanicAssert
| PanicIndex
| PanicOverflow
| PanicExpect
| PanicCapacity
| Abort
| UndefinedBehaviour
| Diverge.

#[export] Instance fault_eq_dec : EqDecision fault.
Proof. solve_decision. Defined.

Inductive outcome (A : Type) :=
| Ret (a : A)
| Fault (f : fault).
Arguments Ret {A} a.
Arguments Fault {A} f.

#[export] Instance outcome_eq_dec {A} `{EqDecision A} : EqDecision (outcome A).
Proof. solve_decision. Defined.

#[export] Instance outcome_ret : MRet outcome := @Ret.
#[export] Instance outcome_bind : MBind outcome :=
  λ A B k m, match m with Ret a => k a | Fault f => Fault f end.
#[export] Instance outcome_fmap : FMap outcome :=
  λ A B g m, match m with Ret a => Ret (g a) | Fault f => Fault f end.

(** [assert!(c)]: panics unless [c] holds. *)
Definition rust_assert (c : bool) : outcome unit :=
  if c then Ret tt else Fault PanicAssert.

(** [Option::expect]. *)
Definition expect {A} (o : option A) : outcome A :=
  match o with Some a => Ret a | None => Fault PanicExpect end.

(** Rust's [Result]. *)
Inductive result (A E : Type) :=
| Ok (a : A)
| Err (e : E).
Arguments Ok {A E} a.
Arguments Err {A E} e.

#[export] Instance result_eq_dec {A E} `{EqDecision A, EqDecision E} :
  EqDecision (result A E).
Proof. solve_decision. Defined.

(** ** Slices indexed by [usize]

    A [usize] is a [Z]; the list functions below take their bounds in [Z]. *)
Definition zlen {A} (l : list A) : Z := Z.of_nat (length l).
Definition ztake {A} (n : Z) (l : list A) : list A := take (Z.to_nat n) l.
Definition zdrop {A} (n : Z) (l : list A) : list A := drop (Z.to_nat n) l.
Definition zreplicate {A} (n : Z) (x : A) : list A := replicate (Z.to_nat n) x.

(** [&mut] access to a part of an [S]: what it shows, and the [S] once the borrow ends with
    new contents. *)
Record borrow (S A : Type) := { borrowed : A; give_back : A → S }.
Arguments borrowed {S A} _.
Arguments give_back {S A} _ _.

(** [&l[i..j]]: panics unless [i <= j <= l.len()]. *)
Definition slice_range {A} (l : list A) (i j : Z) : outcome (list A) :=
  if (0 <=? i) && (i <=? j) && (j <=? zlen l)
  then Ret (zdrop i (ztake j l)) else Fault PanicIndex.

(** [l.get(i..j)]: [None] unless [i <= j <= l.len()]. *)
Definition slice_get {A} (l : list A) (i j : Z) : option (list A) :=
  if (0 <=? i) && (i <=? j) && (j <=? zlen l)
  then Some (zdrop i (ztake j l)) else None.

(** [l[i]]: panics out of range. *)
Definition index {A} (l : list A) (i : Z) : outcome A :=
  match (if 0 <=? i then l !! Z.to_nat i else None) with
  | Some x => Ret x
  | None => Fault PanicIndex
  end.

(** [l.is_empty()]. *)
Definition is_empty {A} (l : list A) : bool :=
  match l with [] => true | _ :: _ => false end.

(** [l[off..off + new.len()].copy_from_slice(new)] once the bounds are known. *)
Definition splice {A} (l : list A) (off : Z) (new : list A) : list A :=
  ztake off l ++ new ++ zdrop (off + zlen new) l.

(** ** Lemmas on lengths and slices *)
Section slices.
Context {A : Type}.
Implicit Types (l k : list A) (n m i j : Z).

Lemma zlen_nonneg l : 0 <= zlen l.
Proof. unfold zlen; lia. Qed.

Lemma zlen_nil : zlen (@nil A) = 0.
Proof. reflexivity. Qed.

Lemma zlen_cons x l : zlen (x :: l) = 1 + zlen l.
Proof. unfold zlen; simpl; lia. Qed.

Lemma zlen_app l k : zlen (l ++ k) = zlen l + zlen k.
Proof. unfold zlen; rewrite length_app; lia. Qed.

Lemma zlen_0_nil l : zlen l = 0 ↔ l = [].
Proof. unfold zlen; destruct l; simpl; split; intros; try done; lia. Qed.

Lemma zlen_take_min n l : zlen (ztake n l) = Z.min (Z.max 0 n) (zlen l).
Proof. unfold zlen, ztake; rewrite length_take; lia. Qed.

Lemma zlen_take n l : 0 <= n <= zlen l → zlen (ztake n l) = n.
Proof. rewrite zlen_take_min; lia. Qed.

Lemma zlen_drop_max n l : zlen (zdrop n l) = Z.max 0 (zlen l - Z.max 0 n).
Proof. unfold zlen, zdrop; rewrite length_drop; lia. Qed.

Lemma zlen_drop n l : 0 <= n <= zlen l → zlen (zdrop n l) = zlen l - n.
Proof. rewrite zlen_drop_max; lia. Qed.

Lemma zlen_replicate n (x : A) : 0 <= n → zlen (zreplicate n x) = n.
Proof. unfold zlen, zreplicate; rewrite length_replicate; lia. Qed.

Lemma zlen_splice l i k :
  0 <= i → i + zlen k <= zlen l → zlen (splice l i k) = zlen l.
Proof.
  intros. pose proof (zlen_nonneg k). unfold splice.
  rewrite !zlen_app, zlen_take, zlen_drop; lia.
Qed.

Lemma ztake_0 l : ztake 0 l = [].
Proof. reflexivity. Qed.

Lemma zdrop_0 l : zdrop 0 l = l.
Proof. reflexivity. Qed.

Lemma ztake_cons n x l : 0 <= n → ztake (1 + n) (x :: l) = x :: ztake n l.
Proof. intros. unfold ztake. by replace (Z.to_nat (1 + n)) with (S (Z.to_nat n)) by lia. Qed.

Lemma zdrop_cons n x l : 0 <= n → zdrop (1 + n) (x :: l) = zdrop n l.
Proof. intros. unfold zdrop. by replace (Z.to_nat (1 + n)) with (S (Z.to_nat n)) by lia. Qed.

Lemma ztake_nil n : ztake n (@nil A) = [].
Proof. unfold ztake; by rewrite take_nil. Qed.

Lemma zdrop_nil n : zdrop n (@nil A) = [].
Proof. unfold zdrop; by rewrite drop_nil. Qed.

Lemma ztake_ge n l : zlen l <= n → ztake n l = l.
Proof. unfold zlen, ztake; intros; apply take_ge; lia. Qed.

Lemma zdrop_ge n l : zlen l <= n → zdrop n l = [].
Proof. unfold zlen, zdrop; intros; apply drop_ge; lia. Qed.

Lemma ztake_zdrop n l : ztake n l ++ zdrop n l = l.
Proof. apply take_drop. Qed.

Lemma ztake_app_l n l k : n <= zlen l → ztake n (l ++ k) = ztake n l.
Proof. unfold zlen, ztake; intros; apply take_app_le; lia. Qed.

Lemma ztake_app_exact n l k : n = zlen l → ztake n (l ++ k) = l.
Proof. intros ->. unfold zlen, ztake; apply take_app_length'; lia. Qed.

Lemma ztake_app_r n l k :
  zlen l <= n → ztake n (l ++ k) = l ++ ztake (n - zlen l) k.
Proof.
  unfold zlen, ztake; intros. rewrite take_app_ge by lia.
  do 2 f_equal; lia.
Qed.

Lemma zdrop_app_l n l k : n <= zlen l → zdrop n (l ++ k) = zdrop n l ++ k.
Proof. unfold zlen, zdrop; intros; apply drop_app_le; lia. Qed.

Lemma zdrop_app_exact n l k : n = zlen l → zdrop n (l ++ k) = k.
Proof. intros ->. unfold zlen, zdrop; apply drop_app_length'; lia. Qed.

Lemma zdrop_app_r n l k : zlen l <= n → zdrop n (l ++ k) = zdrop (n - zlen l) k.
Proof.
  unfold zlen, zdrop; intros. rewrite drop_app_ge by lia. f_equal; lia.
Qed.

Lemma zdrop_zdrop n m l : 0 <= n → 0 <= m → zdrop n (zdrop m l) = zdrop (m + n) l.
Proof. unfold zdrop; intros; rewrite drop_drop; f_equal; lia. Qed.

Lemma ztake_ztake n m l : ztake n (ztake m l) = ztake (Z.min n m) l.
Proof. unfold ztake; rewrite take_take; f_equal; lia. Qed.

Lemma zdrop_ztake n m l :
  0 <= n → zdrop n (ztake m l) = ztake (m - n) (zdrop n l).
Proof.
  unfold ztake, zdrop; intros. rewrite skipn_firstn_comm. f_equal; lia.
Qed.

Lemma ztake_zdrop_split n m l :
  0 <= n → 0 <= m → ztake n l ++ ztake m (zdrop n l) = ztake (n + m) l.
Proof.
  unfold ztake, zdrop; intros.
  rewrite take_take_drop. f_equal; lia.
Qed.

Lemma ztake_replicate n m (x : A) :
  0 <= n <= m → ztake n (zreplicate m x) = zreplicate n x.
Proof.
  unfold ztake, zreplicate; intros. rewrite take_replicate. f_equal; lia.
Qed.

(** Bytes outside the part written are as before. *)
Lemma splice_outside l i k j n :
  0 <= i → i + zlen k <= zlen l → 0 <= j → 0 <= n → j + n <= i ∨ i + zlen k <= j →
  ztake n (zdrop j (splice l i k)) = ztake n (zdrop j l).
Proof.
  intros Hj Hle Hlo Hn [H|H]; unfold splice; pose proof (zlen_nonneg k).
  - rewrite zdrop_app_l by (rewrite zlen_take; lia). rewrite zdrop_ztake by lia.
    rewrite ztake_app_l by (rewrite zlen_take, ?zlen_drop by (rewrite ?zlen_drop; lia); lia).
    rewrite ztake_ztake, Z.min_l by lia. done.
  - rewrite zdrop_app_r by (rewrite zlen_take; lia). rewrite zlen_take by lia.
    rewrite zdrop_app_r by lia. rewrite zdrop_zdrop by lia. do 2 f_equal. lia.
Qed.

Lemma splice_inside l i k : 0 <= i <= zlen l → ztake (zlen k) (zdrop i (splice l i k)) = k.
Proof. intros H. unfold splice. rewrite zdrop_app_exact by (rewrite zlen_take; lia). by apply ztake_app_exact. Qed.

Lemma prefix_ztake l k : l `prefix_of` k → ztake (zlen l) k = l.
Proof. intros [r ->]. by apply ztake_app_exact. Qed.

Lemma prefix_zlen l k : l `prefix_of` k → zlen l <= zlen k.
Proof. intros [r ->]. rewrite zlen_app. pose proof (zlen_nonneg r). lia. Qed.

Lemma prefix_ztake_l n l k :
  l `prefix_of` k → n <= zlen l → ztake n l = ztake n k.
Proof. intros [r ->] ?. by rewrite ztake_app_l. Qed.

Lemma ztake_prefix n l : ztake n l `prefix_of` l.
Proof. exists (zdrop n l). by rewrite ztake_zdrop. Qed.

Lemma slice_range_ok l i j :
  0 <= i <= j → j <= zlen l → slice_range l i j = Ret (zdrop i (ztake j l)).
Proof.
  intros. unfold slice_range.
  by rewrite (proj2 (Z.leb_le 0 i)), (proj2 (Z.leb_le i j)),
    (proj2 (Z.leb_le j (zlen l))) by lia.
Qed.

Lemma slice_range_inv l i j k :
  slice_range l i j = Ret k →
  0 <= i <= j ∧ j <= zlen l ∧ k = zdrop i (ztake j l).
Proof.
  unfold slice_range.
  destruct ((0 <=? i) && (i <=? j) && (j <=? zlen l)) eqn:E; [|done].
  rewrite !andb_true_iff, !Z.leb_le in E. intros [= <-]. tauto.
Qed.

Lemma slice_get_range l i j :
  slice_get l i j = match slice_range l i j with Ret k => Some k | Fault _ => None end.
Proof. unfold slice_get, slice_range. by destruct (_ && _). Qed.

Lemma slice_get_ok l i j :
  0 <= i <= j → j <= zlen l → slice_get l i j = Some (zdrop i (ztake j l)).
Proof. intros. by rewrite slice_get_range, slice_range_ok. Qed.

Lemma slice_get_None l i j : zlen l < j → slice_get l i j = None.
Proof.
  intros. unfold slice_get. rewrite (proj2 (Z.leb_gt j (zlen l))) by lia.
  by rewrite andb_false_r.
Qed.

Lemma index_0_cons x l : index (x :: l) 0 = Ret x.
Proof. reflexivity. Qed.

Lemma is_empty_zlen l : is_empty l = (zlen l =? 0).
Proof. destruct l; [done|]. rewrite zlen_cons. symmetry. apply Z.eqb_neq.
  pose proof (zlen_nonneg l). simpl; lia. Qed.

End slices.

Lemma zlen_fmap {A B} (f : A → B) (l : list A) : zlen (f <$> l) = zlen l.
Proof. unfold zlen; by rewrite length_fmap. Qed.

Lemma zlen_reverse {A} (l : list A) : zlen (reverse l) = zlen l.
Proof. unfold zlen; by rewrite length_reverse. Qed.

Lemma fmap_ztake {A B} (f : A → B) n (l : list A) : f <$> ztake n l = ztake n (f <$> l).
Proof. apply fmap_take. Qed.

Lemma fmap_zdrop {A B} (f : A → B) n (l : list A) : f <$> zdrop n l = zdrop n (f <$> l).
Proof. apply fmap_drop. Qed.

(** A list of initialised bytes reads as itself. *)
Lemma mapM_id_Some {A} (l : list A) : mapM id (Some <$> l) = Some l.
Proof. apply mapM_Some. induction l; by constructor. Qed.

(** ** Automation

    [zlen] rewrites lengths of list expressions and [zlia] closes goals on them. *)
Create Rewrite HintDb zlen.
#[export] Hint Rewrite @zlen_nil @zlen_cons @zlen_app @zlen_fmap @zlen_reverse
  @zlen_take_min @zlen_drop_max : zlen.
#[export] Hint Rewrite @zlen_replicate using lia : zlen.

Ltac pose_zlen :=
  repeat match goal with
  | |- context [zlen ?l] =>
      lazymatch goal with
      | _ : 0 <= zlen l |- _ => fail
      | _ => pose proof (zlen_nonneg l)
      end
  | _ : context [zlen ?l] |- _ =>
      lazymatch goal with
      | _ : 0 <= zlen l |- _ => fail
      | _ => pose proof (zlen_nonneg l)
      end
  end.

Ltac zlia := autorewrite with zlen in *; pose_zlen; lia.

(** Splits the boolean tests of a function body, innermost first, and turns
    each into the proposition it decides. *)
Ltac case_bool :=
  match goal with
  | |- context [if ?b then _ else _] =>
      lazymatch b with
      | context [if _ then _ else _] => fail
      | Z.leb ?x ?y => destruct (Z.leb_spec x y)
      | Z.ltb ?x ?y => destruct (Z.ltb_spec x y)
      | Z.eqb ?x ?y => destruct (Z.eqb_spec x y)
      | _ => destruct b eqn:?
      end
  end.

(** Evaluates the head of a monadic sequence when it is a known [Ret]. *)
Ltac mret := cbn [mbind mret outcome_bind outcome_ret fmap outcome_fmap].

Lemma bind_ret {A B} (a : A) (k : A → outcome B) : (Ret a ≫= k) = k a.
Proof. reflexivity. Qed.

Lemma bind_fault {A B} f (k : A → outcome B) : (Fault f ≫= k) = Fault f.
Proof. reflexivity. Qed.

Lemma bind_Ret_inv {A B} (m : outcome A) (k : A → outcome B) b :
  (m ≫= k) = Ret b → ∃ a, m = Ret a ∧ k a = Ret b.
Proof. destruct m; [eauto|done]. Qed.

Lemma bind_assoc_outcome {A B C} (m : outcome A) (k : A → outcome B) (h : B → outcome C) :
  ((m ≫= k) ≫= h) = (m ≫= λ a, k a ≫= h).
Proof. by destruct m. Qed.

Create Rewrite HintDb outcome.
#[export] Hint Rewrite @bind_ret @bind_fault @bind_assoc_outcome : outcome.

Lemma rust_assert_true (c : bool) : c = true → rust_assert c = Ret tt.
Proof. by intros ->. Qed.

Lemma rust_assert_inv (c : bool) : rust_assert c = Ret tt → c = true.
Proof. by destruct c. Qed.

(** The [?] operator inside a function that returns a [result]. *)
Definition result_bind {A B E} (m : result A E) (k : A → result B E) : result B E :=
  match m with Ok a => k a | Err e => Err e end.

Declare Scope rust_scope.
Delimit Scope rust_scope with rust.
Notation "'let?' x ':=' m 'in' k" := (result_bind m (λ x, k))
  (at level 10, x pattern, m at level 100, k at level 200) : rust_scope.
