(* ===== verification/Machine.v ===== *)
(** * Machine: the compilation target, machine integers and their byte encodings

    [Target] carries the [cfg] values the crates test: the pointer width, the
    byte order and [debug_assertions].  The workspace builds its release profile
    with [overflow-checks = true] (src/Cargo.toml), so a plain [+], [-] or [*] on
    [usize] that leaves the range panics: [uadd], [usub], [umul]. *)

From S2P Require Import Prelude.

Class Target := {
  ptr_width : Z;
  ptr_width_cases : ptr_width = 32 ∨ ptr_width = 64;
  target_endian_big : bool;
  debug_assertions : bool;
}.

(** CKB-VM: riscv64imac, little endian, release profile. *)
Definition riscv64 : Target :=
  {| ptr_width := 64; ptr_width_cases := or_intror eq_refl;
     target_endian_big := false; debug_assertions := false |}.

(** A 32-bit little-endian target with debug assertions. *)
Definition i686_debug : Target :=
  {| ptr_width := 32; ptr_width_cases := or_introl eq_refl;
     target_endian_big := false; debug_assertions := true |}.

Section machine.
Context `{T : Target}.

Definition usize_max : Z := 2 ^ ptr_width - 1.
Definition isize_max : Z := 2 ^ (ptr_width - 1) - 1.

Definition is_usize (z : Z) : Prop := 0 <= z <= usize_max.

(** [debug_assert!(c)]. *)
Definition debug_assert (c : bool) : outcome unit :=
  if debug_assertions then rust_assert c else Ret tt.

(** [a + b], [a - b], [a * b] on [usize] with overflow checks. *)
Definition uadd (a b : Z) : outcome Z :=
  if a + b <=? usize_max then Ret (a + b) else Fault PanicOverflow.
Definition usub (a b : Z) : outcome Z :=
  if b <=? a then Ret (a - b) else Fault PanicOverflow.
Definition umul (a b : Z) : outcome Z :=
  if a * b <=? usize_max then Ret (a * b) else Fault PanicOverflow.

Definition checked_add (a b : Z) : option Z :=
  if a + b <=? usize_max then Some (a + b) else None.
Definition checked_sub (a b : Z) : option Z :=
  if b <=? a then Some (a - b) else None.
Definition saturating_add (a b : Z) : Z := Z.min (a + b) usize_max.
Definition saturating_sub (a b : Z) : Z := Z.max (a - b) 0.

End machine.

(** ** Reduction modulo a width *)

(** [z as uN]. *)
Definition wrap_unsigned (bits z : Z) : Z := z mod 2 ^ bits.

(** [z as iN]: two's complement. *)
Definition wrap_signed (bits z : Z) : Z :=
  (z + 2 ^ (bits - 1)) mod 2 ^ bits - 2 ^ (bits - 1).

(** ** Bytes and byte strings *)
Definition u8_to_Z (b : byte) : Z := Z.of_N (Byte.to_N b).

Definition u8_of_Z (z : Z) : byte :=
  match Byte.of_N (Z.to_N (z mod 256)) with Some b => b | None => Byte.x00 end.

Fixpoint le_value (bs : list byte) : Z :=
  match bs with
  | [] => 0
  | b :: bs => u8_to_Z b + 256 * le_value bs
  end.

Fixpoint le_bytes (n : nat) (z : Z) : list byte :=
  match n with
  | O => []
  | S n => u8_of_Z z :: le_bytes n (z / 256)
  end.

(** [uN::from_le_bytes], [uN::from_be_bytes], [uN::from_ne_bytes]: the width is
    the length of the array. *)
Definition u_from_le_bytes (bs : list byte) : Z := le_value bs.
Definition u_from_be_bytes (bs : list byte) : Z := le_value (reverse bs).
Definition u_from_ne_bytes `{Target} (bs : list byte) : Z :=
  if target_endian_big then u_from_be_bytes bs else u_from_le_bytes bs.

(** [iN::from_*_bytes]: the same bits read in two's complement. *)
Definition i_from_le_bytes (bs : list byte) : Z :=
  wrap_signed (8 * zlen bs) (u_from_le_bytes bs).
Definition i_from_be_bytes (bs : list byte) : Z :=
  wrap_signed (8 * zlen bs) (u_from_be_bytes bs).
Definition i_from_ne_bytes `{Target} (bs : list byte) : Z :=
  wrap_signed (8 * zlen bs) (u_from_ne_bytes bs).

(** [n.to_le_bytes()], [n.to_be_bytes()], [n.to_ne_bytes()] of an integer of
    [size] bytes, signed or not. *)
Definition to_le_bytes (size : Z) (n : Z) : list byte := le_bytes (Z.to_nat size) n.
Definition to_be_bytes (size : Z) (n : Z) : list byte := reverse (to_le_bytes size n).
Definition to_ne_bytes `{Target} (size : Z) (n : Z) : list byte :=
  if target_endian_big then to_be_bytes size n else to_le_bytes size n.

(** The ranges of the fixed-width integers. *)
Definition is_unsigned (size n : Z) : Prop := 0 <= n < 2 ^ (8 * size).
Definition is_signed (size n : Z) : Prop :=
  - 2 ^ (8 * size - 1) <= n < 2 ^ (8 * size - 1).

(** ** Lemmas: machine arithmetic *)
Section machine_lemmas.
Context `{T : Target}.

Lemma usize_max_ge : 4294967295 <= usize_max.
Proof. unfold usize_max. destruct ptr_width_cases as [-> | ->]; lia. Qed.

Lemma usize_isize_max : usize_max = 2 * isize_max + 1.
Proof. unfold usize_max, isize_max. destruct ptr_width_cases as [-> | ->]; lia. Qed.

Lemma uadd_ok a b : a + b <= usize_max → uadd a b = Ret (a + b).
Proof. intros. unfold uadd. by rewrite (proj2 (Z.leb_le _ _)). Qed.

Lemma uadd_overflow a b : usize_max < a + b → uadd a b = Fault PanicOverflow.
Proof. intros. unfold uadd. by rewrite (proj2 (Z.leb_gt _ _)). Qed.

Lemma usub_ok a b : b <= a → usub a b = Ret (a - b).
Proof. intros. unfold usub. by rewrite (proj2 (Z.leb_le _ _)). Qed.

Lemma umul_ok a b : a * b <= usize_max → umul a b = Ret (a * b).
Proof. intros. unfold umul. by rewrite (proj2 (Z.leb_le _ _)). Qed.

Lemma checked_sub_Some a b : b <= a → checked_sub a b = Some (a - b).
Proof. intros. unfold checked_sub. by rewrite (proj2 (Z.leb_le _ _)). Qed.

Lemma checked_sub_None a b : a < b → checked_sub a b = None.
Proof. intros. unfold checked_sub. by rewrite (proj2 (Z.leb_gt _ _)). Qed.

Lemma saturating_add_small a b : a + b <= usize_max → saturating_add a b = a + b.
Proof. unfold saturating_add. lia. Qed.

Lemma debug_assert_true (c : bool) : c = true → debug_assert c = Ret tt.
Proof. intros ->. unfold debug_assert. by destruct debug_assertions. Qed.

End machine_lemmas.

Lemma wrap_unsigned_small bits z : 0 <= z < 2 ^ bits → wrap_unsigned bits z = z.
Proof. apply Z.mod_small. Qed.

Lemma pow2_split bits : 0 < bits → 2 ^ bits = 2 * 2 ^ (bits - 1).
Proof. intros. rewrite <- Z.pow_succ_r by lia. f_equal; lia. Qed.

Lemma wrap_signed_unsigned bits z :
  0 < bits → wrap_signed bits (wrap_unsigned bits z) = wrap_signed bits z.
Proof.
  intros. unfold wrap_signed, wrap_unsigned.
  by rewrite Zplus_mod_idemp_l.
Qed.

Lemma wrap_signed_small bits z :
  0 < bits → - 2 ^ (bits - 1) <= z < 2 ^ (bits - 1) → wrap_signed bits z = z.
Proof.
  intros Hb ?. unfold wrap_signed. pose proof (pow2_split bits Hb).
  rewrite Z.mod_small; lia.
Qed.

Lemma wrap_signed_range bits z :
  0 < bits → - 2 ^ (bits - 1) <= wrap_signed bits z < 2 ^ (bits - 1).
Proof.
  intros Hb. unfold wrap_signed. pose proof (pow2_split bits Hb).
  pose proof (Z.pow_pos_nonneg 2 (bits - 1)).
  pose proof (Z.mod_pos_bound (z + 2 ^ (bits - 1)) (2 ^ bits)). lia.
Qed.

Lemma wrap_signed_mod bits z :
  0 < bits → wrap_signed bits z mod 2 ^ bits = z mod 2 ^ bits.
Proof.
  intros. unfold wrap_signed. rewrite Zminus_mod_idemp_l. f_equal; lia.
Qed.

(** ** Lemmas: byte strings *)
Lemma u8_to_Z_range b : 0 <= u8_to_Z b < 256.
Proof. unfold u8_to_Z. pose proof (Byte.to_N_bounded b). lia. Qed.

Lemma u8_of_Z_to_Z b : u8_of_Z (u8_to_Z b) = b.
Proof.
  unfold u8_of_Z. rewrite Z.mod_small by apply u8_to_Z_range.
  unfold u8_to_Z. by rewrite N2Z.id, Byte.of_to_N.
Qed.

Lemma u8_to_Z_of_Z z : u8_to_Z (u8_of_Z z) = z mod 256.
Proof.
  unfold u8_of_Z. pose proof (Z.mod_pos_bound z 256).
  destruct (Byte.of_N (Z.to_N (z mod 256))) as [b|] eqn:E.
  - apply Byte.to_of_N in E. unfold u8_to_Z. rewrite E. lia.
  - apply Byte.of_N_None_iff in E. lia.
Qed.

Lemma u8_to_Z_inj b c : u8_to_Z b = u8_to_Z c → b = c.
Proof. intros E. rewrite <- (u8_of_Z_to_Z b), E. apply u8_of_Z_to_Z. Qed.

Lemma length_le_bytes n z : length (le_bytes n z) = n.
Proof. revert z; induction n; simpl; auto. Qed.

Lemma pow256 n : 0 <= n → 2 ^ (8 * n) = 256 ^ n.
Proof. intros. by rewrite Z.pow_mul_r by lia. Qed.

Lemma pow256_succ n : 0 <= n → 2 ^ (8 * (1 + n)) = 256 * 2 ^ (8 * n).
Proof. intros. rewrite !pow256, <- Z.pow_succ_r by lia. f_equal; lia. Qed.

Lemma le_value_range bs : 0 <= le_value bs < 2 ^ (8 * zlen bs).
Proof.
  induction bs as [|b bs IH]; [done|]. rewrite zlen_cons.
  rewrite pow256_succ by apply zlen_nonneg. simpl.
  pose proof (u8_to_Z_range b). lia.
Qed.

Lemma le_value_bytes n z : le_value (le_bytes n z) = z mod 2 ^ (8 * Z.of_nat n).
Proof.
  revert z; induction n as [|n IH]; intros z; cbn [le_bytes le_value].
  - by rewrite Z.mod_1_r.
  - rewrite IH, u8_to_Z_of_Z.
    replace (Z.of_nat (S n)) with (1 + Z.of_nat n) by lia.
    rewrite pow256_succ by lia.
    rewrite Z.rem_mul_r; [lia | lia |].
    pose proof (Z.pow_pos_nonneg 2 (8 * Z.of_nat n)). lia.
Qed.

Lemma le_bytes_value bs : le_bytes (length bs) (le_value bs) = bs.
Proof.
  induction bs as [|b bs IH]; [done|]. simpl.
  pose proof (u8_to_Z_range b). f_equal.
  - apply u8_to_Z_inj. rewrite u8_to_Z_of_Z.
    rewrite Z.mul_comm, Z.mod_add by lia. by apply Z.mod_small.
  - rewrite Z.mul_comm, Z.div_add, Z.div_small by lia. simpl. apply IH.
Qed.

Lemma le_value_app bs cs :
  le_value (bs ++ cs) = le_value bs + 2 ^ (8 * zlen bs) * le_value cs.
Proof.
  induction bs as [|b bs IH]; cbn [app le_value].
  - change (2 ^ (8 * zlen [])) with 1. lia.
  - rewrite IH, zlen_cons, pow256_succ by apply zlen_nonneg. lia.
Qed.

Lemma le_value_zeros n : le_value (zreplicate n Byte.x00) = 0.
Proof. unfold zreplicate. induction (Z.to_nat n) as [|m IH]; simpl; [done|]. by rewrite IH. Qed.

Lemma take_le_bytes k n z : (k <= n)%nat → take k (le_bytes n z) = le_bytes k z.
Proof.
  revert n z; induction k as [|k IH]; intros [|n] z Hk; simpl; try done; try lia.
  f_equal. apply IH. lia.
Qed.

Lemma zlen_to_le_bytes size n : 0 <= size → zlen (to_le_bytes size n) = size.
Proof. intros. unfold zlen, to_le_bytes. rewrite length_le_bytes. lia. Qed.

Lemma zlen_to_be_bytes size n : 0 <= size → zlen (to_be_bytes size n) = size.
Proof. intros. unfold to_be_bytes. rewrite zlen_reverse. by apply zlen_to_le_bytes. Qed.

Lemma zlen_to_ne_bytes `{Target} size n : 0 <= size → zlen (to_ne_bytes size n) = size.
Proof.
  intros. unfold to_ne_bytes.
  destruct target_endian_big; [by apply zlen_to_be_bytes | by apply zlen_to_le_bytes].
Qed.

Lemma u_from_to_le size n :
  0 <= size → u_from_le_bytes (to_le_bytes size n) = n mod 2 ^ (8 * size).
Proof.
  intros. unfold u_from_le_bytes, to_le_bytes. rewrite le_value_bytes. do 3 f_equal; lia.
Qed.

Lemma u_from_to_be size n :
  0 <= size → u_from_be_bytes (to_be_bytes size n) = n mod 2 ^ (8 * size).
Proof.
  intros. unfold u_from_be_bytes, to_be_bytes. rewrite reverse_involutive.
  by apply u_from_to_le.
Qed.

Lemma u_from_to_ne `{Target} size n :
  0 <= size → u_from_ne_bytes (to_ne_bytes size n) = n mod 2 ^ (8 * size).
Proof.
  intros. unfold u_from_ne_bytes, to_ne_bytes.
  destruct target_endian_big; [by apply u_from_to_be | by apply u_from_to_le].
Qed.

Lemma i_wrap_roundtrip size n :
  0 < size → is_signed size n → wrap_signed (8 * size) (n mod 2 ^ (8 * size)) = n.
Proof.
  intros. fold (wrap_unsigned (8 * size) n). rewrite wrap_signed_unsigned by lia.
  apply wrap_signed_small; [lia|done].
Qed.

Lemma ztake_to_le_bytes k size n :
  0 <= k <= size → ztake k (to_le_bytes size n) = to_le_bytes k n.
Proof. intros. apply take_le_bytes. lia. Qed.

Lemma zdrop_to_be_bytes k size n :
  0 <= k <= size → zdrop k (to_be_bytes size n) = to_be_bytes (size - k) n.
Proof.
  intros. unfold to_be_bytes, zdrop.
  rewrite <- (ztake_to_le_bytes (size - k) size n) by lia. unfold ztake.
  rewrite <- (take_drop (Z.to_nat (size - k)) (to_le_bytes size n)) at 1.
  rewrite reverse_app. apply drop_app_length'.
  rewrite length_reverse, length_drop. unfold to_le_bytes. rewrite length_le_bytes. lia.
Qed.

Lemma u_from_le_range bs : is_unsigned (zlen bs) (u_from_le_bytes bs).
Proof. apply le_value_range. Qed.

Lemma u_from_be_range bs : is_unsigned (zlen bs) (u_from_be_bytes bs).
Proof. unfold is_unsigned, u_from_be_bytes. rewrite <- zlen_reverse. apply le_value_range. Qed.

Lemma to_le_from_le bs : to_le_bytes (zlen bs) (u_from_le_bytes bs) = bs.
Proof.
  unfold to_le_bytes, u_from_le_bytes, zlen. rewrite Nat2Z.id. apply le_bytes_value.
Qed.

#[export] Hint Rewrite @zlen_to_le_bytes @zlen_to_be_bytes @zlen_to_ne_bytes
  using lia : zlen.
