(* ===== verification/Text.v ===== *)
(** * Text: digits of numbers and bytes, in ASCII

    What the Rust formatting and the JavaScript SDK share: hexadecimal pairs of bytes, and
    numbers written in a base up to 16.  Text is a list of ASCII bytes. *)

From S2P Require Import Prelude Machine.
Open Scope Z_scope.

(** A digit below 16; the letters start at [a] or at [A]. *)
Definition hex_digit (upper : bool) (n : Z) : byte :=
  u8_of_Z (if n <? 10 then 48 + n else (if upper then 55 else 87) + n).

(** The two hexadecimal digits of a byte. *)
Definition hex2 (upper : bool) (b : byte) : list byte :=
  [hex_digit upper (u8_to_Z b / 16); hex_digit upper (u8_to_Z b mod 16)].

Definition hex_text (upper : bool) (bs : list byte) : list byte := flat_map (hex2 upper) bs.

Definition hex_value (c : byte) : option Z :=
  let n := u8_to_Z c in
  if (48 <=? n) && (n <=? 57) then Some (n - 48)
  else if (97 <=? n) && (n <=? 102) then Some (n - 87)
  else if (65 <=? n) && (n <=? 70) then Some (n - 55)
  else None.

Definition hex_pair (c d : byte) : option byte :=
  match hex_value c, hex_value d with
  | Some a, Some b => Some (u8_of_Z (16 * a + b))
  | _, _ => None
  end.

Fixpoint unhex (cs : list byte) : option (list byte) :=
  match cs with
  | [] => Some []
  | c :: d :: cs =>
    match hex_pair c d, unhex cs with Some b, Some bs => Some (b :: bs) | _, _ => None end
  | _ => None
  end.

(** A number in base [base], most significant digit first; it has at most as many digits
    as bits. *)
Fixpoint digits (base : Z) (fuel : nat) (n : Z) : list byte :=
  match fuel with
  | O => []
  | S fuel => (if n <? base then [] else digits base fuel (n / base)) ++ [hex_digit false (n mod base)]
  end.
Definition to_radix (base n : Z) : list byte := digits base (S (Z.to_nat (Z.log2 n))) n.

(** The number that digits stand for, and reading it with the digits checked. *)
Definition digit_value (c : byte) : Z := default 0 (hex_value c).
Definition radix_value (base : Z) (ds : list byte) : Z := fold_left (λ n d, base * n + digit_value d) ds 0.
Definition is_digit (base : Z) (c : byte) : bool :=
  match hex_value c with Some d => d <? base | None => false end.
Definition parse_radix (base : Z) (ds : list byte) : option Z :=
  if negb (is_empty ds) && forallb (is_digit base) ds then Some (radix_value base ds) else None.

(** ** Bytes *)
Lemma hex_pair_hex2 upper b : hex_pair (hex_digit upper (u8_to_Z b / 16)) (hex_digit upper (u8_to_Z b mod 16)) = Some b.
Proof. by destruct upper, b. Qed.

Lemma hex_text_cons upper b bs :
  hex_text upper (b :: bs) = hex_digit upper (u8_to_Z b / 16) :: hex_digit upper (u8_to_Z b mod 16) :: hex_text upper bs.
Proof. done. Qed.

Lemma unhex_text upper bs : unhex (hex_text upper bs) = Some bs.
Proof. induction bs as [|b bs IH]; [done|]. rewrite hex_text_cons. cbn [unhex]. by rewrite hex_pair_hex2, IH. Qed.

Lemma hex_text_length upper bs : zlen (hex_text upper bs) = 2 * zlen bs.
Proof. induction bs as [|b bs IH]; [done|]. rewrite hex_text_cons, !zlen_cons, IH. lia. Qed.

(** ** Numbers *)
Lemma forall_below (P : Z → Prop) n d : Forall P (seqZ 0 n) → 0 <= d < n → P d.
Proof. rewrite Forall_forall. intros H Hd. apply H, elem_of_seqZ. lia. Qed.

Lemma hex_value_digit d : 0 <= d < 16 → hex_value (hex_digit false d) = Some d.
Proof. apply (forall_below (λ d, hex_value (hex_digit false d) = Some d)). by repeat constructor. Qed.

Lemma radix_value_snoc base ds d : radix_value base (ds ++ [d]) = base * radix_value base ds + digit_value d.
Proof. unfold radix_value. by rewrite fold_left_app. Qed.

Section radix.
Context (base : Z) (Hbase : 2 <= base <= 16).

Lemma digits_value fuel n : 0 <= n < 2 ^ Z.of_nat fuel → radix_value base (digits base fuel n) = n.
Proof.
  revert n. induction fuel as [|fuel IH]; intros n Hn; [cbn in *; lia|]. cbn [digits].
  pose proof (Z.mod_pos_bound n base ltac:(lia)). pose proof (Z.div_mod n base ltac:(lia)).
  rewrite radix_value_snoc. unfold digit_value. rewrite hex_value_digit by lia. cbn [default].
  destruct (Z.ltb_spec n base).
  - rewrite Z.div_small in * by lia. cbn. lia.
  - rewrite Nat2Z.inj_succ, Z.pow_succ_r in Hn by lia. rewrite IH; [cbn; lia|].
    split; [apply Z.div_pos; lia|apply Z.div_lt_upper_bound; nia].
Qed.

Lemma to_radix_value n : 0 <= n → radix_value base (to_radix base n) = n.
Proof.
  intros Hn. apply digits_value. split; [done|].
  rewrite Nat2Z.inj_succ, Z2Nat.id by apply Z.log2_nonneg.
  destruct (Z.eq_dec n 0) as [->|]; [done|]. apply Z.log2_spec. lia.
Qed.

Lemma digits_ok fuel n : forallb (is_digit base) (digits base fuel n) = true.
Proof.
  revert n. induction fuel as [|fuel IH]; intros n; [done|]. cbn [digits]. rewrite forallb_app.
  apply andb_true_intro. split; [by destruct (_ <? _)|]. cbn.
  pose proof (Z.mod_pos_bound n base ltac:(lia)). unfold is_digit. rewrite hex_value_digit by lia.
  by rewrite (proj2 (Z.ltb_lt _ _)) by lia.
Qed.

Lemma parse_to_radix n : 0 <= n → parse_radix base (to_radix base n) = Some n.
Proof.
  intros Hn. unfold parse_radix. rewrite to_radix_value by done. unfold to_radix. rewrite digits_ok.
  cbn [digits]. by destruct (_ ++ _) eqn:E; [destruct (app_cons_not_nil _ _ _ (eq_sym E))|].
Qed.

(** The first digit of a positive number is not zero. *)
Lemma digits_head fuel n : 0 < n < 2 ^ Z.of_nat fuel → ∃ d ds, digits base fuel n = d :: ds ∧ d ≠ x30.
Proof.
  revert n. induction fuel as [|fuel IH]; intros n Hn; [cbn in *; lia|]. cbn [digits].
  destruct (Z.ltb_spec n base).
  - exists (hex_digit false (n mod base)), []. split; [done|]. rewrite Z.mod_small by lia. intros E.
    pose proof (hex_value_digit n ltac:(lia)) as Hv. rewrite E in Hv. cbn in Hv. simplify_eq. lia.
  - destruct (IH (n / base)) as (d & ds & -> & Hd).
    { rewrite Nat2Z.inj_succ, Z.pow_succ_r in Hn by lia.
      split; [apply Z.div_str_pos; lia|apply Z.div_lt_upper_bound; nia]. }
    by exists d, (ds ++ [hex_digit false (n mod base)]).
Qed.

End radix.
