(* ===== verification/Witness.v ===== *)
(** * Witness: the witness-lock codec of the TypeScript SDK (src/sdk/src/witness.ts)

    [buildWitnessLock] and [parseWitnessLock] are what a wallet runs off chain;
    LockScript.v relates them to the parser of the on-chain script.  A JavaScript
    number is a [Z] (every value here is below 2^53), a [Uint8Array] a byte list,
    and an exception an [Err]. *)

From S2P Require Import Prelude Machine.
Local Open Scope rust_scope.

(** src/sdk/src/constants.ts *)
Definition LOCK_ARGS_LEN : Z := 32.
Definition PUBLIC_KEY_LEN : Z := 1952.
Definition SIGNATURE_LEN : Z := 3309.
Definition WITNESS_LOCK_BYTES : Z := 4 + PUBLIC_KEY_LEN + 4 + SIGNATURE_LEN.

Inductive WitnessError :=
| PublicKeyLength
| SignatureLength
| TooShort
| MissingSignatureLength
| LengthMismatch
| RangeError.

(** [DataView.prototype.setUint32(offset, value, true)]. *)
Definition writeU32LE (view : list byte) (offset value : Z) : result (list byte) WitnessError :=
  if offset + 4 <=? zlen view
  then Ok (splice view offset (to_le_bytes 4 (wrap_unsigned 32 value)))
  else Err RangeError.

(** [DataView.prototype.getUint32(offset, true)]. *)
Definition getUint32LE (view : list byte) (offset : Z) : result Z WitnessError :=
  if offset + 4 <=? zlen view
  then Ok (u_from_le_bytes (ztake 4 (zdrop offset view)))
  else Err RangeError.

(** [TypedArray.prototype.set(source, offset)]. *)
Definition typed_array_set (out src : list byte) (offset : Z) : result (list byte) WitnessError :=
  if offset + zlen src <=? zlen out then Ok (splice out offset src) else Err RangeError.

(** [TypedArray.prototype.slice(start, end)] for in-range bounds. *)
Definition typed_array_slice (a : list byte) (lo hi : Z) : list byte :=
  ztake (hi - lo) (zdrop lo a).

Definition buildWitnessLock (publicKey signature : list byte) : result (list byte) WitnessError :=
  if negb (zlen publicKey =? PUBLIC_KEY_LEN) then Err PublicKeyLength
  else if negb (zlen signature =? SIGNATURE_LEN) then Err SignatureLength
  else
    let output := zreplicate (4 + zlen publicKey + 4 + zlen signature) Byte.x00 in
    let? output := writeU32LE output 0 (zlen publicKey) in
    let? output := typed_array_set output publicKey 4 in
    let? output := writeU32LE output (4 + zlen publicKey) (zlen signature) in
    typed_array_set output signature (8 + zlen publicKey).

Definition parseWitnessLock (input : list byte) : result (list byte * list byte) WitnessError :=
  if zlen input <? 8 then Err TooShort
  else
    let? publicKeyLen := getUint32LE input 0 in
    let publicKeyStart := 4 in
    let publicKeyEnd := publicKeyStart + publicKeyLen in
    if zlen input <? publicKeyEnd + 4 then Err MissingSignatureLength
    else
      let? signatureLen := getUint32LE input publicKeyEnd in
      let signatureStart := publicKeyEnd + 4 in
      let signatureEnd := signatureStart + signatureLen in
      if negb (zlen input =? signatureEnd) then Err LengthMismatch
      else
        let publicKey := typed_array_slice input publicKeyStart publicKeyEnd in
        let signature := typed_array_slice input signatureStart signatureEnd in
        if negb (zlen publicKey =? PUBLIC_KEY_LEN) then Err PublicKeyLength
        else if negb (zlen signature =? SIGNATURE_LEN) then Err SignatureLength
        else Ok (publicKey, signature).

(** ** The wire format, declaratively

    The format of src/README.md: [u32 pubkey_len LE | pubkey | u32 sig_len LE | sig]. *)
Definition frame (payload : list byte) : list byte :=
  to_le_bytes 4 (zlen payload) ++ payload.

Definition witness_format (publicKey signature : list byte) : list byte :=
  frame publicKey ++ frame signature.

(** A payload whose length fits the [u32] length field. *)
Definition framed (payload : list byte) : Prop := zlen payload < 2 ^ 32.

Lemma zlen_frame p : zlen (frame p) = 4 + zlen p.
Proof. unfold frame. zlia. Qed.
#[export] Hint Rewrite zlen_frame : zlen.

Lemma frame_length_field p rest :
  framed p → u_from_le_bytes (ztake 4 (frame p ++ rest)) = zlen p.
Proof.
  intros Hp. unfold frame. rewrite <- app_assoc, ztake_app_exact by zlia.
  rewrite u_from_to_le by lia. apply Z.mod_small. pose proof (zlen_nonneg p).
  unfold framed in Hp. lia.
Qed.

Lemma frame_payload p rest : ztake (zlen p) (zdrop 4 (frame p ++ rest)) = p.
Proof.
  unfold frame. rewrite <- app_assoc, zdrop_app_exact by zlia.
  by apply ztake_app_exact.
Qed.

Lemma frame_length_field_end p :
  framed p → u_from_le_bytes (ztake 4 (frame p)) = zlen p.
Proof. rewrite <- (app_nil_r (frame p)). apply frame_length_field. Qed.

Lemma frame_payload_end p : ztake (zlen p) (zdrop 4 (frame p)) = p.
Proof. rewrite <- (app_nil_r (frame p)). apply frame_payload. Qed.

Lemma frame_rest p rest : zdrop (4 + zlen p) (frame p ++ rest) = rest.
Proof. apply zdrop_app_exact. by rewrite zlen_frame. Qed.

(** Every byte string of at least [4 + n] bytes whose length field says [n] is a
    frame followed by the remaining bytes. *)
Lemma frame_of_bytes data :
  4 + u_from_le_bytes (ztake 4 data) <= zlen data →
  let p := ztake (u_from_le_bytes (ztake 4 data)) (zdrop 4 data) in
  framed p ∧ zlen p = u_from_le_bytes (ztake 4 data) ∧
  data = frame p ++ zdrop (4 + u_from_le_bytes (ztake 4 data)) data.
Proof.
  intros Hn p. pose proof (u_from_le_range (ztake 4 data)) as Hr.
  unfold is_unsigned in Hr.
  assert (H4 : zlen (ztake 4 data) = 4) by (apply zlen_take; lia).
  rewrite H4 in Hr.
  assert (Hp : zlen p = u_from_le_bytes (ztake 4 data)) by (subst p; zlia).
  split; [unfold framed; lia|]. split; [done|].
  assert (Hf : to_le_bytes 4 (u_from_le_bytes (ztake 4 data)) = ztake 4 data)
    by (rewrite <- H4 at 1; apply to_le_from_le).
  unfold frame. rewrite Hp, Hf. subst p. rewrite <- app_assoc.
  rewrite <- (zdrop_zdrop _ 4) by lia. by rewrite !ztake_zdrop.
Qed.

Lemma splice_zeros a b n new :
  n = zlen new → 0 <= b →
  splice (a ++ zreplicate (n + b) Byte.x00) (zlen a) new
  = (a ++ new) ++ zreplicate b Byte.x00.
Proof.
  intros Hn Hb. pose proof (zlen_nonneg new). unfold splice.
  rewrite ztake_app_exact by done.
  rewrite zdrop_app_r by lia.
  replace (zdrop _ (zreplicate (n + b) Byte.x00)) with (zreplicate b Byte.x00).
  - by rewrite app_assoc.
  - unfold zdrop, zreplicate. rewrite drop_replicate. f_equal. lia.
Qed.

Lemma typed_array_set_append a new b :
  0 <= b →
  typed_array_set (a ++ zreplicate (zlen new + b) Byte.x00) new (zlen a)
  = Ok ((a ++ new) ++ zreplicate b Byte.x00).
Proof.
  intros. unfold typed_array_set. pose proof (zlen_nonneg new).
  rewrite (proj2 (Z.leb_le _ _)) by zlia. by rewrite splice_zeros.
Qed.

Lemma writeU32LE_append a v b :
  0 <= b → 0 <= v < 2 ^ 32 →
  writeU32LE (a ++ zreplicate (4 + b) Byte.x00) (zlen a) v
  = Ok ((a ++ to_le_bytes 4 v) ++ zreplicate b Byte.x00).
Proof.
  intros. unfold writeU32LE.
  rewrite (proj2 (Z.leb_le _ _)) by zlia.
  by rewrite wrap_unsigned_small, splice_zeros by zlia.
Qed.

Lemma buildWitnessLock_ok pk sg :
  zlen pk = PUBLIC_KEY_LEN → zlen sg = SIGNATURE_LEN →
  buildWitnessLock pk sg = Ok (witness_format pk sg).
Proof.
  intros Hpk Hsg. unfold buildWitnessLock.
  rewrite (proj2 (Z.eqb_eq _ _) Hpk), (proj2 (Z.eqb_eq _ _) Hsg). cbn [negb].
  assert (0 <= zlen pk < 2 ^ 32) by (rewrite Hpk; done).
  assert (0 <= zlen sg < 2 ^ 32) by (rewrite Hsg; done).
  replace (4 + zlen pk + 4 + zlen sg) with (4 + (zlen pk + (4 + (zlen sg + 0)))) by lia.
  rewrite (writeU32LE_append [] _ (zlen pk + (4 + (zlen sg + 0)))) by lia. cbn [result_bind].
  replace (typed_array_set _ pk 4) with
    (typed_array_set (([] ++ to_le_bytes 4 (zlen pk)) ++ zreplicate (zlen pk + (4 + (zlen sg + 0))) Byte.x00)
       pk (zlen ([] ++ to_le_bytes 4 (zlen pk)))) by (f_equal; zlia).
  rewrite typed_array_set_append by lia. cbn [result_bind].
  replace (4 + zlen pk) with (zlen (([] ++ to_le_bytes 4 (zlen pk)) ++ pk)) by zlia.
  rewrite writeU32LE_append by lia. cbn [result_bind].
  replace (8 + zlen pk) with
    (zlen ((([] ++ to_le_bytes 4 (zlen pk)) ++ pk) ++ to_le_bytes 4 (zlen sg))) by zlia.
  rewrite typed_array_set_append by lia.
  unfold witness_format, frame. f_equal. cbn [app zreplicate Z.to_nat replicate].
  by rewrite app_nil_r, <- !app_assoc.
Qed.

Lemma parseWitnessLock_ok pk sg input :
  parseWitnessLock input = Ok (pk, sg) ↔
  zlen pk = PUBLIC_KEY_LEN ∧ zlen sg = SIGNATURE_LEN ∧ input = witness_format pk sg.
Proof.
  split.
  - unfold parseWitnessLock.
    case_bool; [done|]. unfold getUint32LE at 1.
    rewrite (proj2 (Z.leb_le _ _)) by lia. cbn [result_bind]. rewrite zdrop_0.
    set (n := u_from_le_bytes (ztake 4 input)).
    case_bool; [done|]. unfold getUint32LE.
    rewrite (proj2 (Z.leb_le _ _)) by lia. cbn [result_bind].
    set (m := u_from_le_bytes (ztake 4 (zdrop (4 + n) input))).
    destruct (zlen input =? 4 + n + 4 + m) eqn:Hlen; [|done]. apply Z.eqb_eq in Hlen.
    cbn [negb]. unfold typed_array_slice.
    replace (4 + n - 4) with n by lia.
    replace (4 + n + 4 + m - (4 + n + 4)) with m by lia.
    pose proof (proj1 (u_from_le_range (ztake 4 input))) as Hn0. fold n in Hn0.
    pose proof (proj1 (u_from_le_range (ztake 4 (zdrop (4 + n) input)))) as Hm0. fold m in Hm0.
    destruct (frame_of_bytes input) as (_ & Hp & Hin); [fold n; lia|]. fold n in Hp, Hin.
    destruct (frame_of_bytes (zdrop (4 + n) input)) as (_ & Hs & Hin2); [fold m; zlia|].
    fold m in Hs, Hin2. rewrite zdrop_zdrop in Hs, Hin2 by lia.
    rewrite (zdrop_zdrop (4 + m)) in Hin2 by lia.
    rewrite (zdrop_ge (4 + n + (4 + m))) in Hin2 by lia. rewrite app_nil_r in Hin2.
    case_bool; [done|]. case_bool; [done|]. intros [= <- <-].
    rewrite negb_false_iff, Z.eqb_eq in *.
    split; [done|]. split; [done|]. unfold witness_format. by rewrite <- Hin2, <- Hin.
  - intros (Hpk & Hsg & ->). unfold parseWitnessLock, getUint32LE, typed_array_slice.
    unfold witness_format.
    assert (framed pk) by (unfold framed; rewrite Hpk; done).
    assert (framed sg) by (unfold framed; rewrite Hsg; done).
    rewrite (proj2 (Z.ltb_ge _ _)) by zlia.
    rewrite (proj2 (Z.leb_le _ _)) by zlia. cbn [result_bind].
    rewrite zdrop_0, frame_length_field by done.
    rewrite (proj2 (Z.ltb_ge _ _)) by zlia.
    rewrite (proj2 (Z.leb_le _ _)) by zlia. cbn [result_bind].
    rewrite frame_rest, frame_length_field_end by done.
    rewrite (proj2 (Z.eqb_eq _ _)) by zlia. cbn [negb].
    replace (4 + zlen pk - 4) with (zlen pk) by lia. rewrite frame_payload.
    replace (4 + zlen pk + 4 + zlen sg - (4 + zlen pk + 4)) with (zlen sg) by lia.
    rewrite <- (zdrop_zdrop 4 (4 + zlen pk)), frame_rest by zlia.
    rewrite frame_payload_end.
    by rewrite (proj2 (Z.eqb_eq _ _) Hpk), (proj2 (Z.eqb_eq _ _) Hsg).
Qed.
