(* ===== verification/LockScript.v ===== *)
(** * LockScript: the on-chain lock (src/contracts/dillithium-lock/src/main.rs)

    [program_entry] is the whole entry point, guard by guard, in the order of the
    source; [parse_witness] and [blake2b_256] are its helpers.  The crates it calls
    (ckb-std, fips204, blake2b-ref) are the classes [CkbStd], [Fips204] and
    [Blake2bRef]; the syscalls of one run are the record [Syscalls]. *)

From S2P Require Import Prelude Machine Witness.

(** ckb-std: the molecule types the script reads and the syscalls' errors. *)
Class CkbStd := {
  Script : Type;
  args_raw_data : Script → list byte;
  WitnessArgs : Type;
  lock_raw_data : WitnessArgs → option (list byte);
  Source : Type;
  GroupInput : Source;
  SysError : Type;
}.

(** What the high-level syscalls return in one run of the script. *)
Record Syscalls `{CkbStd} := {
  load_script : result Script SysError;
  load_tx_hash : result (list byte) SysError;
  load_witness_args : Z → Source → result WitnessArgs SysError;
}.

(** fips204, module [ml_dsa_65]. *)
Class Fips204 := {
  PK_LEN : Z;
  SIG_LEN : Z;
  PublicKey : Type;
  try_from_bytes : list byte → option PublicKey;
  verify : PublicKey → list byte → list byte → list byte → bool;
}.

(** blake2b-ref: [Blake2bBuilder::new(n).personal(p).build()], [update], [finalize]. *)
Class Blake2bRef := {
  Hasher : Type;
  blake2b_build : Z → list byte → Hasher;
  blake2b_update : Hasher → list byte → Hasher;
  blake2b_finalize : Hasher → list byte → list byte;
}.

Definition CKB_PERSONALIZATION : list byte :=
  bstr "ckb-default-hash".

Definition ERR_INVALID_ARGS_LENGTH : Z := 1.
Definition ERR_INVALID_WITNESS : Z := 2.
Definition ERR_PUBKEY_HASH_MISMATCH : Z := 3.
Definition ERR_INVALID_PUBKEY : Z := 4.
Definition ERR_INVALID_SIGNATURE : Z := 5.
Definition ERR_SIGNATURE_VERIFICATION : Z := 6.

(** [<[u8; N]>::try_from(slice)]. *)
Definition try_into_array (n : Z) (l : list byte) : option (list byte) :=
  if zlen l =? n then Some l else None.

Definition blake2b_256 `{Blake2bRef} (data : list byte) : list byte :=
  let hasher := blake2b_build 32 CKB_PERSONALIZATION in
  let hasher := blake2b_update hasher data in
  let result := zreplicate 32 Byte.x00 in
  blake2b_finalize hasher result.

Definition parse_witness `{Target} (data : list byte) :
    outcome (option (list byte * list byte)) :=
  if zlen data <? 8 then Ret None else
  head ← slice_range data 0 4;
  match try_into_array 4 head with
  | None => Ret None
  | Some head =>
    let pubkey_len := wrap_unsigned ptr_width (u_from_le_bytes head) in
    pubkey_end ← uadd 4 pubkey_len;
    need ← uadd pubkey_end 4;
    if zlen data <? need then Ret None else
    raw_pubkey ← slice_range data 4 pubkey_end;
    sig_field_end ← uadd pubkey_end 4;
    field ← slice_range data pubkey_end sig_field_end;
    match try_into_array 4 field with
    | None => Ret None
    | Some field =>
      let sig_len := wrap_unsigned ptr_width (u_from_le_bytes field) in
      sig_start ← uadd pubkey_end 4;
      sig_end ← uadd sig_start sig_len;
      if zlen data <? sig_end then Ret None else
      raw_sig ← slice_range data sig_start sig_end;
      Ret (Some (raw_pubkey, raw_sig))
    end
  end.

Section program.
Context `{T : Target, C : !CkbStd, F : !Fips204, B : !Blake2bRef}.

Definition PUBKEY_BYTES : Z := PK_LEN.
Definition SIG_BYTES : Z := SIG_LEN.

Definition program_entry (sys : Syscalls) : outcome Z :=
  match load_script sys with
  | Err _ => Ret ERR_INVALID_ARGS_LENGTH
  | Ok script =>
    let args_raw := args_raw_data script in
    if negb (zlen args_raw =? 32) then Ret ERR_INVALID_ARGS_LENGTH else
    match load_tx_hash sys with
    | Err _ => Ret ERR_INVALID_WITNESS
    | Ok tx_hash =>
      match load_witness_args sys 0 GroupInput with
      | Err _ => Ret ERR_INVALID_WITNESS
      | Ok witness_args =>
        match lock_raw_data witness_args with
        | None => Ret ERR_INVALID_WITNESS
        | Some lock_field =>
          parsed ← parse_witness lock_field;
          match parsed with
          | None => Ret ERR_INVALID_WITNESS
          | Some (raw_pubkey, raw_sig) =>
            let pubkey_hash := blake2b_256 raw_pubkey in
            if bool_decide (pubkey_hash ≠ args_raw) then Ret ERR_PUBKEY_HASH_MISMATCH else
            if negb (zlen raw_pubkey =? PUBKEY_BYTES) then Ret ERR_INVALID_PUBKEY else
            match try_into_array PUBKEY_BYTES raw_pubkey with
            | None => Ret ERR_INVALID_PUBKEY
            | Some pubkey_array =>
              match try_from_bytes pubkey_array with
              | None => Ret ERR_INVALID_PUBKEY
              | Some public_key =>
                if negb (zlen raw_sig =? SIG_BYTES) then Ret ERR_INVALID_SIGNATURE else
                match try_into_array SIG_BYTES raw_sig with
                | None => Ret ERR_INVALID_SIGNATURE
                | Some sig_array =>
                  if negb (verify public_key tx_hash sig_array [])
                  then Ret ERR_SIGNATURE_VERIFICATION
                  else Ret 0
                end
              end
            end
          end
        end
      end
    end
  end.

End program.

(** ** The specification *)

(** A lock field carries [pk] and [sg] when it starts with their encoding. *)
Definition carries (lock_field pk sg : list byte) : Prop :=
  framed pk ∧ framed sg ∧ ∃ tail, lock_field = witness_format pk sg ++ tail.

Section spec.
Context `{C : CkbStd, F : Fips204, B : Blake2bRef}.

(** The run reaches its witness: [args] are the 32 bytes of lock arguments,
    [tx_hash] the message and [lock_field] the content of [witness.lock]. *)
Definition run_inputs (sys : Syscalls) (args tx_hash lock_field : list byte) : Prop :=
  ∃ script w, load_script sys = Ok script ∧ args = args_raw_data script ∧
  zlen args = 32 ∧ load_tx_hash sys = Ok tx_hash ∧
  load_witness_args sys 0 GroupInput = Ok w ∧ lock_raw_data w = Some lock_field.

(** What the lock promises: the spender shows a preimage of the lock arguments
    that is an ML-DSA-65 public key, and a signature of the transaction hash. *)
Definition unlocks (sys : Syscalls) : Prop :=
  ∃ args tx_hash lock_field pk sg key,
    run_inputs sys args tx_hash lock_field ∧ carries lock_field pk sg ∧
    blake2b_256 pk = args ∧ zlen pk = PK_LEN ∧ try_from_bytes pk = Some key ∧
    zlen sg = SIG_LEN ∧ verify key tx_hash sg [] = true.

(** The exit code of a run, one rule per outcome: each error rule carries the
    checks the run has passed and the one it fails. *)
Inductive exit_code (sys : Syscalls) : Z → Prop :=
| ExitScript e : load_script sys = Err e → exit_code sys ERR_INVALID_ARGS_LENGTH
| ExitArgs script : load_script sys = Ok script → zlen (args_raw_data script) ≠ 32 →
    exit_code sys ERR_INVALID_ARGS_LENGTH
| ExitTxHash script e : load_script sys = Ok script → zlen (args_raw_data script) = 32 →
    load_tx_hash sys = Err e → exit_code sys ERR_INVALID_WITNESS
| ExitWitness script h e : load_script sys = Ok script → zlen (args_raw_data script) = 32 →
    load_tx_hash sys = Ok h → load_witness_args sys 0 GroupInput = Err e →
    exit_code sys ERR_INVALID_WITNESS
| ExitNoLock script h w : load_script sys = Ok script → zlen (args_raw_data script) = 32 →
    load_tx_hash sys = Ok h → load_witness_args sys 0 GroupInput = Ok w →
    lock_raw_data w = None → exit_code sys ERR_INVALID_WITNESS
| ExitMalformed args h lock_field : run_inputs sys args h lock_field →
    (∀ pk sg, ¬ carries lock_field pk sg) → exit_code sys ERR_INVALID_WITNESS
| ExitHash args h lock_field pk sg : run_inputs sys args h lock_field →
    carries lock_field pk sg → blake2b_256 pk ≠ args → exit_code sys ERR_PUBKEY_HASH_MISMATCH
| ExitPubkey args h lock_field pk sg : run_inputs sys args h lock_field →
    carries lock_field pk sg → blake2b_256 pk = args →
    zlen pk ≠ PK_LEN ∨ try_from_bytes pk = None → exit_code sys ERR_INVALID_PUBKEY
| ExitSignature args h lock_field pk sg key : run_inputs sys args h lock_field →
    carries lock_field pk sg → blake2b_256 pk = args → zlen pk = PK_LEN →
    try_from_bytes pk = Some key → zlen sg ≠ SIG_LEN → exit_code sys ERR_INVALID_SIGNATURE
| ExitVerify args h lock_field pk sg key : run_inputs sys args h lock_field →
    carries lock_field pk sg → blake2b_256 pk = args → zlen pk = PK_LEN →
    try_from_bytes pk = Some key → zlen sg = SIG_LEN → verify key h sg [] = false →
    exit_code sys ERR_SIGNATURE_VERIFICATION
| ExitOk : unlocks sys → exit_code sys 0.

End spec.

(** ** Lemmas on the parser *)
Lemma try_into_array_ok n l : zlen l = n → try_into_array n l = Some l.
Proof. intros <-. unfold try_into_array. by rewrite Z.eqb_refl. Qed.

Section parser.
Context `{T : Target}.
Hypothesis Hptr : ptr_width = 64.

Lemma usize_max_64 : usize_max = 2 ^ 64 - 1.
Proof. unfold usize_max. by rewrite Hptr. Qed.

Lemma u32_as_usize bs :
  zlen bs = 4 → wrap_unsigned ptr_width (u_from_le_bytes bs) = u_from_le_bytes bs.
Proof.
  intros Hl. apply wrap_unsigned_small. pose proof (u_from_le_range bs) as [? ?].
  rewrite Hl in *. rewrite Hptr. lia.
Qed.

Lemma u32_bound bs : zlen bs = 4 → 0 <= u_from_le_bytes bs < 2 ^ 32.
Proof. intros Hl. pose proof (u_from_le_range bs) as [? ?]. rewrite Hl in *. done. Qed.

(** The parser as plain arithmetic: no bound check of the source can fail. *)
Lemma parse_witness_eq data :
  parse_witness data = Ret (
    if zlen data <? 8 then None else
    let n := u_from_le_bytes (ztake 4 data) in
    if zlen data <? 4 + n + 4 then None else
    let m := u_from_le_bytes (ztake 4 (zdrop (4 + n) data)) in
    if zlen data <? 4 + n + 4 + m then None else
    Some (ztake n (zdrop 4 data), ztake m (zdrop (4 + n + 4) data))).
Proof.
  unfold parse_witness. destruct (Z.ltb_spec (zlen data) 8); [done|].
  rewrite slice_range_ok by lia. rewrite bind_ret, zdrop_0.
  assert (H4 : zlen (ztake 4 data) = 4) by (apply zlen_take; lia).
  rewrite try_into_array_ok, u32_as_usize by done. cbv zeta.
  pose proof (u32_bound _ H4). set (n := u_from_le_bytes (ztake 4 data)) in *.
  pose proof usize_max_64.
  rewrite uadd_ok, bind_ret, uadd_ok, bind_ret by lia.
  destruct (Z.ltb_spec (zlen data) (4 + n + 4)); [done|].
  rewrite slice_range_ok, bind_ret, bind_ret, slice_range_ok, bind_ret by lia.
  rewrite (zdrop_ztake (4 + n)) by lia.
  replace (4 + n + 4 - (4 + n)) with 4 by lia.
  assert (H4' : zlen (ztake 4 (zdrop (4 + n) data)) = 4) by zlia.
  rewrite try_into_array_ok, u32_as_usize by done. rewrite bind_ret.
  pose proof (u32_bound _ H4').
  set (m := u_from_le_bytes (ztake 4 (zdrop (4 + n) data))) in *.
  rewrite uadd_ok, bind_ret by lia.
  destruct (Z.ltb_spec (zlen data) (4 + n + 4 + m)); [done|].
  rewrite slice_range_ok, bind_ret by lia. rewrite !zdrop_ztake by lia.
  do 4 f_equal; lia.
Qed.

Lemma parse_witness_carries data pk sg :
  parse_witness data = Ret (Some (pk, sg)) ↔ carries data pk sg.
Proof.
  rewrite parse_witness_eq. split.
  - case_bool; [done|]. cbv zeta. set (n := u_from_le_bytes (ztake 4 data)).
    case_bool; [done|]. set (m := u_from_le_bytes (ztake 4 (zdrop (4 + n) data))).
    case_bool; [done|]. intros [= <- <-].
    destruct (frame_of_bytes data) as (Hp & _ & Hin); [fold n; lia|]. fold n in Hp, Hin.
    pose proof (proj1 (u_from_le_range (ztake 4 data))) as Hn0. fold n in Hn0.
    destruct (frame_of_bytes (zdrop (4 + n) data)) as (Hs & _ & Hin2); [fold m; zlia|].
    fold m in Hs, Hin2. rewrite zdrop_zdrop in Hs, Hin2 by lia.
    split; [done|]. split; [done|].
    exists (zdrop (4 + m) (zdrop (4 + n) data)).
    unfold witness_format. by rewrite <- app_assoc, <- Hin2, <- Hin.
  - intros (Hp & Hs & tail & ->). unfold witness_format. rewrite <- app_assoc.
    assert (0 <= zlen pk ∧ 0 <= zlen sg ∧ 0 <= zlen tail) by (pose_zlen; zlia).
    rewrite (proj2 (Z.ltb_ge _ _)) by zlia. cbv zeta.
    rewrite frame_length_field by done.
    rewrite (proj2 (Z.ltb_ge _ _)) by zlia. rewrite frame_rest, frame_length_field by done.
    rewrite (proj2 (Z.ltb_ge _ _)) by zlia. rewrite frame_payload.
    rewrite <- (zdrop_zdrop 4 (4 + zlen pk)), frame_rest, frame_payload by lia. done.
Qed.

Lemma parse_witness_total data : ∃ r, parse_witness data = Ret r.
Proof. rewrite parse_witness_eq. eauto. Qed.

Lemma carries_unique data pk sg pk' sg' :
  carries data pk sg → carries data pk' sg' → pk = pk' ∧ sg = sg'.
Proof. rewrite <- !parse_witness_carries. intros -> [=]. done. Qed.

Lemma carries_app data pk sg tail : carries data pk sg → carries (data ++ tail) pk sg.
Proof.
  intros (? & ? & tl & ->). split; [done|]. split; [done|]. exists (tl ++ tail).
  by rewrite app_assoc.
Qed.

End parser.

(** ** Lemmas on the entry point *)
Section entry.
Context `{T : Target, C : !CkbStd, F : !Fips204, B : !Blake2bRef}.
Hypothesis Hptr : ptr_width = 64.

(** The tail of [program_entry] once the witness is loaded. *)
Lemma program_entry_run sys args h lock_field :
  run_inputs sys args h lock_field →
  program_entry sys =
    match parse_witness lock_field with
    | Ret (Some (pk, sg)) =>
      Ret (if bool_decide (blake2b_256 pk ≠ args) then ERR_PUBKEY_HASH_MISMATCH
           else if negb (zlen pk =? PK_LEN) then ERR_INVALID_PUBKEY
           else match try_from_bytes pk with
                | None => ERR_INVALID_PUBKEY
                | Some key =>
                  if negb (zlen sg =? SIG_LEN) then ERR_INVALID_SIGNATURE
                  else if verify key h sg [] then 0 else ERR_SIGNATURE_VERIFICATION
                end)
    | Ret None => Ret ERR_INVALID_WITNESS
    | Fault f => Fault f
    end.
Proof using All.
  intros (script & w & Hs & -> & Ha & Hh & Hw & Hl). unfold program_entry.
  rewrite Hs, Ha, Hh, Hw, Hl. cbn [negb Z.eqb Pos.eqb].
  destruct (parse_witness lock_field) as [[[pk sg]|]|f]; mret; [|done|done].
  case_bool; [done|]. unfold PUBKEY_BYTES, SIG_BYTES, try_into_array.
  destruct (zlen pk =? PK_LEN); cbn [negb]; [|done].
  destruct (try_from_bytes pk); [|done].
  destruct (zlen sg =? SIG_LEN); cbn [negb]; [|done].
  by destruct (verify _ _ _ _).
Qed.

Lemma program_entry_carries sys args h lock_field pk sg :
  run_inputs sys args h lock_field → carries lock_field pk sg →
  program_entry sys =
    Ret (if bool_decide (blake2b_256 pk ≠ args) then ERR_PUBKEY_HASH_MISMATCH
         else if negb (zlen pk =? PK_LEN) then ERR_INVALID_PUBKEY
         else match try_from_bytes pk with
              | None => ERR_INVALID_PUBKEY
              | Some key =>
                if negb (zlen sg =? SIG_LEN) then ERR_INVALID_SIGNATURE
                else if verify key h sg [] then 0 else ERR_SIGNATURE_VERIFICATION
              end).
Proof using All.
  intros Hrun Hc. rewrite (program_entry_run _ _ _ _ Hrun).
  apply parse_witness_carries in Hc; [|done]. by rewrite Hc.
Qed.

Lemma program_entry_malformed sys args h lock_field :
  run_inputs sys args h lock_field → (∀ pk sg, ¬ carries lock_field pk sg) →
  program_entry sys = Ret ERR_INVALID_WITNESS.
Proof using All.
  intros Hrun Hc. rewrite (program_entry_run _ _ _ _ Hrun).
  destruct (parse_witness_total Hptr lock_field) as [[[pk sg]|] Hp]; rewrite Hp; [|done].
  apply parse_witness_carries in Hp; [|done]. by apply Hc in Hp.
Qed.

Lemma exit_code_complete sys c : exit_code sys c → program_entry sys = Ret c.
Proof using All.
  intros Hx.
  assert (Hearly : ∀ script, load_script sys = Ok script → zlen (args_raw_data script) = 32 →
    (zlen (args_raw_data script) =? 32) = true) by (intros ? _ ->; done).
  destruct Hx as [e He|script Hs Ha|script e Hs Ha He|script h e Hs Ha Hh He
    |script h w Hs Ha Hh Hw Hl|args h lf Hr Hc|args h lf pk sg Hr Hc Hb
    |args h lf pk sg Hr Hc Hb Hk|args h lf pk sg key Hr Hc Hb Hp Hk Hg
    |args h lf pk sg key Hr Hc Hb Hp Hk Hg Hv|(args & h & lf & pk & sg & key & Hr & Hc & Hb & Hp & Hk & Hg & Hv)].
  - unfold program_entry. by rewrite He.
  - unfold program_entry. rewrite Hs, (proj2 (Z.eqb_neq _ _) Ha). done.
  - unfold program_entry. rewrite Hs, (Hearly _ Hs Ha), He. done.
  - unfold program_entry. rewrite Hs, (Hearly _ Hs Ha), Hh, He. done.
  - unfold program_entry. rewrite Hs, (Hearly _ Hs Ha), Hh, Hw, Hl. done.
  - by apply (program_entry_malformed _ _ _ _ Hr).
  - rewrite (program_entry_carries _ _ _ _ _ _ Hr Hc). by rewrite bool_decide_true.
  - rewrite (program_entry_carries _ _ _ _ _ _ Hr Hc). rewrite bool_decide_false by auto.
    destruct Hk as [Hk|Hk]; [by rewrite (proj2 (Z.eqb_neq _ _) Hk)|rewrite Hk; by destruct (_ =? _)].
  - rewrite (program_entry_carries _ _ _ _ _ _ Hr Hc). rewrite bool_decide_false by auto.
    by rewrite Hp, Z.eqb_refl, Hk, (proj2 (Z.eqb_neq _ _) Hg).
  - rewrite (program_entry_carries _ _ _ _ _ _ Hr Hc). rewrite bool_decide_false by auto.
    by rewrite Hp, Z.eqb_refl, Hk, Hg, Z.eqb_refl, Hv.
  - rewrite (program_entry_carries _ _ _ _ _ _ Hr Hc). rewrite bool_decide_false by auto.
    by rewrite Hp, Z.eqb_refl, Hk, Hg, Z.eqb_refl, Hv.
Qed.

Lemma run_exit_code sys args h lock_field :
  run_inputs sys args h lock_field → ∃ c, exit_code sys c.
Proof using All.
  intros Hr. destruct (parse_witness_total Hptr lock_field) as [[[pk sg]|] Hp].
  - apply parse_witness_carries in Hp as Hc; [|done].
    destruct (decide (blake2b_256 pk = args)) as [Hb|]; [|by eexists; eapply ExitHash].
    destruct (decide (zlen pk = PK_LEN)) as [Hl|]; [|by eexists; eapply ExitPubkey; eauto].
    destruct (try_from_bytes pk) as [key|] eqn:Hk; [|by eexists; eapply ExitPubkey; eauto].
    destruct (decide (zlen sg = SIG_LEN)) as [Hg|]; [|by eexists; eapply ExitSignature].
    destruct (verify key h sg []) eqn:Hv; [|by eexists; eapply ExitVerify].
    exists 0. apply ExitOk. unfold unlocks. naive_solver.
  - eexists. eapply ExitMalformed; [done|]. intros pk sg Hc.
    apply parse_witness_carries in Hc; [|done]. congruence.
Qed.

Lemma exit_code_total sys : ∃ c, exit_code sys c.
Proof using All.
  destruct (load_script sys) as [script|e] eqn:Hs; [|by eexists; eapply ExitScript].
  destruct (decide (zlen (args_raw_data script) = 32)) as [Ha|]; [|by eexists; eapply ExitArgs].
  destruct (load_tx_hash sys) as [h|e] eqn:Hh; [|by eexists; eapply ExitTxHash].
  destruct (load_witness_args sys 0 GroupInput) as [w|e] eqn:Hw; [|by eexists; eapply ExitWitness].
  destruct (lock_raw_data w) as [lf|] eqn:Hl; [|by eexists; eapply ExitNoLock].
  apply (run_exit_code sys (args_raw_data script) h lf). unfold run_inputs. naive_solver.
Qed.

Lemma program_entry_exit_code sys c : program_entry sys = Ret c ↔ exit_code sys c.
Proof using All.
  split; [|apply exit_code_complete]. intros Hp.
  destruct (exit_code_total sys) as [c' Hx].
  pose proof (exit_code_complete _ _ Hx). congruence.
Qed.

Lemma exit_code_range sys c : exit_code sys c → 0 <= c <= 6.
Proof using Type. by destruct 1. Qed.

Lemma exit_code_0 sys : exit_code sys 0 ↔ unlocks sys.
Proof using Type.
  split; [|apply ExitOk]. inversion 1; done.
Qed.

End entry.

(** ** A concrete instance of the external crates, for the witnesses

    A script is its arguments, the hash of a string is its first bytes, and a
    signature verifies when it starts with the first byte of the key. *)
Definition demo_ckb : CkbStd :=
  {| Script := list byte; args_raw_data := id;
     WitnessArgs := option (list byte); lock_raw_data := id;
     Source := bool; GroupInput := true; SysError := unit |}.

Definition demo_fips : Fips204 :=
  {| PK_LEN := PUBLIC_KEY_LEN; SIG_LEN := SIGNATURE_LEN; PublicKey := byte;
     try_from_bytes := head;
     verify key _ sg _ := bool_decide (head sg = Some key) |}.

Definition demo_blake : Blake2bRef :=
  {| Hasher := list byte; blake2b_build _ _ := []; blake2b_update h d := h ++ d;
     blake2b_finalize h out := ztake (zlen out) (h ++ out) |}.

Definition demo_pk : list byte := zreplicate PUBLIC_KEY_LEN Byte.x07.
Definition demo_sig : list byte := zreplicate SIGNATURE_LEN Byte.x07.

Definition demo_sys (args lock_field : list byte) : @Syscalls demo_ckb :=
  {| load_script := Ok args : result (@Script demo_ckb) (@SysError demo_ckb);
     load_tx_hash := Ok (zreplicate 32 Byte.x01);
     load_witness_args _ _ := Ok (Some lock_field : @WitnessArgs demo_ckb) |}.

Definition demo_run : @Syscalls demo_ckb :=
  demo_sys (zreplicate 32 Byte.x07) (witness_format demo_pk demo_sig).

Lemma demo_run_inputs :
  run_inputs (C := demo_ckb) demo_run (zreplicate 32 Byte.x07) (zreplicate 32 Byte.x01)
    (witness_format demo_pk demo_sig).
Proof.
  exists (zreplicate 32 Byte.x07), (Some (witness_format demo_pk demo_sig)).
  repeat split; reflexivity.
Qed.

(** ** Properties *)

(** C1: on the 64-bit target the script returns 0 exactly when the run unlocks
    the cell: the witness carries a public key that hashes to the lock arguments
    and decodes, and a signature of the transaction hash that verifies under it. *)
Theorem lock_accepts_iff_unlocks `{T : Target, C : !CkbStd, F : !Fips204, B : !Blake2bRef}
    (sys : Syscalls) :
  ptr_width = 64 → (program_entry sys = Ret 0 ↔ unlocks sys).
Proof. intros Hp. by rewrite program_entry_exit_code, exit_code_0. Qed.

Lemma lock_accepts_iff_unlocks_witness :
  unlocks (C := demo_ckb) (F := demo_fips) (B := demo_blake) demo_run.
Proof.
  apply (lock_accepts_iff_unlocks (T := riscv64) (C := demo_ckb) (F := demo_fips)
    (B := demo_blake) demo_run); [reflexivity|].
  vm_compute. reflexivity.
Defined.

(** C2: every run returns, with exactly the code [exit_code] assigns to it: the
    first check that fails decides the code, and the codes are 0 to 6.  In
    particular no slice, addition or conversion of the script panics. *)
Theorem lock_exit_codes `{T : Target, C : !CkbStd, F : !Fips204, B : !Blake2bRef}
    (sys : Syscalls) :
  ptr_width = 64 →
  (∃ c, program_entry sys = Ret c ∧ 0 <= c <= 6) ∧
  ∀ c, program_entry sys = Ret c ↔ exit_code sys c.
Proof.
  intros Hp. split; [|intros c; by apply program_entry_exit_code].
  destruct (exit_code_total Hp sys) as [c Hc]. exists c.
  split; [by apply exit_code_complete | by eapply exit_code_range].
Qed.

Lemma lock_exit_codes_witness :
  exit_code (C := demo_ckb) (F := demo_fips) (B := demo_blake)
    (demo_sys (zreplicate 32 Byte.x09) (witness_format demo_pk demo_sig))
    ERR_PUBKEY_HASH_MISMATCH.
Proof.
  apply (lock_exit_codes (T := riscv64) (C := demo_ckb) (F := demo_fips) (B := demo_blake)
    (demo_sys (zreplicate 32 Byte.x09) (witness_format demo_pk demo_sig))); [reflexivity|].
  vm_compute. reflexivity.
Defined.

(** On 32 bits the offsets of a large length overflow. *)
Lemma parse_witness_overflows `{T : Target} (data : list byte) :
  ptr_width = 32 → 8 <= zlen data → 2 ^ 32 - 8 <= u_from_le_bytes (ztake 4 data) →
  parse_witness data = Fault PanicOverflow.
Proof.
  intros Hp H8 Hbig. unfold parse_witness.
  rewrite (proj2 (Z.ltb_ge _ _)) by lia.
  rewrite slice_range_ok, bind_ret, zdrop_0 by lia.
  assert (H4 : zlen (ztake 4 data) = 4) by (apply zlen_take; lia).
  rewrite try_into_array_ok by done. pose proof (u32_bound _ H4) as Hb.
  rewrite wrap_unsigned_small by (rewrite Hp; lia).
  set (n := u_from_le_bytes (ztake 4 data)) in *.
  assert (Hmax : usize_max = 2 ^ 32 - 1) by (unfold usize_max; by rewrite Hp).
  destruct (Z.le_gt_cases (4 + n) usize_max).
  - rewrite uadd_ok, bind_ret by lia. by rewrite uadd_overflow by lia.
  - by rewrite uadd_overflow by lia.
Qed.

(** C3: on the 64-bit target [parse_witness] returns for every input; it finds
    [pk] and [sg] exactly when the input starts with their encoding, and returns
    [None] exactly when no pair is encoded.  It relies on the 64-bit [usize]: on a 32-bit
    target a public-key length within 8 of [u32::MAX] overflows the offset arithmetic,
    which panics before the length check can reject the witness. *)
Theorem parse_witness_correct `{T : Target} (data : list byte) :
  (ptr_width = 64 →
     (∀ pk sg, parse_witness data = Ret (Some (pk, sg)) ↔ carries data pk sg) ∧
     (parse_witness data = Ret None ↔ ∀ pk sg, ¬ carries data pk sg)) ∧
  (ptr_width = 32 → 8 <= zlen data → 2 ^ 32 - 8 <= u_from_le_bytes (ztake 4 data) →
     parse_witness data = Fault PanicOverflow).
Proof.
  split; [|apply parse_witness_overflows].
  intros Hp. split; [intros pk sg; by apply parse_witness_carries|].
  setoid_rewrite <- (parse_witness_carries Hp).
  destruct (parse_witness_total Hp data) as [[[pk sg]|] Hr].
  - rewrite Hr. split; [done|]. intros Hn. by destruct (Hn pk sg).
  - rewrite Hr. split; [intros _ pk sg|]; done.
Qed.

(** C4: the lock arguments bind the key.  Two accepted runs with the same
    arguments used the same public key, or their keys are a Blake2b collision;
    and each signature verifies under its key for its own transaction hash. *)
Theorem lock_binds_public_key `{T : Target, C : !CkbStd, F : !Fips204, B : !Blake2bRef}
    (sys1 sys2 : Syscalls) args h1 h2 l1 l2 :
  ptr_width = 64 →
  run_inputs sys1 args h1 l1 → run_inputs sys2 args h2 l2 →
  program_entry sys1 = Ret 0 → program_entry sys2 = Ret 0 →
  ∃ pk1 pk2 sg1 sg2 key1 key2,
    carries l1 pk1 sg1 ∧ carries l2 pk2 sg2 ∧
    try_from_bytes pk1 = Some key1 ∧ try_from_bytes pk2 = Some key2 ∧
    verify key1 h1 sg1 [] = true ∧ verify key2 h2 sg2 [] = true ∧
    (pk1 = pk2 ∨ pk1 ≠ pk2 ∧ blake2b_256 pk1 = blake2b_256 pk2).
Proof.
  intros Hp (s1 & w1 & Hs1 & Ha1 & _ & Hh1 & Hw1 & Hl1) (s2 & w2 & Hs2 & Ha2 & _ & Hh2 & Hw2 & Hl2).
  rewrite !program_entry_exit_code, !exit_code_0 by done.
  intros (a1 & t1 & f1 & pk1 & sg1 & k1 & (? & ? & ? & -> & _ & ? & ? & ?) & Hc1 & Hb1 & _ & Hk1 & _ & Hv1).
  intros (a2 & t2 & f2 & pk2 & sg2 & k2 & (? & ? & ? & -> & _ & ? & ? & ?) & Hc2 & Hb2 & _ & Hk2 & _ & Hv2).
  simplify_eq. exists pk1, pk2, sg1, sg2, k1, k2.
  destruct (decide (pk1 = pk2)); naive_solver congruence.
Qed.

Lemma lock_binds_public_key_witness :
  ∃ pk1 pk2 sg1 sg2 key1 key2,
    carries (witness_format demo_pk demo_sig) pk1 sg1 ∧
    carries (witness_format demo_pk demo_sig) pk2 sg2 ∧
    @try_from_bytes demo_fips pk1 = Some key1 ∧ @try_from_bytes demo_fips pk2 = Some key2 ∧
    @verify demo_fips key1 (zreplicate 32 Byte.x01) sg1 [] = true ∧
    @verify demo_fips key2 (zreplicate 32 Byte.x01) sg2 [] = true ∧
    (pk1 = pk2 ∨ pk1 ≠ pk2 ∧ @blake2b_256 demo_blake pk1 = @blake2b_256 demo_blake pk2).
Proof.
  apply (lock_binds_public_key (T := riscv64) (C := demo_ckb) (F := demo_fips)
    (B := demo_blake) demo_run demo_run _ _ _ _ _ eq_refl demo_run_inputs demo_run_inputs);
    vm_compute; reflexivity.
Defined.
