(* ===== verification/LockProtocol.v ===== *)
(** * LockProtocol: the wallet's codec and the on-chain parser together

    The SDK builds the witness the script reads.  These theorems relate
    [buildWitnessLock] and [parseWitnessLock] (Witness.v) to [parse_witness] and
    [program_entry] (LockScript.v), and say what the script's parser does on
    inputs the SDK would refuse and on a 32-bit target. *)

From S2P Require Import Prelude Machine Witness LockScript.

Lemma framed_pubkey pk : zlen pk = PUBLIC_KEY_LEN → framed pk.
Proof. unfold framed. intros ->. done. Qed.

Lemma framed_signature sg : zlen sg = SIGNATURE_LEN → framed sg.
Proof. unfold framed. intros ->. done. Qed.

Lemma witness_format_carries pk sg :
  framed pk → framed sg → carries (witness_format pk sg) pk sg.
Proof. intros. split; [done|]. split; [done|]. exists []. by rewrite app_nil_r. Qed.

Lemma zlen_witness_format pk sg :
  zlen (witness_format pk sg) = 4 + zlen pk + 4 + zlen sg.
Proof. unfold witness_format. zlia. Qed.

(** C5: the bytes after the encoded signature never matter.  Whatever is appended
    to a well-formed lock field, the script returns the same code. *)
Theorem lock_ignores_trailing_bytes `{T : Target, C : !CkbStd, F : !Fips204, B : !Blake2bRef}
    (sys sys' : Syscalls) args h lock_field tail pk sg :
  ptr_width = 64 → carries lock_field pk sg →
  run_inputs sys args h lock_field → run_inputs sys' args h (lock_field ++ tail) →
  program_entry sys' = program_entry sys.
Proof.
  intros Hp Hc Hr Hr'.
  rewrite (program_entry_carries Hp _ _ _ _ _ _ Hr Hc).
  apply (program_entry_carries Hp _ _ _ _ _ _ Hr'). by apply carries_app.
Qed.

Lemma lock_ignores_trailing_bytes_witness :
  program_entry (T := riscv64) (C := demo_ckb) (F := demo_fips) (B := demo_blake)
    (demo_sys (zreplicate 32 Byte.x07) (witness_format demo_pk demo_sig ++ [xff; xff]))
  = program_entry (T := riscv64) (C := demo_ckb) (F := demo_fips) (B := demo_blake) demo_run.
Proof.
  apply (lock_ignores_trailing_bytes (T := riscv64) (C := demo_ckb) (F := demo_fips)
    (B := demo_blake) _ _ (zreplicate 32 Byte.x07) (zreplicate 32 Byte.x01)
    (witness_format demo_pk demo_sig) [xff; xff] demo_pk demo_sig eq_refl).
  - apply witness_format_carries; vm_compute; reflexivity.
  - exact demo_run_inputs.
  - exists (zreplicate 32 Byte.x07), (Some (witness_format demo_pk demo_sig ++ [xff; xff])).
    repeat split; reflexivity.
Defined.

(** What the SDK's parser accepts is what its encoder writes, and the chain reads it. *)
Lemma sdk_parser_accepts `{T : Target} w pk sg :
  ptr_width = 64 → parseWitnessLock w = Ok (pk, sg) →
  buildWitnessLock pk sg = Ok w ∧ parse_witness w = Ret (Some (pk, sg)) ∧
  ∀ tail pk' sg', tail ≠ [] → parseWitnessLock (w ++ tail) ≠ Ok (pk', sg').
Proof.
  intros Hp (Hk & Hs & ->)%parseWitnessLock_ok.
  split; [by apply buildWitnessLock_ok|].
  split.
  { apply parse_witness_carries; [done|].
    apply witness_format_carries; [by apply framed_pubkey | by apply framed_signature]. }
  intros tail pk' sg' Ht (Hk' & Hs' & Heq)%parseWitnessLock_ok.
  apply (f_equal zlen) in Heq. rewrite zlen_app, !zlen_witness_format in Heq.
  apply Ht, zlen_0_nil. lia.
Qed.

(** C6: the wallet's codec.  For a key and a signature of the right
    sizes [buildWitnessLock] succeeds with [WITNESS_LOCK_BYTES] bytes, and both the
    SDK's parser and the on-chain parser give back the same key and signature.  What the
    SDK's parser accepts is the string [buildWitnessLock] builds, the chain reads it the
    same way, and one byte more makes the SDK's parser fail. *)
Theorem sdk_witness_roundtrip `{T : Target} :
  ptr_width = 64 →
  (∀ pk sg, zlen pk = PUBLIC_KEY_LEN → zlen sg = SIGNATURE_LEN →
     ∃ w, buildWitnessLock pk sg = Ok w ∧ zlen w = WITNESS_LOCK_BYTES ∧
          parseWitnessLock w = Ok (pk, sg) ∧ parse_witness w = Ret (Some (pk, sg))) ∧
  (∀ w pk sg, parseWitnessLock w = Ok (pk, sg) →
     buildWitnessLock pk sg = Ok w ∧ parse_witness w = Ret (Some (pk, sg)) ∧
     ∀ tail pk' sg', tail ≠ [] → parseWitnessLock (w ++ tail) ≠ Ok (pk', sg')).
Proof.
  intros Hp. split; [|intros w pk sg; by apply sdk_parser_accepts].
  intros pk sg Hk Hs. exists (witness_format pk sg).
  split; [by apply buildWitnessLock_ok|].
  split; [rewrite zlen_witness_format, Hk, Hs; done|].
  assert (parseWitnessLock (witness_format pk sg) = Ok (pk, sg)) as E by by apply parseWitnessLock_ok.
  split; [done|]. by apply sdk_parser_accepts.
Qed.

Lemma sdk_witness_roundtrip_witness :
  ∃ w, buildWitnessLock demo_pk demo_sig = Ok w ∧ zlen w = WITNESS_LOCK_BYTES ∧
       parseWitnessLock w = Ok (demo_pk, demo_sig) ∧
       parse_witness (H := riscv64) w = Ret (Some (demo_pk, demo_sig)).
Proof.
  apply (sdk_witness_roundtrip (T := riscv64)); vm_compute; reflexivity.
Defined.

(** End to end.  When the fips204 sizes are the SDK's constants, a run whose
    arguments are the hash of the key and whose witness is what the wallet built
    is accepted exactly when the key decodes and the signature verifies. *)
Lemma wallet_witness_accepted `{T : Target, C : !CkbStd, F : !Fips204, B : !Blake2bRef}
    (sys : Syscalls) h w pk sg :
  ptr_width = 64 → PK_LEN = PUBLIC_KEY_LEN → SIG_LEN = SIGNATURE_LEN →
  buildWitnessLock pk sg = Ok w → run_inputs sys (blake2b_256 pk) h w →
  (program_entry sys = Ret 0 ↔
   ∃ key, try_from_bytes pk = Some key ∧ verify key h sg [] = true).
Proof.
  intros Hp Hpk Hsg Hb Hr.
  assert (Hl : zlen pk = PUBLIC_KEY_LEN ∧ zlen sg = SIGNATURE_LEN).
  { unfold buildWitnessLock in Hb.
    destruct (Z.eqb_spec (zlen pk) PUBLIC_KEY_LEN); [|done].
    by destruct (Z.eqb_spec (zlen sg) SIGNATURE_LEN). }
  destruct Hl as [Hk Hs]. rewrite buildWitnessLock_ok in Hb by done. injection Hb as <-.
  assert (Hc : carries (witness_format pk sg) pk sg)
    by (apply witness_format_carries; [by apply framed_pubkey | by apply framed_signature]).
  rewrite (program_entry_carries Hp _ _ _ _ _ _ Hr Hc).
  rewrite bool_decide_false by auto. rewrite Hpk, Hsg, Hk, Hs, !Z.eqb_refl. cbn [negb].
  destruct (try_from_bytes pk) as [key|]; [|by split; [|intros (? & ? & _)]].
  split.
  - destruct (verify key h sg []) eqn:Hv; [eauto|done].
  - intros (? & [= <-] & ->). done.
Qed.

(** The run of src/tests/src/tests.rs (lock arguments [vec![42]]) exits with
    [ERR_INVALID_ARGS_LENGTH]. *)
Lemma one_byte_args_rejected `{T : Target, C : !CkbStd, F : !Fips204, B : !Blake2bRef}
    (sys : Syscalls) script :
  load_script sys = Ok script → args_raw_data script = [x2a] →
  program_entry sys = Ret ERR_INVALID_ARGS_LENGTH.
Proof. intros Hs Ha. unfold program_entry. by rewrite Hs, Ha. Qed.
