(* ===== verification/Buf.v ===== *)
(** * Buf: the reading trait (src/patches/bytes/src/buf/buf_impl.rs)

    [BufCore] holds the required methods of [trait Buf] and [Buf] the provided
    methods that implementations override ([copy_to_slice], [chunks_vectored]);
    the other provided methods are the definitions of this file.  A method that
    takes [&mut self] returns the new state; a [&mut [u8]] argument is passed in
    and the updated contents are returned.  A [u8] or [iN] result is a [Z], and a
    float is its bit pattern.

    [BufLaws] is the contract of the trait's documentation, as an interface: the
    bytes still to be read ([bview]) and how the methods act on them.  The
    theorems on the getters are proved once, against [BufLaws]. *)

From S2P Require Import Prelude Machine.

(** src/patches/bytes/src/lib.rs *)
Record TryGetError := { requested : Z; available : Z }.

#[export] Instance TryGetError_eq_dec : EqDecision TryGetError.
Proof. solve_decision. Defined.

Definition panic_advance {A} (error_info : TryGetError) : outcome A :=
  Fault (PanicAdvance (requested error_info) (available error_info)).

Definition panic_does_not_fit {A} (size nbytes : Z) : outcome A :=
  Fault (PanicDoesNotFit size nbytes).

(** [Result::unwrap_or_else(|error| panic_advance(&error))]. *)
Definition unwrap_or_panic_advance {A B} (m : outcome (result A TryGetError * B)) :
    outcome (A * B) :=
  '(r, b) ← m;
  match r with Ok a => Ret (a, b) | Err e => panic_advance e end.

Class BufCore (B : Type) := {
  remaining : B → Z;
  chunk : B → list byte;
  advance : B → Z → outcome B;
}.

Section provided_core.
Context {B : Type} `{BufCore B}.

Definition has_remaining (self : B) : bool := 0 <? remaining self.

(** The loop of [try_copy_to_slice]: [dst] is the part still to be filled.  A
    round of a lawful [Buf] fills at least one byte, so [length dst] rounds are
    enough; running out of them is [Diverge]. *)
Fixpoint copy_loop (fuel : nat) (self : B) (dst : list byte) : outcome (B * list byte) :=
  match dst with
  | [] => Ret (self, [])
  | _ :: _ =>
    match fuel with
    | O => Fault Diverge
    | S fuel =>
      let src := chunk self in
      let cnt := Z.min (zlen src) (zlen dst) in
      part ← slice_range src 0 cnt;
      rest ← slice_range dst cnt (zlen dst);
      self ← advance self cnt;
      '(self, filled) ← copy_loop fuel self rest;
      Ret (self, part ++ filled)
    end
  end.

Definition try_copy_to_slice (self : B) (dst : list byte) :
    outcome (result unit TryGetError * (B * list byte)) :=
  if remaining self <? zlen dst
  then Ret (Err {| requested := zlen dst; available := remaining self |}, (self, dst))
  else
    '(self, dst) ← copy_loop (length dst) self dst;
    Ret (Ok tt, (self, dst)).

Definition copy_to_slice_default (self : B) (dst : list byte) : outcome (B * list byte) :=
  snd <$> unwrap_or_panic_advance (try_copy_to_slice self dst).

(** [dst] is a slice of [IoSlice]s; the number of entries written is returned. *)
Definition chunks_vectored_default (self : B) (dst : list (list byte)) :
    outcome (Z * list (list byte)) :=
  match dst with
  | [] => Ret (0, [])
  | _ :: dst' => if has_remaining self then Ret (1, chunk self :: dst') else Ret (0, dst)
  end.

End provided_core.

Class Buf (B : Type) := {
  #[global] buf_core :: BufCore B;
  copy_to_slice : B → list byte → outcome (B * list byte);
  chunks_vectored : B → list (list byte) → outcome (Z * list (list byte));
}.

(** [(val << shift) as i64 >> shift] on [u64]: a shift by 64 or more panics. *)
Definition sign_extend `{Target} (val nbytes : Z) : outcome Z :=
  d ← usub 8 nbytes;
  shift ← umul d 8;
  if 64 <=? shift then Fault PanicOverflow
  else Ret (Z.shiftr (wrap_signed 64 (wrap_unsigned 64 (Z.shiftl val shift))) shift).

Section getters.
Context `{T : Target} {B : Type} `{HB : !Buf B}.
Implicit Types (self : B).

(** ** The macros *)

(** [buf_try_get_impl!($this, $typ::$conv)]. *)
Definition buf_try_get_impl (SIZE : Z) (conv : list byte → Z) self :
    outcome (result Z TryGetError * B) :=
  if remaining self <? SIZE
  then Ret (Err {| requested := SIZE; available := remaining self |}, self)
  else
    match slice_get (chunk self) 0 SIZE with
    | Some src =>
      self ← advance self SIZE;
      Ret (Ok (conv src), self)
    | None =>
      '(self, buf) ← copy_to_slice self (zreplicate SIZE Byte.x00);
      Ret (Ok (conv buf), self)
    end.

(** [buf_try_get_impl!(le => $this, $typ, $len_to_read)]. *)
Definition buf_try_get_impl_le (SIZE : Z) (from_le_bytes : list byte → Z) (len_to_read : Z) self :
    outcome (result Z TryGetError * B) :=
  let buf := zreplicate SIZE Byte.x00 in
  match slice_get buf 0 len_to_read with
  | None => panic_does_not_fit SIZE len_to_read
  | Some subslice =>
    '(r, (self, subslice)) ← try_copy_to_slice self subslice;
    match r with
    | Err e => Ret (Err e, self)
    | Ok _ => Ret (Ok (from_le_bytes (splice buf 0 subslice)), self)
    end
  end.

(** [buf_try_get_impl!(be => $this, $typ, $len_to_read)]. *)
Definition buf_try_get_impl_be (SIZE : Z) (from_be_bytes : list byte → Z) (len_to_read : Z) self :
    outcome (result Z TryGetError * B) :=
  match checked_sub SIZE len_to_read with
  | None => panic_does_not_fit SIZE len_to_read
  | Some slice_at =>
    let buf := zreplicate SIZE Byte.x00 in
    subslice ← slice_range buf slice_at SIZE;
    '(r, (self, subslice)) ← try_copy_to_slice self subslice;
    match r with
    | Err e => Ret (Err e, self)
    | Ok _ => Ret (Ok (from_be_bytes (splice buf slice_at subslice)), self)
    end
  end.

(** [buf_get_impl!] in its three forms. *)
Definition buf_get_impl (SIZE : Z) (conv : list byte → Z) self : outcome (Z * B) :=
  unwrap_or_panic_advance (buf_try_get_impl SIZE conv self).
Definition buf_get_impl_le (SIZE : Z) (from_le_bytes : list byte → Z) (len_to_read : Z) self :
    outcome (Z * B) :=
  unwrap_or_panic_advance (buf_try_get_impl_le SIZE from_le_bytes len_to_read self).
Definition buf_get_impl_be (SIZE : Z) (from_be_bytes : list byte → Z) (len_to_read : Z) self :
    outcome (Z * B) :=
  unwrap_or_panic_advance (buf_try_get_impl_be SIZE from_be_bytes len_to_read self).

(** ** The panicking getters *)
Definition get_u8 self : outcome (Z * B) :=
  if remaining self <? 1 then panic_advance {| requested := 1; available := 0 |}
  else
    ret ← index (chunk self) 0;
    self ← advance self 1;
    Ret (u8_to_Z ret, self).
Definition get_i8 self : outcome (Z * B) :=
  if remaining self <? 1 then panic_advance {| requested := 1; available := 0 |}
  else
    ret ← index (chunk self) 0;
    self ← advance self 1;
    Ret (wrap_signed 8 (u8_to_Z ret), self).
Definition get_u16 self : outcome (Z * B) := buf_get_impl 2 u_from_be_bytes self.
Definition get_u16_le self : outcome (Z * B) := buf_get_impl 2 u_from_le_bytes self.
Definition get_u16_ne self : outcome (Z * B) := buf_get_impl 2 u_from_ne_bytes self.
Definition get_i16 self : outcome (Z * B) := buf_get_impl 2 i_from_be_bytes self.
Definition get_i16_le self : outcome (Z * B) := buf_get_impl 2 i_from_le_bytes self.
Definition get_i16_ne self : outcome (Z * B) := buf_get_impl 2 i_from_ne_bytes self.
Definition get_u32 self : outcome (Z * B) := buf_get_impl 4 u_from_be_bytes self.
Definition get_u32_le self : outcome (Z * B) := buf_get_impl 4 u_from_le_bytes self.
Definition get_u32_ne self : outcome (Z * B) := buf_get_impl 4 u_from_ne_bytes self.
Definition get_i32 self : outcome (Z * B) := buf_get_impl 4 i_from_be_bytes self.
Definition get_i32_le self : outcome (Z * B) := buf_get_impl 4 i_from_le_bytes self.
Definition get_i32_ne self : outcome (Z * B) := buf_get_impl 4 i_from_ne_bytes self.
Definition get_u64 self : outcome (Z * B) := buf_get_impl 8 u_from_be_bytes self.
Definition get_u64_le self : outcome (Z * B) := buf_get_impl 8 u_from_le_bytes self.
Definition get_u64_ne self : outcome (Z * B) := buf_get_impl 8 u_from_ne_bytes self.
Definition get_i64 self : outcome (Z * B) := buf_get_impl 8 i_from_be_bytes self.
Definition get_i64_le self : outcome (Z * B) := buf_get_impl 8 i_from_le_bytes self.
Definition get_i64_ne self : outcome (Z * B) := buf_get_impl 8 i_from_ne_bytes self.
Definition get_u128 self : outcome (Z * B) := buf_get_impl 16 u_from_be_bytes self.
Definition get_u128_le self : outcome (Z * B) := buf_get_impl 16 u_from_le_bytes self.
Definition get_u128_ne self : outcome (Z * B) := buf_get_impl 16 u_from_ne_bytes self.
Definition get_i128 self : outcome (Z * B) := buf_get_impl 16 i_from_be_bytes self.
Definition get_i128_le self : outcome (Z * B) := buf_get_impl 16 i_from_le_bytes self.
Definition get_i128_ne self : outcome (Z * B) := buf_get_impl 16 i_from_ne_bytes self.

Definition get_uint self (nbytes : Z) : outcome (Z * B) :=
  buf_get_impl_be 8 u_from_be_bytes nbytes self.
Definition get_uint_le self (nbytes : Z) : outcome (Z * B) :=
  buf_get_impl_le 8 u_from_le_bytes nbytes self.
Definition get_uint_ne self (nbytes : Z) : outcome (Z * B) :=
  if target_endian_big then get_uint self nbytes else get_uint_le self nbytes.

Definition get_int self (nbytes : Z) : outcome (Z * B) :=
  '(val, self) ← get_uint self nbytes;
  ret ← sign_extend val nbytes;
  Ret (ret, self).
Definition get_int_le self (nbytes : Z) : outcome (Z * B) :=
  '(val, self) ← get_uint_le self nbytes;
  ret ← sign_extend val nbytes;
  Ret (ret, self).
Definition get_int_ne self (nbytes : Z) : outcome (Z * B) :=
  if target_endian_big then get_int self nbytes else get_int_le self nbytes.

(** [f32::from_bits] and [f64::from_bits] keep the bits. *)
Definition get_f32 self : outcome (Z * B) := get_u32 self.
Definition get_f32_le self : outcome (Z * B) := get_u32_le self.
Definition get_f32_ne self : outcome (Z * B) := get_u32_ne self.
Definition get_f64 self : outcome (Z * B) := get_u64 self.
Definition get_f64_le self : outcome (Z * B) := get_u64_le self.
Definition get_f64_ne self : outcome (Z * B) := get_u64_ne self.

(** ** The fallible getters *)
Definition try_get_u8 self : outcome (result Z TryGetError * B) :=
  if remaining self <? 1
  then Ret (Err {| requested := 1; available := remaining self |}, self)
  else
    ret ← index (chunk self) 0;
    self ← advance self 1;
    Ret (Ok (u8_to_Z ret), self).
Definition try_get_i8 self : outcome (result Z TryGetError * B) :=
  if remaining self <? 1
  then Ret (Err {| requested := 1; available := remaining self |}, self)
  else
    ret ← index (chunk self) 0;
    self ← advance self 1;
    Ret (Ok (wrap_signed 8 (u8_to_Z ret)), self).

Definition try_get_u16 self : outcome (result Z TryGetError * B) :=
  buf_try_get_impl 2 u_from_be_bytes self.
Definition try_get_u16_le self : outcome (result Z TryGetError * B) :=
  buf_try_get_impl 2 u_from_le_bytes self.
Definition try_get_u16_ne self : outcome (result Z TryGetError * B) :=
  buf_try_get_impl 2 u_from_ne_bytes self.
Definition try_get_i16 self : outcome (result Z TryGetError * B) :=
  buf_try_get_impl 2 i_from_be_bytes self.
Definition try_get_i16_le self : outcome (result Z TryGetError * B) :=
  buf_try_get_impl 2 i_from_le_bytes self.
Definition try_get_i16_ne self : outcome (result Z TryGetError * B) :=
  buf_try_get_impl 2 i_from_ne_bytes self.
Definition try_get_u32 self : outcome (result Z TryGetError * B) :=
  buf_try_get_impl 4 u_from_be_bytes self.
Definition try_get_u32_le self : outcome (result Z TryGetError * B) :=
  buf_try_get_impl 4 u_from_le_bytes self.
Definition try_get_u32_ne self : outcome (result Z TryGetError * B) :=
  buf_try_get_impl 4 u_from_ne_bytes self.
Definition try_get_i32 self : outcome (result Z TryGetError * B) :=
  buf_try_get_impl 4 i_from_be_bytes self.
Definition try_get_i32_le self : outcome (result Z TryGetError * B) :=
  buf_try_get_impl 4 i_from_le_bytes self.
Definition try_get_i32_ne self : outcome (result Z TryGetError * B) :=
  buf_try_get_impl 4 i_from_ne_bytes self.
Definition try_get_u64 self : outcome (result Z TryGetError * B) :=
  buf_try_get_impl 8 u_from_be_bytes self.
Definition try_get_u64_le self : outcome (result Z TryGetError * B) :=
  buf_try_get_impl 8 u_from_le_bytes self.
Definition try_get_u64_ne self : outcome (result Z TryGetError * B) :=
  buf_try_get_impl 8 u_from_ne_bytes self.
Definition try_get_i64 self : outcome (result Z TryGetError * B) :=
  buf_try_get_impl 8 i_from_be_bytes self.
Definition try_get_i64_le self : outcome (result Z TryGetError * B) :=
  buf_try_get_impl 8 i_from_le_bytes self.
Definition try_get_i64_ne self : outcome (result Z TryGetError * B) :=
  buf_try_get_impl 8 i_from_ne_bytes self.
Definition try_get_u128 self : outcome (result Z TryGetError * B) :=
  buf_try_get_impl 16 u_from_be_bytes self.
Definition try_get_u128_le self : outcome (result Z TryGetError * B) :=
  buf_try_get_impl 16 u_from_le_bytes self.
Definition try_get_u128_ne self : outcome (result Z TryGetError * B) :=
  buf_try_get_impl 16 u_from_ne_bytes self.
Definition try_get_i128 self : outcome (result Z TryGetError * B) :=
  buf_try_get_impl 16 i_from_be_bytes self.
Definition try_get_i128_le self : outcome (result Z TryGetError * B) :=
  buf_try_get_impl 16 i_from_le_bytes self.
Definition try_get_i128_ne self : outcome (result Z TryGetError * B) :=
  buf_try_get_impl 16 i_from_ne_bytes self.

Definition try_get_uint self (nbytes : Z) : outcome (result Z TryGetError * B) :=
  buf_try_get_impl_be 8 u_from_be_bytes nbytes self.
Definition try_get_uint_le self (nbytes : Z) : outcome (result Z TryGetError * B) :=
  buf_try_get_impl_le 8 u_from_le_bytes nbytes self.
Definition try_get_uint_ne self (nbytes : Z) : outcome (result Z TryGetError * B) :=
  if target_endian_big then try_get_uint self nbytes else try_get_uint_le self nbytes.

Definition try_get_int self (nbytes : Z) : outcome (result Z TryGetError * B) :=
  buf_try_get_impl_be 8 i_from_be_bytes nbytes self.
Definition try_get_int_le self (nbytes : Z) : outcome (result Z TryGetError * B) :=
  buf_try_get_impl_le 8 i_from_le_bytes nbytes self.
Definition try_get_int_ne self (nbytes : Z) : outcome (result Z TryGetError * B) :=
  if target_endian_big then try_get_int self nbytes else try_get_int_le self nbytes.

Definition try_get_f32 self : outcome (result Z TryGetError * B) := try_get_u32 self.
Definition try_get_f32_le self : outcome (result Z TryGetError * B) := try_get_u32_le self.
Definition try_get_f32_ne self : outcome (result Z TryGetError * B) := try_get_u32_ne self.
Definition try_get_f64 self : outcome (result Z TryGetError * B) := try_get_u64 self.
Definition try_get_f64_le self : outcome (result Z TryGetError * B) := try_get_u64_le self.
Definition try_get_f64_ne self : outcome (result Z TryGetError * B) := try_get_u64_ne self.

End getters.

(** ** The contract of the trait *)

(** [bview b] is the byte sequence the cursor still has to deliver, and [binv b]
    the states the contract speaks of. *)
Class BufLaws (B : Type) `{HB : !Buf B} := {
  bview : B → list byte;
  binv : B → Prop;
  remaining_view b : binv b → remaining b = zlen (bview b);
  chunk_prefix b : binv b → chunk b `prefix_of` bview b;
  chunk_progress b : binv b → chunk b = [] → bview b = [];
  advance_ok b cnt : binv b → 0 <= cnt <= zlen (bview b) →
    ∃ b', advance b cnt = Ret b' ∧ binv b' ∧ bview b' = zdrop cnt (bview b);
  advance_past b cnt : binv b → zlen (bview b) < cnt → ∃ f, advance b cnt = Fault f;
  copy_to_slice_ok b dst : binv b → zlen dst <= zlen (bview b) →
    ∃ b', copy_to_slice b dst = Ret (b', ztake (zlen dst) (bview b)) ∧
          binv b' ∧ bview b' = zdrop (zlen dst) (bview b);
  copy_to_slice_past b dst : binv b → zlen (bview b) < zlen dst →
    copy_to_slice b dst = Fault (PanicAdvance (zlen dst) (zlen (bview b)));
}.

(** The laws of the required methods alone, from which the default
    [copy_to_slice] meets the rest of the contract. *)
Record core_laws {B} `{!BufCore B} (view : B → list byte) (inv : B → Prop) : Prop := {
  cl_remaining b : inv b → remaining b = zlen (view b);
  cl_prefix b : inv b → chunk b `prefix_of` view b;
  cl_progress b : inv b → chunk b = [] → view b = [];
  cl_advance b cnt : inv b → 0 <= cnt <= zlen (view b) →
    ∃ b', advance b cnt = Ret b' ∧ inv b' ∧ view b' = zdrop cnt (view b);
}.

Section default_copy.
Context {B : Type} `{!BufCore B} {view : B → list byte} {inv : B → Prop}.
Context (L : core_laws view inv).

Lemma core_chunk_len b : inv b → view b ≠ [] → 0 < zlen (chunk b) <= zlen (view b).
Proof using L.
  intros Hb Hv. split; [|apply prefix_zlen; by eapply cl_prefix].
  destruct (chunk b) eqn:E; [|zlia]. apply (cl_progress _ _ L) in E; done.
Qed.

Lemma copy_loop_ok fuel b dst :
  inv b → (length dst <= fuel)%nat → zlen dst <= zlen (view b) →
  ∃ b', copy_loop fuel b dst = Ret (b', ztake (zlen dst) (view b)) ∧
        inv b' ∧ view b' = zdrop (zlen dst) (view b).
Proof using L.
  revert b dst. induction fuel as [|fuel IH]; intros b dst Hb Hf Hle.
  - destruct dst; [|simpl in Hf; lia]. by exists b.
  - destruct dst as [|x dst]; [by exists b|].
    assert (Hne : view b ≠ []) by (intros E; rewrite E in Hle; zlia).
    pose proof (core_chunk_len b Hb Hne) as [Hc1 Hc2].
    set (d := x :: dst) in *. assert (Hd : 0 < zlen d) by (subst d; zlia).
    change (copy_loop (S fuel) b d) with
      (let src := chunk b in
       let cnt := Z.min (zlen src) (zlen d) in
       part ← slice_range src 0 cnt;
       rest ← slice_range d cnt (zlen d);
       self ← advance b cnt;
       '(self, filled) ← copy_loop fuel self rest;
       Ret (self, part ++ filled)).
    cbv zeta. set (cnt := Z.min (zlen (chunk b)) (zlen d)).
    assert (0 < cnt <= zlen d ∧ cnt <= zlen (chunk b)) as (Hcnt & Hcc) by (subst cnt; lia).
    rewrite (slice_range_ok (chunk b) 0), bind_ret, zdrop_0 by lia.
    rewrite slice_range_ok, bind_ret by lia. rewrite (ztake_ge (zlen d)) by lia.
    destruct (cl_advance _ _ L b cnt Hb) as (b1 & -> & Hb1 & Hv1); [lia|]. rewrite bind_ret.
    destruct (IH b1 (zdrop cnt d) Hb1) as (b2 & -> & Hb2 & Hv2).
    { pose proof (zlen_drop cnt d). unfold zlen in *. lia. }
    { rewrite Hv1, !zlen_drop by lia. lia. }
    rewrite bind_ret. exists b2. rewrite Hv2, Hv1, zlen_drop by lia.
    rewrite zdrop_zdrop by lia. replace (cnt + (zlen d - cnt)) with (zlen d) by lia.
    split; [|done]. rewrite (prefix_ztake_l cnt (chunk b) (view b)) by
      (lia || by eapply cl_prefix).
    rewrite ztake_zdrop_split by lia. do 3 f_equal. lia.
Qed.

Lemma try_copy_to_slice_ok_core b dst :
  inv b → zlen dst <= zlen (view b) →
  ∃ b', try_copy_to_slice b dst = Ret (Ok tt, (b', ztake (zlen dst) (view b))) ∧
        inv b' ∧ view b' = zdrop (zlen dst) (view b).
Proof using L.
  intros Hb Hle. unfold try_copy_to_slice.
  rewrite (cl_remaining _ _ L b Hb), (proj2 (Z.ltb_ge _ _)) by lia.
  destruct (copy_loop_ok (length dst) b dst Hb) as (b' & -> & ? & ?); [lia|lia|].
  rewrite bind_ret. eauto.
Qed.

Lemma try_copy_to_slice_past_core b dst :
  inv b → zlen (view b) < zlen dst →
  try_copy_to_slice b dst =
    Ret (Err {| requested := zlen dst; available := zlen (view b) |}, (b, dst)).
Proof using L.
  intros Hb Hlt. unfold try_copy_to_slice.
  by rewrite (cl_remaining _ _ L b Hb), (proj2 (Z.ltb_lt _ _)).
Qed.

Lemma copy_to_slice_default_ok b dst :
  inv b → zlen dst <= zlen (view b) →
  ∃ b', copy_to_slice_default b dst = Ret (b', ztake (zlen dst) (view b)) ∧
        inv b' ∧ view b' = zdrop (zlen dst) (view b).
Proof using L.
  intros Hb Hle. unfold copy_to_slice_default.
  destruct (try_copy_to_slice_ok_core b dst Hb Hle) as (b' & -> & ? & ?).
  exists b'. done.
Qed.

Lemma copy_to_slice_default_past b dst :
  inv b → zlen (view b) < zlen dst →
  copy_to_slice_default b dst = Fault (PanicAdvance (zlen dst) (zlen (view b))).
Proof using L.
  intros Hb Hlt. unfold copy_to_slice_default.
  by rewrite try_copy_to_slice_past_core.
Qed.

End default_copy.

(** ** The getters against the contract *)
Section getter_laws.
Context `{T : Target} {B : Type} `{HB : !Buf B, HL : !BufLaws B}.
Implicit Types (b : B).

Lemma buf_core_laws : core_laws (B := B) bview binv.
Proof. constructor; [apply remaining_view|apply chunk_prefix|apply chunk_progress|apply advance_ok]. Qed.

Lemma try_copy_to_slice_ok b dst :
  binv b → zlen dst <= zlen (bview b) →
  ∃ b', try_copy_to_slice b dst = Ret (Ok tt, (b', ztake (zlen dst) (bview b))) ∧
        binv b' ∧ bview b' = zdrop (zlen dst) (bview b).
Proof. apply (try_copy_to_slice_ok_core buf_core_laws). Qed.

Lemma try_copy_to_slice_past b dst :
  binv b → zlen (bview b) < zlen dst →
  try_copy_to_slice b dst =
    Ret (Err {| requested := zlen dst; available := zlen (bview b) |}, (b, dst)).
Proof. apply (try_copy_to_slice_past_core buf_core_laws). Qed.

(** [m] reads the value [v] off the front of [b], consuming [n] bytes. *)
Definition reads {A} (m : outcome (A * B)) (b : B) (n : Z) (v : A) : Prop :=
  ∃ b', m = Ret (v, b') ∧ binv b' ∧ bview b' = zdrop n (bview b).

Lemma reads_unwrap (m : outcome (result Z TryGetError * B)) b n v :
  reads m b n (Ok v) → reads (unwrap_or_panic_advance m) b n v.
Proof. intros (b' & -> & ? & ?). exists b'. done. Qed.

Lemma buf_try_get_impl_ok size conv b :
  binv b → 0 <= size <= zlen (bview b) →
  reads (buf_try_get_impl size conv b) b size (Ok (conv (ztake size (bview b)))).
Proof.
  intros Hb Hs. unfold buf_try_get_impl.
  rewrite remaining_view, (proj2 (Z.ltb_ge _ _)) by (done || lia).
  destruct (Z.le_gt_cases size (zlen (chunk b))) as [Hc|Hc].
  - rewrite slice_get_ok, zdrop_0 by lia.
    destruct (advance_ok b size Hb Hs) as (b' & -> & ? & ?). rewrite bind_ret.
    exists b'. by rewrite (prefix_ztake_l size (chunk b) (bview b)) by
      (done || by apply chunk_prefix).
  - rewrite slice_get_None by lia.
    destruct (copy_to_slice_ok b (zreplicate size Byte.x00) Hb) as (b' & -> & ? & Hv); [zlia|].
    rewrite bind_ret. rewrite zlen_replicate in * by lia. exists b'. done.
Qed.

Lemma buf_try_get_impl_err size conv b :
  binv b → zlen (bview b) < size →
  buf_try_get_impl size conv b =
    Ret (Err {| requested := size; available := zlen (bview b) |}, b).
Proof.
  intros Hb Hs. unfold buf_try_get_impl.
  by rewrite remaining_view, (proj2 (Z.ltb_lt _ _)).
Qed.

Lemma get_u8_byte (conv : byte → Z) b :
  binv b → 1 <= zlen (bview b) →
  reads (ret ← index (chunk b) 0; self ← advance b 1; Ret (conv ret, self)) b 1
    (conv (default Byte.x00 (head (bview b)))).
Proof.
  intros Hb Hs. destruct (chunk b) as [|x c] eqn:E.
  - apply chunk_progress in E; [|done]. rewrite E in Hs. zlia.
  - rewrite index_0_cons, bind_ret.
    destruct (advance_ok b 1 Hb) as (b' & -> & ? & ?); [lia|]. exists b'.
    pose proof (chunk_prefix b Hb) as [r Hr]. rewrite E in Hr. by rewrite Hr in *.
Qed.

End getter_laws.
