(* ===== verification/BufSpec.v ===== *)
(** * BufSpec: what the getters of [Buf] return

    [fixed_getters] lists every fixed-width getter with the number of bytes it
    consumes and the value it decodes; one theorem covers the table.  The
    variable-width getters, sign extension and the error paths follow. *)

From S2P Require Import Prelude Machine Buf.

(** ** The table of fixed-width getters *)
Record getter (B : Type) := {
  g_size : Z;
  g_conv : list byte → Z;
  g_get : B → outcome (Z * B);
  g_try : B → outcome (result Z TryGetError * B);
}.
Arguments g_size {B} _.
Arguments g_conv {B} _ _.
Arguments g_get {B} _ _.
Arguments g_try {B} _ _.
Arguments Build_getter {B} _ _ _ _.

Section table.
Context `{T : Target} {B : Type} `{HB : !Buf B, HL : !BufLaws B}.

Definition int_getters : list (getter B) :=
  [ Build_getter 1 u_from_be_bytes get_u8 try_get_u8;
    Build_getter 1 i_from_be_bytes get_i8 try_get_i8;
    Build_getter 2 u_from_be_bytes get_u16 try_get_u16;
    Build_getter 2 u_from_le_bytes get_u16_le try_get_u16_le;
    Build_getter 2 u_from_ne_bytes get_u16_ne try_get_u16_ne;
    Build_getter 2 i_from_be_bytes get_i16 try_get_i16;
    Build_getter 2 i_from_le_bytes get_i16_le try_get_i16_le;
    Build_getter 2 i_from_ne_bytes get_i16_ne try_get_i16_ne;
    Build_getter 4 u_from_be_bytes get_u32 try_get_u32;
    Build_getter 4 u_from_le_bytes get_u32_le try_get_u32_le;
    Build_getter 4 u_from_ne_bytes get_u32_ne try_get_u32_ne;
    Build_getter 4 i_from_be_bytes get_i32 try_get_i32;
    Build_getter 4 i_from_le_bytes get_i32_le try_get_i32_le;
    Build_getter 4 i_from_ne_bytes get_i32_ne try_get_i32_ne;
    Build_getter 8 u_from_be_bytes get_u64 try_get_u64;
    Build_getter 8 u_from_le_bytes get_u64_le try_get_u64_le;
    Build_getter 8 u_from_ne_bytes get_u64_ne try_get_u64_ne;
    Build_getter 8 i_from_be_bytes get_i64 try_get_i64;
    Build_getter 8 i_from_le_bytes get_i64_le try_get_i64_le;
    Build_getter 8 i_from_ne_bytes get_i64_ne try_get_i64_ne;
    Build_getter 16 u_from_be_bytes get_u128 try_get_u128;
    Build_getter 16 u_from_le_bytes get_u128_le try_get_u128_le;
    Build_getter 16 u_from_ne_bytes get_u128_ne try_get_u128_ne;
    Build_getter 16 i_from_be_bytes get_i128 try_get_i128;
    Build_getter 16 i_from_le_bytes get_i128_le try_get_i128_le;
    Build_getter 16 i_from_ne_bytes get_i128_ne try_get_i128_ne ].

(** A float is its bits. *)
Definition float_getters : list (getter B) :=
  [ Build_getter 4 u_from_be_bytes get_f32 try_get_f32;
    Build_getter 4 u_from_le_bytes get_f32_le try_get_f32_le;
    Build_getter 4 u_from_ne_bytes get_f32_ne try_get_f32_ne;
    Build_getter 8 u_from_be_bytes get_f64 try_get_f64;
    Build_getter 8 u_from_le_bytes get_f64_le try_get_f64_le;
    Build_getter 8 u_from_ne_bytes get_f64_ne try_get_f64_ne ].

Definition fixed_getters : list (getter B) := int_getters ++ float_getters.

(** The contract of one getter: with enough bytes both forms decode the front of
    the buffer and consume it; without, the panicking form panics with the sizes
    and the fallible form returns them and leaves the buffer alone. *)
Definition getter_ok (g : getter B) : Prop :=
  ∀ b, binv b →
    (g_size g <= zlen (bview b) →
       reads (g_get g b) b (g_size g) (g_conv g (ztake (g_size g) (bview b))) ∧
       reads (g_try g b) b (g_size g) (Ok (g_conv g (ztake (g_size g) (bview b))))) ∧
    (zlen (bview b) < g_size g →
       g_get g b = Fault (PanicAdvance (g_size g) (zlen (bview b))) ∧
       g_try g b = Ret (Err {| requested := g_size g; available := zlen (bview b) |}, b)).

Lemma getter_ok_impl size conv :
  0 <= size → getter_ok (Build_getter size conv (buf_get_impl size conv) (buf_try_get_impl size conv)).
Proof.
  intros Hs b Hb. simpl. split.
  - intros Hle. split; [apply reads_unwrap|]; by apply buf_try_get_impl_ok.
  - intros Hlt. unfold buf_get_impl. by rewrite buf_try_get_impl_err.
Qed.

Lemma u_from_be_1 (l : list byte) :
  1 <= zlen l → u_from_be_bytes (ztake 1 l) = u8_to_Z (default Byte.x00 (head l)).
Proof. destruct l as [|x l]; [rewrite zlen_nil; lia|]. intros _.
  change (u8_to_Z x + 256 * 0 = u8_to_Z x). lia. Qed.

Lemma i_from_be_1 (l : list byte) :
  1 <= zlen l → i_from_be_bytes (ztake 1 l) = wrap_signed 8 (u8_to_Z (default Byte.x00 (head l))).
Proof.
  intros Hl. unfold i_from_be_bytes. by rewrite u_from_be_1, zlen_take by lia.
Qed.

Lemma getter_ok_u8 : getter_ok (Build_getter 1 u_from_be_bytes get_u8 try_get_u8).
Proof.
  intros b Hb. simpl. unfold get_u8, try_get_u8. rewrite remaining_view by done. split.
  - intros Hle. rewrite (proj2 (Z.ltb_ge _ _)) by lia. rewrite u_from_be_1 by done.
    destruct (get_u8_byte u8_to_Z b Hb Hle) as (b' & Hm & Hr).
    split; [by exists b'|]. exists b'. split; [|done]. revert Hm.
    destruct (index _ _); [|done]. mret. by destruct (advance b 1); [intros [= <- ->]|].
  - intros Hlt. rewrite (proj2 (Z.ltb_lt _ _)) by lia. pose proof (zlen_nonneg (bview b)).
    by replace (zlen (bview b)) with 0 by lia.
Qed.

Lemma getter_ok_i8 : getter_ok (Build_getter 1 i_from_be_bytes get_i8 try_get_i8).
Proof.
  intros b Hb. simpl. unfold get_i8, try_get_i8. rewrite remaining_view by done. split.
  - intros Hle. rewrite (proj2 (Z.ltb_ge _ _)) by lia. rewrite i_from_be_1 by done.
    destruct (get_u8_byte (λ x, wrap_signed 8 (u8_to_Z x)) b Hb Hle) as (b' & Hm & Hr).
    split; [by exists b'|]. exists b'. split; [|done]. revert Hm.
    destruct (index _ _); [|done]. mret. by destruct (advance b 1); [intros [= <- ->]|].
  - intros Hlt. rewrite (proj2 (Z.ltb_lt _ _)) by lia. pose proof (zlen_nonneg (bview b)).
    by replace (zlen (bview b)) with 0 by lia.
Qed.

Lemma fixed_getters_ok : Forall getter_ok fixed_getters.
Proof.
  unfold fixed_getters, int_getters, float_getters. cbn [app]. apply Forall_cons. split; [apply getter_ok_u8|].
  apply Forall_cons. split; [apply getter_ok_i8|].
  repeat (apply Forall_cons; split; [apply getter_ok_impl; lia|]). apply Forall_nil_2.
Qed.

End table.

(** ** Sign extension *)
Lemma sign_extend_ok `{Target} val n :
  1 <= n <= 8 → is_unsigned n val → sign_extend val n = Ret (wrap_signed (8 * n) val).
Proof.
  intros Hn [Hv0 Hv]. pose proof usize_max_ge. unfold sign_extend.
  rewrite usub_ok, bind_ret, umul_ok, bind_ret by lia.
  set (s := (8 - n) * 8). assert (Hs : 0 <= s <= 56) by (subst s; lia).
  rewrite (proj2 (Z.leb_gt _ _)) by lia. f_equal.
  rewrite Z.shiftl_mul_pow2, Z.shiftr_div_pow2 by lia.
  assert (H64 : 2 ^ 64 = 2 ^ (8 * n) * 2 ^ s) by (rewrite <- Z.pow_add_r by lia; f_equal; lia).
  assert (H63 : 2 ^ 63 = 2 ^ (8 * n - 1) * 2 ^ s) by (rewrite <- Z.pow_add_r by lia; f_equal; lia).
  assert (Hps : 0 < 2 ^ s) by (apply Z.pow_pos_nonneg; lia).
  pose proof (pow2_split (8 * n) ltac:(lia)) as Hsp.
  rewrite wrap_unsigned_small by nia. unfold wrap_signed.
  change (64 - 1) with 63. rewrite H63, H64, <- Z.mul_add_distr_r.
  rewrite Z.mul_mod_distr_r by lia.
  rewrite <- Z.mul_sub_distr_r, Z.div_mul by lia. done.
Qed.

Lemma sign_extend_0 `{Target} val : sign_extend val 0 = Fault PanicOverflow.
Proof.
  pose proof usize_max_ge. unfold sign_extend.
  by rewrite usub_ok, bind_ret, umul_ok, bind_ret by lia.
Qed.

(** ** The variable-width getters *)
Lemma u_from_be_pad n bs : u_from_be_bytes (zreplicate n Byte.x00 ++ bs) = u_from_be_bytes bs.
Proof.
  unfold u_from_be_bytes. rewrite reverse_app, le_value_app.
  unfold zreplicate. rewrite reverse_replicate.
  fold (zreplicate n Byte.x00). rewrite le_value_zeros. lia.
Qed.

Lemma u_from_le_pad n bs : u_from_le_bytes (bs ++ zreplicate n Byte.x00) = u_from_le_bytes bs.
Proof. unfold u_from_le_bytes. rewrite le_value_app, le_value_zeros. lia. Qed.

Section var_width.
Context `{T : Target} {B : Type} `{HB : !Buf B, HL : !BufLaws B}.
Implicit Types (b : B).

Lemma zdrop_zeros k n : 0 <= k <= n →
  zdrop k (ztake n (zreplicate n Byte.x00)) = zreplicate (n - k) Byte.x00.
Proof.
  intros. unfold zdrop, ztake, zreplicate. rewrite take_replicate, drop_replicate.
  f_equal. lia.
Qed.

Lemma buf_try_get_impl_be_ok conv n b :
  binv b → 0 <= n <= 8 → n <= zlen (bview b) →
  reads (buf_try_get_impl_be 8 conv n b) b n
    (Ok (conv (zreplicate (8 - n) Byte.x00 ++ ztake n (bview b)))).
Proof.
  intros Hb Hn Hle. unfold buf_try_get_impl_be. rewrite checked_sub_Some by lia.
  rewrite slice_range_ok, bind_ret by zlia. rewrite zdrop_zeros by lia.
  replace (8 - (8 - n)) with n by lia.
  destruct (try_copy_to_slice_ok b (zreplicate n Byte.x00) Hb) as (b' & -> & ? & Hv); [zlia|].
  rewrite bind_ret. rewrite zlen_replicate in * by lia. exists b'. split; [|done].
  do 4 f_equal. unfold splice. rewrite ztake_replicate by lia.
  rewrite zdrop_ge by zlia. by rewrite app_nil_r.
Qed.

Lemma buf_try_get_impl_le_ok conv n b :
  binv b → 0 <= n <= 8 → n <= zlen (bview b) →
  reads (buf_try_get_impl_le 8 conv n b) b n
    (Ok (conv (ztake n (bview b) ++ zreplicate (8 - n) Byte.x00))).
Proof.
  intros Hb Hn Hle. unfold buf_try_get_impl_le.
  rewrite slice_get_ok, zdrop_0, ztake_replicate by zlia.
  destruct (try_copy_to_slice_ok b (zreplicate n Byte.x00) Hb) as (b' & -> & ? & Hv); [zlia|].
  rewrite bind_ret. rewrite zlen_replicate in * by lia. exists b'. split; [|done].
  do 4 f_equal. unfold splice. rewrite ztake_0. simpl. f_equal.
  rewrite zlen_take by lia. rewrite <- (zdrop_zeros n 8) by lia.
  by rewrite ztake_ge by zlia.
Qed.

Lemma buf_try_get_impl_be_err conv n b :
  binv b → 0 <= n <= 8 → zlen (bview b) < n →
  buf_try_get_impl_be 8 conv n b = Ret (Err {| requested := n; available := zlen (bview b) |}, b).
Proof.
  intros Hb Hn Hlt. unfold buf_try_get_impl_be. rewrite checked_sub_Some by lia.
  rewrite slice_range_ok, bind_ret by zlia. rewrite zdrop_zeros by lia.
  replace (8 - (8 - n)) with n by lia.
  rewrite try_copy_to_slice_past by (done || zlia). by rewrite bind_ret, zlen_replicate by lia.
Qed.

Lemma buf_try_get_impl_le_err conv n b :
  binv b → 0 <= n <= 8 → zlen (bview b) < n →
  buf_try_get_impl_le 8 conv n b = Ret (Err {| requested := n; available := zlen (bview b) |}, b).
Proof.
  intros Hb Hn Hlt. unfold buf_try_get_impl_le.
  rewrite slice_get_ok, zdrop_0, ztake_replicate by zlia.
  rewrite try_copy_to_slice_past by (done || zlia). by rewrite bind_ret, zlen_replicate by lia.
Qed.

Lemma buf_try_get_impl_be_nofit conv n b :
  8 < n → buf_try_get_impl_be 8 conv n b = Fault (PanicDoesNotFit 8 n).
Proof. intros. unfold buf_try_get_impl_be. by rewrite checked_sub_None. Qed.

Lemma buf_try_get_impl_le_nofit conv n b :
  8 < n → buf_try_get_impl_le 8 conv n b = Fault (PanicDoesNotFit 8 n).
Proof. intros. unfold buf_try_get_impl_le. by rewrite slice_get_None by zlia. Qed.

Lemma get_uint_ok n b :
  binv b → 0 <= n <= 8 → n <= zlen (bview b) →
  reads (get_uint b n) b n (u_from_be_bytes (ztake n (bview b))) ∧
  reads (get_uint_le b n) b n (u_from_le_bytes (ztake n (bview b))).
Proof.
  intros Hb Hn Hle. split.
  - rewrite <- (u_from_be_pad (8 - n)). by apply reads_unwrap, buf_try_get_impl_be_ok.
  - rewrite <- (u_from_le_pad (8 - n)). by apply reads_unwrap, buf_try_get_impl_le_ok.
Qed.

Lemma get_int_ok n b :
  binv b → 1 <= n <= 8 → n <= zlen (bview b) →
  reads (get_int b n) b n (i_from_be_bytes (ztake n (bview b))) ∧
  reads (get_int_le b n) b n (i_from_le_bytes (ztake n (bview b))).
Proof.
  intros Hb Hn Hle. destruct (get_uint_ok n b Hb) as [(b1 & E1 & ? & ?) (b2 & E2 & ? & ?)]; [lia|lia|].
  assert (Hl : zlen (ztake n (bview b)) = n) by (apply zlen_take; lia).
  split.
  - unfold get_int, i_from_be_bytes. rewrite E1, bind_ret, Hl.
    rewrite sign_extend_ok, bind_ret by
      (lia || (rewrite <- Hl at 1; apply u_from_be_range)). by exists b1.
  - unfold get_int_le, i_from_le_bytes. rewrite E2, bind_ret, Hl.
    rewrite sign_extend_ok, bind_ret by
      (lia || (rewrite <- Hl at 1; apply u_from_le_range)). by exists b2.
Qed.

Lemma i_from_padded_unsigned bs v :
  zlen bs = 8 → 0 <= v < 2 ^ 56 →
  (u_from_be_bytes bs = v → i_from_be_bytes bs = v) ∧
  (u_from_le_bytes bs = v → i_from_le_bytes bs = v).
Proof.
  intros Hl Hv. unfold i_from_be_bytes, i_from_le_bytes. rewrite Hl.
  split; intros ->; apply wrap_signed_small; lia.
Qed.

Lemma try_get_int_ok n b :
  binv b → 0 <= n < 8 → n <= zlen (bview b) →
  reads (try_get_int b n) b n (Ok (u_from_be_bytes (ztake n (bview b)))) ∧
  reads (try_get_int_le b n) b n (Ok (u_from_le_bytes (ztake n (bview b)))).
Proof.
  intros Hb Hn Hle. set (bs := ztake n (bview b)).
  assert (Hl : zlen bs = n) by (apply zlen_take; lia).
  assert (Hpow : 2 ^ (8 * n) <= 2 ^ 56) by (apply Z.pow_le_mono_r; lia).
  pose proof (u_from_be_range bs) as Hbe. pose proof (u_from_le_range bs) as Hle'.
  rewrite Hl in Hbe, Hle'. unfold is_unsigned in *. split.
  - destruct (i_from_padded_unsigned (zreplicate (8 - n) Byte.x00 ++ bs) (u_from_be_bytes bs))
      as [E _]; [zlia|lia|]. rewrite <- E by apply u_from_be_pad.
    apply buf_try_get_impl_be_ok; [done|lia|lia].
  - destruct (i_from_padded_unsigned (bs ++ zreplicate (8 - n) Byte.x00) (u_from_le_bytes bs))
      as [_ E]; [zlia|lia|]. rewrite <- E by apply u_from_le_pad.
    apply buf_try_get_impl_le_ok; [done|lia|lia].
Qed.

End var_width.
