(* ===== verification/BufSources.v ===== *)
(** * BufSources: the [Buf] implementations that hold bytes

    [&[u8]] and [std::io::Cursor] (src/patches/bytes/src/buf/buf_impl.rs) and
    [VecDeque<u8>] (src/patches/bytes/src/buf/vec_deque.rs), each with its proof of
    [BufLaws] and of the vectored-read contract [VectoredLaws]. *)

From S2P Require Import Prelude Machine Buf.

(** ** The contract of [chunks_vectored]

    The entries written are consecutive slices of the contents, in order, from the
    current position; the entries after them keep their value; an empty buffer
    writes nothing and any other buffer at least one byte.  [complete] adds that an
    entry left unwritten means that nothing is left out. *)
Definition vectored_spec {B} `{!Buf B, !BufLaws B} (complete : Prop)
    (b : B) (dst : list (list byte)) : Prop :=
  ∃ n dst', chunks_vectored b dst = Ret (n, dst') ∧ 0 <= n <= zlen dst ∧
    zlen dst' = zlen dst ∧ zdrop n dst' = zdrop n dst ∧
    mjoin (ztake n dst') `prefix_of` bview b ∧
    (bview b ≠ [] → dst ≠ [] → mjoin (ztake n dst') ≠ []) ∧
    (bview b = [] → n = 0) ∧
    (complete → n < zlen dst → mjoin (ztake n dst') = bview b).

Abbreviation vectored_ok := (vectored_spec True).

Class VectoredLaws `{T : Target} (B : Type) `{HB : !Buf B, HL : !BufLaws B} : Prop :=
  chunks_vectored_ok (b : B) dst : binv b → zlen dst <= usize_max → vectored_ok b dst.

(** The default [chunks_vectored] meets the contract for a contiguous buffer. *)
Lemma vectored_default_ok {B} `{!Buf B, !BufLaws B} (b : B) dst :
  (∀ c d, chunks_vectored c d = chunks_vectored_default c d) →
  binv b → chunk b = bview b → vectored_ok b dst.
Proof.
  intros Hdef Hb Hc. unfold vectored_spec. rewrite Hdef. unfold chunks_vectored_default, has_remaining.
  rewrite remaining_view by done. destruct dst as [|d dst].
  { exists 0, []. repeat split; try done; first [apply prefix_nil | cbn; lia]. }
  destruct (Z.ltb_spec 0 (zlen (bview b))).
  - exists 1, (chunk b :: dst).
    assert (Hj : mjoin (ztake 1 (chunk b :: dst)) = bview b)
      by (change (chunk b ++ [] = bview b); by rewrite app_nil_r).
    assert (Hne : bview b ≠ []) by (intros E; rewrite E in *; zlia).
    split; [done|]. split; [zlia|]. split; [zlia|]. split; [done|].
    rewrite Hj. repeat split; done.
  - assert (Hv : bview b = []) by (apply zlen_0_nil; pose_zlen; lia).
    exists 0, (d :: dst). rewrite Hv. repeat split; try done; zlia.
Qed.

(** ** [impl Buf for &[u8]] *)
#[export] Instance slice_core : BufCore (list byte) := {
  remaining self := zlen self;
  chunk self := self;
  advance self cnt :=
    if zlen self <? cnt
    then panic_advance {| requested := cnt; available := zlen self |}
    else slice_range self cnt (zlen self);
}.

Definition slice_copy_to_slice (self dst : list byte) : outcome (list byte * list byte) :=
  if zlen self <? zlen dst
  then panic_advance {| requested := zlen dst; available := zlen self |}
  else
    src ← slice_range self 0 (zlen dst);
    self ← advance self (zlen dst);
    Ret (self, src).

#[export] Instance slice_buf : Buf (list byte) := {
  buf_core := slice_core;
  copy_to_slice := slice_copy_to_slice;
  chunks_vectored := chunks_vectored_default;
}.

Lemma slice_advance_ok (b : list byte) cnt :
  0 <= cnt <= zlen b → advance b cnt = Ret (zdrop cnt b).
Proof.
  intros. cbn. rewrite (proj2 (Z.ltb_ge _ _)) by lia.
  by rewrite slice_range_ok, ztake_ge by lia.
Qed.

#[export] Instance slice_laws : BufLaws (list byte).
Proof.
  refine {| bview := id; binv _ := True |}.
  - done.
  - done.
  - done.
  - intros b cnt _ Hc. exists (zdrop cnt b). by rewrite slice_advance_ok.
  - intros b cnt _ Hc. cbn in *. rewrite (proj2 (Z.ltb_lt _ _)) by done. by eexists.
  - intros b dst _ Hc. cbn in *. unfold slice_copy_to_slice.
    rewrite (proj2 (Z.ltb_ge _ _)) by lia.
    rewrite slice_range_ok, bind_ret, zdrop_0 by zlia.
    rewrite slice_advance_ok, bind_ret by zlia. by eexists.
  - intros b dst _ Hc. cbn in *. unfold slice_copy_to_slice.
    by rewrite (proj2 (Z.ltb_lt _ _)).
Defined.

#[export] Instance slice_vectored `{T : Target} : VectoredLaws (list byte).
Proof. intros b dst Hb _. by apply vectored_default_ok. Qed.

(** ** [impl Buf for std::io::Cursor<T>] *)
Record Cursor := { get_ref : list byte; position : Z }.

Section cursor.
Context `{T : Target}.

(** src/patches/bytes/src/lib.rs *)
Definition saturating_sub_usize_u64 (a b : Z) : Z :=
  if b <=? usize_max then saturating_sub a b else 0.
Definition min_u64_usize (a b : Z) : Z :=
  if a <=? usize_max then Z.min a b else b.

(** [pos + cnt as u64] with overflow checks. *)
Definition u64_add (a b : Z) : outcome Z :=
  if a + b <=? 2 ^ 64 - 1 then Ret (a + b) else Fault PanicOverflow.

Definition cursor_remaining (self : Cursor) : Z :=
  saturating_sub_usize_u64 (zlen (get_ref self)) (position self).

Definition cursor_chunk (self : Cursor) : list byte :=
  let slice := get_ref self in
  let pos := min_u64_usize (position self) (zlen slice) in
  zdrop pos slice.

Definition cursor_advance (self : Cursor) (cnt : Z) : outcome Cursor :=
  let len := zlen (get_ref self) in
  let pos := position self in
  let max_cnt := saturating_sub_usize_u64 len pos in
  if max_cnt <? cnt then panic_advance {| requested := cnt; available := max_cnt |}
  else
    pos ← u64_add pos cnt;
    Ret {| get_ref := get_ref self; position := pos |}.

#[export] Instance cursor_core : BufCore Cursor :=
  { remaining := cursor_remaining; chunk := cursor_chunk; advance := cursor_advance }.
#[export] Instance cursor_buf : Buf Cursor :=
  { buf_core := cursor_core; copy_to_slice := copy_to_slice_default;
    chunks_vectored := chunks_vectored_default }.

Definition cursor_inv (c : Cursor) : Prop :=
  0 <= position c < 2 ^ 64 ∧ zlen (get_ref c) <= isize_max.

Lemma cursor_min_pos c :
  cursor_inv c →
  min_u64_usize (position c) (zlen (get_ref c)) = Z.min (position c) (zlen (get_ref c)).
Proof.
  intros [Hp Hl]. unfold min_u64_usize. pose proof usize_isize_max. pose_zlen.
  destruct (Z.leb_spec (position c) usize_max); lia.
Qed.

Lemma cursor_rem c :
  cursor_inv c →
  saturating_sub_usize_u64 (zlen (get_ref c)) (position c)
  = zlen (get_ref c) - Z.min (position c) (zlen (get_ref c)).
Proof.
  intros [Hp Hl]. unfold saturating_sub_usize_u64, saturating_sub.
  pose proof usize_isize_max. pose_zlen.
  destruct (Z.leb_spec (position c) usize_max); lia.
Qed.

Lemma isize_max_lt_u64 : isize_max < 2 ^ 63.
Proof. unfold isize_max. destruct ptr_width_cases as [-> | ->]; lia. Qed.

Lemma cursor_chunk_len c :
  cursor_inv c → zlen (cursor_chunk c) = cursor_remaining c.
Proof.
  intros Hc. unfold cursor_chunk, cursor_remaining.
  rewrite cursor_min_pos, cursor_rem by done. destruct Hc. zlia.
Qed.

Lemma cursor_core_laws : core_laws (B := Cursor) cursor_chunk cursor_inv.
Proof.
  constructor.
  - intros c Hc. symmetry. by apply cursor_chunk_len.
  - done.
  - done.
  - intros c cnt Hc Hcnt. rewrite cursor_chunk_len in Hcnt by done. cbn.
    unfold cursor_advance. fold (cursor_remaining c).
    rewrite (proj2 (Z.ltb_ge _ _)) by lia.
    unfold cursor_remaining in Hcnt. rewrite cursor_rem in Hcnt by done.
    pose proof isize_max_lt_u64. destruct Hc as [Hp Hl].
    unfold u64_add. rewrite (proj2 (Z.leb_le _ _)) by (pose_zlen; lia).
    rewrite bind_ret. eexists. split; [done|].
    assert (Hc' : cursor_inv {| get_ref := get_ref c; position := position c + cnt |})
      by (split; cbn; [pose_zlen; lia|done]).
    split; [done|]. unfold cursor_chunk. rewrite !cursor_min_pos by done. cbn.
    pose_zlen. rewrite zdrop_zdrop by lia.
    destruct (Z.le_gt_cases (position c) (zlen (get_ref c))).
    + f_equal. lia.
    + rewrite !zdrop_ge by lia. done.
Qed.

#[export] Instance cursor_laws : BufLaws Cursor.
Proof.
  refine {| bview := cursor_chunk; binv := cursor_inv |}.
  - apply (cl_remaining _ _ cursor_core_laws).
  - apply (cl_prefix _ _ cursor_core_laws).
  - apply (cl_progress _ _ cursor_core_laws).
  - apply (cl_advance _ _ cursor_core_laws).
  - intros c cnt Hc Hcnt. rewrite cursor_chunk_len in Hcnt by done. cbn. unfold cursor_advance.
    fold (cursor_remaining c). rewrite (proj2 (Z.ltb_lt _ _)) by lia. by eexists.
  - apply (copy_to_slice_default_ok cursor_core_laws).
  - apply (copy_to_slice_default_past cursor_core_laws).
Defined.

#[export] Instance cursor_vectored : VectoredLaws Cursor.
Proof. intros b dst Hb _. by apply vectored_default_ok. Qed.

End cursor.

(** ** [impl Buf for VecDeque<u8>]

    A deque is its two slices ([as_slices]); the first is empty only when the
    whole deque is. *)
Record VecDeque := { slice1 : list byte; slice2 : list byte }.

Definition vd_len (self : VecDeque) : Z := zlen (slice1 self) + zlen (slice2 self).

(** [VecDeque::drain(..cnt)]: drops the first [cnt] bytes; once the first slice is
    used up, the second one becomes the first. *)
Definition vd_drain_to (self : VecDeque) (cnt : Z) : outcome VecDeque :=
  if vd_len self <? cnt then Fault PanicIndex
  else if cnt <? zlen (slice1 self)
  then Ret {| slice1 := zdrop cnt (slice1 self); slice2 := slice2 self |}
  else Ret {| slice1 := zdrop (cnt - zlen (slice1 self)) (slice2 self); slice2 := [] |}.

Definition vd_chunk (self : VecDeque) : list byte :=
  if is_empty (slice1 self) then slice2 self else slice1 self.

Definition vd_chunks_vectored (self : VecDeque) (dst : list (list byte)) :
    outcome (Z * list (list byte)) :=
  match dst with
  | [] => Ret (0, [])
  | d0 :: dst1 =>
    if vd_len self =? 0 then Ret (0, dst)
    else
      match dst1 with
      | [] => Ret (1, [slice1 self])
      | d1 :: dst2 =>
        if is_empty (slice2 self) then Ret (1, slice1 self :: dst1)
        else Ret (2, slice1 self :: slice2 self :: dst2)
      end
  end.

#[export] Instance vec_deque_core : BufCore VecDeque :=
  { remaining := vd_len; chunk := vd_chunk; advance := vd_drain_to }.
#[export] Instance vec_deque_buf : Buf VecDeque :=
  { buf_core := vec_deque_core; copy_to_slice := copy_to_slice_default;
    chunks_vectored := vd_chunks_vectored }.

Definition vd_view (d : VecDeque) : list byte := slice1 d ++ slice2 d.
Definition vd_inv (d : VecDeque) : Prop := slice1 d = [] → slice2 d = [].

Lemma vd_core_laws : core_laws (B := VecDeque) vd_view vd_inv.
Proof.
  constructor.
  - intros d _. cbn. unfold vd_len, vd_view. by rewrite zlen_app.
  - intros [[|x s1] s2] Hd; cbn; [|by exists s2]. unfold vd_view. cbn. exists []. by rewrite app_nil_r.
  - intros [[|x s1] s2] Hd; cbn; [|done]. intros ->. done.
  - intros [s1 s2] cnt Hd Hc. unfold vd_view, vd_inv in *. cbn in *. unfold vd_drain_to, vd_len. cbn.
    rewrite zlen_app in Hc. rewrite (proj2 (Z.ltb_ge _ _)) by lia.
    destruct (Z.ltb_spec cnt (zlen s1)).
    + eexists. split; [done|]. cbn. split.
      * intros E. apply (f_equal zlen) in E. zlia.
      * by rewrite zdrop_app_l by lia.
    + eexists. split; [done|]. cbn. split; [done|]. by rewrite zdrop_app_r, app_nil_r by lia.
Qed.

#[export] Instance vec_deque_laws : BufLaws VecDeque.
Proof.
  refine {| bview := vd_view; binv := vd_inv |}.
  - apply (cl_remaining _ _ vd_core_laws).
  - apply (cl_prefix _ _ vd_core_laws).
  - apply (cl_progress _ _ vd_core_laws).
  - apply (cl_advance _ _ vd_core_laws).
  - intros d cnt _ Hc. cbn. unfold vd_drain_to, vd_len, vd_view in *. rewrite zlen_app in Hc.
    rewrite (proj2 (Z.ltb_lt _ _)) by lia. by eexists.
  - apply (copy_to_slice_default_ok vd_core_laws).
  - apply (copy_to_slice_default_past vd_core_laws).
Defined.

#[export] Instance vec_deque_vectored `{T : Target} : VectoredLaws VecDeque.
Proof.
  intros [s1 s2] dst Hd _. unfold vectored_spec. cbn in Hd |- *. unfold vd_inv, vd_view in *. cbn in *.
  destruct dst as [|d0 dst1]; cbn.
  { exists 0, []. repeat split; try done; first [apply prefix_nil | cbn; lia]. }
  unfold vd_len. cbn. destruct (Z.eqb_spec (zlen s1 + zlen s2) 0) as [E|E].
  - assert (s1 = []) as -> by (apply zlen_0_nil; pose_zlen; lia).
    assert (s2 = []) as -> by (by apply Hd).
    exists 0, (d0 :: dst1). repeat split; try done; zlia.
  - assert (Hne : s1 ≠ []) by (intros ->; rewrite (Hd eq_refl) in E; done).
    destruct dst1 as [|d1 dst2].
    + exists 1, [s1]. split; [done|]. change (mjoin (ztake 1 [s1])) with (s1 ++ []).
      rewrite app_nil_r. repeat split; try done; try zlia.
      { by exists s2. } { intros [? ?]%app_eq_nil. done. }
    + destruct s2 as [|y s2]; cbn.
      * exists 1, (s1 :: d1 :: dst2). split; [done|].
        change (mjoin (ztake 1 (s1 :: d1 :: dst2))) with (s1 ++ []).
        rewrite !app_nil_r. repeat split; try done; try zlia.
      * exists 2, (s1 :: (y :: s2) :: dst2). split; [done|].
        change (mjoin (ztake 2 (s1 :: (y :: s2) :: dst2))) with (s1 ++ (y :: s2) ++ []).
        rewrite app_nil_r. repeat split; try done; try zlia.
        all: try intros _ _; intros [? ?]%app_eq_nil; done.
Qed.
