(* ===== verification/BufAdapters.v ===== *)
(** * BufAdapters: the [Buf] implementations built on other buffers

    [Chain] (chain.rs), [Take] (take.rs), the iterator [IntoIter] (iter.rs), the
    [io::Read] adapter [Reader] (reader.rs) and the wrapper that stands for [&mut T] and
    [Box<T>] with its required methods (the macro [deref_forward_buf!] of buf_impl.rs; the
    other methods of the macro are in [BufForward]), all under src/patches/bytes/src/buf/.  Each adapter is proved against the interface
    [BufLaws] of the buffers it wraps. *)

From S2P Require Import Prelude Machine Buf BufSpec BufSources.

(** ** Chain *)
Record Chain (A B : Type) := { chain_a : A; chain_b : B }.
Arguments chain_a {A B} _.
Arguments chain_b {A B} _.
Arguments Build_Chain {A B} _ _.

Section chain.
Context `{T : Target} {A B : Type} `{HA : !Buf A, HB : !Buf B}.

Definition chain_new (a : A) (b : B) : Chain A B := Build_Chain a b.
Definition first_ref (self : Chain A B) : A := chain_a self.
Definition last_ref (self : Chain A B) : B := chain_b self.
Definition first_mut (self : Chain A B) : borrow (Chain A B) A :=
  {| borrowed := chain_a self; give_back := λ a, Build_Chain a (chain_b self) |}.
Definition last_mut (self : Chain A B) : borrow (Chain A B) B :=
  {| borrowed := chain_b self; give_back := λ b, Build_Chain (chain_a self) b |}.
Definition chain_into_inner (self : Chain A B) : A * B := (chain_a self, chain_b self).

Definition chain_remaining (self : Chain A B) : Z :=
  saturating_add (remaining (chain_a self)) (remaining (chain_b self)).

Definition chain_chunk (self : Chain A B) : list byte :=
  if has_remaining (chain_a self) then chunk (chain_a self) else chunk (chain_b self).

Definition chain_advance (self : Chain A B) (cnt : Z) : outcome (Chain A B) :=
  let a_rem := remaining (chain_a self) in
  if negb (a_rem =? 0) then
    if cnt <=? a_rem then
      a ← advance (chain_a self) cnt;
      Ret (Build_Chain a (chain_b self))
    else
      a ← advance (chain_a self) a_rem;
      cnt ← usub cnt a_rem;
      b ← advance (chain_b self) cnt;
      Ret (Build_Chain a b)
  else
    b ← advance (chain_b self) cnt;
    Ret (Build_Chain (chain_a self) b).

Definition chain_chunks_vectored (self : Chain A B) (dst : list (list byte)) :
    outcome (Z * list (list byte)) :=
  '(n, dst) ← chunks_vectored (chain_a self) dst;
  rest ← slice_range dst n (zlen dst);
  '(m, rest) ← chunks_vectored (chain_b self) rest;
  nm ← uadd n m;
  Ret (nm, splice dst n rest).

#[export] Instance chain_core : BufCore (Chain A B) :=
  { remaining := chain_remaining; chunk := chain_chunk; advance := chain_advance }.
#[export] Instance chain_buf : Buf (Chain A B) :=
  { buf_core := chain_core; copy_to_slice := copy_to_slice_default;
    chunks_vectored := chain_chunks_vectored }.

Context `{LA : !BufLaws A, LB : !BufLaws B}.

Definition chain_view (self : Chain A B) : list byte :=
  bview (chain_a self) ++ bview (chain_b self).

(** Both parts are lawful and their total fits [usize], where the saturating sum
    is exact. *)
Definition chain_inv (self : Chain A B) : Prop :=
  binv (chain_a self) ∧ binv (chain_b self) ∧ zlen (chain_view self) <= usize_max.

Lemma chain_remaining_view c : chain_inv c → chain_remaining c = zlen (chain_view c).
Proof.
  intros (Ha & Hb & Hm). unfold chain_remaining, chain_view in *. rewrite zlen_app in *.
  rewrite !remaining_view by done. by apply saturating_add_small.
Qed.

Lemma chain_advance_ok c cnt :
  chain_inv c → 0 <= cnt <= zlen (chain_view c) →
  ∃ c', chain_advance c cnt = Ret c' ∧ chain_inv c' ∧ chain_view c' = zdrop cnt (chain_view c).
Proof.
  destruct c as [a b]. unfold chain_inv, chain_view, chain_advance. cbn.
  intros (Ha & Hb & Hm) Hc. rewrite zlen_app in Hc, Hm. rewrite remaining_view by done.
  destruct (Z.eqb_spec (zlen (bview a)) 0) as [E|E]; cbn.
  - apply zlen_0_nil in E. rewrite E in *. cbn in *.
    destruct (advance_ok b cnt Hb Hc) as (b' & -> & Hb' & Hv). rewrite bind_ret.
    eexists. split; [done|]. cbn. rewrite E, Hv. cbn. repeat split; try done. zlia.
  - destruct (Z.leb_spec cnt (zlen (bview a))).
    + destruct (advance_ok a cnt Ha) as (a' & -> & Ha' & Hv); [lia|]. rewrite bind_ret.
      eexists. split; [done|]. cbn. rewrite Hv, zdrop_app_l by lia. repeat split; try done. zlia.
    + destruct (advance_ok a (zlen (bview a)) Ha) as (a' & -> & Ha' & Hva); [pose_zlen; lia|].
      rewrite bind_ret, usub_ok, bind_ret by lia.
      destruct (advance_ok b (cnt - zlen (bview a)) Hb) as (b' & -> & Hb' & Hvb); [lia|].
      rewrite bind_ret. eexists. split; [done|]. cbn.
      rewrite Hva, Hvb, zdrop_ge, zdrop_app_r by lia. cbn. repeat split; try done. zlia.
Qed.

Lemma chain_core_laws : core_laws (B := Chain A B) chain_view chain_inv.
Proof.
  constructor.
  - apply chain_remaining_view.
  - intros [a b] (Ha & Hb & _). cbn in *. unfold chain_chunk, chain_view, has_remaining. cbn.
    rewrite remaining_view by done. destruct (Z.ltb_spec 0 (zlen (bview a))).
    + by apply prefix_app_r, chunk_prefix.
    + assert (bview a = []) as -> by (apply zlen_0_nil; pose_zlen; lia). by apply chunk_prefix.
  - intros [a b] (Ha & Hb & _). cbn in *. unfold chain_chunk, chain_view, has_remaining. cbn.
    rewrite remaining_view by done. destruct (Z.ltb_spec 0 (zlen (bview a))).
    + intros E%chunk_progress; [|done]. rewrite E in *. zlia.
    + assert (bview a = []) as -> by (apply zlen_0_nil; pose_zlen; lia). by apply chunk_progress.
  - apply chain_advance_ok.
Qed.

Lemma chain_advance_past c cnt :
  chain_inv c → zlen (chain_view c) < cnt → ∃ f, chain_advance c cnt = Fault f.
Proof.
  destruct c as [a b]. unfold chain_inv, chain_view, chain_advance. cbn.
  intros (Ha & Hb & Hm) Hc. rewrite zlen_app in Hc. rewrite remaining_view by done.
  pose proof (zlen_nonneg (bview a)). pose proof (zlen_nonneg (bview b)).
  destruct (Z.eqb_spec (zlen (bview a)) 0) as [E|E]; cbn.
  - destruct (advance_past b cnt Hb) as [f ->]; [lia|]. by exists f.
  - rewrite (proj2 (Z.leb_gt _ _)) by lia.
    destruct (advance_ok a (zlen (bview a)) Ha) as (a' & -> & _); [lia|].
    rewrite bind_ret, usub_ok, bind_ret by lia.
    destruct (advance_past b (cnt - zlen (bview a)) Hb) as [f ->]; [lia|]. by exists f.
Qed.

#[export] Instance chain_laws : BufLaws (Chain A B).
Proof.
  refine {| bview := chain_view; binv := chain_inv |}.
  - apply (cl_remaining _ _ chain_core_laws).
  - apply (cl_prefix _ _ chain_core_laws).
  - apply (cl_progress _ _ chain_core_laws).
  - apply (cl_advance _ _ chain_core_laws).
  - apply chain_advance_past.
  - apply (copy_to_slice_default_ok chain_core_laws).
  - apply (copy_to_slice_default_past chain_core_laws).
Defined.

End chain.

(** ** Take *)
Record Take (A : Type) := { take_inner : A; take_limit : Z }.
Arguments take_inner {A} _.
Arguments take_limit {A} _.
Arguments Build_Take {A} _ _.

Section take.
Context `{T : Target} {A : Type} `{HA : !Buf A}.

Definition take_new (inner : A) (limit : Z) : Take A := Build_Take inner limit.
Definition take_get_ref (self : Take A) : A := take_inner self.
Definition take_get_mut (self : Take A) : borrow (Take A) A :=
  {| borrowed := take_inner self; give_back := λ a, Build_Take a (take_limit self) |}.
Definition take_into_inner (self : Take A) : A := take_inner self.
Definition set_limit (self : Take A) (lim : Z) : Take A := Build_Take (take_inner self) lim.

Definition take_remaining (self : Take A) : Z :=
  Z.min (remaining (take_inner self)) (take_limit self).

Definition take_chunk (self : Take A) : list byte :=
  let bytes := chunk (take_inner self) in
  ztake (Z.min (zlen bytes) (take_limit self)) bytes.

Definition take_advance (self : Take A) (cnt : Z) : outcome (Take A) :=
  _ ← rust_assert (cnt <=? take_limit self);
  inner ← advance (take_inner self) cnt;
  limit ← usub (take_limit self) cnt;
  Ret (Build_Take inner limit).

(** The loop over [dst[..cnt].iter_mut().zip(slices.iter()).enumerate()]: the
    number of entries written if the limit is reached, and the new [dst]. *)
Fixpoint take_vectored_loop (i limit : Z) (dst slices : list (list byte)) :
    option Z * list (list byte) :=
  match dst, slices with
  | _ :: dst', slice :: slices' =>
    match slice_get slice 0 limit with
    | Some buf => (Some (i + 1), buf :: dst')
    | None =>
      let '(r, dst') := take_vectored_loop (i + 1) (limit - zlen slice) dst' slices' in
      (r, slice :: dst')
    end
  | _, _ => (None, dst)
  end.

Definition take_chunks_vectored (self : Take A) (dst : list (list byte)) :
    outcome (Z * list (list byte)) :=
  if take_limit self =? 0 then Ret (0, dst)
  else
    let LEN := 16 in
    let slices := zreplicate LEN [] in
    head ← slice_range slices 0 (Z.min (zlen dst) LEN);
    '(cnt, head) ← chunks_vectored (take_inner self) head;
    let slices := splice slices 0 head in
    front ← slice_range dst 0 cnt;
    let '(r, front) := take_vectored_loop 0 (take_limit self) front slices in
    Ret (default cnt r, splice dst 0 front).

#[export] Instance take_core : BufCore (Take A) :=
  { remaining := take_remaining; chunk := take_chunk; advance := take_advance }.
#[export] Instance take_buf : Buf (Take A) :=
  { buf_core := take_core; copy_to_slice := copy_to_slice_default;
    chunks_vectored := take_chunks_vectored }.

Context `{LA : !BufLaws A}.

Definition take_view (self : Take A) : list byte := ztake (take_limit self) (bview (take_inner self)).
Definition take_inv (self : Take A) : Prop :=
  binv (take_inner self) ∧ 0 <= take_limit self <= usize_max.

Lemma take_core_laws : core_laws (B := Take A) take_view take_inv.
Proof.
  constructor.
  - intros [a lim] (Ha & Hl). cbn in *. unfold take_remaining, take_view. cbn.
    rewrite remaining_view by done. zlia.
  - intros [a lim] (Ha & Hl). cbn in *. unfold take_chunk, take_view. cbn.
    pose proof (chunk_prefix a Ha) as Hp. pose proof (prefix_zlen _ _ Hp). pose_zlen.
    rewrite (prefix_ztake_l _ _ _ Hp) by lia.
    replace (Z.min (zlen (chunk a)) lim) with (Z.min (zlen (chunk a)) (Z.min lim (zlen (bview a)))) by lia.
    exists (zdrop (zlen (chunk a)) (ztake lim (bview a))).
    rewrite <- (ztake_zdrop (zlen (chunk a)) (ztake lim (bview a))) at 1.
    rewrite ztake_ztake. f_equal. f_equal. lia.
  - intros [a lim] (Ha & Hl). cbn in *. unfold take_chunk, take_view. cbn.
    intros E. apply zlen_0_nil in E. rewrite zlen_take_min in E. pose_zlen.
    destruct (decide (lim = 0)) as [->|]; [done|].
    rewrite (chunk_progress a Ha), ztake_nil; [done|]. apply zlen_0_nil. lia.
  - intros [a lim] cnt (Ha & Hl) Hc. cbn in *. unfold take_view in *. cbn in *.
    rewrite zlen_take_min in Hc. pose_zlen. unfold take_advance. cbn.
    rewrite rust_assert_true, bind_ret by (apply Z.leb_le; lia).
    destruct (advance_ok a cnt Ha) as (a' & -> & Ha' & Hv); [lia|].
    rewrite bind_ret, usub_ok, bind_ret by lia. eexists. split; [done|].
    unfold take_inv, take_view. cbn. split; [split; [done|lia]|].
    rewrite Hv, zdrop_ztake by lia. done.
Qed.

(** Where the inner buffer is while a [Take] built with limit [L] over the bytes
    [W] is being read. *)
Definition take_at (W : list byte) (L : Z) (t : Take A) : Prop :=
  take_inv t ∧ ∃ k, 0 <= k <= Z.min L (zlen W) ∧
    bview (take_inner t) = zdrop k W ∧ take_limit t = L - k.

Lemma take_at_laws W L : core_laws (B := Take A) take_view (take_at W L).
Proof.
  pose proof take_core_laws as C. constructor.
  - intros t [Ht _]. by apply (cl_remaining _ _ C).
  - intros t [Ht _]. by apply (cl_prefix _ _ C).
  - intros t [Ht _]. by apply (cl_progress _ _ C).
  - intros [a lim] cnt [[Ha Hl] (k & Hk & Hv & Hlim)] Hc. cbn in *.
    unfold take_view in *. cbn in *. subst lim. rewrite Hv in Hc.
    rewrite zlen_take_min, zlen_drop in Hc by lia. pose_zlen.
    unfold take_advance. cbn. rewrite rust_assert_true, bind_ret by (apply Z.leb_le; lia).
    destruct (advance_ok a cnt Ha) as (a' & -> & Ha' & Hv'); [rewrite Hv, zlen_drop by lia; lia|].
    rewrite bind_ret, usub_ok, bind_ret by lia. eexists. split; [done|].
    unfold take_at, take_inv. cbn. rewrite Hv', Hv, zdrop_ztake by lia.
    split; [|done]. split; [split; [done|lia]|]. exists (k + cnt).
    rewrite zdrop_zdrop by lia. split; [lia|]. split; [done|lia].
Qed.

(** Reading out of a [Take] moves the inner buffer by the same number of bytes. *)
Lemma take_at_pos W L n t :
  0 <= n <= Z.min L (zlen W) → take_at W L t → take_view t = zdrop n (ztake L W) →
  bview (take_inner t) = zdrop n W ∧ take_limit t = L - n.
Proof.
  intros Hn [_ (k & Hk & Hv & Hlim)] Ht. enough (k = n) as -> by done.
  apply (f_equal zlen) in Ht. unfold take_view in Ht. rewrite Hv, Hlim in Ht.
  autorewrite with zlen in Ht. lia.
Qed.

#[export] Instance take_laws : BufLaws (Take A).
Proof.
  refine {| bview := take_view; binv := take_inv |}.
  - apply (cl_remaining _ _ take_core_laws).
  - apply (cl_prefix _ _ take_core_laws).
  - apply (cl_progress _ _ take_core_laws).
  - apply (cl_advance _ _ take_core_laws).
  - intros [a lim] cnt (Ha & Hl) Hc. unfold take_view in Hc. cbn in *.
    rewrite zlen_take_min in Hc. pose_zlen. unfold take_advance. cbn.
    destruct (Z.leb_spec cnt lim); cbn; [|by eexists].
    destruct (advance_past a cnt Ha) as [f ->]; [lia|]. by exists f.
  - apply (copy_to_slice_default_ok take_core_laws).
  - apply (copy_to_slice_default_past take_core_laws).
Defined.

End take.

(** ** Vectored reads of the adapters *)
Lemma mjoin_app {A} (l k : list (list A)) : mjoin (l ++ k) = mjoin l ++ mjoin k.
Proof.
  induction l as [|x l IH]; [done|].
  change (x ++ mjoin (l ++ k) = (x ++ mjoin l) ++ mjoin k). by rewrite IH, app_assoc.
Qed.

Lemma ztake_splice_tail {A} (l k : list A) n m :
  0 <= n <= zlen l → 0 <= m → ztake (n + m) (splice l n k) = ztake n l ++ ztake m (k ++ zdrop (n + zlen k) l).
Proof.
  intros. unfold splice. rewrite ztake_app_r by zlia. do 2 f_equal. rewrite zlen_take by lia. lia.
Qed.

Lemma splice_tail_length {A} (l k : list A) n :
  0 <= n <= zlen l → zlen k = zlen l - n → splice l n k = ztake n l ++ k.
Proof.
  intros. unfold splice. rewrite zdrop_ge by lia. by rewrite app_nil_r.
Qed.

Section chain_vectored.
Context `{T : Target} {A B : Type} `{HA : !Buf A, HB : !Buf B}.
Context `{LA : !BufLaws A, LB : !BufLaws B, VA : !VectoredLaws A, VB : !VectoredLaws B}.

#[export] Instance chain_vectored : VectoredLaws (Chain A B).
Proof using LA LB VA VB.
  intros [a b] dst (Ha & Hb & _) Hd. unfold vectored_spec. cbn in *.
  unfold chain_chunks_vectored, chain_view. cbn.
  destruct (chunks_vectored_ok a dst Ha Hd)
    as (n & d1 & -> & Hn & Hl1 & Hr1 & Hp1 & Hne1 & Hz1 & Hc1).
  rewrite bind_ret, slice_range_ok, bind_ret by lia. rewrite ztake_ge by lia.
  assert (Hlen : zlen (zdrop n d1) = zlen dst - n) by zlia.
  destruct (chunks_vectored_ok b (zdrop n d1) Hb) as
    (m & d2 & -> & Hm & Hl2 & Hr2 & Hp2 & Hne2 & Hz2 & Hc2); [lia|].
  rewrite bind_ret, uadd_ok, bind_ret by lia.
  rewrite splice_tail_length by lia.
  exists (n + m), (ztake n d1 ++ d2). split; [done|]. split; [lia|].
  split; [zlia|].
  assert (Hj : mjoin (ztake (n + m) (ztake n d1 ++ d2)) = mjoin (ztake n d1) ++ mjoin (ztake m d2)).
  { rewrite ztake_app_r, mjoin_app by zlia. do 3 f_equal. zlia. }
  rewrite Hj. split.
  { rewrite zdrop_app_r by zlia.
    replace (n + m - zlen (ztake n d1)) with m by zlia.
    rewrite Hr2, Hr1, zdrop_zdrop by lia. done. }
  destruct (decide (n = zlen dst)) as [->|Hn'].
  - assert (m = 0) as -> by lia. rewrite ztake_0. change (mjoin []) with (@nil byte). rewrite app_nil_r.
    split; [by apply prefix_app_r|]. split.
    { intros _ Hdst. destruct (decide (bview a = [])) as [E|]; [|by apply Hne1].
      by apply Hz1, zlen_0_nil in E. }
    split; [intros [E _]%app_eq_nil; apply Hz1 in E; lia|]. lia.
  - rewrite (Hc1 I) in * by lia. split; [by apply prefix_app|]. split.
    { intros Hv Hdst E%app_eq_nil. destruct E as [E1 E2]. rewrite E1 in *.
      apply Hne2 in E2; [done| |]; [done|]. intros E. rewrite E in Hlen. rewrite Hz1 in Hlen by done. zlia. }
    split; [intros [E1 E2]%app_eq_nil; rewrite Hz1, Hz2 by done; lia|].
    intros _ Hlt. by rewrite (Hc2 I) by lia.
Qed.

End chain_vectored.

(** The loop of [Take::chunks_vectored] cuts the concatenation of the slices at
    the limit. *)
Lemma take_vectored_loop_spec dst : ∀ i limit slices,
  0 < limit → zlen dst <= zlen slices →
  ∃ r dst', take_vectored_loop i limit dst slices = (r, dst') ∧
    zlen dst' = zlen dst ∧
    match r with
    | Some j => i < j <= i + zlen dst ∧ zdrop (j - i) dst' = zdrop (j - i) dst ∧
        mjoin (ztake (j - i) dst') = ztake limit (mjoin (ztake (zlen dst) slices)) ∧
        limit <= zlen (mjoin (ztake (zlen dst) slices))
    | None => mjoin dst' = mjoin (ztake (zlen dst) slices) ∧
        zlen (mjoin (ztake (zlen dst) slices)) < limit
    end.
Proof.
  induction dst as [|d dst IH]; intros i limit slices Hlim Hlen.
  - exists None, []. destruct slices; done.
  - destruct slices as [|s slices]; [zlia|]. cbn [take_vectored_loop].
    rewrite zlen_cons, ztake_cons by apply zlen_nonneg.
    change (mjoin (s :: ztake (zlen dst) slices)) with (s ++ mjoin (ztake (zlen dst) slices)).
    destruct (Z.le_gt_cases limit (zlen s)) as [Hs|Hs].
    + rewrite slice_get_ok, zdrop_0 by lia.
      eexists (Some (i + 1)), _. split; [done|]. split; [zlia|].
      replace (i + 1 - i) with (1 + 0) by lia. rewrite !zdrop_cons, ztake_cons, ztake_0 by lia.
      change (mjoin [ztake limit s]) with (ztake limit s ++ []).
      rewrite app_nil_r, ztake_app_l by lia. repeat split; try done; zlia.
    + rewrite slice_get_None by lia.
      destruct (IH (i + 1) (limit - zlen s) slices) as (r & dst' & -> & Hl & Hr); [lia|zlia|].
      exists r, (s :: dst'). split; [done|]. split; [zlia|].
      destruct r as [j|].
      * destruct Hr as (Hj & Hd & Hm & Hlim'). split; [zlia|].
        replace (j - i) with (1 + (j - (i + 1))) by lia.
        rewrite !zdrop_cons, ztake_cons by lia. split; [done|].
        change (mjoin (s :: ztake (j - (i + 1)) dst')) with (s ++ mjoin (ztake (j - (i + 1)) dst')).
        rewrite Hm, ztake_app_r by lia. split; [done|]. zlia.
      * destruct Hr as (Hm & Hlim'). split; [|zlia].
        change (mjoin (s :: dst')) with (s ++ mjoin dst'). by rewrite Hm.
Qed.

Section take_vectored.
Context `{T : Target} {A : Type} `{HA : !Buf A}.
Context `{LA : !BufLaws A, VA : !VectoredLaws A}.

Lemma prefix_ztake_mono (l k : list byte) n : l `prefix_of` k → ztake n l `prefix_of` ztake n k.
Proof.
  intros [r ->]. exists (ztake (n - zlen l) r). destruct (Z.le_gt_cases n (zlen l)).
  - rewrite ztake_app_l by lia. unfold ztake at 3.
    replace (Z.to_nat (n - zlen l)) with 0%nat by lia. by rewrite app_nil_r.
  - by rewrite ztake_app_r, (ztake_ge n l) by lia.
Qed.

(** [Take] only asks its inner buffer for 16 slices at a time, so it is complete
    for at most 16 entries. *)
Lemma take_vectored_ok (t : Take A) dst :
  binv t → zlen dst <= usize_max → vectored_spec (zlen dst <= 16) t dst.
Proof.
  destruct t as [a lim]. intros (Ha & Hl) Hd. unfold vectored_spec. cbn in *.
  unfold take_chunks_vectored, take_view. cbn [take_inner take_limit].
  destruct (Z.eqb_spec lim 0) as [->|Hlim].
  { exists 0, dst. rewrite ztake_0. pose_zlen. repeat split; try done; lia. }
  set (k := Z.min (zlen dst) 16). assert (Hk : 0 <= k <= 16) by (subst k; pose_zlen; lia).
  rewrite slice_range_ok, bind_ret by zlia. rewrite zdrop_0, ztake_replicate by lia.
  destruct (chunks_vectored_ok a (zreplicate k []) Ha) as
    (n & hd & -> & Hn & Hlh & _ & Hp & Hne & Hz & Hc);
    [pose proof usize_max_ge; zlia|].
  rewrite zlen_replicate in * by lia. rewrite bind_ret.
  rewrite slice_range_ok, bind_ret, zdrop_0 by lia.
  assert (Hhd : ztake n (splice (zreplicate 16 []) 0 hd) = ztake n hd).
  { unfold splice. rewrite ztake_0. cbn [app]. by rewrite ztake_app_l by lia. }
  destruct (take_vectored_loop_spec (ztake n dst) 0 lim (splice (zreplicate 16 []) 0 hd))
    as (r & dst' & -> & Hl' & Hr); [lia|rewrite zlen_splice; zlia|].
  rewrite zlen_take in * by lia. rewrite Hhd in Hr.
  assert (Hsp : splice dst 0 dst' = dst' ++ zdrop n dst) by (unfold splice; by rewrite ztake_0, Hl').
  assert (Hin : bview a ≠ [] → dst ≠ [] → mjoin (ztake n hd) ≠ []).
  { intros Hv Hdst. apply Hne; [done|]. intros E. apply (f_equal zlen) in E.
    rewrite zlen_replicate, zlen_nil in E by lia. apply Hdst, zlen_0_nil. pose_zlen. lia. }
  rewrite Hsp. destruct r as [j|]; cbn [default].
  - destruct Hr as (Hj & Hdr & Hm & Hge). rewrite Z.sub_0_r in *.
    exists j, (dst' ++ zdrop n dst). split; [done|]. split; [lia|]. split; [zlia|].
    rewrite zdrop_app_l, Hdr, ztake_app_l by lia. rewrite Hm. split.
    { rewrite zdrop_ztake by lia. rewrite <- (ztake_zdrop (n - j) (zdrop j dst)) at 2.
      rewrite zdrop_zdrop by lia. do 2 f_equal. lia. }
    split; [by apply prefix_ztake_mono|]. split.
    { intros Hv Hdst E. apply (f_equal zlen) in E. rewrite zlen_take, zlen_nil in E by lia. lia. }
    split.
    { intros E. apply zlen_0_nil in E. rewrite zlen_take_min in E.
      apply prefix_zlen in Hp. pose_zlen. lia. }
    intros _ _. destruct Hp as [rest ->]. by rewrite ztake_app_l by lia.
  - destruct Hr as (Hm & Hlt). exists n, (dst' ++ zdrop n dst).
    split; [done|]. split; [lia|]. split; [zlia|].
    rewrite zdrop_app_exact, ztake_app_exact by lia. rewrite Hm. split; [done|].
    split; [|split; [|split]].
    + rewrite <- (ztake_ge lim (mjoin (ztake n hd))) by lia. by apply prefix_ztake_mono.
    + intros Hv Hdst. apply Hin; [|done]. intros E. rewrite E, ztake_nil in Hv. done.
    + intros E. apply Hz. apply zlen_0_nil. apply zlen_0_nil in E. rewrite zlen_take_min in E.
      pose_zlen. lia.
    + intros H16 Hlt'. rewrite (Hc I) in * by lia. by rewrite ztake_ge by lia.
Qed.

End take_vectored.

(** ** IntoIter *)
Record IntoIter (A : Type) := { iter_inner : A }.
Arguments iter_inner {A} _.
Arguments Build_IntoIter {A} _.

Section into_iter.
Context {A : Type} `{HA : !Buf A}.

Definition into_iter_new (inner : A) : IntoIter A := Build_IntoIter inner.

Definition iter_into_inner (self : IntoIter A) : A := iter_inner self.
Definition iter_get_ref (self : IntoIter A) : A := iter_inner self.
Definition iter_get_mut (self : IntoIter A) : borrow (IntoIter A) A :=
  {| borrowed := iter_inner self; give_back := λ a, Build_IntoIter a |}.

Definition next (self : IntoIter A) : outcome (option byte * IntoIter A) :=
  if negb (has_remaining (iter_inner self)) then Ret (None, self)
  else
    b ← index (chunk (iter_inner self)) 0;
    inner ← advance (iter_inner self) 1;
    Ret (Some b, Build_IntoIter inner).

Definition size_hint (self : IntoIter A) : Z * option Z :=
  let rem := remaining (iter_inner self) in (rem, Some rem).

(** A [for] loop over the iterator, in at most [fuel] rounds. *)
Fixpoint drain (fuel : nat) (self : IntoIter A) : outcome (list byte) :=
  match fuel with
  | O => Fault Diverge
  | S fuel =>
    '(o, self) ← next self;
    match o with
    | None => Ret []
    | Some b => rest ← drain fuel self; Ret (b :: rest)
    end
  end.

Context `{LA : !BufLaws A}.

Lemma next_some (it : IntoIter A) x l :
  binv (iter_inner it) → bview (iter_inner it) = x :: l →
  ∃ it', next it = Ret (Some x, it') ∧ binv (iter_inner it') ∧ bview (iter_inner it') = l.
Proof.
  destruct it as [a]. cbn. intros Ha Hv. unfold next, has_remaining. cbn.
  rewrite remaining_view, Hv by done. rewrite (proj2 (Z.ltb_lt _ _)) by zlia. cbn [negb].
  pose proof (chunk_prefix a Ha) as [r Hr]. rewrite Hv in Hr.
  destruct (chunk a) as [|y c] eqn:Ec; [by apply chunk_progress in Ec; [rewrite Ec in Hv|]|].
  injection Hr as -> Hr. rewrite index_0_cons, bind_ret.
  destruct (advance_ok a 1 Ha) as (a' & -> & Ha' & Hv'); [rewrite Hv; zlia|].
  rewrite bind_ret. eexists. split; [done|]. cbn. by rewrite Hv', Hv.
Qed.

Lemma next_none (it : IntoIter A) :
  binv (iter_inner it) → bview (iter_inner it) = [] → next it = Ret (None, it).
Proof. intros Ha Hv. unfold next, has_remaining. by rewrite remaining_view, Hv. Qed.

Lemma drain_view fuel (it : IntoIter A) :
  binv (iter_inner it) → (length (bview (iter_inner it)) < fuel)%nat →
  drain fuel it = Ret (bview (iter_inner it)).
Proof.
  revert it. induction fuel as [|fuel IH]; intros it Ha Hf; [lia|]. cbn [drain].
  destruct (bview (iter_inner it)) as [|x l] eqn:Hv.
  - by rewrite next_none.
  - destruct (next_some it x l Ha Hv) as (it' & -> & Ha' & Hv'). rewrite bind_ret.
    rewrite IH, Hv' by (done || (rewrite Hv'; simpl in Hf; lia)). done.
Qed.

End into_iter.

(** ** Reader *)
Record Reader (A : Type) := { reader_buf : A }.
Arguments reader_buf {A} _.
Arguments Build_Reader {A} _.

Section reader.
Context {A : Type} `{HA : !Buf A}.

Definition reader_new (buf : A) : Reader A := Build_Reader buf.
Definition reader_into_inner (self : Reader A) : A := reader_buf self.
Definition reader_get_ref (self : Reader A) : A := reader_buf self.
Definition reader_get_mut (self : Reader A) : borrow (Reader A) A :=
  {| borrowed := reader_buf self; give_back := λ a, Build_Reader a |}.

(** [io::Read::read]: always [Ok], with the number of bytes read. *)
Definition read (self : Reader A) (dst : list byte) : outcome (Z * (Reader A * list byte)) :=
  let len := Z.min (remaining (reader_buf self)) (zlen dst) in
  front ← slice_range dst 0 len;
  '(buf, front) ← copy_to_slice (reader_buf self) front;
  Ret (len, (Build_Reader buf, splice dst 0 front)).

Definition fill_buf (self : Reader A) : list byte := chunk (reader_buf self).
Definition consume (self : Reader A) (amt : Z) : outcome (Reader A) :=
  buf ← advance (reader_buf self) amt; Ret (Build_Reader buf).

Context `{LA : !BufLaws A}.

Lemma read_ok (r : Reader A) dst :
  binv (reader_buf r) →
  let n := Z.min (zlen (bview (reader_buf r))) (zlen dst) in
  ∃ r', read r dst = Ret (n, (r', ztake n (bview (reader_buf r)) ++ zdrop n dst)) ∧
        binv (reader_buf r') ∧ bview (reader_buf r') = zdrop n (bview (reader_buf r)).
Proof.
  intros Ha n. unfold read. rewrite remaining_view by done. fold n.
  assert (Hn : 0 <= n <= zlen dst ∧ n <= zlen (bview (reader_buf r))) by (subst n; pose_zlen; lia).
  rewrite slice_range_ok, bind_ret, zdrop_0 by lia.
  destruct (copy_to_slice_ok (reader_buf r) (ztake n dst) Ha) as (a' & -> & Ha' & Hv'); [zlia|].
  rewrite bind_ret. rewrite zlen_take in * by lia. exists (Build_Reader a').
  split; [|done]. do 3 f_equal. unfold splice. rewrite ztake_0. cbn [app].
  f_equal. f_equal. zlia.
Qed.

End reader.

(** ** The adapters as methods of [Buf], and [IntoIterator] of [Chain] *)
Definition buf_take {A} (self : A) (limit : Z) : Take A := take_new self limit.
Definition buf_chain {A B} (self : A) (next : B) : Chain A B := chain_new self next.
Definition buf_reader {A} (self : A) : Reader A := reader_new self.
Definition chain_into_iter {A B} (self : Chain A B) : IntoIter (Chain A B) := into_iter_new self.

(** ** Forwarding through [&mut T] and [Box<T>]

    [forward m] is the body of every method of [deref_forward_buf!]: run the method
    of the inner buffer. *)
Record Boxed (A : Type) := { deref : A }.
Arguments deref {A} _.
Arguments Build_Boxed {A} _.

Definition forward {A X} (m : A → outcome (X * A)) (self : Boxed A) : outcome (X * Boxed A) :=
  '(x, a) ← m (deref self); Ret (x, Build_Boxed a).

Section boxed.
Context {A : Type} `{HA : !Buf A}.

#[export] Instance boxed_core : BufCore (Boxed A) := {
  remaining self := remaining (deref self);
  chunk self := chunk (deref self);
  advance self cnt := a ← advance (deref self) cnt; Ret (Build_Boxed a);
}.
#[export] Instance boxed_buf : Buf (Boxed A) := {
  buf_core := boxed_core;
  copy_to_slice self dst :=
    '(a, dst) ← copy_to_slice (deref self) dst; Ret (Build_Boxed a, dst);
  chunks_vectored self dst := chunks_vectored (deref self) dst;
}.

Lemma forward_try_get_impl size conv (self : Boxed A) :
  forward (buf_try_get_impl size conv) self = buf_try_get_impl size conv self.
Proof.
  destruct self as [a]. unfold forward, buf_try_get_impl. cbn.
  case_bool; [done|]. destruct (slice_get (chunk a) 0 size).
  - by destruct (advance a size).
  - by destruct (copy_to_slice a _) as [[]|].
Qed.

Lemma forward_get_impl size conv (self : Boxed A) :
  forward (buf_get_impl size conv) self = buf_get_impl size conv self.
Proof.
  unfold buf_get_impl, unwrap_or_panic_advance. rewrite <- forward_try_get_impl.
  unfold forward. destruct (buf_try_get_impl size conv (deref self)) as [[[]]|]; done.
Qed.

End boxed.

(** The loops and the variable-width macros commute with [forward] too. *)
Section boxed_var.
Context {A : Type} `{HA : !Buf A}.

Definition forward_copy (m : outcome (A * list byte)) : outcome (Boxed A * list byte) :=
  '(a, dst) ← m; Ret (Build_Boxed a, dst).

Lemma forward_copy_loop fuel (a : A) dst :
  copy_loop fuel (Build_Boxed a) dst = forward_copy (copy_loop fuel a dst).
Proof.
  revert a dst. induction fuel as [|fuel IH]; intros a [|x dst]; try done.
  cbn [copy_loop]. cbv zeta. unfold forward_copy.
  change (chunk (Build_Boxed a)) with (chunk a).
  destruct (slice_range (chunk a) _ _); [|done].
  destruct (slice_range (x :: dst) _ _) as [rest|]; [|done].
  rewrite !bind_ret. cbn [advance boxed_buf buf_core boxed_core deref].
  destruct (advance a _) as [a'|]; [|done]. rewrite !bind_ret, IH. unfold forward_copy.
  by destruct (copy_loop fuel a' rest) as [[]|].
Qed.

Lemma forward_try_copy_to_slice (a : A) dst :
  try_copy_to_slice (Build_Boxed a) dst =
  ('(r, (a, dst)) ← try_copy_to_slice a dst; Ret (r, (Build_Boxed a, dst))).
Proof.
  unfold try_copy_to_slice. change (remaining (Build_Boxed a)) with (remaining a).
  case_bool; [done|]. rewrite forward_copy_loop. unfold forward_copy.
  by destruct (copy_loop _ a dst) as [[]|].
Qed.

Lemma forward_try_get_impl_le size conv n (self : Boxed A) :
  buf_try_get_impl_le size conv n self = forward (buf_try_get_impl_le size conv n) self.
Proof.
  destruct self as [a]. unfold forward, buf_try_get_impl_le. cbn [deref].
  destruct (slice_get _ 0 n); [|done]. rewrite forward_try_copy_to_slice.
  by destruct (try_copy_to_slice a _) as [[[] []]|].
Qed.

Lemma forward_try_get_impl_be size conv n (self : Boxed A) :
  buf_try_get_impl_be size conv n self = forward (buf_try_get_impl_be size conv n) self.
Proof.
  destruct self as [a]. unfold forward, buf_try_get_impl_be. cbn [deref].
  destruct (checked_sub size n); [|done]. destruct (slice_range _ _ _); [|done].
  rewrite !bind_ret, forward_try_copy_to_slice.
  by destruct (try_copy_to_slice a _) as [[[] []]|].
Qed.

Lemma forward_unwrap {X} (m : A → outcome (result X TryGetError * A)) (self : Boxed A) :
  unwrap_or_panic_advance (forward m self) = forward (λ a, unwrap_or_panic_advance (m a)) self.
Proof. unfold forward, unwrap_or_panic_advance. by destruct (m (deref self)) as [[[]]|]. Qed.

End boxed_var.
