(* ===== verification/BufForward.v ===== *)
(** * BufForward: [Buf] for [&mut T] and [Box<T>] (src/patches/bytes/src/buf/buf_impl.rs)

    [deref_forward_buf!] writes out every method of the trait, the provided ones too, as a
    call of the same method of the inner buffer.  Here they are one by one, in the macro's
    order, with what each must do on a wrapper: the tables pair it with the number of bytes
    and the conversion its name stands for. *)

From S2P Require Import Prelude Machine Buf BufSpec BufAdapters.
Open Scope Z_scope.

Section forwarded.
Context `{T : Target} {A : Type} `{HA : !Buf A}.

(** ** The methods *)
Definition fwd_has_remaining (self : Boxed A) : bool := has_remaining (deref self).

Definition fwd_get_u8 (self : Boxed A) : outcome (Z * Boxed A) := forward get_u8 self.
Definition fwd_get_i8 (self : Boxed A) : outcome (Z * Boxed A) := forward get_i8 self.
Definition fwd_get_u16 (self : Boxed A) : outcome (Z * Boxed A) := forward get_u16 self.
Definition fwd_get_u16_le (self : Boxed A) : outcome (Z * Boxed A) := forward get_u16_le self.
Definition fwd_get_u16_ne (self : Boxed A) : outcome (Z * Boxed A) := forward get_u16_ne self.
Definition fwd_get_i16 (self : Boxed A) : outcome (Z * Boxed A) := forward get_i16 self.
Definition fwd_get_i16_le (self : Boxed A) : outcome (Z * Boxed A) := forward get_i16_le self.
Definition fwd_get_i16_ne (self : Boxed A) : outcome (Z * Boxed A) := forward get_i16_ne self.
Definition fwd_get_u32 (self : Boxed A) : outcome (Z * Boxed A) := forward get_u32 self.
Definition fwd_get_u32_le (self : Boxed A) : outcome (Z * Boxed A) := forward get_u32_le self.
Definition fwd_get_u32_ne (self : Boxed A) : outcome (Z * Boxed A) := forward get_u32_ne self.
Definition fwd_get_i32 (self : Boxed A) : outcome (Z * Boxed A) := forward get_i32 self.
Definition fwd_get_i32_le (self : Boxed A) : outcome (Z * Boxed A) := forward get_i32_le self.
Definition fwd_get_i32_ne (self : Boxed A) : outcome (Z * Boxed A) := forward get_i32_ne self.
Definition fwd_get_u64 (self : Boxed A) : outcome (Z * Boxed A) := forward get_u64 self.
Definition fwd_get_u64_le (self : Boxed A) : outcome (Z * Boxed A) := forward get_u64_le self.
Definition fwd_get_u64_ne (self : Boxed A) : outcome (Z * Boxed A) := forward get_u64_ne self.
Definition fwd_get_i64 (self : Boxed A) : outcome (Z * Boxed A) := forward get_i64 self.
Definition fwd_get_i64_le (self : Boxed A) : outcome (Z * Boxed A) := forward get_i64_le self.
Definition fwd_get_i64_ne (self : Boxed A) : outcome (Z * Boxed A) := forward get_i64_ne self.
Definition fwd_get_u128 (self : Boxed A) : outcome (Z * Boxed A) := forward get_u128 self.
Definition fwd_get_u128_le (self : Boxed A) : outcome (Z * Boxed A) := forward get_u128_le self.
Definition fwd_get_u128_ne (self : Boxed A) : outcome (Z * Boxed A) := forward get_u128_ne self.
Definition fwd_get_i128 (self : Boxed A) : outcome (Z * Boxed A) := forward get_i128 self.
Definition fwd_get_i128_le (self : Boxed A) : outcome (Z * Boxed A) := forward get_i128_le self.
Definition fwd_get_i128_ne (self : Boxed A) : outcome (Z * Boxed A) := forward get_i128_ne self.
Definition fwd_get_uint (self : Boxed A) (nbytes : Z) : outcome (Z * Boxed A) := forward (λ a, get_uint a nbytes) self.
Definition fwd_get_uint_le (self : Boxed A) (nbytes : Z) : outcome (Z * Boxed A) := forward (λ a, get_uint_le a nbytes) self.
Definition fwd_get_uint_ne (self : Boxed A) (nbytes : Z) : outcome (Z * Boxed A) := forward (λ a, get_uint_ne a nbytes) self.
Definition fwd_get_int (self : Boxed A) (nbytes : Z) : outcome (Z * Boxed A) := forward (λ a, get_int a nbytes) self.
Definition fwd_get_int_le (self : Boxed A) (nbytes : Z) : outcome (Z * Boxed A) := forward (λ a, get_int_le a nbytes) self.
Definition fwd_get_int_ne (self : Boxed A) (nbytes : Z) : outcome (Z * Boxed A) := forward (λ a, get_int_ne a nbytes) self.
Definition fwd_get_f32 (self : Boxed A) : outcome (Z * Boxed A) := forward get_f32 self.
Definition fwd_get_f32_le (self : Boxed A) : outcome (Z * Boxed A) := forward get_f32_le self.
Definition fwd_get_f32_ne (self : Boxed A) : outcome (Z * Boxed A) := forward get_f32_ne self.
Definition fwd_get_f64 (self : Boxed A) : outcome (Z * Boxed A) := forward get_f64 self.
Definition fwd_get_f64_le (self : Boxed A) : outcome (Z * Boxed A) := forward get_f64_le self.
Definition fwd_get_f64_ne (self : Boxed A) : outcome (Z * Boxed A) := forward get_f64_ne self.

Definition fwd_try_copy_to_slice (self : Boxed A) (dst : list byte) : outcome (result unit TryGetError * (Boxed A * list byte)) :=
  '(r, (a, dst)) ← try_copy_to_slice (deref self) dst; Ret (r, (Build_Boxed a, dst)).
Definition fwd_try_get_u8 (self : Boxed A) : outcome (result Z TryGetError * Boxed A) := forward try_get_u8 self.
Definition fwd_try_get_i8 (self : Boxed A) : outcome (result Z TryGetError * Boxed A) := forward try_get_i8 self.
Definition fwd_try_get_u16 (self : Boxed A) : outcome (result Z TryGetError * Boxed A) := forward try_get_u16 self.
Definition fwd_try_get_u16_le (self : Boxed A) : outcome (result Z TryGetError * Boxed A) := forward try_get_u16_le self.
Definition fwd_try_get_u16_ne (self : Boxed A) : outcome (result Z TryGetError * Boxed A) := forward try_get_u16_ne self.
Definition fwd_try_get_i16 (self : Boxed A) : outcome (result Z TryGetError * Boxed A) := forward try_get_i16 self.
Definition fwd_try_get_i16_le (self : Boxed A) : outcome (result Z TryGetError * Boxed A) := forward try_get_i16_le self.
Definition fwd_try_get_i16_ne (self : Boxed A) : outcome (result Z TryGetError * Boxed A) := forward try_get_i16_ne self.
Definition fwd_try_get_u32 (self : Boxed A) : outcome (result Z TryGetError * Boxed A) := forward try_get_u32 self.
Definition fwd_try_get_u32_le (self : Boxed A) : outcome (result Z TryGetError * Boxed A) := forward try_get_u32_le self.
Definition fwd_try_get_u32_ne (self : Boxed A) : outcome (result Z TryGetError * Boxed A) := forward try_get_u32_ne self.
Definition fwd_try_get_i32 (self : Boxed A) : outcome (result Z TryGetError * Boxed A) := forward try_get_i32 self.
Definition fwd_try_get_i32_le (self : Boxed A) : outcome (result Z TryGetError * Boxed A) := forward try_get_i32_le self.
Definition fwd_try_get_i32_ne (self : Boxed A) : outcome (result Z TryGetError * Boxed A) := forward try_get_i32_ne self.
Definition fwd_try_get_u64 (self : Boxed A) : outcome (result Z TryGetError * Boxed A) := forward try_get_u64 self.
Definition fwd_try_get_u64_le (self : Boxed A) : outcome (result Z TryGetError * Boxed A) := forward try_get_u64_le self.
Definition fwd_try_get_u64_ne (self : Boxed A) : outcome (result Z TryGetError * Boxed A) := forward try_get_u64_ne self.
Definition fwd_try_get_i64 (self : Boxed A) : outcome (result Z TryGetError * Boxed A) := forward try_get_i64 self.
Definition fwd_try_get_i64_le (self : Boxed A) : outcome (result Z TryGetError * Boxed A) := forward try_get_i64_le self.
Definition fwd_try_get_i64_ne (self : Boxed A) : outcome (result Z TryGetError * Boxed A) := forward try_get_i64_ne self.
Definition fwd_try_get_u128 (self : Boxed A) : outcome (result Z TryGetError * Boxed A) := forward try_get_u128 self.
Definition fwd_try_get_u128_le (self : Boxed A) : outcome (result Z TryGetError * Boxed A) := forward try_get_u128_le self.
Definition fwd_try_get_u128_ne (self : Boxed A) : outcome (result Z TryGetError * Boxed A) := forward try_get_u128_ne self.
Definition fwd_try_get_i128 (self : Boxed A) : outcome (result Z TryGetError * Boxed A) := forward try_get_i128 self.
Definition fwd_try_get_i128_le (self : Boxed A) : outcome (result Z TryGetError * Boxed A) := forward try_get_i128_le self.
Definition fwd_try_get_i128_ne (self : Boxed A) : outcome (result Z TryGetError * Boxed A) := forward try_get_i128_ne self.
Definition fwd_try_get_uint (self : Boxed A) (nbytes : Z) : outcome (result Z TryGetError * Boxed A) := forward (λ a, try_get_uint a nbytes) self.
Definition fwd_try_get_uint_le (self : Boxed A) (nbytes : Z) : outcome (result Z TryGetError * Boxed A) := forward (λ a, try_get_uint_le a nbytes) self.
Definition fwd_try_get_uint_ne (self : Boxed A) (nbytes : Z) : outcome (result Z TryGetError * Boxed A) := forward (λ a, try_get_uint_ne a nbytes) self.
Definition fwd_try_get_int (self : Boxed A) (nbytes : Z) : outcome (result Z TryGetError * Boxed A) := forward (λ a, try_get_int a nbytes) self.
Definition fwd_try_get_int_le (self : Boxed A) (nbytes : Z) : outcome (result Z TryGetError * Boxed A) := forward (λ a, try_get_int_le a nbytes) self.
Definition fwd_try_get_int_ne (self : Boxed A) (nbytes : Z) : outcome (result Z TryGetError * Boxed A) := forward (λ a, try_get_int_ne a nbytes) self.
Definition fwd_try_get_f32 (self : Boxed A) : outcome (result Z TryGetError * Boxed A) := forward try_get_f32 self.
Definition fwd_try_get_f32_le (self : Boxed A) : outcome (result Z TryGetError * Boxed A) := forward try_get_f32_le self.
Definition fwd_try_get_f32_ne (self : Boxed A) : outcome (result Z TryGetError * Boxed A) := forward try_get_f32_ne self.
Definition fwd_try_get_f64 (self : Boxed A) : outcome (result Z TryGetError * Boxed A) := forward try_get_f64 self.
Definition fwd_try_get_f64_le (self : Boxed A) : outcome (result Z TryGetError * Boxed A) := forward try_get_f64_le self.
Definition fwd_try_get_f64_ne (self : Boxed A) : outcome (result Z TryGetError * Boxed A) := forward try_get_f64_ne self.

(** ** What each must be *)
Definition forwarded_getters : list (getter (Boxed A)) :=
  [ Build_getter 1 u_from_be_bytes fwd_get_u8 fwd_try_get_u8;
    Build_getter 1 i_from_be_bytes fwd_get_i8 fwd_try_get_i8;
    Build_getter 2 u_from_be_bytes fwd_get_u16 fwd_try_get_u16;
    Build_getter 2 u_from_le_bytes fwd_get_u16_le fwd_try_get_u16_le;
    Build_getter 2 u_from_ne_bytes fwd_get_u16_ne fwd_try_get_u16_ne;
    Build_getter 2 i_from_be_bytes fwd_get_i16 fwd_try_get_i16;
    Build_getter 2 i_from_le_bytes fwd_get_i16_le fwd_try_get_i16_le;
    Build_getter 2 i_from_ne_bytes fwd_get_i16_ne fwd_try_get_i16_ne;
    Build_getter 4 u_from_be_bytes fwd_get_u32 fwd_try_get_u32;
    Build_getter 4 u_from_le_bytes fwd_get_u32_le fwd_try_get_u32_le;
    Build_getter 4 u_from_ne_bytes fwd_get_u32_ne fwd_try_get_u32_ne;
    Build_getter 4 i_from_be_bytes fwd_get_i32 fwd_try_get_i32;
    Build_getter 4 i_from_le_bytes fwd_get_i32_le fwd_try_get_i32_le;
    Build_getter 4 i_from_ne_bytes fwd_get_i32_ne fwd_try_get_i32_ne;
    Build_getter 8 u_from_be_bytes fwd_get_u64 fwd_try_get_u64;
    Build_getter 8 u_from_le_bytes fwd_get_u64_le fwd_try_get_u64_le;
    Build_getter 8 u_from_ne_bytes fwd_get_u64_ne fwd_try_get_u64_ne;
    Build_getter 8 i_from_be_bytes fwd_get_i64 fwd_try_get_i64;
    Build_getter 8 i_from_le_bytes fwd_get_i64_le fwd_try_get_i64_le;
    Build_getter 8 i_from_ne_bytes fwd_get_i64_ne fwd_try_get_i64_ne;
    Build_getter 16 u_from_be_bytes fwd_get_u128 fwd_try_get_u128;
    Build_getter 16 u_from_le_bytes fwd_get_u128_le fwd_try_get_u128_le;
    Build_getter 16 u_from_ne_bytes fwd_get_u128_ne fwd_try_get_u128_ne;
    Build_getter 16 i_from_be_bytes fwd_get_i128 fwd_try_get_i128;
    Build_getter 16 i_from_le_bytes fwd_get_i128_le fwd_try_get_i128_le;
    Build_getter 16 i_from_ne_bytes fwd_get_i128_ne fwd_try_get_i128_ne;
    Build_getter 4 u_from_be_bytes fwd_get_f32 fwd_try_get_f32;
    Build_getter 4 u_from_le_bytes fwd_get_f32_le fwd_try_get_f32_le;
    Build_getter 4 u_from_ne_bytes fwd_get_f32_ne fwd_try_get_f32_ne;
    Build_getter 8 u_from_be_bytes fwd_get_f64 fwd_try_get_f64;
    Build_getter 8 u_from_le_bytes fwd_get_f64_le fwd_try_get_f64_le;
    Build_getter 8 u_from_ne_bytes fwd_get_f64_ne fwd_try_get_f64_ne ].

Definition same_getter {B} (g h : getter B) : Prop :=
  g_size g = g_size h ∧ g_conv g = g_conv h ∧
  (∀ b, g_get g b = g_get h b) ∧ (∀ b, g_try g b = g_try h b).

Lemma forward_byte {X} (a : A) (conv : byte → X) :
  (ret ← index (chunk (Build_Boxed a)) 0; self ← advance (Build_Boxed a) 1; Ret (conv ret, self)) =
  ('(x, a) ← (ret ← index (chunk a) 0; self ← advance a 1; Ret (conv ret, self));
   Ret (x, Build_Boxed a)).
Proof.
  cbn. destruct (index _ _); [|done]. rewrite !bind_ret. by destruct (advance a 1).
Qed.

Lemma forwarded_getters_same : Forall2 same_getter forwarded_getters (fixed_getters (B := Boxed A)).
Proof.
  assert (Hb : ∀ conv, (∀ b : Boxed A, forward (λ self, if remaining self <? 1
      then panic_advance {| requested := 1; available := 0 |}
      else ret ← index (chunk self) 0; self ← advance self 1; Ret (conv ret : Z, self)) b =
    if remaining b <? 1 then panic_advance {| requested := 1; available := 0 |}
    else ret ← index (chunk b) 0; self ← advance b 1; Ret (conv ret, self))).
  { intros conv [a]. unfold forward. rewrite forward_byte. cbn [deref].
    change (remaining (Build_Boxed a)) with (remaining a). by case_bool. }
  assert (Ht : ∀ conv, (∀ b : Boxed A, forward (λ self, if remaining self <? 1
      then Ret (Err {| requested := 1; available := remaining self |}, self)
      else ret ← index (chunk self) 0; self ← advance self 1; Ret (Ok (conv ret : Z), self)) b =
    if remaining b <? 1 then Ret (Err {| requested := 1; available := remaining b |}, b)
    else ret ← index (chunk b) 0; self ← advance b 1; Ret (Ok (conv ret), self))).
  { intros conv [a]. unfold forward. rewrite (forward_byte a (λ x, Ok (conv x))). cbn [deref].
    change (remaining (Build_Boxed a)) with (remaining a). by case_bool. }
  unfold forwarded_getters, fixed_getters, int_getters, float_getters. cbn [app].
  constructor; [repeat split; [apply (Hb u8_to_Z)|apply (Ht u8_to_Z)]|].
  constructor; [repeat split; [apply (Hb (λ x, wrap_signed 8 (u8_to_Z x)))
                              |apply (Ht (λ x, wrap_signed 8 (u8_to_Z x)))]|].
  repeat (constructor; [repeat split; [apply forward_get_impl|apply forward_try_get_impl]|]).
  constructor.
Qed.

Lemma forwarded_sign_extend nbytes (m : A → outcome (Z * A)) (self : Boxed A) :
  forward (λ a, '(val, a) ← m a; ret ← sign_extend val nbytes; Ret (ret, a)) self =
  ('(val, self) ← forward m self; ret ← sign_extend val nbytes; Ret (ret, self)).
Proof.
  unfold forward. destruct (m (deref self)) as [[]|]; [|done]. rewrite !bind_ret.
  by destruct (sign_extend _ _).
Qed.

Lemma forwarded_uint_same (self : Boxed A) n :
  forward (λ a, get_uint a n) self = get_uint self n ∧
  forward (λ a, get_uint_le a n) self = get_uint_le self n.
Proof.
  unfold get_uint, get_uint_le, buf_get_impl_be, buf_get_impl_le.
  by rewrite forward_try_get_impl_be, forward_try_get_impl_le, !forward_unwrap.
Qed.

Lemma forwarded_var_same (self : Boxed A) n :
  fwd_get_uint self n = get_uint self n ∧
  fwd_get_uint_le self n = get_uint_le self n ∧
  fwd_get_uint_ne self n = get_uint_ne self n ∧
  fwd_get_int self n = get_int self n ∧
  fwd_get_int_le self n = get_int_le self n ∧
  fwd_get_int_ne self n = get_int_ne self n.
Proof.
  destruct (forwarded_uint_same self n) as [E1 E2]. unfold fwd_get_uint, fwd_get_uint_le, fwd_get_uint_ne, fwd_get_int, fwd_get_int_le,
    fwd_get_int_ne, get_uint_ne, get_int_ne, get_int, get_int_le.
  rewrite !forwarded_sign_extend, E1, E2. destruct target_endian_big; rewrite ?forwarded_sign_extend, ?E1, ?E2; done.
Qed.

Lemma forwarded_try_var_same (self : Boxed A) n :
  fwd_try_get_uint self n = try_get_uint self n ∧
  fwd_try_get_uint_le self n = try_get_uint_le self n ∧
  fwd_try_get_uint_ne self n = try_get_uint_ne self n ∧
  fwd_try_get_int self n = try_get_int self n ∧
  fwd_try_get_int_le self n = try_get_int_le self n ∧
  fwd_try_get_int_ne self n = try_get_int_ne self n.
Proof.
  unfold fwd_try_get_uint, fwd_try_get_uint_le, fwd_try_get_uint_ne, fwd_try_get_int, fwd_try_get_int_le, fwd_try_get_int_ne,
    try_get_uint_ne, try_get_int_ne, try_get_uint, try_get_uint_le, try_get_int, try_get_int_le.
  destruct target_endian_big; by rewrite !forward_try_get_impl_be, !forward_try_get_impl_le.
Qed.
End forwarded.

(** ** A wrapper of a lawful buffer is one *)
Section boxed_laws.
Context {A : Type} `{HA : !Buf A, LA : !BufLaws A}.

#[export] Instance boxed_laws : BufLaws (Boxed A).
Proof.
  refine {| bview := λ self : Boxed A, bview (deref self); binv := λ self : Boxed A, binv (deref self) |}; intros [a].
  - exact (remaining_view a).
  - exact (chunk_prefix a).
  - exact (chunk_progress a).
  - intros cnt Hb Hc. destruct (advance_ok a cnt Hb Hc) as (a' & E & H). exists (Build_Boxed a'). split; [|done]. cbn. by rewrite E.
  - intros cnt Hb Hc. destruct (advance_past a cnt Hb Hc) as (f & E). exists f. cbn. by rewrite E.
  - intros dst Hb Hd. destruct (copy_to_slice_ok a dst Hb Hd) as (a' & E & H). exists (Build_Boxed a'). split; [|done]. cbn. by rewrite E.
  - intros dst Hb Hd. cbn. cbn in Hd. by rewrite (copy_to_slice_past a dst Hb Hd).
Defined.
End boxed_laws.

(** What agrees with a correct getter is one. *)
Lemma same_getter_ok {B} `{!Buf B, !BufLaws B} (g g' : getter B) : same_getter g g' → getter_ok g' → getter_ok g.
Proof.
  intros (Es & Ec & Eg & Et) Hok b Hb. rewrite Es, Ec, Eg, Et. by apply Hok.
Qed.
