(* ===== verification/BufProps.v ===== *)
(** * BufProps: the properties of the reading half of the crate

    Statements on [Buf] and its implementations, each a short consequence of the
    lemmas of Buf.v, BufSpec.v, BufSources.v and BufAdapters.v. *)

From S2P Require Import Prelude Machine Buf BufSpec BufSources BufAdapters BufForward.

(** C12: every fixed-width getter, of any lawful buffer.  With enough bytes left,
    [get_*] and [try_get_*] decode exactly the front of the buffer in the byte order
    of their name and consume it, whether the bytes are contiguous or not; with too
    few, [get_*] panics and [try_get_*] returns the two sizes and moves nothing. *)
Theorem getters_decode_the_front `{T : Target} (B : Type) `{HB : !Buf B, HL : !BufLaws B} :
  Forall getter_ok (fixed_getters (B := B)).
Proof. apply fixed_getters_ok. Qed.

(** C13: [try_copy_to_slice] and [copy_to_slice] of any lawful buffer.  The loop
    ends, fills [dst] with the next [dst.len()] bytes and consumes them; when fewer
    remain it reports the sizes and changes neither the buffer nor [dst]. *)
Theorem copy_to_slice_correct {B : Type} `{HB : !Buf B, HL : !BufLaws B} (b : B) dst :
  binv b →
  (zlen dst <= zlen (bview b) →
     ∃ b1 b2, try_copy_to_slice b dst = Ret (Ok tt, (b1, ztake (zlen dst) (bview b))) ∧
              copy_to_slice b dst = Ret (b2, ztake (zlen dst) (bview b)) ∧
              binv b1 ∧ binv b2 ∧ bview b1 = zdrop (zlen dst) (bview b) ∧ bview b2 = bview b1) ∧
  (zlen (bview b) < zlen dst →
     try_copy_to_slice b dst =
       Ret (Err {| requested := zlen dst; available := zlen (bview b) |}, (b, dst)) ∧
     copy_to_slice b dst = Fault (PanicAdvance (zlen dst) (zlen (bview b)))).
Proof.
  intros Hb. split.
  - intros Hle. destruct (try_copy_to_slice_ok b dst Hb Hle) as (b1 & -> & ? & Hv1).
    destruct (copy_to_slice_ok b dst Hb Hle) as (b2 & -> & ? & Hv2).
    exists b1, b2. by rewrite Hv2.
  - intros Hlt. split; [by apply try_copy_to_slice_past | by apply copy_to_slice_past].
Qed.

Lemma copy_to_slice_correct_witness :
  let d := {| slice1 := [x01; x02]; slice2 := [x03] |} in
  (∃ b1 b2, try_copy_to_slice d [x00; x00; x00] = Ret (Ok tt, (b1, [x01; x02; x03])) ∧
            copy_to_slice d [x00; x00; x00] = Ret (b2, [x01; x02; x03]) ∧ bview b1 = [] ∧ bview b2 = []) ∧
  try_copy_to_slice d [x00; x00; x00; x00] =
    Ret (Err {| requested := 4; available := 3 |}, (d, [x00; x00; x00; x00])).
Proof.
  intros d. split.
  - destruct (copy_to_slice_correct d [x00; x00; x00]) as [H _]; [discriminate|].
    destruct (H ltac:(discriminate)) as (b1 & b2 & E1 & E2 & _ & _ & V1 & V2). exists b1, b2.
    rewrite V2, V1. by split.
  - destruct (copy_to_slice_correct d [x00; x00; x00; x00]) as [_ H]; [discriminate|]. by apply H.
Defined.

(** [try_get_int] does not sign-extend: when the number read is negative and shorter than 8
    bytes it returns it plus [2^(8 * nbytes)], the unsigned reading. *)
Lemma try_get_int_not_sign_extended `{T : Target} {B : Type} `{HB : !Buf B, HL : !BufLaws B}
    (b : B) n :
  binv b → 1 <= n < 8 → n <= zlen (bview b) →
  i_from_be_bytes (ztake n (bview b)) < 0 →
  reads (try_get_int b n) b n (Ok (i_from_be_bytes (ztake n (bview b)) + 2 ^ (8 * n))).
Proof.
  intros Hb Hn Hle Hneg. set (bs := ztake n (bview b)) in *.
  assert (Hl : zlen bs = n) by (apply zlen_take; lia).
  assert (Hu : u_from_be_bytes bs = i_from_be_bytes bs + 2 ^ (8 * n)).
  { pose proof (u_from_be_range bs) as Hr. unfold is_unsigned in Hr.
    unfold i_from_be_bytes in *. rewrite Hl in *. unfold wrap_signed in *.
    pose proof (pow2_split (8 * n) ltac:(lia)).
    destruct (Z.lt_ge_cases (u_from_be_bytes bs) (2 ^ (8 * n - 1))).
    - rewrite Z.mod_small in Hneg by lia. lia.
    - rewrite <- (Z.mod_unique (u_from_be_bytes bs + 2 ^ (8 * n - 1)) (2 ^ (8 * n)) 1
        (u_from_be_bytes bs - 2 ^ (8 * n - 1))) by lia. lia. }
  rewrite <- Hu. apply try_get_int_ok; [done|lia|done].
Qed.

(** C14: [get_uint] and [get_int] read an [nbytes]-byte integer.  For [nbytes] up to
    8 they decode the front, zero- or sign-extended; above 8 they panic with the
    size; and [get_int(0)] panics in the sign extension, whose shift is 64.
    [try_get_int] does not sign-extend: when the number read is negative and shorter than
    8 bytes it returns it plus [2^(8 * nbytes)], the unsigned reading. *)
Theorem get_uint_int_correct `{T : Target} {B : Type} `{HB : !Buf B, HL : !BufLaws B} (b : B) n :
  binv b → 0 <= n →
  (n <= 8 → n <= zlen (bview b) →
     reads (get_uint b n) b n (u_from_be_bytes (ztake n (bview b))) ∧
     reads (get_uint_le b n) b n (u_from_le_bytes (ztake n (bview b)))) ∧
  (1 <= n <= 8 → n <= zlen (bview b) →
     reads (get_int b n) b n (i_from_be_bytes (ztake n (bview b))) ∧
     reads (get_int_le b n) b n (i_from_le_bytes (ztake n (bview b)))) ∧
  (8 < n → get_uint b n = Fault (PanicDoesNotFit 8 n) ∧ get_int b n = Fault (PanicDoesNotFit 8 n)) ∧
  (n = 0 → get_int b n = Fault PanicOverflow) ∧
  (1 <= n < 8 → n <= zlen (bview b) → i_from_be_bytes (ztake n (bview b)) < 0 →
     reads (try_get_int b n) b n (Ok (i_from_be_bytes (ztake n (bview b)) + 2 ^ (8 * n)))).
Proof.
  intros Hb Hn. split; [|split; [|split; [|split]]].
  - intros ? ?. by apply get_uint_ok.
  - intros ? ?. by apply get_int_ok.
  - intros H8. unfold get_int, get_uint, buf_get_impl_be.
    by rewrite buf_try_get_impl_be_nofit.
  - intros ->. destruct (get_uint_ok 0 b Hb) as [(b' & E & _) _]; [lia|apply zlen_nonneg|].
    unfold get_int. by rewrite E, bind_ret, sign_extend_0.
  - by apply try_get_int_not_sign_extended.
Qed.

Lemma get_uint_int_correct_witness :
  reads (get_int (T := riscv64) [xff; xfe; x07] 2) [xff; xfe; x07] 2 (-2) ∧
  reads (try_get_int [xff; xfe; x07] 2) [xff; xfe; x07] 2 (Ok 65534).
Proof.
  destruct (get_uint_int_correct (T := riscv64) [xff; xfe; x07] 2) as (_ & H & _ & _ & Ht); [done|done|].
  split; [by apply H|]. vm_compute in Ht. vm_compute. by apply Ht.
Defined.

(** C16: a chain is the concatenation of its parts and [take] a prefix of its
    inner buffer.  Copying [n] bytes out of [a.chain(b)] crosses the boundary
    transparently, and copying [n] bytes out of [a.take(limit)] leaves the inner
    buffer exactly [n] bytes further, with [limit - n] left.  Replacing a part through
    [first_mut], [last_mut] or [get_mut] replaces its bytes and nothing else. *)
Theorem chain_take_correct `{T : Target} {A B : Type}
    `{HA : !Buf A, HB : !Buf B, LA : !BufLaws A, LB : !BufLaws B} (a : A) (b : B) limit dst :
  binv a → binv b → zlen (bview a) + zlen (bview b) <= usize_max → 0 <= limit <= usize_max →
  (zlen dst <= zlen (bview a) + zlen (bview b) →
     ∃ c, copy_to_slice (buf_chain a b) dst = Ret (c, ztake (zlen dst) (bview a ++ bview b)) ∧
          bview c = zdrop (zlen dst) (bview a ++ bview b)) ∧
  (zlen dst <= Z.min limit (zlen (bview a)) →
     ∃ t, copy_to_slice (buf_take a limit) dst = Ret (t, ztake (zlen dst) (bview a)) ∧
          bview (take_into_inner t) = zdrop (zlen dst) (bview a) ∧
          take_remaining t = Z.min limit (zlen (bview a)) - zlen dst) ∧
  (∀ a' b', binv a' → binv b' →
     bview (give_back (first_mut (buf_chain a b)) a') = bview a' ++ bview (last_ref (buf_chain a b)) ∧
     bview (give_back (last_mut (buf_chain a b)) b') = bview (first_ref (buf_chain a b)) ++ bview b' ∧
     take_view (give_back (take_get_mut (buf_take a limit)) a') = ztake limit (bview a') ∧
     take_remaining (give_back (take_get_mut (buf_take a limit)) a') = Z.min limit (zlen (bview a'))).
Proof.
  intros Ha Hb Hs Hl. split; [|split].
  - intros Hd. destruct (copy_to_slice_ok (chain_new a b) dst) as (c & Hc & _ & Hv).
    { split; [done|]. split; [done|]. cbn. unfold chain_view. cbn. zlia. }
    { cbn. unfold chain_view. cbn. zlia. }
    by exists c.
  - intros Hd. pose_zlen.
    destruct (copy_to_slice_default_ok (take_at_laws (bview a) limit) (take_new a limit) dst)
      as (t & Hc & Ht & Hv).
    { split; [by split|]. exists 0. split; [lia|]. split; [done|]. cbn. lia. }
    { unfold take_view. cbn. zlia. }
    unfold take_view in Hc, Hv at 2. cbn [take_inner take_limit take_new] in Hc, Hv.
    apply take_at_pos in Hv as [Hv Hlim]; [|lia|done].
    exists t. split; [|split; [done|]].
    + change (copy_to_slice (buf_take a limit) dst)
        with (copy_to_slice_default (take_new a limit) dst).
      rewrite Hc, ztake_ztake, Z.min_l by lia. done.
    + destruct Ht as [[Hti _] _]. unfold take_remaining. rewrite remaining_view, Hv, Hlim by done. zlia.
  - intros a' b' Ha' _. split; [done|]. split; [done|]. split; [done|]. unfold take_remaining. cbn.
    rewrite remaining_view by done. apply Z.min_comm.
Qed.

Lemma chain_take_correct_witness :
  ∃ t, copy_to_slice (buf_take [x01; x02; x03; x04] 3) [x00; x00]
         = Ret (t, [x01; x02]) ∧
       bview (take_into_inner t) = [x03; x04] ∧ take_remaining t = 1.
Proof.
  destruct (chain_take_correct (T := riscv64) [x01; x02; x03; x04] [x05] 3 [x00; x00])
    as (_ & H & _); [done|done|done|done|]. apply H. done.
Defined.

Section take_cap.
#[local] Existing Instance riscv64.

(** Seventeen one-byte chunks: sixteen of [0x01] and a last one of [0x02]. *)
Definition chain17 : Chain _ (list byte) :=
  let c1 := [x01] in
  let c2 := chain_new c1 c1 in
  let c4 := chain_new c2 c2 in
  let c8 := chain_new c4 c4 in
  let c16 := chain_new c8 c8 in
  chain_new c16 [x02].

(** The 16-entry cap of [Take::chunks_vectored] makes a chain that starts with
    a [Take] skip data.  Over [chain17.take(17).chain([0x03])], a vectored read into
    18 entries reports 17 slices whose concatenation is not a prefix of the buffer's
    contents: the byte [0x02] is missing between the [0x01]s and [0x03]. *)
Definition skips_a_byte : Prop :=
  let b := chain_new (take_new chain17 17) [x03] in
  ∃ dst', chain_chunks_vectored b (replicate 18 []) = Ret (17, dst') ∧
    mjoin (ztake 17 dst') = replicate 16 x01 ++ [x03] ∧
    chain_view b = replicate 16 x01 ++ [x02; x03] ∧
    chain_inv b.

Lemma take_cap_skips_bytes : skips_a_byte.
Proof.
  unfold skips_a_byte. cbv zeta. eexists. split; [vm_compute; reflexivity|]. split; [vm_compute; reflexivity|].
  split; [vm_compute; reflexivity|]. vm_compute. intuition discriminate.
Qed.

End take_cap.

(** C17: vectored reads of the adapters.  [a.chain(b).chunks_vectored(dst)] hands out
    consecutive slices of the chained contents and leaves a [dst] entry unused only
    when it has handed out everything; [a.take(limit)] does the same for the first
    [limit] bytes, except that with more than 16 entries it may stop early.  That makes a
    chain that starts with such a [Take] skip data: over [chain17.take(17).chain([0x03])], a
    vectored read into 18 entries reports 17 slices whose concatenation is not a prefix of
    the contents, since the byte [0x02] is missing. *)
Theorem chunks_vectored_correct `{T : Target} {A B : Type}
    `{HA : !Buf A, HB : !Buf B, LA : !BufLaws A, LB : !BufLaws B}
    `{VA : !VectoredLaws A, VB : !VectoredLaws B} (a : A) (b : B) limit dst :
  binv a → binv b → zlen (bview a) + zlen (bview b) <= usize_max → 0 <= limit <= usize_max →
  zlen dst <= usize_max →
  vectored_spec True (chain_new a b) dst ∧ vectored_spec (zlen dst <= 16) (take_new a limit) dst ∧
  skips_a_byte.
Proof.
  intros Ha Hb Hs Hl Hd. split; [|split; [|exact take_cap_skips_bytes]].
  - apply chunks_vectored_ok; [|done]. split; [done|]. split; [done|]. cbn. unfold chain_view. cbn. zlia.
  - by apply take_vectored_ok.
Qed.

Lemma chunks_vectored_correct_witness :
  vectored_spec (BufLaws0 := chain_laws (T := riscv64)) True (chain_new [x01; x02] [x03]) [[]; []; []].
Proof.
  refine (proj1 (chunks_vectored_correct (T := riscv64) [x01; x02] [x03] 1 [[]; []; []] _ _ _ _ _));
    done.
Defined.

(** C19: iterating a buffer yields exactly the bytes it holds, in order, and stops;
    [size_hint] is exact, so [ExactSizeIterator] is sound.  [Reader::read] copies as many
    bytes as both sides allow to the front of [dst], keeps the rest of [dst], consumes
    exactly those bytes and never fails.  A chain iterates over both its parts, and an
    iterator whose buffer is replaced through [get_mut] goes on with the new one. *)
Theorem into_iter_correct `{T : Target} {A B : Type} `{HA : !Buf A, LA : !BufLaws A} `{HB : !Buf B, LB : !BufLaws B}
    (a : A) (b : B) dst :
  binv a → binv b → zlen (bview a) + zlen (bview b) <= usize_max →
  drain (S (length (bview a))) (into_iter_new a) = Ret (bview a) ∧
  size_hint (into_iter_new a) = (zlen (bview a), Some (zlen (bview a))) ∧
  let n := Z.min (zlen (bview a)) (zlen dst) in
  (∃ r', read (buf_reader a) dst = Ret (n, (r', ztake n (bview a) ++ zdrop n dst)) ∧
        binv (reader_get_ref r') ∧ bview (reader_into_inner r') = zdrop n (bview a)) ∧
  drain (S (length (bview a ++ bview b))) (chain_into_iter (buf_chain a b)) = Ret (bview a ++ bview b) ∧
  (∀ it : IntoIter A, drain (S (length (bview a))) (give_back (iter_get_mut it) a) = Ret (bview a)) ∧
  (∀ r : Reader A, fill_buf (give_back (reader_get_mut r) a) = chunk a).
Proof.
  intros Ha Hb Hs. split; [apply drain_view; [done|cbn; lia]|]. split; [unfold size_hint; cbn; by rewrite remaining_view|].
  split; [by apply (read_ok (reader_new a))|]. split; [|split; [intros it; apply drain_view; [done|cbn; lia]|done]].
  change (bview a ++ bview b) with (bview (iter_inner (chain_into_iter (buf_chain a b)))). apply drain_view; [|cbn; lia].
  split; [done|]. split; [done|]. unfold chain_view. cbn. by rewrite zlen_app.
Qed.

Lemma into_iter_correct_witness :
  drain (HA := cursor_buf (T := riscv64)) 4 (into_iter_new {| get_ref := [x01; x02; x03; x04]; position := 1 |})
  = Ret [x02; x03; x04] ∧
  ∃ r', read (HA := cursor_buf (T := riscv64)) (buf_reader {| get_ref := [x01; x02; x03]; position := 1 |}) [x09; x09; x09]
    = Ret (2, (r', [x02; x03; x09])) ∧ bview (BufLaws := cursor_laws (T := riscv64)) (reader_into_inner r') = [].
Proof.
  destruct (into_iter_correct (T := riscv64) (LA := cursor_laws (T := riscv64)) (B := list byte)
    {| get_ref := [x01; x02; x03; x04]; position := 1 |} [x05] []) as (H & _); [vm_compute; intuition discriminate..|].
  destruct (into_iter_correct (T := riscv64) (LA := cursor_laws (T := riscv64)) (B := list byte)
    {| get_ref := [x01; x02; x03]; position := 1 |} [x05] [x09; x09; x09]) as (_ & _ & (r' & E & _ & V) & _);
    [vm_compute; intuition discriminate..|].
  split; [exact H|]. exists r'. split; [exact E|exact V].
Defined.

(** C20: the forwarding implementations for [&mut T] and [Box<T>].  Every fixed-width getter
    that [deref_forward_buf!] writes out, on a wrapper of any lawful buffer, decodes the front
    of the inner buffer with the width, the sign and the byte order of its name and consumes
    it there, or reports the sizes and moves nothing.  On any buffer it returns and leaves
    behind what the trait's own definition of it does on the wrapper, and so do the
    variable-width getters, [has_remaining] and [try_copy_to_slice]. *)
Theorem deref_forward_correct `{T : Target} {A : Type} `{HA : !Buf A} :
  (∀ LA : BufLaws A, Forall getter_ok (forwarded_getters (A := A))) ∧
  Forall2 same_getter (forwarded_getters (A := A)) fixed_getters ∧
  (∀ (self : Boxed A) n,
     fwd_get_uint self n = get_uint self n ∧ fwd_try_get_uint self n = try_get_uint self n ∧
     fwd_get_uint_le self n = get_uint_le self n ∧ fwd_try_get_uint_le self n = try_get_uint_le self n ∧
     fwd_get_uint_ne self n = get_uint_ne self n ∧ fwd_try_get_uint_ne self n = try_get_uint_ne self n ∧
     fwd_get_int self n = get_int self n ∧ fwd_try_get_int self n = try_get_int self n ∧
     fwd_get_int_le self n = get_int_le self n ∧ fwd_try_get_int_le self n = try_get_int_le self n ∧
     fwd_get_int_ne self n = get_int_ne self n ∧ fwd_try_get_int_ne self n = try_get_int_ne self n) ∧
  (∀ (self : Boxed A) dst,
     fwd_has_remaining self = has_remaining self ∧ fwd_try_copy_to_slice self dst = try_copy_to_slice self dst).
Proof.
  split; [|split; [apply forwarded_getters_same|split]].
  - intros LA. pose proof (forwarded_getters_same (A := A)) as Hs. pose proof (fixed_getters_ok (B := Boxed A)) as Hok.
    revert Hok. induction Hs as [|g g' gs gs' Hg _ IH]; intros Hok; [constructor|].
    apply Forall_cons in Hok as [H1 H2]. constructor; [by apply (same_getter_ok g g')|by apply IH].
  - intros self n. destruct (forwarded_var_same self n) as (H1 & H2 & H3 & H4 & H5 & H6).
    destruct (forwarded_try_var_same self n) as (K1 & K2 & K3 & K4 & K5 & K6). by repeat split.
  - intros [a] dst. split; [done|]. unfold fwd_try_copy_to_slice. by rewrite forward_try_copy_to_slice.
Qed.
