(* ===== verification/BufMut.v ===== *)
(** * BufMut: the writing trait (src/patches/bytes/src/buf/buf_mut.rs)

    [UninitSlice] (uninit_slice.rs) is a list of bytes that may be uninitialised.
    [chunk_mut] hands out a mutable borrow of part of the sink: it returns the
    slice and the function that gives the state of the sink once the borrow ends
    with new contents.  [BufMutCore] holds the required methods, [BufMut] the
    provided methods that implementations override, and the definitions of this
    file are the other provided methods.

    [BufMutLaws] is the contract as an interface: [mwrite m bs m'] says that [m']
    is [m] with [bs] written at its cursor, and [mroom m] is how many bytes [m] is
    sure to accept. *)

From S2P Require Import Prelude Machine Buf.

(** ** UninitSlice *)
Definition uninit_slice : Type := list (option byte).

(** [UninitSlice::new]: initialised bytes seen as possibly uninitialised ones. *)
Definition uninit_new (slice : list byte) : uninit_slice := Some <$> slice.

Definition write_byte (self : uninit_slice) (index : Z) (b : byte) : outcome uninit_slice :=
  _ ← rust_assert (index <? zlen self);
  _ ← slice_range self index (zlen self);
  Ret (splice self index [Some b]).

Definition uninit_copy_from_slice (self : uninit_slice) (src : list byte) : outcome uninit_slice :=
  _ ← rust_assert (zlen self =? zlen src);
  Ret (Some <$> src).

(** [core::ptr::write_bytes(p, val, n)] on the [zlen self] bytes at [p]. *)
Definition ptr_write_bytes (self : uninit_slice) (val : byte) (n : Z) : outcome uninit_slice :=
  if n <=? zlen self then Ret (splice self 0 (zreplicate n (Some val)))
  else Fault UndefinedBehaviour.

(** [core::ptr::copy_nonoverlapping(src, p, src.len())] on the bytes at [p]. *)
Definition ptr_copy_from (self : uninit_slice) (src : list byte) : outcome uninit_slice :=
  if zlen src <=? zlen self then Ret (splice self 0 (Some <$> src))
  else Fault UndefinedBehaviour.

(** ** The required methods *)
Class BufMutCore (M : Type) := {
  remaining_mut : M → Z;
  chunk_mut : M → outcome (uninit_slice * (uninit_slice → M));
  advance_mut : M → Z → outcome M;
}.

(** ** The provided methods *)
Section provided.
Context {M : Type} `{!BufMutCore M}.
Implicit Types (self : M).

Definition has_remaining_mut self : bool := 0 <? remaining_mut self.

(** [let d = self.chunk_mut(); d[..cnt].copy_from_slice(&s[..cnt]);
    self.advance_mut(cnt)] with [cnt] the smaller of the two lengths. *)
Definition fill_chunk self (s : list byte) : outcome (Z * M) :=
  '(d, back) ← chunk_mut self;
  let cnt := Z.min (zlen s) (zlen d) in
  front ← slice_range d 0 cnt;
  part ← slice_range s 0 cnt;
  front ← uninit_copy_from_slice front part;
  self ← advance_mut (back (splice d 0 front)) cnt;
  Ret (cnt, self).

Fixpoint put_loop {B} `{!Buf B} (fuel : nat) self (src : B) : outcome (M * B) :=
  if has_remaining src then
    match fuel with
    | O => Fault Diverge
    | S fuel =>
      '(cnt, self) ← fill_chunk self (chunk src);
      src ← advance src cnt;
      put_loop fuel self src
    end
  else Ret (self, src).

Definition put_default {B} `{!Buf B} self (src : B) : outcome (M * B) :=
  if remaining_mut self <? remaining src
  then panic_advance {| requested := remaining src; available := remaining_mut self |}
  else put_loop (Z.to_nat (remaining src)) self src.

Fixpoint put_slice_loop (fuel : nat) self (src : list byte) : outcome M :=
  if is_empty src then Ret self
  else
    match fuel with
    | O => Fault Diverge
    | S fuel =>
      '(cnt, self) ← fill_chunk self src;
      src ← slice_range src cnt (zlen src);
      put_slice_loop fuel self src
    end.

Definition put_slice_default self (src : list byte) : outcome M :=
  if remaining_mut self <? zlen src
  then panic_advance {| requested := zlen src; available := remaining_mut self |}
  else put_slice_loop (length src) self src.

Fixpoint put_bytes_loop (fuel : nat) self (val : byte) (cnt : Z) : outcome M :=
  if 0 <? cnt then
    match fuel with
    | O => Fault Diverge
    | S fuel =>
      '(dst, back) ← chunk_mut self;
      let dst_len := Z.min (zlen dst) cnt in
      dst ← ptr_write_bytes dst val dst_len;
      self ← advance_mut (back dst) dst_len;
      put_bytes_loop fuel self val (cnt - dst_len)
    end
  else Ret self.

Definition put_bytes_default self (val : byte) (cnt : Z) : outcome M :=
  if remaining_mut self <? cnt
  then panic_advance {| requested := cnt; available := remaining_mut self |}
  else put_bytes_loop (Z.to_nat cnt) self val cnt.

End provided.

(** [put] by value leaves the exhausted source behind, which is how
    [put(&mut src)] reads. *)
Class BufMut (M : Type) := {
  #[global] bufmut_core :: BufMutCore M;
  put : ∀ {B} `{!Buf B}, M → B → outcome (M * B);
  put_slice : M → list byte → outcome M;
  put_bytes : M → byte → Z → outcome M;
}.

Section putters.
Context `{T : Target} {M : Type} `{HM : !BufMut M}.
Implicit Types (self : M) (n : Z).

Definition put_u8 self n : outcome M := put_slice self [u8_of_Z n].
Definition put_i8 self n : outcome M := put_slice self [u8_of_Z n].
Definition put_u16 self n : outcome M := put_slice self (to_be_bytes 2 n).
Definition put_u16_le self n : outcome M := put_slice self (to_le_bytes 2 n).
Definition put_u16_ne self n : outcome M := put_slice self (to_ne_bytes 2 n).
Definition put_i16 self n : outcome M := put_slice self (to_be_bytes 2 n).
Definition put_i16_le self n : outcome M := put_slice self (to_le_bytes 2 n).
Definition put_i16_ne self n : outcome M := put_slice self (to_ne_bytes 2 n).
Definition put_u32 self n : outcome M := put_slice self (to_be_bytes 4 n).
Definition put_u32_le self n : outcome M := put_slice self (to_le_bytes 4 n).
Definition put_u32_ne self n : outcome M := put_slice self (to_ne_bytes 4 n).
Definition put_i32 self n : outcome M := put_slice self (to_be_bytes 4 n).
Definition put_i32_le self n : outcome M := put_slice self (to_le_bytes 4 n).
Definition put_i32_ne self n : outcome M := put_slice self (to_ne_bytes 4 n).
Definition put_u64 self n : outcome M := put_slice self (to_be_bytes 8 n).
Definition put_u64_le self n : outcome M := put_slice self (to_le_bytes 8 n).
Definition put_u64_ne self n : outcome M := put_slice self (to_ne_bytes 8 n).
Definition put_i64 self n : outcome M := put_slice self (to_be_bytes 8 n).
Definition put_i64_le self n : outcome M := put_slice self (to_le_bytes 8 n).
Definition put_i64_ne self n : outcome M := put_slice self (to_ne_bytes 8 n).
Definition put_u128 self n : outcome M := put_slice self (to_be_bytes 16 n).
Definition put_u128_le self n : outcome M := put_slice self (to_le_bytes 16 n).
Definition put_u128_ne self n : outcome M := put_slice self (to_ne_bytes 16 n).
Definition put_i128 self n : outcome M := put_slice self (to_be_bytes 16 n).
Definition put_i128_le self n : outcome M := put_slice self (to_le_bytes 16 n).
Definition put_i128_ne self n : outcome M := put_slice self (to_ne_bytes 16 n).

(** [panic_does_not_fit(nbytes, mem::size_of_val(&n))]: the code passes the two
    sizes in this order. *)
Definition put_uint self n (nbytes : Z) : outcome M :=
  match checked_sub 8 nbytes with
  | None => panic_does_not_fit nbytes 8
  | Some start =>
    slice ← slice_range (to_be_bytes 8 n) start 8;
    put_slice self slice
  end.
Definition put_uint_le self n (nbytes : Z) : outcome M :=
  let slice := to_le_bytes 8 n in
  match slice_get slice 0 nbytes with
  | None => panic_does_not_fit nbytes (zlen slice)
  | Some slice => put_slice self slice
  end.
Definition put_uint_ne self n (nbytes : Z) : outcome M :=
  if target_endian_big then put_uint self n nbytes else put_uint_le self n nbytes.
Definition put_int self n (nbytes : Z) : outcome M :=
  match checked_sub 8 nbytes with
  | None => panic_does_not_fit nbytes 8
  | Some start =>
    slice ← slice_range (to_be_bytes 8 n) start 8;
    put_slice self slice
  end.
Definition put_int_le self n (nbytes : Z) : outcome M :=
  let slice := to_le_bytes 8 n in
  match slice_get slice 0 nbytes with
  | None => panic_does_not_fit nbytes (zlen slice)
  | Some slice => put_slice self slice
  end.
Definition put_int_ne self n (nbytes : Z) : outcome M :=
  if target_endian_big then put_int self n nbytes else put_int_le self n nbytes.

(** A float is its bit pattern, [n.to_bits()]. *)
Definition put_f32 self n : outcome M := put_u32 self n.
Definition put_f32_le self n : outcome M := put_u32_le self n.
Definition put_f32_ne self n : outcome M := put_u32_ne self n.
Definition put_f64 self n : outcome M := put_u64 self n.
Definition put_f64_le self n : outcome M := put_u64_le self n.
Definition put_f64_ne self n : outcome M := put_u64_ne self n.

End putters.

(** ** The contract of the trait *)

(** What a writing method does to a sink: it returns a state with [bs] written. *)
Definition wrote {M} (inv : M → Prop) (write : M → list byte → M → Prop) (room : M → Z)
    (m : M) (bs : list byte) (m' : M) : Prop :=
  inv m' ∧ write m bs m' ∧ room m - zlen bs <= room m'.

Record mcore_laws {M} `{!BufMutCore M} (inv : M → Prop) (write : M → list byte → M → Prop)
    (room : M → Z) : Prop := {
  ml_room m : inv m → 0 <= room m <= remaining_mut m;
  ml_write_nil m : inv m → write m [] m;
  ml_write_app m bs m1 cs m2 : inv m → inv m1 →
    write m bs m1 → write m1 cs m2 → write m (bs ++ cs) m2;
  ml_write_bound m bs m1 : inv m → write m bs m1 → zlen bs <= remaining_mut m;
  ml_write_remaining m bs m1 : inv m → write m bs m1 → remaining_mut m1 = remaining_mut m - zlen bs;
  ml_chunk m : inv m → 0 < room m →
    ∃ d back, chunk_mut m = Ret (d, back) ∧ 0 < zlen d ∧
      ∀ bs, zlen bs <= zlen d →
        let m1 := back ((Some <$> bs) ++ zdrop (zlen bs) d) in
        remaining_mut m1 = remaining_mut m ∧
        ∃ m', advance_mut m1 (zlen bs) = Ret m' ∧ wrote inv write room m bs m';
}.

Section default_put.
Context {M : Type} `{!BufMutCore M}.
Context {inv : M → Prop} {write : M → list byte → M → Prop} {room : M → Z}.
Context (L : mcore_laws inv write room).

Lemma wrote_nil m : inv m → wrote inv write room m [] m.
Proof using L. intros. split; [done|]. split; [by eapply ml_write_nil|zlia]. Qed.

Lemma wrote_app m bs m1 cs m2 :
  inv m → wrote inv write room m bs m1 → wrote inv write room m1 cs m2 →
  wrote inv write room m (bs ++ cs) m2.
Proof using L.
  intros Hm (? & ? & ?) (? & ? & ?). split; [done|].
  split; [by apply (ml_write_app _ _ _ L m bs m1)|]. zlia.
Qed.

(** One round writes a nonempty prefix of the data. *)
Lemma fill_chunk_ok m s :
  inv m → s ≠ [] → 0 < room m →
  ∃ cnt m', fill_chunk m s = Ret (cnt, m') ∧ 0 < cnt <= zlen s ∧
            wrote inv write room m (ztake cnt s) m'.
Proof using L.
  intros Hm Hs Hr. unfold fill_chunk.
  destruct (ml_chunk _ _ _ L m Hm Hr) as (d & back & -> & Hd & Hadv). rewrite bind_ret. cbv zeta.
  set (cnt := Z.min (zlen s) (zlen d)).
  assert (0 < zlen s) by (destruct s; [done|zlia]).
  assert (Hc : 0 < cnt <= zlen s ∧ cnt <= zlen d) by (subst cnt; lia).
  rewrite (slice_range_ok d 0), bind_ret, (slice_range_ok s 0), bind_ret, !zdrop_0 by lia.
  unfold uninit_copy_from_slice. rewrite rust_assert_true, bind_ret by (apply Z.eqb_eq; zlia).
  mret. destruct (Hadv (ztake cnt s)) as (_ & m' & Ha & Hw); [zlia|].
  exists cnt, m'. unfold splice. rewrite ztake_0. cbn [app].
  rewrite zlen_fmap. rewrite zlen_take in * by lia. rewrite Z.add_0_l, Ha. split; [done|].
  split; [lia|done].
Qed.

Lemma put_slice_loop_ok fuel m src :
  inv m → (length src <= fuel)%nat → zlen src <= room m →
  ∃ m', put_slice_loop fuel m src = Ret m' ∧ wrote inv write room m src m'.
Proof using L.
  revert m src. induction fuel as [|fuel IH]; intros m src Hm Hf Hr.
  - destruct src; [|simpl in Hf; lia]. exists m. split; [done|by apply wrote_nil].
  - destruct src as [|x src]; [exists m; split; [done|by apply wrote_nil]|].
    set (s := x :: src) in *. assert (0 < zlen s) by (subst s; zlia).
    change (put_slice_loop (S fuel) m s) with
      ('(cnt, self) ← fill_chunk m s; rest ← slice_range s cnt (zlen s); put_slice_loop fuel self rest).
    destruct (fill_chunk_ok m s Hm) as (cnt & m1 & -> & Hc & Hw1); [done|lia|].
    rewrite bind_ret, slice_range_ok, bind_ret, ztake_ge by lia.
    pose proof Hw1 as (Hm1 & _ & Hr1). rewrite zlen_take in Hr1 by lia.
    destruct (IH m1 (zdrop cnt s) Hm1) as (m2 & -> & Hw2).
    { pose proof (zlen_drop cnt s). unfold zlen in *. lia. }
    { rewrite zlen_drop by lia. lia. }
    exists m2. split; [done|]. rewrite <- (ztake_zdrop cnt s). by eapply wrote_app.
Qed.

Lemma put_slice_default_ok m src :
  inv m → zlen src <= room m →
  ∃ m', put_slice_default m src = Ret m' ∧ wrote inv write room m src m'.
Proof using L.
  intros Hm Hr. unfold put_slice_default. pose proof (ml_room _ _ _ L m Hm).
  rewrite (proj2 (Z.ltb_ge _ _)) by lia. by apply put_slice_loop_ok.
Qed.

Lemma put_bytes_loop_ok fuel m val cnt :
  inv m → 0 <= cnt <= room m → (Z.to_nat cnt <= fuel)%nat →
  ∃ m', put_bytes_loop fuel m val cnt = Ret m' ∧ wrote inv write room m (zreplicate cnt val) m'.
Proof using L.
  revert m cnt. induction fuel as [|fuel IH]; intros m cnt Hm Hr Hf.
  - assert (cnt = 0) as -> by lia. exists m. split; [done|by apply wrote_nil].
  - cbn [put_bytes_loop]. destruct (Z.ltb_spec 0 cnt) as [Hc|Hc].
    2: { assert (cnt = 0) as -> by lia. exists m. split; [done|by apply wrote_nil]. }
    destruct (ml_chunk _ _ _ L m Hm) as (d & back & -> & Hd & Hadv); [lia|]. rewrite bind_ret. cbv zeta.
    set (k := Z.min (zlen d) cnt). assert (Hk : 0 < k <= cnt ∧ k <= zlen d) by (subst k; lia).
    unfold ptr_write_bytes. rewrite (proj2 (Z.leb_le _ _)), bind_ret by lia.
    destruct (Hadv (zreplicate k val)) as (_ & m1 & Ha & Hw1); [zlia|].
    unfold splice. rewrite ztake_0, !zlen_replicate, Z.add_0_l in * by lia. cbn [app].
    unfold zreplicate in Ha at 1. rewrite fmap_replicate in Ha. fold (zreplicate k (Some val)) in Ha.
    rewrite Ha, bind_ret. pose proof Hw1 as (Hm1 & _ & Hr1). rewrite zlen_replicate in Hr1 by lia.
    destruct (IH m1 (cnt - k) Hm1) as (m2 & -> & Hw2); [lia|lia|].
    exists m2. split; [done|].
    replace (zreplicate cnt val) with (zreplicate k val ++ zreplicate (cnt - k) val).
    { by eapply wrote_app. }
    unfold zreplicate. rewrite <- replicate_add. f_equal. lia.
Qed.

Lemma put_bytes_default_ok m val cnt :
  inv m → 0 <= cnt <= room m →
  ∃ m', put_bytes_default m val cnt = Ret m' ∧ wrote inv write room m (zreplicate cnt val) m'.
Proof using L.
  intros Hm Hr. unfold put_bytes_default. pose proof (ml_room _ _ _ L m Hm).
  rewrite (proj2 (Z.ltb_ge _ _)) by lia. by apply put_bytes_loop_ok.
Qed.

Lemma put_loop_ok {B} `{!Buf B, !BufLaws B} fuel m (src : B) :
  inv m → binv src → (length (bview src) <= fuel)%nat → zlen (bview src) <= room m →
  ∃ m' src', put_loop fuel m src = Ret (m', src') ∧ wrote inv write room m (bview src) m' ∧
             binv src' ∧ bview src' = [].
Proof using L.
  revert m src. induction fuel as [|fuel IH]; intros m src Hm Hb Hf Hr.
  - destruct (bview src) as [|] eqn:E; [|simpl in Hf; lia]. exists m, src.
    cbn. unfold has_remaining. rewrite remaining_view, E by done.
    split; [done|]. split; [by apply wrote_nil|done].
  - cbn [put_loop]. unfold has_remaining. rewrite remaining_view by done.
    destruct (Z.ltb_spec 0 (zlen (bview src))) as [Hpos|Hpos].
    2: { assert (E : bview src = []) by (apply zlen_0_nil; pose_zlen; lia).
         exists m, src. rewrite E. split; [done|]. split; [by apply wrote_nil|done]. }
    assert (Hne : bview src ≠ []) by (intros E; rewrite E in Hpos; zlia).
    pose proof (core_chunk_len buf_core_laws src Hb Hne) as [Hc1 Hc2].
    destruct (fill_chunk_ok m (chunk src) Hm) as (cnt & m1 & -> & Hc & Hw1);
      [intros E; rewrite E in Hc1; zlia|lia|].
    rewrite bind_ret. destruct (advance_ok src cnt Hb) as (src1 & -> & Hb1 & Hv1); [lia|].
    rewrite bind_ret. pose proof Hw1 as (Hm1 & _ & Hr1). rewrite zlen_take in Hr1 by lia.
    destruct (IH m1 src1 Hm1 Hb1) as (m2 & src2 & -> & Hw2 & Hb2 & Hv2).
    { rewrite Hv1. pose proof (zlen_drop cnt (bview src)). unfold zlen in *. lia. }
    { rewrite Hv1, zlen_drop by lia. lia. }
    exists m2, src2. split; [done|]. split; [|done].
    rewrite <- (ztake_zdrop cnt (bview src)), <- Hv1.
    rewrite <- (prefix_ztake_l cnt (chunk src) (bview src)) by (lia || by apply chunk_prefix).
    by eapply wrote_app.
Qed.

Lemma put_default_ok {B} `{!Buf B, !BufLaws B} m (src : B) :
  inv m → binv src → zlen (bview src) <= room m →
  ∃ m' src', put_default m src = Ret (m', src') ∧ wrote inv write room m (bview src) m' ∧
             binv src' ∧ bview src' = [].
Proof using L.
  intros Hm Hb Hr. unfold put_default. pose proof (ml_room _ _ _ L m Hm).
  rewrite remaining_view, (proj2 (Z.ltb_ge _ _)) by (done || lia).
  apply put_loop_ok; [done|done|unfold zlen; lia|done].
Qed.

End default_put.

(** The contract: room, writes, and the three bulk methods.  [put_slice] and
    [put_bytes] fail when even [remaining_mut] is too small. *)
Class BufMutLaws (M : Type) `{HM : !BufMut M} := {
  minv : M → Prop;
  mwrite : M → list byte → M → Prop;
  mroom : M → Z;
  mcore : mcore_laws minv mwrite mroom;
  put_slice_ok m src : minv m → zlen src <= mroom m →
    ∃ m', put_slice m src = Ret m' ∧ wrote minv mwrite mroom m src m';
  put_slice_past m src : minv m → remaining_mut m < zlen src → ∃ f, put_slice m src = Fault f;
  put_bytes_ok m val cnt : minv m → 0 <= cnt <= mroom m →
    ∃ m', put_bytes m val cnt = Ret m' ∧ wrote minv mwrite mroom m (zreplicate cnt val) m';
  put_bytes_past m val cnt : minv m → remaining_mut m < cnt → ∃ f, put_bytes m val cnt = Fault f;
  put_ok {B} `{!Buf B, !BufLaws B} m (src : B) : minv m → binv src → zlen (bview src) <= mroom m →
    ∃ m' src', put m src = Ret (m', src') ∧ wrote minv mwrite mroom m (bview src) m' ∧
               binv src' ∧ bview src' = [];
}.

Abbreviation mwrote := (wrote minv mwrite mroom).

(** The three bulk methods when an implementation keeps the defaults. *)
Definition default_bufmut {M} (core : BufMutCore M) : BufMut M :=
  {| bufmut_core := core; put := λ B H, put_default; put_slice := put_slice_default;
     put_bytes := put_bytes_default |}.

Lemma default_past {M} `{!BufMutCore M} (m : M) (src : list byte) val cnt :
  (remaining_mut m < zlen src → ∃ f, put_slice_default m src = Fault f) ∧
  (remaining_mut m < cnt → ∃ f, put_bytes_default m val cnt = Fault f).
Proof.
  unfold put_slice_default, put_bytes_default.
  split; intros H; rewrite (proj2 (Z.ltb_lt _ _)) by done; by eexists.
Qed.

Definition default_bufmut_laws {M} (core : BufMutCore M) (inv : M → Prop)
    (write : M → list byte → M → Prop) (room : M → Z) (L : mcore_laws inv write room) :
  BufMutLaws (HM := default_bufmut core) M.
Proof.
  refine (@Build_BufMutLaws M (default_bufmut core) inv write room L _ _ _ _ _).
  - apply (put_slice_default_ok L).
  - intros m src _. apply (default_past m src Byte.x00 0).
  - apply (put_bytes_default_ok L).
  - intros m val cnt _. apply (default_past m [] val cnt).
  - intros B HB HL. apply (put_default_ok L).
Defined.
