(* ===== verification/Uninit.v ===== *)
(** * Uninit: indexing possibly uninitialised memory (src/patches/bytes/src/buf/uninit_slice.rs)

    [UninitSlice] can be indexed by the six range types of the standard library, for
    reading and for writing.  A mutable index is the part of the slice it borrows and the
    slice once the borrow ends with new contents. *)

From S2P Require Import Prelude Machine Buf BufMut.
Open Scope Z_scope.

(** The range types of [core::ops].  [RangeInclusive] knows whether it was iterated to its
    end. *)
Inductive range :=
| Range (start end_ : Z)
| RangeFrom (start : Z)
| RangeFull
| RangeInclusive (start end_ : Z) (exhausted : bool)
| RangeTo (end_ : Z)
| RangeToInclusive (end_ : Z).

Section uninit.
Context `{T : Target}.
Implicit Types (self : uninit_slice) (r : range).

(** [SliceIndex::index] of the standard library, which panics where the range does not fit:
    an inclusive range first becomes an exclusive one, unless its end is [usize::MAX]. *)
Definition inclusive_end (e : Z) : outcome Z := if e =? usize_max then Fault PanicIndex else uadd e 1.
Definition resolve (len : Z) r : outcome (Z * Z) :=
  match r with
  | Range s e => Ret (s, e)
  | RangeFrom s => Ret (s, len)
  | RangeFull => Ret (0, len)
  | RangeInclusive s e exhausted => e ← inclusive_end e; Ret (if exhausted then e else s, e)
  | RangeTo e => Ret (0, e)
  | RangeToInclusive e => e ← inclusive_end e; Ret (0, e)
  end.

(** [UninitSlice::uninit], [uninit_ref] and [as_uninit_slice_mut]: casts of a borrow. *)
Definition uninit (slice : list (option byte)) : uninit_slice := slice.
Definition uninit_ref (slice : list (option byte)) : uninit_slice := slice.
Definition as_uninit_slice_mut self : borrow uninit_slice (list (option byte)) :=
  {| borrowed := self; give_back := λ s, s |}.
Definition uninit_len self : Z := zlen self.

Definition uninit_index self r : outcome uninit_slice :=
  '(s, e) ← resolve (zlen self) r;
  part ← slice_range self s e;
  Ret (uninit_ref part).
Definition uninit_index_mut self r : outcome (borrow uninit_slice uninit_slice) :=
  '(s, e) ← resolve (zlen self) r;
  part ← slice_range self s e;
  Ret {| borrowed := uninit part; give_back := λ part, splice self s part |}.

(** ** What a range selects *)
Definition range_start r : Z :=
  match r with
  | Range s _ | RangeFrom s | RangeInclusive s _ false => s
  | RangeInclusive _ e true => e + 1
  | RangeFull | RangeTo _ | RangeToInclusive _ => 0
  end.
Definition range_end (len : Z) r : Z :=
  match r with
  | Range _ e | RangeTo e => e
  | RangeFrom _ | RangeFull => len
  | RangeInclusive _ e _ | RangeToInclusive e => e + 1
  end.
Definition range_usize r : Prop :=
  match r with
  | Range s e | RangeInclusive s e _ => is_usize s ∧ is_usize e
  | RangeFrom s => is_usize s
  | RangeFull => True
  | RangeTo e | RangeToInclusive e => is_usize e
  end.

Lemma range_start_nonneg r : range_usize r → 0 <= range_start r.
Proof. intros Hr. destruct r as [| | |? ? []| |]; cbn [range_usize range_start] in *; unfold is_usize in *; lia. Qed.

Lemma resolve_ok len r : range_usize r → len < usize_max →
  resolve len r = Ret (range_start r, range_end len r) ∨ resolve len r = Fault PanicIndex ∧ len < range_end len r.
Proof.
  intros Hr Hl. destruct r; cbn in *; try by left.
  all: unfold inclusive_end; destruct (Z.eqb_spec end_ usize_max) as [->|Hne]; [right; split; [done|lia]|left].
  all: unfold is_usize in Hr; rewrite uadd_ok by lia; try done; by destruct exhausted.
Qed.

Lemma slice_range_split {X} (l : list X) s e : 0 <= s → s <= e → e <= zlen l →
  slice_range l s e = Ret (zdrop s (ztake e l)) ∧ l = ztake s l ++ zdrop s (ztake e l) ++ zdrop e l.
Proof.
  intros H0 H1 H2. unfold slice_range. rewrite !(proj2 (Z.leb_le _ _)) by lia. split; [done|].
  rewrite app_assoc. rewrite <- (ztake_zdrop e l) at 1. f_equal. rewrite <- (ztake_zdrop s (ztake e l)) at 1. f_equal.
  rewrite ztake_ztake. by rewrite Z.min_l.
Qed.

(** What indexing and borrowing by [r] return. *)
Definition index_spec self r : Prop :=
  let s := range_start r in
  let e := range_end (zlen self) r in
  (s <= e <= zlen self →
     ∃ pre part post b, self = pre ++ part ++ post ∧ zlen pre = s ∧ zlen part = e - s ∧
       uninit_index self r = Ret part ∧ uninit_index_mut self r = Ret b ∧ borrowed b = part ∧
       ∀ new, zlen new = zlen part → give_back b new = pre ++ new ++ post ∧ uninit_index (give_back b new) r = Ret new) ∧
  (¬ (s <= e <= zlen self) → uninit_index self r = Fault PanicIndex ∧ uninit_index_mut self r = Fault PanicIndex).

Lemma index_ok self r : range_usize r → zlen self < usize_max → index_spec self r.
Proof.
  intros Hr Hl. pose proof (range_start_nonneg r Hr) as H0. destruct (resolve_ok (zlen self) r Hr Hl) as [E|[E Hgt]].
  - split; cbv zeta.
    + intros [H1 H2]. destruct (slice_range_split self _ _ H0 H1 H2) as [Es Hself].
      eexists _, _, _, _. split; [exact Hself|]. split; [rewrite zlen_take; lia|]. split; [rewrite zlen_drop, zlen_take; rewrite ?zlen_take; lia|].
      unfold uninit_index, uninit_index_mut. rewrite E. cbn [mbind outcome_bind]. rewrite Es. cbn [mbind outcome_bind borrowed give_back].
      split; [done|]. split; [done|]. split; [done|]. intros new Hnew.
      rewrite zlen_drop, zlen_take in Hnew by (rewrite ?zlen_take; lia). cbn [give_back]. unfold splice.
      replace (range_start r + zlen new) with (range_end (zlen self) r) by lia. split; [done|].
      set (self' := ztake _ _ ++ _). assert (zlen self' = zlen self) as Hz by (unfold self'; rewrite !zlen_app, zlen_take, zlen_drop; lia).
      rewrite Hz, E. cbn [mbind outcome_bind]. rewrite (proj1 (slice_range_split self' _ _ H0 H1 ltac:(lia))). cbn. f_equal.
      unfold self'. rewrite app_assoc, ztake_app_exact by (rewrite zlen_app, zlen_take; lia).
      by rewrite zdrop_app_exact by (rewrite zlen_take; lia).
    + intros Hn. unfold uninit_index, uninit_index_mut. rewrite E. cbn [mbind outcome_bind]. unfold slice_range.
      destruct (Z.leb_spec (range_start r) (range_end (zlen self) r)), (Z.leb_spec (range_end (zlen self) r) (zlen self));
        [lia|..]; by rewrite ?andb_false_r.
  - split; cbv zeta; [lia|]. intros _. unfold uninit_index, uninit_index_mut. by rewrite E.
Qed.

Lemma write_byte_ok self i (v : byte) : 0 <= i →
  (i < zlen self → ∃ pre old post, self = pre ++ old :: post ∧ zlen pre = i ∧ write_byte self i v = Ret (pre ++ Some v :: post)) ∧
  (zlen self <= i → write_byte self i v = Fault PanicAssert).
Proof.
  intros H0. unfold write_byte. split; intros H.
  - rewrite (proj2 (Z.ltb_lt i (zlen self))) by done. cbn [rust_assert mbind outcome_bind].
    destruct (slice_range_split self i (zlen self)) as [-> _]; [lia..|]. cbn [mbind outcome_bind].
    pose proof (ztake_zdrop i self) as Hs. destruct (zdrop i self) as [|old post] eqn:Ed.
    { apply (f_equal zlen) in Ed. rewrite zlen_drop, zlen_nil in Ed; lia. }
    exists (ztake i self), old, post. split; [done|]. split; [rewrite zlen_take; lia|]. unfold splice. rewrite zlen_cons, zlen_nil.
    assert (zdrop (i + (1 + 0)) self = post) as ->; [|done].
    replace (i + (1 + 0)) with (1 + i) by lia. rewrite <- Hs at 1. rewrite zdrop_app_r by (rewrite zlen_take; lia).
    rewrite zlen_take by lia. by replace (1 + i - i) with (1 + 0) by lia.
  - by rewrite (proj2 (Z.ltb_ge i (zlen self))).
Qed.
End uninit.

(** C25: possibly uninitialised slices.  Indexing by any of the six kinds of range gives the
    part of the slice between its bounds, and a panic, never an overflow or an access out of
    bounds, when they do not fit; writing through a mutable index replaces exactly that part.
    [write_byte] sets one byte or panics past the end; [copy_from_slice] fills a slice of the
    same length with initialised bytes and panics for any other. *)
Theorem uninit_slice_correct `{T : Target} (self : uninit_slice) :
  zlen self <= isize_max →
  (∀ r, range_usize r → index_spec self r) ∧
  (∀ i v, 0 <= i →
     (i < zlen self → ∃ pre old post, self = pre ++ old :: post ∧ zlen pre = i ∧ write_byte self i v = Ret (pre ++ Some v :: post)) ∧
     (zlen self <= i → write_byte self i v = Fault PanicAssert)) ∧
  (∀ src, uninit_copy_from_slice self src = if zlen self =? zlen src then Ret (uninit_new src) else Fault PanicAssert).
Proof.
  intros Hl. pose proof usize_isize_max. pose proof usize_max_ge. split; [|split].
  - intros r Hr. apply index_ok; [done|lia].
  - intros i v. apply write_byte_ok.
  - intros src. unfold uninit_copy_from_slice, rust_assert. by destruct (zlen self =? zlen src).
Qed.

Lemma uninit_slice_correct_witness :
  index_spec (T := riscv64) [Some x01; None; Some x03] (RangeInclusive 1 2 false) ∧
  uninit_index (T := riscv64) [Some x01; None; Some x03] (RangeInclusive 1 2 false) = Ret [None; Some x03].
Proof.
  split; [|reflexivity].
  apply (uninit_slice_correct (T := riscv64) [Some x01; None; Some x03]); [vm_compute; discriminate|].
  cbn. unfold is_usize. vm_compute. intuition discriminate.
Defined.
