(* ===== verification/BufMutSinks.v ===== *)
(** * BufMutSinks: the [BufMut] implementations that hold memory

    [&mut [u8]], [&mut [MaybeUninit<u8>]] and [Vec<u8>], from
    src/patches/bytes/src/buf/buf_mut.rs, each with its proof of [BufMutLaws]. *)

From S2P Require Import Prelude Machine Buf BufMut.

(** ** [&mut [u8]] and [&mut [MaybeUninit<u8>]]

    The value is a borrow of an array; [sm_done] is the part of the array already
    passed and [sm_rest] the slice itself. *)
Inductive elem := U8 | MaybeUninit.
Record SliceMut (e : elem) := { sm_done : uninit_slice; sm_rest : uninit_slice }.
Arguments sm_done {e} _.
Arguments sm_rest {e} _.
Arguments Build_SliceMut {e} _ _.

(** The copy of [put_slice]: [self[..src.len()].copy_from_slice(src)] on [u8], a raw
    copy on [MaybeUninit<u8>]. *)
Definition sm_fill (e : elem) (rest : uninit_slice) (src : list byte) : outcome uninit_slice :=
  match e with
  | U8 =>
    front ← slice_range rest 0 (zlen src);
    front ← uninit_copy_from_slice front src;
    Ret (splice rest 0 front)
  | MaybeUninit => ptr_copy_from rest src
  end.

Lemma sm_fill_ok e rest src :
  zlen src <= zlen rest → sm_fill e rest src = Ret ((Some <$> src) ++ zdrop (zlen src) rest).
Proof.
  intros Hle. assert (Hs : splice rest 0 (Some <$> src) = (Some <$> src) ++ zdrop (zlen src) rest).
  { unfold splice. by rewrite ztake_0, zlen_fmap, Z.add_0_l. }
  destruct e; cbn [sm_fill].
  - rewrite slice_range_ok, bind_ret by zlia. unfold uninit_copy_from_slice.
    rewrite rust_assert_true by (apply Z.eqb_eq; zlia). mret. by rewrite Hs.
  - unfold ptr_copy_from. by rewrite (proj2 (Z.leb_le _ _)), Hs by lia.
Qed.

Section slice_mut.
Context {e : elem}.
Implicit Types (self : SliceMut e).

Definition sm_remaining_mut self : Z := zlen (sm_rest self).

Definition sm_chunk_mut self : outcome (uninit_slice * (uninit_slice → SliceMut e)) :=
  Ret (sm_rest self, λ s, Build_SliceMut (sm_done self) s).

Definition sm_advance_mut self (cnt : Z) : outcome (SliceMut e) :=
  if zlen (sm_rest self) <? cnt
  then panic_advance {| requested := cnt; available := zlen (sm_rest self) |}
  else Ret (Build_SliceMut (sm_done self ++ ztake cnt (sm_rest self)) (zdrop cnt (sm_rest self))).

Definition sm_put_slice self (src : list byte) : outcome (SliceMut e) :=
  if zlen (sm_rest self) <? zlen src
  then panic_advance {| requested := zlen src; available := zlen (sm_rest self) |}
  else
    rest ← sm_fill e (sm_rest self) src;
    sm_advance_mut (Build_SliceMut (sm_done self) rest) (zlen src).

Definition sm_put_bytes self (val : byte) (cnt : Z) : outcome (SliceMut e) :=
  if zlen (sm_rest self) <? cnt
  then panic_advance {| requested := cnt; available := zlen (sm_rest self) |}
  else
    rest ← ptr_write_bytes (sm_rest self) val cnt;
    sm_advance_mut (Build_SliceMut (sm_done self) rest) cnt.

#[export] Instance slice_mut_core : BufMutCore (SliceMut e) :=
  { remaining_mut := sm_remaining_mut; chunk_mut := sm_chunk_mut; advance_mut := sm_advance_mut }.
#[export] Instance slice_mut_bufmut : BufMut (SliceMut e) :=
  { bufmut_core := slice_mut_core; put B H := put_default;
    put_slice := sm_put_slice; put_bytes := sm_put_bytes }.

Definition sm_inv self : Prop := True.
Definition sm_write self (bs : list byte) (self' : SliceMut e) : Prop :=
  zlen bs <= zlen (sm_rest self) ∧
  sm_done self' = sm_done self ++ (Some <$> bs) ∧
  sm_rest self' = zdrop (zlen bs) (sm_rest self).

Lemma sm_advance_written m (bs : list byte) :
  zlen bs <= zlen (sm_rest m) →
  ∃ m', sm_advance_mut
          (Build_SliceMut (sm_done m) ((Some <$> bs) ++ zdrop (zlen bs) (sm_rest m))) (zlen bs) = Ret m' ∧
        wrote sm_inv sm_write sm_remaining_mut m bs m'.
Proof.
  intros Hle. unfold sm_advance_mut. cbn. rewrite (proj2 (Z.ltb_ge _ _)) by zlia.
  eexists. split; [done|]. unfold wrote, sm_write, sm_remaining_mut. cbn.
  rewrite ztake_app_exact, zdrop_app_exact by (by rewrite zlen_fmap).
  repeat split; try done. zlia.
Qed.

Lemma slice_mut_laws_core : mcore_laws (M := SliceMut e) sm_inv sm_write sm_remaining_mut.
Proof.
  constructor.
  - intros m _. cbn. unfold sm_remaining_mut. zlia.
  - intros m _. unfold sm_write. split; [zlia|]. cbn. by rewrite app_nil_r.
  - unfold sm_write. intros m bs m1 cs m2 _ _ (H1 & H2 & H3) (H4 & H5 & H6).
    rewrite H3 in *. rewrite zlen_drop in H4 by zlia. rewrite fmap_app, zlen_app, app_assoc.
    split; [lia|]. split; [by rewrite H5, H2|]. rewrite H6, zdrop_zdrop; [done|zlia..].
  - by intros m bs m1 _ [H1 _].
  - intros m bs m1 _ (H1 & H2 & H3). cbn. unfold sm_remaining_mut. rewrite H3, zlen_drop; [done|zlia].
  - intros m _ Hr. cbn in *. eexists _, _. split; [done|]. split; [done|].
    intros bs Hle. split; [unfold sm_remaining_mut; cbn; zlia|]. by apply sm_advance_written.
Qed.

#[export] Instance slice_mut_laws : BufMutLaws (SliceMut e).
Proof.
  refine {| minv := sm_inv; mwrite := sm_write; mroom := sm_remaining_mut;
            mcore := slice_mut_laws_core |}.
  - intros m src _ Hle. cbn in *. unfold sm_put_slice, sm_remaining_mut in *.
    rewrite (proj2 (Z.ltb_ge _ _)), sm_fill_ok, bind_ret by lia. by apply sm_advance_written.
  - intros m src _ Hlt. cbn in *. unfold sm_put_slice. rewrite (proj2 (Z.ltb_lt _ _)) by done. by eexists.
  - intros m val cnt _ Hle. cbn in *. unfold sm_put_bytes, sm_remaining_mut, ptr_write_bytes in *.
    rewrite (proj2 (Z.ltb_ge _ _)), (proj2 (Z.leb_le _ _)), bind_ret by lia.
    destruct (sm_advance_written m (zreplicate cnt val)) as (m' & Ha & Hw); [zlia|].
    exists m'. split; [|done]. rewrite <- Ha, zlen_replicate by lia. do 2 f_equal.
    unfold splice. rewrite ztake_0, zlen_replicate, Z.add_0_l by lia.
    unfold zreplicate. by rewrite fmap_replicate.
  - intros m val cnt _ Hlt. cbn in *. unfold sm_put_bytes. rewrite (proj2 (Z.ltb_lt _ _)) by done. by eexists.
  - intros B HB HL. apply (put_default_ok slice_mut_laws_core).
Defined.

End slice_mut.

(** ** [Vec<u8>]

    [vec_buf] is the allocation, [zlen vec_buf] its capacity; the bytes from
    [vec_len] on may be uninitialised. *)
Record Vec := { vec_buf : uninit_slice; vec_len : Z }.

Section vec.
Context `{T : Target}.
Implicit Types (self : Vec).

Definition vec_new : Vec := {| vec_buf := []; vec_len := 0 |}.
Definition vec_with_capacity (cap : Z) : outcome Vec :=
  if cap <=? isize_max then Ret {| vec_buf := zreplicate cap None; vec_len := 0 |}
  else Fault PanicCapacity.
Definition capacity self : Z := zlen (vec_buf self).

(** [Vec::reserve]: amortised growth to [max(2 * cap, len + additional, 8)], with a
    capacity-overflow panic above [isize::MAX]. *)
Definition vec_reserve self (additional : Z) : outcome Vec :=
  if capacity self - vec_len self <? additional then
    let cap := Z.max 8 (Z.max (2 * capacity self) (vec_len self + additional)) in
    if cap <=? isize_max
    then Ret {| vec_buf := vec_buf self ++ zreplicate (cap - capacity self) None;
                vec_len := vec_len self |}
    else Fault PanicCapacity
  else Ret self.

(** Writes [bs] at the end of the initialised part, within the capacity, and
    moves [len] over it. *)
Definition vec_write_end self (bs : list byte) : Vec :=
  {| vec_buf := splice (vec_buf self) (vec_len self) (Some <$> bs);
     vec_len := vec_len self + zlen bs |}.

Definition extend_from_slice self (src : list byte) : outcome Vec :=
  self ← vec_reserve self (zlen src);
  Ret (vec_write_end self src).

Definition vec_resize self (new_len : Z) (val : byte) : outcome Vec :=
  if vec_len self <? new_len then
    self' ← vec_reserve self (new_len - vec_len self);
    Ret (vec_write_end self' (zreplicate (new_len - vec_len self) val))
  else Ret {| vec_buf := vec_buf self; vec_len := new_len |}.

Definition vec_remaining_mut self : Z := isize_max - vec_len self.

Definition vec_advance_mut self (cnt : Z) : outcome Vec :=
  let len := vec_len self in
  remaining ← usub (capacity self) len;
  if remaining <? cnt then panic_advance {| requested := cnt; available := remaining |}
  else
    len ← uadd len cnt;
    Ret {| vec_buf := vec_buf self; vec_len := len |}.

Definition vec_chunk_mut self : outcome (uninit_slice * (uninit_slice → Vec)) :=
  self ← (if capacity self =? vec_len self then vec_reserve self 64 else Ret self);
  let len := vec_len self in
  Ret (zdrop len (vec_buf self),
       λ s, {| vec_buf := ztake len (vec_buf self) ++ s; vec_len := len |}).

Fixpoint vec_put_loop {B} `{!Buf B} (fuel : nat) self (src : B) : outcome (Vec * B) :=
  if has_remaining src then
    match fuel with
    | O => Fault Diverge
    | S fuel =>
      let s := chunk src in
      let l := zlen s in
      self ← extend_from_slice self s;
      src ← advance src l;
      vec_put_loop fuel self src
    end
  else Ret (self, src).

Definition vec_put {B} `{!Buf B} self (src : B) : outcome (Vec * B) :=
  self ← vec_reserve self (remaining src);
  vec_put_loop (Z.to_nat (remaining src)) self src.

Definition vec_put_slice self (src : list byte) : outcome Vec := extend_from_slice self src.

Definition vec_put_bytes self (val : byte) (cnt : Z) : outcome Vec :=
  let new_len := saturating_add (vec_len self) cnt in
  vec_resize self new_len val.

#[export] Instance vec_core : BufMutCore Vec :=
  { remaining_mut := vec_remaining_mut; chunk_mut := vec_chunk_mut; advance_mut := vec_advance_mut }.
#[export] Instance vec_bufmut : BufMut Vec :=
  { bufmut_core := vec_core; put B H := vec_put; put_slice := vec_put_slice;
    put_bytes := vec_put_bytes }.

(** [vec.as_slice()]: reading a byte that was never written is undefined. *)
Definition vec_as_slice self : outcome (list byte) :=
  match mapM id (ztake (vec_len self) (vec_buf self)) with
  | Some bs => Ret bs
  | None => Fault UndefinedBehaviour
  end.

(** [v] holds the bytes [bs]. *)
Definition vec_holds self (bs : list byte) : Prop :=
  0 <= vec_len self <= capacity self ∧ capacity self <= isize_max ∧
  ztake (vec_len self) (vec_buf self) = Some <$> bs.

Definition vec_inv self : Prop := ∃ bs, vec_holds self bs.
Definition vec_write self (bs : list byte) (self' : Vec) : Prop :=
  ∃ old, vec_holds self old ∧ vec_holds self' (old ++ bs).

(** A vector surely accepts what fits its capacity, and otherwise growth up to half
    the address space. *)
Definition vec_room self : Z := Z.max (capacity self) (isize_max / 2) - vec_len self.

Lemma vec_holds_len v bs : vec_holds v bs → vec_len v = zlen bs.
Proof.
  intros (? & ? & E). apply (f_equal zlen) in E. unfold capacity in *.
  rewrite zlen_fmap, zlen_take in E by lia. done.
Qed.

Lemma vec_as_slice_ok v bs : vec_holds v bs → vec_as_slice v = Ret bs.
Proof.
  intros (_ & _ & E). unfold vec_as_slice. by rewrite E, mapM_id_Some.
Qed.

Lemma isize_max_ge : 2147483647 <= isize_max.
Proof. unfold isize_max. destruct ptr_width_cases as [-> | ->]; lia. Qed.

Lemma vec_reserve_ok v n bs :
  vec_holds v bs → 0 <= n →
  n <= capacity v - vec_len v ∨ (2 * capacity v <= isize_max ∧ vec_len v + n <= isize_max) →
  ∃ v', vec_reserve v n = Ret v' ∧ vec_holds v' bs ∧ n <= capacity v' - vec_len v' ∧
        capacity v <= capacity v' ∧ vec_len v' = vec_len v.
Proof.
  intros (Hl & Hc & E) Hn Hr. unfold vec_reserve. pose proof isize_max_ge.
  destruct (Z.ltb_spec (capacity v - vec_len v) n).
  - rewrite (proj2 (Z.leb_le _ _)) by lia. eexists. split; [done|].
    unfold vec_holds, capacity in *. cbn. rewrite zlen_app, zlen_replicate by lia.
    rewrite ztake_app_l by lia. split; [|lia]. split; [lia|]. split; [lia|done].
  - exists v. unfold vec_holds, capacity in *. repeat split; try done; lia.
Qed.

Lemma vec_write_end_ok v bs new :
  vec_holds v bs → zlen new <= capacity v - vec_len v →
  vec_holds (vec_write_end v new) (bs ++ new) ∧ capacity (vec_write_end v new) = capacity v.
Proof.
  intros (Hl & Hc & E) Hn. unfold vec_holds, capacity, vec_write_end in *. cbn.
  rewrite zlen_splice by zlia. split; [|done]. pose_zlen. split; [lia|]. split; [done|].
  unfold splice. rewrite app_assoc, ztake_app_exact by zlia. by rewrite E, fmap_app.
Qed.

Lemma vec_wrote v v' bs new :
  vec_holds v bs → vec_holds v' (bs ++ new) → capacity v <= capacity v' →
  wrote vec_inv vec_write vec_room v new v'.
Proof.
  intros H H' Hc. split; [by eexists|]. split; [by exists bs|].
  unfold vec_room. rewrite (vec_holds_len v bs), (vec_holds_len v' (bs ++ new)) by done. zlia.
Qed.

Lemma extend_from_slice_ok v bs src :
  vec_holds v bs → zlen src <= vec_room v →
  ∃ v', extend_from_slice v src = Ret v' ∧ vec_holds v' (bs ++ src) ∧ capacity v <= capacity v'.
Proof.
  intros Hv Hr. unfold extend_from_slice, vec_room in *. pose proof Hv as (? & ? & _).
  pose proof (Z.mul_div_le isize_max 2 eq_refl).
  destruct (vec_reserve_ok v (zlen src) bs Hv) as (v1 & -> & Hv1 & Hn & Hc1 & _); [zlia|lia|].
  destruct (vec_write_end_ok v1 bs src Hv1 Hn). rewrite bind_ret. eexists. split; [done|]. split; [done|lia].
Qed.

Lemma vec_chunk_ok v :
  vec_inv v → 0 < vec_room v →
  ∃ d back, vec_chunk_mut v = Ret (d, back) ∧ 0 < zlen d ∧
    ∀ new, zlen new <= zlen d →
      let v1 := back ((Some <$> new) ++ zdrop (zlen new) d) in
      vec_remaining_mut v1 = vec_remaining_mut v ∧
      ∃ v', vec_advance_mut v1 (zlen new) = Ret v' ∧ wrote vec_inv vec_write vec_room v new v'.
Proof.
  intros [bs Hv] Hr. unfold vec_chunk_mut. pose proof isize_max_ge. pose proof usize_isize_max.
  pose proof (Z.mul_div_le isize_max 2 eq_refl). pose proof Hv as (Hl & Hc & _). unfold vec_room in Hr.
  assert (∃ v1, (if capacity v =? vec_len v then vec_reserve v 64 else Ret v) = Ret v1 ∧
    vec_holds v1 bs ∧ vec_len v1 < capacity v1 ∧ capacity v <= capacity v1 ∧ vec_len v1 = vec_len v)
    as (v1 & -> & Hv1 & Hlt & Hcc & Hlen).
  { destruct (Z.eqb_spec (capacity v) (vec_len v)).
    - destruct (vec_reserve_ok v 64 bs Hv) as (v1 & ? & ? & ? & ? & ?); [lia|right; lia|].
      exists v1. split; [done|]. split; [done|lia].
    - exists v. split; [done|]. split; [done|lia]. }
  rewrite bind_ret. eexists _, _. split; [done|]. clear Hl Hc. destruct Hv1 as (Hl & Hc & E).
  unfold capacity in *. split; [zlia|]. intros new Hn. rewrite zlen_drop in Hn by lia.
  split; [unfold vec_remaining_mut; cbn; lia|]. unfold vec_advance_mut, capacity. cbn.
  rewrite !zlen_app, zlen_fmap, zlen_take, !zlen_drop by zlia.
  rewrite usub_ok, bind_ret by zlia. rewrite (proj2 (Z.ltb_ge _ _)) by zlia.
  rewrite uadd_ok, bind_ret by zlia. eexists. split; [done|]. eapply vec_wrote; [done| |].
  - unfold vec_holds, capacity. cbn. rewrite fmap_app, !app_assoc, ztake_app_exact by zlia.
    rewrite <- E. split; [zlia|]. split; [zlia|done].
  - unfold capacity. cbn. zlia.
Qed.

Lemma vec_core_laws : mcore_laws vec_inv vec_write vec_room.
Proof.
  pose proof (Z.mul_div_le isize_max 2 eq_refl). pose proof isize_max_ge. constructor.
  - intros v (bs & Hl & Hc & _). cbn. unfold vec_room, vec_remaining_mut. lia.
  - intros v [bs Hv]. exists bs. by rewrite app_nil_r.
  - intros v bs v1 cs v2 _ _ (old & H1 & H2) (old' & H3 & H4). exists old. split; [done|].
    enough (old' = old ++ bs) as -> by (by rewrite app_assoc).
    destruct H2 as (_ & _ & E), H3 as (_ & _ & E'). rewrite E in E'.
    by apply (inj (fmap Some)) in E'.
  - intros v bs v1 _ (old & H1 & H2). cbn. unfold vec_remaining_mut. pose proof H2 as (? & ? & _).
    rewrite (vec_holds_len _ _ H1). rewrite (vec_holds_len _ _ H2) in *. zlia.
  - intros v bs v1 _ (old & H1 & H2). cbn. unfold vec_remaining_mut.
    rewrite (vec_holds_len _ _ H1), (vec_holds_len _ _ H2). zlia.
  - apply vec_chunk_ok.
Qed.

Lemma vec_put_loop_ok {B} `{!Buf B, !BufLaws B} fuel v bs (src : B) :
  vec_holds v bs → binv src → (length (bview src) <= fuel)%nat → zlen (bview src) <= vec_room v →
  ∃ v' src', vec_put_loop fuel v src = Ret (v', src') ∧ vec_holds v' (bs ++ bview src) ∧
             capacity v <= capacity v' ∧ binv src' ∧ bview src' = [].
Proof.
  revert v bs src. induction fuel as [|fuel IH]; intros v bs src Hv Hb Hf Hr.
  - destruct (bview src) as [|] eqn:E; [|simpl in Hf; lia]. exists v, src.
    cbn. unfold has_remaining. rewrite remaining_view, E, app_nil_r by done.
    split; [done|]. split; [done|]. split; [lia|done].
  - cbn [vec_put_loop]. unfold has_remaining. rewrite remaining_view by done.
    destruct (Z.ltb_spec 0 (zlen (bview src))) as [Hpos|Hpos].
    2: { assert (E : bview src = []) by (apply zlen_0_nil; pose_zlen; lia).
         exists v, src. rewrite E, app_nil_r. split; [done|]. split; [done|]. split; [lia|done]. }
    assert (Hne : bview src ≠ []) by (intros E; rewrite E in Hpos; zlia).
    pose proof (core_chunk_len buf_core_laws src Hb Hne) as [Hc1 Hc2]. cbv zeta.
    destruct (extend_from_slice_ok v bs (chunk src) Hv) as (v1 & -> & Hv1 & Hcap1); [lia|].
    rewrite bind_ret. destruct (advance_ok src (zlen (chunk src)) Hb) as (src1 & -> & Hb1 & Hvw); [lia|].
    rewrite bind_ret. destruct (IH v1 (bs ++ chunk src) src1 Hv1 Hb1) as (v2 & src2 & -> & Hv2 & Hcap2 & Hb2).
    { rewrite Hvw. pose proof (zlen_drop (zlen (chunk src)) (bview src)). unfold zlen in *. lia. }
    { unfold vec_room in *. rewrite Hvw, zlen_drop by lia.
      rewrite (vec_holds_len _ _ Hv1). rewrite (vec_holds_len _ _ Hv) in Hr. zlia. }
    exists v2, src2. split; [done|]. split; [|split; [lia|done]].
    rewrite <- (ztake_zdrop (zlen (chunk src)) (bview src)), <- Hvw.
    rewrite prefix_ztake by (by apply chunk_prefix). by rewrite app_assoc.
Qed.

#[export] Instance vec_laws : BufMutLaws Vec.
Proof.
  pose proof (Z.mul_div_le isize_max 2 eq_refl). pose proof isize_max_ge. pose proof usize_isize_max.
  refine {| minv := vec_inv; mwrite := vec_write; mroom := vec_room; mcore := vec_core_laws |}.
  - intros v src [bs Hv] Hr. cbn. unfold vec_put_slice. destruct (extend_from_slice_ok v bs src Hv Hr) as (v' & -> & ? & ?).
    exists v'. split; [done|]. by eapply vec_wrote.
  - intros v src (bs & Hl & Hc & _) Hlt. cbn in *. unfold vec_remaining_mut, vec_put_slice,
      extend_from_slice, vec_reserve, capacity in *.
    rewrite (proj2 (Z.ltb_lt _ _)), (proj2 (Z.leb_gt _ _)) by lia. by eexists.
  - intros v val cnt [bs Hv] Hr. cbn. unfold vec_put_bytes, vec_resize.
    pose proof Hv as (Hl & Hc & _). unfold vec_room in Hr. rewrite saturating_add_small by lia.
    replace (vec_len v + cnt - vec_len v) with cnt by lia.
    destruct (Z.ltb_spec (vec_len v) (vec_len v + cnt)).
    + destruct (vec_reserve_ok v cnt bs Hv) as (v1 & -> & Hv1 & Hn & Hc1 & _); [lia|lia|].
      destruct (vec_write_end_ok v1 bs (zreplicate cnt val) Hv1); [zlia|].
      rewrite bind_ret. eexists. split; [done|]. eapply vec_wrote; [done|done|lia].
    + assert (cnt = 0) as -> by lia. exists v. rewrite Z.add_0_r.
      split; [by destruct v|]. eapply vec_wrote; [done| |lia]. by rewrite app_nil_r.
  - intros v val cnt (bs & Hl & Hc & _) Hlt. cbn in *. unfold vec_remaining_mut, vec_put_bytes, vec_resize,
      vec_reserve, saturating_add, capacity in *.
    rewrite (proj2 (Z.ltb_lt (vec_len v) _)), (proj2 (Z.ltb_lt _ _)), (proj2 (Z.leb_gt _ _)) by lia.
    by eexists.
  - intros B HB HL v src [bs Hv] Hb Hr. cbn. unfold vec_put. rewrite remaining_view by done.
    pose proof Hv as (Hl & Hc & _). unfold vec_room in Hr.
    destruct (vec_reserve_ok v (zlen (bview src)) bs Hv) as (v1 & -> & Hv1 & Hn & Hc1 & Hl1); [zlia|lia|].
    rewrite bind_ret.
    destruct (vec_put_loop_ok (Z.to_nat (zlen (bview src))) v1 bs src Hv1 Hb) as
      (v2 & src2 & -> & Hv2 & Hc2 & ?).
    { unfold zlen. lia. }
    { unfold vec_room. lia. }
    exists v2, src2. split; [done|]. split; [|done]. eapply vec_wrote; [done|done|lia].
Defined.

End vec.
