(* ===== verification/BufMutAdapters.v ===== *)
(** * BufMutAdapters: the [BufMut] implementations built on other sinks

    [Limit] (limit.rs), [Chain] (chain.rs), the forwarding implementations for
    [&mut T] and [Box<T>] (the macro [deref_forward_bufmut!] of buf_mut.rs) and the
    [io::Write] adapter [Writer] (writer.rs), all under src/patches/bytes/src/buf/.
    Each is proved against the interface [BufMutLaws] of the sinks it wraps. *)

From S2P Require Import Prelude Machine Buf BufSpec BufSources BufAdapters BufMut.

(** ** Limit *)
Record Limit (M : Type) := { limit_inner : M; limit_limit : Z }.
Arguments limit_inner {M} _.
Arguments limit_limit {M} _.
Arguments Build_Limit {M} _ _.

Section limit.
Context {M : Type} `{HM : !BufMut M}.
Implicit Types (self : Limit M).

Definition limit_new (inner : M) (limit : Z) : Limit M := Build_Limit inner limit.
Definition limit_into_inner self : M := limit_inner self.
Definition limit_get_ref self : M := limit_inner self.
Definition limit_get_mut self : borrow (Limit M) M :=
  {| borrowed := limit_inner self; give_back := λ m, Build_Limit m (limit_limit self) |}.
Definition limit_set_limit self (lim : Z) : Limit M := Build_Limit (limit_inner self) lim.

Definition limit_remaining_mut self : Z :=
  Z.min (remaining_mut (limit_inner self)) (limit_limit self).

Definition limit_chunk_mut self : outcome (uninit_slice * (uninit_slice → Limit M)) :=
  '(bytes, back) ← chunk_mut (limit_inner self);
  let end_ := Z.min (zlen bytes) (limit_limit self) in
  front ← slice_range bytes 0 end_;
  Ret (front, λ s, Build_Limit (back (s ++ zdrop end_ bytes)) (limit_limit self)).

Definition limit_advance_mut {T : Target} self (cnt : Z) : outcome (Limit M) :=
  _ ← rust_assert (cnt <=? limit_limit self);
  inner ← advance_mut (limit_inner self) cnt;
  limit ← usub (limit_limit self) cnt;
  Ret (Build_Limit inner limit).
End limit.

Section limit_laws.
Context `{T : Target} {M : Type} `{HM : !BufMut M, LM : !BufMutLaws M}.
Implicit Types (self : Limit M).

#[export] Instance limit_core : BufMutCore (Limit M) :=
  { remaining_mut := limit_remaining_mut; chunk_mut := limit_chunk_mut;
    advance_mut := limit_advance_mut }.
#[export] Instance limit_bufmut : BufMut (Limit M) := default_bufmut limit_core.

Definition limit_inv self : Prop := minv (limit_inner self) ∧ 0 <= limit_limit self.
Definition limit_write self (bs : list byte) (self' : Limit M) : Prop :=
  mwrite (limit_inner self) bs (limit_inner self') ∧
  zlen bs <= limit_limit self ∧ limit_limit self' = limit_limit self - zlen bs.
Definition limit_room self : Z := Z.min (mroom (limit_inner self)) (limit_limit self).

Lemma limit_chunk_ok m :
  limit_inv m → 0 < limit_room m →
  ∃ d back, limit_chunk_mut m = Ret (d, back) ∧ 0 < zlen d ∧
    ∀ bs, zlen bs <= zlen d →
      let m1 := back ((Some <$> bs) ++ zdrop (zlen bs) d) in
      limit_remaining_mut m1 = limit_remaining_mut m ∧
      ∃ m', limit_advance_mut m1 (zlen bs) = Ret m' ∧ wrote limit_inv limit_write limit_room m bs m'.
Proof.
  destruct m as [m lim]. unfold limit_inv, limit_room, limit_chunk_mut. cbn.
  intros [Hm Hl] Hr. destruct (ml_chunk _ _ _ mcore m Hm) as (d & back & -> & Hd & Hadv); [lia|].
  rewrite bind_ret. cbv zeta. set (k := Z.min (zlen d) lim).
  assert (Hk : 0 < k <= zlen d ∧ k <= lim) by (subst k; lia).
  rewrite slice_range_ok, bind_ret, zdrop_0 by lia. eexists _, _. split; [done|].
  rewrite zlen_take by lia. split; [lia|]. intros bs Hb.
  assert (Hz : ((Some <$> bs) ++ zdrop (zlen bs) (ztake k d)) ++ zdrop k d =
               (Some <$> bs) ++ zdrop (zlen bs) d).
  { rewrite <- app_assoc. f_equal. rewrite <- (ztake_zdrop k d) at 3.
    rewrite zdrop_app_l; [done|]. zlia. }
  rewrite Hz. destruct (Hadv bs) as (Hrem & m' & Ha & Hm' & Hw & Hr'); [lia|].
  split; [unfold limit_remaining_mut; cbn; by rewrite Hrem|]. unfold limit_advance_mut. cbn.
  rewrite rust_assert_true, bind_ret, Ha by (apply Z.leb_le; lia).
  rewrite bind_ret, usub_ok, bind_ret by lia. eexists. split; [done|].
  unfold wrote, limit_write, limit_room, limit_inv. cbn.
  repeat split; try done; zlia.
Qed.

Lemma limit_core_laws : mcore_laws (M := Limit M) limit_inv limit_write limit_room.
Proof.
  constructor.
  - intros m [Hm Hl]. cbn. unfold limit_room, limit_remaining_mut.
    pose proof (ml_room _ _ _ mcore _ Hm). lia.
  - intros m [Hm Hl]. split; [by apply (ml_write_nil _ _ _ mcore)|]. rewrite zlen_nil. lia.
  - intros m bs m1 cs m2 [Hm Hl] [Hm1 Hl1] (H1 & H2 & H3) (H4 & H5 & H6).
    split; [by apply (ml_write_app _ _ _ mcore _ bs (limit_inner m1))|]. zlia.
  - intros m bs m1 [Hm Hl] (H1 & H2 & H3). cbn. unfold limit_remaining_mut.
    pose proof (ml_write_bound _ _ _ mcore _ _ _ Hm H1). lia.
  - intros m bs m1 [Hm Hl] (H1 & H2 & H3). cbn. unfold limit_remaining_mut.
    rewrite H3, (ml_write_remaining _ _ _ mcore _ _ _ Hm H1). lia.
  - apply limit_chunk_ok.
Qed.

#[export] Instance limit_laws : BufMutLaws (Limit M) :=
  default_bufmut_laws limit_core limit_inv limit_write limit_room limit_core_laws.

End limit_laws.

(** ** Chain *)
Section chain_mut.
Context `{T : Target} {A B : Type} `{HA : !BufMut A, HB : !BufMut B}.
Implicit Types (self : Chain A B).

Definition chain_remaining_mut self : Z :=
  saturating_add (remaining_mut (chain_a self)) (remaining_mut (chain_b self)).

Definition chain_chunk_mut self : outcome (uninit_slice * (uninit_slice → Chain A B)) :=
  if has_remaining_mut (chain_a self) then
    '(d, back) ← chunk_mut (chain_a self);
    Ret (d, λ s, Build_Chain (back s) (chain_b self))
  else
    '(d, back) ← chunk_mut (chain_b self);
    Ret (d, λ s, Build_Chain (chain_a self) (back s)).

Definition chain_advance_mut self (cnt : Z) : outcome (Chain A B) :=
  let a_rem := remaining_mut (chain_a self) in
  if negb (a_rem =? 0) then
    if cnt <=? a_rem then
      a ← advance_mut (chain_a self) cnt;
      Ret (Build_Chain a (chain_b self))
    else
      a ← advance_mut (chain_a self) a_rem;
      cnt ← usub cnt a_rem;
      b ← advance_mut (chain_b self) cnt;
      Ret (Build_Chain a b)
  else
    b ← advance_mut (chain_b self) cnt;
    Ret (Build_Chain (chain_a self) b).

#[export] Instance chain_mut_core : BufMutCore (Chain A B) :=
  { remaining_mut := chain_remaining_mut; chunk_mut := chain_chunk_mut;
    advance_mut := chain_advance_mut }.
#[export] Instance chain_bufmut : BufMut (Chain A B) := default_bufmut chain_mut_core.

Context `{LA : !BufMutLaws A, LB : !BufMutLaws B}.

Definition chain_mut_inv self : Prop :=
  minv (chain_a self) ∧ minv (chain_b self) ∧
  remaining_mut (chain_a self) + remaining_mut (chain_b self) <= usize_max.

(** The first part is filled before the second is touched. *)
Definition chain_write self (bs : list byte) (self' : Chain A B) : Prop :=
  ∃ b1 b2, bs = b1 ++ b2 ∧
    mwrite (chain_a self) b1 (chain_a self') ∧ mwrite (chain_b self) b2 (chain_b self') ∧
    (b2 = [] ∨ zlen b1 = remaining_mut (chain_a self)).

(** The second part counts when the first one can surely be filled. *)
Definition chain_room self : Z :=
  mroom (chain_a self) +
  (if mroom (chain_a self) =? remaining_mut (chain_a self) then mroom (chain_b self) else 0).

Lemma chain_write_app c bs c1 cs c2 :
  chain_mut_inv c → chain_mut_inv c1 →
  chain_write c bs c1 → chain_write c1 cs c2 → chain_write c (bs ++ cs) c2.
Proof.
  intros (Ha & Hb & _) (Ha1 & Hb1 & _) (b1 & b2 & -> & Hwa & Hwb & Hd) (d1 & d2 & -> & Hva & Hvb & He).
  pose proof (ml_write_remaining _ _ _ mcore _ _ _ Ha Hwa) as Hrem.
  pose proof (ml_write_bound _ _ _ mcore _ _ _ Ha1 Hva) as Hbound.
  exists (b1 ++ d1), (b2 ++ d2). split.
  - destruct Hd as [-> | Hd]; [by rewrite app_nil_r, app_assoc|].
    assert (d1 = []) as -> by (apply zlen_0_nil; pose_zlen; lia). cbn. by rewrite app_nil_r, app_assoc.
  - split; [by apply (ml_write_app _ _ _ mcore _ b1 (chain_a c1))|].
    split; [by apply (ml_write_app _ _ _ mcore _ b2 (chain_b c1))|].
    destruct Hd as [-> | Hd].
    + destruct He as [-> | He]; [by left|right]. rewrite zlen_app. lia.
    + right. rewrite zlen_app. pose_zlen. lia.
Qed.

(** Writing into the first part costs the chain no more than the bytes written. *)
Lemma chain_wrote_a a b a' bs :
  chain_mut_inv (Build_Chain a b) → mwrote a bs a' →
  wrote chain_mut_inv chain_write chain_room (Build_Chain a b) bs (Build_Chain a' b).
Proof.
  intros (Ha & Hb & Hs) (Ha' & Hw & Hr). cbn in *.
  pose proof (ml_write_remaining _ _ _ mcore _ _ _ Ha Hw) as Hrem.
  pose proof (ml_room _ _ _ mcore _ Ha). pose proof (ml_room _ _ _ mcore _ Ha').
  pose proof (ml_room _ _ _ mcore _ Hb). split; [|split].
  - unfold chain_mut_inv. cbn. split; [done|]. split; [done|zlia].
  - exists bs, []. rewrite app_nil_r. split; [done|]. split; [done|].
    split; [by apply (ml_write_nil _ _ _ mcore)|by left].
  - unfold chain_room. cbn. repeat case_bool; lia.
Qed.

Lemma chain_wrote_b a b b' bs :
  chain_mut_inv (Build_Chain a b) → remaining_mut a = 0 → mwrote b bs b' →
  wrote chain_mut_inv chain_write chain_room (Build_Chain a b) bs (Build_Chain a b').
Proof.
  intros (Ha & Hb & Hs) H0 (Hb' & Hw & Hr). cbn in *.
  pose proof (ml_write_remaining _ _ _ mcore _ _ _ Hb Hw) as Hrem. split; [|split].
  - unfold chain_mut_inv. cbn. split; [done|]. split; [done|zlia].
  - exists [], bs. split; [done|]. split; [by apply (ml_write_nil _ _ _ mcore)|].
    split; [done|by right].
  - unfold chain_room. cbn. pose proof (ml_room _ _ _ mcore _ Ha). repeat case_bool; lia.
Qed.

Lemma chain_chunk_ok c :
  chain_mut_inv c → 0 < chain_room c →
  ∃ d back, chain_chunk_mut c = Ret (d, back) ∧ 0 < zlen d ∧
    ∀ bs, zlen bs <= zlen d →
      let c1 := back ((Some <$> bs) ++ zdrop (zlen bs) d) in
      chain_remaining_mut c1 = chain_remaining_mut c ∧
      ∃ c', chain_advance_mut c1 (zlen bs) = Ret c' ∧
            wrote chain_mut_inv chain_write chain_room c bs c'.
Proof.
  destruct c as [a b]. intros Hc Hr. pose proof Hc as (Ha & Hb & _). cbn in Ha, Hb.
  unfold chain_room, chain_chunk_mut, has_remaining_mut, chain_remaining_mut in *. cbn in *.
  pose proof (ml_room _ _ _ mcore _ Ha). destruct (Z.ltb_spec 0 (remaining_mut a)).
  - destruct (ml_chunk _ _ _ mcore a Ha) as (d & back & -> & Hd & Hadv);
      [destruct (Z.eqb_spec (mroom a) (remaining_mut a)); lia|].
    rewrite bind_ret. eexists _, _. split; [done|]. split; [done|]. intros bs Hbs. cbn.
    destruct (Hadv bs Hbs) as (Hrem & a' & Hadv' & Hw). split; [by rewrite Hrem|].
    unfold chain_advance_mut. cbn. rewrite Hrem.
    pose proof Hw as (_ & Hw' & _). pose proof (ml_write_bound _ _ _ mcore _ _ _ Ha Hw').
    rewrite (proj2 (Z.eqb_neq _ _)), (proj2 (Z.leb_le _ _)), Hadv' by lia. cbn.
    eexists. split; [done|]. by apply chain_wrote_a.
  - assert (Hz : remaining_mut a = 0) by lia. rewrite Hz in Hr.
    destruct (ml_chunk _ _ _ mcore b Hb) as (d & back & -> & Hd & Hadv);
      [destruct (Z.eqb_spec (mroom a) 0); lia|].
    rewrite bind_ret. eexists _, _. split; [done|]. split; [done|]. intros bs Hbs. cbn.
    destruct (Hadv bs Hbs) as (Hrem & b' & Hadv' & Hw). split; [by rewrite Hrem|].
    unfold chain_advance_mut. cbn. rewrite Hz. cbn. rewrite Hadv', bind_ret.
    eexists. split; [done|]. by apply chain_wrote_b.
Qed.

Lemma chain_mut_core_laws : mcore_laws (M := Chain A B) chain_mut_inv chain_write chain_room.
Proof.
  constructor.
  - intros [a b] (Ha & Hb & Hs). cbn in *. unfold chain_room, chain_remaining_mut. cbn.
    pose proof (ml_room _ _ _ mcore _ Ha). pose proof (ml_room _ _ _ mcore _ Hb).
    rewrite saturating_add_small by lia. case_bool; lia.
  - intros [a b] (Ha & Hb & _). exists [], []. cbn in *.
    split; [done|]. split; [by apply (ml_write_nil _ _ _ mcore)|].
    split; [by apply (ml_write_nil _ _ _ mcore)|by left].
  - apply chain_write_app.
  - intros c bs c1 (Ha & Hb & Hs) (b1 & b2 & -> & H1 & H2 & _). cbn. unfold chain_remaining_mut.
    rewrite saturating_add_small by lia.
    pose proof (ml_write_bound _ _ _ mcore _ _ _ Ha H1).
    pose proof (ml_write_bound _ _ _ mcore _ _ _ Hb H2). zlia.
  - intros c bs c1 (Ha & Hb & Hs) (b1 & b2 & -> & H1 & H2 & _). cbn. unfold chain_remaining_mut.
    rewrite (ml_write_remaining _ _ _ mcore _ _ _ Ha H1), (ml_write_remaining _ _ _ mcore _ _ _ Hb H2).
    rewrite !saturating_add_small by zlia. zlia.
  - apply chain_chunk_ok.
Qed.

#[export] Instance chain_mut_laws : BufMutLaws (Chain A B) :=
  default_bufmut_laws chain_mut_core chain_mut_inv chain_write chain_room chain_mut_core_laws.

End chain_mut.

(** ** Forwarding through [&mut T] and [Box<T>]

    [put_slice] and the fixed-width putters up to 64 bits are forwarded; [put] and
    [put_bytes] are the trait's defaults over the forwarded required methods. *)
Section boxed_mut.
Context {M : Type} `{HM : !BufMut M}.

#[export] Instance boxed_mut_core : BufMutCore (Boxed M) := {
  remaining_mut self := remaining_mut (deref self);
  chunk_mut self :=
    '(d, back) ← chunk_mut (deref self); Ret (d, λ s, Build_Boxed (back s));
  advance_mut self cnt := m ← advance_mut (deref self) cnt; Ret (Build_Boxed m);
}.
#[export] Instance boxed_bufmut : BufMut (Boxed M) := {
  bufmut_core := boxed_mut_core;
  put B H := put_default;
  put_slice self src := m ← put_slice (deref self) src; Ret (Build_Boxed m);
  put_bytes := put_bytes_default;
}.

Context `{LM : !BufMutLaws M}.

Definition boxed_inv (self : Boxed M) : Prop := minv (deref self).
Definition boxed_write (self : Boxed M) (bs : list byte) (self' : Boxed M) : Prop :=
  mwrite (deref self) bs (deref self').
Definition boxed_room (self : Boxed M) : Z := mroom (deref self).

Lemma boxed_core_laws : mcore_laws (M := Boxed M) boxed_inv boxed_write boxed_room.
Proof.
  constructor; unfold boxed_inv, boxed_write, boxed_room.
  - intros m Hm. apply (ml_room _ _ _ mcore _ Hm).
  - intros m. apply (ml_write_nil _ _ _ mcore).
  - intros m bs m1 cs m2. apply (ml_write_app _ _ _ mcore).
  - intros m bs m1. apply (ml_write_bound _ _ _ mcore).
  - intros m bs m1. apply (ml_write_remaining _ _ _ mcore).
  - intros [m] Hm Hr. cbn in *. destruct (ml_chunk _ _ _ mcore m Hm Hr) as (d & back & -> & Hd & Hadv).
    rewrite bind_ret. eexists _, _. split; [done|]. split; [done|]. intros bs Hb. cbn.
    destruct (Hadv bs Hb) as (Hrem & m' & -> & Hw). split; [done|]. rewrite bind_ret.
    by exists (Build_Boxed m').
Qed.

#[export] Instance boxed_mut_laws : BufMutLaws (Boxed M).
Proof.
  refine {| minv := boxed_inv; mwrite := boxed_write; mroom := boxed_room; mcore := boxed_core_laws |}.
  - intros [m] src Hm Hr. cbn in *. destruct (put_slice_ok m src Hm Hr) as (m' & -> & Hw).
    by exists (Build_Boxed m').
  - intros [m] src Hm Hr. cbn in *. destruct (put_slice_past m src Hm Hr) as (f & ->). by exists f.
  - apply (put_bytes_default_ok boxed_core_laws).
  - intros m val cnt _. apply (default_past m [] val cnt).
  - intros B HB HL. apply (put_default_ok boxed_core_laws).
Defined.

End boxed_mut.

(** ** Writer *)
Record Writer (M : Type) := { writer_buf : M }.
Arguments writer_buf {M} _.
Arguments Build_Writer {M} _.

Section writer.
Context {M : Type} `{HM : !BufMut M}.

Definition writer_new (buf : M) : Writer M := Build_Writer buf.
Definition writer_into_inner (self : Writer M) : M := writer_buf self.
Definition writer_get_ref (self : Writer M) : M := writer_buf self.
Definition writer_get_mut (self : Writer M) : borrow (Writer M) M :=
  {| borrowed := writer_buf self; give_back := λ m, Build_Writer m |}.
Definition writer_flush (self : Writer M) : result () unit := Ok tt.

(** The adapters as methods of [BufMut]. *)
Definition buf_limit {N} (self : N) (limit : Z) : Limit N := limit_new self limit.
Definition buf_writer {N} (self : N) : Writer N := Build_Writer self.
Definition buf_chain_mut {N P} (self : N) (next : P) : Chain N P := chain_new self next.

(** [io::Write::write]: always [Ok], with the number of bytes written. *)
Definition writer_write (self : Writer M) (src : list byte) : outcome (Z * Writer M) :=
  let n := Z.min (remaining_mut (writer_buf self)) (zlen src) in
  part ← slice_range src 0 n;
  buf ← put_slice (writer_buf self) part;
  Ret (n, Build_Writer buf).

Context `{LM : !BufMutLaws M}.

Lemma writer_write_ok (w : Writer M) src :
  minv (writer_buf w) →
  let n := Z.min (remaining_mut (writer_buf w)) (zlen src) in
  n <= mroom (writer_buf w) →
  ∃ w', writer_write w src = Ret (n, w') ∧ mwrote (writer_buf w) (ztake n src) (writer_buf w').
Proof.
  intros Hm n Hn. unfold writer_write. fold n. pose proof (ml_room _ _ _ mcore _ Hm).
  assert (Hn' : 0 <= n <= zlen src) by (subst n; pose_zlen; lia).
  rewrite slice_range_ok, bind_ret, zdrop_0 by lia.
  destruct (put_slice_ok (writer_buf w) (ztake n src) Hm) as (m' & -> & Hw); [zlia|].
  rewrite bind_ret. by exists (Build_Writer m').
Qed.

End writer.
