(* ===== verification/Codec.v ===== *)
(** * Codec: what [BufMut] writes, [Buf] reads back

    [fixed_codecs] pairs every fixed-width putter with the getter of the same name,
    with the range of the integer type; the round trips of Machine.v lift to any
    lawful sink and any lawful source. *)

From S2P Require Import Prelude Machine Buf BufSpec BufMut.

Record codec (M B : Type) := {
  c_size : Z;
  c_range : Z → Prop;
  c_put : M → Z → outcome M;
  c_get : B → outcome (Z * B);
}.
Arguments c_size {M B} _.
Arguments c_range {M B} _ _.
Arguments c_put {M B} _ _ _.
Arguments c_get {M B} _ _.
Arguments Build_codec {M B} _ _ _ _.

Section codecs.
Context `{T : Target} {M B : Type} `{HM : !BufMut M, LM : !BufMutLaws M}.
Context `{HB : !Buf B, LB : !BufLaws B}.

Definition u_codec (size : Z) (p : M → Z → outcome M) (g : B → outcome (Z * B)) : codec M B :=
  Build_codec size (is_unsigned size) p g.
Definition i_codec (size : Z) (p : M → Z → outcome M) (g : B → outcome (Z * B)) : codec M B :=
  Build_codec size (is_signed size) p g.

Definition fixed_codecs : list (codec M B) :=
  [ u_codec 1 put_u8 get_u8; i_codec 1 put_i8 get_i8;
    u_codec 2 put_u16 get_u16; u_codec 2 put_u16_le get_u16_le; u_codec 2 put_u16_ne get_u16_ne;
    i_codec 2 put_i16 get_i16; i_codec 2 put_i16_le get_i16_le; i_codec 2 put_i16_ne get_i16_ne;
    u_codec 4 put_u32 get_u32; u_codec 4 put_u32_le get_u32_le; u_codec 4 put_u32_ne get_u32_ne;
    i_codec 4 put_i32 get_i32; i_codec 4 put_i32_le get_i32_le; i_codec 4 put_i32_ne get_i32_ne;
    u_codec 8 put_u64 get_u64; u_codec 8 put_u64_le get_u64_le; u_codec 8 put_u64_ne get_u64_ne;
    i_codec 8 put_i64 get_i64; i_codec 8 put_i64_le get_i64_le; i_codec 8 put_i64_ne get_i64_ne;
    u_codec 16 put_u128 get_u128; u_codec 16 put_u128_le get_u128_le;
    u_codec 16 put_u128_ne get_u128_ne;
    i_codec 16 put_i128 get_i128; i_codec 16 put_i128_le get_i128_le;
    i_codec 16 put_i128_ne get_i128_ne;
    u_codec 4 put_f32 get_f32; u_codec 4 put_f32_le get_f32_le; u_codec 4 put_f32_ne get_f32_ne;
    u_codec 8 put_f64 get_f64; u_codec 8 put_f64_le get_f64_le; u_codec 8 put_f64_ne get_f64_ne ].

(** [m] writes [size] bytes that the reader [get] turns back into [n], wherever
    they come to lie. *)
Definition writes_back (m : M) (size n : Z) (w : outcome M) (get : B → outcome (Z * B)) : Prop :=
  ∃ m' bs, w = Ret m' ∧ zlen bs = size ∧ mwrote m bs m' ∧
    ∀ b rest, binv b → bview b = bs ++ rest → reads (get b) b size n.

Definition codec_ok (c : codec M B) : Prop :=
  ∀ m n, minv m → c_size c <= mroom m → c_range c n →
    writes_back m (c_size c) n (c_put c m n) (c_get c).

(** A writer of fixed bytes and a reader that decodes them are a codec. *)
Lemma writes_back_slice m size n bs get :
  minv m → zlen bs = size → size <= mroom m →
  (∀ b, binv b → size <= zlen (bview b) → ztake size (bview b) = bs → reads (get b) b size n) →
  writes_back m size n (put_slice m bs) get.
Proof.
  intros Hm Hl Hr Hg. destruct (put_slice_ok m bs Hm) as (m' & E & Hw); [lia|].
  exists m', bs. split; [done|]. split; [done|]. split; [done|]. intros b rest Hb Hv.
  apply Hg; [done| |]; rewrite Hv; [zlia|]. rewrite <- Hl. by rewrite ztake_app_exact.
Qed.

Lemma codec_ok_impl size (range : Z → Prop) (enc : Z → list byte) conv put :
  0 <= size → (∀ m n, put m n = put_slice m (enc n)) → (∀ n, zlen (enc n) = size) →
  (∀ n, range n → conv (enc n) = n) →
  codec_ok (Build_codec size range put (buf_get_impl size conv)).
Proof.
  intros Hs Hp Hl Hc m n Hm Hr Hn. cbn in *. rewrite Hp. apply writes_back_slice; [done|done|done|].
  intros b Hb Hle E. rewrite <- (Hc n Hn), <- E. by apply reads_unwrap, buf_try_get_impl_ok.
Qed.

Lemma u_codec_ok size (enc : Z → list byte) conv put :
  0 <= size → (∀ m n, put m n = put_slice m (enc n)) → (∀ n, zlen (enc n) = size) →
  (∀ n, conv (enc n) = n mod 2 ^ (8 * size)) → codec_ok (u_codec size put (buf_get_impl size conv)).
Proof.
  intros Hs Hp Hl Hc. apply (codec_ok_impl size _ enc); [done|done|done|].
  intros n [? ?]. rewrite Hc. by apply Z.mod_small.
Qed.

Lemma i_codec_ok size (enc : Z → list byte) (conv : list byte → Z) put :
  0 < size → (∀ m n, put m n = put_slice m (enc n)) → (∀ n, zlen (enc n) = size) →
  (∀ n, conv (enc n) = n mod 2 ^ (8 * size)) →
  codec_ok (i_codec size put (buf_get_impl size (λ bs, wrap_signed (8 * zlen bs) (conv bs)))).
Proof.
  intros Hs Hp Hl Hc. apply (codec_ok_impl size _ enc); [lia|done|done|].
  intros n Hn. cbv beta. rewrite Hc, Hl. by apply i_wrap_roundtrip.
Qed.

Lemma codec_ok_u8 : codec_ok (u_codec 1 put_u8 get_u8).
Proof.
  intros m n Hm Hr [? ?]. cbn in *. apply writes_back_slice; [done|done|done|].
  intros b Hb Hle E. destruct (getter_ok_u8 b Hb) as [H1 _].
  destruct (H1 Hle) as [H2 _]. cbn in H2. rewrite E in H2.
  replace (u_from_be_bytes [u8_of_Z n]) with n in H2; [done|].
  change (n = u8_to_Z (u8_of_Z n) + 256 * 0). rewrite u8_to_Z_of_Z, Z.mod_small by lia. lia.
Qed.

Lemma codec_ok_i8 : codec_ok (i_codec 1 put_i8 get_i8).
Proof.
  intros m n Hm Hr Hn. cbn in *. apply writes_back_slice; [done|done|done|].
  intros b Hb Hle E. destruct (getter_ok_i8 b Hb) as [H1 _].
  destruct (H1 Hle) as [H2 _]. cbn in H2. rewrite E in H2.
  replace (i_from_be_bytes [u8_of_Z n]) with n in H2; [done|].
  unfold i_from_be_bytes. change (n = wrap_signed 8 (u8_to_Z (u8_of_Z n) + 256 * 0)).
  rewrite u8_to_Z_of_Z, Z.add_0_r. symmetry. by apply (i_wrap_roundtrip 1).
Qed.

(** Closes one entry of the table: the encoder and the decoder of one byte order. *)
Ltac codec_entry :=
  first
    [ eapply u_codec_ok | eapply i_codec_ok ];
  [ lia | intros; reflexivity | intros; autorewrite with zlen; reflexivity
  | intros; first [apply u_from_to_be | apply u_from_to_le | apply u_from_to_ne]; lia ].

Lemma fixed_codecs_ok : Forall codec_ok fixed_codecs.
Proof.
  unfold fixed_codecs. apply Forall_cons. split; [apply codec_ok_u8|].
  apply Forall_cons. split; [apply codec_ok_i8|].
  repeat (apply Forall_cons; split; [codec_entry|]). apply Forall_nil_2.
Qed.

(** ** The variable-width pairs *)
Lemma to_be_slice n k : 0 <= k <= 8 → slice_range (to_be_bytes 8 n) (8 - k) 8 = Ret (to_be_bytes k n).
Proof.
  intros. rewrite slice_range_ok by zlia. rewrite ztake_ge by zlia.
  rewrite zdrop_to_be_bytes by lia. do 2 f_equal. lia.
Qed.

Lemma put_uint_is_slice (m : M) n k :
  0 <= k <= 8 →
  put_uint m n k = put_slice m (to_be_bytes k n) ∧ put_uint_le m n k = put_slice m (to_le_bytes k n) ∧
  put_int m n k = put_slice m (to_be_bytes k n) ∧ put_int_le m n k = put_slice m (to_le_bytes k n).
Proof.
  intros Hk. unfold put_uint, put_int, put_uint_le, put_int_le.
  rewrite checked_sub_Some, to_be_slice, bind_ret, slice_get_ok, zdrop_0, ztake_to_le_bytes by zlia.
  done.
Qed.

Lemma put_uint_nofit (m : M) n k :
  8 < k →
  put_uint m n k = Fault (PanicDoesNotFit k 8) ∧ put_uint_le m n k = Fault (PanicDoesNotFit k 8) ∧
  put_int m n k = Fault (PanicDoesNotFit k 8) ∧ put_int_le m n k = Fault (PanicDoesNotFit k 8).
Proof.
  intros Hk. unfold put_uint, put_int, put_uint_le, put_int_le.
  rewrite checked_sub_None, slice_get_None, zlen_to_le_bytes by zlia. done.
Qed.

Lemma uint_writes_back (m : M) n k :
  minv m → 0 <= k <= 8 → k <= mroom m →
  writes_back m k (n mod 2 ^ (8 * k)) (put_uint m n k) (λ b, get_uint b k) ∧
  writes_back m k (n mod 2 ^ (8 * k)) (put_uint_le m n k) (λ b, get_uint_le b k).
Proof.
  intros Hm Hk Hr. destruct (put_uint_is_slice m n k Hk) as (-> & -> & _).
  split; apply writes_back_slice; try done; try (by autorewrite with zlen); intros b Hb Hle E.
  - rewrite <- u_from_to_be, <- E by lia. by apply get_uint_ok.
  - rewrite <- u_from_to_le, <- E by lia. by apply get_uint_ok.
Qed.

Lemma int_writes_back (m : M) n k :
  minv m → 1 <= k <= 8 → k <= mroom m → is_signed k n →
  writes_back m k n (put_int m n k) (λ b, get_int b k) ∧
  writes_back m k n (put_int_le m n k) (λ b, get_int_le b k).
Proof.
  intros Hm Hk Hr Hn. destruct (put_uint_is_slice m n k) as (_ & _ & -> & ->); [lia|].
  split; apply writes_back_slice; try done; try (autorewrite with zlen; lia); intros b Hb Hle E.
  - destruct (get_int_ok k b Hb Hk Hle) as [H _]. rewrite E in H. unfold i_from_be_bytes in H.
    rewrite u_from_to_be, zlen_to_be_bytes, i_wrap_roundtrip in H by (done || lia). done.
  - destruct (get_int_ok k b Hb Hk Hle) as [_ H]. rewrite E in H. unfold i_from_le_bytes in H.
    rewrite u_from_to_le, zlen_to_le_bytes, i_wrap_roundtrip in H by (done || lia). done.
Qed.

End codecs.
