(* ===== verification/BufMutProps.v ===== *)
(** * BufMutProps: the properties of the writing half of the crate

    Statements on [BufMut], its implementations and the round trips with [Buf],
    from the lemmas of BufMut.v, BufMutSinks.v, BufMutAdapters.v and Codec.v. *)

From S2P Require Import Prelude Machine Buf BufSpec BufSources BufAdapters.
From S2P Require Import BufMut BufMutSinks BufMutAdapters Codec.

(** C21: the default loops of [put], [put_slice] and [put_bytes].  On any sink whose
    required methods keep the contract the loops end and write exactly the bytes
    given, and [put] drains its source; when [remaining_mut] is too small they panic
    with both sizes before anything is written. *)
Theorem bufmut_default_loops_correct {M B : Type} `{HM : !BufMut M, LM : !BufMutLaws M}
    `{HB : !Buf B, LB : !BufLaws B} (m : M) (src : B) (bs : list byte) val cnt :
  minv m → binv src → 0 <= cnt →
  (zlen bs <= mroom m → ∃ m', put_slice_default m bs = Ret m' ∧ mwrote m bs m') ∧
  (cnt <= mroom m → ∃ m', put_bytes_default m val cnt = Ret m' ∧ mwrote m (zreplicate cnt val) m') ∧
  (zlen (bview src) <= mroom m →
     ∃ m' src', put_default m src = Ret (m', src') ∧ mwrote m (bview src) m' ∧ bview src' = []) ∧
  (remaining_mut m < zlen (bview src) →
     put_default m src = Fault (PanicAdvance (zlen (bview src)) (remaining_mut m))) ∧
  (remaining_mut m < zlen bs →
     put_slice_default m bs = Fault (PanicAdvance (zlen bs) (remaining_mut m))) ∧
  (remaining_mut m < cnt → put_bytes_default m val cnt = Fault (PanicAdvance cnt (remaining_mut m))).
Proof.
  intros Hm Hb Hc. repeat split.
  - by apply (put_slice_default_ok mcore).
  - intros. by apply (put_bytes_default_ok mcore).
  - intros Hr. destruct (put_default_ok mcore m src Hm Hb Hr) as (m' & src' & ? & ? & ? & ?).
    by exists m', src'.
  - intros Hr. unfold put_default. by rewrite remaining_view, (proj2 (Z.ltb_lt _ _)) by done.
  - intros Hr. unfold put_slice_default. by rewrite (proj2 (Z.ltb_lt _ _)).
  - intros Hr. unfold put_bytes_default. by rewrite (proj2 (Z.ltb_lt _ _)).
Qed.

Lemma bufmut_default_loops_correct_witness :
  ∃ m', put_slice_default (Build_SliceMut (e := MaybeUninit) [] [None; None; None]) [x01; x02]
        = Ret m' ∧ mwrote (Build_SliceMut [] [None; None; None]) [x01; x02] m'.
Proof.
  refine (proj1 (bufmut_default_loops_correct (B := list byte)
    (Build_SliceMut (e := MaybeUninit) [] [None; None; None]) [] [x01; x02] x00 0 _ _ _) _); done.
Defined.

(** C22: every putter is undone by the getter of the same name.  On any lawful sink with
    room, [put_x] of fixed width writes the bytes from which [get_x], on any lawful source
    that holds them next, contiguous or not, returns the number.  [put_uint] then
    [get_uint] gives the number modulo [2^(8 * nbytes)], [put_int] then [get_int] gives back
    any number that fits [nbytes] bytes, in both byte orders and in the target's; above 8 bytes the putters
    panic, naming [nbytes] as the size of the type and 8 as [nbytes]. *)
Theorem put_get_roundtrip `{T : Target} {M B : Type} `{HM : !BufMut M, LM : !BufMutLaws M}
    `{HB : !Buf B, LB : !BufLaws B} :
  Forall codec_ok (fixed_codecs (M := M) (B := B)) ∧
  ∀ (m : M) n k, minv m → 0 <= k →
    (k <= 8 → k <= mroom m →
       writes_back (B := B) m k (n mod 2 ^ (8 * k)) (put_uint m n k) (λ b, get_uint b k) ∧
       writes_back (B := B) m k (n mod 2 ^ (8 * k)) (put_uint_le m n k) (λ b, get_uint_le b k) ∧
       writes_back (B := B) m k (n mod 2 ^ (8 * k)) (put_uint_ne m n k) (λ b, get_uint_ne b k)) ∧
    (1 <= k <= 8 → k <= mroom m → is_signed k n →
       writes_back (B := B) m k n (put_int m n k) (λ b, get_int b k) ∧
       writes_back (B := B) m k n (put_int_le m n k) (λ b, get_int_le b k) ∧
       writes_back (B := B) m k n (put_int_ne m n k) (λ b, get_int_ne b k)) ∧
    (8 < k →
       put_uint m n k = Fault (PanicDoesNotFit k 8) ∧ put_uint_le m n k = Fault (PanicDoesNotFit k 8) ∧
       put_int m n k = Fault (PanicDoesNotFit k 8) ∧ put_int_le m n k = Fault (PanicDoesNotFit k 8) ∧
       put_uint_ne m n k = Fault (PanicDoesNotFit k 8) ∧ put_int_ne m n k = Fault (PanicDoesNotFit k 8)).
Proof.
  split; [apply fixed_codecs_ok|]. intros m n k Hm Hk. split; [|split].
  - intros H1 H2. destruct (uint_writes_back (B := B) m n k Hm ltac:(lia) H2) as [Hbe Hle].
    split; [done|]. split; [done|]. unfold put_uint_ne, get_uint_ne. by destruct target_endian_big.
  - intros H1 H2 H3. destruct (int_writes_back (B := B) m n k Hm H1 H2 H3) as [Hbe Hle].
    split; [done|]. split; [done|]. unfold put_int_ne, get_int_ne. by destruct target_endian_big.
  - intros H. destruct (put_uint_nofit m n k H) as (H1 & H2 & H3 & H4). do 4 (split; [done|]).
    unfold put_uint_ne, put_int_ne. by destruct target_endian_big.
Qed.



Lemma writer_prefix {M : Type} `{HM : !BufMut M, LM : !BufMutLaws M} (m : M) src :
  minv m → mroom m = remaining_mut m →
  let n := Z.min (remaining_mut m) (zlen src) in
  ∃ w', writer_write (writer_new m) src = Ret (n, w') ∧
        mwrite m (ztake n src) (writer_into_inner w') ∧
        remaining_mut (writer_into_inner w') = remaining_mut m - n.
Proof.
  intros Hm Hr n. pose proof (ml_room _ _ _ mcore _ Hm).
  destruct (writer_write_ok (writer_new m) src Hm) as (w' & E & Hi & Hw & _); [cbn; lia|].
  exists w'. split; [done|]. split; [done|].
  unfold writer_into_inner. rewrite (ml_write_remaining _ _ _ mcore _ _ _ Hm Hw). cbn.
  rewrite zlen_take; [done|]. pose_zlen. lia.
Qed.

(** C24: writing through the adapters.  Writing [bs] into [a.chain_mut(b)] fills [a]
    completely before the rest goes to [b]; writing into [a.limit(n)] writes to [a]
    and never more than [n] bytes.  [Writer::write] accepts as many bytes as the sink still
    takes, writes exactly that prefix and reports its length; on a full sink it writes
    nothing.  A sink replaced through [get_mut] stays under the same limit. *)
Theorem chain_limit_mut_correct `{T : Target} {A B : Type}
    `{HA : !BufMut A, HB : !BufMut B, LA : !BufMutLaws A, LB : !BufMutLaws B}
    (a : A) (b : B) limit bs :
  minv a → minv b → remaining_mut a + remaining_mut b <= usize_max → 0 <= limit →
  (zlen bs <= chain_room (Build_Chain a b) →
     ∃ c', put_slice (buf_chain_mut a b) bs = Ret c' ∧
       let k := Z.min (zlen bs) (remaining_mut a) in
       mwrite a (ztake k bs) (chain_a c') ∧ mwrite b (zdrop k bs) (chain_b c')) ∧
  (zlen bs <= Z.min (mroom a) limit →
     ∃ l', put_slice (buf_limit a limit) bs = Ret l' ∧
       mwrite a bs (limit_into_inner l') ∧ limit_limit l' = limit - zlen bs) ∧
  (limit < zlen bs → ∃ f, put_slice (buf_limit a limit) bs = Fault f) ∧
  (∀ a' : A, limit_remaining_mut (give_back (limit_get_mut (buf_limit a limit)) a') = Z.min (remaining_mut a') limit) ∧
  (mroom a = remaining_mut a →
     let n := Z.min (remaining_mut a) (zlen bs) in
     ∃ w', writer_write (buf_writer a) bs = Ret (n, w') ∧ mwrite a (ztake n bs) (writer_into_inner w') ∧
       remaining_mut (writer_get_ref w') = remaining_mut a - n ∧ writer_flush w' = Ok tt).
Proof.
  intros Ha Hb Hs Hl. split; [|split; [|split; [|split; [done|]]]].
  - intros Hr. destruct (put_slice_ok (chain_new a b) bs) as (c' & E & _ & Hw & _); [by split|done|].
    exists c'. split; [done|]. destruct Hw as (b1 & b2 & -> & H1 & H2 & Hd). cbn in *.
    pose proof (ml_write_bound _ _ _ mcore _ _ _ Ha H1).
    assert (Z.min (zlen (b1 ++ b2)) (remaining_mut a) = zlen b1) as ->.
    { rewrite zlen_app. pose_zlen. destruct Hd as [-> | Hd]; [rewrite zlen_nil|]; lia. }
    by rewrite ztake_app_exact, zdrop_app_exact.
  - intros Hr. destruct (put_slice_ok (limit_new a limit) bs) as (l' & E & _ & (Hw & _ & Hl') & _);
      [by split|done|]. exists l'. done.
  - intros Hr. apply (put_slice_past (limit_new a limit)); [by split|]. cbn.
    unfold limit_remaining_mut. cbn. lia.
  - intros Hr n. destruct (writer_prefix a bs Ha Hr) as (w' & E1 & E2 & E3). by exists w'.
Qed.

Lemma chain_limit_mut_correct_witness :
  ∃ l', put_slice (BufMut := limit_bufmut (T := riscv64))
          (buf_limit (Build_SliceMut (e := U8) [] [Some x00; Some x00]) 1) [x07] = Ret l' ∧
    mwrite (Build_SliceMut (e := U8) [] [Some x00; Some x00]) [x07] (limit_into_inner l') ∧
    limit_limit l' = 0.
Proof.
  destruct (chain_limit_mut_correct (T := riscv64) (Build_SliceMut (e := U8) [] [Some x00; Some x00])
    (Build_SliceMut (e := U8) [] []) 1 [x07]) as (_ & H & _); [done|done|done|done|]. by apply H.
Defined.
