(* ===== verification/Loom.v ===== *)
(** * Loom: the single-threaded atomics (src/patches/bytes/src/loom.rs)

    On riscv64 the patched crate replaces [AtomicUsize] and [AtomicPtr] by an
    [UnsafeCell] that is read and written in separate steps.  A method is a program
    of such steps ([cell_prog]); [run] executes it alone and [pool_step] interleaves
    the steps of several threads over one cell.  The reference is [atomic_op], the
    behaviour [core::sync::atomic] promises for one indivisible operation. *)

From S2P Require Import Prelude Machine.
From stdpp Require Import relations.
Open Scope Z_scope.

(** ** Programs over one cell *)
Inductive cell_prog (V R : Type) :=
| Done (r : R)
| Read (k : V → cell_prog V R)
| Write (v : V) (k : cell_prog V R).
Arguments Done {V R} r.
Arguments Read {V R} k.
Arguments Write {V R} v k.

Fixpoint run {V R} (p : cell_prog V R) (c : V) : R * V :=
  match p with
  | Done r => (r, c)
  | Read k => run (k c) c
  | Write v k => run k v
  end.

(** ** The shim *)
Section shim.
Context {V : Type} `{EqDecision V}.

(** The answer of an atomic method. *)
Inductive response :=
| RUnit
| RVal (v : V)
| RExchange (r : result V V).

Definition atomic_load : cell_prog V response := Read (λ v, Done (RVal v)).
Definition atomic_store (v : V) : cell_prog V response := Write v (Done RUnit).
Definition atomic_compare_exchange (current new : V) : cell_prog V response :=
  Read (λ old,
    if decide (old = current) then Write new (Done (RExchange (Ok old)))
    else Done (RExchange (Err old))).
End shim.
Arguments response V : clear implicits.

(** [AtomicUsize] only: [wrapping_add] and [wrapping_sub]. *)
Definition atomic_fetch_add `{T : Target} (v : Z) : cell_prog Z (response Z) :=
  Read (λ old, Write (wrap_unsigned ptr_width (old + v)) (Done (RVal old))).
Definition atomic_fetch_sub `{T : Target} (v : Z) : cell_prog Z (response Z) :=
  Read (λ old, Write (wrap_unsigned ptr_width (old - v)) (Done (RVal old))).

(** [AtomicMut::with_mut] of an [AtomicPtr]: the closure gets the cell itself, through
    [get_mut]; [f] gives its result and the word it leaves there. *)
Definition ptr_with_mut {P R : Type} (f : P → R * P) : cell_prog P R :=
  Read (λ old, let '(r, new) := f old in Write new (Done r)).

(** ** The reference: one indivisible operation *)

(** The methods of an atomic type over cells of [V]: the program of each, and what it
    promises as one indivisible step. *)
Class AtomicOps (V Op : Type) := {
  shim : Op → cell_prog V (response V);
  atomic_op : Op → V → response V * V;
  run_shim o c : run (shim o) c = atomic_op o c;
}.

Inductive usize_op :=
| OpLoad
| OpStore (v : Z)
| OpFetchAdd (v : Z)
| OpFetchSub (v : Z)
| OpCompareExchange (current new : Z).

Inductive ptr_op (P : Type) :=
| PtrLoad
| PtrStore (v : P)
| PtrCompareExchange (current new : P)
| PtrWithMut (f : P → response P * P).
Arguments PtrLoad {P}.
Arguments PtrStore {P} v.
Arguments PtrCompareExchange {P} current new.
Arguments PtrWithMut {P} f.

Definition usize_shim `{T : Target} (o : usize_op) : cell_prog Z (response Z) :=
  match o with
  | OpLoad => atomic_load
  | OpStore v => atomic_store v
  | OpFetchAdd v => atomic_fetch_add v
  | OpFetchSub v => atomic_fetch_sub v
  | OpCompareExchange current new => atomic_compare_exchange current new
  end.

Definition ptr_shim {P} `{EqDecision P} (o : ptr_op P) : cell_prog P (response P) :=
  match o with
  | PtrLoad => atomic_load
  | PtrStore v => atomic_store v
  | PtrCompareExchange current new => atomic_compare_exchange current new
  | PtrWithMut f => ptr_with_mut f
  end.

#[export] Instance usize_atomic `{T : Target} : AtomicOps Z usize_op.
Proof.
  refine {| shim := usize_shim; atomic_op := λ o c,
    match o with
    | OpLoad => (RVal c, c)
    | OpStore v => (RUnit, v)
    | OpFetchAdd v => (RVal c, (c + v) mod 2 ^ ptr_width)
    | OpFetchSub v => (RVal c, (c - v) mod 2 ^ ptr_width)
    | OpCompareExchange current new =>
      if c =? current then (RExchange (Ok c), new) else (RExchange (Err c), c)
    end |}.
  intros o c. destruct o; try done. cbn.
  destruct (decide (c = current)) as [->|Hne]; [by rewrite Z.eqb_refl|].
  by rewrite (proj2 (Z.eqb_neq _ _)).
Defined.

#[export] Instance ptr_atomic {P} `{EqDecision P} : AtomicOps P (ptr_op P).
Proof.
  refine {| shim := ptr_shim; atomic_op := λ o c,
    match o with
    | PtrLoad => (RVal c, c)
    | PtrStore v => (RUnit, v)
    | PtrCompareExchange current new =>
      if bool_decide (c = current) then (RExchange (Ok c), new) else (RExchange (Err c), c)
    | PtrWithMut f => f c
    end |}.
  intros o c. destruct o as [| |current new|f]; try done; cbn; [|by destruct (f c)].
  by destruct (decide (c = current)); case_bool_decide.
Defined.

Section refs.
Context {V Op : Type} `{HA : !AtomicOps V Op}.

(** ** Threads *)

(** A thread runs the operation in hand, then the others; [th_log] holds the
    answers, latest first. *)
Record thread := {
  th_now : option (cell_prog V (response V));
  th_todo : list Op;
  th_log : list (response V);
}.

Definition spawn (ops : list Op) : thread :=
  {| th_now := None; th_todo := ops; th_log := [] |}.

Inductive thread_step : V * thread → V * thread → Prop :=
| TStart c o ops log :
    thread_step (c, {| th_now := None; th_todo := o :: ops; th_log := log |})
                (c, {| th_now := Some (shim o); th_todo := ops; th_log := log |})
| TRead c k ops log :
    thread_step (c, {| th_now := Some (Read k); th_todo := ops; th_log := log |})
                (c, {| th_now := Some (k c); th_todo := ops; th_log := log |})
| TWrite c v k ops log :
    thread_step (c, {| th_now := Some (Write v k); th_todo := ops; th_log := log |})
                (v, {| th_now := Some k; th_todo := ops; th_log := log |})
| TReturn c r ops log :
    thread_step (c, {| th_now := Some (Done r); th_todo := ops; th_log := log |})
                (c, {| th_now := None; th_todo := ops; th_log := r :: log |}).

(** One step of the pool: one of its threads moves. *)
Inductive pool_step : V * list thread → V * list thread → Prop :=
| PStep c c' i ts t t' :
    ts !! i = Some t → thread_step (c, t) (c', t') → pool_step (c, ts) (c', <[i := t']> ts).

Definition finished (t : thread) : Prop := th_now t = None ∧ th_todo t = [].

(** The answers and the final cell when the operations happen one after the
    other, each indivisibly. *)
Fixpoint atomic_ops (ops : list Op) (log : list (response V)) (c : V) :
    list (response V) * V :=
  match ops with
  | [] => (log, c)
  | o :: ops => let '(r, c) := atomic_op o c in atomic_ops ops (r :: log) c
  end.

(** What a thread left alone will end with. *)
Definition forecast (c : V) (t : thread) : list (response V) * V :=
  match th_now t with
  | None => atomic_ops (th_todo t) (th_log t) c
  | Some p => let '(r, c) := run p c in atomic_ops (th_todo t) (r :: th_log t) c
  end.

Lemma thread_step_forecast c t c' t' :
  thread_step (c, t) (c', t') → forecast c' t' = forecast c t.
Proof.
  intros H. inversion H; subst; try done. unfold forecast. cbn. rewrite run_shim.
  by destruct (atomic_op o c').
Qed.

Lemma prog_runs p c ops log :
  rtc thread_step (c, {| th_now := Some p; th_todo := ops; th_log := log |})
    (let '(r, c') := run p c in (c', {| th_now := None; th_todo := ops; th_log := r :: log |})).
Proof.
  revert c. induction p as [r|k IH|v k IH]; intros c; cbn.
  - apply rtc_once, TReturn.
  - eapply rtc_l; [apply TRead|apply IH].
  - eapply rtc_l; [apply TWrite|apply IH].
Qed.

Lemma thread_runs ops c log :
  ∃ t', rtc thread_step (c, {| th_now := None; th_todo := ops; th_log := log |})
          (snd (atomic_ops ops log c), t') ∧ finished t' ∧ th_log t' = fst (atomic_ops ops log c).
Proof.
  revert c log. induction ops as [|o ops IH]; intros c log; cbn.
  { eexists. split; [apply rtc_refl|done]. }
  destruct (atomic_op o c) as [r c'] eqn:E. destruct (IH c' (r :: log)) as (t' & Hs & Hf & Hl).
  exists t'. split; [|done]. eapply rtc_l; [apply TStart|].
  etrans; [apply prog_runs|]. by rewrite run_shim, E.
Qed.

(** From any state a thread left alone runs to its end. *)
Lemma thread_finishes c t : ∃ c' t', rtc thread_step (c, t) (c', t') ∧ finished t'.
Proof.
  destruct t as [[p|] ops log].
  - pose proof (prog_runs p c ops log) as Hp. destruct (run p c) as [r c1].
    destruct (thread_runs ops c1 (r :: log)) as (t' & Hr & Hf & _). eexists _, t'.
    split; [by etrans|done].
  - destruct (thread_runs ops c log) as (t' & Hr & Hf & _). by eexists _, t'.
Qed.

Lemma rtc_pool_single_inv c t s :
  rtc pool_step (c, [t]) s → ∃ c' t', s = (c', [t']) ∧ rtc thread_step (c, t) (c', t').
Proof.
  intros H. remember (c, [t]) as s0 eqn:Es. revert c t Es.
  induction H as [s|s0 s1 s2 Hstep _ IH]; intros c t ->; [by exists c, t; eauto using rtc_refl|].
  inversion Hstep as [c0 c1 i ts t0 t1 Hi Ht Ec]; subst.
  destruct i as [|i]; [|done]. injection Hi as ->. cbn in IH.
  destruct (IH c1 t1 eq_refl) as (c' & t' & -> & Hr). exists c', t'. split; [done|].
  by eapply rtc_l.
Qed.

Lemma rtc_pool_single c t c' t' :
  rtc thread_step (c, t) (c', t') → rtc pool_step (c, [t]) (c', [t']).
Proof.
  intros H. remember (c, t) as s0 eqn:E0. remember (c', t') as s1 eqn:E1. revert c t E0.
  induction H as [s|s0 s1' s2 Hstep _ IH]; intros c t ->; [by simplify_eq; apply rtc_refl|].
  destruct s1' as [c1 t1]. eapply rtc_l; [|by apply IH].
  by apply (PStep c c1 0 [t] t t1).
Qed.

Lemma rtc_thread_forecast s s' :
  rtc thread_step s s' → forecast (fst s') (snd s') = forecast (fst s) (snd s).
Proof.
  induction 1 as [|[c t] [c' t'] s2 Hs _ IH]; [done|]. rewrite IH. cbn. by eapply thread_step_forecast.
Qed.

End refs.

(** Two threads that each add one to a counter at 0 can both return 0 and leave the counter
    at 1, which no order of two indivisible operations does. *)
Lemma shim_loses_updates :
  ∃ t1 t2,
    rtc (pool_step (HA := usize_atomic (T := riscv64))) (0, [spawn [OpFetchAdd 1]; spawn [OpFetchAdd 1]]) (1, [t1; t2]) ∧
    finished t1 ∧ finished t2 ∧ th_log t1 = [RVal 0] ∧ th_log t2 = [RVal 0] ∧
    snd (atomic_ops (HA := usize_atomic (T := riscv64)) [OpFetchAdd 1; OpFetchAdd 1] [] 0) = 2.
Proof.
  exists {| th_now := None; th_todo := []; th_log := [RVal 0] |},
         {| th_now := None; th_todo := []; th_log := [RVal 0] |}.
  split; [|repeat split; done].
  do 2 (eapply rtc_l; [eapply (PStep _ _ 0); [reflexivity|constructor]|]; cbn).
  do 4 (eapply rtc_l; [eapply (PStep _ _ 1); [reflexivity|constructor]|]; cbn).
  do 2 (eapply rtc_l; [eapply (PStep _ _ 0); [reflexivity|constructor]|]; cbn).
  apply rtc_refl.
Qed.

Section single_thread.
Context {V Op : Type} `{HA : !AtomicOps V Op}.

(** An execution by one thread. *)
Definition single_thread_atomic : Prop := ∀ ops c s,
  rtc pool_step (c, [spawn ops]) s →
  ∃ c' t', s = (c', [t']) ∧
    (finished t' → (th_log t', c') = atomic_ops ops [] c) ∧
    (∃ c'' t'', rtc pool_step s (c'', [t'']) ∧ finished t'').

Lemma single_thread_ok : single_thread_atomic.
Proof.
  intros ops c s Hr. apply rtc_pool_single_inv in Hr as (c1 & t1 & -> & Hr).
  exists c1, t1. split; [done|]. split.
  - intros [Hn Ht]. apply rtc_thread_forecast in Hr. cbn in Hr.
    unfold forecast in Hr. rewrite Hn, Ht in Hr. by cbn in Hr.
  - destruct (thread_finishes c1 t1) as (c' & t' & Hr' & Hf). exists c', t'.
    split; [by apply rtc_pool_single|done].
Qed.

End single_thread.

(** C26: with one thread the shim is atomic, and with two it is not.  Every execution of
    the patched [AtomicUsize] or [AtomicPtr] by a single thread that runs to the end leaves
    the cell and the answers of the indivisible operations in order, and no execution gets
    stuck: from every state it reaches the thread can go on to the end.  So the patch is
    sound on the single-threaded CKB-VM.  But two threads that each add one to a counter at
    0 can both return 0 and leave the counter at 1: a reference count kept in the shim
    would be wrong on a multi-threaded target. *)
Theorem shim_single_thread_atomic `{T : Target} {P : Type} `{EqDecision P} :
  single_thread_atomic (HA := usize_atomic) ∧ single_thread_atomic (HA := ptr_atomic (P := P)) ∧
  (∃ t1 t2,
    rtc (pool_step (HA := usize_atomic (T := riscv64))) (0, [spawn [OpFetchAdd 1]; spawn [OpFetchAdd 1]]) (1, [t1; t2]) ∧
    finished t1 ∧ finished t2 ∧ th_log t1 = [RVal 0] ∧ th_log t2 = [RVal 0] ∧
    snd (atomic_ops (HA := usize_atomic (T := riscv64)) [OpFetchAdd 1; OpFetchAdd 1] [] 0) = 2).
Proof. split; [apply single_thread_ok|]. split; [apply single_thread_ok|exact shim_loses_updates]. Qed.

Lemma shim_single_thread_atomic_witness :
  ∃ c' t', (5, [spawn [OpFetchAdd 1]]) = (c', [t']) ∧
    (finished t' → (th_log t', c') = atomic_ops (HA := usize_atomic (T := riscv64)) [OpFetchAdd 1] [] 5) ∧
    (∃ c'' t'', rtc (pool_step (HA := usize_atomic (T := riscv64))) (5, [spawn [OpFetchAdd 1]]) (c'', [t'']) ∧ finished t'').
Proof.
  destruct (shim_single_thread_atomic (T := riscv64) (P := Z)) as (H & _).
  apply (H [OpFetchAdd 1] 5). apply rtc_refl.
Defined.
