(* ===== verification/Heap.v ===== *)
(** * Heap: the memory under [Bytes] and [BytesMut]

    A heap maps allocation numbers to cells: byte buffers, whose bytes may be
    uninitialised, the two kinds of [Shared] boxes and the [Owned] boxes
    (src/patches/bytes/src/bytes.rs and bytes_mut.rs).  Numbers are never reused, so a pointer kept past its
    allocation is caught.  [HM] is the monad of code that runs over a heap; an access
    that the unsafe code must never make is [Fault UndefinedBehaviour].

    Where an allocation lies in the address space is up to the allocator, an
    interface ([Allocator]); the code looks at addresses only through their lowest bit
    and for pointer equality. *)

From S2P Require Import Prelude Machine Loom.
From stdpp Require Export gmap.
Open Scope Z_scope.

(** [alloc::alloc]: buffers of bytes have no alignment; a box of a [Shared] is
    aligned to a multiple of two, which the crate checks at compile time. *)
Class Allocator := {
  block_addr : nat → Z;
  obj_addr : nat → Z;
  block_addr_pos l : 0 < block_addr l;
  obj_addr_pos l : 0 < obj_addr l;
  obj_addr_even l : Z.land (obj_addr l) 1 = 0;
}.

(** A [&'static [u8]], or a dangling reference to no bytes. *)
Record static_slice := { st_addr : Z; st_bytes : list byte }.

#[export] Instance static_slice_eq_dec : EqDecision static_slice.
Proof. solve_decision. Defined.

(** A raw pointer: into a buffer, into static data, to a box, or an address without
    provenance. *)
Inductive ptr :=
| PHeap (l : nat) (off : Z)
| PStatic (s : static_slice) (off : Z)
| PObj (l : nat)
| PAddr (a : Z).

#[export] Instance ptr_eq_dec : EqDecision ptr.
Proof. solve_decision. Defined.

(** A [Vec<u8>]: its buffer, length and capacity; capacity 0 has no buffer. *)
Record hvec := { hv_ptr : ptr; hv_len : Z; hv_cap : Z }.

(** [struct Shared] of bytes.rs. *)
Record shared := { sh_buf : ptr; sh_cap : Z; sh_ref_cnt : Z }.

(** [struct Shared] of bytes_mut.rs. *)
Record shared_v := { sv_vec : hvec; sv_original_capacity_repr : Z; sv_ref_count : Z }.

(** [struct Owned<T>] of bytes.rs.  The type parameter [T] stands for user code; an owner
    here is a value that owns a vector, the memory it lends and frees when it is
    dropped. *)
Record owned := { ow_ref_cnt : Z; ow_owner : hvec }.

Inductive cell :=
| CBlock (data : list (option byte))
| CShared (s : shared)
| CSharedV (s : shared_v)
| COwned (s : owned).

Record heap := { cells : gmap nat cell; next_loc : nat }.

Definition empty_heap : heap := {| cells := ∅; next_loc := 0%nat |}.

(** ** The monad *)
Definition HM (A : Type) : Type := heap → outcome (A * heap).

#[export] Instance HM_ret : MRet HM := λ A a h, Ret (a, h).
#[export] Instance HM_bind : MBind HM :=
  λ A B k m h, match m h with Ret (a, h') => k a h' | Fault f => Fault f end.

Definition lift {A} (m : outcome A) : HM A :=
  λ h, match m with Ret a => Ret (a, h) | Fault f => Fault f end.

Definition hfault {A} (f : fault) : HM A := λ _, Fault f.
Definition ub {A} : HM A := hfault UndefinedBehaviour.

Lemma hm_bind_Ret {A B} (m : HM A) (k : A → HM B) h a h' :
  m h = Ret (a, h') → (m ≫= k) h = k a h'.
Proof. unfold mbind, HM_bind. by intros ->. Qed.

Lemma hm_bind_Fault {A B} (m : HM A) (k : A → HM B) h f :
  m h = Fault f → (m ≫= k) h = Fault f.
Proof. unfold mbind, HM_bind. by intros ->. Qed.

Lemma hm_bind_inv {A B} (m : HM A) (k : A → HM B) h r :
  (m ≫= k) h = Ret r → ∃ a h', m h = Ret (a, h') ∧ k a h' = Ret r.
Proof. unfold mbind, HM_bind. destruct (m h) as [[a h']|]; [eauto|done]. Qed.

Lemma hm_bind_assoc {A B C} (m : HM A) (k : A → HM B) (k' : B → HM C) h :
  ((m ≫= k) ≫= k') h = (m ≫= (λ x, k x ≫= k')) h.
Proof. unfold mbind, HM_bind. by destruct (m h) as [[? ?]|]. Qed.

Lemma hm_bind_mret {A B} (a : A) (k : A → HM B) h : ((mret a : HM A) ≫= k) h = k a h.
Proof. done. Qed.

Lemma hm_bind_lift {A B} (a : A) (k : A → HM B) h : (lift (Ret a) ≫= k) h = k a h.
Proof. done. Qed.

(** Runs the first step of a sequence whose result is known. *)
Ltac hstep H := rewrite (hm_bind_Ret _ _ _ _ _ H).
Ltac hret := rewrite ?hm_bind_mret, ?hm_bind_lift.

(** Takes apart a run [E] that returns, step by step. *)
Ltac hm_inv E := repeat match type of E with
  | (_ ≫= _) _ = Ret _ => apply hm_bind_inv in E as (? & ? & ? & E)
  | (let '(_, _) := ?p in _) _ = Ret _ => destruct p
  | match ?v with _ => _ end _ = Ret _ => destruct v
  end; unfold mret, HM_ret in E; simplify_eq/=.

(** ** Pointers *)
Section pointers.
Context `{A : Allocator}.

Definition ptr_addr (p : ptr) : Z :=
  match p with
  | PHeap l off => block_addr l + off
  | PStatic s off => st_addr s + off
  | PObj l => obj_addr l
  | PAddr a => a
  end.

(** [p.wrapping_add(n)] and [p.add(n)]; the pointers of this crate stay within or one
    past their allocation, where neither wraps. *)
Definition ptr_add (p : ptr) (n : Z) : ptr :=
  match p with
  | PHeap l off => PHeap l (off + n)
  | PStatic s off => PStatic s (off + n)
  | PObj l => PObj l
  | PAddr a => PAddr (a + n)
  end.

(** [p.offset_from(q) as usize]: both must point into the same allocation, [p] not
    before [q]. *)
Definition offset_from (p q : ptr) : HM Z :=
  match p, q with
  | PHeap l i, PHeap l' j => if bool_decide (l = l') && (j <=? i) then mret (i - j) else ub
  | PAddr a, PAddr a' => if a =? a' then mret 0 else ub
  | _, _ => ub
  end.

(** [ptr_map(p, f)]: the pointer moved to the address [f(p as usize)]. *)
Definition ptr_map (p : ptr) (f : Z → Z) : ptr :=
  let old_addr := ptr_addr p in
  let new_addr := f old_addr in
  ptr_add p (new_addr - old_addr).

(** [p == q]: equal addresses. *)
Definition ptr_eqb (p q : ptr) : bool := ptr_addr p =? ptr_addr q.

End pointers.

(** ** Buffers *)
Definition heap_insert (l : nat) (c : cell) (h : heap) : heap :=
  {| cells := <[l := c]> (cells h); next_loc := next_loc h |}.
Definition heap_delete (l : nat) (h : heap) : heap :=
  {| cells := delete l (cells h); next_loc := next_loc h |}.

Definition alloc_cell (c : cell) : HM nat :=
  λ h, Ret (next_loc h,
            {| cells := <[next_loc h := c]> (cells h); next_loc := S (next_loc h) |}).

Definition get_cell (l : nat) : HM cell :=
  λ h, match cells h !! l with Some c => Ret (c, h) | None => Fault UndefinedBehaviour end.

Definition set_cell (l : nat) (c : cell) : HM unit :=
  λ h, Ret (tt, heap_insert l c h).

Definition free_cell (l : nat) : HM unit :=
  λ h, match cells h !! l with
       | Some _ => Ret (tt, heap_delete l h)
       | None => Fault UndefinedBehaviour
       end.

(** [dealloc(p, Layout::from_size_align(size, 1))]: [p] is the start of a live buffer
    of exactly [size] bytes. *)
Definition dealloc (p : ptr) (size : Z) : HM unit :=
  match p with
  | PHeap l 0 =>
    c ← get_cell l;
    match c with
    | CBlock d => if (0 <? size) && (zlen d =? size) then free_cell l else ub
    | _ => ub
    end
  | _ => ub
  end.

(** The raw bytes of [len] at [p]; no bytes can be read through any pointer. *)
Definition read_raw (p : ptr) (len : Z) : HM (list (option byte)) :=
  if len =? 0 then mret []
  else
    match p with
    | PHeap l off =>
      c ← get_cell l;
      match c with
      | CBlock d => if (0 <=? off) && (0 <? len) && (off + len <=? zlen d)
                    then mret (ztake len (zdrop off d)) else ub
      | _ => ub
      end
    | PStatic s off =>
      if (0 <=? off) && (0 <? len) && (off + len <=? zlen (st_bytes s))
      then mret (Some <$> ztake len (zdrop off (st_bytes s))) else ub
    | _ => ub
    end.

(** [slice::from_raw_parts(p, len)], read: every byte must be initialised. *)
Definition read_slice (p : ptr) (len : Z) : HM (list byte) :=
  raw ← read_raw p len;
  match mapM id raw with Some bs => mret bs | None => ub end.

(** Writes [raw] at [p]. *)
Definition write_raw (p : ptr) (raw : list (option byte)) : HM unit :=
  if zlen raw =? 0 then mret tt
  else
    match p with
    | PHeap l off =>
      c ← get_cell l;
      match c with
      | CBlock d => if (0 <=? off) && (off + zlen raw <=? zlen d)
                    then set_cell l (CBlock (splice d off raw)) else ub
      | _ => ub
      end
    | _ => ub
    end.

(** [ptr::copy(src, dst, len)]: the regions may overlap. *)
Definition ptr_copy (src dst : ptr) (len : Z) : HM unit :=
  raw ← read_raw src len;
  write_raw dst raw.

(** The regions of [len] bytes at [p] and at [q] have a byte in common. *)
Definition overlap (p q : ptr) (len : Z) : bool :=
  match p, q with
  | PHeap l i, PHeap l' j => bool_decide (l = l') && (i <? j + len) && (j <? i + len)
  | _, _ => false
  end.

(** [ptr::copy_nonoverlapping(src, dst, len)]. *)
Definition copy_nonoverlapping (src dst : ptr) (len : Z) : HM unit :=
  if overlap src dst len then ub else ptr_copy src dst len.

(** ** Vectors *)
Section vectors.
Context `{T : Target}.

(** [NonNull::dangling()] for bytes. *)
Definition dangling : ptr := PAddr 1.

Definition hvec_with_capacity (cap : Z) : HM hvec :=
  if isize_max <? cap then hfault PanicCapacity
  else if cap =? 0 then mret {| hv_ptr := dangling; hv_len := 0; hv_cap := 0 |}
  else
    l ← alloc_cell (CBlock (zreplicate cap None));
    mret {| hv_ptr := PHeap l 0; hv_len := 0; hv_cap := cap |}.

(** [slice.to_vec()]: a new vector with just the capacity needed. *)
Definition to_vec (bs : list byte) : HM hvec :=
  v ← hvec_with_capacity (zlen bs);
  _ ← write_raw (hv_ptr v) (Some <$> bs);
  mret {| hv_ptr := hv_ptr v; hv_len := zlen bs; hv_cap := hv_cap v |}.

(** Dropping a vector. *)
Definition drop_vec (v : hvec) : HM unit :=
  if hv_cap v =? 0 then mret tt else dealloc (hv_ptr v) (hv_cap v).

(** [v.reserve(additional)]: amortised growth to [max(2 * cap, len + additional, 8)],
    with a capacity-overflow panic above [isize::MAX].  Only the [len] bytes of the
    vector are sure to move to the new buffer. *)
Definition hvec_reserve (v : hvec) (additional : Z) : HM hvec :=
  if hv_cap v - hv_len v <? additional then
    let cap := Z.max 8 (Z.max (2 * hv_cap v) (hv_len v + additional)) in
    if isize_max <? cap then hfault PanicCapacity
    else
      raw ← read_raw (hv_ptr v) (hv_len v);
      l ← alloc_cell (CBlock (raw ++ zreplicate (cap - hv_len v) None));
      _ ← drop_vec v;
      mret {| hv_ptr := PHeap l 0; hv_len := hv_len v; hv_cap := cap |}
  else mret v.

(** [v.extend_from_slice(bs)]. *)
Definition hvec_extend_from_slice (v : hvec) (bs : list byte) : HM hvec :=
  v ← hvec_reserve v (zlen bs);
  _ ← write_raw (ptr_add (hv_ptr v) (hv_len v)) (Some <$> bs);
  mret {| hv_ptr := hv_ptr v; hv_len := hv_len v + zlen bs; hv_cap := hv_cap v |}.

End vectors.

(** ** Reference counts *)

(** Runs an atomic method on the reference count of the box at [p]. *)
Definition on_ref_cnt (p : ptr) (prog : cell_prog Z (response Z)) : HM (response Z) :=
  match p with
  | PObj l =>
    c ← get_cell l;
    match c with
    | CShared s =>
      let '(r, n) := run prog (sh_ref_cnt s) in
      _ ← set_cell l (CShared {| sh_buf := sh_buf s; sh_cap := sh_cap s; sh_ref_cnt := n |});
      mret r
    | _ => ub
    end
  | _ => ub
  end.

(** The same for the [Shared] of bytes_mut.rs. *)
Definition on_ref_count (p : ptr) (prog : cell_prog Z (response Z)) : HM (response Z) :=
  match p with
  | PObj l =>
    c ← get_cell l;
    match c with
    | CSharedV s =>
      let '(r, n) := run prog (sv_ref_count s) in
      _ ← set_cell l (CSharedV {| sv_vec := sv_vec s;
             sv_original_capacity_repr := sv_original_capacity_repr s; sv_ref_count := n |});
      mret r
    | _ => ub
    end
  | _ => ub
  end.

(** The same for an [Owned] box, the count of which is its first field. *)
Definition on_owned_cnt (p : ptr) (prog : cell_prog Z (response Z)) : HM (response Z) :=
  match p with
  | PObj l =>
    c ← get_cell l;
    match c with
    | COwned s =>
      let '(r, n) := run prog (ow_ref_cnt s) in
      _ ← set_cell l (COwned {| ow_ref_cnt := n; ow_owner := ow_owner s |});
      mret r
    | _ => ub
    end
  | _ => ub
  end.

(** The number an atomic method answered. *)
Definition response_val (r : response Z) : HM Z :=
  match r with RVal n => mret n | _ => ub end.

(** [*Box::from_raw(p)] without running the destructor. *)
Definition take_shared (p : ptr) : HM shared :=
  match p with
  | PObj l =>
    c ← get_cell l;
    match c with
    | CShared s => _ ← free_cell l; mret s
    | _ => ub
    end
  | _ => ub
  end.
