(* ===== verification/Bytes.v ===== *)
(** * Bytes: the shared, immutable buffer (src/patches/bytes/src/bytes.rs)

    A [Bytes] is a view [ptr, len] and a word of data that its vtable interprets.
    The vtables are the constructors of [vtable]: static data, the two promotable
    forms (a boxed slice not shared so far, at an even or an odd address), the
    [Shared] box of this file and the one of bytes_mut.rs, and the box of a user's
    owner.  A method that takes
    [&self] but promotes the storage, and one that takes [&mut self], returns the new
    [self] with its result.  The atomics of the data word and of the reference counts
    are those of Loom.v. *)

From S2P Require Import Prelude Machine Loom Heap.

Inductive vtable :=
| STATIC_VTABLE
| PROMOTABLE_EVEN_VTABLE
| PROMOTABLE_ODD_VTABLE
| SHARED_VTABLE
| SHARED_V_VTABLE
| OWNED_VTABLE.

#[export] Instance vtable_eq_dec : EqDecision vtable.
Proof. solve_decision. Defined.

Record Bytes := { b_ptr : ptr; b_len : Z; b_data : ptr; b_vtable : vtable }.

Definition KIND_ARC : Z := 0.
Definition KIND_VEC : Z := 1.
Definition KIND_MASK : Z := 1.

(** [ptr::null_mut()]. *)
Definition null_mut : ptr := PAddr 0.

Definition hassert (c : bool) : HM unit := lift (rust_assert c).
Definition hdebug_assert `{Target} (c : bool) : HM unit := lift (debug_assert c).

Section bytes.
Context `{T : Target, A : Allocator}.
Implicit Types (self : Bytes).

Definition bytes_with_ptr self (p : ptr) (len : Z) : Bytes :=
  {| b_ptr := p; b_len := len; b_data := b_data self; b_vtable := b_vtable self |}.
Definition bytes_with_data self (d : ptr) : Bytes :=
  {| b_ptr := b_ptr self; b_len := b_len self; b_data := d; b_vtable := b_vtable self |}.

(** ** Constructors *)
Definition from_static (bytes : static_slice) : Bytes :=
  {| b_ptr := PStatic bytes 0; b_len := zlen (st_bytes bytes);
     b_data := null_mut; b_vtable := STATIC_VTABLE |}.

(** [const EMPTY: &[u8] = &[]]. *)
Definition EMPTY : static_slice := {| st_addr := 1; st_bytes := [] |}.
Definition bytes_new : Bytes := from_static EMPTY.

(** [without_provenance(addr)]. *)
Definition without_provenance (addr : Z) : ptr := PAddr addr.

Definition new_empty_with_ptr (p : ptr) : HM Bytes :=
  _ ← hdebug_assert (negb (ptr_addr p =? 0));
  let p := without_provenance (ptr_addr p) in
  mret {| b_ptr := p; b_len := 0; b_data := null_mut; b_vtable := STATIC_VTABLE |}.

(** [Bytes::from(Box<[u8]>)]: the slice is a buffer pointer and its length. *)
Definition from_boxed_slice (p : ptr) (len : Z) : HM Bytes :=
  if len =? 0 then mret bytes_new
  else if Z.land (ptr_addr p) 1 =? 0 then
    let data := ptr_map p (λ addr, Z.lor addr KIND_VEC) in
    mret {| b_ptr := p; b_len := len; b_data := data; b_vtable := PROMOTABLE_EVEN_VTABLE |}
  else
    mret {| b_ptr := p; b_len := len; b_data := p; b_vtable := PROMOTABLE_ODD_VTABLE |}.

(** [Bytes::from(Vec<u8>)]. *)
Definition from_vec (vec : hvec) : HM Bytes :=
  let p := hv_ptr vec in
  let len := hv_len vec in
  let cap := hv_cap vec in
  if len =? cap then from_boxed_slice p len
  else
    l ← alloc_cell (CShared {| sh_buf := p; sh_cap := cap; sh_ref_cnt := 1 |});
    _ ← hdebug_assert (0 =? Z.land (obj_addr l) KIND_MASK);
    mret {| b_ptr := p; b_len := len; b_data := PObj l; b_vtable := SHARED_VTABLE |}.

Definition copy_from_slice (data : list byte) : HM Bytes :=
  v ← to_vec data;
  from_vec v.

(** ** Reference counting *)
Definition shallow_clone_arc (sh : ptr) (p : ptr) (len : Z) : HM Bytes :=
  r ← on_ref_cnt sh (atomic_fetch_add 1);
  old_size ← response_val r;
  if Z.shiftr usize_max 1 <? old_size then hfault Abort
  else mret {| b_ptr := p; b_len := len; b_data := sh; b_vtable := SHARED_VTABLE |}.

(** [dealloc] of the buffer when a [Shared] is dropped. *)
Definition drop_shared (s : shared) : HM unit := dealloc (sh_buf s) (sh_cap s).

Definition release_shared (p : ptr) : HM unit :=
  r ← on_ref_cnt p (atomic_fetch_sub 1);
  old ← response_val r;
  if negb (old =? 1) then mret tt
  else
    _ ← on_ref_cnt p atomic_load;
    s ← take_shared p;
    drop_shared s.

(** Promotes a boxed slice to a [Shared]: the new handle and the new data word of
    the handle that was cloned. *)
Definition shallow_clone_vec (atom : ptr) (p : ptr) (buf : ptr) (offset : ptr) (len : Z) :
    HM (Bytes * ptr) :=
  off ← offset_from offset buf;
  cap ← lift (uadd off len);
  l ← alloc_cell (CShared {| sh_buf := buf; sh_cap := cap; sh_ref_cnt := 2 |});
  _ ← hdebug_assert (0 =? Z.land (obj_addr l) KIND_MASK);
  let '(r, atom) := run (atomic_compare_exchange p (PObj l)) atom in
  match r with
  | RExchange (Ok actual) =>
    _ ← hdebug_assert (bool_decide (actual = p));
    mret ({| b_ptr := offset; b_len := len; b_data := PObj l; b_vtable := SHARED_VTABLE |}, atom)
  | RExchange (Err actual) =>
    _ ← take_shared (PObj l);
    b ← shallow_clone_arc actual offset len;
    mret (b, atom)
  | _ => ub
  end.

(** [bytes_mut.rs]: the counts of its own [Shared]. *)
Definition increment_shared (p : ptr) : HM unit :=
  r ← on_ref_count p (atomic_fetch_add 1);
  old_size ← response_val r;
  if isize_max <? old_size then hfault Abort else mret tt.

Definition take_shared_v (p : ptr) : HM shared_v :=
  match p with
  | PObj l =>
    c ← get_cell l;
    match c with
    | CSharedV s => _ ← free_cell l; mret s
    | _ => ub
    end
  | _ => ub
  end.

Definition release_shared_v (p : ptr) : HM unit :=
  r ← on_ref_count p (atomic_fetch_sub 1);
  old ← response_val r;
  if negb (old =? 1) then mret tt
  else
    _ ← on_ref_count p atomic_load;
    s ← take_shared_v p;
    drop_vec (sv_vec s).

(** ** Owners *)
Definition get_owner (p : ptr) : HM hvec :=
  match p with
  | PObj l =>
    c ← get_cell l;
    match c with COwned s => mret (ow_owner s) | _ => ub end
  | _ => ub
  end.

(** [from_owner(owner)]; [as_ref] is the owner's [AsRef<[u8]>::as_ref]. *)
Definition from_owner (as_ref : hvec → ptr * Z) (owner : hvec) : HM Bytes :=
  l ← alloc_cell (COwned {| ow_ref_cnt := 1; ow_owner := owner |});
  let ret := {| b_ptr := dangling; b_len := 0; b_data := PObj l; b_vtable := OWNED_VTABLE |} in
  owner ← get_owner (PObj l);
  let '(buf, len) := as_ref owner in
  mret (bytes_with_ptr ret buf len).

Definition owned_clone (data p : ptr) (len : Z) : HM Bytes :=
  r ← on_owned_cnt data (atomic_fetch_add 1);
  old_cnt ← response_val r;
  if Z.shiftr usize_max 1 <? old_cnt then hfault Abort
  else mret {| b_ptr := p; b_len := len; b_data := data; b_vtable := OWNED_VTABLE |}.

(** [*Box::from_raw(owned)]. *)
Definition take_owned (p : ptr) : HM owned :=
  match p with
  | PObj l =>
    c ← get_cell l;
    match c with
    | COwned s => _ ← free_cell l; mret s
    | _ => ub
    end
  | _ => ub
  end.

(** The last handle drops the box and with it the owner. *)
Definition owned_drop_impl (p : ptr) : HM unit :=
  r ← on_owned_cnt p (atomic_fetch_sub 1);
  old_cnt ← response_val r;
  _ ← hdebug_assert ((0 <? old_cnt) && (old_cnt <=? Z.shiftr usize_max 1));
  if negb (old_cnt =? 1) then mret tt
  else
    _ ← on_owned_cnt p atomic_load;
    s ← take_owned p;
    drop_vec (ow_owner s).

Definition owned_to_vec (data p : ptr) (len : Z) : HM hvec :=
  slice ← read_slice p len;
  vec ← to_vec slice;
  _ ← owned_drop_impl data;
  mret vec.

Definition owned_is_unique (data : ptr) : HM bool := mret false.

(** ** The vtables *)
Definition kind_of (data : ptr) : Z := Z.land (ptr_addr data) KIND_MASK.

(** [ptr_map(shared, |addr| addr & !KIND_MASK)]. *)
Definition untag (data : ptr) : ptr := ptr_map data (λ addr, Z.ldiff addr KIND_MASK).

(** The buffer a promotable data word stands for. *)
Definition promotable_buf (vt : vtable) (data : ptr) : ptr :=
  match vt with PROMOTABLE_EVEN_VTABLE => untag data | _ => data end.

Definition static_clone (p : ptr) (len : Z) : HM Bytes :=
  slice ← read_slice p len;
  mret (from_static {| st_addr := ptr_addr p; st_bytes := slice |}).

(** [promotable_even_clone] and [promotable_odd_clone]. *)
Definition promotable_clone (vt : vtable) (data p : ptr) (len : Z) : HM (Bytes * ptr) :=
  let '(r, data) := run (atomic_load (V := ptr)) data in
  match r with
  | RVal shared =>
    let kind := kind_of shared in
    if kind =? KIND_ARC then
      b ← shallow_clone_arc shared p len;
      mret (b, data)
    else
      _ ← hdebug_assert (kind =? KIND_VEC);
      let buf := promotable_buf vt shared in
      shallow_clone_vec data shared buf p len
  | _ => ub
  end.

Definition shared_v_clone (data p : ptr) (len : Z) : HM Bytes :=
  _ ← increment_shared data;
  mret {| b_ptr := p; b_len := len; b_data := data; b_vtable := SHARED_V_VTABLE |}.

(** [clone]: the new handle and [self] with its data word updated. *)
Definition bytes_clone self : HM (Bytes * Bytes) :=
  match b_vtable self with
  | STATIC_VTABLE =>
    b ← static_clone (b_ptr self) (b_len self);
    mret (b, self)
  | PROMOTABLE_EVEN_VTABLE | PROMOTABLE_ODD_VTABLE =>
    '(b, data) ← promotable_clone (b_vtable self) (b_data self) (b_ptr self) (b_len self);
    mret (b, bytes_with_data self data)
  | SHARED_VTABLE =>
    b ← shallow_clone_arc (b_data self) (b_ptr self) (b_len self);
    mret (b, self)
  | SHARED_V_VTABLE =>
    b ← shared_v_clone (b_data self) (b_ptr self) (b_len self);
    mret (b, self)
  | OWNED_VTABLE =>
    b ← owned_clone (b_data self) (b_ptr self) (b_len self);
    mret (b, self)
  end.

Definition free_boxed_slice (buf offset : ptr) (len : Z) : HM unit :=
  off ← offset_from offset buf;
  cap ← lift (uadd off len);
  dealloc buf cap.

(** [promotable_even_drop] and [promotable_odd_drop]. *)
Definition promotable_drop (vt : vtable) (data p : ptr) (len : Z) : HM unit :=
  let kind := kind_of data in
  if kind =? KIND_ARC then release_shared data
  else
    _ ← hdebug_assert (kind =? KIND_VEC);
    free_boxed_slice (promotable_buf vt data) p len.

Definition bytes_drop self : HM unit :=
  match b_vtable self with
  | STATIC_VTABLE => mret tt
  | PROMOTABLE_EVEN_VTABLE | PROMOTABLE_ODD_VTABLE =>
    promotable_drop (b_vtable self) (b_data self) (b_ptr self) (b_len self)
  | SHARED_VTABLE => release_shared (b_data self)
  | SHARED_V_VTABLE => release_shared_v (b_data self)
  | OWNED_VTABLE => owned_drop_impl (b_data self)
  end.

Definition shared_is_unique (data : ptr) : HM bool :=
  r ← on_ref_cnt data atomic_load;
  ref_cnt ← response_val r;
  mret (ref_cnt =? 1).

Definition shared_v_is_unique (data : ptr) : HM bool :=
  r ← on_ref_count data atomic_load;
  ref_cnt ← response_val r;
  mret (ref_cnt =? 1).

Definition promotable_is_unique (data : ptr) : HM bool :=
  let kind := kind_of data in
  if kind =? KIND_ARC then shared_is_unique data else mret true.

Definition bytes_is_unique self : HM bool :=
  match b_vtable self with
  | STATIC_VTABLE => mret false
  | PROMOTABLE_EVEN_VTABLE | PROMOTABLE_ODD_VTABLE => promotable_is_unique (b_data self)
  | SHARED_VTABLE => shared_is_unique (b_data self)
  | SHARED_V_VTABLE => shared_v_is_unique (b_data self)
  | OWNED_VTABLE => owned_is_unique (b_data self)
  end.

(** ** Into a vector *)
Definition shared_to_vec_impl (sh p : ptr) (len : Z) : HM hvec :=
  r ← on_ref_cnt sh (atomic_compare_exchange 1 0);
  match r with
  | RExchange (Ok _) =>
    s ← take_shared sh;
    let buf := sh_buf s in
    let cap := sh_cap s in
    _ ← ptr_copy p buf len;
    mret {| hv_ptr := buf; hv_len := len; hv_cap := cap |}
  | RExchange (Err _) =>
    slice ← read_slice p len;
    v ← to_vec slice;
    _ ← release_shared sh;
    mret v
  | _ => ub
  end.

Definition promotable_to_vec (vt : vtable) (data p : ptr) (len : Z) : HM hvec :=
  let kind := kind_of data in
  if kind =? KIND_ARC then shared_to_vec_impl data p len
  else
    _ ← hdebug_assert (kind =? KIND_VEC);
    let buf := promotable_buf vt data in
    off ← offset_from p buf;
    cap ← lift (uadd off len);
    _ ← ptr_copy p buf len;
    mret {| hv_ptr := buf; hv_len := len; hv_cap := cap |}.

(** [mem::take(&mut shared.vec)]: the vector leaves an empty one behind. *)
Definition take_vec (p : ptr) : HM hvec :=
  match p with
  | PObj l =>
    c ← get_cell l;
    match c with
    | CSharedV s =>
      _ ← set_cell l (CSharedV {| sv_vec := {| hv_ptr := dangling; hv_len := 0; hv_cap := 0 |};
             sv_original_capacity_repr := sv_original_capacity_repr s;
             sv_ref_count := sv_ref_count s |});
      mret (sv_vec s)
    | _ => ub
    end
  | _ => ub
  end.

Definition shared_v_to_vec (data p : ptr) (len : Z) : HM hvec :=
  uniq ← shared_v_is_unique data;
  if uniq : bool then
    vec ← take_vec data;
    _ ← release_shared_v data;
    _ ← ptr_copy p (hv_ptr vec) len;
    mret {| hv_ptr := hv_ptr vec; hv_len := len; hv_cap := hv_cap vec |}
  else
    slice ← read_slice p len;
    v ← to_vec slice;
    _ ← release_shared_v data;
    mret v.

(** [Vec::from(Bytes)]. *)
Definition bytes_into_vec self : HM hvec :=
  match b_vtable self with
  | STATIC_VTABLE => slice ← read_slice (b_ptr self) (b_len self); to_vec slice
  | PROMOTABLE_EVEN_VTABLE | PROMOTABLE_ODD_VTABLE =>
    promotable_to_vec (b_vtable self) (b_data self) (b_ptr self) (b_len self)
  | SHARED_VTABLE => shared_to_vec_impl (b_data self) (b_ptr self) (b_len self)
  | SHARED_V_VTABLE => shared_v_to_vec (b_data self) (b_ptr self) (b_len self)
  | OWNED_VTABLE => owned_to_vec (b_data self) (b_ptr self) (b_len self)
  end.

(** ** Views *)
Definition bytes_as_slice self : HM (list byte) := read_slice (b_ptr self) (b_len self).

Definition inc_start self (by_ : Z) : HM Bytes :=
  _ ← hdebug_assert (by_ <=? b_len self);
  len ← lift (usub (b_len self) by_);
  mret (bytes_with_ptr self (ptr_add (b_ptr self) by_) len).

Definition bytes_advance self (cnt : Z) : HM Bytes :=
  _ ← hassert (cnt <=? b_len self);
  inc_start self cnt.

Inductive bound := Included (n : Z) | Excluded (n : Z) | Unbounded.

Definition start_of (b : bound) : HM Z :=
  match b with
  | Included n => mret n
  | Excluded n => lift (expect (checked_add n 1))
  | Unbounded => mret 0
  end.
Definition end_of (b : bound) (len : Z) : HM Z :=
  match b with
  | Included n => lift (expect (checked_add n 1))
  | Excluded n => mret n
  | Unbounded => mret len
  end.

(** [slice]: the new handle and [self], promoted if the clone did so. *)
Definition bytes_slice self (start_bound end_bound : bound) : HM (Bytes * Bytes) :=
  let len := b_len self in
  begin ← start_of start_bound;
  end_ ← end_of end_bound len;
  _ ← hassert (begin <=? end_);
  _ ← hassert (end_ <=? len);
  if end_ =? begin then
    b ← new_empty_with_ptr (ptr_add (b_ptr self) begin);
    mret (b, self)
  else
    '(ret, self) ← bytes_clone self;
    n ← lift (usub end_ begin);
    mret (bytes_with_ptr ret (ptr_add (b_ptr ret) begin) n, self).

(** [slice_ref(subset)]: [subset] is a borrowed slice, a pointer and a length. *)
Definition slice_ref self (subset : ptr) (sub_len : Z) : HM (Bytes * Bytes) :=
  if sub_len =? 0 then mret (bytes_new, self)
  else
    let bytes_p := ptr_addr (b_ptr self) in
    let bytes_len := b_len self in
    let sub_p := ptr_addr subset in
    _ ← hassert (bytes_p <=? sub_p);
    s_end ← lift (uadd sub_p sub_len);
    b_end ← lift (uadd bytes_p bytes_len);
    _ ← hassert (s_end <=? b_end);
    sub_offset ← lift (usub sub_p bytes_p);
    e ← lift (uadd sub_offset sub_len);
    bytes_slice self (Included sub_offset) (Excluded e).

Definition split_off self (at_ : Z) : HM (Bytes * Bytes) :=
  if at_ =? b_len self then
    b ← new_empty_with_ptr (ptr_add (b_ptr self) at_);
    mret (b, self)
  else if at_ =? 0 then
    e ← new_empty_with_ptr (b_ptr self);
    mret (self, e)
  else
    _ ← hassert (at_ <=? b_len self);
    '(ret, self) ← bytes_clone self;
    let self := bytes_with_ptr self (b_ptr self) at_ in
    ret ← inc_start ret at_;
    mret (ret, self).

Definition split_to self (at_ : Z) : HM (Bytes * Bytes) :=
  if at_ =? b_len self then
    let end_ptr := ptr_add (b_ptr self) at_ in
    e ← new_empty_with_ptr end_ptr;
    mret (self, e)
  else if at_ =? 0 then
    b ← new_empty_with_ptr (b_ptr self);
    mret (b, self)
  else
    _ ← hassert (at_ <=? b_len self);
    '(ret, self) ← bytes_clone self;
    self ← inc_start self at_;
    mret (bytes_with_ptr ret (b_ptr ret) at_, self).

Definition truncate self (len : Z) : HM Bytes :=
  if len <? b_len self then
    match b_vtable self with
    | PROMOTABLE_EVEN_VTABLE | PROMOTABLE_ODD_VTABLE =>
      '(tail, self) ← split_off self len;
      _ ← bytes_drop tail;
      mret self
    | _ => mret (bytes_with_ptr self (b_ptr self) len)
    end
  else mret self.

Definition clear self : HM Bytes := truncate self 0.

End bytes.
