(* ===== verification/BytesMut.v ===== *)
(** * BytesMut: the unique, growable buffer (src/patches/bytes/src/bytes_mut.rs)

    A [BytesMut] is a view [ptr, len, cap] and a data word.  With the lowest bit set
    (KIND_VEC) the word holds how far the view has moved into its vector and the class
    of the vector's original capacity; otherwise (KIND_ARC) it points to a [Shared]
    with a reference count.  A method that takes [&mut self] returns the new [self].
    The conversions from [Bytes] (bytes.rs) are at the end of the file. *)

From S2P Require Import Prelude Machine Loom Heap Buf Bytes.
Open Scope Z_scope.

Record BytesMut := { m_ptr : ptr; m_len : Z; m_cap : Z; m_data : ptr }.

Definition MAX_ORIGINAL_CAPACITY_WIDTH : Z := 17.
Definition MIN_ORIGINAL_CAPACITY_WIDTH : Z := 10.
Definition ORIGINAL_CAPACITY_MASK : Z := 28.
Definition ORIGINAL_CAPACITY_OFFSET : Z := 2.
Definition VEC_POS_OFFSET : Z := 5.
Definition NOT_VEC_POS_MASK : Z := 31.

Section bytes_mut.
Context `{T : Target, A : Allocator}.
Implicit Types (self : BytesMut).

Definition MAX_VEC_POS : Z := Z.shiftr usize_max VEC_POS_OFFSET.

Definition with_view self (p : ptr) (len cap : Z) : BytesMut :=
  {| m_ptr := p; m_len := len; m_cap := cap; m_data := m_data self |}.
Definition with_data self (d : ptr) : BytesMut :=
  {| m_ptr := m_ptr self; m_len := m_len self; m_cap := m_cap self; m_data := d |}.

(** ** The data word *)

(** [x.leading_zeros()] on [usize]. *)
Definition leading_zeros (x : Z) : Z :=
  if x =? 0 then ptr_width else ptr_width - 1 - Z.log2 x.

Definition original_capacity_to_repr (cap : Z) : Z :=
  let width := ptr_width - leading_zeros (Z.shiftr cap MIN_ORIGINAL_CAPACITY_WIDTH) in
  Z.min width (MAX_ORIGINAL_CAPACITY_WIDTH - MIN_ORIGINAL_CAPACITY_WIDTH).

Definition original_capacity_from_repr (repr : Z) : Z :=
  if repr =? 0 then 0
  else wrap_unsigned ptr_width (Z.shiftl 1 (repr + (MIN_ORIGINAL_CAPACITY_WIDTH - 1))).

Definition invalid_ptr (addr : Z) : ptr := PAddr addr.

Definition vptr (p : ptr) : HM ptr :=
  if debug_assertions && (ptr_addr p =? 0) then hfault PanicExpect else mret p.

Definition bm_kind self : Z := Z.land (ptr_addr (m_data self)) KIND_MASK.

Definition get_vec_pos self : HM Z :=
  _ ← hdebug_assert (bm_kind self =? KIND_VEC);
  mret (Z.shiftr (ptr_addr (m_data self)) VEC_POS_OFFSET).

Definition set_vec_pos self (pos : Z) : HM BytesMut :=
  _ ← hdebug_assert (bm_kind self =? KIND_VEC);
  _ ← hdebug_assert (pos <=? MAX_VEC_POS);
  mret (with_data self (invalid_ptr
    (Z.lor (wrap_unsigned ptr_width (Z.shiftl pos VEC_POS_OFFSET))
           (Z.land (ptr_addr (m_data self)) NOT_VEC_POS_MASK)))).

(** The data word of a vector at position 0. *)
Definition vec_data (original_capacity_repr : Z) : ptr :=
  invalid_ptr (Z.lor (wrap_unsigned ptr_width
    (Z.shiftl original_capacity_repr ORIGINAL_CAPACITY_OFFSET)) KIND_VEC).

(** ** Construction *)
Definition bm_from_vec (vec : hvec) : HM BytesMut :=
  p ← vptr (hv_ptr vec);
  let len := hv_len vec in
  let cap := hv_cap vec in
  let original_capacity_repr := original_capacity_to_repr cap in
  mret {| m_ptr := p; m_len := len; m_cap := cap; m_data := vec_data original_capacity_repr |}.

Definition with_capacity (capacity : Z) : HM BytesMut :=
  v ← hvec_with_capacity capacity;
  bm_from_vec v.

Definition bm_new : HM BytesMut := with_capacity 0.

(** [vec![0; len]]. *)
Definition zeroed (len : Z) : HM BytesMut :=
  v ← to_vec (zreplicate len Byte.x00);
  bm_from_vec v.

(** [BytesMut::from(&[u8])]. *)
Definition bm_from_slice (src : list byte) : HM BytesMut :=
  v ← to_vec src;
  bm_from_vec v.

Definition bm_as_slice self : HM (list byte) := read_slice (m_ptr self) (m_len self).

Definition bm_clone self : HM BytesMut :=
  slice ← bm_as_slice self;
  bm_from_slice slice.

(** ** The vector and its [Shared] *)
Definition rebuild_vec (p : ptr) (len cap off : Z) : HM hvec :=
  let p := ptr_add p (- off) in
  len ← lift (uadd len off);
  cap ← lift (uadd cap off);
  mret {| hv_ptr := p; hv_len := len; hv_cap := cap |}.

(** The field [vec] of a [Shared]: read, and written back. *)
Definition get_vec (p : ptr) : HM hvec :=
  match p with
  | PObj l =>
    c ← get_cell l;
    match c with CSharedV s => mret (sv_vec s) | _ => ub end
  | _ => ub
  end.

Definition set_vec (p : ptr) (v : hvec) : HM unit :=
  match p with
  | PObj l =>
    c ← get_cell l;
    match c with
    | CSharedV s =>
      set_cell l (CSharedV {| sv_vec := v;
        sv_original_capacity_repr := sv_original_capacity_repr s;
        sv_ref_count := sv_ref_count s |})
    | _ => ub
    end
  | _ => ub
  end.

Definition get_original_capacity_repr (p : ptr) : HM Z :=
  match p with
  | PObj l =>
    c ← get_cell l;
    match c with CSharedV s => mret (sv_original_capacity_repr s) | _ => ub end
  | _ => ub
  end.

(** [Shared::is_unique]. *)
Definition is_unique (p : ptr) : HM bool :=
  r ← on_ref_count p atomic_load;
  n ← response_val r;
  mret (n =? 1).

Definition promote_to_shared self (ref_cnt : Z) : HM BytesMut :=
  _ ← hdebug_assert (bm_kind self =? KIND_VEC);
  _ ← hdebug_assert ((ref_cnt =? 1) || (ref_cnt =? 2));
  let original_capacity_repr :=
    Z.shiftr (Z.land (ptr_addr (m_data self)) ORIGINAL_CAPACITY_MASK) ORIGINAL_CAPACITY_OFFSET in
  let off := Z.shiftr (ptr_addr (m_data self)) VEC_POS_OFFSET in
  vec ← rebuild_vec (m_ptr self) (m_len self) (m_cap self) off;
  l ← alloc_cell (CSharedV {| sv_vec := vec;
        sv_original_capacity_repr := original_capacity_repr; sv_ref_count := ref_cnt |});
  _ ← hdebug_assert (Z.land (obj_addr l) KIND_MASK =? KIND_ARC);
  mret (with_data self (PObj l)).

(** The new handle and [self]: two copies of the same fields. *)
Definition shallow_clone self : HM (BytesMut * BytesMut) :=
  if bm_kind self =? KIND_ARC then
    _ ← increment_shared (m_data self);
    mret (self, self)
  else
    self ← promote_to_shared self 2;
    mret (self, self).

Definition bm_drop self : HM unit :=
  let kind := bm_kind self in
  if kind =? KIND_VEC then
    off ← get_vec_pos self;
    vec ← rebuild_vec (m_ptr self) (m_len self) (m_cap self) off;
    drop_vec vec
  else if kind =? KIND_ARC then release_shared_v (m_data self)
  else mret tt.

(** ** Moving the start *)
Definition advance_unchecked self (count : Z) : HM BytesMut :=
  if count =? 0 then mret self
  else
    _ ← hdebug_assert (count <=? m_cap self);
    self ← (if bm_kind self =? KIND_VEC then
              pos ← get_vec_pos self;
              pos ← lift (uadd pos count);
              if pos <=? MAX_VEC_POS then set_vec_pos self pos
              else promote_to_shared self 1
            else mret self);
    p ← vptr (ptr_add (m_ptr self) count);
    cap ← lift (usub (m_cap self) count);
    mret (with_view self p (saturating_sub (m_len self) count) cap).

(** [Buf::advance]. *)
Definition bm_advance self (cnt : Z) : HM BytesMut :=
  _ ← hassert (cnt <=? m_len self);
  advance_unchecked self cnt.

Definition bm_split_off self (at_ : Z) : HM (BytesMut * BytesMut) :=
  _ ← hassert (at_ <=? m_cap self);
  '(other, self) ← shallow_clone self;
  other ← advance_unchecked other at_;
  mret (other, with_view self (m_ptr self) (Z.min (m_len self) at_) at_).

Definition bm_split_to self (at_ : Z) : HM (BytesMut * BytesMut) :=
  _ ← hassert (at_ <=? m_len self);
  '(other, self) ← shallow_clone self;
  self ← advance_unchecked self at_;
  mret (with_view other (m_ptr other) at_ at_, self).

Definition bm_split self : HM (BytesMut * BytesMut) :=
  let len := m_len self in
  bm_split_to self len.

(** ** Length *)
Definition set_len self (len : Z) : HM BytesMut :=
  _ ← hdebug_assert (len <=? m_cap self);
  mret (with_view self (m_ptr self) len (m_cap self)).

Definition bm_truncate self (len : Z) : HM BytesMut :=
  if len <=? m_len self then set_len self len else mret self.

Definition bm_clear self : HM BytesMut := set_len self 0.

(** The pointer and the length of [self.spare_capacity_mut()]. *)
Definition spare_capacity_mut self : HM (ptr * Z) :=
  len ← lift (usub (m_cap self) (m_len self));
  mret (ptr_add (m_ptr self) (m_len self), len).

(** [self[index] = val], through [as_slice_mut]. *)
Definition bm_write self (index : Z) (val : byte) : HM unit :=
  if (0 <=? index) && (index <? m_len self)
  then write_raw (ptr_add (m_ptr self) index) [Some val]
  else hfault PanicIndex.

(** ** Reserving *)

(** The vector representation: move the bytes to the front of the vector if that
    makes room and pays off, or else grow the vector. *)
Definition reserve_inner_vec self (additional : Z) (allocate : bool) : HM (bool * BytesMut) :=
  off ← get_vec_pos self;
  room ← lift (usub (m_cap self) (m_len self));
  room ← lift (uadd room off);
  if (additional <=? room) && (m_len self <=? off) then
    let base_ptr := ptr_add (m_ptr self) (- off) in
    _ ← copy_nonoverlapping (m_ptr self) base_ptr (m_len self);
    p ← vptr base_ptr;
    self ← set_vec_pos (with_view self p (m_len self) (m_cap self)) 0;
    cap ← lift (uadd (m_cap self) off);
    mret (true, with_view self (m_ptr self) (m_len self) cap)
  else if negb allocate then mret (false, self)
  else
    v ← rebuild_vec (m_ptr self) (m_len self) (m_cap self) off;
    v ← hvec_reserve v additional;
    p ← vptr (ptr_add (hv_ptr v) off);
    cap ← lift (usub (hv_cap v) off);
    _ ← hdebug_assert (m_len self =? hv_len v - off);
    mret (true, with_view self p (m_len self) cap).

(** Growing the vector [v] of a [Shared] with no other handle, [offset] bytes into which
    the view starts. *)
Definition reserve_inner_grow self (shared : ptr) (v : hvec) (offset new_cap_plus_offset : Z) :
    HM (bool * BytesMut) :=
  let len := m_len self in
  let double := wrap_unsigned ptr_width (Z.shiftl (hv_cap v) 1) in
  let new_cap := Z.max double new_cap_plus_offset in
  _ ← hdebug_assert (offset + len <=? hv_cap v);
  n ← lift (uadd offset len);
  let v := {| hv_ptr := hv_ptr v; hv_len := n; hv_cap := hv_cap v |} in
  more ← lift (usub new_cap (hv_len v));
  v ← hvec_reserve v more;
  _ ← set_vec shared v;
  q ← vptr (ptr_add (hv_ptr v) offset);
  cap ← lift (usub (hv_cap v) offset);
  mret (true, with_view self q len cap).

(** The only handle on its [Shared]: use the vector's spare capacity, move the bytes
    to its front, or grow it. *)
Definition reserve_inner_unique self (shared : ptr) (new_cap : Z) (allocate : bool) :
    HM (bool * BytesMut) :=
  let len := m_len self in
  v ← get_vec shared;
  let v_capacity := hv_cap v in
  let p := hv_ptr v in
  offset ← offset_from (m_ptr self) p;
  match checked_add new_cap offset with
  | None => if negb allocate then mret (false, self) else hfault PanicOverflow
  | Some new_cap_plus_offset =>
    if new_cap_plus_offset <=? v_capacity then
      mret (true, with_view self (m_ptr self) len new_cap)
    else if (new_cap <=? v_capacity) && (len <=? offset) then
      _ ← copy_nonoverlapping (m_ptr self) p len;
      q ← vptr p;
      mret (true, with_view self q len (hv_cap v))
    else if negb allocate then mret (false, self)
    else reserve_inner_grow self shared v offset new_cap_plus_offset
  end.

(** A [Shared] with other handles: copy the bytes to a new vector. *)
Definition reserve_inner_copy self (shared : ptr) (new_cap : Z) : HM (bool * BytesMut) :=
  original_capacity_repr ← get_original_capacity_repr shared;
  let original_capacity := original_capacity_from_repr original_capacity_repr in
  let new_cap := Z.max new_cap original_capacity in
  v ← hvec_with_capacity new_cap;
  slice ← bm_as_slice self;
  v ← hvec_extend_from_slice v slice;
  _ ← release_shared_v shared;
  p ← vptr (hv_ptr v);
  _ ← hdebug_assert (m_len self =? hv_len v);
  mret (true, {| m_ptr := p; m_len := m_len self; m_cap := hv_cap v;
                 m_data := vec_data original_capacity_repr |}).

Definition reserve_inner self (additional : Z) (allocate : bool) : HM (bool * BytesMut) :=
  let len := m_len self in
  let kind := bm_kind self in
  if kind =? KIND_VEC then reserve_inner_vec self additional allocate
  else
    _ ← hdebug_assert (kind =? KIND_ARC);
    let shared := m_data self in
    match checked_add len additional with
    | None => if negb allocate then mret (false, self) else hfault PanicOverflow
    | Some new_cap =>
      uniq ← is_unique shared;
      if uniq : bool then reserve_inner_unique self shared new_cap allocate
      else if negb allocate then mret (false, self)
      else reserve_inner_copy self shared new_cap
    end.

Definition reserve self (additional : Z) : HM BytesMut :=
  let len := m_len self in
  rem ← lift (usub (m_cap self) len);
  if additional <=? rem then mret self
  else
    '(_, self) ← reserve_inner self additional true;
    mret self.

Definition try_reclaim self (additional : Z) : HM (bool * BytesMut) :=
  let len := m_len self in
  rem ← lift (usub (m_cap self) len);
  if additional <=? rem then mret (true, self)
  else reserve_inner self additional false.

(** ** Writing *)
Definition bm_remaining_mut self : HM Z := lift (usub isize_max (m_len self)).

Definition bm_advance_mut self (cnt : Z) : HM BytesMut :=
  remaining ← lift (usub (m_cap self) (m_len self));
  if remaining <? cnt
  then lift (panic_advance {| requested := cnt; available := remaining |})
  else
    len ← lift (uadd (m_len self) cnt);
    mret (with_view self (m_ptr self) len (m_cap self)).

(** [chunk_mut]: the slice is a pointer and a length. *)
Definition bm_chunk_mut self : HM (ptr * Z * BytesMut) :=
  self ← (if m_cap self =? m_len self then reserve self 64 else mret self);
  s ← spare_capacity_mut self;
  mret (s, self).

Definition bm_extend_from_slice self (extend : list byte) : HM BytesMut :=
  let cnt := zlen extend in
  self ← reserve self cnt;
  '(dst, len) ← spare_capacity_mut self;
  _ ← hdebug_assert (cnt <=? len);
  _ ← write_raw dst (Some <$> extend);
  bm_advance_mut self cnt.

Definition bm_put_slice self (src : list byte) : HM BytesMut := bm_extend_from_slice self src.

Definition bm_put_bytes self (val : byte) (cnt : Z) : HM BytesMut :=
  self ← reserve self cnt;
  '(dst, len) ← spare_capacity_mut self;
  _ ← hdebug_assert (cnt <=? len);
  _ ← write_raw dst (zreplicate cnt (Some val));
  bm_advance_mut self cnt.

Definition bm_resize self (new_len : Z) (value : byte) : HM BytesMut :=
  match checked_sub new_len (m_len self) with
  | None => bm_truncate self new_len
  | Some additional =>
    if additional =? 0 then mret self
    else
      self ← reserve self additional;
      '(dst, _) ← spare_capacity_mut self;
      _ ← write_raw dst (zreplicate additional (Some value));
      set_len self new_len
  end.

(** ** Joining *)

(** [other] is dropped unless it is returned. *)
Definition try_unsplit self (other : BytesMut) : HM (result unit BytesMut * BytesMut) :=
  if m_cap other =? 0 then
    _ ← bm_drop other;
    mret (Ok tt, self)
  else
    let p := ptr_add (m_ptr self) (m_len self) in
    if ptr_eqb p (m_ptr other) && (bm_kind self =? KIND_ARC) && (bm_kind other =? KIND_ARC)
       && bool_decide (m_data self = m_data other) then
      len ← lift (uadd (m_len self) (m_len other));
      cap ← lift (uadd (m_cap self) (m_cap other));
      _ ← bm_drop other;
      mret (Ok tt, with_view self (m_ptr self) len cap)
    else mret (Err other, self).

Definition unsplit self (other : BytesMut) : HM BytesMut :=
  if m_len self =? 0 then
    _ ← bm_drop self;
    mret other
  else
    '(r, self) ← try_unsplit self other;
    match r with
    | Ok _ => mret self
    | Err other =>
      slice ← bm_as_slice other;
      self ← bm_extend_from_slice self slice;
      _ ← bm_drop other;
      mret self
    end.

(** ** Conversions *)
Definition freeze self : HM Bytes :=
  if bm_kind self =? KIND_VEC then
    off ← get_vec_pos self;
    vec ← rebuild_vec (m_ptr self) (m_len self) (m_cap self) off;
    b ← from_vec vec;
    bytes_advance b off
  else
    _ ← hdebug_assert (bm_kind self =? KIND_ARC);
    mret {| b_ptr := m_ptr self; b_len := m_len self; b_data := m_data self;
            b_vtable := SHARED_V_VTABLE |}.

(** [Buf::copy_to_bytes]. *)
Definition bm_copy_to_bytes self (len : Z) : HM (Bytes * BytesMut) :=
  '(other, self) ← bm_split_to self len;
  b ← freeze other;
  mret (b, self).

(** [Vec::from(BytesMut)]. *)
Definition bm_into_vec self : HM hvec :=
  let front (vec : hvec) :=
    _ ← ptr_copy (m_ptr self) (hv_ptr vec) (m_len self);
    mret {| hv_ptr := hv_ptr vec; hv_len := m_len self; hv_cap := hv_cap vec |} in
  if bm_kind self =? KIND_VEC then
    off ← get_vec_pos self;
    vec ← rebuild_vec (m_ptr self) (m_len self) (m_cap self) off;
    front vec
  else
    let shared := m_data self in
    uniq ← is_unique shared;
    if uniq : bool then
      vec ← take_vec shared;
      _ ← release_shared_v shared;
      front vec
    else
      slice ← bm_as_slice self;
      v ← to_vec slice;
      _ ← bm_drop self;
      mret v.

(** [static_to_mut]. *)
Definition static_to_mut (p : ptr) (len : Z) : HM BytesMut :=
  slice ← read_slice p len;
  bm_from_slice slice.

Definition shared_to_mut_impl (sh p : ptr) (len : Z) : HM BytesMut :=
  r ← on_ref_cnt sh atomic_load;
  ref_cnt ← response_val r;
  if ref_cnt =? 1 then
    s ← take_shared sh;
    let buf := sh_buf s in
    let cap := sh_cap s in
    off ← offset_from p buf;
    n ← lift (uadd len off);
    b ← bm_from_vec {| hv_ptr := buf; hv_len := n; hv_cap := cap |};
    advance_unchecked b off
  else
    slice ← read_slice p len;
    v ← to_vec slice;
    _ ← release_shared sh;
    bm_from_vec v.

(** [promotable_even_to_mut] and [promotable_odd_to_mut]. *)
Definition promotable_to_mut (vt : vtable) (data p : ptr) (len : Z) : HM BytesMut :=
  let kind := kind_of data in
  if kind =? KIND_ARC then shared_to_mut_impl data p len
  else
    _ ← hdebug_assert (kind =? KIND_VEC);
    let buf := promotable_buf vt data in
    off ← offset_from p buf;
    cap ← lift (uadd off len);
    b ← bm_from_vec {| hv_ptr := buf; hv_len := cap; hv_cap := cap |};
    advance_unchecked b off.

Definition shared_v_to_mut (data p : ptr) (len : Z) : HM BytesMut :=
  uniq ← is_unique data;
  if uniq : bool then
    v ← get_vec data;
    let v_capacity := hv_cap v in
    offset ← offset_from p (hv_ptr v);
    cap ← lift (usub v_capacity offset);
    q ← vptr p;
    mret {| m_ptr := q; m_len := len; m_cap := cap; m_data := data |}
  else
    slice ← read_slice p len;
    v ← to_vec slice;
    _ ← release_shared_v data;
    bm_from_vec v.

Definition owned_to_mut (data p : ptr) (len : Z) : HM BytesMut :=
  vec ← owned_to_vec data p len;
  bm_from_vec vec.

(** [BytesMut::from(Bytes)]. *)
Definition bytes_into_mut (x : Bytes) : HM BytesMut :=
  match b_vtable x with
  | STATIC_VTABLE => static_to_mut (b_ptr x) (b_len x)
  | PROMOTABLE_EVEN_VTABLE | PROMOTABLE_ODD_VTABLE =>
    promotable_to_mut (b_vtable x) (b_data x) (b_ptr x) (b_len x)
  | SHARED_VTABLE => shared_to_mut_impl (b_data x) (b_ptr x) (b_len x)
  | SHARED_V_VTABLE => shared_v_to_mut (b_data x) (b_ptr x) (b_len x)
  | OWNED_VTABLE => owned_to_mut (b_data x) (b_ptr x) (b_len x)
  end.

Definition try_into_mut (x : Bytes) : HM (result BytesMut Bytes) :=
  uniq ← bytes_is_unique x;
  if uniq : bool then
    m ← bytes_into_mut x;
    mret (Ok m)
  else mret (Err x).

End bytes_mut.
