(* ===== verification/Vtables.v ===== *)
(** * Vtables: the dispatch of [Bytes] (bytes.rs, bytes_mut.rs)

    In the source a [Bytes] calls its storage through a table of functions that get the
    atomic data word, the pointer and the length.  Here are the functions of the six tables
    with their loads of the word, the tables as records and the calls through them.  The
    operations of Bytes.v and BytesMut.v, which decide by the name of the table, are these
    calls. *)

From S2P Require Import Prelude Machine Loom Heap Bytes BytesMut.
Open Scope Z_scope.

(** [data.load(..)], and [data.with_mut(|shared| ..)] for a closure that only reads the
    word. *)
Definition data_load (data : ptr) : HM ptr :=
  match run (atomic_load (V := ptr)) data with
  | (RVal shared, _) => mret shared
  | _ => ub
  end.
Definition data_with_mut {R} (data : ptr) (f : ptr → HM R) : HM R :=
  (run (ptr_with_mut (λ shared : ptr, (f shared, shared))) data).1.

(** [struct Vtable].  [vt_clone] also returns the data word, which it may replace. *)
Record Vtable := {
  vt_clone : ptr → ptr → Z → HM (Bytes * ptr);
  vt_into_vec : ptr → ptr → Z → HM hvec;
  vt_into_mut : ptr → ptr → Z → HM BytesMut;
  vt_is_unique : ptr → HM bool;
  vt_drop : ptr → ptr → Z → HM unit;
}.

Section vtables.
Context `{T : Target, A : Allocator}.
Implicit Types (data p : ptr) (len : Z).

(** A clone that leaves the data word as it is. *)
Definition keep_data data (m : HM Bytes) : HM (Bytes * ptr) := b ← m; mret (b, data).

(** ** Static slices *)
Definition fn_static_clone data p len : HM (Bytes * ptr) :=
  keep_data data (slice ← read_slice p len; mret (from_static {| st_addr := ptr_addr p; st_bytes := slice |})).
Definition fn_static_to_vec data p len : HM hvec := slice ← read_slice p len; to_vec slice.
Definition fn_static_to_mut data p len : HM BytesMut := slice ← read_slice p len; bm_from_slice slice.
Definition fn_static_is_unique data : HM bool := mret false.
Definition fn_static_drop data p len : HM unit := mret tt.
Definition STATIC_TABLE : Vtable :=
  {| vt_clone := fn_static_clone; vt_into_vec := fn_static_to_vec; vt_into_mut := fn_static_to_mut;
     vt_is_unique := fn_static_is_unique; vt_drop := fn_static_drop |}.

(** ** An owner *)
Definition fn_owned_clone data p len : HM (Bytes * ptr) := owned ← data_load data; keep_data data (owned_clone owned p len).
Definition fn_owned_to_vec data p len : HM hvec :=
  slice ← read_slice p len;
  vec ← to_vec slice;
  owned ← data_load data;
  _ ← owned_drop_impl owned;
  mret vec.
Definition fn_owned_to_mut data p len : HM BytesMut := vec ← fn_owned_to_vec data p len; bm_from_vec vec.
Definition fn_owned_drop data p len : HM unit := owned ← data_load data; owned_drop_impl owned.
Definition OWNED_TABLE : Vtable :=
  {| vt_clone := fn_owned_clone; vt_into_vec := fn_owned_to_vec; vt_into_mut := fn_owned_to_mut;
     vt_is_unique := owned_is_unique; vt_drop := fn_owned_drop |}.

(** ** Promotable buffers *)

(** [|shared| ptr_map(shared.cast(), |addr| addr & !KIND_MASK)] and [|shared| shared.cast()]. *)
Definition even_buf (shared : ptr) : ptr := ptr_map shared (λ addr, Z.ldiff addr KIND_MASK).
Definition odd_buf (shared : ptr) : ptr := shared.

Definition fn_promotable_even_clone data p len : HM (Bytes * ptr) :=
  shared ← data_load data;
  let kind := Z.land (ptr_addr shared) KIND_MASK in
  if kind =? KIND_ARC then keep_data data (shallow_clone_arc shared p len)
  else
    _ ← hdebug_assert (kind =? KIND_VEC);
    let buf := ptr_map shared (λ addr, Z.ldiff addr KIND_MASK) in
    shallow_clone_vec data shared buf p len.
Definition fn_promotable_odd_clone data p len : HM (Bytes * ptr) :=
  shared ← data_load data;
  let kind := Z.land (ptr_addr shared) KIND_MASK in
  if kind =? KIND_ARC then keep_data data (shallow_clone_arc shared p len)
  else
    _ ← hdebug_assert (kind =? KIND_VEC);
    shallow_clone_vec data shared shared p len.

Definition fn_promotable_to_vec data p len (f : ptr → ptr) : HM hvec :=
  shared ← data_load data;
  let kind := Z.land (ptr_addr shared) KIND_MASK in
  if kind =? KIND_ARC then shared_to_vec_impl shared p len
  else
    _ ← hdebug_assert (kind =? KIND_VEC);
    let buf := f shared in
    off ← offset_from p buf;
    cap ← lift (uadd off len);
    _ ← ptr_copy p buf len;
    mret {| hv_ptr := buf; hv_len := len; hv_cap := cap |}.
Definition fn_promotable_to_mut data p len (f : ptr → ptr) : HM BytesMut :=
  shared ← data_load data;
  let kind := Z.land (ptr_addr shared) KIND_MASK in
  if kind =? KIND_ARC then shared_to_mut_impl shared p len
  else
    _ ← hdebug_assert (kind =? KIND_VEC);
    let buf := f shared in
    off ← offset_from p buf;
    cap ← lift (uadd off len);
    b ← bm_from_vec {| hv_ptr := buf; hv_len := cap; hv_cap := cap |};
    advance_unchecked b off.
Definition fn_promotable_even_to_vec data p len : HM hvec := fn_promotable_to_vec data p len even_buf.
Definition fn_promotable_even_to_mut data p len : HM BytesMut := fn_promotable_to_mut data p len even_buf.
Definition fn_promotable_odd_to_vec data p len : HM hvec := fn_promotable_to_vec data p len odd_buf.
Definition fn_promotable_odd_to_mut data p len : HM BytesMut := fn_promotable_to_mut data p len odd_buf.

Definition fn_promotable_even_drop data p len : HM unit :=
  data_with_mut data (λ shared,
    let kind := Z.land (ptr_addr shared) KIND_MASK in
    if kind =? KIND_ARC then release_shared shared
    else
      _ ← hdebug_assert (kind =? KIND_VEC);
      let buf := ptr_map shared (λ addr, Z.ldiff addr KIND_MASK) in
      free_boxed_slice buf p len).
Definition fn_promotable_odd_drop data p len : HM unit :=
  data_with_mut data (λ shared,
    let kind := Z.land (ptr_addr shared) KIND_MASK in
    if kind =? KIND_ARC then release_shared shared
    else
      _ ← hdebug_assert (kind =? KIND_VEC);
      free_boxed_slice shared p len).

Definition fn_promotable_is_unique data : HM bool :=
  shared ← data_load data;
  let kind := Z.land (ptr_addr shared) KIND_MASK in
  if kind =? KIND_ARC then
    r ← on_ref_cnt shared atomic_load;
    ref_cnt ← response_val r;
    mret (ref_cnt =? 1)
  else mret true.

Definition PROMOTABLE_EVEN_TABLE : Vtable :=
  {| vt_clone := fn_promotable_even_clone; vt_into_vec := fn_promotable_even_to_vec; vt_into_mut := fn_promotable_even_to_mut;
     vt_is_unique := fn_promotable_is_unique; vt_drop := fn_promotable_even_drop |}.
Definition PROMOTABLE_ODD_TABLE : Vtable :=
  {| vt_clone := fn_promotable_odd_clone; vt_into_vec := fn_promotable_odd_to_vec; vt_into_mut := fn_promotable_odd_to_mut;
     vt_is_unique := fn_promotable_is_unique; vt_drop := fn_promotable_odd_drop |}.

(** ** The [Shared] of bytes.rs *)
Definition fn_shared_clone data p len : HM (Bytes * ptr) := shared ← data_load data; keep_data data (shallow_clone_arc shared p len).
Definition fn_shared_to_vec data p len : HM hvec := shared ← data_load data; shared_to_vec_impl shared p len.
Definition fn_shared_to_mut data p len : HM BytesMut := shared ← data_load data; shared_to_mut_impl shared p len.
Definition fn_shared_is_unique data : HM bool :=
  shared ← data_load data;
  r ← on_ref_cnt shared atomic_load;
  ref_cnt ← response_val r;
  mret (ref_cnt =? 1).
Definition fn_shared_drop data p len : HM unit := data_with_mut data (λ shared, release_shared shared).
Definition SHARED_TABLE : Vtable :=
  {| vt_clone := fn_shared_clone; vt_into_vec := fn_shared_to_vec; vt_into_mut := fn_shared_to_mut;
     vt_is_unique := fn_shared_is_unique; vt_drop := fn_shared_drop |}.

(** ** The [Shared] of bytes_mut.rs *)
Definition with_vtable p len (data : ptr) (vt : vtable) : Bytes :=
  {| b_ptr := p; b_len := len; b_data := data; b_vtable := vt |}.
Definition fn_shared_v_clone data p len : HM (Bytes * ptr) :=
  shared ← data_load data;
  _ ← increment_shared shared;
  mret (with_vtable p len shared SHARED_V_VTABLE, data).
Definition fn_shared_v_to_vec data p len : HM hvec := shared ← data_load data; shared_v_to_vec shared p len.
Definition fn_shared_v_to_mut data p len : HM BytesMut := shared ← data_load data; shared_v_to_mut shared p len.
Definition fn_shared_v_is_unique data : HM bool :=
  shared ← data_load data;
  r ← on_ref_count shared atomic_load;
  ref_count ← response_val r;
  mret (ref_count =? 1).
Definition fn_shared_v_drop data p len : HM unit := data_with_mut data (λ shared, release_shared_v shared).
Definition SHARED_V_TABLE : Vtable :=
  {| vt_clone := fn_shared_v_clone; vt_into_vec := fn_shared_v_to_vec; vt_into_mut := fn_shared_v_to_mut;
     vt_is_unique := fn_shared_v_is_unique; vt_drop := fn_shared_v_drop |}.

(** ** The calls *)
Definition table (vt : vtable) : Vtable :=
  match vt with
  | STATIC_VTABLE => STATIC_TABLE
  | PROMOTABLE_EVEN_VTABLE => PROMOTABLE_EVEN_TABLE
  | PROMOTABLE_ODD_VTABLE => PROMOTABLE_ODD_TABLE
  | SHARED_VTABLE => SHARED_TABLE
  | SHARED_V_VTABLE => SHARED_V_TABLE
  | OWNED_VTABLE => OWNED_TABLE
  end.

(** [(self.vtable.clone)(&self.data, self.ptr, self.len)] and the like. *)
Definition call_clone (self : Bytes) : HM (Bytes * Bytes) :=
  '(b, data) ← vt_clone (table (b_vtable self)) (b_data self) (b_ptr self) (b_len self);
  mret (b, bytes_with_data self data).
Definition call_drop (self : Bytes) : HM unit :=
  vt_drop (table (b_vtable self)) (b_data self) (b_ptr self) (b_len self).
Definition call_is_unique (self : Bytes) : HM bool := vt_is_unique (table (b_vtable self)) (b_data self).
Definition call_into_vec (self : Bytes) : HM hvec :=
  vt_into_vec (table (b_vtable self)) (b_data self) (b_ptr self) (b_len self).
Definition call_into_mut (self : Bytes) : HM BytesMut :=
  vt_into_mut (table (b_vtable self)) (b_data self) (b_ptr self) (b_len self).

Lemma keep_data_bind {R} data (m : HM Bytes) (k : Bytes * ptr → HM R) h :
  (keep_data data m ≫= k) h = (m ≫= λ b, k (b, data)) h.
Proof. unfold keep_data, mbind, HM_bind. by destruct (m h) as [[b h']|]. Qed.

(** On every handle and every heap the call through the vtable, which loads the data word
    from its atomic, is the operation that decides by the vtable's name: what is shown of
    the one holds of the other. *)
Lemma calls_are_operations (self : Bytes) (h : heap) :
  call_clone self h = bytes_clone self h ∧ call_drop self h = bytes_drop self h ∧
  call_is_unique self h = bytes_is_unique self h ∧ call_into_vec self h = bytes_into_vec self h ∧
  call_into_mut self h = bytes_into_mut self h.
Proof.
  destruct self as [p len data vt].
  unfold call_clone, call_drop, call_is_unique, call_into_vec, call_into_mut, bytes_clone.
  destruct vt; repeat split; try reflexivity.
  - apply (keep_data_bind data (static_clone p len)).
  - apply (keep_data_bind data (shallow_clone_arc data p len)).
  - cbn. unfold shared_v_clone, mbind, HM_bind. cbn. by destruct (increment_shared data h) as [[? ?]|].
  - apply (keep_data_bind data (owned_clone data p len)).
Qed.
End vtables.
