(* ===== verification/BytesInv.v ===== *)
(** * BytesInv: who owns which memory

    The invariant of the storage under a set of live handles.  A group is the set of
    handles that share one storage, each with the bytes it shows, and the allocations
    of that storage; [storage] says what the memory of a group looks like, and [wf]
    that the groups own the heap between them, each allocation exactly once.  An
    operation touches the memory of one group only ([local_step]). *)

From S2P Require Import Prelude Machine Loom Heap Bytes BytesMut.
From stdpp Require Import fin_maps fin_sets.
Open Scope Z_scope.

(** What user code can hold: a [Bytes], a [Vec<u8>] or a [BytesMut]. *)
Inductive handle :=
| HBytes (x : Bytes)
| HVec (v : hvec)
| HMut (m : BytesMut).

(** ** Who may touch which bytes of a shared buffer *)
Definition ptr_off (p : ptr) : Z := match p with PHeap _ off => off | _ => 0 end.

(** The bytes a handle may reach: [h_lo] up to [h_hi] of its buffer. *)
Definition h_lo (x : handle) : Z :=
  match x with HBytes x => ptr_off (b_ptr x) | HVec v => ptr_off (hv_ptr v) | HMut m => ptr_off (m_ptr m) end.
Definition h_hi (x : handle) : Z :=
  h_lo x + match x with HBytes x => b_len x | HVec v => hv_cap v | HMut m => m_cap m end.
Definition is_mut (x : handle) : Prop := match x with HMut _ => True | _ => False end.

(** A handle that may write has its bytes to itself. *)
Definition apart (x y : handle) : Prop :=
  is_mut x ∨ is_mut y →
  h_hi x <= h_lo x ∨ h_hi y <= h_lo y ∨ h_hi x <= h_lo y ∨ h_hi y <= h_lo x.

Fixpoint exclusive (xs : list (handle * list byte)) : Prop :=
  match xs with
  | [] => True
  | x :: xs => Forall (λ y, apart x.1 y.1) xs ∧ exclusive xs
  end.

(** [y] reaches no further than [x]. *)
Definition within (y x : handle) : Prop :=
  h_lo x <= h_lo y ∧ h_hi y <= h_hi x ∧ (is_mut y → is_mut x).

Lemma apart_sym x y : apart x y → apart y x.
Proof. unfold apart. tauto. Qed.

Lemma apart_within x y z : within y x → apart x z → apart y z.
Proof. unfold within, apart. intros (H1 & H2 & H3) H H'.
  specialize (H ltac:(tauto)). lia. Qed.

Lemma exclusive_perm xs ys : xs ≡ₚ ys → exclusive xs → exclusive ys.
Proof.
  induction 1 as [|x xs ys Hp IH|x y xs|xs ys zs _ IH1 _ IH2]; cbn [exclusive]; [done| | |auto].
  - intros [H1 H2]. split; [by rewrite <- Hp|auto].
  - intros ([H1 H2]%Forall_cons & H3 & H4). split; [|done].
    apply Forall_cons. split; [by apply apart_sym|done].
Qed.

Lemma exclusive_replace x ys rest :
  exclusive (x :: rest) → Forall (λ y, within y.1 x.1) ys → exclusive ys → exclusive (ys ++ rest).
Proof.
  intros [Hx Hr]. induction ys as [|y ys IH]; cbn; [done|]. intros [Hy Hys]%Forall_cons [H1 H2].
  split; [|auto]. apply Forall_app. split; [done|].
  eapply Forall_impl; [exact Hx|]. intros z. by apply apart_within.
Qed.

Section storage.
Context `{T : Target, A : Allocator}.

(** A view [p, len] of static data, or of no data, that shows [bs]. *)
Definition static_view (x : Bytes) (bs : list byte) : Prop :=
  b_vtable x = STATIC_VTABLE ∧ b_len x = zlen bs ∧ 0 < ptr_addr (b_ptr x) ∧ zlen bs <= isize_max ∧
  match b_ptr x with
  | PStatic s off => 0 <= off ∧ off + zlen bs <= zlen (st_bytes s) ∧
                     ztake (zlen bs) (zdrop off (st_bytes s)) = bs
  | PAddr _ => bs = []
  | _ => False
  end.

(** A view of the buffer [l], with contents [d], that shows [bs] from [off] on. *)
Definition block_view (l : nat) (d : list (option byte)) (x : Bytes) (off : Z) (bs : list byte) : Prop :=
  b_ptr x = PHeap l off ∧ b_len x = zlen bs ∧ 0 <= off ∧ off + zlen bs <= zlen d ∧
  ztake (zlen bs) (zdrop off d) = Some <$> bs.

(** The data word of a boxed slice at [l] that is not shared: the buffer pointer,
    with the lowest bit set if it was clear. *)
Definition boxed_word (l : nat) (x : Bytes) : Prop :=
  (Z.land (block_addr l) 1 = 0 ∧ b_vtable x = PROMOTABLE_EVEN_VTABLE ∧ b_data x = PHeap l 1) ∨
  (Z.land (block_addr l) 1 = 1 ∧ b_vtable x = PROMOTABLE_ODD_VTABLE ∧ b_data x = PHeap l 0).

Definition arc_vtable (vt : vtable) : Prop :=
  vt = SHARED_VTABLE ∨ vt = PROMOTABLE_EVEN_VTABLE ∨ vt = PROMOTABLE_ODD_VTABLE.

(** A handle that counts in the [Shared] at [o] over the buffer [l]. *)
Definition arc_view (o l : nat) (d : list (option byte)) (hc : handle * list byte) : Prop :=
  match hc with
  | (HBytes x, bs) => arc_vtable (b_vtable x) ∧ b_data x = PObj o ∧ ∃ off, block_view l d x off bs
  | _ => False
  end.

(** ** Vectors under a [BytesMut] *)

(** The buffer of a vector: one allocation, or none when the capacity is 0. *)
Inductive vbuf (h : heap) : ptr → list (option byte) → gset nat → Prop :=
| VBlock l d :
    cells h !! l = Some (CBlock d) → zlen d <= isize_max → 0 < zlen d → vbuf h (PHeap l 0) d {[l]}
| VNone : vbuf h dangling [] ∅.

(** A pointer [q], [off] bytes into the buffer [d] at [p], to the bytes [bs]. *)
Definition view_at (p : ptr) (d : list (option byte)) (q : ptr) (off : Z) (bs : list byte) : Prop :=
  q = ptr_add p off ∧ 0 <= off ∧ off + zlen bs <= zlen d ∧ ztake (zlen bs) (zdrop off d) = Some <$> bs.

Definition mut_view (p : ptr) (d : list (option byte)) (m : BytesMut) (off : Z) (bs : list byte) : Prop :=
  view_at p d (m_ptr m) off bs ∧ m_len m = zlen bs ∧ zlen bs <= m_cap m ∧ off + m_cap m <= zlen d.

(** The data word of a [BytesMut] that owns its vector. *)
Definition vec_word (repr pos : Z) : ptr := PAddr (pos * 32 + repr * 4 + 1).
Definition repr_ok (repr : Z) : Prop := 0 <= repr < 8.

(** A handle that counts in the [Shared] of bytes_mut.rs at [o] over the buffer at [p]. *)
Definition sharedv_view (o : nat) (p : ptr) (d : list (option byte)) (hc : handle * list byte) : Prop :=
  match hc with
  | (HBytes x, bs) =>
    b_vtable x = SHARED_V_VTABLE ∧ b_data x = PObj o ∧ b_len x = zlen bs ∧
    ∃ off, view_at p d (b_ptr x) off bs
  | (HMut m, bs) => m_data m = PObj o ∧ ∃ off, mut_view p d m off bs
  | _ => False
  end.

(** A handle that counts in the [Owned] box at [o] over the buffer at [p] of its owner. *)
Definition owned_view (o : nat) (p : ptr) (d : list (option byte)) (hc : handle * list byte) : Prop :=
  match hc with
  | (HBytes x, bs) =>
    b_vtable x = OWNED_VTABLE ∧ b_data x = PObj o ∧ b_len x = zlen bs ∧
    ∃ off, view_at p d (b_ptr x) off bs
  | _ => False
  end.

(** The memory of a group of handles. *)
Inductive storage (h : heap) : list (handle * list byte) → gset nat → Prop :=
| StStatic x bs :
    static_view x bs → storage h [(HBytes x, bs)] ∅
| StBoxed l d x off bs :
    cells h !! l = Some (CBlock d) → zlen d <= isize_max → 0 < zlen d →
    boxed_word l x → block_view l d x off bs → off + zlen bs = zlen d →
    storage h [(HBytes x, bs)] {[l]}
| StShared o l d rc xs :
    cells h !! o = Some (CShared {| sh_buf := PHeap l 0; sh_cap := zlen d; sh_ref_cnt := rc |}) →
    cells h !! l = Some (CBlock d) → zlen d <= isize_max → 0 < zlen d → o ≠ l →
    xs ≠ [] → rc = zlen xs → Forall (arc_view o l d) xs →
    storage h xs {[o; l]}
| StVec l d v bs :
    cells h !! l = Some (CBlock d) → zlen d <= isize_max → 0 < zlen d →
    v = {| hv_ptr := PHeap l 0; hv_len := zlen bs; hv_cap := zlen d |} →
    zlen bs <= zlen d → ztake (zlen bs) d = Some <$> bs →
    storage h [(HVec v, bs)] {[l]}
| StEmptyVec :
    storage h [(HVec {| hv_ptr := dangling; hv_len := 0; hv_cap := 0 |}, [])] ∅
| StMutVec p d fp m off repr bs :
    vbuf h p d fp → mut_view p d m off bs → off + m_cap m = zlen d →
    m_data m = vec_word repr off → repr_ok repr → off <= MAX_VEC_POS →
    storage h [(HMut m, bs)] fp
| StSharedV o p d fp n repr rc xs :
    cells h !! o = Some (CSharedV {| sv_vec := {| hv_ptr := p; hv_len := n; hv_cap := zlen d |};
      sv_original_capacity_repr := repr; sv_ref_count := rc |}) →
    vbuf h p d fp → o ∉ fp → repr_ok repr → xs ≠ [] → rc = zlen xs →
    Forall (sharedv_view o p d) xs → exclusive xs →
    storage h xs ({[o]} ∪ fp)
| StOwned o p d fp n rc xs :
    cells h !! o = Some (COwned {| ow_ref_cnt := rc;
      ow_owner := {| hv_ptr := p; hv_len := n; hv_cap := zlen d |} |}) →
    vbuf h p d fp → o ∉ fp → xs ≠ [] → rc = zlen xs → Forall (owned_view o p d) xs →
    storage h xs ({[o]} ∪ fp).

Lemma storage_perm h xs ys fp : storage h xs fp → xs ≡ₚ ys → storage h ys fp.
Proof.
  intros Hst Hp. destruct Hst as [x bs H|l d x off bs|o l d rc xs|l d v bs| |p d fp m off repr bs|o p d fp n repr rc xs|o p d fp n rc xs];
    try (apply Permutation_singleton_l in Hp; subst ys).
  - by apply StStatic.
  - by eapply StBoxed.
  - eapply StShared; try eassumption.
    + intros ->. by apply Permutation_nil_r in Hp.
    + unfold zlen in *. by rewrite <- Hp.
    + by rewrite <- Hp.
  - by eapply StVec.
  - apply StEmptyVec.
  - by eapply StMutVec.
  - eapply StSharedV; try eassumption.
    + intros ->. by apply Permutation_nil_r in Hp.
    + unfold zlen in *. by rewrite <- Hp.
    + by rewrite <- Hp.
    + by eapply exclusive_perm.
  - eapply StOwned; try eassumption.
    + intros ->. by apply Permutation_nil_r in Hp.
    + unfold zlen in *. by rewrite <- Hp.
    + by rewrite <- Hp.
Qed.

Lemma vbuf_agree h h' p d fp :
  vbuf h p d fp → (∀ l, l ∈ fp → cells h' !! l = cells h !! l) → vbuf h' p d fp.
Proof. intros [] Ha; constructor; try done. rewrite Ha; [done|set_solver]. Qed.

Lemma vbuf_some h p d fp l : vbuf h p d fp → l ∈ fp → is_Some (cells h !! l).
Proof. intros [] Hl; [apply elem_of_singleton in Hl as ->; eauto|set_solver]. Qed.

Lemma storage_agree h h' xs fp :
  storage h xs fp → (∀ l, l ∈ fp → cells h' !! l = cells h !! l) → storage h' xs fp.
Proof.
  intros [] Ha; econstructor; try eassumption;
    try (rewrite Ha; [eassumption|set_solver]); (eapply vbuf_agree; [eassumption|set_solver]).
Qed.

(** ** The whole heap *)
Definition group : Type := list (handle * list byte) * gset nat.

Definition footprint (gs : list group) : gset nat := ⋃ (snd <$> gs).

(** No allocation belongs to two groups. *)
Fixpoint separate (gs : list group) : Prop :=
  match gs with
  | [] => True
  | g :: gs => g.2 ## footprint gs ∧ separate gs
  end.

Definition wf (h : heap) (gs : list group) : Prop :=
  Forall (λ g, storage h g.1 g.2) gs ∧ separate gs ∧
  dom (cells h) = footprint gs ∧ (∀ l, l ∈ dom (cells h) → (l < next_loc h)%nat).

(** The live handles, each with the bytes it shows. *)
Definition pool_ok (h : heap) (hcs : list (handle * list byte)) : Prop :=
  ∃ gs, wf h gs ∧ hcs ≡ₚ concat (fst <$> gs).

(** From [h] to [h'] the group [fp] becomes the groups [gs'], with new allocations,
    and nothing else changes. *)
Definition local_step (h h' : heap) (fp : gset nat) (gs' : list group) : Prop :=
  Forall (λ g, storage h' g.1 g.2) gs' ∧ separate gs' ∧
  (next_loc h <= next_loc h')%nat ∧
  (∀ l, l ∈ footprint gs' → (l ∈ fp ∨ next_loc h <= l < next_loc h')%nat) ∧
  (∀ l, l ∉ fp → l ∉ footprint gs' → cells h' !! l = cells h !! l) ∧
  (∀ l, l ∈ fp → l ∉ footprint gs' → cells h' !! l = None).

Lemma footprint_cons g gs : footprint (g :: gs) = g.2 ∪ footprint gs.
Proof. done. Qed.

Lemma footprint_app gs gs' : footprint (gs ++ gs') = footprint gs ∪ footprint gs'.
Proof.
  unfold footprint. by rewrite fmap_app, union_list_app_L.
Qed.

Lemma elem_footprint l gs : l ∈ footprint gs ↔ ∃ g, g ∈ gs ∧ l ∈ g.2.
Proof.
  unfold footprint. rewrite elem_of_union_list. split.
  - intros (X & (g & -> & Hg)%list_elem_of_fmap & Hl). eauto.
  - intros (g & Hg & Hl). exists g.2. split; [by apply list_elem_of_fmap_2|done].
Qed.

Lemma separate_app gs gs' :
  separate gs → separate gs' → footprint gs ## footprint gs' →
  separate (gs ++ gs').
Proof.
  induction gs as [|g gs IH]; [done|]. cbn [separate app].
  intros [H1 H2] H3 H4. rewrite footprint_cons in H4. split.
  - rewrite footprint_app. set_solver.
  - apply IH; [done|done|set_solver].
Qed.

Lemma storage_some h xs fp l : storage h xs fp → l ∈ fp → is_Some (cells h !! l).
Proof.
  intros [] Hl; try set_solver; rewrite ?elem_of_union, ?elem_of_singleton in Hl;
    repeat (destruct Hl as [-> | Hl] || subst l); subst; eauto using vbuf_some.
Qed.

Lemma footprint_some h gs l :
  Forall (λ g, storage h g.1 g.2) gs → l ∈ footprint gs → is_Some (cells h !! l).
Proof.
  intros Hf (g & Hg & Hl)%elem_footprint. rewrite Forall_forall in Hf.
  eapply storage_some; [by apply Hf|done].
Qed.

Lemma wf_local_gen h h' fp gs gs' :
  Forall (λ g, storage h g.1 g.2) gs → separate gs → fp ## footprint gs →
  dom (cells h) = fp ∪ footprint gs → (∀ l, l ∈ dom (cells h) → (l < next_loc h)%nat) →
  local_step h h' fp gs' → wf h' (gs' ++ gs).
Proof.
  intros Hst Hdis Hgd Hdom Hlt (Hst' & Hdis' & Hn & Hin & Hsame & Hgone).
  assert (Hlts : ∀ l, l ∈ footprint gs → (l < next_loc h)%nat) by (intros l Hl; apply Hlt; set_solver).
  assert (Hdd : footprint gs' ## footprint gs).
  { intros l H1 H2. destruct (Hin l H1); [set_solver|]. specialize (Hlts l H2). lia. }
  split; [|split; [|split]].
  - apply Forall_app. split; [done|]. rewrite Forall_forall in Hst |- *. intros g' Hg'.
    eapply storage_agree; [by apply Hst|]. intros l Hl.
    assert (l ∈ footprint gs) by (apply elem_footprint; eauto). apply Hsame; set_solver.
  - by apply separate_app.
  - rewrite footprint_app. apply set_eq. intros l. rewrite elem_of_dom, elem_of_union. split.
    + intros Hs. destruct (decide (l ∈ footprint gs')) as [|Hn']; [by left|right].
      destruct (decide (l ∈ fp)) as [Hl|Hl].
      * rewrite Hgone in Hs by done. by destruct Hs.
      * rewrite Hsame in Hs by done. apply elem_of_dom in Hs. set_solver.
    + intros [Hl|Hl]; [by eapply footprint_some|]. rewrite Hsame by set_solver.
      apply elem_of_dom. set_solver.
  - intros l Hl. apply elem_of_dom in Hl. destruct (decide (l ∈ footprint gs')) as [Hf|Hf].
    + destruct (Hin l Hf) as [Hl'|]; [|lia]. assert (l < next_loc h)%nat by (apply Hlt; set_solver). lia.
    + destruct (decide (l ∈ fp)) as [Hl'|Hl']; [rewrite Hgone in Hl by done; by destruct Hl|].
      rewrite Hsame in Hl by done. apply elem_of_dom in Hl. specialize (Hlt l Hl). lia.
Qed.

Lemma wf_local h h' g gs gs' :
  wf h (g :: gs) → local_step h h' g.2 gs' → wf h' (gs' ++ gs).
Proof.
  intros (Hst & [Hgd Hdis] & Hdom & Hlt) Hloc. apply Forall_cons in Hst as [Hg Hst].
  by apply (wf_local_gen h h' g.2).
Qed.

(** New memory for a new group. *)
Lemma wf_alloc h h' gs gs' : wf h gs → local_step h h' ∅ gs' → wf h' (gs' ++ gs).
Proof.
  intros (Hst & Hdis & Hdom & Hlt) Hloc. apply (wf_local_gen h h' ∅); try done.
  by rewrite union_empty_l_L.
Qed.

End storage.
