(* ===== verification/BytesOps.v ===== *)
(** * BytesOps: what the operations of [Bytes] do to the pool of live handles

    The primitive operations (clone, drop, narrowing a view, the conversions) are
    proved on one group of BytesInv.v and lifted to the whole pool; the others
    compose them. *)

From S2P Require Import Prelude Machine Loom Heap Bytes BytesMut BytesInv.
From stdpp Require Import fin_maps fin_sets.
Open Scope Z_scope.

(** ** Memory primitives *)
Lemma get_cell_ok h l c : cells h !! l = Some c → get_cell l h = Ret (c, h).
Proof. unfold get_cell. by intros ->. Qed.

Lemma free_cell_ok h l c : cells h !! l = Some c → free_cell l h = Ret (tt, heap_delete l h).
Proof. unfold free_cell. by intros ->. Qed.

Lemma dealloc_ok h l d :
  cells h !! l = Some (CBlock d) → 0 < zlen d →
  dealloc (PHeap l 0) (zlen d) h = Ret (tt, heap_delete l h).
Proof.
  intros Hl Hd. unfold dealloc. hstep (get_cell_ok _ _ _ Hl).
  rewrite (proj2 (Z.ltb_lt _ _)), Z.eqb_refl by done. by eapply free_cell_ok.
Qed.

Lemma read_raw_block h l d off n :
  cells h !! l = Some (CBlock d) → 0 <= off → 0 <= n → off + n <= zlen d →
  read_raw (PHeap l off) n h = Ret (ztake n (zdrop off d), h).
Proof.
  intros Hl Ho Hn Hle. unfold read_raw. destruct (Z.eqb_spec n 0) as [->|]; [done|].
  hstep (get_cell_ok _ _ _ Hl).
  rewrite (proj2 (Z.leb_le 0 off)), (proj2 (Z.ltb_lt 0 n)), (proj2 (Z.leb_le _ _)) by lia. done.
Qed.

Lemma read_slice_block h l d off bs :
  cells h !! l = Some (CBlock d) → 0 <= off → off + zlen bs <= zlen d →
  ztake (zlen bs) (zdrop off d) = Some <$> bs →
  read_slice (PHeap l off) (zlen bs) h = Ret (bs, h).
Proof.
  intros Hl Ho Hle E. unfold read_slice.
  rewrite (hm_bind_Ret _ _ _ _ _ (read_raw_block h l d off (zlen bs) Hl Ho (zlen_nonneg bs) Hle)).
  by rewrite E, mapM_id_Some.
Qed.

Lemma write_raw_block h l d off raw :
  cells h !! l = Some (CBlock d) → 0 <= off → off + zlen raw <= zlen d →
  write_raw (PHeap l off) raw h = Ret (tt, heap_insert l (CBlock (splice d off raw)) h).
Proof.
  intros Hl Ho Hle. unfold write_raw. destruct (Z.eqb_spec (zlen raw) 0) as [E|].
  - apply zlen_0_nil in E as ->. unfold splice. cbn. rewrite zlen_nil, Z.add_0_r, ztake_zdrop.
    unfold mret, HM_ret, heap_insert. rewrite insert_id by done. by destruct h.
  - hstep (get_cell_ok _ _ _ Hl).
    by rewrite (proj2 (Z.leb_le 0 off)), (proj2 (Z.leb_le _ _)) by lia.
Qed.

Lemma on_ref_cnt_ok h o s prog :
  cells h !! o = Some (CShared s) →
  on_ref_cnt (PObj o) prog h =
    Ret (fst (run prog (sh_ref_cnt s)),
         heap_insert o (CShared {| sh_buf := sh_buf s; sh_cap := sh_cap s;
                                   sh_ref_cnt := snd (run prog (sh_ref_cnt s)) |}) h).
Proof.
  intros Ho. unfold on_ref_cnt. hstep (get_cell_ok _ _ _ Ho).
  by destruct (run prog (sh_ref_cnt s)).
Qed.

Lemma take_shared_ok h o s :
  cells h !! o = Some (CShared s) → take_shared (PObj o) h = Ret (s, heap_delete o h).
Proof.
  intros Ho. unfold take_shared. hstep (get_cell_ok _ _ _ Ho). by hstep (free_cell_ok _ _ _ Ho).
Qed.

Lemma on_ref_count_ok h o s prog :
  cells h !! o = Some (CSharedV s) →
  on_ref_count (PObj o) prog h =
    Ret (fst (run prog (sv_ref_count s)),
         heap_insert o (CSharedV {| sv_vec := sv_vec s;
           sv_original_capacity_repr := sv_original_capacity_repr s;
           sv_ref_count := snd (run prog (sv_ref_count s)) |}) h).
Proof.
  intros Ho. unfold on_ref_count. hstep (get_cell_ok _ _ _ Ho).
  by destruct (run prog (sv_ref_count s)).
Qed.

Lemma take_shared_v_ok h o s :
  cells h !! o = Some (CSharedV s) → take_shared_v (PObj o) h = Ret (s, heap_delete o h).
Proof.
  intros Ho. unfold take_shared_v. hstep (get_cell_ok _ _ _ Ho). by hstep (free_cell_ok _ _ _ Ho).
Qed.

Lemma heap_insert_id o c h : cells h !! o = Some c → heap_insert o c h = h.
Proof. intros Ho. unfold heap_insert. rewrite insert_id by done. by destruct h. Qed.

Lemma heap_delete_insert o c h : heap_delete o (heap_insert o c h) = heap_delete o h.
Proof. unfold heap_delete, heap_insert. cbn. by rewrite delete_insert_eq. Qed.

Section ops.
Context `{T : Target, A : Allocator}.

Lemma isize_shiftr : Z.shiftr usize_max 1 = isize_max.
Proof.
  rewrite Z.shiftr_div_pow2 by lia. rewrite usize_isize_max.
  replace (2 * isize_max + 1) with (isize_max * 2 ^ 1 + 1) by lia.
  rewrite Z.div_add_l by lia. change (1 / 2 ^ 1) with 0. lia.
Qed.

Lemma isize_max_pos : 2147483647 <= isize_max.
Proof. unfold isize_max. destruct ptr_width_cases as [-> | ->]; lia. Qed.

Lemma usize_succ_small n : 0 <= n <= isize_max → wrap_unsigned ptr_width (n + 1) = n + 1.
Proof.
  intros Hn. apply wrap_unsigned_small. pose proof usize_isize_max. pose proof isize_max_pos.
  unfold usize_max in *. lia.
Qed.

Lemma usize_pred_small n : 1 <= n <= isize_max + 1 → wrap_unsigned ptr_width (n - 1) = n - 1.
Proof.
  intros Hn. apply wrap_unsigned_small. pose proof usize_isize_max. pose proof isize_max_pos.
  unfold usize_max in *. lia.
Qed.

(** ** Reference counts *)
Lemma shallow_clone_arc_ok h o s p len :
  cells h !! o = Some (CShared s) → 1 <= sh_ref_cnt s <= isize_max →
  shallow_clone_arc (PObj o) p len h =
    Ret ({| b_ptr := p; b_len := len; b_data := PObj o; b_vtable := SHARED_VTABLE |},
         heap_insert o (CShared {| sh_buf := sh_buf s; sh_cap := sh_cap s;
                                   sh_ref_cnt := sh_ref_cnt s + 1 |}) h).
Proof.
  intros Ho Hr. unfold shallow_clone_arc. hstep (on_ref_cnt_ok h o s (atomic_fetch_add 1) Ho).
  cbn [run atomic_fetch_add fst snd response_val]. hret.
  rewrite isize_shiftr, (proj2 (Z.ltb_ge _ _)), usize_succ_small by lia. done.
Qed.

Lemma release_shared_many h o s :
  cells h !! o = Some (CShared s) → 1 < sh_ref_cnt s <= isize_max →
  release_shared (PObj o) h =
    Ret (tt, heap_insert o (CShared {| sh_buf := sh_buf s; sh_cap := sh_cap s;
                                       sh_ref_cnt := sh_ref_cnt s - 1 |}) h).
Proof.
  intros Ho Hr. unfold release_shared. hstep (on_ref_cnt_ok h o s (atomic_fetch_sub 1) Ho).
  cbn [run atomic_fetch_sub fst snd response_val]. hret.
  rewrite (proj2 (Z.eqb_neq _ _)), usize_pred_small by lia. done.
Qed.

Lemma release_shared_last h o l d :
  cells h !! o = Some (CShared {| sh_buf := PHeap l 0; sh_cap := zlen d; sh_ref_cnt := 1 |}) →
  cells h !! l = Some (CBlock d) → 0 < zlen d → o ≠ l →
  release_shared (PObj o) h = Ret (tt, heap_delete l (heap_delete o h)).
Proof.
  intros Ho Hl Hd Hne. unfold release_shared. hstep (on_ref_cnt_ok h o _ (atomic_fetch_sub 1) Ho).
  cbn [run atomic_fetch_sub fst snd response_val sh_ref_cnt]. hret.
  rewrite Z.eqb_refl. cbn [negb]. cbn [sh_buf sh_cap sh_ref_cnt].
  set (h1 := heap_insert o _ h).
  assert (H1 : cells h1 !! o = Some (CShared {| sh_buf := PHeap l 0; sh_cap := zlen d;
    sh_ref_cnt := wrap_unsigned ptr_width (1 - 1) |})) by apply lookup_insert_eq.
  hstep (on_ref_cnt_ok h1 o _ atomic_load H1). cbn [run atomic_load fst snd sh_buf sh_cap sh_ref_cnt].
  set (h2 := heap_insert o _ h1).
  assert (H2 : cells h2 !! o = Some (CShared {| sh_buf := PHeap l 0; sh_cap := zlen d;
    sh_ref_cnt := wrap_unsigned ptr_width (1 - 1) |})) by apply lookup_insert_eq.
  hstep (take_shared_ok h2 o _ H2). unfold h2, h1. rewrite !heap_delete_insert.
  unfold drop_shared. cbn [sh_buf sh_cap]. apply dealloc_ok; [|done].
  cbn. by rewrite lookup_delete_ne.
Qed.

(** The same for the [Shared] of bytes_mut.rs. *)
Definition with_count (s : shared_v) (n : Z) : shared_v :=
  {| sv_vec := sv_vec s; sv_original_capacity_repr := sv_original_capacity_repr s; sv_ref_count := n |}.

Lemma increment_shared_ok h o s :
  cells h !! o = Some (CSharedV s) → 1 <= sv_ref_count s <= isize_max →
  increment_shared (PObj o) h = Ret (tt, heap_insert o (CSharedV (with_count s (sv_ref_count s + 1))) h).
Proof.
  intros Ho Hr. unfold increment_shared. hstep (on_ref_count_ok h o s (atomic_fetch_add 1) Ho).
  cbn [run atomic_fetch_add fst snd response_val]. hret.
  rewrite (proj2 (Z.ltb_ge _ _)), usize_succ_small by lia. done.
Qed.

Lemma release_shared_v_many h o s :
  cells h !! o = Some (CSharedV s) → 1 < sv_ref_count s <= isize_max →
  release_shared_v (PObj o) h = Ret (tt, heap_insert o (CSharedV (with_count s (sv_ref_count s - 1))) h).
Proof.
  intros Ho Hr. unfold release_shared_v. hstep (on_ref_count_ok h o s (atomic_fetch_sub 1) Ho).
  cbn [run atomic_fetch_sub fst snd response_val]. hret.
  rewrite (proj2 (Z.eqb_neq _ _)), usize_pred_small by lia. done.
Qed.

(** The last handle frees the box and drops the vector in it. *)
Lemma release_shared_v_last h o s :
  cells h !! o = Some (CSharedV s) → sv_ref_count s = 1 →
  release_shared_v (PObj o) h = drop_vec (sv_vec s) (heap_delete o h).
Proof.
  intros Ho Hr. unfold release_shared_v. hstep (on_ref_count_ok h o s (atomic_fetch_sub 1) Ho).
  cbn [run atomic_fetch_sub fst snd response_val]. hret. rewrite Hr, Z.eqb_refl. cbn [negb].
  set (h1 := heap_insert o _ h).
  assert (H1 : cells h1 !! o = Some (CSharedV (with_count s (wrap_unsigned ptr_width (1 - 1)))))
    by apply lookup_insert_eq.
  hstep (on_ref_count_ok h1 o _ atomic_load H1).
  set (h2 := heap_insert o _ h1).
  assert (H2 : cells h2 !! o = Some (CSharedV (with_count s (wrap_unsigned ptr_width (1 - 1)))))
    by apply lookup_insert_eq.
  hstep (take_shared_v_ok h2 o _ H2). unfold h2, h1. by rewrite !heap_delete_insert.
Qed.

Lemma is_unique_ok h o s :
  cells h !! o = Some (CSharedV s) →
  is_unique (PObj o) h = Ret (sv_ref_count s =? 1, h) ∧
  shared_v_is_unique (PObj o) h = Ret (sv_ref_count s =? 1, h).
Proof.
  intros Ho. unfold is_unique, shared_v_is_unique.
  rewrite !(hm_bind_Ret _ _ _ _ _ (on_ref_count_ok h o s atomic_load Ho)).
  cbn [run atomic_load fst snd response_val]. hret.
  assert (E : heap_insert o (CSharedV {| sv_vec := sv_vec s;
    sv_original_capacity_repr := sv_original_capacity_repr s; sv_ref_count := sv_ref_count s |}) h = h).
  { apply heap_insert_id. by destruct s. }
  by rewrite E.
Qed.

(** The same for an [Owned] box. *)
Definition with_owned_count (s : owned) (n : Z) : owned := {| ow_ref_cnt := n; ow_owner := ow_owner s |}.

Lemma on_owned_cnt_ok h o s prog :
  cells h !! o = Some (COwned s) →
  on_owned_cnt (PObj o) prog h =
    Ret (fst (run prog (ow_ref_cnt s)), heap_insert o (COwned (with_owned_count s (snd (run prog (ow_ref_cnt s))))) h).
Proof.
  intros Ho. unfold on_owned_cnt. hstep (get_cell_ok h o _ Ho). by destruct (run prog (ow_ref_cnt s)).
Qed.

Lemma owned_clone_ok h o s p len :
  cells h !! o = Some (COwned s) → 1 <= ow_ref_cnt s <= isize_max →
  owned_clone (PObj o) p len h =
    Ret ({| b_ptr := p; b_len := len; b_data := PObj o; b_vtable := OWNED_VTABLE |},
         heap_insert o (COwned (with_owned_count s (ow_ref_cnt s + 1))) h).
Proof.
  intros Ho Hr. unfold owned_clone. hstep (on_owned_cnt_ok h o s (atomic_fetch_add 1) Ho).
  cbn [run atomic_fetch_add fst snd response_val]. hret.
  rewrite isize_shiftr, (proj2 (Z.ltb_ge _ _)), usize_succ_small by lia. done.
Qed.

Lemma owned_drop_many h o s :
  cells h !! o = Some (COwned s) → 1 < ow_ref_cnt s <= isize_max →
  owned_drop_impl (PObj o) h = Ret (tt, heap_insert o (COwned (with_owned_count s (ow_ref_cnt s - 1))) h).
Proof.
  intros Ho Hr. unfold owned_drop_impl. hstep (on_owned_cnt_ok h o s (atomic_fetch_sub 1) Ho).
  cbn [run atomic_fetch_sub fst snd response_val]. hret.
  rewrite isize_shiftr, (proj2 (Z.ltb_lt _ _)), (proj2 (Z.leb_le _ _)) by lia. cbn [andb].
  unfold hdebug_assert. rewrite debug_assert_true by done. hret.
  rewrite (proj2 (Z.eqb_neq _ _)), usize_pred_small by lia. done.
Qed.

(** The last handle frees the box and drops the owner in it. *)
Lemma owned_drop_last h o s :
  cells h !! o = Some (COwned s) → ow_ref_cnt s = 1 →
  owned_drop_impl (PObj o) h = drop_vec (ow_owner s) (heap_delete o h).
Proof.
  intros Ho Hr. unfold owned_drop_impl. hstep (on_owned_cnt_ok h o s (atomic_fetch_sub 1) Ho).
  cbn [run atomic_fetch_sub fst snd response_val]. hret. rewrite Hr, Z.eqb_refl. cbn [negb].
  pose proof isize_max_pos. rewrite isize_shiftr, (proj2 (Z.leb_le _ _)) by lia. cbn [andb Z.ltb Z.compare].
  unfold hdebug_assert. rewrite debug_assert_true by done. hret.
  set (h1 := heap_insert o _ h).
  assert (H1 : cells h1 !! o = Some (COwned (with_owned_count s (wrap_unsigned ptr_width (1 - 1)))))
    by apply lookup_insert_eq.
  hstep (on_owned_cnt_ok h1 o _ atomic_load H1).
  set (h2 := heap_insert o _ h1).
  assert (H2 : cells h2 !! o = Some (COwned (with_owned_count s (wrap_unsigned ptr_width (1 - 1)))))
    by apply lookup_insert_eq.
  assert (E : take_owned (PObj o) h2 = Ret (with_owned_count s (wrap_unsigned ptr_width (1 - 1)), heap_delete o h2)).
  { unfold take_owned. hstep (get_cell_ok h2 o _ H2). unfold free_cell.
    unfold mbind, HM_bind. by rewrite H2. }
  hstep E. unfold h2, h1. by rewrite !heap_delete_insert.
Qed.

(** ** Views *)
Lemma ptr_add_add p n k : ptr_add (ptr_add p n) k = ptr_add p (n + k).
Proof. destruct p; cbn; f_equal; lia. Qed.

Lemma ptr_add_0 p : ptr_add p 0 = p.
Proof. destruct p; cbn; by rewrite ?Z.add_0_r. Qed.

Lemma vbuf_size h p d fp : vbuf h p d fp → 0 <= zlen d <= isize_max.
Proof. pose proof isize_max_pos. intros []; zlia. Qed.

Lemma vbuf_off h p d fp off : vbuf h p d fp → 0 <= off <= zlen d → ptr_off (ptr_add p off) = off.
Proof. intros [] Ho; [done|]. rewrite (zlen_nil (A:=option byte)) in Ho. cbn. lia. Qed.

Lemma vbuf_addr h p d fp off : vbuf h p d fp → 0 <= off → 0 < ptr_addr (ptr_add p off).
Proof. intros [l d'|] Ho; cbn; [pose proof (block_addr_pos l)|]; lia. Qed.

Lemma vbuf_offset_from h p d fp off :
  vbuf h p d fp → 0 <= off <= zlen d → offset_from (ptr_add p off) p h = Ret (off, h).
Proof.
  intros [l d' Hl|] Ho; cbn [ptr_add].
  - unfold offset_from. rewrite bool_decide_true, (proj2 (Z.leb_le _ _)) by lia.
    cbn [andb Z.add]. by rewrite Z.sub_0_r.
  - rewrite (zlen_nil (A:=option byte)) in Ho. by assert (off = 0) as -> by lia.
Qed.

Lemma vbuf_drop h p d fp n :
  vbuf h p d fp →
  ∃ h', drop_vec {| hv_ptr := p; hv_len := n; hv_cap := zlen d |} h = Ret (tt, h') ∧
    next_loc h' = next_loc h ∧ (∀ l, l ∉ fp → cells h' !! l = cells h !! l) ∧
    (∀ l, l ∈ fp → cells h' !! l = None).
Proof.
  intros [l d' Hl Hi Hd|]; unfold drop_vec; cbn [hv_cap hv_ptr].
  - exists (heap_delete l h). rewrite (proj2 (Z.eqb_neq _ _)) by lia.
    split; [by apply dealloc_ok|]. split; [done|]. split.
    + intros k Hk. cbn. rewrite lookup_delete_ne by set_solver. done.
    + intros k ->%elem_of_singleton. apply lookup_delete_eq.
  - exists h. split; [done|]. split; [done|]. split; [done|]. set_solver.
Qed.

Lemma vbuf_read_raw h p d fp off n :
  vbuf h p d fp → 0 <= off → 0 <= n → off + n <= zlen d →
  read_raw (ptr_add p off) n h = Ret (ztake n (zdrop off d), h).
Proof.
  intros [l d' Hl|] Ho Hn Hle; [by apply read_raw_block|].
  rewrite (zlen_nil (A:=option byte)) in Hle. assert (n = 0) as -> by lia. done.
Qed.

(** Writing within the buffer of a vector. *)
Lemma vbuf_write h p d fp off raw :
  vbuf h p d fp → 0 <= off → off + zlen raw <= zlen d →
  ∃ h', write_raw (ptr_add p off) raw h = Ret (tt, h') ∧ vbuf h' p (splice d off raw) fp ∧
    next_loc h' = next_loc h ∧ (∀ l, l ∉ fp → cells h' !! l = cells h !! l).
Proof.
  intros [l d' Hl Hi Hd|] Ho Hle.
  - exists (heap_insert l (CBlock (splice d' off raw)) h). split; [by apply write_raw_block|].
    split; [constructor; rewrite ?zlen_splice by done; [apply lookup_insert_eq|done|done]|].
    split; [done|]. intros k Hk. cbn. rewrite lookup_insert_ne by set_solver. done.
  - rewrite (zlen_nil (A:=option byte)) in Hle. pose proof (zlen_nonneg raw).
    assert (raw = []) as -> by (apply zlen_0_nil; lia).
    exists h. unfold splice. rewrite ztake_nil, zdrop_nil. split; [done|]. split; [constructor|done].
Qed.

Lemma view_at_read h p d fp q off bs :
  vbuf h p d fp → view_at p d q off bs → read_slice q (zlen bs) h = Ret (bs, h).
Proof.
  intros Hv (-> & Ho & Hle & E). unfold read_slice.
  rewrite (hm_bind_Ret _ _ _ _ _ (vbuf_read_raw h p d fp off (zlen bs) Hv Ho (zlen_nonneg bs) Hle)).
  by rewrite E, mapM_id_Some.
Qed.

Lemma view_at_narrow p d q off bs n k :
  view_at p d q off bs → 0 <= n → 0 <= k → n + k <= zlen bs →
  view_at p d (ptr_add q n) (off + n) (ztake k (zdrop n bs)).
Proof.
  intros (-> & Ho & Hle & E) Hn Hk Hnk. unfold view_at. rewrite ptr_add_add.
  rewrite zlen_take by zlia. split; [done|]. split; [lia|]. split; [lia|].
  rewrite fmap_ztake, fmap_zdrop, <- E.
  rewrite zdrop_ztake by lia. rewrite zdrop_zdrop by lia.
  rewrite ztake_ztake, Z.min_l by lia. done.
Qed.

Definition narrow (x : Bytes) (n k : Z) : Bytes := bytes_with_ptr x (ptr_add (b_ptr x) n) k.

(** The data word does not tie the view to the end of the buffer. *)
Definition shareable (x : Bytes) : Prop := b_vtable x = STATIC_VTABLE ∨ ∃ o, b_data x = PObj o.

Lemma block_view_narrow l d x off bs n k :
  block_view l d x off bs → 0 <= n → 0 <= k → n + k <= zlen bs →
  block_view l d (narrow x n k) (off + n) (ztake k (zdrop n bs)).
Proof.
  intros (Hp & Hl & Ho & Hle & E) Hn Hk Hnk. unfold block_view, narrow. cbn.
  rewrite Hp. rewrite zlen_take by zlia. split; [done|]. split; [done|]. split; [lia|]. split; [lia|].
  rewrite fmap_ztake, fmap_zdrop, <- E.
  rewrite zdrop_ztake by lia. rewrite zdrop_zdrop by lia.
  rewrite ztake_ztake, Z.min_l by lia. done.
Qed.

Lemma static_view_narrow x bs n k :
  static_view x bs → 0 <= n → 0 <= k → n + k <= zlen bs →
  static_view (narrow x n k) (ztake k (zdrop n bs)).
Proof.
  intros (Hv & Hl & Ha & Hi & Hp) Hn Hk Hnk. unfold static_view, narrow. cbn.
  rewrite zlen_take by zlia. split; [done|]. split; [done|].
  destruct (b_ptr x) as [| s off | |a]; try done; cbn in *.
  - destruct Hp as (Ho & Hle & E). split; [lia|]. split; [lia|]. split; [lia|]. split; [lia|].
    rewrite <- E. rewrite zdrop_ztake, zdrop_zdrop, ztake_ztake, Z.min_l by lia. done.
  - subst bs. rewrite zlen_nil in Hnk. assert (n = 0 ∧ k = 0) as [-> ->] by lia. cbn. split; [lia|]. split; [pose proof isize_max_pos; lia|done].
Qed.

(** What a handle of a [Shared] of bytes_mut.rs reaches. *)
Lemma sharedv_range h o p d fp x bs :
  vbuf h p d fp → sharedv_view o p d (x, bs) → 0 <= h_lo x <= h_hi x ∧ h_hi x <= zlen d.
Proof.
  intros Hv. destruct x as [x|v|m]; cbn [sharedv_view]; [|done|].
  - intros (_ & _ & Hl & off & Hp & Ho & Hle & _). unfold h_hi, h_lo. rewrite Hp, Hl.
    rewrite (vbuf_off h p d fp) by (done || zlia). zlia.
  - intros (_ & off & (Hp & Ho & Hle & _) & Hl & Hc & Hcap). unfold h_hi, h_lo. rewrite Hp.
    rewrite (vbuf_off h p d fp) by (done || zlia). zlia.
Qed.

Lemma sharedv_narrow h o p d fp x bs n k :
  vbuf h p d fp → sharedv_view o p d (HBytes x, bs) → 0 <= n → 0 <= k → n + k <= zlen bs →
  sharedv_view o p d (HBytes (narrow x n k), ztake k (zdrop n bs)) ∧
  within (HBytes (narrow x n k)) (HBytes x).
Proof.
  intros Hb (Hvt & Hdt & Hlen & off & Hv) Hn Hk Hnk. pose proof Hv as (Hp & Ho & Hle & _). split.
  - split; [done|]. split; [done|]. split; [by cbn; rewrite zlen_take by zlia|].
    exists (off + n). by apply view_at_narrow.
  - unfold within, h_hi, h_lo, narrow. cbn [b_ptr b_len bytes_with_ptr].
    rewrite Hp, Hlen, ptr_add_add, !(vbuf_off h p d fp) by (done || lia).
    split; [lia|]. split; [lia|done].
Qed.

Lemma owned_narrow o p d x bs n k :
  owned_view o p d (HBytes x, bs) → 0 <= n → 0 <= k → n + k <= zlen bs →
  owned_view o p d (HBytes (narrow x n k), ztake k (zdrop n bs)).
Proof.
  intros (Hvt & Hdt & Hlen & off & Hv) Hn Hk Hnk.
  split; [done|]. split; [done|]. split; [by cbn; rewrite zlen_take by zlia|].
  exists (off + n). by apply view_at_narrow.
Qed.

Lemma storage_narrow h x bs rest fp n k :
  storage h ((HBytes x, bs) :: rest) fp → 0 <= n → 0 <= k → n + k <= zlen bs →
  shareable x ∨ n + k = zlen bs →
  storage h ((HBytes (narrow x n k), ztake k (zdrop n bs)) :: rest) fp.
Proof.
  intros Hst Hn Hk Hnk Hsh.
  inversion Hst as [x' bs' Hv|l d x' off bs' Hl Hi Hd Hw Hb Hend|o l d rc xs Ho Hl Hi Hd Hne Hxs Hrc Hf| | |
    |o p d fp' n' repr rc xs Ho Hb Hof Hre Hxs Hrc Hf Hex|o p d fp' n' rc xs Ho Hb Hof Hxs Hrc Hf]; subst.
  - apply StStatic. by apply static_view_narrow.
  - assert (Hend' : n + k = zlen bs).
    { destruct Hsh as [[Hs | [o Hs]]|]; [| |done]; destruct Hw as [(_ & Hvt & Hdt)|(_ & Hvt & Hdt)]; congruence. }
    eapply (StBoxed h l d _ (off + n)); [done|done|done|done| |].
    + by apply block_view_narrow.
    + rewrite zlen_take by zlia. lia.
  - apply Forall_cons in Hf as [(Hvt & Hdt & off & Hb) Hf].
    eapply (StShared h o l d); [done|done|done|done|done|done| |].
    + by rewrite !zlen_cons.
    + apply Forall_cons. split; [|done]. split; [done|]. split; [done|].
      exists (off + n). by apply block_view_narrow.
  - apply Forall_cons in Hf as [Hx Hf].
    destruct (sharedv_narrow h o p d fp' x bs n k Hb Hx Hn Hk Hnk) as [Hx' Hw].
    eapply (StSharedV h o p d fp' n' repr); [done|done|done|done|done| | |].
    + by rewrite !zlen_cons.
    + by apply Forall_cons.
    + by apply (exclusive_replace (HBytes x, bs) [_] rest); [|apply Forall_singleton|].
  - apply Forall_cons in Hf as [Hx Hf]. eapply (StOwned h o p d fp' n'); try done.
    apply Forall_cons. split; [by apply owned_narrow|done].
Qed.

(** Every live handle reads exactly the bytes it is said to show. *)
Lemma storage_read h xs fp x bs :
  storage h xs fp → (HBytes x, bs) ∈ xs → bytes_as_slice x h = Ret (bs, h).
Proof.
  intros Hst Hin. unfold bytes_as_slice.
  assert (Hblk : ∀ l d off, cells h !! l = Some (CBlock d) → block_view l d x off bs →
            read_slice (b_ptr x) (b_len x) h = Ret (bs, h)).
  { intros l d off Hl (-> & -> & Ho & Hle & E). by eapply read_slice_block. }
  destruct Hst as [x' bs' Hv|l d x' off bs' Hl Hi Hd Hw Hb Hend|o l d rc xs Ho Hl Hi Hd Hne Hxs Hrc Hf| | |
    |o p d fp n repr rc xs Ho Hb Hof Hre Hxs Hrc Hf Hex|o p d fp n rc xs Ho Hb Hof Hxs Hrc Hf].
  - apply list_elem_of_singleton in Hin as [= <- <-]. destruct Hv as (_ & -> & _ & _ & Hp).
    unfold read_slice, read_raw. destruct (Z.eqb_spec (zlen bs) 0) as [E|E].
    + apply zlen_0_nil in E as ->. done.
    + destruct (b_ptr x) as [|s off| |]; try done; [|subst bs; by rewrite zlen_nil in E].
      destruct Hp as (Ho & Hle & Et). pose proof (zlen_nonneg bs).
      rewrite (proj2 (Z.leb_le 0 off)), (proj2 (Z.ltb_lt 0 _)), (proj2 (Z.leb_le _ _)) by lia.
      hret. cbn. rewrite hm_bind_mret. by rewrite Et, mapM_id_Some.
  - apply list_elem_of_singleton in Hin as [= <- <-]. by eapply Hblk.
  - rewrite Forall_forall in Hf. apply Hf in Hin as (_ & _ & off & Hb). by eapply Hblk.
  - by apply list_elem_of_singleton in Hin.
  - by apply list_elem_of_singleton in Hin.
  - by apply list_elem_of_singleton in Hin.
  - rewrite Forall_forall in Hf. apply Hf in Hin as (_ & _ & -> & off & Hv). by eapply view_at_read.
  - rewrite Forall_forall in Hf. apply Hf in Hin as (_ & _ & -> & off & Hv). by eapply view_at_read.
Qed.

(** ** Local steps *)
Lemma footprint_one xs fp : footprint [(xs, fp)] = fp.
Proof. unfold footprint. cbn. by rewrite union_empty_r_L. Qed.

Lemma local_same h xs fp : storage h xs fp → local_step h h fp [(xs, fp)].
Proof.
  intros Hst. unfold local_step. rewrite footprint_one.
  split; [by apply Forall_singleton|]. split; [split; [unfold footprint; cbn; set_solver|done]|].
  split; [lia|]. split; [auto|]. split; [done|]. set_solver.
Qed.

(** A group that changes cells of its own only, and keeps its allocations. *)
Lemma local_update h h' xs fp :
  storage h' xs fp → next_loc h' = next_loc h →
  (∀ l, l ∉ fp → cells h' !! l = cells h !! l) → local_step h h' fp [(xs, fp)].
Proof.
  intros Hst Hn Hs. unfold local_step. rewrite footprint_one.
  split; [by apply Forall_singleton|]. split; [split; [unfold footprint; cbn; set_solver|done]|].
  split; [lia|]. split; [auto|]. split; [auto|]. set_solver.
Qed.

(** A group that is freed. *)
Lemma local_free h h' fp :
  next_loc h' = next_loc h → (∀ l, l ∉ fp → cells h' !! l = cells h !! l) →
  (∀ l, l ∈ fp → cells h' !! l = None) → local_step h h' fp [].
Proof.
  intros Hn Hs Hg. unfold local_step, footprint. cbn.
  split; [done|]. split; [done|]. split; [lia|]. split; [set_solver|]. split; auto.
Qed.

(** ** Data words *)
Lemma land_1 a : Z.land a 1 = a mod 2.
Proof. change 1 with (Z.ones 1). by rewrite Z.land_ones. Qed.

Lemma ldiff_1 a : Z.ldiff a 1 = a - a mod 2.
Proof.
  change 1 with (Z.ones 1). rewrite Z.ldiff_ones_r by lia.
  rewrite Z.shiftr_div_pow2, Z.shiftl_mul_pow2 by lia. change (2 ^ 1) with 2.
  pose proof (Z.div_mod a 2). lia.
Qed.

Lemma lor_1 a : Z.land a 1 = 0 → Z.lor a 1 = a + 1.
Proof. intros H. by rewrite Z.add_nocarry_lxor, Z.lxor_lor. Qed.

Lemma boxed_word_kind l x : boxed_word l x → kind_of (b_data x) = KIND_VEC.
Proof.
  unfold kind_of, KIND_MASK, KIND_VEC. intros [(H & _ & ->)|(H & _ & ->)]; cbn;
    rewrite land_1 in *; [|by rewrite Z.add_0_r].
  rewrite Z.add_mod, H by lia. done.
Qed.

Lemma boxed_word_buf l x : boxed_word l x → promotable_buf (b_vtable x) (b_data x) = PHeap l 0.
Proof.
  intros [(H & -> & ->)|(H & -> & ->)]; [|done]. unfold promotable_buf, untag, ptr_map, KIND_MASK. cbn.
  rewrite land_1 in H. rewrite ldiff_1. f_equal.
  rewrite (Z.add_mod _ 1), H by lia. change ((0 + 1 mod 2) mod 2) with 1. lia.
Qed.

Lemma kind_of_obj o : kind_of (PObj o) = KIND_ARC.
Proof. apply obj_addr_even. Qed.

Lemma hdebug_assert_ok (c : bool) h : c = true → hdebug_assert c h = Ret (tt, h).
Proof. intros Hc. unfold hdebug_assert, lift. by rewrite debug_assert_true. Qed.

Lemma hassert_ok (c : bool) h : c = true → hassert c h = Ret (tt, h).
Proof. unfold hassert, lift. by intros ->. Qed.

Lemma lift_ok {X} (m : outcome X) a h : m = Ret a → lift m h = Ret (a, h).
Proof. unfold lift. by intros ->. Qed.

Lemma offset_from_block l i h : 0 <= i → offset_from (PHeap l i) (PHeap l 0) h = Ret (i, h).
Proof.
  intros Hi. unfold offset_from. rewrite bool_decide_true, (proj2 (Z.leb_le _ _)) by done.
  cbn. by rewrite Z.sub_0_r.
Qed.

(** ** Promotion *)
Lemma shallow_clone_vec_ok h l d x off bs :
  cells h !! l = Some (CBlock d) → zlen d <= isize_max → block_view l d x off bs →
  off + zlen bs = zlen d → boxed_word l x →
  let o := next_loc h in
  let c := CShared {| sh_buf := PHeap l 0; sh_cap := zlen d; sh_ref_cnt := 2 |} in
  shallow_clone_vec (b_data x) (b_data x) (PHeap l 0) (b_ptr x) (b_len x) h =
    Ret (({| b_ptr := b_ptr x; b_len := b_len x; b_data := PObj o; b_vtable := SHARED_VTABLE |}, PObj o),
         {| cells := <[o := c]> (cells h); next_loc := S (next_loc h) |}).
Proof.
  intros Hl Hi (Hp & Hlen & Ho & Hle & _) Hend Hw o c. unfold shallow_clone_vec. rewrite Hp, Hlen.
  rewrite (hm_bind_Ret _ _ _ _ _ (offset_from_block l off h Ho)).
  pose proof usize_isize_max. pose proof isize_max_pos.
  assert (Hu : uadd off (zlen bs) = Ret (zlen d)) by (rewrite uadd_ok, Hend by lia; done).
  rewrite (hm_bind_Ret _ _ _ _ _ (lift_ok _ _ h Hu)).
  unfold alloc_cell. unfold mbind at 1, HM_bind at 1.
  rewrite (hm_bind_Ret _ _ _ tt _ (hdebug_assert_ok _ _ (proj2 (Z.eqb_eq _ _) (eq_sym (obj_addr_even _))))).
  unfold atomic_compare_exchange. cbn [run]. rewrite decide_True by done. cbn [run].
  rewrite (hm_bind_Ret _ _ _ tt _ (hdebug_assert_ok _ _ (bool_decide_eq_true_2 _ eq_refl))). done.
Qed.

Definition clone_result (h : heap) (x : Bytes) (bs : list byte) (rest : list (handle * list byte))
    (fp : gset nat) : Prop :=
  ∃ y x' h' gs', bytes_clone x h = Ret ((y, x'), h') ∧ local_step h h' fp gs' ∧
    (HBytes x', bs) :: (HBytes y, bs) :: rest ≡ₚ concat (fst <$> gs') ∧
    shareable x' ∧ shareable y ∧
    b_ptr x' = b_ptr x ∧ ptr_addr (b_ptr y) = ptr_addr (b_ptr x).

Lemma clone_boxed_run h l d x off bs :
  cells h !! l = Some (CBlock d) → zlen d <= isize_max → boxed_word l x →
  block_view l d x off bs → off + zlen bs = zlen d →
  let o := next_loc h in
  bytes_clone x h = Ret
    (({| b_ptr := b_ptr x; b_len := b_len x; b_data := PObj o; b_vtable := SHARED_VTABLE |},
      bytes_with_data x (PObj o)),
     {| cells := <[o := CShared {| sh_buf := PHeap l 0; sh_cap := zlen d; sh_ref_cnt := 2 |}]> (cells h);
        next_loc := S o |}).
Proof.
  intros Hl Hi Hw Hb Hend o. pose proof (shallow_clone_vec_ok h l d x off bs Hl Hi Hb Hend Hw) as E.
  cbv zeta in E. fold o in E. unfold bytes_clone.
  assert (Hpc : promotable_clone (b_vtable x) (b_data x) (b_ptr x) (b_len x) h = Ret
    (({| b_ptr := b_ptr x; b_len := b_len x; b_data := PObj o; b_vtable := SHARED_VTABLE |}, PObj o),
     {| cells := <[o := CShared {| sh_buf := PHeap l 0; sh_cap := zlen d; sh_ref_cnt := 2 |}]> (cells h);
        next_loc := S o |})).
  { unfold promotable_clone. cbn [run atomic_load]. rewrite (boxed_word_kind l x Hw), (boxed_word_buf l x Hw).
    change (KIND_VEC =? KIND_ARC) with false. cbv iota.
    rewrite (hm_bind_Ret _ _ _ tt _ (hdebug_assert_ok _ _ eq_refl)). exact E. }
  destruct Hw as [(_ & Hvt & _)|(_ & Hvt & _)]; rewrite Hvt in *;
    by rewrite (hm_bind_Ret _ _ _ _ _ Hpc).
Qed.

Lemma clone_boxed h l d x off bs :
  cells h !! l = Some (CBlock d) → zlen d <= isize_max → 0 < zlen d → boxed_word l x →
  block_view l d x off bs → off + zlen bs = zlen d → (l < next_loc h)%nat →
  clone_result h x bs [] {[l]}.
Proof.
  intros Hl Hi Hd Hw Hb Hend Hlt. pose proof (clone_boxed_run h l d x off bs Hl Hi Hw Hb Hend) as Hcl.
  cbv zeta in Hcl. set (o := next_loc h) in *. assert (Hol : o ≠ l) by lia.
  set (y := {| b_ptr := b_ptr x; b_len := b_len x; b_data := PObj o; b_vtable := SHARED_VTABLE |}) in *.
  eexists y, _, _, [([(HBytes (bytes_with_data x (PObj o)), bs); (HBytes y, bs)], {[o; l]})].
  split; [exact Hcl|]. split.
  - unfold local_step. rewrite footprint_one. cbn [next_loc cells].
    split; [|split; [split; [unfold footprint; cbn; set_solver|done]|]].
    + apply Forall_singleton. cbn. apply (StShared _ o l d 2); cbn [cells].
      * apply lookup_insert_eq.
      * by rewrite lookup_insert_ne.
      * done.
      * done.
      * done.
      * done.
      * done.
      * assert (Harc : arc_vtable (b_vtable x)) by
          (destruct Hw as [(_ & -> & _)|(_ & -> & _)]; unfold arc_vtable; auto).
        repeat (apply Forall_cons; split; [|]); [| |done].
        -- split; [done|]. split; [done|]. by exists off.
        -- split; [by left|]. split; [done|]. by exists off.
    + split; [lia|]. split; [|split].
      * intros k. rewrite elem_of_union, !elem_of_singleton. intros [-> | ->]; [right; lia|by left].
      * intros k _ Hk. rewrite lookup_insert_ne by set_solver. done.
      * set_solver.
  - cbn. split; [done|]. split; [right; eauto|]. split; [right; eauto|done].
Qed.

Lemma clone_shared h o l d rc x bs rest :
  cells h !! o = Some (CShared {| sh_buf := PHeap l 0; sh_cap := zlen d; sh_ref_cnt := rc |}) →
  cells h !! l = Some (CBlock d) → zlen d <= isize_max → 0 < zlen d → o ≠ l →
  rc = zlen ((HBytes x, bs) :: rest) → Forall (arc_view o l d) ((HBytes x, bs) :: rest) →
  rc <= isize_max → clone_result h x bs rest {[o; l]}.
Proof.
  intros Ho Hl Hi Hd Hne Hrc Hf Hmax. pose proof Hf as [(Hvt & Hdt & off & Hb) Hf']%Forall_cons.
  rewrite zlen_cons in Hrc. pose proof (zlen_nonneg rest).
  pose proof (shallow_clone_arc_ok h o _ (b_ptr x) (b_len x) Ho) as E.
  cbn [sh_ref_cnt sh_buf sh_cap] in E. specialize (E ltac:(lia)).
  set (y := {| b_ptr := b_ptr x; b_len := b_len x; b_data := PObj o; b_vtable := SHARED_VTABLE |}) in *.
  set (h' := heap_insert o _ h) in *.
  assert (Hcl : bytes_clone x h = Ret ((y, x), h')).
  { unfold bytes_clone. destruct Hvt as [-> | [Hvt | Hvt]].
    - rewrite Hdt. by rewrite (hm_bind_Ret _ _ _ _ _ E).
    - rewrite Hvt. cbn. unfold promotable_clone. cbn [run atomic_load]. rewrite Hdt, kind_of_obj. cbn.
      rewrite (hm_bind_Ret _ _ _ (y, PObj o) h'); [|by rewrite (hm_bind_Ret _ _ _ _ _ E)].
      unfold bytes_with_data. rewrite <- Hdt. by destruct x.
    - rewrite Hvt. cbn. unfold promotable_clone. cbn [run atomic_load]. rewrite Hdt, kind_of_obj. cbn.
      rewrite (hm_bind_Ret _ _ _ (y, PObj o) h'); [|by rewrite (hm_bind_Ret _ _ _ _ _ E)].
      unfold bytes_with_data. rewrite <- Hdt. by destruct x. }
  exists y, x, h', [((HBytes x, bs) :: (HBytes y, bs) :: rest, {[o; l]})].
  split; [done|]. split; [|split; [cbn; by rewrite app_nil_r|]].
  - apply local_update; [|done|].
    + apply (StShared _ o l d (rc + 1)); unfold h'; cbn [heap_insert cells].
      * apply lookup_insert_eq.
      * by rewrite lookup_insert_ne.
      * done.
      * done.
      * done.
      * done.
      * rewrite !zlen_cons. lia.
      * apply Forall_cons in Hf as [Hx Hf]. apply Forall_cons. split; [done|].
        apply Forall_cons. split; [|done]. split; [by left|]. split; [done|]. by exists off.
    + intros k Hk. unfold h'. cbn. rewrite lookup_insert_ne by set_solver. done.
  - split; [right; eauto|]. split; [right; by exists o|done].
Qed.

Lemma clone_static h x bs : static_view x bs → clone_result h x bs [] ∅.
Proof.
  intros Hv. pose proof (storage_read h _ _ x bs (StStatic h x bs Hv) ltac:(by apply list_elem_of_singleton)) as Hr.
  unfold bytes_as_slice in Hr. pose proof Hv as (Hvt & Hlen & Ha & Hi & Hp).
  set (y := from_static {| st_addr := ptr_addr (b_ptr x); st_bytes := bs |}).
  exists y, x, h, [([(HBytes x, bs)], ∅); ([(HBytes y, bs)], ∅)].
  split; [unfold bytes_clone, static_clone; rewrite Hvt; unfold mbind at 1, HM_bind at 1;
          rewrite (hm_bind_Ret _ _ _ _ _ Hr); reflexivity|].
  split; [|split; [cbn; done|]].
  - unfold local_step, footprint. cbn. rewrite !union_empty_r_L. split.
    + repeat (apply Forall_cons; split); [by apply StStatic| |done]. apply StStatic.
      unfold static_view. cbn. split; [done|]. split; [done|]. split; [lia|]. split; [done|]. rewrite zdrop_0.
      split; [lia|]. split; [lia|]. by apply ztake_ge.
    + split; [set_solver|]. split; [lia|]. split; [set_solver|]. split; [done|]. set_solver.
  - split; [by left|]. split; [by left|]. split; [done|]. cbn. lia.
Qed.

(** A group on a [Shared] of bytes_mut.rs after a change of its count and handles. *)
Lemma sharedv_recount h o p d fp s n repr xs :
  vbuf h p d fp → o ∉ fp → repr_ok repr → xs ≠ [] →
  s = {| sv_vec := {| hv_ptr := p; hv_len := n; hv_cap := zlen d |};
         sv_original_capacity_repr := repr; sv_ref_count := zlen xs |} →
  Forall (sharedv_view o p d) xs → exclusive xs →
  local_step h (heap_insert o (CSharedV s) h) ({[o]} ∪ fp) [(xs, {[o]} ∪ fp)].
Proof.
  intros Hb Hof Hre Hxs -> Hf Hex. apply local_update; [|done|].
  - eapply (StSharedV _ o p d fp n repr (zlen xs)); try done.
    + apply lookup_insert_eq.
    + eapply vbuf_agree; [done|]. intros l Hl. cbn. rewrite lookup_insert_ne by set_solver. done.
  - intros l Hl. cbn. rewrite lookup_insert_ne by set_solver. done.
Qed.

Lemma clone_sharedv h o p d fp n repr x bs rest :
  cells h !! o = Some (CSharedV {| sv_vec := {| hv_ptr := p; hv_len := n; hv_cap := zlen d |};
    sv_original_capacity_repr := repr; sv_ref_count := zlen ((HBytes x, bs) :: rest) |}) →
  vbuf h p d fp → o ∉ fp → repr_ok repr → Forall (sharedv_view o p d) ((HBytes x, bs) :: rest) →
  exclusive ((HBytes x, bs) :: rest) → zlen ((HBytes x, bs) :: rest) <= isize_max →
  clone_result h x bs rest ({[o]} ∪ fp).
Proof.
  intros Ho Hb Hof Hre Hf Hex Hmax. pose proof Hf as [(Hvt & Hdt & Hlen & off & Hv) Hf']%Forall_cons.
  rewrite zlen_cons in Ho, Hmax. pose proof (zlen_nonneg rest).
  pose proof (increment_shared_ok h o _ Ho) as E. cbn [sv_ref_count] in E. specialize (E ltac:(lia)).
  set (h' := heap_insert o _ h) in E.
  set (y := {| b_ptr := b_ptr x; b_len := b_len x; b_data := PObj o; b_vtable := SHARED_V_VTABLE |}).
  assert (Hy : y = x) by (destruct x; cbn in *; subst; done).
  exists y, x, h', [((HBytes x, bs) :: (HBytes y, bs) :: rest, {[o]} ∪ fp)].
  split; [|split; [|split; [cbn; by rewrite app_nil_r|]]].
  - unfold bytes_clone, shared_v_clone. rewrite Hvt, Hdt.
    rewrite (hm_bind_Ret _ _ _ y h'); [reflexivity|].
    rewrite (hm_bind_Ret _ _ _ tt h' E). reflexivity.
  - eapply sharedv_recount; try done.
    + unfold with_count. cbn. f_equal. rewrite !zlen_cons. lia.
    + rewrite Hy. by apply Forall_cons in Hf as [? ?]; repeat (apply Forall_cons; split).
    + rewrite Hy. apply (exclusive_replace (HBytes x, bs) [_; _] rest Hex).
      * repeat (apply Forall_cons; split); [split; [lia|split; [lia|done]]..|done].
      * split; [|by split]. apply Forall_singleton. intros [[] | []].
  - rewrite Hy. split; [right; eauto|]. split; [right; eauto|done].
Qed.

(** A group on an [Owned] box after a change of its count and handles. *)
Lemma owned_recount h o p d fp s n xs :
  vbuf h p d fp → o ∉ fp → xs ≠ [] →
  s = {| ow_ref_cnt := zlen xs; ow_owner := {| hv_ptr := p; hv_len := n; hv_cap := zlen d |} |} →
  Forall (owned_view o p d) xs →
  local_step h (heap_insert o (COwned s) h) ({[o]} ∪ fp) [(xs, {[o]} ∪ fp)].
Proof.
  intros Hb Hof Hxs -> Hf. apply local_update; [|done|].
  - eapply (StOwned _ o p d fp n (zlen xs)); try done.
    + apply lookup_insert_eq.
    + eapply vbuf_agree; [done|]. intros l Hl. cbn. rewrite lookup_insert_ne by set_solver. done.
  - intros l Hl. cbn. rewrite lookup_insert_ne by set_solver. done.
Qed.

Lemma clone_owned h o p d fp n x bs rest :
  cells h !! o = Some (COwned {| ow_ref_cnt := zlen ((HBytes x, bs) :: rest);
    ow_owner := {| hv_ptr := p; hv_len := n; hv_cap := zlen d |} |}) →
  vbuf h p d fp → o ∉ fp → Forall (owned_view o p d) ((HBytes x, bs) :: rest) →
  zlen ((HBytes x, bs) :: rest) <= isize_max → clone_result h x bs rest ({[o]} ∪ fp).
Proof.
  intros Ho Hb Hof Hf Hmax. pose proof Hf as [Hx Hf']%Forall_cons. pose proof Hx as (Hvt & Hdt & Hlen & off & Hv).
  rewrite zlen_cons in Ho, Hmax. pose proof (zlen_nonneg rest).
  pose proof (owned_clone_ok h o _ (b_ptr x) (b_len x) Ho) as E. cbn [ow_ref_cnt] in E. specialize (E ltac:(lia)).
  set (h' := heap_insert o _ h) in E.
  set (y := {| b_ptr := b_ptr x; b_len := b_len x; b_data := PObj o; b_vtable := OWNED_VTABLE |}) in *.
  assert (Hy : y = x) by (destruct x; cbn in *; subst; done).
  exists y, x, h', [((HBytes x, bs) :: (HBytes y, bs) :: rest, {[o]} ∪ fp)].
  split; [|split; [|split; [cbn; by rewrite app_nil_r|]]].
  - unfold bytes_clone. rewrite Hvt, Hdt. by hstep E.
  - eapply owned_recount; try done.
    + unfold with_owned_count. cbn. f_equal. rewrite !zlen_cons. lia.
    + rewrite Hy. by repeat (apply Forall_cons; split).
  - rewrite Hy. split; [right; eauto|]. split; [right; eauto|done].
Qed.

Lemma clone_ok h x bs rest fp :
  storage h ((HBytes x, bs) :: rest) fp → (∀ l, l ∈ fp → (l < next_loc h)%nat) →
  zlen ((HBytes x, bs) :: rest) <= isize_max → clone_result h x bs rest fp.
Proof.
  intros Hst Hlt Hmax. inversion Hst; subst.
  - by apply clone_static.
  - eapply clone_boxed; try eassumption. set_solver.
  - by eapply clone_shared.
  - by eapply clone_sharedv.
  - by eapply clone_owned.
Qed.

(** ** Dropping *)
Definition drop_handle (x : handle) : HM unit :=
  match x with HBytes x => bytes_drop x | HVec v => drop_vec v | HMut m => bm_drop m end.

Definition drop_result (h : heap) (x : handle) (rest : list (handle * list byte)) (fp : gset nat) : Prop :=
  ∃ h' gs', drop_handle x h = Ret (tt, h') ∧ local_step h h' fp gs' ∧ rest ≡ₚ concat (fst <$> gs').

Lemma heap_delete_local h l : local_step h (heap_delete l h) {[l]} [].
Proof.
  apply local_free; [done| |].
  - intros k Hk. cbn. rewrite lookup_delete_ne by set_solver. done.
  - intros k ->%elem_of_singleton. apply lookup_delete_eq.
Qed.

Lemma local_nothing h : local_step h h ∅ [].
Proof. by apply local_free. Qed.

(** An arc handle drops by releasing its [Shared]. *)
Lemma bytes_drop_arc h o x :
  arc_vtable (b_vtable x) → b_data x = PObj o → bytes_drop x h = release_shared (PObj o) h.
Proof.
  intros Hvt Hdt. unfold bytes_drop, promotable_drop. rewrite Hdt, kind_of_obj.
  by destruct Hvt as [-> | [-> | ->]].
Qed.

Lemma drop_shared_handle h o l d rc x bs rest :
  cells h !! o = Some (CShared {| sh_buf := PHeap l 0; sh_cap := zlen d; sh_ref_cnt := rc |}) →
  cells h !! l = Some (CBlock d) → zlen d <= isize_max → 0 < zlen d → o ≠ l →
  rc = zlen ((HBytes x, bs) :: rest) → Forall (arc_view o l d) ((HBytes x, bs) :: rest) →
  rc <= isize_max → drop_result h (HBytes x) rest {[o; l]}.
Proof.
  intros Ho Hl Hi Hd Hne Hrc [(Hvt & Hdt & _) Hf]%Forall_cons Hmax. unfold drop_result. cbn [drop_handle].
  rewrite (bytes_drop_arc h o x Hvt Hdt). rewrite zlen_cons in Hrc. destruct rest as [|y rest].
  - rewrite zlen_nil in Hrc. subst rc. eexists _, []. split; [by eapply release_shared_last|]. split; [|done].
    apply local_free; [done| |].
    + intros k Hk. cbn. rewrite !lookup_delete_ne by set_solver. done.
    + intros k. rewrite elem_of_union, !elem_of_singleton. intros [-> | ->]; cbn.
      * rewrite lookup_delete_ne by done. apply lookup_delete_eq.
      * apply lookup_delete_eq.
  - rewrite zlen_cons in Hrc. pose proof (zlen_nonneg rest).
    eexists _, [(y :: rest, {[o; l]})]. split; [eapply release_shared_many; [exact Ho|cbn; lia]|].
    split; [|cbn; by rewrite app_nil_r]. cbn [sh_buf sh_cap sh_ref_cnt]. apply local_update; [|done|].
    + apply (StShared _ o l d (rc - 1)); cbn [heap_insert cells].
      * apply lookup_insert_eq.
      * by rewrite lookup_insert_ne.
      * done.
      * done.
      * done.
      * done.
      * rewrite zlen_cons. lia.
      * done.
    + intros k Hk. cbn. rewrite lookup_insert_ne by set_solver. done.
Qed.

Lemma drop_boxed_handle h l d x off bs :
  cells h !! l = Some (CBlock d) → zlen d <= isize_max → 0 < zlen d → boxed_word l x →
  block_view l d x off bs → off + zlen bs = zlen d → drop_result h (HBytes x) [] {[l]}.
Proof.
  intros Hl Hi Hd Hw (Hp & Hlen & Ho & Hle & _) Hend.
  exists (heap_delete l h), []. split; [|split; [apply heap_delete_local|done]].
  assert (Hpd : promotable_drop (b_vtable x) (b_data x) (b_ptr x) (b_len x) h = Ret (tt, heap_delete l h)).
  { unfold promotable_drop. rewrite (boxed_word_kind l x Hw), (boxed_word_buf l x Hw).
    change (KIND_VEC =? KIND_ARC) with false. cbv iota.
    rewrite (hm_bind_Ret _ _ _ tt _ (hdebug_assert_ok _ _ eq_refl)). unfold free_boxed_slice.
    rewrite Hp, Hlen, (hm_bind_Ret _ _ _ _ _ (offset_from_block l off h Ho)).
    pose proof usize_isize_max. pose proof isize_max_pos.
    assert (Hu : uadd off (zlen bs) = Ret (zlen d)) by (rewrite uadd_ok, Hend by lia; done).
    rewrite (hm_bind_Ret _ _ _ _ _ (lift_ok _ _ h Hu)). by apply dealloc_ok. }
  cbn [drop_handle]. unfold bytes_drop.
  destruct Hw as [(_ & Hvt & _)|(_ & Hvt & _)]; rewrite Hvt in Hpd |- *; exact Hpd.
Qed.

(** ** Data words of [BytesMut] *)
Lemma max_vec_pos : MAX_VEC_POS * 32 + 31 = usize_max.
Proof.
  unfold MAX_VEC_POS, VEC_POS_OFFSET, usize_max. rewrite Z.shiftr_div_pow2 by lia.
  destruct ptr_width_cases as [-> | ->]; reflexivity.
Qed.

Lemma vec_word_kind repr pos : Z.land (ptr_addr (vec_word repr pos)) KIND_MASK = KIND_VEC.
Proof.
  cbn. unfold KIND_MASK, KIND_VEC. rewrite land_1.
  replace (pos * 32 + repr * 4 + 1) with (1 + (pos * 16 + repr * 2) * 2) by lia.
  by rewrite Z.mod_add by lia.
Qed.

Lemma vec_word_pos repr pos :
  repr_ok repr → Z.shiftr (ptr_addr (vec_word repr pos)) VEC_POS_OFFSET = pos.
Proof.
  unfold repr_ok. intros Hr. cbn. unfold VEC_POS_OFFSET. rewrite Z.shiftr_div_pow2 by lia.
  change (2 ^ 5) with 32. rewrite <- Z.add_assoc, Z.div_add_l, Z.div_small by lia. lia.
Qed.

Lemma bm_kind_vec m repr pos : m_data m = vec_word repr pos → bm_kind m = KIND_VEC.
Proof. intros E. unfold bm_kind. rewrite E. apply vec_word_kind. Qed.

Lemma bm_kind_arc m o : m_data m = PObj o → bm_kind m = KIND_ARC.
Proof. intros E. unfold bm_kind. rewrite E. apply obj_addr_even. Qed.

Lemma get_vec_pos_ok m repr pos h :
  m_data m = vec_word repr pos → repr_ok repr → get_vec_pos m h = Ret (pos, h).
Proof.
  intros E Hr. unfold get_vec_pos. rewrite (bm_kind_vec m repr pos E), E, vec_word_pos by done.
  by rewrite (hm_bind_Ret _ _ _ tt _ (hdebug_assert_ok _ _ eq_refl)).
Qed.

Lemma rebuild_vec_ok p len cap off h :
  len + off <= usize_max → cap + off <= usize_max →
  rebuild_vec (ptr_add p off) len cap off h =
    Ret ({| hv_ptr := p; hv_len := len + off; hv_cap := cap + off |}, h).
Proof.
  intros H1 H2. unfold rebuild_vec. rewrite ptr_add_add, Z.add_opp_diag_r, ptr_add_0.
  by rewrite !uadd_ok by done.
Qed.

(** The vector under a [BytesMut] that owns it. *)
Lemma mut_rebuild_vec h p d fp m off bs :
  vbuf h p d fp → mut_view p d m off bs → off + m_cap m = zlen d →
  rebuild_vec (m_ptr m) (m_len m) (m_cap m) off h =
    Ret ({| hv_ptr := p; hv_len := zlen bs + off; hv_cap := zlen d |}, h).
Proof.
  intros Hb ((-> & Ho & _) & -> & Hc & _) Hend. pose proof (vbuf_size _ _ _ _ Hb).
  pose proof usize_isize_max. rewrite rebuild_vec_ok by lia. do 3 f_equal. lia.
Qed.

Lemma drop_mut_vec h p d fp m off repr bs :
  vbuf h p d fp → mut_view p d m off bs → off + m_cap m = zlen d →
  m_data m = vec_word repr off → repr_ok repr → drop_result h (HMut m) [] fp.
Proof.
  intros Hb Hm Hend Hdt Hre. destruct (vbuf_drop h p d fp (zlen bs + off) Hb) as (h' & E & Hn & Hs & Hg).
  exists h', []. split; [|split; [by apply local_free|done]].
  cbn [drop_handle]. unfold bm_drop. rewrite (bm_kind_vec m repr off Hdt). cbv zeta.
  rewrite Z.eqb_refl. hstep (get_vec_pos_ok m repr off h Hdt Hre).
  by hstep (mut_rebuild_vec h p d fp m off bs Hb Hm Hend).
Qed.

(** Every handle of a [Shared] of bytes_mut.rs drops by releasing it. *)
Lemma drop_sharedv_release o p d x bs h :
  sharedv_view o p d (x, bs) → drop_handle x h = release_shared_v (PObj o) h.
Proof.
  destruct x as [x|v|m]; cbn [sharedv_view drop_handle]; [|done|].
  - intros (Hvt & Hdt & _). unfold bytes_drop. by rewrite Hvt, Hdt.
  - intros (Hdt & _). unfold bm_drop. by rewrite (bm_kind_arc m o Hdt), Hdt.
Qed.

(** Dropping the vector of a box that was just freed. *)
Lemma unbox_drop_vec h o p d fp n :
  vbuf h p d fp → o ∉ fp →
  ∃ h', drop_vec {| hv_ptr := p; hv_len := n; hv_cap := zlen d |} (heap_delete o h) = Ret (tt, h') ∧
    local_step h h' ({[o]} ∪ fp) [].
Proof.
  intros Hb Hof. assert (Hb' : vbuf (heap_delete o h) p d fp).
  { eapply vbuf_agree; [done|]. intros l Hl. cbn. rewrite lookup_delete_ne by set_solver. done. }
  destruct (vbuf_drop _ p d fp n Hb') as (h' & E' & Hn & Hs & Hg).
  exists h'. split; [done|]. apply local_free; [done| |].
  - intros l Hl. rewrite Hs by set_solver. cbn. rewrite lookup_delete_ne by set_solver. done.
  - intros l Hl. destruct (decide (l ∈ fp)) as [Hl'|Hl']; [by apply Hg|].
    assert (l = o) as -> by set_solver. rewrite Hs by done. apply lookup_delete_eq.
Qed.

Lemma drop_sharedv h o p d fp n repr x bs rest :
  cells h !! o = Some (CSharedV {| sv_vec := {| hv_ptr := p; hv_len := n; hv_cap := zlen d |};
    sv_original_capacity_repr := repr; sv_ref_count := zlen ((x, bs) :: rest) |}) →
  vbuf h p d fp → o ∉ fp → repr_ok repr → Forall (sharedv_view o p d) ((x, bs) :: rest) →
  exclusive ((x, bs) :: rest) → zlen ((x, bs) :: rest) <= isize_max →
  drop_result h x rest ({[o]} ∪ fp).
Proof.
  intros Ho Hb Hof Hre [Hx Hf]%Forall_cons [_ Hex] Hmax. unfold drop_result.
  rewrite (drop_sharedv_release o p d x bs h Hx). rewrite zlen_cons in Ho, Hmax.
  destruct rest as [|y rest].
  - pose proof (release_shared_v_last h o _ Ho eq_refl) as E. cbn [sv_vec] in E. rewrite E.
    destruct (unbox_drop_vec h o p d fp n Hb Hof) as (h' & E' & Hloc). by exists h', [].
  - rewrite zlen_cons in Ho, Hmax. pose proof (zlen_nonneg rest).
    pose proof (release_shared_v_many h o _ Ho) as E. cbn [sv_ref_count] in E. specialize (E ltac:(lia)).
    eexists _, [(y :: rest, {[o]} ∪ fp)]. split; [exact E|]. split; [|cbn; by rewrite app_nil_r].
    eapply sharedv_recount; try done. unfold with_count. cbn. f_equal. rewrite zlen_cons. lia.
Qed.

Lemma drop_owned h o p d fp n x bs rest :
  cells h !! o = Some (COwned {| ow_ref_cnt := zlen ((x, bs) :: rest);
    ow_owner := {| hv_ptr := p; hv_len := n; hv_cap := zlen d |} |}) →
  vbuf h p d fp → o ∉ fp → Forall (owned_view o p d) ((x, bs) :: rest) →
  zlen ((x, bs) :: rest) <= isize_max → drop_result h x rest ({[o]} ∪ fp).
Proof.
  intros Ho Hb Hof [Hx Hf]%Forall_cons Hmax. unfold drop_result.
  assert (Ed : drop_handle x h = owned_drop_impl (PObj o) h).
  { destruct x as [x|v|m]; [|done..]. destruct Hx as (Hvt & Hdt & _). cbn. unfold bytes_drop. by rewrite Hvt, Hdt. }
  rewrite Ed. rewrite zlen_cons in Ho, Hmax. destruct rest as [|y rest].
  - pose proof (owned_drop_last h o _ Ho eq_refl) as E. cbn [ow_owner] in E. rewrite E.
    destruct (unbox_drop_vec h o p d fp n Hb Hof) as (h' & E' & Hloc). by exists h', [].
  - rewrite zlen_cons in Ho, Hmax. pose proof (zlen_nonneg rest).
    pose proof (owned_drop_many h o _ Ho) as E. cbn [ow_ref_cnt] in E. specialize (E ltac:(lia)).
    eexists _, [(y :: rest, {[o]} ∪ fp)]. split; [exact E|]. split; [|cbn; by rewrite app_nil_r].
    eapply owned_recount; try done. unfold with_owned_count. cbn. f_equal. rewrite zlen_cons. lia.
Qed.

Lemma drop_ok h x bs rest fp :
  storage h ((x, bs) :: rest) fp → zlen ((x, bs) :: rest) <= isize_max → drop_result h x rest fp.
Proof.
  intros Hst Hmax. inversion Hst as [x' bs' Hv| |o l d rc xs Ho Hl Hi Hd Hne Hxs Hrc Hf|l d v bs' Hl Hi Hd| | | |]; subst.
  - exists h, []. cbn. unfold bytes_drop. destruct Hv as (-> & _). split; [done|]. split; [apply local_nothing|done].
  - by eapply drop_boxed_handle.
  - destruct x as [x|v|m]; [by eapply drop_shared_handle|..]; by apply Forall_cons in Hf as [[] _].
  - exists (heap_delete l h), []. split; [|split; [apply heap_delete_local|done]].
    cbn. unfold drop_vec. cbn. rewrite (proj2 (Z.eqb_neq _ _)) by lia. by apply dealloc_ok.
  - exists h, []. split; [done|]. split; [apply local_nothing|done].
  - by eapply drop_mut_vec.
  - by eapply drop_sharedv.
  - by eapply drop_owned.
Qed.

(** ** Fresh memory *)

(** A step that only allocates, followed by a step of an older group. *)
Lemma local_step_alloc h h1 h2 fp gs1 gs2 :
  local_step h h1 ∅ gs1 → local_step h1 h2 fp gs2 → (∀ l, l ∈ fp → (l < next_loc h)%nat) →
  local_step h h2 fp (gs1 ++ gs2).
Proof.
  intros (Hs1 & Hd1 & Hn1 & Hi1 & Hk1 & _) (Hs2 & Hd2 & Hn2 & Hi2 & Hk2 & Hg2) Hlt.
  assert (Hnew : ∀ l, l ∈ footprint gs1 → (next_loc h <= l < next_loc h1)%nat).
  { intros l Hl. destruct (Hi1 l Hl); [set_solver|done]. }
  assert (Hfp : footprint gs1 ## fp).
  { intros l H1 H2. specialize (Hnew l H1). specialize (Hlt l H2). lia. }
  assert (Hdd : footprint gs1 ## footprint gs2).
  { intros l H1 H2. specialize (Hnew l H1). destruct (Hi2 l H2); [set_solver|lia]. }
  split; [|split; [|split; [lia|split; [|split]]]].
  - apply Forall_app. split; [|done]. rewrite Forall_forall in Hs1 |- *. intros g Hg.
    eapply storage_agree; [by apply Hs1|]. intros l Hl.
    assert (l ∈ footprint gs1) by (apply elem_footprint; eauto). apply Hk2; set_solver.
  - by apply separate_app.
  - intros l. rewrite footprint_app, elem_of_union. intros [Hl|Hl].
    + specialize (Hnew l Hl). right. lia.
    + destruct (Hi2 l Hl); [by left|right; lia].
  - intros l Hl. rewrite footprint_app, not_elem_of_union. intros [H1 H2].
    rewrite Hk2, Hk1 by (done || set_solver). done.
  - intros l Hl. rewrite footprint_app, not_elem_of_union. intros [H1 H2]. by apply Hg2.
Qed.

(** A new buffer with the contents [d]. *)
Definition heap_alloc (c : cell) (h : heap) : heap :=
  {| cells := <[next_loc h := c]> (cells h); next_loc := S (next_loc h) |}.

Lemma local_alloc h c xs :
  storage (heap_alloc c h) xs {[next_loc h]} →
  local_step h (heap_alloc c h) ∅ [(xs, {[next_loc h]})].
Proof.
  intros Hst. unfold local_step. rewrite footprint_one. cbn [next_loc heap_alloc cells].
  split; [by apply Forall_singleton|]. split; [split; [unfold footprint; cbn; set_solver|done]|].
  split; [lia|]. split; [intros l ->%elem_of_singleton; right; lia|]. split; [|set_solver].
  intros l _ Hl. rewrite lookup_insert_ne by set_solver. done.
Qed.

Lemma storage_empty_vec_local h :
  local_step h h ∅ [([(HVec {| hv_ptr := dangling; hv_len := 0; hv_cap := 0 |}, [])], ∅)].
Proof. apply local_same, StEmptyVec. Qed.

Lemma to_vec_ok h bs :
  zlen bs <= isize_max →
  ∃ v h' fp, to_vec bs h = Ret (v, h') ∧ local_step h h' ∅ [([(HVec v, bs)], fp)].
Proof.
  intros Hmax. unfold to_vec. destruct (decide (bs = [])) as [->|Hne].
  - eexists _, h, ∅. split; [|apply storage_empty_vec_local].
    unfold hvec_with_capacity. pose proof isize_max_pos. by rewrite (proj2 (Z.ltb_ge _ _)) by zlia.
  - assert (zlen bs ≠ 0) by (intros E%zlen_0_nil; done). pose proof (zlen_nonneg bs). set (l := next_loc h).
    set (h1 := heap_alloc (CBlock (zreplicate (zlen bs) None)) h).
    assert (Hw : write_raw (PHeap l 0) (Some <$> bs) h1 =
      Ret (tt, heap_insert l (CBlock (splice (zreplicate (zlen bs) None) 0 (Some <$> bs))) h1)).
    { apply write_raw_block; [apply lookup_insert_eq|done|]. rewrite zlen_fmap, zlen_replicate; lia. }
    assert (Hs : splice (zreplicate (zlen bs) None) 0 (Some <$> bs) = Some <$> bs).
    { unfold splice. rewrite ztake_0, zlen_fmap, zdrop_ge by (rewrite zlen_replicate; lia).
      cbn. by rewrite app_nil_r. }
    rewrite Hs in Hw.
    assert (Hh : heap_insert l (CBlock (Some <$> bs)) h1 = heap_alloc (CBlock (Some <$> bs)) h).
    { unfold h1, heap_alloc, heap_insert. cbn. by rewrite insert_insert_eq. }
    rewrite Hh in Hw.
    eexists {| hv_ptr := PHeap l 0; hv_len := zlen bs; hv_cap := zlen bs |}, _, {[l]}. split.
    + assert (Hc : hvec_with_capacity (zlen bs) h =
        Ret ({| hv_ptr := PHeap l 0; hv_len := 0; hv_cap := zlen bs |}, h1)).
      { unfold hvec_with_capacity. by rewrite (proj2 (Z.ltb_ge _ _)), (proj2 (Z.eqb_neq _ _)) by lia. }
      hstep Hc. cbn [hv_ptr hv_cap]. by hstep Hw.
    + apply local_alloc. apply (StVec _ l (Some <$> bs)); rewrite ?zlen_fmap.
      * apply lookup_insert_eq.
      * done.
      * lia.
      * done.
      * lia.
      * by apply ztake_ge; rewrite zlen_fmap.
Qed.

(** Copying the bytes of a handle to a new vector, then dropping the handle. *)
Lemma copy_then_drop h x bs rest fp :
  storage h ((x, bs) :: rest) fp → (∀ l, l ∈ fp → (l < next_loc h)%nat) →
  zlen ((x, bs) :: rest) <= isize_max → zlen bs <= isize_max →
  ∃ v h1 h2 gs, to_vec bs h = Ret (v, h1) ∧ drop_handle x h1 = Ret (tt, h2) ∧
    local_step h h2 fp gs ∧ (HVec v, bs) :: rest ≡ₚ concat (fst <$> gs).
Proof.
  intros Hst Hlt Hmax Hbs. destruct (to_vec_ok h bs Hbs) as (v & h1 & fpv & Hv & Hloc1).
  pose proof Hloc1 as (_ & _ & Hn1 & Hin1 & Hk1 & _). rewrite footprint_one in Hin1, Hk1.
  assert (Hst1 : storage h1 ((x, bs) :: rest) fp).
  { eapply storage_agree; [done|]. intros k Hk. apply Hk1; [set_solver|]. intros Hk'.
    destruct (Hin1 k Hk'); [set_solver|]. specialize (Hlt k Hk). lia. }
  destruct (drop_ok h1 x bs rest fp Hst1 Hmax) as (h2 & gs2 & Hdrop & Hloc2 & Hperm).
  exists v, h1, h2, ([([(HVec v, bs)], fpv)] ++ gs2). split; [done|]. split; [done|]. split.
  - by apply (local_step_alloc h h1 h2).
  - cbn. by rewrite Hperm.
Qed.

(** ** From a vector *)
Lemma from_boxed_word h l n :
  n ≠ 0 → ∃ x, from_boxed_slice (PHeap l 0) n h = Ret (x, h) ∧ b_ptr x = PHeap l 0 ∧ b_len x = n ∧ boxed_word l x.
Proof.
  intros Hn. unfold from_boxed_slice. rewrite (proj2 (Z.eqb_neq _ _)) by lia. cbn [ptr_addr]. rewrite Z.add_0_r.
  destruct (Z.eqb_spec (Z.land (block_addr l) 1) 0) as [Ev|Od].
  - eexists. split; [reflexivity|]. split; [done|]. split; [done|].
    left. cbn. split; [done|]. split; [done|]. unfold ptr_map, KIND_VEC. cbn.
    rewrite Z.add_0_r, lor_1 by done. f_equal. lia.
  - eexists. split; [reflexivity|]. split; [done|]. split; [done|].
    right. cbn. split; [|done]. rewrite land_1 in *. pose proof (Z.mod_pos_bound (block_addr l) 2). lia.
Qed.

(** [Bytes::from(Vec)], then the view moved [off] bytes on. *)
Lemma from_vec_raw h p d fp n :
  vbuf h p d fp → 0 <= n <= zlen d → (∀ l, l ∈ fp → (l < next_loc h)%nat) →
  ∃ x h' fp', from_vec {| hv_ptr := p; hv_len := n; hv_cap := zlen d |} h = Ret (x, h') ∧ b_len x = n ∧
    ∀ off bs, view_at p d (ptr_add p off) off bs → off + zlen bs = n →
      local_step h h' fp [([(HBytes (narrow x off (zlen bs)), bs)], fp')].
Proof.
  intros Hb Hn Hlt. unfold from_vec. cbn [hv_ptr hv_len hv_cap]. destruct Hb as [l d Hl Hi Hd|].
  - destruct (Z.eqb_spec n (zlen d)) as [->|Ez].
    + destruct (from_boxed_word h l (zlen d)) as (x & Ex & Hxp & Hxl & Hw); [lia|].
      exists x, h, {[l]}. split; [done|]. split; [done|]. intros off bs (_ & Ho & Hle & E) Hoff.
      apply local_same. eapply (StBoxed h l d _ off); [done|done|done|done| |lia].
      unfold block_view, narrow. cbn. rewrite Hxp. done.
    + set (o := next_loc h). set (c := CShared {| sh_buf := PHeap l 0; sh_cap := zlen d; sh_ref_cnt := 1 |}).
      assert (Hol : o ≠ l) by (assert (l < o)%nat by (apply Hlt; set_solver); lia).
      eexists {| b_ptr := PHeap l 0; b_len := n; b_data := PObj o; b_vtable := SHARED_VTABLE |},
        (heap_alloc c h), {[o; l]}.
      split; [|split; [done|]].
      { unfold alloc_cell. unfold mbind at 1, HM_bind at 1. fold o. fold c. fold (heap_alloc c h).
        by rewrite (hm_bind_Ret _ _ _ tt _
          (hdebug_assert_ok _ _ (proj2 (Z.eqb_eq _ _) (eq_sym (obj_addr_even _))))). }
      intros off bs (_ & Ho & Hle & E) Hoff.
      unfold local_step. rewrite footprint_one. cbn [heap_alloc next_loc cells].
      split; [|split; [split; [unfold footprint; cbn; set_solver|done]|]].
      * apply Forall_singleton. cbn. apply (StShared _ o l d 1); cbn [heap_alloc cells]; try done.
        -- apply lookup_insert_eq.
        -- by rewrite lookup_insert_ne.
        -- apply Forall_singleton. split; [by left|]. split; [done|]. by exists off.
      * split; [lia|]. split; [|split; [|set_solver]].
        -- intros k. rewrite elem_of_union, !elem_of_singleton. fold o. intros [-> | ->]; [right; lia|by left].
        -- intros k _ Hk. rewrite lookup_insert_ne by set_solver. done.
  - rewrite (zlen_nil (A:=option byte)) in *. assert (n = 0) as -> by lia.
    exists bytes_new, h, ∅. split; [done|]. split; [done|]. intros off bs (_ & Ho & Hle & _) Hoff.
    pose proof (zlen_nonneg bs). assert (off = 0) as -> by lia.
    assert (bs = []) as -> by (apply zlen_0_nil; lia). apply local_same, StStatic.
    pose proof isize_max_pos. unfold static_view. cbn. repeat split; try done. zlia.
Qed.

Lemma narrow_all x : narrow x 0 (b_len x) = x.
Proof. unfold narrow, bytes_with_ptr. rewrite ptr_add_0. by destruct x. Qed.

(** The vector a handle owns. *)
Lemma storage_vec_inv h v bs rest fp :
  storage h ((HVec v, bs) :: rest) fp →
  rest = [] ∧ ∃ p d, vbuf h p d fp ∧ v = {| hv_ptr := p; hv_len := zlen bs; hv_cap := zlen d |} ∧
    view_at p d p 0 bs.
Proof.
  intros Hst. inversion Hst as [| |? ? ? ? ? ? ? ? ? ? ? ? Hf|l d v' bs' Hl Hi Hd Hv Hle E| |
    |? ? ? ? ? ? ? ? ? ? ? ? ? ? Hf|? ? ? ? ? ? ? ? ? ? ? ? Hf]; subst.
  - by apply Forall_cons in Hf as [[] _].
  - split; [done|]. exists (PHeap l 0), d. split; [by constructor|]. split; [done|].
    split; [done|]. rewrite zdrop_0. split; [lia|]. split; [lia|done].
  - split; [done|]. exists dangling, []. split; [constructor|]. done.
  - by apply Forall_cons in Hf as [[] _].
  - by apply Forall_cons in Hf as [[] _].
Qed.

(** ** From an owner *)

Lemma from_owner_ok h v bs fp as_ref lo n :
  storage h [(HVec v, bs)] fp → (∀ l, l ∈ fp → (l < next_loc h)%nat) →
  as_ref v = (ptr_add (hv_ptr v) lo, n) → 0 <= lo → 0 <= n → lo + n <= zlen bs →
  ∃ x h' fp', from_owner as_ref v h = Ret (x, h') ∧
    local_step h h' fp [([(HBytes x, ztake n (zdrop lo bs))], fp')].
Proof.
  intros (_ & p & d & Hb & -> & Hv)%storage_vec_inv Hlt Has Hlo Hn Hle. cbn [hv_ptr] in Has.
  set (o := next_loc h). set (v := {| hv_ptr := p; hv_len := zlen bs; hv_cap := zlen d |}) in *.
  assert (Hof : o ∉ fp) by (intros Hl; specialize (Hlt _ Hl); unfold o in *; lia).
  set (c := COwned {| ow_ref_cnt := 1; ow_owner := v |}).
  eexists {| b_ptr := ptr_add p lo; b_len := n; b_data := PObj o; b_vtable := OWNED_VTABLE |},
    (heap_alloc c h), ({[o]} ∪ fp). split.
  - unfold from_owner. unfold alloc_cell. unfold mbind at 1, HM_bind at 1. fold o c. fold (heap_alloc c h).
    assert (Eg : get_owner (PObj o) (heap_alloc c h) = Ret (v, heap_alloc c h)).
    { unfold get_owner. assert (Ec : cells (heap_alloc c h) !! o = Some c) by apply lookup_insert_eq.
      by hstep (get_cell_ok _ o _ Ec). }
    hstep Eg. by rewrite Has.
  - unfold local_step. rewrite footprint_one. cbn [heap_alloc next_loc cells].
    split; [|split; [split; [unfold footprint; cbn; set_solver|done]|]].
    + apply Forall_singleton. cbn. eapply (StOwned _ o p d fp (zlen bs)); try done.
      * apply lookup_insert_eq.
      * eapply vbuf_agree; [done|]. intros l Hl. cbn. rewrite lookup_insert_ne by set_solver. done.
      * apply Forall_singleton. split; [done|]. split; [done|]. cbn. rewrite zlen_take by zlia. split; [done|].
        exists lo. pose proof (view_at_narrow p d p 0 bs lo n Hv Hlo Hn Hle) as H. exact H.
    + split; [lia|]. split; [|split; [|set_solver]].
      * intros k. rewrite elem_of_union, elem_of_singleton. fold o. intros [-> | Hk]; [right; lia|by left].
      * intros k _ Hk. rewrite lookup_insert_ne by set_solver. done.
Qed.

Lemma from_vec_ok h v bs fp :
  storage h [(HVec v, bs)] fp → (∀ l, l ∈ fp → (l < next_loc h)%nat) →
  ∃ x h' fp', from_vec v h = Ret (x, h') ∧ local_step h h' fp [([(HBytes x, bs)], fp')].
Proof.
  intros (_ & p & d & Hb & -> & Hv)%storage_vec_inv Hlt. pose proof Hv as (_ & _ & Hle & _).
  pose proof (zlen_nonneg bs).
  destruct (from_vec_raw h p d fp (zlen bs) Hb ltac:(lia) Hlt) as (x & h' & fp' & E & Hlen & Hloc).
  exists x, h', fp'. split; [done|]. specialize (Hloc 0 bs). rewrite ptr_add_0 in Hloc.
  assert (Hx : narrow x 0 (zlen bs) = x) by (rewrite <- Hlen; apply narrow_all).
  rewrite Hx in Hloc. apply Hloc; [done|lia].
Qed.

End ops.
