(* ===== verification/BytesPool.v ===== *)
(** * BytesPool: the operations of [Bytes] on the whole pool of live handles

    [pool_ok h hcs] lists the live handles with the bytes they show.  Here each
    operation on one handle is shown to run to its end and to leave a good pool in
    which exactly that handle has changed; the derived operations ([slice],
    [split_off], [split_to], [truncate], [advance]) are compositions of cloning,
    narrowing and dropping. *)

From S2P Require Import Prelude Machine Loom Heap Bytes BytesMut BytesInv BytesOps.
From stdpp Require Import fin_maps fin_sets.
Open Scope Z_scope.

Section pool.
Context `{T : Target, A : Allocator}.

(** ** Into a vector *)
Lemma ptr_copy_front h l d off bs :
  cells h !! l = Some (CBlock d) → 0 <= off → off + zlen bs <= zlen d →
  ztake (zlen bs) (zdrop off d) = Some <$> bs →
  ptr_copy (PHeap l off) (PHeap l 0) (zlen bs) h =
    Ret (tt, heap_insert l (CBlock (splice d 0 (Some <$> bs))) h).
Proof.
  intros Hl Ho Hle E. unfold ptr_copy.
  rewrite (hm_bind_Ret _ _ _ _ _ (read_raw_block h l d off (zlen bs) Hl Ho (zlen_nonneg bs) Hle)).
  rewrite E. apply write_raw_block; [done|done|]. rewrite zlen_fmap. lia.
Qed.

Lemma front_vec_storage h l d bs :
  cells h !! l = Some (CBlock (splice d 0 (Some <$> bs))) → zlen d <= isize_max → 0 < zlen d →
  zlen bs <= zlen d →
  storage h [(HVec {| hv_ptr := PHeap l 0; hv_len := zlen bs; hv_cap := zlen d |}, bs)] {[l]}.
Proof.
  intros Hl Hi Hd Hle.
  assert (Hz : zlen (splice d 0 (Some <$> bs)) = zlen d) by (apply zlen_splice; [lia|rewrite zlen_fmap; lia]).
  eapply StVec; [done|lia|lia|by rewrite Hz|lia|].
  unfold splice. rewrite ztake_0. cbn. by rewrite ztake_app_exact by (by rewrite zlen_fmap).
Qed.

Definition into_vec_result (h : heap) (x : Bytes) (bs : list byte) (rest : list (handle * list byte))
    (fp : gset nat) : Prop :=
  ∃ v h' gs', bytes_into_vec x h = Ret (v, h') ∧ local_step h h' fp gs' ∧
    (HVec v, bs) :: rest ≡ₚ concat (fst <$> gs').

Lemma into_vec_boxed h l d x off bs :
  cells h !! l = Some (CBlock d) → zlen d <= isize_max → 0 < zlen d → boxed_word l x →
  block_view l d x off bs → off + zlen bs = zlen d → into_vec_result h x bs [] {[l]}.
Proof.
  intros Hl Hi Hd Hw (Hp & Hlen & Ho & Hle & E) Hend.
  set (v := {| hv_ptr := PHeap l 0; hv_len := zlen bs; hv_cap := zlen d |}).
  eexists v, _, [([(HVec v, bs)], {[l]})]. split; [|split; [|done]].
  - assert (Hpv : promotable_to_vec (b_vtable x) (b_data x) (b_ptr x) (b_len x) h =
      Ret ({| hv_ptr := PHeap l 0; hv_len := zlen bs; hv_cap := zlen d |},
           heap_insert l (CBlock (splice d 0 (Some <$> bs))) h)).
    { unfold promotable_to_vec. rewrite (boxed_word_kind l x Hw), (boxed_word_buf l x Hw).
      change (KIND_VEC =? KIND_ARC) with false. cbv iota.
      rewrite (hm_bind_Ret _ _ _ tt _ (hdebug_assert_ok _ _ eq_refl)).
      rewrite Hp, Hlen, (hm_bind_Ret _ _ _ _ _ (offset_from_block l off h Ho)).
      pose proof usize_isize_max. pose proof isize_max_pos.
      assert (Hu : uadd off (zlen bs) = Ret (zlen d)) by (rewrite uadd_ok, Hend by lia; done).
      rewrite (hm_bind_Ret _ _ _ _ _ (lift_ok _ _ h Hu)).
      by rewrite (hm_bind_Ret _ _ _ _ _ (ptr_copy_front h l d off bs Hl Ho Hle E)). }
    unfold bytes_into_vec. destruct Hw as [(_ & Hvt & _)|(_ & Hvt & _)]; rewrite Hvt in Hpv |- *; exact Hpv.
  - apply local_update; [|done|].
    + apply front_vec_storage; [apply lookup_insert_eq|done|done|lia].
    + intros k Hk. cbn. rewrite lookup_insert_ne by set_solver. done.
Qed.

Lemma bytes_into_vec_arc h o x :
  arc_vtable (b_vtable x) → b_data x = PObj o →
  bytes_into_vec x h = shared_to_vec_impl (PObj o) (b_ptr x) (b_len x) h.
Proof.
  intros Hvt Hdt. unfold bytes_into_vec, promotable_to_vec. rewrite Hdt, kind_of_obj.
  by destruct Hvt as [-> | [-> | ->]].
Qed.

Lemma into_vec_last h o l d x off bs :
  cells h !! o = Some (CShared {| sh_buf := PHeap l 0; sh_cap := zlen d; sh_ref_cnt := 1 |}) →
  cells h !! l = Some (CBlock d) → zlen d <= isize_max → 0 < zlen d → o ≠ l →
  arc_vtable (b_vtable x) → b_data x = PObj o → block_view l d x off bs →
  into_vec_result h x bs [] {[o; l]}.
Proof.
  intros Ho Hl Hi Hd Hne Hvt Hdt (Hp & Hlen & Hoff & Hle & E). unfold into_vec_result.
  rewrite (bytes_into_vec_arc h o x Hvt Hdt), Hp, Hlen. unfold shared_to_vec_impl.
  rewrite (hm_bind_Ret _ _ _ _ _ (on_ref_cnt_ok h o _ (atomic_compare_exchange 1 0) Ho)).
  cbn [run atomic_compare_exchange sh_ref_cnt]. rewrite decide_True by done.
  cbn [run fst snd sh_buf sh_cap]. set (h1 := heap_insert o _ h).
  assert (H1 : cells h1 !! o = Some (CShared {| sh_buf := PHeap l 0; sh_cap := zlen d; sh_ref_cnt := 0 |}))
    by apply lookup_insert_eq.
  rewrite (hm_bind_Ret _ _ _ _ _ (take_shared_ok h1 o _ H1)). cbn [sh_buf sh_cap]. cbv zeta.
  unfold h1. rewrite heap_delete_insert.
  assert (H2 : cells (heap_delete o h) !! l = Some (CBlock d)) by (cbn; by rewrite lookup_delete_ne).
  rewrite (hm_bind_Ret _ _ _ _ _ (ptr_copy_front (heap_delete o h) l d off bs H2 Hoff Hle E)).
  set (v := {| hv_ptr := PHeap l 0; hv_len := zlen bs; hv_cap := zlen d |}).
  eexists v, _, [([(HVec v, bs)], {[l]})]. split; [reflexivity|]. split; [|done].
  unfold local_step. rewrite footprint_one. cbn [heap_insert heap_delete next_loc cells].
  split; [|split; [split; [unfold footprint; cbn; set_solver|done]|]].
  - apply Forall_singleton. cbn. apply front_vec_storage; [apply lookup_insert_eq|done|done|lia].
  - split; [lia|]. split; [set_solver|]. split.
    + intros k H3 H4. rewrite lookup_insert_ne, lookup_delete_ne by set_solver. done.
    + intros k Hk1 Hk2. assert (k = o) as -> by set_solver.
      rewrite lookup_insert_ne by done. apply lookup_delete_eq.
Qed.

Lemma into_vec_many h o l d rc x off bs rest :
  cells h !! o = Some (CShared {| sh_buf := PHeap l 0; sh_cap := zlen d; sh_ref_cnt := rc |}) →
  cells h !! l = Some (CBlock d) → zlen d <= isize_max → 0 < zlen d → o ≠ l →
  arc_vtable (b_vtable x) → b_data x = PObj o → block_view l d x off bs → 1 < rc <= isize_max →
  rc = zlen ((HBytes x, bs) :: rest) → Forall (arc_view o l d) ((HBytes x, bs) :: rest) →
  (∀ k, k ∈ ({[o; l]} : gset nat) → (k < next_loc h)%nat) →
  into_vec_result h x bs rest {[o; l]}.
Proof.
  intros Ho Hl Hi Hd Hne Hvt Hdt (Hp & Hlen & Hoff & Hle & E) Hrc Hrest Hf Hlt. unfold into_vec_result.
  rewrite (bytes_into_vec_arc h o x Hvt Hdt), Hp, Hlen. unfold shared_to_vec_impl.
  rewrite (hm_bind_Ret _ _ _ _ _ (on_ref_cnt_ok h o _ (atomic_compare_exchange 1 0) Ho)).
  cbn [run atomic_compare_exchange sh_ref_cnt]. rewrite decide_False by lia.
  cbn [run fst snd sh_buf sh_cap].
  assert (Hid : heap_insert o (CShared {| sh_buf := PHeap l 0; sh_cap := zlen d; sh_ref_cnt := rc |}) h = h).
  { unfold heap_insert. rewrite insert_id by done. by destruct h. }
  rewrite Hid, (hm_bind_Ret _ _ _ _ _ (read_slice_block h l d off bs Hl Hoff Hle E)).
  destruct (copy_then_drop h (HBytes x) bs rest {[o; l]}) as (v & h1 & h2 & gs & Hv & Hdrop & Hloc & Hperm);
    [by eapply StShared|done|lia|lia|].
  cbn [drop_handle] in Hdrop. rewrite (bytes_drop_arc h1 o x Hvt Hdt) in Hdrop.
  hstep Hv. hstep Hdrop. by exists v, h2, gs.
Qed.

(** The same for the [Shared] of bytes_mut.rs. *)
Lemma vbuf_copy_front h p d fp q off bs :
  vbuf h p d fp → view_at p d q off bs →
  ∃ h', ptr_copy q p (zlen bs) h = Ret (tt, h') ∧ vbuf h' p (splice d 0 (Some <$> bs)) fp ∧
    next_loc h' = next_loc h ∧ (∀ l, l ∉ fp → cells h' !! l = cells h !! l).
Proof.
  intros Hb (-> & Ho & Hle & E). unfold ptr_copy.
  rewrite (hm_bind_Ret _ _ _ _ _ (vbuf_read_raw h p d fp off (zlen bs) Hb Ho (zlen_nonneg bs) Hle)).
  rewrite E. destruct (vbuf_write h p d fp 0 (Some <$> bs) Hb) as (h' & Hw & H); [lia|zlia|].
  rewrite ptr_add_0 in Hw. by exists h'.
Qed.

Lemma vbuf_vec_storage h p d fp bs :
  vbuf h p (splice d 0 (Some <$> bs)) fp → zlen bs <= zlen d →
  storage h [(HVec {| hv_ptr := p; hv_len := zlen bs; hv_cap := zlen d |}, bs)] fp.
Proof.
  intros Hb Hle.
  assert (Hz : zlen (splice d 0 (Some <$> bs)) = zlen d) by (apply zlen_splice; [lia|rewrite zlen_fmap; lia]).
  remember (splice d 0 (Some <$> bs)) as d' eqn:Ed. destruct Hb as [l d' Hl Hi Hd|].
  - subst d'. rewrite Hz in *. by apply front_vec_storage.
  - rewrite (zlen_nil (A:=option byte)) in Hz. pose proof (zlen_nonneg bs).
    assert (bs = []) as -> by (apply zlen_0_nil; lia). rewrite <- Hz. apply StEmptyVec.
Qed.

(** Taking the vector out of a [Shared] of bytes_mut.rs whose only handle is consumed,
    and moving its bytes to the front. *)
Lemma take_front_ok h o p d fp n repr q off bs :
  cells h !! o = Some (CSharedV {| sv_vec := {| hv_ptr := p; hv_len := n; hv_cap := zlen d |};
    sv_original_capacity_repr := repr; sv_ref_count := 1 |}) →
  vbuf h p d fp → o ∉ fp → view_at p d q off bs →
  ∃ h1 h2 h3, take_vec (PObj o) h = Ret ({| hv_ptr := p; hv_len := n; hv_cap := zlen d |}, h1) ∧
    release_shared_v (PObj o) h1 = Ret (tt, h2) ∧ ptr_copy q p (zlen bs) h2 = Ret (tt, h3) ∧
    local_step h h3 ({[o]} ∪ fp)
      [([(HVec {| hv_ptr := p; hv_len := zlen bs; hv_cap := zlen d |}, bs)], fp)].
Proof.
  intros Ho Hb Hof Hv. set (s := {| sv_vec := {| hv_ptr := dangling; hv_len := 0; hv_cap := 0 |};
    sv_original_capacity_repr := repr; sv_ref_count := 1 |}).
  set (h1 := heap_insert o (CSharedV s) h).
  assert (E1 : take_vec (PObj o) h = Ret ({| hv_ptr := p; hv_len := n; hv_cap := zlen d |}, h1)).
  { unfold take_vec. by hstep (get_cell_ok _ _ _ Ho). }
  assert (H1 : cells h1 !! o = Some (CSharedV s)) by apply lookup_insert_eq.
  pose proof (release_shared_v_last h1 o s H1 eq_refl) as E2. unfold h1 in E2 at 2.
  rewrite heap_delete_insert in E2.
  assert (Hb2 : vbuf (heap_delete o h) p d fp).
  { eapply vbuf_agree; [done|]. intros l Hl. cbn. rewrite lookup_delete_ne by set_solver. done. }
  destruct (vbuf_copy_front _ p d fp q off bs Hb2 Hv) as (h3 & E3 & Hb3 & Hn & Hs).
  exists h1, (heap_delete o h), h3. split; [done|]. split; [exact E2|]. split; [done|].
  destruct Hv as (_ & ? & ? & _).
  unfold local_step. rewrite footprint_one.
  split; [apply Forall_singleton, vbuf_vec_storage; [done|lia]|].
  split; [split; [unfold footprint; cbn; set_solver|done]|].
  split; [cbn in Hn; lia|]. split; [set_solver|]. split.
  - intros k H3 H4. rewrite Hs by set_solver. cbn. rewrite lookup_delete_ne by set_solver. done.
  - intros k Hk1 Hk2. assert (k = o) as -> by set_solver. rewrite Hs by done. apply lookup_delete_eq.
Qed.

Lemma into_vec_sharedv h o p d fp n repr x bs rest :
  cells h !! o = Some (CSharedV {| sv_vec := {| hv_ptr := p; hv_len := n; hv_cap := zlen d |};
    sv_original_capacity_repr := repr; sv_ref_count := zlen ((HBytes x, bs) :: rest) |}) →
  vbuf h p d fp → o ∉ fp → repr_ok repr → Forall (sharedv_view o p d) ((HBytes x, bs) :: rest) →
  exclusive ((HBytes x, bs) :: rest) → zlen ((HBytes x, bs) :: rest) <= isize_max →
  zlen bs <= isize_max → (∀ k, k ∈ {[o]} ∪ fp → (k < next_loc h)%nat) →
  into_vec_result h x bs rest ({[o]} ∪ fp).
Proof.
  intros Ho Hb Hof Hre Hf Hex Hmax Hbs Hlt.
  pose proof Hf as [(Hvt & Hdt & Hlen & off & Hv) Hf']%Forall_cons.
  unfold into_vec_result, bytes_into_vec, shared_v_to_vec. rewrite Hvt, Hdt, Hlen.
  rewrite (hm_bind_Ret _ _ _ _ _ (proj2 (is_unique_ok h o _ Ho))). cbn [sv_ref_count].
  rewrite zlen_cons. pose proof (zlen_nonneg rest). destruct (Z.eqb_spec (1 + zlen rest) 1) as [E1|E1].
  - assert (rest = []) as -> by (apply zlen_0_nil; lia).
    destruct (take_front_ok h o p d fp n repr (b_ptr x) off bs) as (h1 & h2 & h3 & H1 & H2 & H3 & Hloc); try done.
    hstep H1. cbn [hv_ptr hv_cap]. hstep H2. hstep H3. eexists _, h3, _. split; [reflexivity|]. by split.
  - hstep (view_at_read h p d fp (b_ptr x) off bs Hb Hv).
    destruct (copy_then_drop h (HBytes x) bs rest ({[o]} ∪ fp)) as (v & h1 & h2 & gs & Hc & Hdrop & Hloc & Hperm);
      [by eapply StSharedV|done|done|done|].
    rewrite (drop_sharedv_release o p d (HBytes x) bs) in Hdrop by (by apply Forall_cons in Hf as [? _]).
    hstep Hc. hstep Hdrop. by exists v, h2, gs.
Qed.

Lemma into_vec_owned h o p d fp n x bs rest :
  cells h !! o = Some (COwned {| ow_ref_cnt := zlen ((HBytes x, bs) :: rest);
    ow_owner := {| hv_ptr := p; hv_len := n; hv_cap := zlen d |} |}) →
  vbuf h p d fp → o ∉ fp → Forall (owned_view o p d) ((HBytes x, bs) :: rest) →
  zlen ((HBytes x, bs) :: rest) <= isize_max → zlen bs <= isize_max →
  (∀ k, k ∈ {[o]} ∪ fp → (k < next_loc h)%nat) → into_vec_result h x bs rest ({[o]} ∪ fp).
Proof.
  intros Ho Hb Hof Hf Hmax Hbs Hlt. pose proof Hf as [(Hvt & Hdt & Hlen & off & Hv) _]%Forall_cons.
  destruct (copy_then_drop h (HBytes x) bs rest ({[o]} ∪ fp)) as (v & h1 & h2 & gs & Hc & Hdrop & Hloc & Hperm);
    [by eapply StOwned|done|done|done|].
  cbn [drop_handle] in Hdrop. unfold bytes_drop in Hdrop. rewrite Hvt, Hdt in Hdrop.
  unfold into_vec_result, bytes_into_vec, owned_to_vec. rewrite Hvt, Hdt, Hlen.
  hstep (view_at_read h p d fp (b_ptr x) off bs Hb Hv). hstep Hc. hstep Hdrop. by exists v, h2, gs.
Qed.

Lemma into_vec_ok h x bs rest fp :
  storage h ((HBytes x, bs) :: rest) fp → (∀ l, l ∈ fp → (l < next_loc h)%nat) →
  zlen ((HBytes x, bs) :: rest) <= isize_max → zlen bs <= isize_max → into_vec_result h x bs rest fp.
Proof.
  intros Hst Hlt Hmax Hbs. pose proof Hst as Hst'.
  inversion Hst as [x' bs' Hv| |o l d rc xs Ho Hl Hi Hd Hne Hxs Hrc Hf| | | | |]; subst.
  - pose proof (storage_read h _ _ x bs Hst' ltac:(by apply list_elem_of_singleton)) as Hr.
    unfold bytes_as_slice in Hr. destruct (to_vec_ok h bs Hbs) as (v & h1 & fpv & Hvec & Hloc).
    exists v, h1, [([(HVec v, bs)], fpv)]. split; [|by split].
    unfold bytes_into_vec. destruct Hv as (-> & _). by hstep Hr.
  - by eapply into_vec_boxed.
  - pose proof Hf as [(Hvt & Hdt & off & Hb) Hf']%Forall_cons.
    destruct rest as [|y rest].
    + by eapply into_vec_last.
    + eapply into_vec_many; try done. rewrite !zlen_cons in *. pose proof (zlen_nonneg rest). lia.
  - by eapply into_vec_sharedv.
  - by eapply into_vec_owned.
Qed.

(** ** Focusing on one handle *)
Lemma footprint_perm gs gs' : gs ≡ₚ gs' → footprint gs = footprint gs'.
Proof.
  intros Hp. apply set_eq. intros l. rewrite !elem_footprint.
  split; intros (g & Hg & Hl); exists g; [rewrite <- Hp|rewrite Hp]; done.
Qed.

Lemma separate_perm gs gs' : gs ≡ₚ gs' → separate gs → separate gs'.
Proof.
  induction 1 as [|g gs gs' Hp IH|g1 g2 gs|gs1 gs2 gs3 _ IH1 _ IH2]; cbn [separate].
  - done.
  - intros [H1 H2]. split; [by rewrite <- (footprint_perm _ _ Hp)|auto].
  - rewrite !footprint_cons. intros (H1 & H2 & H3). split; [set_solver|]. split; [set_solver|done].
  - auto.
Qed.

Lemma wf_perm h gs gs' : gs ≡ₚ gs' → wf h gs → wf h gs'.
Proof.
  intros Hp (H1 & H2 & H3 & H4). split; [by rewrite <- Hp|]. split; [by eapply separate_perm|].
  split; [by rewrite <- (footprint_perm _ _ Hp)|done].
Qed.

Lemma pool_focus h x hcs :
  pool_ok h (x :: hcs) →
  ∃ rest fp gs, wf h ((x :: rest, fp) :: gs) ∧ hcs ≡ₚ rest ++ concat (fst <$> gs).
Proof.
  intros (gs & Hwf & Hp). assert (Hin : x ∈ concat (fst <$> gs)) by (rewrite <- Hp; by left).
  apply list_elem_of_In, in_concat in Hin as (xs & Hxs & Hx).
  apply list_elem_of_In, list_elem_of_fmap in Hxs as (g & -> & Hg).
  apply list_elem_of_In, elem_of_Permutation in Hx as [rest Hrest].
  apply elem_of_Permutation in Hg as [gs0 Hgs].
  apply (wf_perm _ _ _ Hgs) in Hwf. destruct g as [xs fp]. cbn in Hrest.
  exists rest, fp, gs0. split.
  - destruct Hwf as (Hst & Hsep & Hdom & Hlt). apply Forall_cons in Hst as [Hg Hst].
    split; [apply Forall_cons; split; [by eapply storage_perm|done]|done].
  - apply (Permutation_cons_inv (a := x)). rewrite Hp, Hgs. cbn. by rewrite Hrest.
Qed.

Lemma pool_replace h h' xs fp gs gs' new rest hcs :
  wf h ((xs, fp) :: gs) → local_step h h' fp gs' → new ++ rest ≡ₚ concat (fst <$> gs') →
  hcs ≡ₚ rest ++ concat (fst <$> gs) → pool_ok h' (new ++ hcs).
Proof.
  intros Hwf Hloc Hnew Hhcs. exists (gs' ++ gs). split; [by eapply wf_local|].
  rewrite fmap_app, concat_app, <- Hnew, Hhcs. by rewrite app_assoc.
Qed.

Lemma wf_fresh h xs fp gs l : wf h ((xs, fp) :: gs) → l ∈ fp → (l < next_loc h)%nat.
Proof.
  intros (_ & _ & Hdom & Hlt) Hl. apply Hlt. rewrite Hdom, footprint_cons. set_solver.
Qed.

Lemma wf_storage h xs fp gs : wf h ((xs, fp) :: gs) → storage h xs fp.
Proof. intros (Hst & _). by apply Forall_cons in Hst as [? _]. Qed.

Lemma pool_perm h hcs hcs' : hcs ≡ₚ hcs' → pool_ok h hcs → pool_ok h hcs'.
Proof. intros Hp (gs & Hwf & H). exists gs. split; [done|by rewrite <- Hp]. Qed.

Lemma rest_len (x : handle * list byte) rest l (hcs : list (handle * list byte)) :
  hcs ≡ₚ rest ++ l → zlen (x :: rest) <= zlen (x :: hcs).
Proof. intros Hp%Permutation_length. rewrite length_app in Hp. unfold zlen. cbn. lia. Qed.

(** ** The primitive operations on the pool *)
Lemma pool_read h x bs hcs :
  pool_ok h ((HBytes x, bs) :: hcs) → bytes_as_slice x h = Ret (bs, h).
Proof.
  intros (rest & fp & gs & Hwf & _)%pool_focus. eapply storage_read; [by eapply wf_storage|by left].
Qed.

Lemma storage_bytes_len h x bs rest fp :
  storage h ((HBytes x, bs) :: rest) fp →
  b_len x = zlen bs ∧ 0 < ptr_addr (b_ptr x) ∧ zlen bs <= isize_max.
Proof.
  assert (Hb : ∀ l d off, block_view l d x off bs → zlen d <= isize_max →
    b_len x = zlen bs ∧ 0 < ptr_addr (b_ptr x) ∧ zlen bs <= isize_max).
  { intros l d off (-> & -> & Ho & Hle & _) Hi. cbn. pose proof (block_addr_pos l). lia. }
  intros Hst. inversion Hst as [x' bs' Hv| |o l d rc xs Ho Hl Hi Hd Hne Hxs Hrc Hf| | |
    |o p d fp' n repr rc xs Ho Hbuf Hof Hre Hxs Hrc Hf Hex|o p d fp' n rc xs Ho Hbuf Hof Hxs Hrc Hf]; subst.
  - destruct Hv as (_ & ? & ? & ? & _). done.
  - by eapply Hb.
  - apply Forall_cons in Hf as [(_ & _ & off & Hv) _]. by eapply Hb.
  - apply Forall_cons in Hf as [(_ & _ & ? & off & Hp & Ho' & Hle & _) _].
    pose proof (vbuf_size _ _ _ _ Hbuf). rewrite Hp. split; [done|].
    split; [by eapply vbuf_addr|lia].
  - apply Forall_cons in Hf as [(_ & _ & ? & off & Hp & Ho' & Hle & _) _].
    pose proof (vbuf_size _ _ _ _ Hbuf). rewrite Hp. split; [done|].
    split; [by eapply vbuf_addr|lia].
Qed.

Lemma pool_bytes_len h x bs hcs :
  pool_ok h ((HBytes x, bs) :: hcs) → b_len x = zlen bs ∧ 0 < ptr_addr (b_ptr x) ∧ zlen bs <= isize_max.
Proof.
  intros (rest & fp & gs & Hwf & _)%pool_focus. eapply storage_bytes_len. by eapply wf_storage.
Qed.

Lemma pool_clone h x bs hcs :
  pool_ok h ((HBytes x, bs) :: hcs) → zlen ((HBytes x, bs) :: hcs) <= isize_max →
  ∃ y x' h', bytes_clone x h = Ret ((y, x'), h') ∧ shareable x' ∧ shareable y ∧
    pool_ok h' ((HBytes x', bs) :: (HBytes y, bs) :: hcs) ∧
    b_ptr x' = b_ptr x ∧ ptr_addr (b_ptr y) = ptr_addr (b_ptr x).
Proof.
  intros (rest & fp & gs & Hwf & Hp)%pool_focus Hmax.
  destruct (clone_ok h x bs rest fp) as (y & x' & h' & gs' & E & Hloc & Hperm & Hs1 & Hs2 & Hptr).
  { by eapply wf_storage. }
  { intros l. by eapply wf_fresh. }
  { pose proof (rest_len (HBytes x, bs) _ _ _ Hp). lia. }
  exists y, x', h'. split; [done|]. split; [done|]. split; [done|]. split; [|done].
  exact (pool_replace _ _ _ _ _ _ [(HBytes x', bs); (HBytes y, bs)] rest hcs Hwf Hloc Hperm Hp).
Qed.

Lemma pool_drop h x bs hcs :
  pool_ok h ((x, bs) :: hcs) → zlen ((x, bs) :: hcs) <= isize_max →
  ∃ h', drop_handle x h = Ret (tt, h') ∧ pool_ok h' hcs.
Proof.
  intros (rest & fp & gs & Hwf & Hp)%pool_focus Hmax.
  destruct (drop_ok h x bs rest fp) as (h' & gs' & E & Hloc & Hperm).
  { by eapply wf_storage. }
  { pose proof (rest_len (x, bs) _ _ _ Hp). lia. }
  exists h'. split; [done|]. exact (pool_replace _ _ _ _ _ _ [] rest hcs Hwf Hloc Hperm Hp).
Qed.

Lemma pool_narrow h x bs hcs n k :
  pool_ok h ((HBytes x, bs) :: hcs) → 0 <= n → 0 <= k → n + k <= zlen bs →
  shareable x ∨ n + k = zlen bs →
  pool_ok h ((HBytes (narrow x n k), ztake k (zdrop n bs)) :: hcs).
Proof.
  intros (rest & fp & gs & Hwf & Hp)%pool_focus Hn Hk Hnk Hsh.
  eapply (pool_replace h h _ fp gs [(_ :: rest, fp)] [_] rest hcs Hwf); [|cbn; by rewrite app_nil_r|done].
  apply local_same. apply storage_narrow; [by eapply wf_storage|done..].
Qed.

Lemma pool_static h x bs hcs : pool_ok h hcs → static_view x bs → pool_ok h ((HBytes x, bs) :: hcs).
Proof.
  intros (gs & (Hst & Hsep & Hdom & Hlt) & Hp) Hv. exists (([(HBytes x, bs)], ∅) :: gs).
  split; [|by rewrite Hp]. split; [apply Forall_cons; split; [by apply StStatic|done]|].
  split; [split; [set_solver|done]|]. split; [|done]. rewrite footprint_cons. set_solver.
Qed.

Lemma pool_new_empty h p hcs :
  pool_ok h hcs → 0 < ptr_addr p →
  ∃ e, new_empty_with_ptr p h = Ret (e, h) ∧ pool_ok h ((HBytes e, []) :: hcs).
Proof.
  intros Hpool Ha. eexists. split.
  - unfold new_empty_with_ptr.
    rewrite (hm_bind_Ret _ _ _ tt h); [reflexivity|]. apply hdebug_assert_ok.
    rewrite (proj2 (Z.eqb_neq _ _)) by lia. done.
  - apply pool_static; [done|]. pose proof isize_max_pos. unfold static_view. cbn.
    repeat split; try done. zlia.
Qed.

Lemma pool_from_vec h v bs hcs :
  pool_ok h ((HVec v, bs) :: hcs) →
  ∃ x h', from_vec v h = Ret (x, h') ∧ pool_ok h' ((HBytes x, bs) :: hcs).
Proof.
  intros (rest & fp & gs & Hwf & Hp)%pool_focus.
  pose proof (proj1 (storage_vec_inv _ _ _ _ _ (wf_storage _ _ _ _ Hwf))) as ->.
  destruct (from_vec_ok h v bs fp) as (x & h' & fp' & E & Hloc).
  { by eapply wf_storage. }
  { intros l. by eapply wf_fresh. }
  exists x, h'. split; [done|].
  by apply (pool_replace _ _ _ _ _ _ [(HBytes x, bs)] [] hcs Hwf Hloc).
Qed.

Lemma pool_vec_len h v bs hcs : pool_ok h ((HVec v, bs) :: hcs) → hv_len v = zlen bs.
Proof.
  intros (rest & fp & gs & Hwf & _)%pool_focus.
  by apply wf_storage, storage_vec_inv in Hwf as (_ & p & d & _ & -> & _).
Qed.

Lemma pool_from_owner h v bs hcs as_ref lo n :
  pool_ok h ((HVec v, bs) :: hcs) → as_ref v = (ptr_add (hv_ptr v) lo, n) → 0 <= lo → 0 <= n → lo + n <= zlen bs →
  ∃ x h', from_owner as_ref v h = Ret (x, h') ∧ pool_ok h' ((HBytes x, ztake n (zdrop lo bs)) :: hcs).
Proof.
  intros (rest & fp & gs & Hwf & Hp)%pool_focus Has Hlo Hn Hle.
  pose proof (proj1 (storage_vec_inv _ _ _ _ _ (wf_storage _ _ _ _ Hwf))) as ->.
  destruct (from_owner_ok h v bs fp as_ref lo n) as (x & h' & fp' & E & Hloc); try done.
  { by eapply wf_storage. }
  { intros l. by eapply wf_fresh. }
  exists x, h'. split; [done|].
  by apply (pool_replace _ _ _ _ _ _ [(HBytes x, _)] [] hcs Hwf Hloc).
Qed.

Lemma pool_into_vec h x bs hcs :
  pool_ok h ((HBytes x, bs) :: hcs) → zlen ((HBytes x, bs) :: hcs) <= isize_max →
  ∃ v h', bytes_into_vec x h = Ret (v, h') ∧ pool_ok h' ((HVec v, bs) :: hcs).
Proof.
  intros (rest & fp & gs & Hwf & Hp)%pool_focus Hmax.
  pose proof (storage_bytes_len _ _ _ _ _ (wf_storage _ _ _ _ Hwf)) as (_ & _ & Hbs).
  destruct (into_vec_ok h x bs rest fp) as (v & h' & gs' & E & Hloc & Hperm).
  { by eapply wf_storage. }
  { intros l. by eapply wf_fresh. }
  { pose proof (rest_len (HBytes x, bs) _ _ _ Hp). lia. }
  { done. }
  exists v, h'. split; [done|]. exact (pool_replace _ _ _ _ _ _ [(HVec v, bs)] rest hcs Hwf Hloc Hperm Hp).
Qed.

Lemma pool_to_vec h bs hcs :
  pool_ok h hcs → zlen bs <= isize_max →
  ∃ v h', to_vec bs h = Ret (v, h') ∧ pool_ok h' ((HVec v, bs) :: hcs).
Proof.
  intros (gs & Hwf & Hp) Hbs. destruct (to_vec_ok h bs Hbs) as (v & h' & fp & E & Hloc).
  exists v, h'. split; [done|]. eexists. split; [by eapply wf_alloc|]. by rewrite Hp.
Qed.

(** ** The derived operations on the pool *)
Lemma narrow_keep x n : bytes_with_ptr x (b_ptr x) n = narrow x 0 n.
Proof. unfold narrow. by rewrite ptr_add_0. Qed.

Lemma ptr_add_addr p n : 0 < ptr_addr p → 0 <= n → 0 < ptr_addr (ptr_add p n).
Proof. intros Hp Hn. destruct p; cbn in *; lia. Qed.

Lemma pool_end_ptr h x bs hcs n :
  pool_ok h ((HBytes x, bs) :: hcs) → 0 <= n → 0 < ptr_addr (ptr_add (b_ptr x) n).
Proof.
  intros Hpool Hn. destruct (pool_bytes_len _ _ _ _ Hpool) as (_ & Ha & _).
  by apply ptr_add_addr.
Qed.

Lemma inc_start_ok x n h : 0 <= n <= b_len x → inc_start x n h = Ret (narrow x n (b_len x - n), h).
Proof.
  intros Hn. unfold inc_start. rewrite (hm_bind_Ret _ _ _ tt h) by (apply hdebug_assert_ok, Z.leb_le; lia).
  rewrite (hm_bind_Ret _ _ _ (b_len x - n) h); [done|]. apply lift_ok, usub_ok. lia.
Qed.

Lemma pool_advance h x bs hcs n :
  pool_ok h ((HBytes x, bs) :: hcs) → 0 <= n <= zlen bs →
  ∃ x', bytes_advance x n h = Ret (x', h) ∧ pool_ok h ((HBytes x', zdrop n bs) :: hcs).
Proof.
  intros Hpool Hn. destruct (pool_bytes_len _ _ _ _ Hpool) as (Hlen & _). unfold bytes_advance.
  rewrite (hm_bind_Ret _ _ _ tt h) by (apply hassert_ok, Z.leb_le; lia).
  rewrite inc_start_ok by lia. eexists. split; [done|]. rewrite Hlen.
  pose proof (pool_narrow h x bs hcs n (zlen bs - n) Hpool) as H.
  rewrite ztake_ge in H by zlia. apply H; lia.
Qed.

(** [y] is a view into the storage [x] shows: [n] bytes, [lo] bytes after the start of [x].
    For heap memory the pointer itself is the one of [x], moved by [lo]: same allocation. *)
Definition shares (x y : Bytes) (lo n : Z) : Prop :=
  ptr_addr (b_ptr y) = ptr_addr (b_ptr x) + lo ∧ b_len y = n ∧
  (b_vtable x ≠ STATIC_VTABLE → b_ptr y = ptr_add (b_ptr x) lo).

(** The clone of a handle that is not static has the very pointer of the original. *)
Lemma clone_arc_ptr sh p len h y h' : shallow_clone_arc sh p len h = Ret (y, h') → b_ptr y = p.
Proof. intros E. unfold shallow_clone_arc in E. by hm_inv E. Qed.

Lemma promotable_clone_ptr vt data p len h y d h' :
  promotable_clone vt data p len h = Ret ((y, d), h') → b_ptr y = p.
Proof.
  intros E. unfold promotable_clone, shallow_clone_vec in E. hm_inv E; try done; by eapply clone_arc_ptr.
Qed.

Lemma clone_ptr x y x' h h' :
  bytes_clone x h = Ret ((y, x'), h') → b_vtable x ≠ STATIC_VTABLE → b_ptr y = b_ptr x.
Proof.
  intros E Hv. unfold bytes_clone, shared_v_clone, owned_clone in E.
  destruct (b_vtable x); [done|..]; hm_inv E; try done;
    try (by eapply promotable_clone_ptr); try (by eapply clone_arc_ptr).
  all: match goal with H : _ = Ret _ |- _ => by hm_inv H end.
Qed.

Lemma pool_clone_shares h x bs hcs :
  pool_ok h ((HBytes x, bs) :: hcs) → zlen ((HBytes x, bs) :: hcs) <= isize_max →
  ∃ y x' h', bytes_clone x h = Ret ((y, x'), h') ∧ b_ptr x' = b_ptr x ∧ shares x y 0 (zlen bs) ∧
    pool_ok h' ((HBytes x', bs) :: (HBytes y, bs) :: hcs).
Proof.
  intros Hp Hmax. destruct (pool_clone h x bs hcs Hp Hmax) as (y & x' & h' & E & _ & _ & Hp' & H1 & H2).
  exists y, x', h'. split_and!; [done..| |done]. split; [lia|]. split.
  - eapply pool_perm in Hp'; [|apply Permutation_swap]. by apply pool_bytes_len in Hp' as [? _].
  - intros Hv. rewrite ptr_add_0. by eapply clone_ptr.
Qed.

Lemma pool_ptr_add h x bs hcs n :
  pool_ok h ((HBytes x, bs) :: hcs) → bs ≠ [] → ptr_addr (ptr_add (b_ptr x) n) = ptr_addr (b_ptr x) + n.
Proof.
  intros Hp Hne. pose proof (pool_read _ _ _ _ Hp) as Hr. destruct (pool_bytes_len _ _ _ _ Hp) as (Hl & _).
  destruct (b_ptr x) eqn:E; cbn; try lia. exfalso.
  unfold bytes_as_slice, read_slice, read_raw in Hr. rewrite E, Hl in Hr.
  destruct (Z.eqb_spec (zlen bs) 0) as [H0|]; [|done]. by apply zlen_0_nil in H0.
Qed.

Lemma pool_slice h x bs hcs lo hi :
  pool_ok h ((HBytes x, bs) :: hcs) → zlen ((HBytes x, bs) :: hcs) <= isize_max →
  0 <= lo <= hi → hi <= zlen bs →
  ∃ y x' h', bytes_slice x (Included lo) (Excluded hi) h = Ret ((y, x'), h') ∧
    pool_ok h' ((HBytes x', bs) :: (HBytes y, zdrop lo (ztake hi bs)) :: hcs) ∧
    b_ptr x' = b_ptr x ∧ (lo < hi → shares x y lo (hi - lo)).
Proof.
  intros Hpool Hmax Hlo Hhi. destruct (pool_bytes_len _ _ _ _ Hpool) as (Hlen & Ha & Hi).
  unfold bytes_slice. cbv zeta. cbn [start_of end_of]. rewrite hm_bind_mret, hm_bind_mret.
  rewrite (hm_bind_Ret _ _ _ tt h) by (apply hassert_ok, Z.leb_le; lia).
  rewrite (hm_bind_Ret _ _ _ tt h) by (apply hassert_ok, Z.leb_le; lia).
  destruct (Z.eqb_spec hi lo) as [->|Hne].
  - destruct (pool_new_empty h (ptr_add (b_ptr x) lo) _ Hpool) as (e & He & Hp').
    { eapply pool_end_ptr; [done|lia]. }
    hstep He. exists e, x, h. split; [done|]. rewrite zdrop_ge by zlia. split; [|by split; [|lia]].
    eapply pool_perm; [apply Permutation_swap|done].
  - destruct (pool_clone h x bs hcs Hpool Hmax) as (y & x' & h' & Hc & Hs1 & Hs2 & Hp' & Hx & Hy).
    hstep Hc. rewrite (hm_bind_Ret _ _ _ (hi - lo) h') by (apply lift_ok, usub_ok; lia).
    eexists _, x', h'. split; [done|]. eapply pool_perm in Hp'; [|apply Permutation_swap].
    split; [|split; [done|intros _; split; [|split; [done|intros Hv; cbn; by rewrite (clone_ptr _ _ _ _ _ Hc Hv)]]]].
    + eapply pool_perm; [apply Permutation_swap|].
      pose proof (pool_narrow h' y bs _ lo (hi - lo) Hp') as H.
      rewrite zdrop_ztake by lia. apply H; [lia|lia|lia|by left].
    + cbn. rewrite (pool_ptr_add _ _ _ _ lo Hp'); [lia|]. intros ->. rewrite zlen_nil in *. lia.
Qed.

(** [split_off] and [split_to]: both halves, the receiver first. *)
Lemma pool_split_off h x bs hcs n :
  pool_ok h ((HBytes x, bs) :: hcs) → zlen ((HBytes x, bs) :: hcs) <= isize_max →
  0 <= n <= zlen bs →
  ∃ y x' h', split_off x n h = Ret ((y, x'), h') ∧
    pool_ok h' ((HBytes x', ztake n bs) :: (HBytes y, zdrop n bs) :: hcs) ∧
    (n < zlen bs → shareable x' ∨ n = 0).
Proof.
  intros Hpool Hmax Hn. destruct (pool_bytes_len _ _ _ _ Hpool) as (Hlen & Ha & Hi).
  unfold split_off. rewrite Hlen. destruct (Z.eqb_spec n (zlen bs)) as [->|Hne].
  { destruct (pool_new_empty h (ptr_add (b_ptr x) (zlen bs)) _ Hpool) as (e & He & Hp').
    { eapply pool_end_ptr; [done|lia]. }
    hstep He. exists e, x, h. split; [done|]. rewrite ztake_ge, zdrop_ge by lia.
    split; [|lia]. eapply pool_perm; [apply Permutation_swap|done]. }
  destruct (Z.eqb_spec n 0) as [->|Hne0].
  { destruct (pool_new_empty h (b_ptr x) _ Hpool Ha) as (e & He & Hp').
    hstep He. exists x, e, h. split; [done|]. rewrite ztake_0, zdrop_0. by auto. }
  rewrite (hm_bind_Ret _ _ _ tt h) by (apply hassert_ok, Z.leb_le; lia).
  destruct (pool_clone h x bs hcs Hpool Hmax) as (y & x' & h' & Hc & Hs1 & Hs2 & Hp' & _). hstep Hc.
  rewrite narrow_keep. pose proof (pool_narrow h' x' bs _ 0 n Hp') as H1. rewrite zdrop_0 in H1.
  specialize (H1 ltac:(lia) ltac:(lia) ltac:(lia) (or_introl Hs1)).
  eapply pool_perm in H1; [|apply Permutation_swap].
  destruct (pool_bytes_len _ _ _ _ H1) as (Hleny & _).
  rewrite (hm_bind_Ret _ _ _ _ _ (inc_start_ok y n h' ltac:(lia))). rewrite Hleny.
  eexists _, _, h'. split; [done|]. split; [|by left].
  pose proof (pool_narrow h' y bs _ n (zlen bs - n) H1) as H2. rewrite ztake_ge in H2 by zlia.
  eapply pool_perm; [apply Permutation_swap|]. apply H2; [lia|lia|lia|by left].
Qed.

Lemma pool_split_to h x bs hcs n :
  pool_ok h ((HBytes x, bs) :: hcs) → zlen ((HBytes x, bs) :: hcs) <= isize_max →
  0 <= n <= zlen bs →
  ∃ y x' h', split_to x n h = Ret ((y, x'), h') ∧
    pool_ok h' ((HBytes x', zdrop n bs) :: (HBytes y, ztake n bs) :: hcs).
Proof.
  intros Hpool Hmax Hn. destruct (pool_bytes_len _ _ _ _ Hpool) as (Hlen & Ha & Hi).
  unfold split_to. rewrite Hlen. destruct (Z.eqb_spec n (zlen bs)) as [->|Hne].
  { cbv zeta. destruct (pool_new_empty h (ptr_add (b_ptr x) (zlen bs)) _ Hpool) as (e & He & Hp').
    { eapply pool_end_ptr; [done|lia]. }
    hstep He. exists x, e, h. split; [done|]. by rewrite ztake_ge, zdrop_ge by lia. }
  destruct (Z.eqb_spec n 0) as [->|Hne0].
  { destruct (pool_new_empty h (b_ptr x) _ Hpool Ha) as (e & He & Hp').
    hstep He. exists e, x, h. split; [done|]. rewrite ztake_0, zdrop_0.
    eapply pool_perm; [apply Permutation_swap|done]. }
  rewrite (hm_bind_Ret _ _ _ tt h) by (apply hassert_ok, Z.leb_le; lia).
  destruct (pool_clone h x bs hcs Hpool Hmax) as (y & x' & h' & Hc & Hs1 & Hs2 & Hp' & _). hstep Hc.
  destruct (pool_bytes_len _ _ _ _ Hp') as (Hlenx & _).
  rewrite (hm_bind_Ret _ _ _ _ _ (inc_start_ok x' n h' ltac:(lia))). rewrite Hlenx, narrow_keep.
  eexists _, _, h'. split; [done|].
  pose proof (pool_narrow h' x' bs _ n (zlen bs - n) Hp') as H1. rewrite ztake_ge in H1 by zlia.
  specialize (H1 ltac:(lia) ltac:(lia) ltac:(lia) (or_introl Hs1)).
  eapply pool_perm in H1; [|apply Permutation_swap].
  pose proof (pool_narrow h' y bs _ 0 n H1) as H2. rewrite zdrop_0 in H2.
  eapply pool_perm; [apply Permutation_swap|]. apply H2; [lia|lia|lia|by left].
Qed.

Lemma pool_shareable h x bs hcs :
  pool_ok h ((HBytes x, bs) :: hcs) →
  b_vtable x ≠ PROMOTABLE_EVEN_VTABLE → b_vtable x ≠ PROMOTABLE_ODD_VTABLE → shareable x.
Proof.
  intros (rest & fp & gs & Hwf & _)%pool_focus H1 H2. apply wf_storage in Hwf.
  inversion Hwf as [x' bs' Hv|l d x' off bs' ? ? ? Hw|o l d rc xs ? ? ? ? ? ? ? Hf| | |
    |o p d fp' n repr rc xs ? ? ? ? ? ? Hf|o p d fp' n rc xs ? ? ? ? ? Hf]; subst.
  - left. apply Hv.
  - destruct Hw as [(_ & ? & _)|(_ & ? & _)]; congruence.
  - apply Forall_cons in Hf as [(_ & ? & _) _]. right. eauto.
  - apply Forall_cons in Hf as [(_ & ? & _) _]. right. eauto.
  - apply Forall_cons in Hf as [(_ & ? & _) _]. right. eauto.
Qed.

Lemma pool_truncate h x bs hcs n :
  pool_ok h ((HBytes x, bs) :: hcs) → 1 + zlen ((HBytes x, bs) :: hcs) <= isize_max → 0 <= n →
  ∃ x' h', truncate x n h = Ret (x', h') ∧ pool_ok h' ((HBytes x', ztake n bs) :: hcs).
Proof.
  intros Hpool Hmax Hn. destruct (pool_bytes_len _ _ _ _ Hpool) as (Hlen & Ha & Hi).
  unfold truncate. rewrite Hlen. destruct (Z.ltb_spec n (zlen bs)) as [Hlt|Hge].
  2: { exists x, h. split; [done|]. by rewrite ztake_ge. }
  assert (Hsplit : ∃ x' h', ('(tail, self) ← split_off x n; _ ← bytes_drop tail; mret self) h = Ret (x', h') ∧
    pool_ok h' ((HBytes x', ztake n bs) :: hcs)).
  { destruct (pool_split_off h x bs hcs n Hpool) as (y & x' & h' & Hs & Hp' & _); [lia|lia|].
    hstep Hs. eapply pool_perm in Hp'; [|apply Permutation_swap].
    destruct (pool_drop h' (HBytes y) _ _ Hp') as (h2 & Hd & Hp2).
    { rewrite !zlen_cons in *. lia. }
    cbn [drop_handle] in Hd. hstep Hd. by exists x', h2. }
  assert (Hkeep : shareable x → ∃ x' h', (mret (bytes_with_ptr x (b_ptr x) n) : HM Bytes) h = Ret (x', h') ∧
    pool_ok h' ((HBytes x', ztake n bs) :: hcs)).
  { intros Hs. rewrite narrow_keep. eexists _, h. split; [done|].
    pose proof (pool_narrow h x bs hcs 0 n Hpool) as H. rewrite zdrop_0 in H. apply H; [lia|lia|lia|by left]. }
  destruct (b_vtable x) eqn:Hvt; try exact Hsplit; apply Hkeep;
    (eapply pool_shareable; [done|by rewrite Hvt|by rewrite Hvt]).
Qed.

End pool.
