(* ===== verification/BytesProps.v ===== *)
(** * BytesProps: [Bytes] refines a pool of byte strings

    The specification of [Bytes] is a list of byte strings on which every operation
    acts by value ([spec]).  The code runs on a heap with shared, reference-counted
    storage ([exec]).  The theorems say that the code implements the specification:
    same results, the other handles untouched, no access the unsafe code must not
    make, and no memory left when the last handle is gone. *)

From S2P Require Import Prelude Machine Loom Heap Bytes BytesMut BytesInv BytesOps BytesPool.
From stdpp Require Import fin_maps fin_sets.
Open Scope Z_scope.

(** ** The specification *)

(** What a handle stands for; a [BytesMut] also shows its capacity. *)
Inductive avalue := ABytes (bs : list byte) | AVec (bs : list byte) | AMut (bs : list byte) (cap : Z).

Inductive op :=
| Clone
| Slice (lo hi : bound)
| SplitOff (n : Z)
| SplitTo (n : Z)
| Truncate (n : Z)
| Advance (n : Z)
| IntoVec
| FromVec
| FromOwner (lend : Z → Z * Z)
| Drop.

(** Sizes are [usize]s, and an owner's [as_ref] lends a part of the bytes it owns:
    [lend len] is where that part starts and how long it is. *)
Definition op_size_ok (o : op) : Prop :=
  match o with
  | Slice lo hi =>
    match lo with Included n | Excluded n => 0 <= n | Unbounded => True end ∧
    match hi with Included n | Excluded n => 0 <= n | Unbounded => True end
  | SplitOff n | SplitTo n | Truncate n | Advance n => 0 <= n
  | FromOwner lend => ∀ len, 0 <= len → 0 <= (lend len).1 ∧ 0 <= (lend len).2 ∧ (lend len).1 + (lend len).2 <= len
  | _ => True
  end.

Section spec.
Context `{T : Target}.

Definition spec_start (b : bound) : option Z :=
  match b with Included n => Some n | Excluded n => checked_add n 1 | Unbounded => Some 0 end.
Definition spec_end (b : bound) (len : Z) : option Z :=
  match b with Included n => checked_add n 1 | Excluded n => Some n | Unbounded => Some len end.

(** The handle replaced by its successors; [None] is a panic. *)
Definition spec (o : op) (a : avalue) : option (list avalue) :=
  match o, a with
  | Clone, ABytes bs => Some [ABytes bs; ABytes bs]
  | Slice lo hi, ABytes bs =>
    lo ← spec_start lo;
    hi ← spec_end hi (zlen bs);
    if (lo <=? hi) && (hi <=? zlen bs)
    then Some [ABytes bs; ABytes (zdrop lo (ztake hi bs))] else None
  | SplitOff n, ABytes bs =>
    if n <=? zlen bs then Some [ABytes (ztake n bs); ABytes (zdrop n bs)] else None
  | SplitTo n, ABytes bs =>
    if n <=? zlen bs then Some [ABytes (zdrop n bs); ABytes (ztake n bs)] else None
  | Truncate n, ABytes bs => Some [ABytes (ztake n bs)]
  | Advance n, ABytes bs => if n <=? zlen bs then Some [ABytes (zdrop n bs)] else None
  | IntoVec, ABytes bs => Some [AVec bs]
  | FromVec, AVec bs => Some [ABytes bs]
  | FromOwner lend, AVec bs => Some [ABytes (ztake (lend (zlen bs)).2 (zdrop (lend (zlen bs)).1 bs))]
  | Drop, _ => Some []
  | _, a => Some [a]
  end.

End spec.

(** ** The code *)
Section exec.
Context `{T : Target, A : Allocator}.

(** [AsRef<[u8]>::as_ref] of an owner that lends the part [lend] of its vector. *)
Definition as_ref_of (lend : Z → Z * Z) (owner : hvec) : ptr * Z :=
  let '(lo, n) := lend (hv_len owner) in (ptr_add (hv_ptr owner) lo, n).

(** The handle an operation is called on, replaced by the handles it leaves. *)
Definition exec (o : op) (x : handle) : HM (list handle) :=
  match o, x with
  | Clone, HBytes x => '(y, x) ← bytes_clone x; mret [HBytes x; HBytes y]
  | Slice lo hi, HBytes x => '(y, x) ← bytes_slice x lo hi; mret [HBytes x; HBytes y]
  | SplitOff n, HBytes x => '(y, x) ← split_off x n; mret [HBytes x; HBytes y]
  | SplitTo n, HBytes x => '(y, x) ← split_to x n; mret [HBytes x; HBytes y]
  | Truncate n, HBytes x => x ← truncate x n; mret [HBytes x]
  | Advance n, HBytes x => x ← bytes_advance x n; mret [HBytes x]
  | IntoVec, HBytes x => v ← bytes_into_vec x; mret [HVec v]
  | FromVec, HVec v => x ← from_vec v; mret [HBytes x]
  | FromOwner lend, HVec v => x ← from_owner (as_ref_of lend) v; mret [HBytes x]
  | Drop, x => _ ← drop_handle x; mret []
  | _, x => mret [x]
  end.

(** A handle and what it stands for, with the bytes it shows. *)
Definition shows (x : handle) (a : avalue) : Prop :=
  match x, a with
  | HBytes _, ABytes _ | HVec _, AVec _ => True
  | HMut m, AMut _ cap => m_cap m = cap
  | _, _ => False
  end.
Definition bytes_of (a : avalue) : list byte := match a with ABytes bs | AVec bs | AMut bs _ => bs end.

(** The pool of handles [xs] stands for the values [avs] over the heap [h]. *)
Definition represents (h : heap) (xs : list handle) (avs : list avalue) : Prop :=
  Forall2 shows xs avs ∧ pool_ok h (zip xs (bytes_of <$> avs)).

Definition is_panic (f : fault) : Prop := f ≠ UndefinedBehaviour ∧ f ≠ Abort ∧ f ≠ Diverge.

Lemma exec_slice_bounds x lo hi h :
  bytes_slice x lo hi h =
  match spec_start lo, spec_end hi (b_len x) with
  | Some l, Some r => bytes_slice x (Included l) (Excluded r) h
  | _, _ => Fault PanicExpect
  end.
Proof.
  unfold bytes_slice, spec_start, spec_end, start_of, end_of.
  destruct lo as [l|l|]; cbv zeta; rewrite ?hm_bind_mret;
    [|destruct (checked_add l 1) as [l'|]; cbn [expect lift]; [|reflexivity]|];
    (destruct hi as [r|r|]; [destruct (checked_add r 1) as [r'|]; [reflexivity|reflexivity]|reflexivity|reflexivity]).
Qed.

Lemma slice_panics x (bs : list byte) h l r :
  b_len x = zlen bs → (l <=? r) && (r <=? zlen bs) = false →
  bytes_slice x (Included l) (Excluded r) h = Fault PanicAssert.
Proof.
  intros Hlen Hb. unfold bytes_slice. cbv zeta. cbn [start_of end_of]. rewrite !hm_bind_mret, Hlen.
  destruct (l <=? r) eqn:E1; cbn in Hb.
  - rewrite (hm_bind_Ret _ _ _ tt h) by (by apply hassert_ok). by rewrite Hb.
  - done.
Qed.

Lemma split_panics x (bs : list byte) h n :
  b_len x = zlen bs → zlen bs < n →
  split_off x n h = Fault PanicAssert ∧ split_to x n h = Fault PanicAssert ∧
  bytes_advance x n h = Fault PanicAssert.
Proof.
  intros Hlen Hn. pose proof (zlen_nonneg bs). unfold split_off, split_to, bytes_advance. rewrite Hlen.
  rewrite !(proj2 (Z.eqb_neq n _)) by lia. rewrite (proj2 (Z.leb_gt _ _)) by lia. done.
Qed.

(** One operation, on the first handle of the pool. *)
Definition exec_ok (o : op) (x : handle) (a : avalue) : Prop :=
  ∀ h xs avs, represents h (x :: xs) (a :: avs) → op_size_ok o → zlen xs + 2 <= isize_max →
    match spec o a with
    | Some new => ∃ ys h', exec o x h = Ret (ys, h') ∧ represents h' (ys ++ xs) (new ++ avs)
    | None => ∃ f, exec o x h = Fault f ∧ is_panic f
    end.

Lemma represents_inv h x a xs avs :
  represents h (x :: xs) (a :: avs) →
  shows x a ∧ Forall2 shows xs avs ∧ pool_ok h ((x, bytes_of a) :: zip xs (bytes_of <$> avs)).
Proof. intros [Hs Hp]. apply Forall2_cons in Hs as [? ?]. done. Qed.

Lemma represents_app h ys new xs avs :
  Forall2 shows ys new → Forall2 shows xs avs →
  pool_ok h (zip ys (bytes_of <$> new) ++ zip xs (bytes_of <$> avs)) → represents h (ys ++ xs) (new ++ avs).
Proof.
  intros H1 H2 Hp. split; [by apply Forall2_app|].
  rewrite fmap_app, zip_with_app; [done|]. rewrite length_fmap. by eapply Forall2_length.
Qed.

Lemma pool_size h x a xs avs :
  represents h (x :: xs) (a :: avs) →
  zlen ((x, bytes_of a) :: zip xs (bytes_of <$> avs)) = 1 + zlen xs.
Proof.
  intros (_ & Hs & _)%represents_inv. unfold zlen. cbn. rewrite length_zip_with, length_fmap.
  apply Forall2_length in Hs. lia.
Qed.

(** The run [E] ends with the handles and the heap just given, and they represent the
    specified pool; the run [E] panics with the fault just given. *)
Ltac run_ends E := split; [by hstep E|apply represents_app; [by repeat constructor|done|done]].
Ltac run_panics E := split; [by rewrite (hm_bind_Fault _ _ _ _ E)|done].

Lemma exec_slice_ok lo hi x bs : exec_ok (Slice lo hi) (HBytes x) (ABytes bs).
Proof.
  intros h xs avs Hr Ho Hmax. pose proof (pool_size _ _ _ _ _ Hr) as Hz.
  apply represents_inv in Hr as (_ & Hs & Hp). cbn [bytes_of] in *.
  set (hcs := zip xs (bytes_of <$> avs)) in *.
  pose proof (pool_bytes_len _ _ _ _ Hp) as (Hlen & _).
  cbn [spec exec].
  pose proof (exec_slice_bounds x lo hi h) as Eb. rewrite Hlen in Eb.
  destruct (spec_start lo) as [l|] eqn:El; cbn [mbind option_bind].
  2: { exists PanicExpect. run_panics Eb. }
  destruct (spec_end hi (zlen bs)) as [r|] eqn:Er; cbn [mbind option_bind].
  2: { exists PanicExpect. run_panics Eb. }
  destruct ((l <=? r) && (r <=? zlen bs)) eqn:Hb.
  - apply andb_prop in Hb as [H1%Z.leb_le H2%Z.leb_le].
    assert (0 <= l).
    { destruct Ho as [Ho _]. destruct lo; simplify_eq/=; try lia.
      unfold checked_add in El. case_match; simplify_eq; lia. }
    destruct (pool_slice h x bs hcs l r Hp) as (y & x' & h' & E & Hp' & _); [lia|lia|lia|].
    rewrite E in Eb. exists [HBytes x'; HBytes y], h'. run_ends Eb.
  - rewrite (slice_panics x bs h l r Hlen Hb) in Eb. exists PanicAssert.
    run_panics Eb.
Qed.

Lemma exec_bytes_ok o x bs : exec_ok o (HBytes x) (ABytes bs).
Proof.
  destruct o as [|lo hi|n|n|n|n| | |lend|]; [|by apply exec_slice_ok|..];
    intros h xs avs Hr Ho Hmax; pose proof (pool_size _ _ _ _ _ Hr) as Hz;
    apply represents_inv in Hr as (_ & Hs & Hp); cbn [bytes_of] in *;
    set (hcs := zip xs (bytes_of <$> avs)) in *;
    pose proof (pool_bytes_len _ _ _ _ Hp) as (Hlen & _); cbn [spec exec].
  - destruct (pool_clone h x bs hcs Hp) as (y & x' & h' & E & _ & _ & Hp' & _); [lia|].
    exists [HBytes x'; HBytes y], h'. run_ends E.
  - destruct (Z.leb_spec n (zlen bs)).
    + destruct (pool_split_off h x bs hcs n Hp) as (y & x' & h' & E & Hp' & _); [lia|cbn in Ho; lia|].
      exists [HBytes x'; HBytes y], h'. run_ends E.
    + destruct (split_panics x bs h n Hlen) as (E & _ & _); [done|]. exists PanicAssert.
      run_panics E.
  - destruct (Z.leb_spec n (zlen bs)).
    + destruct (pool_split_to h x bs hcs n Hp) as (y & x' & h' & E & Hp'); [lia|cbn in Ho; lia|].
      exists [HBytes x'; HBytes y], h'. run_ends E.
    + destruct (split_panics x bs h n Hlen) as (_ & E & _); [done|]. exists PanicAssert.
      run_panics E.
  - destruct (pool_truncate h x bs hcs n Hp) as (x' & h' & E & Hp'); [lia|done|].
    exists [HBytes x'], h'. run_ends E.
  - destruct (Z.leb_spec n (zlen bs)).
    + destruct (pool_advance h x bs hcs n Hp) as (x' & E & Hp'); [cbn in Ho; lia|].
      exists [HBytes x'], h. run_ends E.
    + destruct (split_panics x bs h n Hlen) as (_ & _ & E); [done|]. exists PanicAssert.
      run_panics E.
  - destruct (pool_into_vec h x bs hcs Hp) as (v & h' & E & Hp'); [lia|].
    exists [HVec v], h'. run_ends E.
  - exists [HBytes x], h. split; [done|]. apply represents_app; [by repeat constructor|done|done].
  - exists [HBytes x], h. split; [done|]. apply represents_app; [by repeat constructor|done|done].
  - destruct (pool_drop h (HBytes x) bs hcs Hp) as (h' & E & Hp'); [lia|].
    exists [], h'. split; [by hstep E|]. by apply represents_app.
Qed.

Lemma exec_vec_ok o v bs : exec_ok o (HVec v) (AVec bs).
Proof.
  intros h xs avs Hr Ho Hmax. pose proof (pool_size _ _ _ _ _ Hr) as Hz.
  apply represents_inv in Hr as (_ & Hs & Hp). cbn [bytes_of] in *.
  set (hcs := zip xs (bytes_of <$> avs)) in *.
  assert (Hsame : represents h ([HVec v] ++ xs) ([AVec bs] ++ avs)) by
    (apply represents_app; [by repeat constructor|done|done]).
  destruct o; cbn [spec exec]; try (eexists _, h; split; [reflexivity|exact Hsame]).
  - destruct (pool_from_vec h v bs hcs Hp) as (x & h' & E & Hp').
    exists [HBytes x], h'. run_ends E.
  - pose proof (pool_vec_len _ _ _ _ Hp) as Hlen. destruct (Ho (zlen bs) (zlen_nonneg bs)) as (H1 & H2 & H3).
    destruct (pool_from_owner h v bs hcs (as_ref_of lend) (lend (zlen bs)).1 (lend (zlen bs)).2 Hp)
      as (x & h' & E & Hp'); [|done..|].
    { unfold as_ref_of. rewrite Hlen. by destruct (lend (zlen bs)). }
    exists [HBytes x], h'. run_ends E.
  - destruct (pool_drop h (HVec v) bs hcs Hp) as (h' & E & Hp'); [lia|].
    exists [], h'. split; [by hstep E|]. by apply represents_app.
Qed.

Lemma exec_mut_ok o m bs cap : exec_ok o (HMut m) (AMut bs cap).
Proof.
  intros h xs avs Hr Ho Hmax. pose proof (pool_size _ _ _ _ _ Hr) as Hz.
  pose proof Hr as (_ & Hs & Hp)%represents_inv. cbn [bytes_of] in *.
  destruct o; cbn [spec exec]; try (eexists [HMut m], h; split; [reflexivity|exact Hr]).
  destruct (pool_drop h (HMut m) bs _ Hp) as (h' & E & Hp'); [lia|].
  exists [], h'. split; [by hstep E|]. by apply represents_app.
Qed.

Lemma exec_refines o x a h xs avs :
  represents h (x :: xs) (a :: avs) → op_size_ok o → zlen xs + 2 <= isize_max →
  match spec o a with
  | Some new => ∃ ys h', exec o x h = Ret (ys, h') ∧ represents h' (ys ++ xs) (new ++ avs)
  | None => ∃ f, exec o x h = Fault f ∧ is_panic f
  end.
Proof.
  intros Hr. pose proof (represents_inv _ _ _ _ _ Hr) as (Hs & _).
  destruct x, a; try done; [by apply exec_bytes_ok|by apply exec_vec_ok|by apply exec_mut_ok].
Qed.

End exec.

(** ** Programs *)
Inductive instr :=
| New (bs : list byte)          (* [bs.to_vec()] *)
| Static (s : static_slice)     (* [Bytes::from_static(s)] *)
| Do (i : nat) (o : op).        (* an operation on the [i]-th handle *)

Section programs.
Context `{T : Target, A : Allocator}.

Definition instr_ok (c : instr) : Prop :=
  match c with
  | New _ => True
  | Static s => 0 < st_addr s ∧ zlen (st_bytes s) <= isize_max
  | Do _ o => op_size_ok o
  end.

Definition exec_instr (c : instr) (pool : list handle) : HM (list handle) :=
  match c with
  | New bs => v ← to_vec bs; mret (HVec v :: pool)
  | Static s => mret (HBytes (from_static s) :: pool)
  | Do i o =>
    match pool !! i with
    | Some x => ys ← exec o x; mret (ys ++ delete i pool)
    | None => mret pool
    end
  end.

Definition spec_instr (c : instr) (avs : list avalue) : option (list avalue) :=
  match c with
  | New bs => if zlen bs <=? isize_max then Some (AVec bs :: avs) else None
  | Static s => Some (ABytes (st_bytes s) :: avs)
  | Do i o =>
    match avs !! i with
    | Some a => new ← spec o a; Some (new ++ delete i avs)
    | None => Some avs
    end
  end.

Fixpoint run_prog (prog : list instr) (pool : list handle) : HM (list handle) :=
  match prog with
  | [] => mret pool
  | c :: prog => pool ← exec_instr c pool; run_prog prog pool
  end.

Fixpoint spec_prog (prog : list instr) (avs : list avalue) : option (list avalue) :=
  match prog with
  | [] => Some avs
  | c :: prog => avs ← spec_instr c avs; spec_prog prog avs
  end.

Lemma zip_focus {X Y} (xs : list X) (ys : list Y) i x y :
  xs !! i = Some x → ys !! i = Some y → zip xs ys ≡ₚ (x, y) :: zip (delete i xs) (delete i ys).
Proof.
  revert ys i. induction xs as [|x0 xs IH]; intros [|y0 ys] [|i]; intros Hx Hy; simplify_eq/=; try done.
  rewrite (IH ys i Hx Hy). apply Permutation_swap.
Qed.

Lemma represents_focus h xs avs i x :
  represents h xs avs → xs !! i = Some x →
  ∃ a, avs !! i = Some a ∧ represents h (x :: delete i xs) (a :: delete i avs).
Proof.
  intros [Hs Hp] Hx. destruct (Forall2_lookup_l _ _ _ _ _ Hs Hx) as (a & Ha & Hxa). exists a.
  split; [done|]. split.
  - constructor; [done|]. by apply Forall2_delete.
  - eapply pool_perm; [|exact Hp]. cbn. rewrite list_fmap_delete. apply zip_focus; [done|].
    by rewrite list_lookup_fmap, Ha.
Qed.

Lemma spec_at_most_two o a new : spec o a = Some new → (length new <= 2)%nat.
Proof.
  destruct o as [|lo hi| | | | | | | |], a as [bs|bs|bs cap]; cbn; intros H;
    try (repeat case_match; simplify_eq/=; lia).
  apply bind_Some in H as (? & _ & H). apply bind_Some in H as (? & _ & H).
  case_match; simplify_eq/=; lia.
Qed.

Lemma represents_length h xs avs : represents h xs avs → length xs = length avs.
Proof. intros [Hs _]. by eapply Forall2_length. Qed.

Lemma instr_refines c h xs avs :
  represents h xs avs → instr_ok c → zlen xs + 2 <= isize_max →
  match spec_instr c avs with
  | Some avs' => ∃ xs' h', exec_instr c xs h = Ret (xs', h') ∧ represents h' xs' avs' ∧
                           zlen xs' <= zlen xs + 1
  | None => ∃ f, exec_instr c xs h = Fault f ∧ is_panic f
  end.
Proof.
  intros Hr Hc Hmax. destruct c as [bs|s|i o]; cbn [spec_instr exec_instr].
  - destruct (Z.leb_spec (zlen bs) isize_max) as [Hle|Hgt].
    + destruct Hr as [Hs Hp]. destruct (pool_to_vec h bs _ Hp Hle) as (v & h' & E & Hp').
      exists (HVec v :: xs), h'. split; [by hstep E|]. split; [|zlia]. split; [by constructor|done].
    + exists PanicCapacity. split; [|done].
      assert (E : to_vec bs h = Fault PanicCapacity).
      { unfold to_vec, hvec_with_capacity. by rewrite (proj2 (Z.ltb_lt _ _)). }
      by rewrite (hm_bind_Fault _ _ _ _ E).
  - exists (HBytes (from_static s) :: xs), h. split; [done|]. split; [|zlia].
    destruct Hr as [Hs Hp]. split; [by constructor|]. cbn. apply pool_static; [done|].
    destruct Hc as [? ?]. unfold static_view. cbn. rewrite zdrop_0.
    repeat split; try done; try lia. by apply ztake_ge.
  - destruct (xs !! i) as [x|] eqn:Hx.
    + destruct (represents_focus h xs avs i x Hr Hx) as (a & Ha & Hr'). rewrite Ha.
      assert (Hd : (length (delete i xs) + 1 = length xs)%nat).
      { rewrite length_delete by eauto. apply lookup_lt_Some in Hx. lia. }
      pose proof (exec_refines o x a h _ _ Hr' Hc) as H.
      specialize (H ltac:(unfold zlen in *; lia)).
      destruct (spec o a) as [new|] eqn:Hsp; cbn [mbind option_bind].
      * destruct H as (ys & h' & E & Hr2). exists (ys ++ delete i xs), h'.
        split; [by hstep E|]. split; [done|].
        pose proof (represents_length _ _ _ Hr2) as Hl2. apply represents_length in Hr'.
        apply spec_at_most_two in Hsp. rewrite !length_app in Hl2. cbn in Hr'.
        unfold zlen. rewrite length_app. lia.
      * destruct H as (f & E & Hf). exists f. split; [by rewrite (hm_bind_Fault _ _ _ _ E)|done].
    + assert (avs !! i = None) as ->.
      { apply lookup_ge_None. apply lookup_ge_None in Hx. apply represents_length in Hr. lia. }
      exists xs, h. split; [done|]. split; [done|lia].
Qed.

Lemma prog_refines prog : ∀ h xs avs,
  represents h xs avs → Forall instr_ok prog → zlen xs + zlen prog + 1 <= isize_max →
  match spec_prog prog avs with
  | Some avs' => ∃ xs' h', run_prog prog xs h = Ret (xs', h') ∧ represents h' xs' avs'
  | None => ∃ f, run_prog prog xs h = Fault f ∧ is_panic f
  end.
Proof.
  induction prog as [|c prog IH]; intros h xs avs Hr Hok Hmax; cbn [spec_prog run_prog].
  { by exists xs, h. }
  apply Forall_cons in Hok as [Hc Hok]. rewrite zlen_cons in Hmax. pose proof (zlen_nonneg prog).
  pose proof (instr_refines c h xs avs Hr Hc ltac:(lia)) as H0.
  destruct (spec_instr c avs) as [avs'|]; cbn [mbind option_bind].
  - destruct H0 as (xs' & h' & E & Hr' & Hlen). hstep E. apply IH; [done|done|lia].
  - destruct H0 as (f & E & Hf). exists f. split; [by rewrite (hm_bind_Fault _ _ _ _ E)|done].
Qed.

Lemma represents_empty : represents empty_heap [] [].
Proof. split; [done|]. exists []. split; [|done]. by repeat split. Qed.

Lemma represents_no_leak h : represents h [] [] → cells h = ∅.
Proof.
  intros [_ (gs & (Hst & _ & Hdom & _) & Hp)]. cbn in Hp.
  destruct gs as [|[xs fp] gs].
  - apply dom_empty_inv_L. by rewrite Hdom.
  - apply Permutation_nil_l in Hp. cbn in Hp. symmetry in Hp.
    apply app_eq_nil in Hp as [Hx _]. subst xs. apply Forall_cons in Hst as [Hst _]. cbn in Hst.
    by inversion Hst.
Qed.

Lemma represents_reads h xs avs i x bs :
  represents h xs avs → xs !! i = Some (HBytes x) → avs !! i = Some (ABytes bs) →
  bytes_as_slice x h = Ret (bs, h).
Proof.
  intros Hr Hx Ha. destruct (represents_focus _ _ _ _ _ Hr Hx) as (a & Ha' & Hr').
  simplify_eq. apply represents_inv in Hr' as (_ & _ & Hp). by eapply pool_read.
Qed.

End programs.

(** An allocator that puts buffers at odd addresses when their number is even. *)
Definition demo_alloc : Allocator.
Proof.
  refine {| block_addr l := 1000 * Z.of_nat l + 1 + Z.of_nat l; obj_addr l := 1000 * Z.of_nat l + 500 |}.
  - lia.
  - lia.
  - intros l. change 1 with (Z.ones 1). rewrite Z.land_ones by lia. change (2 ^ 1) with 2.
    replace (1000 * Z.of_nat l + 500) with ((500 * Z.of_nat l + 250) * 2) by lia. apply Z.mod_mul. lia.
Defined.

(** [Bytes] implements the pool of byte strings.  Every program of constructors,
    clones, slices, splits, truncations, advances, conversions and drops, on any
    allocator, does what the specification says: where the specification panics the
    code panics, and nowhere else; otherwise it runs to its end and every handle
    shows exactly the bytes of its value, whatever was done to the handles it shares
    storage with.  In no case does it read or free memory it must not. *)
Theorem bytes_programs_refine `{T : Target, A : Allocator} prog :
  Forall instr_ok prog → zlen prog < isize_max →
  match spec_prog prog [] with
  | Some avs =>
    ∃ xs h, run_prog prog [] empty_heap = Ret (xs, h) ∧ length xs = length avs ∧
      ∀ i x bs, xs !! i = Some (HBytes x) → avs !! i = Some (ABytes bs) →
        b_len x = zlen bs ∧ bytes_as_slice x h = Ret (bs, h)
  | None => ∃ f, run_prog prog [] empty_heap = Fault f ∧ is_panic f
  end.
Proof.
  intros Hok Hmax. pose proof (prog_refines prog empty_heap [] [] represents_empty Hok) as H.
  specialize (H ltac:(rewrite zlen_nil; lia)). destruct (spec_prog prog []) as [avs|]; [|done].
  destruct H as (xs & h & E & Hr). exists xs, h. split; [done|]. split; [by eapply represents_length|].
  intros i x bs Hx Ha. split; [|by eapply represents_reads].
  destruct (represents_focus _ _ _ _ _ Hr Hx) as (a & Ha' & Hr'). simplify_eq.
  apply represents_inv in Hr' as (_ & _ & Hp). by apply pool_bytes_len in Hp as (? & _).
Qed.

Lemma bytes_programs_refine_witness :
  ∃ xs h, run_prog (T := riscv64) (A := demo_alloc)
      [New [x01; x02; x03]; Do 0 FromVec; Do 0 Clone; Do 0 (SplitOff 1); Do 2 Drop] [] empty_heap
    = Ret (xs, h) ∧ length xs = 2%nat ∧
    ∀ i x bs, xs !! i = Some (HBytes x) → [ABytes [x01]; ABytes [x02; x03]] !! i = Some (ABytes bs) →
      b_len x = zlen bs ∧ bytes_as_slice x h = Ret (bs, h).
Proof.
  pose proof (bytes_programs_refine (T := riscv64) (A := demo_alloc)
    [New [x01; x02; x03]; Do 0 FromVec; Do 0 Clone; Do 0 (SplitOff 1); Do 2 Drop]) as H.
  apply H; [repeat constructor; done|done].
Defined.

(** No memory is leaked.  A program after which no handle is live leaves an empty
    heap: every buffer and every reference-count box it allocated has been freed,
    once, whatever the order in which the handles that shared them were dropped. *)
Theorem bytes_no_leak `{T : Target, A : Allocator} prog :
  Forall instr_ok prog → zlen prog < isize_max → spec_prog prog [] = Some [] →
  ∃ h, run_prog prog [] empty_heap = Ret ([], h) ∧ cells h = ∅.
Proof.
  intros Hok Hmax Hs. pose proof (prog_refines prog empty_heap [] [] represents_empty Hok) as H.
  specialize (H ltac:(rewrite zlen_nil; lia)). rewrite Hs in H. destruct H as (xs & h & E & Hr).
  assert (xs = []) as -> by (apply represents_length in Hr; by destruct xs).
  exists h. split; [done|]. by apply represents_no_leak.
Qed.

Lemma bytes_no_leak_witness :
  ∃ h, run_prog (T := riscv64) (A := demo_alloc)
      [New [x01; x02]; Do 0 FromVec; Do 0 Clone; Do 1 Drop; Do 0 IntoVec; Do 0 Drop] [] empty_heap
    = Ret ([], h) ∧ cells h = ∅.
Proof.
  apply (bytes_no_leak (T := riscv64) (A := demo_alloc)); [repeat constructor; done|done|reflexivity].
Defined.

(** [slice_ref] of a slice that starts [lo] bytes after the start of the buffer. *)
Lemma pool_slice_ref `{T : Target, A : Allocator} h x bs hcs p lo n :
  pool_ok h ((HBytes x, bs) :: hcs) → zlen hcs < isize_max →
  ptr_addr p = ptr_addr (b_ptr x) + lo → ptr_addr p + n <= usize_max →
  ptr_addr (b_ptr x) + zlen bs <= usize_max → 0 < n →
  if (0 <=? lo) && (lo + n <=? zlen bs) then
    ∃ y x' h', slice_ref x p n h = Ret ((y, x'), h') ∧ b_ptr x' = b_ptr x ∧ shares x y lo n ∧
      pool_ok h' ((HBytes x', bs) :: (HBytes y, ztake n (zdrop lo bs)) :: hcs)
  else slice_ref x p n h = Fault PanicAssert.
Proof.
  intros Hp Hmax Hptr Hfit Hfit' Hn. pose proof (pool_bytes_len _ _ _ _ Hp) as (Hl & Ha & Hi).
  unfold slice_ref. rewrite (proj2 (Z.eqb_neq n 0)) by lia. cbv zeta. rewrite Hl, Hptr in *.
  destruct (Z.leb_spec 0 lo) as [Hlo|Hlo].
  2: { apply hm_bind_Fault. by rewrite (proj2 (Z.leb_gt _ _)) by lia. }
  rewrite (hm_bind_Ret _ _ _ tt h) by (apply hassert_ok, Z.leb_le; lia).
  rewrite (uadd_ok (_ + lo)), hm_bind_lift by lia. rewrite (uadd_ok _ (zlen bs)), hm_bind_lift by lia.
  destruct (Z.leb_spec (lo + n) (zlen bs)) as [Hin|Hout]; cbn [andb].
  2: { apply hm_bind_Fault. by rewrite (proj2 (Z.leb_gt _ _)) by lia. }
  rewrite (hm_bind_Ret _ _ _ tt h) by (apply hassert_ok, Z.leb_le; lia).
  rewrite usub_ok, hm_bind_lift by lia. replace (ptr_addr (b_ptr x) + lo - ptr_addr (b_ptr x)) with lo by lia.
  pose proof usize_isize_max. pose proof isize_max_pos. rewrite uadd_ok, hm_bind_lift by lia.
  destruct (pool_slice h x bs hcs lo (lo + n) Hp) as (y & x' & h' & E & Hp' & Hx & Hy); [zlia|lia|lia|].
  specialize (Hy ltac:(lia)). rewrite zdrop_ztake in Hp' by lia. replace (lo + n - lo) with n in * by lia.
  by exists y, x', h'.
Qed.

(** C32: sharing is shallow.  In any pool of live handles a clone is a view of the whole
    of the original's memory: the same bytes, at the same address, and for a handle that is
    not static behind the very same pointer; the original stays where it was and all the
    other handles show what they showed.  [slice_ref] of a slice of [n > 0] bytes finds it
    by its address: when it lies within the buffer the new handle starts at that address,
    [lo] bytes into the same allocation, and shows those [n] bytes, nothing being copied;
    otherwise it panics.  An empty argument gives the empty static [Bytes] wherever it
    points, and touches nothing. *)
Theorem clone_is_shallow `{T : Target, A : Allocator} h x bs hcs :
  pool_ok h ((HBytes x, bs) :: hcs) → zlen hcs < isize_max →
  (∃ y x' h', bytes_clone x h = Ret ((y, x'), h') ∧ b_ptr x' = b_ptr x ∧ shares x y 0 (zlen bs) ∧
    pool_ok h' ((HBytes x', bs) :: (HBytes y, bs) :: hcs)) ∧
  (∀ p lo n, ptr_addr p = ptr_addr (b_ptr x) + lo → ptr_addr p + n <= usize_max →
    ptr_addr (b_ptr x) + zlen bs <= usize_max → 0 < n →
    if (0 <=? lo) && (lo + n <=? zlen bs) then
      ∃ y x' h', slice_ref x p n h = Ret ((y, x'), h') ∧ b_ptr x' = b_ptr x ∧ shares x y lo n ∧
        pool_ok h' ((HBytes x', bs) :: (HBytes y, ztake n (zdrop lo bs)) :: hcs)
    else slice_ref x p n h = Fault PanicAssert) ∧
  (∀ p, slice_ref x p 0 h = Ret ((bytes_new, x), h) ∧
    pool_ok h ((HBytes x, bs) :: (HBytes bytes_new, []) :: hcs)).
Proof.
  intros Hp Hmax. split; [|split; [intros p lo n; by apply pool_slice_ref|]].
  - apply pool_clone_shares; [done|rewrite zlen_cons; lia].
  - intros p. split; [done|]. eapply pool_perm; [apply Permutation_swap|].
    apply pool_static; [done|]. pose proof isize_max_pos. unfold static_view. cbn. repeat split; try done. zlia.
Qed.

(** A [Bytes] over the last two bytes of an unshared boxed slice at an odd address. *)
Definition boxed_heap : heap :=
  {| cells := {[0%nat := CBlock [Some x01; Some x02; Some x03]]}; next_loc := 1%nat |}.
Definition boxed_bytes : Bytes :=
  {| b_ptr := PHeap 0 1; b_len := 2; b_data := PHeap 0 0; b_vtable := PROMOTABLE_ODD_VTABLE |}.

Lemma boxed_pool : pool_ok (T := riscv64) (A := demo_alloc) boxed_heap [(HBytes boxed_bytes, [x02; x03])].
Proof.
  exists [([(HBytes boxed_bytes, [x02; x03])], {[0%nat]})]. split; [|done]. split; [|split; [|split]].
  - apply Forall_singleton.
    eapply (StBoxed (T := riscv64) (A := demo_alloc) boxed_heap 0 [Some x01; Some x02; Some x03] _ 1);
      [done|done|done|right; done|by repeat split|done].
  - split; [unfold footprint; cbn; set_solver|done].
  - unfold boxed_heap. cbn [cells]. rewrite dom_singleton_L. unfold footprint. cbn. set_solver.
  - intros l. unfold boxed_heap. cbn [cells next_loc]. rewrite dom_singleton_L, elem_of_singleton. lia.
Qed.

Lemma clone_is_shallow_witness :
  (∃ y x' h', bytes_clone (A := demo_alloc) (T := riscv64) boxed_bytes boxed_heap = Ret ((y, x'), h') ∧
    b_ptr x' = PHeap 0 1 ∧ shares (A := demo_alloc) boxed_bytes y 0 2 ∧
    pool_ok (A := demo_alloc) (T := riscv64) h' [(HBytes x', [x02; x03]); (HBytes y, [x02; x03])]) ∧
  (∃ y x' h', slice_ref (A := demo_alloc) (T := riscv64) boxed_bytes (PHeap 0 2) 1 boxed_heap
      = Ret ((y, x'), h') ∧ b_ptr x' = PHeap 0 1 ∧ shares (A := demo_alloc) boxed_bytes y 1 1 ∧
    pool_ok (A := demo_alloc) (T := riscv64) h' [(HBytes x', [x02; x03]); (HBytes y, [x03])]) ∧
  slice_ref (A := demo_alloc) (T := riscv64) boxed_bytes (PHeap 0 2) 2 boxed_heap = Fault PanicAssert.
Proof.
  destruct (clone_is_shallow (A := demo_alloc) (T := riscv64) boxed_heap boxed_bytes [x02; x03] []
    boxed_pool eq_refl) as (H1 & H2 & _).
  split; [exact H1|]. split; [exact (H2 (PHeap 0 2) 1 1 eq_refl ltac:(done) ltac:(done) eq_refl)|].
  exact (H2 (PHeap 0 2) 1 2 eq_refl ltac:(done) ltac:(done) eq_refl).
Defined.
