(* ===== verification/BytesMutOps.v ===== *)
(** * BytesMutOps: what the operations of [BytesMut] do to one group of handles

    The data word, the vectors under it, and the operations of BytesMut.v on one group
    of BytesInv.v: each runs to its end (or panics for lack of address space) and
    leaves the group as it should be. *)

From S2P Require Import Prelude Machine Loom Heap Bytes BytesMut BytesInv BytesOps BytesPool.
From stdpp Require Import fin_maps fin_sets.
Open Scope Z_scope.

(** ** Lists *)
Section splice.
Context {X : Type}.
Implicit Types (d new : list X).

Lemma zlen_splice_max d i new :
  0 <= i <= zlen d → zlen (splice d i new) = Z.max (zlen d) (i + zlen new).
Proof. intros Hi. unfold splice. pose proof (zlen_nonneg new). rewrite !zlen_app, zlen_take, zlen_drop_max by lia. lia. Qed.

Lemma splice_end d new : splice d (zlen d) new = d ++ new.
Proof.
  unfold splice. pose proof (zlen_nonneg new). rewrite ztake_ge, (zdrop_ge _ d) by lia.
  by rewrite app_nil_r.
Qed.

End splice.

Section mut_ops.
Context `{T : Target, A : Allocator}.

(** ** The data word *)
Lemma vec_data_ok r : repr_ok r → vec_data r = vec_word r 0.
Proof.
  unfold repr_ok. intros Hr. unfold vec_data, vec_word, invalid_ptr, ORIGINAL_CAPACITY_OFFSET, KIND_VEC.
  rewrite Z.shiftl_mul_pow2 by lia. change (2 ^ 2) with 4. pose proof usize_max_ge.
  rewrite wrap_unsigned_small by (unfold usize_max in *; lia).
  rewrite lor_1; [f_equal; lia|]. rewrite land_1.
  replace (r * 4) with (r * 2 * 2) by lia. apply Z.mod_mul. lia.
Qed.

Lemma vec_word_low r pos : repr_ok r → Z.land (ptr_addr (vec_word r pos)) NOT_VEC_POS_MASK = r * 4 + 1.
Proof.
  unfold repr_ok, NOT_VEC_POS_MASK. intros Hr. cbn [ptr_addr vec_word]. change 31 with (Z.ones 5).
  rewrite Z.land_ones by lia. change (2 ^ 5) with 32.
  rewrite <- Z.add_assoc, Z.add_comm, Z.mod_add, Z.mod_small by lia. done.
Qed.

Lemma set_vec_pos_ok m r pos pos' h :
  m_data m = vec_word r pos → repr_ok r → 0 <= pos' <= MAX_VEC_POS →
  set_vec_pos m pos' h = Ret (with_data m (vec_word r pos'), h).
Proof.
  intros E Hr Hp. unfold set_vec_pos. rewrite (bm_kind_vec m r pos E).
  rewrite (hm_bind_Ret _ _ _ tt h) by (by apply hdebug_assert_ok).
  rewrite (hm_bind_Ret _ _ _ tt h) by (apply hdebug_assert_ok, Z.leb_le; lia).
  rewrite E, vec_word_low by done. unfold invalid_ptr, vec_word, VEC_POS_OFFSET.
  rewrite Z.shiftl_mul_pow2 by lia. change (2 ^ 5) with 32. pose proof max_vec_pos.
  rewrite wrap_unsigned_small by (unfold usize_max in *; lia).
  unfold mret, HM_ret. do 3 f_equal. f_equal.
  rewrite <- Z.add_assoc. symmetry. unfold repr_ok in Hr.
  rewrite <- Z.lxor_lor, <- Z.add_nocarry_lxor; [lia|..].
  all: apply Z.bits_inj'; intros i Hi; rewrite Z.land_spec, Z.bits_0.
  all: destruct (Z.ltb_spec i 5).
  all: try (replace (pos' * 32) with (pos' * 2 ^ 5) by lia; rewrite Z.mul_pow2_bits_low by lia; done).
  all: rewrite andb_comm; replace (r * 4 + 1) with ((r * 4 + 1) mod 2 ^ 5) by (rewrite Z.mod_small; lia).
  all: by rewrite Z.mod_pow2_bits_high by lia.
Qed.

Lemma vec_word_repr r pos :
  repr_ok r →
  Z.shiftr (Z.land (ptr_addr (vec_word r pos)) ORIGINAL_CAPACITY_MASK) ORIGINAL_CAPACITY_OFFSET = r.
Proof.
  intros Hr. pose proof (vec_word_low r pos Hr) as E. revert E. generalize (ptr_addr (vec_word r pos)).
  intros w E. unfold ORIGINAL_CAPACITY_MASK, ORIGINAL_CAPACITY_OFFSET, NOT_VEC_POS_MASK in *.
  change 28 with (Z.land 31 28). rewrite Z.land_assoc, E. unfold repr_ok in Hr.
  assert (Hc : r = 0 ∨ r = 1 ∨ r = 2 ∨ r = 3 ∨ r = 4 ∨ r = 5 ∨ r = 6 ∨ r = 7) by lia.
  by repeat destruct Hc as [->|Hc]; [..|subst r].
Qed.

Lemma original_capacity_to_repr_ok cap : 0 <= cap → repr_ok (original_capacity_to_repr cap).
Proof.
  intros Hc. unfold repr_ok, original_capacity_to_repr, leading_zeros, MAX_ORIGINAL_CAPACITY_WIDTH,
    MIN_ORIGINAL_CAPACITY_WIDTH. pose proof (Z.log2_nonneg (Z.shiftr cap 10)).
  destruct (Z.eqb_spec (Z.shiftr cap 10) 0); lia.
Qed.

Lemma original_capacity_from_repr_bound r :
  repr_ok r → 0 <= original_capacity_from_repr r <= 65536.
Proof.
  unfold repr_ok, original_capacity_from_repr, MIN_ORIGINAL_CAPACITY_WIDTH. intros Hr.
  destruct (Z.eqb_spec r 0); [lia|]. rewrite Z.shiftl_1_l.
  assert (H1 : 0 <= 2 ^ (r + (10 - 1)) <= 2 ^ 16) by (split; [lia|apply Z.pow_le_mono_r; lia]).
  change (2 ^ 16) with 65536 in H1. pose proof usize_max_ge.
  rewrite wrap_unsigned_small by (unfold usize_max in *; lia). lia.
Qed.

Lemma vptr_ok p h : 0 < ptr_addr p → vptr p h = Ret (p, h).
Proof.
  intros Hp. unfold vptr. rewrite (proj2 (Z.eqb_neq _ _)) by lia. by rewrite andb_false_r.
Qed.

(** ** Steps of one group *)

(** From [h] to [h'] the allocations [fp] become [fp']; nothing else changes. *)
Definition moved (h h' : heap) (fp fp' : gset nat) : Prop :=
  (next_loc h <= next_loc h')%nat ∧
  (∀ l, l ∈ fp' → (l ∈ fp ∨ next_loc h <= l < next_loc h')%nat) ∧
  (∀ l, l ∉ fp → l ∉ fp' → cells h' !! l = cells h !! l) ∧
  (∀ l, l ∈ fp → l ∉ fp' → cells h' !! l = None).

Lemma local_one h h' fp fp' xs :
  moved h h' fp fp' → storage h' xs fp' → local_step h h' fp [(xs, fp')].
Proof.
  intros (H1 & H2 & H3 & H4) Hst. unfold local_step. rewrite footprint_one.
  split; [by apply Forall_singleton|]. split; [split; [unfold footprint; cbn; set_solver|done]|done].
Qed.

Lemma moved_update h h' fp :
  next_loc h' = next_loc h → (∀ l, l ∉ fp → cells h' !! l = cells h !! l) → moved h h' fp fp.
Proof. intros Hn Hs. split; [lia|]. split; [auto|]. split; [auto|]. done. Qed.

Lemma moved_refl h fp : moved h h fp fp.
Proof. by apply moved_update. Qed.

(** A new box next to the memory of a group. *)
Lemma moved_box h c fp : moved h (heap_alloc c h) fp ({[next_loc h]} ∪ fp).
Proof.
  split; [cbn; lia|]. split; [|split].
  - intros l. rewrite elem_of_union, elem_of_singleton. intros [-> | Hl]; [right; cbn; lia|by left].
  - intros l _ Hl. cbn. rewrite lookup_insert_ne by set_solver. done.
  - set_solver.
Qed.

(** ** A vector as a [BytesMut] *)
Lemma bm_from_vec_ok h p d fp n :
  vbuf h p d fp →
  ∃ r, repr_ok r ∧ bm_from_vec {| hv_ptr := p; hv_len := n; hv_cap := zlen d |} h =
    Ret ({| m_ptr := p; m_len := n; m_cap := zlen d; m_data := vec_word r 0 |}, h).
Proof.
  intros Hb. pose proof (vbuf_size _ _ _ _ Hb).
  exists (original_capacity_to_repr (zlen d)).
  assert (Hr : repr_ok (original_capacity_to_repr (zlen d))) by (apply original_capacity_to_repr_ok; lia).
  split; [done|]. unfold bm_from_vec. cbn [hv_ptr hv_len hv_cap].
  pose proof (vbuf_addr h p d fp 0 Hb ltac:(lia)) as Ha. rewrite ptr_add_0 in Ha.
  rewrite (hm_bind_Ret _ _ _ _ _ (vptr_ok p h Ha)). by rewrite vec_data_ok.
Qed.

Lemma mut_from_vec h v bs fp :
  storage h [(HVec v, bs)] fp →
  ∃ m, bm_from_vec v h = Ret (m, h) ∧ storage h [(HMut m, bs)] fp ∧ m_cap m = hv_cap v.
Proof.
  intros (_ & p & d & Hb & -> & Hv)%storage_vec_inv.
  destruct (bm_from_vec_ok h p d fp (zlen bs) Hb) as (r & Hr & E). eexists. split; [exact E|].
  split; [|done]. pose proof Hv as (_ & _ & Hle & _). pose proof max_vec_pos. pose proof usize_max_ge.
  eapply (StMutVec h p d fp _ 0 r); [done| |done|done|done|lia].
  split; [done|]. cbn. split; [done|]. lia.
Qed.

(** ** Promotion and the start of the view *)
Lemma promote_ok h p d fp m pos r rc :
  vbuf h p d fp → m_ptr m = ptr_add p pos → pos + m_cap m = zlen d → m_len m <= m_cap m →
  m_data m = vec_word r pos → repr_ok r → rc = 1 ∨ rc = 2 →
  promote_to_shared m rc h =
    Ret (with_data m (PObj (next_loc h)),
         heap_alloc (CSharedV {| sv_vec := {| hv_ptr := p; hv_len := m_len m + pos; hv_cap := zlen d |};
           sv_original_capacity_repr := r; sv_ref_count := rc |}) h).
Proof.
  intros Hb Hp Hend Hlen Hd Hr Hrc. pose proof (vbuf_size _ _ _ _ Hb). pose proof usize_isize_max.
  pose proof isize_max_pos. unfold promote_to_shared. rewrite (bm_kind_vec m r pos Hd).
  rewrite (hm_bind_Ret _ _ _ tt h) by (by apply hdebug_assert_ok).
  rewrite (hm_bind_Ret _ _ _ tt h) by (apply hdebug_assert_ok; destruct Hrc as [-> | ->]; done).
  rewrite Hd, vec_word_repr, vec_word_pos, Hp by done. cbv zeta.
  assert (E : rebuild_vec (ptr_add p pos) (m_len m) (m_cap m) pos h =
    Ret ({| hv_ptr := p; hv_len := m_len m + pos; hv_cap := m_cap m + pos |}, h))
    by (apply rebuild_vec_ok; lia).
  hstep E.
  replace (m_cap m + pos) with (zlen d) by lia.
  unfold alloc_cell. unfold mbind at 1, HM_bind at 1.
  rewrite (hm_bind_Ret _ _ _ tt _ (hdebug_assert_ok _ _ (proj2 (Z.eqb_eq _ _) (obj_addr_even _)))).
  done.
Qed.

(** Handles on a box that was just made. *)
Lemma sharedv_new h p d fp n r xs :
  vbuf h p d fp → (∀ l, l ∈ fp → (l < next_loc h)%nat) → repr_ok r → xs ≠ [] →
  Forall (sharedv_view (next_loc h) p d) xs → exclusive xs →
  local_step h (heap_alloc (CSharedV {| sv_vec := {| hv_ptr := p; hv_len := n; hv_cap := zlen d |};
      sv_original_capacity_repr := r; sv_ref_count := zlen xs |}) h) fp [(xs, {[next_loc h]} ∪ fp)].
Proof.
  intros Hb Hlt Hr Hxs Hf Hex. apply local_one; [apply moved_box|].
  assert (Hof : next_loc h ∉ fp) by (intros Hl; specialize (Hlt _ Hl); lia).
  eapply (StSharedV _ (next_loc h) p d fp n r); try done.
  - apply lookup_insert_eq.
  - eapply vbuf_agree; [done|]. intros l Hl. cbn. rewrite lookup_insert_ne by set_solver. done.
Qed.

Lemma advance_tail m count h :
  0 < ptr_addr (ptr_add (m_ptr m) count) → count <= m_cap m →
  (p ← vptr (ptr_add (m_ptr m) count);
   cap ← lift (usub (m_cap m) count);
   mret (with_view m p (saturating_sub (m_len m) count) cap)) h =
  Ret (with_view m (ptr_add (m_ptr m) count) (saturating_sub (m_len m) count) (m_cap m - count), h).
Proof.
  intros Ha Hc. rewrite (hm_bind_Ret _ _ _ _ _ (vptr_ok _ h Ha)). by rewrite usub_ok.
Qed.

(** The data word after the start moves: a new position, or a promotion when the
    position does not fit. *)
Lemma advance_word h p d fp m pos r count :
  vbuf h p d fp → m_ptr m = ptr_add p pos → pos + m_cap m = zlen d → m_len m <= m_cap m →
  m_data m = vec_word r pos → repr_ok r → 0 <= pos → 0 <= count <= m_cap m →
  ∃ w h1, (pos ← get_vec_pos m; pos ← lift (uadd pos count);
    if pos <=? MAX_VEC_POS then set_vec_pos m pos else promote_to_shared m 1) h = Ret (with_data m w, h1) ∧
    ((w = vec_word r (pos + count) ∧ h1 = h ∧ pos + count <= MAX_VEC_POS) ∨
     (w = PObj (next_loc h) ∧ h1 = heap_alloc (CSharedV
        {| sv_vec := {| hv_ptr := p; hv_len := m_len m + pos; hv_cap := zlen d |};
           sv_original_capacity_repr := r; sv_ref_count := 1 |}) h)).
Proof.
  intros Hb Hp Hend Hlen Hd Hr Hpos Hc. pose proof (vbuf_size _ _ _ _ Hb).
  pose proof usize_isize_max. pose proof isize_max_pos.
  hstep (get_vec_pos_ok m r pos h Hd Hr). rewrite uadd_ok, hm_bind_lift by lia.
  destruct (Z.leb_spec (pos + count) MAX_VEC_POS) as [Hle|Hgt].
  - eexists _, h. split; [eapply set_vec_pos_ok; [done|done|lia]|]. by left.
  - eexists _, _. split; [eapply promote_ok; try done; by left|]. by right.
Qed.

Lemma advance_vec h p d fp m pos r count :
  vbuf h p d fp → m_ptr m = ptr_add p pos → pos + m_cap m = zlen d → 0 <= m_len m <= m_cap m →
  m_data m = vec_word r pos → repr_ok r → 0 <= pos <= MAX_VEC_POS → 0 <= count <= m_cap m →
  (∀ l, l ∈ fp → (l < next_loc h)%nat) →
  ∃ m' h' fp', advance_unchecked m count h = Ret (m', h') ∧ m_ptr m' = ptr_add p (pos + count) ∧
    m_len m' = saturating_sub (m_len m) count ∧ m_cap m' = m_cap m - count ∧
    ∀ bs, mut_view p d m' (pos + count) bs → local_step h h' fp [([(HMut m', bs)], fp')].
Proof.
  intros Hb Hp Hend Hlen Hd Hr Hpos Hc Hlt. unfold advance_unchecked.
  destruct (Z.eqb_spec count 0) as [->|Hne].
  { exists m, h, fp. split; [done|]. rewrite Z.add_0_r, Z.sub_0_r. split; [done|].
    split; [unfold saturating_sub; lia|]. split; [done|].
    intros bs Hv. apply local_same. eapply StMutVec; try done. lia. }
  rewrite (hm_bind_Ret _ _ _ tt h) by (apply hdebug_assert_ok, Z.leb_le; lia).
  rewrite (bm_kind_vec m r pos Hd), Z.eqb_refl.
  destruct (advance_word h p d fp m pos r count) as (w & h1 & E & Hw); try done; [lia|lia|].
  rewrite (hm_bind_Ret _ _ _ _ _ E).
  pose proof (vbuf_addr h p d fp (pos + count) Hb ltac:(lia)) as Ha.
  rewrite advance_tail by (cbn; rewrite ?Hp, ?ptr_add_add; done || lia).
  cbn [with_data m_ptr m_len m_cap]. rewrite Hp, ptr_add_add.
  eexists _, h1, (match w with PObj o => {[o]} ∪ fp | _ => fp end).
  split; [reflexivity|]. split; [done|]. split; [done|]. split; [done|].
  intros bs Hv. destruct Hw as [(-> & -> & Hle)|(-> & ->)].
  - apply local_same. eapply StMutVec; try done. cbn. lia.
  - apply (sharedv_new h p d fp _ r [_]); try done.
    apply Forall_singleton. split; [done|]. by exists (pos + count).
Qed.

Lemma advance_arc h m o count :
  m_data m = PObj o → 0 <= count <= m_cap m → 0 <= m_len m →
  0 < ptr_addr (ptr_add (m_ptr m) count) →
  advance_unchecked m count h =
    Ret (with_view m (ptr_add (m_ptr m) count) (saturating_sub (m_len m) count) (m_cap m - count), h).
Proof.
  intros Hd Hc Hl Ha. unfold advance_unchecked. destruct (Z.eqb_spec count 0) as [->|Hne].
  - rewrite ptr_add_0, Z.sub_0_r. unfold saturating_sub. rewrite Z.max_l by lia. rewrite Z.sub_0_r.
    by destruct m.
  - rewrite (hm_bind_Ret _ _ _ tt h) by (apply hdebug_assert_ok, Z.leb_le; lia).
    rewrite (bm_kind_arc m o Hd). change (KIND_ARC =? KIND_VEC) with false. cbv iota.
    rewrite hm_bind_mret. by apply advance_tail; [|lia].
Qed.

(** ** The group of a [BytesMut] *)
Definition owns_vec (h : heap) (p : ptr) (d : list (option byte)) (fp : gset nat)
    (m : BytesMut) (off r : Z) (bs : list byte) : Prop :=
  vbuf h p d fp ∧ mut_view p d m off bs ∧ off + m_cap m = zlen d ∧
  m_data m = vec_word r off ∧ repr_ok r ∧ off <= MAX_VEC_POS.

Definition shares_vec (h : heap) (o : nat) (p : ptr) (d : list (option byte)) (fp : gset nat)
    (n r : Z) (xs : list (handle * list byte)) : Prop :=
  cells h !! o = Some (CSharedV {| sv_vec := {| hv_ptr := p; hv_len := n; hv_cap := zlen d |};
    sv_original_capacity_repr := r; sv_ref_count := zlen xs |}) ∧
  vbuf h p d fp ∧ (o ∉ fp) ∧ repr_ok r ∧ Forall (sharedv_view o p d) xs ∧ exclusive xs.

Lemma storage_mut_inv h m bs rest fp :
  storage h ((HMut m, bs) :: rest) fp →
  (rest = [] ∧ ∃ p d off r, owns_vec h p d fp m off r bs) ∨
  (∃ o p d fp' n r, fp = ({[o]} ∪ fp') ∧ shares_vec h o p d fp' n r ((HMut m, bs) :: rest)).
Proof.
  intros Hst. inversion Hst as [| |? ? ? ? ? ? ? ? ? ? ? ? Hf| | | |
    |? ? ? ? ? ? ? ? ? ? ? ? Hf]; subst.
  - by apply Forall_cons in Hf as [[] _].
  - left. split; [done|]. eexists _, _, _, _. done.
  - right. eexists _, _, _, _, _, _. split; [done|]. done.
  - by apply Forall_cons in Hf as [[] _].
Qed.

Lemma owns_vec_storage h p d fp m off r bs : owns_vec h p d fp m off r bs → storage h [(HMut m, bs)] fp.
Proof. intros (? & ? & ? & ? & ? & ?). by eapply StMutVec. Qed.

Lemma shares_vec_storage h o p d fp n r xs :
  shares_vec h o p d fp n r xs → xs ≠ [] → storage h xs ({[o]} ∪ fp).
Proof. intros (? & ? & ? & ? & ? & ?) ?. by eapply StSharedV. Qed.

Lemma mut_len h m bs rest fp :
  storage h ((HMut m, bs) :: rest) fp →
  m_len m = zlen bs ∧ zlen bs <= m_cap m <= isize_max ∧ 0 < ptr_addr (m_ptr m).
Proof.
  intros Hst. assert (H : ∃ p d fp' off, vbuf h p d fp' ∧ mut_view p d m off bs).
  { apply storage_mut_inv in Hst as [(_ & p & d & off & r & Hb & Hv & _)|
      (o & p & d & fp' & n & r & _ & _ & Hb & _ & _ & [(_ & off & Hv) _]%Forall_cons & _)]; by eauto 10. }
  destruct H as (p & d & fp' & off & Hb & (Hp & Ho & _) & Hl & Hc & Hle).
  pose proof (vbuf_size _ _ _ _ Hb). split; [done|]. split; [lia|]. rewrite Hp. by eapply vbuf_addr.
Qed.

Lemma mut_read h m bs rest fp :
  storage h ((HMut m, bs) :: rest) fp → bm_as_slice m h = Ret (bs, h).
Proof.
  intros Hst. pose proof (mut_len _ _ _ _ _ Hst) as (Hl & _). unfold bm_as_slice. rewrite Hl.
  apply storage_mut_inv in Hst as [(_ & p & d & off & r & Hb & (Hv & _) & _)|
    (o & p & d & fp' & n & r & _ & _ & Hb & _ & _ & [(_ & off & Hv & _) _]%Forall_cons & _)];
    by eapply view_at_read.
Qed.

(** ** Narrowing *)

(** [y], which shows [bs'], is the part of [k] bytes from [n] on of the view [m]. *)
Definition part_of (m : BytesMut) (bs : list byte) (y : BytesMut) (bs' : list byte) (n k : Z) : Prop :=
  m_ptr y = ptr_add (m_ptr m) n ∧ m_cap y = k ∧ m_len y = zlen bs' ∧ m_data y = m_data m ∧
  0 <= n ∧ 0 <= k ∧ n + k <= m_cap m ∧ bs' = ztake k (zdrop n bs).

Lemma view_at_part p d q off bs n k :
  view_at p d q off bs → 0 <= n → 0 <= k → off + n <= zlen d →
  view_at p d (ptr_add q n) (off + n) (ztake k (zdrop n bs)).
Proof.
  intros Hv Hn Hk Hle. destruct (Z.leb_spec n (zlen bs)) as [Hin|Hout].
  - pose proof (view_at_narrow p d q off bs n (Z.min k (zlen bs - n)) Hv) as H.
    specialize (H ltac:(lia) ltac:(lia) ltac:(lia)).
    replace (ztake k (zdrop n bs)) with (ztake (Z.min k (zlen bs - n)) (zdrop n bs)); [done|].
    destruct (Z.leb_spec k (zlen bs - n)); [by rewrite Z.min_l by lia|].
    rewrite Z.min_r, !ztake_ge by zlia. done.
  - rewrite zdrop_ge, ztake_nil by lia. destruct Hv as (-> & Ho & _ & _).
    rewrite ptr_add_add. split; [done|]. split; [lia|]. split; [by rewrite zlen_nil, Z.add_0_r|done].
Qed.

Lemma part_of_view p d m off bs y bs' n k :
  mut_view p d m off bs → part_of m bs y bs' n k → mut_view p d y (off + n) bs'.
Proof.
  intros (Hv & Hl & Hc & Hle) (Hp & Hcap & Hlen & _ & Hn & Hk & Hnk & ->).
  split; [rewrite Hp; apply view_at_part; [done|lia|lia|lia]|].
  rewrite Hcap. split; [done|]. split; [zlia|lia].
Qed.

Lemma part_of_within h p d fp m off bs y bs' n k :
  vbuf h p d fp → mut_view p d m off bs → part_of m bs y bs' n k → within (HMut y) (HMut m).
Proof.
  intros Hb ((Hpm & Ho & _) & _ & _ & Hle) (Hp & Hcap & _ & _ & Hn & Hk & Hnk & _).
  unfold within, h_hi, h_lo. rewrite Hp, Hpm, Hcap, ptr_add_add, !(vbuf_off h p d fp) by (done || lia).
  split; [lia|]. split; [lia|done].
Qed.

(** Two parts that follow one another. *)
Lemma part_of_apart h p d fp m off bs y1 bs1 k y2 bs2 k2 :
  vbuf h p d fp → mut_view p d m off bs → part_of m bs y1 bs1 0 k → part_of m bs y2 bs2 k k2 →
  apart (HMut y1) (HMut y2).
Proof.
  intros Hb ((Hpm & Ho & _) & _ & _ & Hle) (Hp & Hcap & _ & _ & Hn & Hk & Hnk & _)
    (Hp2 & Hcap2 & _ & _ & Hn2 & Hk2 & Hnk2 & _) _.
  unfold h_hi, h_lo. rewrite Hp, Hp2, Hpm, Hcap, !ptr_add_add, !(vbuf_off h p d fp) by (done || lia). lia.
Qed.

(** [shallow_clone] followed by the division of the view in two. *)
Lemma shallow_clone_ok h m bs rest fp :
  storage h ((HMut m, bs) :: rest) fp → (∀ l, l ∈ fp → (l < next_loc h)%nat) →
  zlen ((HMut m, bs) :: rest) <= isize_max →
  ∃ m1 h' fp' o, shallow_clone m h = Ret ((m1, m1), h') ∧ m_ptr m1 = m_ptr m ∧ m_len m1 = m_len m ∧
    m_cap m1 = m_cap m ∧ m_data m1 = PObj o ∧
    ∀ y1 bs1 k y2 bs2, part_of m1 bs y1 bs1 0 k → part_of m1 bs y2 bs2 k (m_cap m - k) →
      local_step h h' fp [((HMut y1, bs1) :: (HMut y2, bs2) :: rest, fp')].
Proof.
  intros Hst Hlt Hmax. pose proof (mut_len _ _ _ _ _ Hst) as (Hlen & Hcap & _). unfold shallow_clone.
  apply storage_mut_inv in Hst as [(-> & p & d & off & r & Hb & Hv & Hend & Hd & Hr & Hpos)|
    (o & p & d & fp' & n & r & -> & Ho & Hb & Hof & Hr & Hf & Hex)].
  - rewrite (bm_kind_vec m r off Hd). change (KIND_VEC =? KIND_ARC) with false. cbv iota.
    pose proof Hv as ((Hp & _) & _).
    pose proof (promote_ok h p d fp m off r 2 Hb Hp Hend ltac:(lia) Hd Hr (or_intror eq_refl)) as E.
    hstep E. eexists _, _, _, (next_loc h). split; [reflexivity|]. do 4 (split; [done|]).
    intros y1 bs1 k y2 bs2 H1 H2.
    assert (Hv1 : mut_view p d (with_data m (PObj (next_loc h))) off bs) by exact Hv.
    apply (sharedv_new h p d fp _ r [_; _]); try done.
    + repeat (apply Forall_cons; split); [..|done].
      * split; [apply H1|]. eexists. by eapply part_of_view.
      * split; [apply H2|]. eexists. by eapply part_of_view.
    + split; [|by split]. apply Forall_singleton. by eapply part_of_apart.
  - pose proof Hf as [(Hd & off & Hv) Hf']%Forall_cons. rewrite (bm_kind_arc m o Hd), Z.eqb_refl, Hd.
    rewrite zlen_cons in Ho, Hmax. pose proof (zlen_nonneg rest).
    pose proof (increment_shared_ok h o _ Ho) as E. cbn [sv_ref_count] in E. specialize (E ltac:(lia)).
    set (h' := heap_insert o _ h) in E. hstep E.
    exists m, h', ({[o]} ∪ fp'), o. split; [reflexivity|]. do 4 (split; [done|]).
    intros y1 bs1 k y2 bs2 H1 H2. eapply sharedv_recount; try done.
    + unfold with_count. cbn. f_equal. rewrite !zlen_cons. lia.
    + repeat (apply Forall_cons; split); [..|done].
      * split; [by destruct H1 as (_ & _ & _ & -> & _)|]. eexists. by eapply part_of_view.
      * split; [by destruct H2 as (_ & _ & _ & -> & _)|]. eexists. by eapply part_of_view.
    + apply (exclusive_replace (HMut m, bs) [_; _] rest Hex).
      * repeat (apply Forall_cons; split); [..|done]; by eapply part_of_within.
      * split; [|by split]. apply Forall_singleton. by eapply part_of_apart.
Qed.

(** ** The length *)
Lemma mut_shrink h m bs rest fp n :
  storage h ((HMut m, bs) :: rest) fp → 0 <= n <= zlen bs →
  storage h ((HMut (with_view m (m_ptr m) n (m_cap m)), ztake n bs) :: rest) fp.
Proof.
  intros Hst Hn.
  assert (Hm : ∀ p d off, mut_view p d m off bs →
    mut_view p d (with_view m (m_ptr m) n (m_cap m)) off (ztake n bs)).
  { intros p d off (Hv & Hl & Hc & Hle). pose proof Hv as (_ & Ho & _).
    split; [|cbn; rewrite zlen_take by lia; split; [done|lia]]. cbn.
    pose proof (view_at_narrow p d (m_ptr m) off bs 0 n Hv) as H.
    rewrite ptr_add_0, Z.add_0_r, zdrop_0 in H. apply H; lia. }
  apply storage_mut_inv in Hst as [(-> & p & d & off & r & Hb & Hv & Hend & Hd & Hr & Hpos)|
    (o & p & d & fp' & n' & r & -> & Ho & Hb & Hof & Hr & [(Hd & off & Hv) Hf]%Forall_cons & Hex)].
  - eapply (StMutVec h p d fp _ off r); try done. by apply Hm.
  - eapply (StSharedV h o p d fp' n' r); try done.
    apply Forall_cons. split; [|done]. split; [done|]. exists off. by apply Hm.
Qed.

(** ** Writing *)
Lemma view_at_write p d q off bs i new :
  view_at p d q off bs → 0 <= i <= zlen bs → off + i + zlen new <= zlen d →
  view_at p (splice d (off + i) (Some <$> new)) q off (splice bs i new).
Proof.
  intros (Hq & Ho & Hle & E) Hi Hn. pose proof (zlen_nonneg new).
  split; [done|]. split; [done|]. rewrite (zlen_splice d) by (rewrite ?zlen_fmap; lia).
  rewrite zlen_splice_max by done. split; [lia|].
  set (N := Z.max (zlen bs) (i + zlen new)). unfold splice at 1.
  rewrite zdrop_app_l by (rewrite zlen_take; lia). rewrite zdrop_ztake by lia.
  replace (off + i - off) with i by lia.
  assert (E1 : ztake i (zdrop off d) = Some <$> ztake i bs).
  { rewrite fmap_ztake, <- E, ztake_ztake, Z.min_l by lia. done. }
  rewrite E1, ztake_app_r by (rewrite zlen_fmap, zlen_take; lia).
  rewrite zlen_fmap, zlen_take by lia. rewrite ztake_app_r by (rewrite zlen_fmap; lia).
  unfold splice. rewrite !fmap_app. do 2 f_equal. rewrite zlen_fmap, fmap_zdrop.
  destruct (Z.leb_spec (zlen bs) (i + zlen new)).
  - rewrite (zdrop_ge _ (Some <$> bs)) by (rewrite zlen_fmap; lia).
    replace (N - i - zlen new) with 0 by lia. done.
  - rewrite <- E, zdrop_ztake, zdrop_zdrop by lia. f_equal; [lia|]. f_equal. lia.
Qed.

Lemma view_at_outside p d q off bs j new :
  view_at p d q off bs → 0 <= j → j + zlen new <= zlen d →
  zlen bs = 0 ∨ zlen new = 0 ∨ off + zlen bs <= j ∨ j + zlen new <= off →
  view_at p (splice d j (Some <$> new)) q off bs.
Proof.
  intros (Hq & Ho & Hle & E) Hj Hn Hd. pose proof (zlen_nonneg bs).
  split; [done|]. split; [done|]. rewrite zlen_splice by (rewrite ?zlen_fmap; lia). split; [lia|].
  destruct Hd as [Hz|[Hz|Hd]].
  - apply zlen_0_nil in Hz as ->. done.
  - apply zlen_0_nil in Hz as ->. unfold splice. cbn. by rewrite zlen_nil, Z.add_0_r, ztake_zdrop.
  - rewrite splice_outside by (rewrite ?zlen_fmap; lia). done.
Qed.

(** The bytes a handle reaches, from its view. *)
Lemma mut_range h p d fp m off bs :
  vbuf h p d fp → mut_view p d m off bs → h_lo (HMut m) = off ∧ h_hi (HMut m) = off + m_cap m.
Proof.
  intros Hb ((Hp & Ho & _) & _ & Hc & Hcap). pose proof (zlen_nonneg bs).
  assert (E : h_lo (HMut m) = off) by (unfold h_lo; rewrite Hp; eapply vbuf_off; [done|lia]).
  split; [done|]. unfold h_hi. by rewrite E.
Qed.

Lemma bytes_range h p d fp x off bs :
  vbuf h p d fp → view_at p d (b_ptr x) off bs → b_len x = zlen bs →
  h_lo (HBytes x) = off ∧ h_hi (HBytes x) = off + zlen bs.
Proof.
  intros Hb (Hp & Ho & Hle & _) Hl. pose proof (zlen_nonneg bs).
  assert (E : h_lo (HBytes x) = off) by (unfold h_lo; rewrite Hp; eapply vbuf_off; [done|lia]).
  split; [done|]. unfold h_hi. by rewrite E, Hl.
Qed.

(** What the other handles of the group show is not touched by a write within [m]. *)
Lemma sharedv_write_other h o p d fp m off bs z j new :
  vbuf h p d fp → mut_view p d m off bs → sharedv_view o p d z → apart (HMut m) z.1 →
  off <= j → j + zlen new <= off + m_cap m →
  sharedv_view o p (splice d j (Some <$> new)) z.
Proof.
  intros Hb Hm Hz Hap Hj Hjn. pose proof (zlen_nonneg new).
  destruct (mut_range h p d fp m off bs Hb Hm) as [Hlo Hhi].
  destruct Hm as ((Hp & Ho & _) & _ & _ & Hcap). specialize (Hap (or_introl I)). rewrite Hlo, Hhi in Hap.
  destruct z as [[x|v|y] bs']; cbn [sharedv_view fst] in *; [|done|].
  - destruct Hz as (Hvt & Hd & Hl & off' & Hv). split; [done|]. split; [done|]. split; [done|].
    destruct (bytes_range h p d fp x off' bs' Hb Hv Hl) as [Hlo' Hhi']. rewrite Hlo', Hhi' in Hap.
    exists off'. pose proof Hv as (Hq & Ho' & Hle' & _). pose proof (zlen_nonneg bs').
    apply view_at_outside; [done|lia|lia|lia].
  - destruct Hz as (Hd & off' & Hv). split; [done|]. exists off'.
    destruct (mut_range h p d fp y off' bs' Hb Hv) as [Hlo' Hhi']. rewrite Hlo', Hhi' in Hap.
    destruct Hv as (Hv & Hl & Hc & Hle'). pose proof Hv as (Hq & Ho' & Hle & _). pose proof (zlen_nonneg bs').
    split; [apply view_at_outside; [done|lia|lia|lia]|].
    split; [done|]. split; [done|]. rewrite zlen_splice by (rewrite ?zlen_fmap; lia). done.
Qed.

(** Writing [new] at index [i], within the capacity. *)
Lemma mut_write h m bs rest fp i new :
  storage h ((HMut m, bs) :: rest) fp → 0 <= i <= zlen bs → i + zlen new <= m_cap m →
  let bs' := splice bs i new in
  ∃ h', write_raw (ptr_add (m_ptr m) i) (Some <$> new) h = Ret (tt, h') ∧
    local_step h h' fp [((HMut (with_view m (m_ptr m) (zlen bs') (m_cap m)), bs') :: rest, fp)].
Proof.
  intros Hst Hi Hn bs'. pose proof (zlen_nonneg new).
  assert (Hz : zlen bs' = Z.max (zlen bs) (i + zlen new)) by (by apply zlen_splice_max).
  assert (Hm : ∀ p d off, mut_view p d m off bs → mut_view p (splice d (off + i) (Some <$> new))
    (with_view m (m_ptr m) (zlen bs') (m_cap m)) off bs').
  { intros p d off (Hv & Hl & Hc & Hle). pose proof Hv as (_ & Ho & _). cbn.
    split; [apply view_at_write; [done|done|lia]|]. cbn. split; [done|].
    rewrite zlen_splice by (rewrite ?zlen_fmap; lia). lia. }
  apply storage_mut_inv in Hst as [(-> & p & d & off & r & Hb & Hv & Hend & Hd & Hr & Hpos)|
    (o & p & d & fp' & n' & r & -> & Ho & Hb & Hof & Hr & Hf & Hex)].
  - pose proof Hv as ((Hp & Ho & _) & _).
    destruct (vbuf_write h p d fp (off + i) (Some <$> new) Hb) as (h' & E & Hb' & Hn' & Hs);
      [lia|rewrite zlen_fmap; lia|].
    exists h'. rewrite Hp, ptr_add_add. split; [done|]. rewrite <- Hp.
    apply local_one; [by apply moved_update|]. eapply (StMutVec h' p _ fp _ off r); try done.
    + by apply Hm.
    + cbn. rewrite zlen_splice by (rewrite ?zlen_fmap; lia). lia.
  - pose proof Hf as [(Hd & off & Hv) Hf']%Forall_cons. pose proof Hv as ((Hp & Hoff & _) & _ & _ & Hle).
    destruct (vbuf_write h p d fp' (off + i) (Some <$> new) Hb) as (h' & E & Hb' & Hn' & Hs);
      [lia|rewrite zlen_fmap; lia|].
    exists h'. rewrite Hp, ptr_add_add. split; [done|]. rewrite <- Hp.
    apply local_one; [apply moved_update; [done|]; intros l Hl; apply Hs; set_solver|].
    assert (Hzd : zlen (splice d (off + i) (Some <$> new)) = zlen d)
      by (apply zlen_splice; rewrite ?zlen_fmap; lia).
    eapply (StSharedV h' o p _ fp' n' r); try done.
    + rewrite Hs by done. rewrite Ho, Hzd. done.
    + apply Forall_cons. split; [split; [done|]; exists off; by apply Hm|].
      destruct Hex as [Hap _]. rewrite Forall_forall in Hf', Hap |- *. intros z Hz'.
      eapply sharedv_write_other; [done|done|by apply Hf'|by apply Hap|lia|lia].
Qed.

End mut_ops.
