(* ===== verification/BytesMutReserve.v ===== *)
(** * BytesMutReserve: [reserve] and [try_reclaim] of [BytesMut]

    The six ways [reserve_inner] makes room: moving the bytes to the front of the
    vector or growing it, when the handle owns its vector; using spare capacity, moving
    to the front or growing, when it is the only handle on a [Shared]; and copying to a
    new vector otherwise. *)

From S2P Require Import Prelude Machine Loom Heap Bytes BytesMut BytesInv BytesOps BytesPool.
From S2P Require Import BytesMutOps.
From stdpp Require Import fin_maps fin_sets.
Open Scope Z_scope.

Section reserve.
Context `{T : Target, A : Allocator}.

(** A request that may not fit the address space. *)
Definition huge (h : heap) (n : Z) : Prop :=
  isize_max < n ∨ ∃ l d, cells h !! l = Some (CBlock d) ∧ isize_max < 2 * zlen d + n.

Lemma vbuf_huge h p d fp n : vbuf h p d fp → isize_max < 2 * zlen d + n → huge h n.
Proof.
  intros [l d' Hl|] Hn; [right; eauto|left]. rewrite (zlen_nil (A:=option byte)) in Hn. lia.
Qed.

(** ** [Vec::reserve] *)
Lemma hvec_reserve_ok h p d fp n additional :
  vbuf h p d fp → 0 <= n <= zlen d → (∀ l, l ∈ fp → (l < next_loc h)%nat) →
  let v := {| hv_ptr := p; hv_len := n; hv_cap := zlen d |} in
  (hvec_reserve v additional h = Fault PanicCapacity ∧ zlen d - n < additional ∧
   (isize_max < 2 * zlen d ∨ isize_max < n + additional)) ∨
  (∃ p' d' fp' h', hvec_reserve v additional h =
     Ret ({| hv_ptr := p'; hv_len := n; hv_cap := zlen d' |}, h') ∧ vbuf h' p' d' fp' ∧
     moved h h' fp fp' ∧ n + additional <= zlen d' ∧ ztake n d' = ztake n d).
Proof.
  intros Hb Hn Hlt v. pose proof (vbuf_size _ _ _ _ Hb). pose proof isize_max_pos.
  unfold hvec_reserve, v. cbn [hv_ptr hv_len hv_cap].
  destruct (Z.ltb_spec (zlen d - n) additional) as [Hg|Hg].
  2: { right. exists p, d, fp, h. split; [done|]. split; [done|]. split; [apply moved_refl|]. split; [lia|done]. }
  set (cap := Z.max 8 (Z.max (2 * zlen d) (n + additional))).
  destruct (Z.ltb_spec isize_max cap) as [Hc|Hc]; [left; split; [done|]; lia|right].
  pose proof (vbuf_read_raw h p d fp 0 n Hb ltac:(lia) ltac:(lia) ltac:(lia)) as Hr.
  rewrite ptr_add_0, zdrop_0 in Hr. hstep Hr. set (l := next_loc h).
  set (d' := ztake n d ++ zreplicate (cap - n) None).
  assert (Hz : zlen d' = cap) by (unfold d'; rewrite zlen_app, zlen_take, zlen_replicate by lia; lia).
  unfold alloc_cell. unfold mbind at 1, HM_bind at 1. fold l. fold (heap_alloc (CBlock d') h).
  assert (Hb1 : vbuf (heap_alloc (CBlock d') h) p d fp).
  { eapply vbuf_agree; [done|]. intros k Hk. cbn. specialize (Hlt k Hk).
    rewrite lookup_insert_ne by lia. done. }
  destruct (vbuf_drop _ p d fp n Hb1) as (h2 & E & Hn2 & Hs & Hgone). hstep E.
  assert (Hl : l ∉ fp) by (intros Hl; specialize (Hlt _ Hl); unfold l in *; lia).
  exists (PHeap l 0), d', {[l]}, h2. rewrite Hz. split; [done|]. split; [|split].
  - constructor; [|lia|lia]. rewrite Hs by done. apply lookup_insert_eq.
  - cbn in Hn2. split; [lia|]. split; [intros k ->%elem_of_singleton; right; unfold l; lia|]. split.
    + intros k H1 H2. rewrite Hs by done. cbn. rewrite lookup_insert_ne by set_solver. done.
    + intros k H1 _. by apply Hgone.
  - split; [lia|]. unfold d'. by rewrite ztake_app_exact by (rewrite zlen_take; lia).
Qed.

(** ** Views of a buffer that was moved *)
Lemma view_at_moved p d q off bs p' d' n :
  view_at p d q off bs → ztake n d' = ztake n d → off + zlen bs <= n → n <= zlen d' →
  view_at p' d' (ptr_add p' off) off bs.
Proof.
  intros (_ & Ho & Hle & E) Et Hn Hn'. pose proof (zlen_nonneg bs).
  split; [done|]. split; [done|]. split; [lia|]. rewrite <- E.
  assert (Hc : ∀ c : list (option byte), ztake (zlen bs) (zdrop off c) = ztake (zlen bs) (zdrop off (ztake n c))).
  { intros c. rewrite zdrop_ztake, ztake_ztake, Z.min_l by lia. done. }
  by rewrite Hc, Et, <- Hc.
Qed.

Lemma view_at_front p (d : list (option byte)) bs :
  zlen bs <= zlen d → view_at p (splice d 0 (Some <$> bs)) p 0 bs.
Proof.
  intros Hle. split; [by rewrite ptr_add_0|]. split; [lia|].
  rewrite zlen_splice by (rewrite ?zlen_fmap; lia). split; [lia|]. rewrite zdrop_0.
  unfold splice. rewrite ztake_0. cbn. by rewrite ztake_app_exact by (by rewrite zlen_fmap).
Qed.

(** Moving the bytes to the front when they do not overlap their new place. *)
Lemma copy_back_ok h p d fp q off bs :
  vbuf h p d fp → view_at p d q off bs → zlen bs <= off →
  ∃ h', copy_nonoverlapping q p (zlen bs) h = Ret (tt, h') ∧ vbuf h' p (splice d 0 (Some <$> bs)) fp ∧
    next_loc h' = next_loc h ∧ (∀ l, l ∉ fp → cells h' !! l = cells h !! l).
Proof.
  intros Hb Hv Hle. unfold copy_nonoverlapping.
  assert (overlap q p (zlen bs) = false) as ->.
  { destruct Hv as (-> & Ho & _). destruct Hb as [l d'|]; [|done]. unfold overlap. cbn [ptr_add].
    rewrite (proj2 (Z.ltb_ge (0 + off) _)) by lia. by rewrite andb_false_r. }
  by eapply vbuf_copy_front.
Qed.

(** ** The handle owns its vector *)
Definition capacity_panic (f : fault) : Prop := f = PanicCapacity ∨ f = PanicOverflow.

(** The outcome of [reserve_inner]: room, refusal without a change, or a panic. *)
Definition reserve_result (run : outcome (bool * BytesMut * heap)) (h : heap) (m : BytesMut) (bs : list byte)
    (rest : list (handle * list byte)) (fp : gset nat) (additional : Z) (allocate : bool) : Prop :=
  (∃ m' h' gs, run = Ret ((true, m'), h') ∧ local_step h h' fp gs ∧
     (HMut m', bs) :: rest ≡ₚ concat (fst <$> gs) ∧ zlen bs + additional <= m_cap m') ∨
  (allocate = false ∧ run = Ret ((false, m), h)) ∨
  (allocate = true ∧ huge h additional ∧ ∃ f, run = Fault f ∧ capacity_panic f).

Lemma reserve_done run h h' m m' bs fp fp' additional allocate :
  run = Ret ((true, m'), h') → local_step h h' fp [([(HMut m', bs)], fp')] → zlen bs + additional <= m_cap m' →
  reserve_result run h m bs [] fp additional allocate.
Proof. intros E Hloc Hroom. left. exists m', h', [([(HMut m', bs)], fp')]. done. Qed.

Lemma reserve_vec h p d fp m off r bs additional allocate :
  owns_vec h p d fp m off r bs → (∀ l, l ∈ fp → (l < next_loc h)%nat) →
  m_cap m - m_len m < additional →
  reserve_result (reserve_inner_vec m additional allocate h) h m bs [] fp additional allocate.
Proof.
  intros (Hb & Hv & Hend & Hd & Hr & Hpos) Hlt Hadd. pose proof (vbuf_size _ _ _ _ Hb).
  pose proof usize_isize_max. pose proof isize_max_pos. pose proof max_vec_pos.
  pose proof Hv as ((Hp & Ho & _) & Hl & Hc & _). pose proof (zlen_nonneg bs).
  unfold reserve_inner_vec. hstep (get_vec_pos_ok m r off h Hd Hr).
  rewrite usub_ok, hm_bind_lift, uadd_ok, hm_bind_lift by lia.
  pose proof (vbuf_addr h p d fp 0 Hb ltac:(lia)) as Ha. rewrite ptr_add_0 in Ha.
  destruct ((additional <=? m_cap m - m_len m + off) && (m_len m <=? off)) eqn:Eb.
  - apply andb_prop in Eb as [Eb1%Z.leb_le Eb2%Z.leb_le].
    assert (Hbase : ptr_add (m_ptr m) (- off) = p).
    { rewrite Hp, ptr_add_add, Z.add_opp_diag_r. apply ptr_add_0. }
    destruct (copy_back_ok h p d fp (m_ptr m) off bs Hb (proj1 Hv)) as (h' & E & Hb' & Hn & Hs); [lia|].
    rewrite Hbase, Hl. cbv zeta. hstep E. hstep (vptr_ok p h' Ha).
    assert (Hm0 : 0 <= 0 <= MAX_VEC_POS) by lia.
    hstep (set_vec_pos_ok (with_view m p (zlen bs) (m_cap m)) r off 0 h' Hd Hr Hm0).
    cbn [m_cap with_data with_view]. rewrite uadd_ok, hm_bind_lift by lia.
    eapply reserve_done; [reflexivity| |cbn; lia].
    apply local_one; [by apply moved_update|].
    assert (Hz : zlen (splice d 0 (Some <$> bs)) = zlen d) by (apply zlen_splice; rewrite ?zlen_fmap; lia).
    eapply (StMutVec h' p (splice d 0 (Some <$> bs)) fp _ 0 r); try done; cbn; [|lia|lia].
    split; [apply view_at_front; lia|]. cbn. split; [done|]. lia.
  - destruct allocate; cbn [negb]; [|by right; left].
    hstep (mut_rebuild_vec h p d fp m off bs Hb Hv Hend).
    destruct (hvec_reserve_ok h p d fp (zlen bs + off) additional Hb ltac:(lia) Hlt) as
      [(E & Hn1 & Hn2)|(p' & d' & fp' & h' & E & Hb' & Hm & Hroom & Et)].
    { right. right. split; [done|]. split; [eapply vbuf_huge; [done|lia]|].
      exists PanicCapacity. split; [by rewrite (hm_bind_Fault _ _ _ _ E)|by left]. }
    hstep E. cbn [hv_ptr hv_cap hv_len].
    hstep (vptr_ok _ h' (vbuf_addr h' p' d' fp' off Hb' Ho)).
    rewrite usub_ok, hm_bind_lift by lia.
    rewrite (hm_bind_Ret _ _ _ tt h') by (apply hdebug_assert_ok, Z.eqb_eq; lia).
    eapply reserve_done; [reflexivity| |cbn; lia].
    apply local_one; [done|]. eapply (StMutVec h' p' d' fp' _ off r); try done; cbn; [|lia].
    split; [eapply view_at_moved; [apply Hv|done|lia|lia]|]. cbn. split; [done|]. lia.
Qed.

(** ** The only handle on a [Shared] *)

(** The handle with a new view of the same vector, in a heap that differs from the old
    one within the vector only. *)
Lemma shares_alone h h' o p d d' fp n r m m' off bs :
  shares_vec h o p d fp n r [(HMut m, bs)] → vbuf h' p d' fp → zlen d' = zlen d →
  next_loc h' = next_loc h → (∀ l, l ∉ fp → cells h' !! l = cells h !! l) →
  mut_view p d' m' off bs → m_data m' = m_data m →
  local_step h h' ({[o]} ∪ fp) [([(HMut m', bs)], {[o]} ∪ fp)].
Proof.
  intros (Ho & _ & Hof & Hr & Hf & _) Hb' Hz Hn Hs Hv' Hd'.
  apply Forall_singleton in Hf as (Hd & _).
  apply local_one; [apply moved_update; [done|]; intros l Hl; apply Hs; set_solver|].
  eapply (StSharedV h' o p d' fp n r); try done.
  - rewrite Hs by done. by rewrite Ho, Hz.
  - apply Forall_singleton. split; [by rewrite Hd'|]. by exists off.
Qed.

Lemma set_vec_ok h o s v :
  cells h !! o = Some (CSharedV s) →
  set_vec (PObj o) v h = Ret (tt, heap_insert o (CSharedV {| sv_vec := v;
    sv_original_capacity_repr := sv_original_capacity_repr s; sv_ref_count := sv_ref_count s |}) h).
Proof. intros Ho. unfold set_vec. by hstep (get_cell_ok _ _ _ Ho). Qed.

(** A grown vector is put back in its [Shared]. *)
Lemma shares_regrown h h1 o p d fp n n' r m off bs p' d' fp' :
  shares_vec h o p d fp n r [(HMut m, bs)] → (∀ l, l ∈ {[o]} ∪ fp → (l < next_loc h)%nat) →
  moved h h1 fp fp' → vbuf h1 p' d' fp' → view_at p' d' (ptr_add p' off) off bs → off + zlen bs <= zlen d' →
  let h2 := heap_insert o (CSharedV {| sv_vec := {| hv_ptr := p'; hv_len := n'; hv_cap := zlen d' |};
    sv_original_capacity_repr := r; sv_ref_count := 1 |}) h1 in
  set_vec (PObj o) {| hv_ptr := p'; hv_len := n'; hv_cap := zlen d' |} h1 = Ret (tt, h2) ∧
  local_step h h2 ({[o]} ∪ fp)
    [([(HMut (with_view m (ptr_add p' off) (zlen bs) (zlen d' - off)), bs)], {[o]} ∪ fp')].
Proof.
  intros (Ho & _ & Hof & Hr & Hf & _) Hlt (Hn & Hin & Hs & Hg) Hb' Hv' Hle h2.
  apply Forall_singleton in Hf as (Hd & _).
  assert (Hof' : o ∉ fp').
  { intros Hl. destruct (Hin o Hl); [done|]. assert (o < next_loc h)%nat by (apply Hlt; set_solver). lia. }
  assert (Ho1 : cells h1 !! o = cells h !! o) by (by apply Hs). rewrite Ho in Ho1.
  split; [by rewrite (set_vec_ok h1 o _ _ Ho1)|]. apply local_one.
  - split; [done|]. split; [set_solver|]. split; intros l H1 H2; cbn; rewrite lookup_insert_ne by set_solver.
    + apply Hs; set_solver.
    + apply Hg; set_solver.
  - eapply (StSharedV h2 o p' d' fp' n' r); try done.
    + apply lookup_insert_eq.
    + eapply vbuf_agree; [done|]. intros l Hl. cbn. rewrite lookup_insert_ne by set_solver. done.
    + apply Forall_singleton. split; [done|]. exists off. split; [done|]. cbn. split; [done|]. lia.
Qed.

Lemma get_vec_ok h o s : cells h !! o = Some (CSharedV s) → get_vec (PObj o) h = Ret (sv_vec s, h).
Proof. intros Ho. unfold get_vec. by hstep (get_cell_ok _ _ _ Ho). Qed.

Lemma reserve_grow h o p d fp n r m off bs additional :
  shares_vec h o p d fp n r [(HMut m, bs)] → (∀ l, l ∈ {[o]} ∪ fp → (l < next_loc h)%nat) →
  mut_view p d m off bs → 0 <= additional → zlen bs + additional + off <= usize_max →
  reserve_result (reserve_inner_grow m (PObj o) {| hv_ptr := p; hv_len := n; hv_cap := zlen d |} off
    (zlen bs + additional + off) h) h m bs [] ({[o]} ∪ fp) additional true.
Proof.
  intros Hsh Hlt Hv Hadd Hmax. pose proof Hsh as (Ho & Hb & _).
  pose proof (vbuf_size _ _ _ _ Hb). pose proof usize_isize_max. pose proof isize_max_pos.
  pose proof Hv as ((_ & Hoff & _) & Hl & Hc & Hle). pose proof (zlen_nonneg bs).
  assert (Ed : wrap_unsigned ptr_width (Z.shiftl (zlen d) 1) = 2 * zlen d).
  { rewrite Z.shiftl_mul_pow2 by lia. change (2 ^ 1) with 2.
    rewrite wrap_unsigned_small; [lia|]. unfold usize_max in *. lia. }
  unfold reserve_inner_grow. cbn [hv_ptr hv_len hv_cap]. cbv zeta. rewrite Hl.
  rewrite (hm_bind_Ret _ _ _ tt h) by (apply hdebug_assert_ok, Z.leb_le; lia).
  rewrite Ed, uadd_ok, hm_bind_lift by lia. cbn [hv_ptr hv_len hv_cap].
  rewrite usub_ok, hm_bind_lift by lia.
  set (more := Z.max (2 * zlen d) (zlen bs + additional + off) - (off + zlen bs)).
  destruct (hvec_reserve_ok h p d fp (off + zlen bs) more Hb ltac:(lia)) as
    [(E & Hn1 & Hn2)|(p' & d' & fp' & h' & E & Hb' & Hm & Hroom & Et)].
  { intros l Hl'. apply Hlt. set_solver. }
  { right. right. split; [done|]. split; [eapply vbuf_huge; [done|lia]|].
    exists PanicCapacity. split; [by rewrite (hm_bind_Fault _ _ _ _ E)|by left]. }
  hstep E. cbn [hv_ptr hv_cap hv_len].
  assert (Hv' : view_at p' d' (ptr_add p' off) off bs) by (eapply view_at_moved; [apply Hv|done|lia|lia]).
  destruct (shares_regrown h h' o p d fp n (off + zlen bs) r m off bs p' d' fp' Hsh Hlt Hm Hb' Hv') as [E2 Hloc];
    [lia|].
  hstep E2. set (h2 := heap_insert o _ h') in *.
  hstep (vptr_ok _ h2 (vbuf_addr h' p' d' fp' off Hb' Hoff)).
  rewrite usub_ok, hm_bind_lift by lia.
  eapply reserve_done; [reflexivity|exact Hloc|cbn; lia].
Qed.

Lemma reserve_unique h o p d fp n r m bs additional allocate :
  shares_vec h o p d fp n r [(HMut m, bs)] → (∀ l, l ∈ {[o]} ∪ fp → (l < next_loc h)%nat) →
  m_cap m - m_len m < additional → zlen bs + additional <= usize_max →
  reserve_result (reserve_inner_unique m (PObj o) (zlen bs + additional) allocate h) h m bs []
    ({[o]} ∪ fp) additional allocate.
Proof.
  intros Hsh Hlt Hadd Hmax. pose proof Hsh as (Ho & Hb & Hof & Hr & [(Hd & off & Hv) _]%Forall_cons & _).
  pose proof (vbuf_size _ _ _ _ Hb). pose proof usize_isize_max. pose proof isize_max_pos.
  pose proof Hv as ((Hp & Hoff & _) & Hl & Hc & Hle). pose proof (zlen_nonneg bs).
  pose proof (vbuf_addr h p d fp 0 Hb ltac:(lia)) as Ha. rewrite ptr_add_0 in Ha.
  unfold reserve_inner_unique. hstep (get_vec_ok h o _ Ho). cbn [sv_vec hv_ptr hv_cap hv_len]. cbv zeta.
  assert (Eo : offset_from (m_ptr m) p h = Ret (off, h)) by (rewrite Hp; eapply vbuf_offset_from; [done|lia]).
  hstep Eo. unfold checked_add. rewrite Hl.
  destruct (Z.leb_spec (zlen bs + additional + off) usize_max) as [Hno|Hov].
  2: { destruct allocate; cbn [negb]; [|by right; left]. right. right. split; [done|].
       split; [eapply vbuf_huge; [done|lia]|]. exists PanicOverflow. split; [done|by right]. }
  destruct (Z.leb_spec (zlen bs + additional + off) (zlen d)) as [Hfit|Hfit].
  { eapply reserve_done; [reflexivity| |cbn; lia].
    eapply (shares_alone h h o p d d fp n r m); try done. split; [apply Hv|]. cbn. split; [done|]. lia. }
  destruct ((zlen bs + additional <=? zlen d) && (zlen bs <=? off)) eqn:Eb.
  - apply andb_prop in Eb as [Eb1%Z.leb_le Eb2%Z.leb_le].
    destruct (copy_back_ok h p d fp (m_ptr m) off bs Hb (proj1 Hv)) as (h' & E & Hb' & Hn & Hs); [lia|].
    hstep E. hstep (vptr_ok p h' Ha).
    assert (Hz : zlen (splice d 0 (Some <$> bs)) = zlen d) by (apply zlen_splice; rewrite ?zlen_fmap; lia).
    eapply reserve_done; [reflexivity| |cbn; lia].
    eapply (shares_alone h h' o p d _ fp n r m); try done. cbn.
    split; [apply view_at_front; lia|]. cbn. split; [done|]. lia.
  - destruct allocate; cbn [negb]; [|by right; left].
    eapply reserve_grow; try done; lia.
Qed.

(** ** A [Shared] with other handles *)

(** [Vec::with_capacity(cap)] filled with [bs], as the storage of a [BytesMut]. *)
Lemma fresh_vec_ok h cap bs r m :
  0 < cap <= isize_max → zlen bs <= cap → repr_ok r →
  m = {| m_ptr := PHeap (next_loc h) 0; m_len := zlen bs; m_cap := cap; m_data := vec_word r 0 |} →
  ∃ h1 h2, hvec_with_capacity cap h = Ret ({| hv_ptr := PHeap (next_loc h) 0; hv_len := 0; hv_cap := cap |}, h1) ∧
    (∀ l, (l < next_loc h)%nat → cells h1 !! l = cells h !! l) ∧
    hvec_extend_from_slice {| hv_ptr := PHeap (next_loc h) 0; hv_len := 0; hv_cap := cap |} bs h1 =
      Ret ({| hv_ptr := PHeap (next_loc h) 0; hv_len := zlen bs; hv_cap := cap |}, h2) ∧
    local_step h h2 ∅ [([(HMut m, bs)], {[next_loc h]})].
Proof.
  intros Hc Hbs Hr ->. pose proof (zlen_nonneg bs). pose proof max_vec_pos. pose proof usize_max_ge.
  set (d0 := zreplicate cap None : list (option byte)). set (l := next_loc h).
  assert (Hz : zlen d0 = cap) by (apply zlen_replicate; lia).
  set (h1 := heap_alloc (CBlock d0) h).
  assert (Hb : vbuf h1 (PHeap l 0) d0 {[l]}) by (constructor; [apply lookup_insert_eq|lia|lia]).
  destruct (vbuf_write h1 (PHeap l 0) d0 {[l]} 0 (Some <$> bs) Hb) as (h2 & E & Hb2 & Hn & Hs);
    [lia|rewrite zlen_fmap; lia|].
  exists h1, h2. split; [|split; [|split]].
  - unfold hvec_with_capacity. by rewrite (proj2 (Z.ltb_ge _ _)), (proj2 (Z.eqb_neq _ _)) by lia.
  - intros k Hk. cbn. rewrite lookup_insert_ne by lia. done.
  - unfold hvec_extend_from_slice, hvec_reserve. cbn [hv_ptr hv_len hv_cap].
    rewrite (proj2 (Z.ltb_ge _ _)), hm_bind_mret by lia. cbn [hv_ptr hv_len hv_cap]. by hstep E.
  - assert (Hzs : zlen (splice d0 0 (Some <$> bs)) = cap) by (rewrite zlen_splice; rewrite ?zlen_fmap; lia).
    apply local_one.
    + cbn in Hn. split; [lia|]. split; [intros k ->%elem_of_singleton; right; unfold l; lia|]. split; [|set_solver].
      intros k _ Hk. rewrite Hs by done. cbn. rewrite lookup_insert_ne by set_solver. done.
    + assert (Hvf : view_at (PHeap l 0) (splice d0 0 (Some <$> bs)) (PHeap l 0) 0 bs) by (apply view_at_front; lia).
      eapply (StMutVec h2 (PHeap l 0) _ {[l]} _ 0 r); try done; [|lia].
      split; [exact Hvf|]. cbn. split; [done|]. lia.
Qed.

Lemma reserve_copy h o p d fp n r m bs rest additional :
  shares_vec h o p d fp n r ((HMut m, bs) :: rest) → (∀ l, l ∈ {[o]} ∪ fp → (l < next_loc h)%nat) →
  zlen ((HMut m, bs) :: rest) <= isize_max → 0 < additional →
  reserve_result (reserve_inner_copy m (PObj o) (zlen bs + additional) h) h m bs rest ({[o]} ∪ fp) additional true.
Proof.
  intros Hsh Hlt Hmax Hadd. pose proof Hsh as (Ho & Hb & Hof & Hr & Hf & Hex).
  pose proof Hf as [(Hd & off & Hv) _]%Forall_cons. pose proof Hv as ((_ & Hoff & _) & Hl & Hc & Hle).
  pose proof (vbuf_size _ _ _ _ Hb). pose proof isize_max_pos. pose proof (zlen_nonneg bs).
  pose proof (original_capacity_from_repr_bound r Hr) as Hor.
  assert (Er : get_original_capacity_repr (PObj o) h = Ret (r, h))
    by (unfold get_original_capacity_repr; by hstep (get_cell_ok _ _ _ Ho)).
  unfold reserve_inner_copy. hstep Er. cbv zeta.
  set (cap := Z.max (zlen bs + additional) (original_capacity_from_repr r)).
  destruct (Z.ltb_spec isize_max cap) as [Hbig|Hsmall].
  { right. right. split; [done|]. split; [eapply vbuf_huge; [done|lia]|]. exists PanicCapacity.
    split; [|by left]. apply hm_bind_Fault. unfold hvec_with_capacity. by rewrite (proj2 (Z.ltb_lt _ _)). }
  destruct (fresh_vec_ok h cap bs r _ ltac:(lia) ltac:(lia) Hr eq_refl) as (h1 & h2 & E1 & Hold & E2 & Hloc).
  set (m' := {| m_ptr := PHeap (next_loc h) 0; m_len := zlen bs; m_cap := cap; m_data := vec_word r 0 |}) in *.
  hstep E1. assert (Hrd : bm_as_slice m h1 = Ret (bs, h1)).
  { eapply (mut_read h1 m bs rest ({[o]} ∪ fp)). eapply storage_agree; [by eapply shares_vec_storage|].
    intros l Hl'. by apply Hold, Hlt. }
  hstep Hrd. hstep E2. pose proof Hloc as (_ & _ & Hn2 & Hin2 & Hk2 & _). rewrite footprint_one in Hin2, Hk2.
  assert (Hst2 : storage h2 ((HMut m, bs) :: rest) ({[o]} ∪ fp)).
  { eapply storage_agree; [by eapply shares_vec_storage|]. intros l Hl'. specialize (Hlt l Hl').
    apply Hk2; [set_solver|]. intros ->%elem_of_singleton. lia. }
  destruct (drop_ok h2 (HMut m) bs rest _ Hst2 Hmax) as (h3 & gs & Hdrop & Hloc3 & Hperm).
  rewrite (drop_sharedv_release o p d (HMut m) bs) in Hdrop by (by apply Forall_cons in Hf as [? _]).
  hstep Hdrop. cbn [hv_ptr hv_len hv_cap].
  assert (Ha : 0 < ptr_addr (PHeap (next_loc h) 0)) by (cbn; pose proof (block_addr_pos (next_loc h)); lia).
  hstep (vptr_ok _ h3 Ha).
  rewrite (hm_bind_Ret _ _ _ tt h3) by (apply hdebug_assert_ok, Z.eqb_eq; lia).
  left. exists m', h3, ([([(HMut m', bs)], {[next_loc h]})] ++ gs).
  split; [rewrite vec_data_ok, Hl by done; reflexivity|]. split; [by apply (local_step_alloc h h2 h3)|].
  split; [cbn; by rewrite Hperm|]. cbn. lia.
Qed.

Lemma reserve_inner_ok h m bs rest fp additional allocate :
  storage h ((HMut m, bs) :: rest) fp → (∀ l, l ∈ fp → (l < next_loc h)%nat) →
  zlen ((HMut m, bs) :: rest) <= isize_max → m_cap m - m_len m < additional →
  reserve_result (reserve_inner m additional allocate h) h m bs rest fp additional allocate.
Proof.
  intros Hst Hlt Hmax Hadd. pose proof (mut_len _ _ _ _ _ Hst) as (Hl & Hc & _). unfold reserve_inner.
  pose proof usize_isize_max. pose proof isize_max_pos.
  apply storage_mut_inv in Hst as [(-> & p & d & off & r & Hown)|
    (o & p & d & fp' & n & r & -> & Hsh)].
  - pose proof Hown as (_ & _ & _ & Hd & _). rewrite (bm_kind_vec m r off Hd). by eapply reserve_vec.
  - pose proof Hsh as (Ho & Hb & Hof & Hr & Hf & Hex). pose proof Hf as [(Hd & off & Hv) _]%Forall_cons.
    pose proof (vbuf_size _ _ _ _ Hb). pose proof Hv as ((_ & ? & _) & _ & _ & ?).
    rewrite (bm_kind_arc m o Hd). cbv zeta. change (KIND_ARC =? KIND_VEC) with false. cbv iota.
    rewrite (hm_bind_Ret _ _ _ tt h) by (by apply hdebug_assert_ok).
    unfold checked_add. rewrite Hl. destruct (Z.leb_spec (zlen bs + additional) usize_max) as [Hno|Hov].
    2: { destruct allocate; cbn [negb]; [|by right; left]. right. right. split; [done|].
         split; [eapply vbuf_huge; [done|lia]|]. exists PanicOverflow. split; [done|by right]. }
    rewrite Hd. hstep (proj1 (is_unique_ok h o _ Ho)). cbn [sv_ref_count].
    rewrite zlen_cons. destruct (Z.eqb_spec (1 + zlen rest) 1) as [E1|E1].
    + assert (rest = []) as -> by (apply zlen_0_nil; lia). by eapply reserve_unique.
    + destruct allocate; cbn [negb]; [|by right; left]. eapply reserve_copy; try done. lia.
Qed.

End reserve.
