(* ===== verification/BytesMutPool.v ===== *)
(** * BytesMutPool: the operations of [BytesMut] on the whole pool of live handles

    As in BytesPool.v: each operation on one handle runs to its end, or panics where
    the source says so, and leaves a good pool in which only that handle has changed. *)

From S2P Require Import Prelude Machine Loom Heap Bytes BytesMut BytesInv BytesOps BytesPool.
From S2P Require Import BytesMutOps BytesMutReserve.
From stdpp Require Import fin_maps fin_sets.
Open Scope Z_scope.

Section mut_pool.
Context `{T : Target, A : Allocator}.

(** ** Reading *)
Lemma pool_mut_len h m bs hcs :
  pool_ok h ((HMut m, bs) :: hcs) →
  m_len m = zlen bs ∧ zlen bs <= m_cap m <= isize_max ∧ 0 < ptr_addr (m_ptr m).
Proof. intros (rest & fp & gs & Hwf & _)%pool_focus. eapply mut_len. by eapply wf_storage. Qed.

Lemma pool_mut_read h m bs hcs : pool_ok h ((HMut m, bs) :: hcs) → bm_as_slice m h = Ret (bs, h).
Proof. intros (rest & fp & gs & Hwf & _)%pool_focus. eapply mut_read. by eapply wf_storage. Qed.

(** ** From a vector *)
Lemma pool_mut_from_vec h v bs hcs :
  pool_ok h ((HVec v, bs) :: hcs) →
  ∃ m, bm_from_vec v h = Ret (m, h) ∧ pool_ok h ((HMut m, bs) :: hcs) ∧ m_cap m = hv_cap v.
Proof.
  intros (rest & fp & gs & Hwf & Hp)%pool_focus. pose proof (wf_storage _ _ _ _ Hwf) as Hst.
  pose proof (storage_vec_inv _ _ _ _ _ Hst) as (-> & _).
  destruct (mut_from_vec h v bs fp Hst) as (m & E & Hm & Hc). exists m. split; [done|]. split; [|done].
  by apply (pool_replace _ _ _ _ _ _ [(HMut m, bs)] [] hcs Hwf (local_same _ _ _ Hm)).
Qed.

Lemma pool_with_capacity h hcs n :
  pool_ok h hcs → 0 <= n <= isize_max →
  ∃ v h', hvec_with_capacity n h = Ret (v, h') ∧ pool_ok h' ((HVec v, []) :: hcs) ∧ hv_cap v = n.
Proof.
  intros (gs & Hwf & Hp) Hn. unfold hvec_with_capacity. rewrite (proj2 (Z.ltb_ge _ _)) by lia.
  destruct (Z.eqb_spec n 0) as [->|Hne].
  - eexists _, h. split; [reflexivity|]. split; [|done].
    eexists (_ :: gs). split; [exact (wf_alloc _ _ _ [_] Hwf (storage_empty_vec_local h))|]. cbn. by rewrite Hp.
  - set (l := next_loc h). set (d := zreplicate n None : list (option byte)).
    assert (Hz : zlen d = n) by (apply zlen_replicate; lia).
    set (v := {| hv_ptr := PHeap l 0; hv_len := 0; hv_cap := n |}).
    exists v, (heap_alloc (CBlock d) h). split; [done|]. split; [|done].
    exists (([(HVec v, [])], {[l]}) :: gs). split; [|cbn; by rewrite Hp].
    apply (wf_alloc _ _ _ [_] Hwf), local_alloc.
    eapply (StVec _ l d); [apply lookup_insert_eq|lia|lia|by rewrite Hz|rewrite zlen_nil; lia|done].
Qed.

(** A copy of the bytes of a handle in a new vector; the handle is dropped. *)
Lemma pool_copy_drop h x bs hcs :
  pool_ok h ((x, bs) :: hcs) → zlen ((x, bs) :: hcs) <= isize_max → zlen bs <= isize_max →
  ∃ v h1 h2, to_vec bs h = Ret (v, h1) ∧ drop_handle x h1 = Ret (tt, h2) ∧ pool_ok h2 ((HVec v, bs) :: hcs).
Proof.
  intros (rest & fp & gs & Hwf & Hp)%pool_focus Hmax Hbs.
  destruct (copy_then_drop h x bs rest fp) as (v & h1 & h2 & gs' & E1 & E2 & Hloc & Hperm).
  { by eapply wf_storage. }
  { intros l. by eapply wf_fresh. }
  { pose proof (rest_len (x, bs) _ _ _ Hp). lia. }
  { done. }
  exists v, h1, h2. split; [done|]. split; [done|].
  exact (pool_replace _ _ _ _ _ _ [(HVec v, bs)] rest hcs Hwf Hloc Hperm Hp).
Qed.

(** ** Reserving *)
Lemma pool_reserve_inner h m bs hcs n allocate :
  pool_ok h ((HMut m, bs) :: hcs) → zlen ((HMut m, bs) :: hcs) <= isize_max → m_cap m - m_len m < n →
  (∃ m' h', reserve_inner m n allocate h = Ret ((true, m'), h') ∧ pool_ok h' ((HMut m', bs) :: hcs) ∧
     zlen bs + n <= m_cap m') ∨
  (allocate = false ∧ reserve_inner m n allocate h = Ret ((false, m), h)) ∨
  (allocate = true ∧ huge h n ∧ ∃ f, reserve_inner m n allocate h = Fault f ∧ capacity_panic f).
Proof.
  intros (rest & fp & gs & Hwf & Hp)%pool_focus Hmax Hn.
  destruct (reserve_inner_ok h m bs rest fp n allocate) as [(m' & h' & gs' & E & Hloc & Hperm & Hroom)|H].
  { by eapply wf_storage. }
  { intros l. by eapply wf_fresh. }
  { pose proof (rest_len (HMut m, bs) _ _ _ Hp). lia. }
  { done. }
  - left. exists m', h'. split; [done|]. split; [|done].
    exact (pool_replace _ _ _ _ _ _ [(HMut m', bs)] rest hcs Hwf Hloc Hperm Hp).
  - by right.
Qed.

(** What growing operations may do instead of returning. *)
Definition out_of_room {X} (run : outcome X) (h : heap) (m : BytesMut) (n : Z) : Prop :=
  huge h n ∧ m_cap m - m_len m < n ∧ ∃ f, run = Fault f ∧ capacity_panic f.

Lemma pool_reserve h m bs hcs n :
  pool_ok h ((HMut m, bs) :: hcs) → zlen ((HMut m, bs) :: hcs) <= isize_max →
  (∃ m' h', reserve m n h = Ret (m', h') ∧ pool_ok h' ((HMut m', bs) :: hcs) ∧
     zlen bs + n <= m_cap m' ∧ (n <= m_cap m - m_len m → m' = m ∧ h' = h)) ∨
  out_of_room (reserve m n h) h m n.
Proof.
  intros Hpool Hmax. pose proof (pool_mut_len _ _ _ _ Hpool) as (Hl & Hc & _). unfold reserve.
  cbv zeta. rewrite usub_ok, hm_bind_lift by lia. destruct (Z.leb_spec n (m_cap m - m_len m)) as [Hle|Hgt].
  { left. exists m, h. split; [done|]. split; [done|]. split; [lia|done]. }
  destruct (pool_reserve_inner h m bs hcs n true Hpool Hmax Hgt) as
    [(m' & h' & E & Hp' & Hroom)|[[]|(_ & Hh & f & E & Hf)]]; [|done|].
  - left. exists m', h'. split; [by hstep E|]. split; [done|]. split; [done|lia].
  - right. split; [done|]. split; [done|]. exists f. split; [by rewrite (hm_bind_Fault _ _ _ _ E)|done].
Qed.

Lemma pool_try_reclaim h m bs hcs n :
  pool_ok h ((HMut m, bs) :: hcs) → zlen ((HMut m, bs) :: hcs) <= isize_max →
  ∃ b m' h', try_reclaim m n h = Ret ((b, m'), h') ∧ pool_ok h' ((HMut m', bs) :: hcs) ∧
    if b : bool then zlen bs + n <= m_cap m' else m' = m ∧ h' = h.
Proof.
  intros Hpool Hmax. pose proof (pool_mut_len _ _ _ _ Hpool) as (Hl & Hc & _). unfold try_reclaim.
  cbv zeta. rewrite usub_ok, hm_bind_lift by lia. destruct (Z.leb_spec n (m_cap m - m_len m)) as [Hle|Hgt].
  { exists true, m, h. split; [done|]. split; [done|lia]. }
  destruct (pool_reserve_inner h m bs hcs n false Hpool Hmax Hgt) as
    [(m' & h' & E & Hp' & Hroom)|[(_ & E)|[]]]; [|by exists false, m, h|done].
  by exists true, m', h'.
Qed.

(** ** Writing *)
Lemma pool_mut_update h m bs hcs i new :
  pool_ok h ((HMut m, bs) :: hcs) → 0 <= i <= zlen bs → i + zlen new <= m_cap m →
  let bs' := splice bs i new in
  ∃ h', write_raw (ptr_add (m_ptr m) i) (Some <$> new) h = Ret (tt, h') ∧
    pool_ok h' ((HMut (with_view m (m_ptr m) (zlen bs') (m_cap m)), bs') :: hcs).
Proof.
  intros (rest & fp & gs & Hwf & Hp)%pool_focus Hi Hn bs'.
  destruct (mut_write h m bs rest fp i new (wf_storage _ _ _ _ Hwf) Hi Hn) as (h' & E & Hloc).
  exists h'. split; [done|].
  eapply (pool_replace _ _ _ _ _ _ [_] rest hcs Hwf Hloc); [|done]. cbn. by rewrite app_nil_r.
Qed.

Lemma with_view_same m : with_view m (m_ptr m) (m_len m) (m_cap m) = m.
Proof. by destruct m. Qed.

Lemma pool_bm_write h m bs hcs i b :
  pool_ok h ((HMut m, bs) :: hcs) → 0 <= i < zlen bs →
  ∃ h', bm_write m i b h = Ret (tt, h') ∧ pool_ok h' ((HMut m, splice bs i [b]) :: hcs).
Proof.
  intros Hpool Hi. pose proof (pool_mut_len _ _ _ _ Hpool) as (Hl & Hc & _).
  destruct (pool_mut_update h m bs hcs i [b] Hpool) as (h' & E & Hp'); [lia|zlia|].
  exists h'. unfold bm_write. rewrite (proj2 (Z.leb_le _ _)), (proj2 (Z.ltb_lt _ _)) by lia.
  split; [exact E|]. cbv zeta in Hp'. rewrite zlen_splice_max in Hp' by lia.
  replace (Z.max (zlen bs) (i + zlen [b])) with (m_len m) in Hp' by zlia.
  by rewrite with_view_same in Hp'.
Qed.

(** Writing [new] after the bytes of [m], where there is room for them. *)
Lemma pool_append h m bs hcs new :
  pool_ok h ((HMut m, bs) :: hcs) → zlen bs + zlen new <= m_cap m →
  ∃ h', write_raw (ptr_add (m_ptr m) (m_len m)) (Some <$> new) h = Ret (tt, h') ∧
    pool_ok h' ((HMut (with_view m (m_ptr m) (zlen bs + zlen new) (m_cap m)), bs ++ new) :: hcs).
Proof.
  intros Hpool Hn. pose proof (pool_mut_len _ _ _ _ Hpool) as (Hl & Hc & _). pose proof (zlen_nonneg bs).
  destruct (pool_mut_update h m bs hcs (zlen bs) new Hpool) as (h' & E & Hp'); [lia|lia|].
  exists h'. rewrite Hl. split; [done|]. cbv zeta in Hp'. by rewrite splice_end, zlen_app in Hp'.
Qed.

Lemma spare_ok h m :
  m_len m <= m_cap m →
  spare_capacity_mut m h = Ret ((ptr_add (m_ptr m) (m_len m), m_cap m - m_len m), h).
Proof. intros Hc. unfold spare_capacity_mut. by rewrite usub_ok. Qed.

Lemma bm_advance_mut_ok h m n :
  0 <= n → m_len m + n <= m_cap m → m_cap m <= isize_max →
  bm_advance_mut m n h = Ret (with_view m (m_ptr m) (m_len m + n) (m_cap m), h).
Proof.
  intros H0 H1 H2. pose proof usize_isize_max. pose proof isize_max_pos. unfold bm_advance_mut.
  rewrite usub_ok, hm_bind_lift by lia. rewrite (proj2 (Z.ltb_ge _ _)) by lia.
  by rewrite uadd_ok, hm_bind_lift by lia.
Qed.

Lemma bm_advance_mut_panics h m n :
  m_len m <= m_cap m → m_cap m - m_len m < n →
  bm_advance_mut m n h = Fault (PanicAdvance n (m_cap m - m_len m)).
Proof.
  intros H0 H1. unfold bm_advance_mut. rewrite usub_ok, hm_bind_lift by lia.
  by rewrite (proj2 (Z.ltb_lt _ _)) by lia.
Qed.

Lemma pool_extend h m bs hcs new :
  pool_ok h ((HMut m, bs) :: hcs) → zlen ((HMut m, bs) :: hcs) <= isize_max →
  (∃ m' h', bm_extend_from_slice m new h = Ret (m', h') ∧ pool_ok h' ((HMut m', bs ++ new) :: hcs) ∧
     (zlen new <= m_cap m - m_len m → m_cap m' = m_cap m ∧ m_ptr m' = m_ptr m)) ∨
  out_of_room (bm_extend_from_slice m new h) h m (zlen new).
Proof.
  intros Hpool Hmax. unfold bm_extend_from_slice. cbv zeta.
  destruct (pool_reserve h m bs hcs (zlen new) Hpool Hmax) as [(m1 & h1 & E & Hp1 & Hroom & Hsame)|H].
  2: { right. destruct H as (Hh & Hc & f & E & Hf). split; [done|]. split; [done|].
       exists f. split; [by rewrite (hm_bind_Fault _ _ _ _ E)|done]. }
  left. pose proof (pool_mut_len _ _ _ _ Hp1) as (Hl1 & Hc1 & _). hstep E.
  hstep (spare_ok h1 m1 ltac:(lia)).
  rewrite (hm_bind_Ret _ _ _ tt h1) by (apply hdebug_assert_ok, Z.leb_le; lia).
  destruct (pool_append h1 m1 bs hcs new Hp1 Hroom) as (h2 & Ew & Hp2). hstep Ew.
  rewrite bm_advance_mut_ok by (lia || apply zlen_nonneg). rewrite Hl1.
  eexists _, h2. split; [done|]. split; [done|]. intros Hn. by destruct (Hsame Hn) as [-> _].
Qed.

Lemma put_bytes_extend h m val cnt :
  0 <= cnt → bm_put_bytes m val cnt h = bm_extend_from_slice m (zreplicate cnt val) h.
Proof.
  intros Hc. unfold bm_put_bytes, bm_extend_from_slice. rewrite zlen_replicate by done.
  unfold zreplicate. by rewrite fmap_replicate.
Qed.

(** ** The length *)
Lemma pool_mut_shrink h m bs hcs n :
  pool_ok h ((HMut m, bs) :: hcs) → 0 <= n <= zlen bs →
  set_len m n h = Ret (with_view m (m_ptr m) n (m_cap m), h) ∧
  pool_ok h ((HMut (with_view m (m_ptr m) n (m_cap m)), ztake n bs) :: hcs).
Proof.
  intros Hpool Hn. pose proof (pool_mut_len _ _ _ _ Hpool) as (Hl & Hc & _).
  apply pool_focus in Hpool as (rest & fp & gs & Hwf & Hp). split.
  - unfold set_len. by rewrite (hm_bind_Ret _ _ _ tt h) by (apply hdebug_assert_ok, Z.leb_le; lia).
  - eapply (pool_replace h h _ fp gs [(_ :: rest, fp)] [_] rest hcs Hwf); [|cbn; by rewrite app_nil_r|done].
    apply local_same. apply mut_shrink; [by eapply wf_storage|done].
Qed.

Lemma pool_mut_truncate h m bs hcs n :
  pool_ok h ((HMut m, bs) :: hcs) → 0 <= n →
  ∃ m', bm_truncate m n h = Ret (m', h) ∧ pool_ok h ((HMut m', ztake n bs) :: hcs) ∧ m_cap m' = m_cap m.
Proof.
  intros Hpool Hn. pose proof (pool_mut_len _ _ _ _ Hpool) as (Hl & Hc & _). unfold bm_truncate. rewrite Hl.
  destruct (Z.leb_spec n (zlen bs)).
  - destruct (pool_mut_shrink h m bs hcs n Hpool ltac:(lia)) as [E Hp']. by eexists.
  - exists m. rewrite ztake_ge by lia. done.
Qed.

(** [resize]: cut, keep, or fill up with [value]. *)
Definition resized (bs : list byte) (new_len : Z) (value : byte) : list byte :=
  ztake new_len bs ++ zreplicate (new_len - zlen bs) value.

Lemma pool_resize h m bs hcs n value :
  pool_ok h ((HMut m, bs) :: hcs) → zlen ((HMut m, bs) :: hcs) <= isize_max → 0 <= n →
  (∃ m' h', bm_resize m n value h = Ret (m', h') ∧ pool_ok h' ((HMut m', resized bs n value) :: hcs) ∧
     (n - zlen bs <= m_cap m - m_len m → m_cap m' = m_cap m)) ∨
  out_of_room (bm_resize m n value h) h m (n - zlen bs).
Proof.
  intros Hpool Hmax Hn. pose proof (pool_mut_len _ _ _ _ Hpool) as (Hl & Hc & _). unfold bm_resize, resized. rewrite Hl.
  destruct (Z.ltb_spec n (zlen bs)) as [Hlt|Hge].
  { rewrite checked_sub_None by done. left.
    destruct (pool_mut_truncate h m bs hcs n Hpool Hn) as (m' & E & Hp' & Hcap). exists m', h. split; [done|].
    unfold zreplicate. rewrite Z2Nat.nonpos by lia. by rewrite app_nil_r. }
  rewrite checked_sub_Some, ztake_ge by lia. destruct (Z.eqb_spec (n - zlen bs) 0) as [E0|E0].
  { left. exists m, h. split; [done|]. split; [by rewrite E0, app_nil_r|done]. }
  set (new := zreplicate (n - zlen bs) value).
  assert (Hz : zlen new = n - zlen bs) by (apply zlen_replicate; lia).
  destruct (pool_reserve h m bs hcs (n - zlen bs) Hpool Hmax) as [(m1 & h1 & E & Hp1 & Hroom & Hsame)|H].
  2: { right. destruct H as (Hh & Hc' & f & E & Hf). split; [done|]. split; [done|].
       exists f. split; [by rewrite (hm_bind_Fault _ _ _ _ E)|done]. }
  left. pose proof (pool_mut_len _ _ _ _ Hp1) as (Hl1 & Hc1 & _). hstep E.
  hstep (spare_ok h1 m1 ltac:(lia)).
  destruct (pool_append h1 m1 bs hcs new Hp1 ltac:(lia)) as (h2 & Ew & Hp2).
  assert (Er : zreplicate (n - zlen bs) (Some value) = Some <$> new)
    by (unfold new, zreplicate; by rewrite fmap_replicate).
  rewrite Er. hstep Ew. unfold set_len.
  rewrite (hm_bind_Ret _ _ _ tt h2) by (apply hdebug_assert_ok, Z.leb_le; lia).
  eexists _, h2. split; [done|]. replace (zlen bs + zlen new) with n in Hp2 by lia. split; [done|].
  intros Hn'. destruct Hsame as [-> _]; [lia|done].
Qed.

End mut_pool.
