(* ===== verification/BytesMutShare.v ===== *)
(** * BytesMutShare: splitting, joining and converting a [BytesMut]

    [advance], [split_off], [split_to] and [unsplit], and the conversions between
    [BytesMut], [Bytes] and [Vec<u8>], on the whole pool of live handles. *)

From S2P Require Import Prelude Machine Loom Heap Bytes BytesMut BytesInv BytesOps BytesPool.
From S2P Require Import BytesMutOps BytesMutReserve BytesMutPool.
From stdpp Require Import fin_maps fin_sets.
Open Scope Z_scope.

Section share.
Context `{T : Target, A : Allocator}.

(** ** The start of the view *)

(** The view moved [n] bytes on, with the data word [w]. *)
Definition moved_on (m : BytesMut) (n : Z) : BytesMut :=
  with_view m (ptr_add (m_ptr m) n) (saturating_sub (m_len m) n) (m_cap m - n).

Lemma part_of_front m bs k : m_len m = zlen bs → 0 <= k <= m_cap m →
  part_of m bs (with_view m (m_ptr m) (Z.min (m_len m) k) k) (ztake k bs) 0 k.
Proof.
  intros Hl Hk. unfold part_of. cbn. rewrite ptr_add_0, zdrop_0, zlen_take_min. pose proof (zlen_nonneg bs).
  repeat split; try done; try lia.
Qed.

Lemma part_of_back m bs n : m_len m = zlen bs → zlen bs <= m_cap m → 0 <= n <= m_cap m →
  part_of m bs (moved_on m n) (zdrop n bs) n (m_cap m - n).
Proof.
  intros Hl Hc Hn. unfold part_of. cbn. rewrite zlen_drop_max. unfold saturating_sub. pose proof (zlen_nonneg bs).
  rewrite ztake_ge by zlia. repeat split; try done; try lia.
Qed.

Lemma mut_advance h m bs rest fp n :
  storage h ((HMut m, bs) :: rest) fp → (∀ l, l ∈ fp → (l < next_loc h)%nat) → 0 <= n <= m_cap m →
  ∃ m' h' gs, advance_unchecked m n h = Ret (m', h') ∧ local_step h h' fp gs ∧
    (HMut m', zdrop n bs) :: rest ≡ₚ concat (fst <$> gs) ∧ m_cap m' = m_cap m - n.
Proof.
  intros Hst Hlt Hn. pose proof (mut_len _ _ _ _ _ Hst) as (Hl & Hc & _). pose proof (zlen_nonneg bs).
  pose proof (part_of_back m bs n Hl ltac:(lia) Hn) as Hpart.
  apply storage_mut_inv in Hst as [(-> & p & d & off & r & Hb & Hv & Hend & Hd & Hr & Hpos)|
    (o & p & d & fp' & n' & r & -> & Ho & Hb & Hof & Hr & Hf & Hex)].
  - pose proof Hv as ((Hp & Hoff & _) & _).
    destruct (advance_vec h p d fp m off r n Hb Hp Hend) as (m' & h' & fp' & E & Hp' & Hl' & Hc' & Hloc);
      try done; [lia|].
    exists m', h', [([(HMut m', zdrop n bs)], fp')]. split; [done|]. split; [|done]. apply Hloc.
    pose proof (part_of_view _ _ _ _ _ _ _ _ _ Hv Hpart) as (Hv1 & Hl1 & Hc1 & Hle1). cbn in *.
    split; [rewrite Hp', <- ptr_add_add, <- Hp; exact Hv1|]. rewrite Hl', Hc'. done.
  - pose proof Hf as [(Hd & off & Hv) Hf']%Forall_cons. pose proof Hv as ((Hp & Hoff & _) & _).
    eexists (moved_on m n), h, [((HMut (moved_on m n), zdrop n bs) :: rest, {[o]} ∪ fp')].
    split; [|split; [|split; [cbn; by rewrite app_nil_r|done]]].
    + eapply advance_arc; [done|done|lia|]. rewrite Hp, ptr_add_add. eapply vbuf_addr; [done|lia].
    + apply local_same. eapply (StSharedV h o p d fp' n' r); try done.
      * apply Forall_cons. split; [|done]. split; [done|]. eexists. by eapply part_of_view.
      * apply (exclusive_replace (HMut m, bs) [_] rest Hex); [|done].
        apply Forall_singleton. by eapply part_of_within.
Qed.

Lemma pool_mut_advance h m bs hcs n :
  pool_ok h ((HMut m, bs) :: hcs) → 0 <= n <= zlen bs →
  ∃ m' h', bm_advance m n h = Ret (m', h') ∧ pool_ok h' ((HMut m', zdrop n bs) :: hcs) ∧
    m_cap m' = m_cap m - n.
Proof.
  intros Hpool Hn. pose proof (pool_mut_len _ _ _ _ Hpool) as (Hl & Hc & _). unfold bm_advance.
  rewrite (hm_bind_Ret _ _ _ tt h) by (apply hassert_ok, Z.leb_le; lia).
  apply pool_focus in Hpool as (rest & fp & gs & Hwf & Hp).
  destruct (mut_advance h m bs rest fp n) as (m' & h' & gs' & E & Hloc & Hperm & Hcap).
  { by eapply wf_storage. }
  { intros l. by eapply wf_fresh. }
  { lia. }
  exists m', h'. split; [done|]. split; [|done].
  exact (pool_replace _ _ _ _ _ _ [(HMut m', zdrop n bs)] rest hcs Hwf Hloc Hperm Hp).
Qed.

(** ** Splitting *)
Lemma pool_shallow_clone h m bs hcs :
  pool_ok h ((HMut m, bs) :: hcs) → zlen ((HMut m, bs) :: hcs) <= isize_max →
  ∃ m1 h' o, shallow_clone m h = Ret ((m1, m1), h') ∧ m_ptr m1 = m_ptr m ∧ m_len m1 = m_len m ∧
    m_cap m1 = m_cap m ∧ m_data m1 = PObj o ∧
    ∀ y1 bs1 k y2 bs2, part_of m1 bs y1 bs1 0 k → part_of m1 bs y2 bs2 k (m_cap m - k) →
      pool_ok h' ((HMut y1, bs1) :: (HMut y2, bs2) :: hcs).
Proof.
  intros (rest & fp & gs & Hwf & Hp)%pool_focus Hmax.
  destruct (shallow_clone_ok h m bs rest fp) as (m1 & h' & fp' & o & E & H1 & H2 & H3 & H4 & Hloc).
  { by eapply wf_storage. }
  { intros l. by eapply wf_fresh. }
  { pose proof (rest_len (HMut m, bs) _ _ _ Hp). lia. }
  exists m1, h', o. do 5 (split; [done|]). intros y1 bs1 k y2 bs2 Hy1 Hy2.
  eapply (pool_replace _ _ _ _ _ _ [_; _] rest hcs Hwf (Hloc _ _ _ _ _ Hy1 Hy2)); [|done].
  cbn. by rewrite app_nil_r.
Qed.

Lemma pool_mut_split h m bs hcs n :
  pool_ok h ((HMut m, bs) :: hcs) → zlen ((HMut m, bs) :: hcs) <= isize_max → 0 <= n <= m_cap m →
  ∃ m1 h' o, shallow_clone m h = Ret ((m1, m1), h') ∧ m_len m1 = m_len m ∧ m_cap m1 = m_cap m ∧
    m_ptr m1 = m_ptr m ∧ m_data m1 = PObj o ∧ advance_unchecked m1 n h' = Ret (moved_on m1 n, h') ∧
    pool_ok h' ((HMut (with_view m1 (m_ptr m1) (Z.min (m_len m1) n) n), ztake n bs) ::
                (HMut (moved_on m1 n), zdrop n bs) :: hcs).
Proof.
  intros Hpool Hmax Hn. pose proof (pool_mut_len _ _ _ _ Hpool) as (Hl & Hc & Ha).
  destruct (pool_shallow_clone h m bs hcs Hpool Hmax) as (m1 & h' & o & E & H1 & H2 & H3 & H4 & Hk).
  pose proof (zlen_nonneg bs).
  exists m1, h', o. do 5 (split; [done|]). split.
  - eapply advance_arc; [done|lia|lia|]. rewrite H1. apply ptr_add_addr; [done|lia].
  - rewrite <- H3 in Hk. eapply Hk; [apply part_of_front|apply part_of_back]; lia.
Qed.

Lemma pool_mut_split_off h m bs hcs n :
  pool_ok h ((HMut m, bs) :: hcs) → zlen ((HMut m, bs) :: hcs) <= isize_max → 0 <= n <= m_cap m →
  ∃ m1 m2 h', bm_split_off m n h = Ret ((m2, m1), h') ∧ m_cap m1 = n ∧ m_cap m2 = m_cap m - n ∧
    pool_ok h' ((HMut m1, ztake n bs) :: (HMut m2, zdrop n bs) :: hcs).
Proof.
  intros Hpool Hmax Hn. destruct (pool_mut_split h m bs hcs n Hpool Hmax Hn) as (m1 & h' & o & E & H1 & H2 & _ & _ & E2 & Hp).
  eexists _, (moved_on m1 n), h'. unfold bm_split_off.
  rewrite (hm_bind_Ret _ _ _ tt h) by (apply hassert_ok, Z.leb_le; lia). hstep E. hstep E2.
  split; [reflexivity|]. split; [done|]. split; [cbn; lia|done].
Qed.

Lemma pool_mut_split_to h m bs hcs n :
  pool_ok h ((HMut m, bs) :: hcs) → zlen ((HMut m, bs) :: hcs) <= isize_max → 0 <= n <= zlen bs →
  ∃ m1 m2 h', bm_split_to m n h = Ret ((m1, m2), h') ∧ m_cap m1 = n ∧ m_cap m2 = m_cap m - n ∧
    pool_ok h' ((HMut m2, zdrop n bs) :: (HMut m1, ztake n bs) :: hcs).
Proof.
  intros Hpool Hmax Hn. pose proof (pool_mut_len _ _ _ _ Hpool) as (Hl & Hc & Ha).
  destruct (pool_mut_split h m bs hcs n Hpool Hmax ltac:(lia)) as (m1 & h' & o & E & H1 & H2 & _ & _ & E2 & Hp).
  eexists _, (moved_on m1 n), h'. unfold bm_split_to.
  rewrite (hm_bind_Ret _ _ _ tt h) by (apply hassert_ok, Z.leb_le; lia). hstep E. hstep E2.
  split; [reflexivity|]. split; [done|]. split; [cbn; lia|].
  eapply pool_perm; [apply Permutation_swap|]. rewrite Z.min_r in Hp by lia. done.
Qed.

(** ** Freezing *)
Lemma mut_freeze h m bs rest fp :
  storage h ((HMut m, bs) :: rest) fp → (∀ l, l ∈ fp → (l < next_loc h)%nat) →
  ∃ x h' gs, freeze m h = Ret (x, h') ∧ local_step h h' fp gs ∧ (HBytes x, bs) :: rest ≡ₚ concat (fst <$> gs).
Proof.
  intros Hst Hlt. pose proof (mut_len _ _ _ _ _ Hst) as (Hl & Hc & _). unfold freeze.
  apply storage_mut_inv in Hst as [(-> & p & d & off & r & Hb & Hv & Hend & Hd & Hr & Hpos)|
    (o & p & d & fp' & n' & r & -> & Ho & Hb & Hof & Hr & Hf & Hex)].
  - rewrite (bm_kind_vec m r off Hd), Z.eqb_refl. hstep (get_vec_pos_ok m r off h Hd Hr).
    hstep (mut_rebuild_vec h p d fp m off bs Hb Hv Hend).
    pose proof Hv as (Hva & _). pose proof Hva as (Hp & Hoff & _). pose proof (zlen_nonneg bs).
    destruct (from_vec_raw h p d fp (zlen bs + off) Hb ltac:(lia) Hlt) as (x & h' & fp' & E & Hx & Hloc).
    hstep E. unfold bytes_advance.
    rewrite (hm_bind_Ret _ _ _ tt h') by (apply hassert_ok, Z.leb_le; lia).
    rewrite inc_start_ok, Hx by lia. replace (zlen bs + off - off) with (zlen bs) by lia.
    eexists _, h', [_]. split; [reflexivity|]. split; [apply (Hloc off bs); [by rewrite <- Hp|lia]|done].
  - pose proof Hf as [(Hd & off & Hv) Hf']%Forall_cons. pose proof Hv as (Hva & _).
    rewrite (bm_kind_arc m o Hd). change (KIND_ARC =? KIND_VEC) with false. cbv iota.
    rewrite (hm_bind_Ret _ _ _ tt h) by (by apply hdebug_assert_ok).
    set (x := {| b_ptr := m_ptr m; b_len := m_len m; b_data := m_data m; b_vtable := SHARED_V_VTABLE |}).
    exists x, h, [((HBytes x, bs) :: rest, {[o]} ∪ fp')]. split; [done|]. split; [|cbn; by rewrite app_nil_r].
    apply local_same. eapply (StSharedV h o p d fp' n' r); try done.
    + apply Forall_cons. split; [|done]. split; [done|]. split; [done|]. split; [done|]. by exists off.
    + apply (exclusive_replace (HMut m, bs) [_] rest Hex); [|done].
      apply Forall_singleton. unfold within, h_hi, h_lo. cbn. split; [lia|]. split; [lia|done].
Qed.

Lemma pool_freeze h m bs hcs :
  pool_ok h ((HMut m, bs) :: hcs) →
  ∃ x h', freeze m h = Ret (x, h') ∧ pool_ok h' ((HBytes x, bs) :: hcs).
Proof.
  intros (rest & fp & gs & Hwf & Hp)%pool_focus.
  destruct (mut_freeze h m bs rest fp) as (x & h' & gs' & E & Hloc & Hperm).
  { by eapply wf_storage. }
  { intros l. by eapply wf_fresh. }
  exists x, h'. split; [done|]. exact (pool_replace _ _ _ _ _ _ [(HBytes x, bs)] rest hcs Hwf Hloc Hperm Hp).
Qed.

(** ** Into a vector *)
Lemma mut_into_vec h m bs rest fp :
  storage h ((HMut m, bs) :: rest) fp → (∀ l, l ∈ fp → (l < next_loc h)%nat) →
  zlen ((HMut m, bs) :: rest) <= isize_max →
  ∃ v h' gs, bm_into_vec m h = Ret (v, h') ∧ local_step h h' fp gs ∧ (HVec v, bs) :: rest ≡ₚ concat (fst <$> gs).
Proof.
  intros Hst Hlt Hmax. pose proof Hst as Hst0. pose proof (mut_len _ _ _ _ _ Hst) as (Hl & Hc & _).
  pose proof (mut_read _ _ _ _ _ Hst) as Hrd. unfold bm_into_vec. cbv zeta.
  apply storage_mut_inv in Hst as [(-> & p & d & off & r & Hb & Hv & Hend & Hd & Hr & Hpos)|
    (o & p & d & fp' & n' & r & -> & Ho & Hb & Hof & Hr & Hf & Hex)].
  - rewrite (bm_kind_vec m r off Hd), Z.eqb_refl. hstep (get_vec_pos_ok m r off h Hd Hr).
    hstep (mut_rebuild_vec h p d fp m off bs Hb Hv Hend). cbn [hv_ptr hv_cap]. rewrite Hl.
    destruct (vbuf_copy_front h p d fp (m_ptr m) off bs Hb (proj1 Hv)) as (h' & E & Hb' & Hn & Hs). hstep E.
    eexists _, h', [_]. split; [reflexivity|]. pose proof Hv as ((_ & Hoff & _) & _).
    split; [apply local_one; [by apply moved_update|apply vbuf_vec_storage; [done|lia]]|done].
  - pose proof Hf as [(Hd & off & Hv) Hf']%Forall_cons.
    rewrite (bm_kind_arc m o Hd). change (KIND_ARC =? KIND_VEC) with false. cbv iota. rewrite Hd, Hl.
    hstep (proj1 (is_unique_ok h o _ Ho)). cbn [sv_ref_count]. rewrite zlen_cons.
    pose proof (zlen_nonneg rest). destruct (Z.eqb_spec (1 + zlen rest) 1) as [E1|E1].
    + assert (rest = []) as -> by (apply zlen_0_nil; lia).
      destruct (take_front_ok h o p d fp' n' r (m_ptr m) off bs) as (h1 & h2 & h3 & H1 & H2 & H3 & Hloc); try done.
      { apply Hv. }
      hstep H1. hstep H2. cbn [hv_ptr hv_cap]. hstep H3. eexists _, h3, _. split; [reflexivity|]. by split.
    + hstep Hrd.
      destruct (copy_then_drop h (HMut m) bs rest _ Hst0 Hlt Hmax) as (v & h1 & h2 & gs & Hcp & Hdrop & Hloc & Hperm);
        [lia|].
      cbn [drop_handle] in Hdrop. hstep Hcp. hstep Hdrop. by exists v, h2, gs.
Qed.

Lemma pool_mut_into_vec h m bs hcs :
  pool_ok h ((HMut m, bs) :: hcs) → zlen ((HMut m, bs) :: hcs) <= isize_max →
  ∃ v h', bm_into_vec m h = Ret (v, h') ∧ pool_ok h' ((HVec v, bs) :: hcs).
Proof.
  intros (rest & fp & gs & Hwf & Hp)%pool_focus Hmax.
  destruct (mut_into_vec h m bs rest fp) as (v & h' & gs' & E & Hloc & Hperm).
  { by eapply wf_storage. }
  { intros l. by eapply wf_fresh. }
  { pose proof (rest_len (HMut m, bs) _ _ _ Hp). lia. }
  exists v, h'. split; [done|]. exact (pool_replace _ _ _ _ _ _ [(HVec v, bs)] rest hcs Hwf Hloc Hperm Hp).
Qed.

(** ** From a [Bytes] *)

(** [BytesMut::from_vec(v)], then [advance_unchecked(off)]. *)
Lemma to_mut_raw h p d fp off bs :
  vbuf h p d fp → view_at p d (ptr_add p off) off bs → (∀ l, l ∈ fp → (l < next_loc h)%nat) →
  ∃ m h' fp',
    (b ← bm_from_vec {| hv_ptr := p; hv_len := zlen bs + off; hv_cap := zlen d |}; advance_unchecked b off) h =
      Ret (m, h') ∧ local_step h h' fp [([(HMut m, bs)], fp')] ∧ m_ptr m = ptr_add p off.
Proof.
  intros Hb Hv Hlt. destruct (bm_from_vec_ok h p d fp (zlen bs + off) Hb) as (r & Hr & E). hstep E.
  pose proof Hv as (_ & Ho & Hle & _). pose proof (zlen_nonneg bs). pose proof max_vec_pos. pose proof usize_max_ge.
  set (m0 := {| m_ptr := p; m_len := zlen bs + off; m_cap := zlen d; m_data := vec_word r 0 |}).
  destruct (advance_vec h p d fp m0 0 r off Hb) as (m & h' & fp' & Ea & Hp' & Hl' & Hc' & Hloc);
    try done; cbn; try lia; [by rewrite ptr_add_0|].
  exists m, h', fp'. split; [done|]. split; [|done]. apply Hloc. cbn in Hp', Hl', Hc'. rewrite Z.add_0_l.
  split; [by rewrite Hp'|]. rewrite Hl', Hc'. unfold saturating_sub. lia.
Qed.

(** Freeing a box of the group on the way. *)
Lemma local_step_unbox h h' o fp gs :
  local_step (heap_delete o h) h' fp gs → o ∉ fp → (o < next_loc h)%nat → local_step h h' ({[o]} ∪ fp) gs.
Proof.
  intros (H1 & H2 & H3 & H4 & H5 & H6) Ho Hlt. cbn in H3, H4.
  assert (Hog : o ∉ footprint gs) by (intros Hog; destruct (H4 o Hog); [done|lia]).
  split; [done|]. split; [done|]. split; [done|]. split; [|split].
  - intros l Hl. destruct (H4 l Hl); [left; set_solver|by right].
  - intros l Hl1 Hl2. rewrite H5 by set_solver. cbn. rewrite lookup_delete_ne by set_solver. done.
  - intros l Hl1 Hl2. destruct (decide (l ∈ fp)) as [Hl|Hl]; [by apply H6|].
    assert (l = o) as -> by set_solver. rewrite H5 by done. apply lookup_delete_eq.
Qed.

(** A [Bytes] becomes a [BytesMut] without a copy: the only handle on its storage. *)
Lemma into_mut_boxed h l d x off bs :
  cells h !! l = Some (CBlock d) → zlen d <= isize_max → 0 < zlen d → boxed_word l x →
  block_view l d x off bs → off + zlen bs = zlen d → (l < next_loc h)%nat →
  ∃ m h' fp', bytes_into_mut x h = Ret (m, h') ∧ local_step h h' {[l]} [([(HMut m, bs)], fp')] ∧
    m_ptr m = b_ptr x.
Proof.
  intros Hl Hi Hd Hw (Hp & Hlen & Ho & Hle & E) Hend Hlt.
  destruct (to_mut_raw h (PHeap l 0) d {[l]} off bs) as (m & h' & fp' & Em & Hloc & Hmp);
    [by constructor|by repeat split|set_solver|].
  exists m, h', fp'. split; [|by rewrite Hp].
  assert (Hpm : promotable_to_mut (b_vtable x) (b_data x) (b_ptr x) (b_len x) h = Ret (m, h')).
  { unfold promotable_to_mut. rewrite (boxed_word_kind l x Hw), (boxed_word_buf l x Hw).
    change (KIND_VEC =? KIND_ARC) with false. cbv iota.
    rewrite (hm_bind_Ret _ _ _ tt _ (hdebug_assert_ok _ _ eq_refl)).
    rewrite Hp, Hlen. hstep (offset_from_block l off h Ho).
    pose proof usize_isize_max. pose proof isize_max_pos.
    assert (Hu : uadd off (zlen bs) = Ret (zlen d)) by (rewrite uadd_ok, Hend by lia; done).
    hstep (lift_ok _ _ h Hu). replace (zlen bs + off) with (zlen d) in Em by lia. exact Em. }
  unfold bytes_into_mut. destruct Hw as [(_ & Hvt & _)|(_ & Hvt & _)]; rewrite Hvt in Hpm |- *; exact Hpm.
Qed.

Lemma bytes_into_mut_arc h o x :
  arc_vtable (b_vtable x) → b_data x = PObj o →
  bytes_into_mut x h = shared_to_mut_impl (PObj o) (b_ptr x) (b_len x) h.
Proof.
  intros Hvt Hdt. unfold bytes_into_mut, promotable_to_mut. rewrite Hdt, kind_of_obj.
  by destruct Hvt as [-> | [-> | ->]].
Qed.

Lemma load_ref_cnt h o s :
  cells h !! o = Some (CShared s) → on_ref_cnt (PObj o) atomic_load h = Ret (RVal (sh_ref_cnt s), h).
Proof.
  intros Ho. rewrite (on_ref_cnt_ok h o s atomic_load Ho). cbn. rewrite heap_insert_id; [done|].
  by destruct s.
Qed.

Lemma into_mut_last h o l d x off bs :
  cells h !! o = Some (CShared {| sh_buf := PHeap l 0; sh_cap := zlen d; sh_ref_cnt := 1 |}) →
  cells h !! l = Some (CBlock d) → zlen d <= isize_max → 0 < zlen d → o ≠ l →
  arc_vtable (b_vtable x) → b_data x = PObj o → block_view l d x off bs →
  (∀ k, k ∈ ({[o; l]} : gset nat) → (k < next_loc h)%nat) →
  ∃ m h' fp', bytes_into_mut x h = Ret (m, h') ∧ local_step h h' {[o; l]} [([(HMut m, bs)], fp')] ∧
    m_ptr m = b_ptr x.
Proof.
  intros Ho Hl Hi Hd Hne Hvt Hdt (Hp & Hlen & Hoff & Hle & E) Hlt.
  rewrite (bytes_into_mut_arc h o x Hvt Hdt), Hp, Hlen. unfold shared_to_mut_impl.
  hstep (load_ref_cnt h o _ Ho). cbn [response_val sh_ref_cnt]. hret. cbn [Z.eqb Pos.eqb].
  hstep (take_shared_ok h o _ Ho). cbn [sh_buf sh_cap]. cbv zeta.
  hstep (offset_from_block l off (heap_delete o h) Hoff).
  pose proof usize_isize_max. pose proof isize_max_pos. rewrite uadd_ok, hm_bind_lift by lia.
  destruct (to_mut_raw (heap_delete o h) (PHeap l 0) d {[l]} off bs) as (m & h' & fp' & Em & Hloc & Hmp).
  { constructor; [cbn; by rewrite lookup_delete_ne|done|done]. }
  { by repeat split. }
  { intros k Hk. cbn. apply Hlt. set_solver. }
  exists m, h', fp'. split; [exact Em|]. split; [|done].
  apply (local_step_unbox h h' o {[l]}); [done|set_solver|]. apply Hlt. set_solver.
Qed.

Lemma into_mut_sharedv h o p d fp n r x bs :
  shares_vec h o p d fp n r [(HBytes x, bs)] →
  ∃ m, bytes_into_mut x h = Ret (m, h) ∧ storage h [(HMut m, bs)] ({[o]} ∪ fp) ∧ m_ptr m = b_ptr x.
Proof.
  intros (Ho & Hb & Hof & Hr & [(Hvt & Hdt & Hlen & off & Hv) _]%Forall_cons & _).
  pose proof Hv as (Hp & Hoff & Hle & _). pose proof (zlen_nonneg bs).
  unfold bytes_into_mut, shared_v_to_mut. rewrite Hvt, Hdt, Hlen.
  hstep (proj1 (is_unique_ok h o _ Ho)). change (sv_ref_count _ =? 1) with true. cbv iota.
  hstep (get_vec_ok h o _ Ho). cbn [sv_vec hv_cap hv_ptr].
  assert (Eo : offset_from (b_ptr x) p h = Ret (off, h)) by (rewrite Hp; eapply vbuf_offset_from; [done|lia]).
  hstep Eo. rewrite usub_ok, hm_bind_lift by lia.
  assert (Ha : 0 < ptr_addr (b_ptr x)) by (rewrite Hp; by eapply vbuf_addr).
  hstep (vptr_ok _ h Ha). eexists. split; [reflexivity|]. split; [|done]. eapply (StSharedV h o p d fp n r); try done.
  apply Forall_singleton. split; [done|]. exists off. split; [done|]. cbn. split; [done|]. lia.
Qed.

(** A copy, when other handles share the storage or the data is static. *)
Lemma pool_copy_to_mut h x bs hcs :
  pool_ok h ((HBytes x, bs) :: hcs) → zlen ((HBytes x, bs) :: hcs) <= isize_max →
  ∃ v h1 h2 m, to_vec bs h = Ret (v, h1) ∧ bytes_drop x h1 = Ret (tt, h2) ∧ bm_from_vec v h2 = Ret (m, h2) ∧
    pool_ok h2 ((HMut m, bs) :: hcs).
Proof.
  intros Hpool Hmax. pose proof (pool_bytes_len _ _ _ _ Hpool) as (_ & _ & Hbs).
  destruct (pool_copy_drop h (HBytes x) bs hcs Hpool Hmax Hbs) as (v & h1 & h2 & E1 & E2 & Hp).
  destruct (pool_mut_from_vec h2 v bs hcs Hp) as (m & E3 & Hp' & _). by exists v, h1, h2, m.
Qed.

(** ** Who shares the storage of a handle *)

(** The box whose reference count a handle is part of. *)
Definition counted_in (x : handle) : option nat :=
  match x with
  | HBytes x =>
    match b_vtable x, b_data x with
    | STATIC_VTABLE, _ => None
    | _, PObj o => Some o
    | _, _ => None
    end
  | HMut m => match m_data m with PObj o => Some o | _ => None end
  | HVec _ => None
  end.

Definition same_storage (x y : handle) : Prop := ∃ o, counted_in x = Some o ∧ counted_in y = Some o.

Lemma counted_in_arc o l d y : arc_view o l d y → counted_in y.1 = Some o.
Proof. destruct y as [[x| |] bs]; [|done..]. cbn. intros ([-> | [-> | ->]] & -> & _); done. Qed.

Lemma counted_in_sharedv o p d y : sharedv_view o p d y → counted_in y.1 = Some o.
Proof.
  destruct y as [[x| |m] bs]; [|done|]; cbn.
  - by intros (-> & -> & _).
  - by intros (-> & _).
Qed.

Lemma counted_in_owned o p d y : owned_view o p d y → counted_in y.1 = Some o.
Proof. destruct y as [[x| |] bs]; [|done..]. cbn. by intros (-> & -> & _). Qed.

Lemma counted_in_storage h xs fp y o :
  storage h xs fp → y ∈ xs → counted_in y.1 = Some o → o ∈ fp.
Proof.
  intros Hst Hy Hc. destruct Hst as [x bs (Hvt & _)|l d x off bs Hl Hi Hd Hw Hb|o' l d rc xs Ho Hl Hi Hd Hne Hxs Hrc Hf|
    | |p d fp m off repr bs Hb Hv Hend Hd|o' p d fp n repr rc xs Ho Hb Hof Hr Hxs Hrc Hf Hex
    |o' p d fp n rc xs Ho Hb Hof Hxs Hrc Hf];
    try (apply list_elem_of_singleton in Hy as ->; cbn in Hc); try done.
  - by rewrite Hvt in Hc.
  - by destruct Hw as [(_ & Hvt & Hdt)|(_ & Hvt & Hdt)]; rewrite Hvt, Hdt in Hc.
  - rewrite Forall_forall in Hf. apply Hf, counted_in_arc in Hy. rewrite Hc in Hy. injection Hy as ->. set_solver.
  - by rewrite Hd in Hc.
  - rewrite Forall_forall in Hf. apply Hf, counted_in_sharedv in Hy. rewrite Hc in Hy. injection Hy as ->. set_solver.
  - rewrite Forall_forall in Hf. apply Hf, counted_in_owned in Hy. rewrite Hc in Hy. injection Hy as ->. set_solver.
Qed.

(** Handles on the same storage are in the same group. *)
Lemma sharing_rest h x rest fp gs hcs :
  wf h ((x :: rest, fp) :: gs) → hcs ≡ₚ rest ++ concat (fst <$> gs) →
  (rest = [] ∧ Forall (λ y, ¬ same_storage x.1 y.1) hcs) ∨
  (rest ≠ [] ∧ Exists (λ y, same_storage x.1 y.1) hcs).
Proof.
  intros Hwf Hp. pose proof (wf_storage _ _ _ _ Hwf) as Hst. destruct rest as [|y rest].
  - left. split; [done|]. rewrite Hp. apply Forall_forall. intros y Hy (o & Hx & Ho).
    apply list_elem_of_In, in_concat in Hy as (xs & Hxs & Hy).
    apply list_elem_of_In, list_elem_of_fmap in Hxs as (g & -> & Hg).
    destruct Hwf as (Hall & [Hsep _] & _). apply Forall_cons in Hall as [_ Hall].
    rewrite Forall_forall in Hall.
    assert (H1 : o ∈ fp) by (eapply (counted_in_storage h _ fp x); [done|by left|done]).
    assert (H2 : o ∈ g.2) by (eapply (counted_in_storage h g.1 g.2 y); [by apply Hall|by apply list_elem_of_In|done]).
    assert (o ∈ footprint gs) by (apply elem_footprint; eauto). set_solver.
  - right. split; [done|]. rewrite Hp. apply Exists_cons. left.
    inversion Hst as [| |o l d rc xs Ho Hl Hi Hd Hne Hxs Hrc Hf| | | |o p d fp' n repr rc xs Ho Hb Hof Hr Hxs Hrc Hf Hex
      |o p d fp' n rc xs Ho Hb Hof Hxs Hrc Hf];
      subst; apply Forall_cons in Hf as [H1 [H2 _]%Forall_cons]; exists o;
      by eauto using counted_in_arc, counted_in_sharedv, counted_in_owned.
Qed.

(** ** From a [Bytes], continued: when nothing is copied *)

(** The memory belongs to someone else: it is static, or of a user's owner. *)
Definition borrowed_vtable (vt : vtable) : bool :=
  match vt with STATIC_VTABLE | OWNED_VTABLE => true | _ => false end.

(** The handle owns its heap memory, not a user's owner, and has it to itself. *)
Definition movable (x : Bytes) (rest : list (handle * list byte)) : bool :=
  match b_vtable x with STATIC_VTABLE | OWNED_VTABLE => false | _ => zlen ((HBytes x, []) :: rest) =? 1 end.

Lemma movable_arc x rest : arc_vtable (b_vtable x) → movable x rest = (1 + zlen rest =? 1).
Proof. unfold movable. rewrite zlen_cons. by intros [-> | [-> | ->]]. Qed.

Lemma bytes_is_unique_ok h x bs rest fp :
  storage h ((HBytes x, bs) :: rest) fp → bytes_is_unique x h = Ret (movable x rest, h).
Proof.
  intros Hst. unfold bytes_is_unique, promotable_is_unique, shared_is_unique.
  inversion Hst as [x' bs' Hv|l d x' off bs' Hl Hi Hd Hw Hb Hend|o l d rc xs Ho Hl Hi Hd Hne Hxs Hrc Hf| | |
    |o p d fp' n r rc xs Ho Hb Hof Hr Hxs Hrc Hf Hex|o p d fp' n rc xs Ho Hb Hof Hxs Hrc Hf]; subst.
  - destruct Hv as (Hvt & _). unfold movable. by rewrite Hvt.
  - rewrite (boxed_word_kind l x Hw). unfold movable. by destruct Hw as [(_ & -> & _)|(_ & -> & _)].
  - pose proof Hf as [(Hvt & Hdt & _) _]%Forall_cons. rewrite (movable_arc x rest Hvt), Hdt, kind_of_obj.
    rewrite zlen_cons in Ho.
    assert (E : (r ← on_ref_cnt (PObj o) atomic_load; ref_cnt ← response_val r; mret (ref_cnt =? 1)) h =
      Ret (1 + zlen rest =? 1, h)) by (by hstep (load_ref_cnt h o _ Ho)).
    by destruct Hvt as [-> | [-> | ->]].
  - pose proof Hf as [(Hvt & Hdt & _) _]%Forall_cons. unfold movable. rewrite Hvt, Hdt.
    rewrite zlen_cons in *. apply (is_unique_ok h o _ Ho).
  - apply Forall_cons in Hf as [(Hvt & _) _]. unfold movable. by rewrite Hvt.
Qed.

Lemma into_mut_move h x bs rest fp :
  storage h ((HBytes x, bs) :: rest) fp → (∀ l, l ∈ fp → (l < next_loc h)%nat) → movable x rest = true →
  ∃ m h' fp', bytes_into_mut x h = Ret (m, h') ∧ local_step h h' fp [([(HMut m, bs)], fp')] ∧
    m_ptr m = b_ptr x ∧ rest = [].
Proof.
  intros Hst Hlt Hmv. assert (rest = []) as ->.
  { apply zlen_0_nil. unfold movable in Hmv. destruct (b_vtable x); try done;
      rewrite zlen_cons in Hmv; apply Z.eqb_eq in Hmv; lia. }
  inversion Hst as [x' bs' Hv|l d x' off bs' Hl Hi Hd Hw Hb Hend|o l d rc xs Ho Hl Hi Hd Hne Hxs Hrc Hf| | |
    |o p d fp' n r rc xs Ho Hb Hof Hr Hxs Hrc Hf Hex|o p d fp' n rc xs Ho Hb Hof Hxs Hrc Hf]; subst.
  - destruct Hv as (Hvt & _). unfold movable in Hmv. by rewrite Hvt in Hmv.
  - destruct (into_mut_boxed h l d x off bs) as (m' & h' & fp' & E & Hloc & Hptr); try done; [set_solver|].
    by exists m', h', fp'.
  - pose proof Hf as [(Hvt & Hdt & off & Hb) _]%Forall_cons.
    destruct (into_mut_last h o l d x off bs) as (m' & h' & fp' & Em & Hloc & Hptr); try done.
    by exists m', h', fp'.
  - destruct (into_mut_sharedv h o p d fp' n r x bs) as (m' & Em & Hst' & Hptr); [done|].
    exists m', h, ({[o]} ∪ fp'). split; [done|]. split; [by apply local_same|done].
  - apply Forall_cons in Hf as [(Hvt & _) _]. unfold movable in Hmv. by rewrite Hvt in Hmv.
Qed.

Lemma into_mut_copy h x bs rest fp v h1 h2 m :
  storage h ((HBytes x, bs) :: rest) fp → movable x rest = false →
  to_vec bs h = Ret (v, h1) → bytes_drop x h1 = Ret (tt, h2) → bm_from_vec v h2 = Ret (m, h2) →
  bytes_into_mut x h = Ret (m, h2).
Proof.
  intros Hst Hmv E1 E2 E3. pose proof (storage_read h _ _ x bs Hst ltac:(by left)) as Hrd.
  unfold bytes_as_slice in Hrd.
  inversion Hst as [x' bs' Hv|l d x' off bs' Hl Hi Hd Hw Hb Hend|o l d rc xs Ho Hl Hi Hd Hne Hxs Hrc Hf| | |
    |o p d fp' n r rc xs Ho Hb Hof Hr Hxs Hrc Hf Hex|o p d fp' n rc xs Ho Hb Hof Hxs Hrc Hf]; subst.
  - destruct Hv as (Hvt & _). unfold bytes_into_mut, static_to_mut, bm_from_slice. rewrite Hvt.
    hstep Hrd. hstep E1. unfold bytes_drop in E2. rewrite Hvt in E2. by injection E2 as ->.
  - unfold movable in Hmv. by destruct Hw as [(_ & Hvt & _)|(_ & Hvt & _)]; rewrite Hvt in Hmv.
  - pose proof Hf as [(Hvt & Hdt & _) _]%Forall_cons. rewrite (movable_arc x rest Hvt) in Hmv.
    rewrite zlen_cons in Ho. rewrite (bytes_into_mut_arc h o x Hvt Hdt). unfold shared_to_mut_impl.
    hstep (load_ref_cnt h o _ Ho). cbn [response_val sh_ref_cnt]. hret. rewrite Hmv. hstep Hrd. hstep E1.
    rewrite (bytes_drop_arc h1 o x Hvt Hdt) in E2. by hstep E2.
  - pose proof Hf as [(Hvt & Hdt & _) _]%Forall_cons. unfold movable in Hmv. rewrite Hvt, zlen_cons in Hmv.
    rewrite zlen_cons in Ho. unfold bytes_into_mut, shared_v_to_mut. rewrite Hvt, Hdt.
    hstep (proj1 (is_unique_ok h o _ Ho)). cbn [sv_ref_count]. rewrite Hmv.
    hstep Hrd. hstep E1. unfold bytes_drop in E2. rewrite Hvt, Hdt in E2. by hstep E2.
  - pose proof Hf as [(Hvt & Hdt & _) _]%Forall_cons. unfold bytes_into_mut, owned_to_mut, owned_to_vec.
    rewrite Hvt, Hdt, hm_bind_assoc. hstep Hrd. rewrite hm_bind_assoc. hstep E1. rewrite hm_bind_assoc.
    unfold bytes_drop in E2. rewrite Hvt, Hdt in E2. by hstep E2.
Qed.

(** When the conversion moves the storage: no copy, the same address. *)
Lemma pool_into_mut_cases h x bs hcs :
  pool_ok h ((HBytes x, bs) :: hcs) → zlen ((HBytes x, bs) :: hcs) <= isize_max →
  ∃ b m h', bytes_is_unique x h = Ret (b, h) ∧ bytes_into_mut x h = Ret (m, h') ∧
    pool_ok h' ((HMut m, bs) :: hcs) ∧
    if b : bool
    then borrowed_vtable (b_vtable x) = false ∧ Forall (λ y, ¬ same_storage (HBytes x) y.1) hcs ∧ m_ptr m = b_ptr x
    else borrowed_vtable (b_vtable x) = true ∨ Exists (λ y, same_storage (HBytes x) y.1) hcs.
Proof.
  intros Hpool Hmax.
  destruct (pool_copy_to_mut h x bs hcs Hpool Hmax) as (v & h1 & h2 & m & E1 & E2 & E3 & Hp').
  apply pool_focus in Hpool as (rest & fp & gs & Hwf & Hp).
  pose proof (wf_storage _ _ _ _ Hwf) as Hst. pose proof (λ l, wf_fresh h _ fp gs l Hwf) as Hlt.
  pose proof (sharing_rest h (HBytes x, bs) rest fp gs hcs Hwf Hp) as Hsh. cbn [fst] in Hsh.
  exists (movable x rest). destruct (movable x rest) eqn:Hmv.
  - destruct (into_mut_move h x bs rest fp Hst Hlt Hmv) as (m' & h' & fp' & E & Hloc & Hptr & Hnil). subst rest.
    exists m', h'. split; [rewrite <- Hmv; by eapply bytes_is_unique_ok|]. split; [done|].
    split; [by apply (pool_replace _ _ _ _ _ _ [(HMut m', bs)] [] hcs Hwf Hloc)|].
    destruct Hsh as [(_ & Hsh)|[[] _]]; [|done]. split; [|done].
    unfold movable in Hmv. by destruct (b_vtable x).
  - exists m, h2. split; [rewrite <- Hmv; by eapply bytes_is_unique_ok|].
    split; [by eapply into_mut_copy|]. split; [done|].
    destruct Hsh as [(-> & _)|(_ & Hsh)]; [left|by right]. unfold movable in Hmv. by destruct (b_vtable x).
Qed.

Lemma pool_into_mut h x bs hcs :
  pool_ok h ((HBytes x, bs) :: hcs) → zlen ((HBytes x, bs) :: hcs) <= isize_max →
  ∃ m h', bytes_into_mut x h = Ret (m, h') ∧ pool_ok h' ((HMut m, bs) :: hcs).
Proof.
  intros Hpool Hmax. destruct (pool_into_mut_cases h x bs hcs Hpool Hmax) as (b & m & h' & _ & E & Hp & _).
  by exists m, h'.
Qed.

Lemma pool_try_into_mut h x bs hcs :
  pool_ok h ((HBytes x, bs) :: hcs) → zlen ((HBytes x, bs) :: hcs) <= isize_max →
  (borrowed_vtable (b_vtable x) = false ∧ Forall (λ y, ¬ same_storage (HBytes x) y.1) hcs ∧
   ∃ m h', try_into_mut x h = Ret (Ok m, h') ∧ pool_ok h' ((HMut m, bs) :: hcs) ∧ m_ptr m = b_ptr x) ∨
  ((borrowed_vtable (b_vtable x) = true ∨ Exists (λ y, same_storage (HBytes x) y.1) hcs) ∧
   try_into_mut x h = Ret (Err x, h)).
Proof.
  intros Hpool Hmax. unfold try_into_mut.
  destruct (pool_into_mut_cases h x bs hcs Hpool Hmax) as ([] & m & h' & E & Em & Hp & H); hstep E; [left|by right].
  destruct H as (H1 & H2 & Hptr). split; [done|]. split; [done|]. exists m, h'. by hstep Em.
Qed.

End share.
