(* ===== verification/BytesMutJoin.v ===== *)
(** * BytesMutJoin: [unsplit] of [BytesMut]

    Two handles that follow one another in the same vector are joined without a copy;
    otherwise the bytes of the second are appended to the first. *)

From S2P Require Import Prelude Machine Loom Heap Bytes BytesMut BytesInv BytesOps BytesPool.
From S2P Require Import BytesMutOps BytesMutReserve BytesMutPool BytesMutShare.
From stdpp Require Import fin_maps fin_sets.
Open Scope Z_scope.

Section join.
Context `{T : Target, A : Allocator}.

(** The box a handle points to belongs to its group. *)
Lemma storage_obj h xs fp m bs o :
  storage h xs fp → (HMut m, bs) ∈ xs → m_data m = PObj o → o ∈ fp.
Proof. intros Hst Hin Hd. eapply counted_in_storage; [done|done|]. cbn. by rewrite Hd. Qed.

(** Two handles on the same box are in the same group. *)
Lemma pool_focus_two h m1 b1 m2 b2 hcs o :
  pool_ok h ((HMut m1, b1) :: (HMut m2, b2) :: hcs) → m_data m1 = PObj o → m_data m2 = PObj o →
  ∃ rest fp gs, wf h (((HMut m1, b1) :: (HMut m2, b2) :: rest, fp) :: gs) ∧ hcs ≡ₚ rest ++ concat (fst <$> gs).
Proof.
  intros (rest0 & fp & gs & Hwf & Hp)%pool_focus Hd1 Hd2. pose proof Hwf as (Hst & [Hsep _] & _).
  apply Forall_cons in Hst as [Hst Hgs]. cbn [fst snd] in *.
  assert (Hin : (HMut m2, b2) ∈ rest0 ++ concat (fst <$> gs)) by (rewrite <- Hp; by left).
  apply elem_of_app in Hin as [[rest Hrest]%elem_of_Permutation|Hin].
  - exists rest, fp, gs. split.
    + destruct Hwf as (_ & Hrest'). split; [|exact Hrest']. apply Forall_cons. split; [|done].
      eapply storage_perm; [exact Hst|]. by rewrite Hrest.
    + rewrite Hrest in Hp. by apply Permutation_cons_inv in Hp.
  - exfalso. apply list_elem_of_In, in_concat in Hin as (xs & Hxs & Hx).
    apply list_elem_of_In, list_elem_of_fmap in Hxs as (g & -> & Hg). apply list_elem_of_In in Hx.
    rewrite Forall_forall in Hgs. pose proof (storage_obj _ _ _ _ _ _ (Hgs g Hg) Hx Hd2) as H2.
    pose proof (storage_obj _ _ _ m1 b1 _ Hst ltac:(by left) Hd1) as H1.
    apply (Hsep o H1). apply elem_footprint. eauto.
Qed.

(** The handle over both parts. *)
Definition joined (m1 m2 : BytesMut) : BytesMut :=
  with_view m1 (m_ptr m1) (m_len m1 + m_len m2) (m_cap m1 + m_cap m2).

(** Adjacent views in one vector: the first is full, and they join. *)
Lemma join_views h p d fp m1 b1 off1 m2 b2 off2 :
  vbuf h p d fp → mut_view p d m1 off1 b1 → mut_view p d m2 off2 b2 → apart (HMut m1) (HMut m2) →
  ptr_addr (ptr_add (m_ptr m1) (m_len m1)) = ptr_addr (m_ptr m2) → zlen b1 ≠ 0 → m_cap m2 ≠ 0 →
  off2 = off1 + zlen b1 ∧ m_cap m1 = zlen b1 ∧ mut_view p d (joined m1 m2) off1 (b1 ++ b2).
Proof.
  intros Hb H1 H2 Hap Haddr Hne1 Hne2.
  destruct (mut_range h p d fp m1 off1 b1 Hb H1) as [Hlo1 Hhi1].
  destruct (mut_range h p d fp m2 off2 b2 Hb H2) as [Hlo2 Hhi2].
  specialize (Hap (or_introl I)). rewrite Hlo1, Hhi1, Hlo2, Hhi2 in Hap.
  destruct H1 as ((Hp1 & Ho1 & Hle1 & E1) & Hl1 & Hc1 & Hd1).
  destruct H2 as ((Hp2 & Ho2 & Hle2 & E2) & Hl2 & Hc2 & Hd2).
  pose proof (zlen_nonneg b1). pose proof (zlen_nonneg b2).
  assert (Hoff : off2 = off1 + zlen b1).
  { rewrite Hp1, Hp2, Hl1, ptr_add_add in Haddr. destruct Hb as [l d' Hl|]; cbn in Haddr; lia. }
  split; [done|]. split; [lia|]. split; [|cbn; rewrite Hl1, Hl2, zlen_app; split; [done|lia]]. cbn.
  split; [done|]. split; [done|]. rewrite zlen_app. split; [lia|].
  rewrite <- ztake_zdrop_split, zdrop_zdrop, <- Hoff, E1, E2 by lia. by rewrite fmap_app.
Qed.

Lemma apart_joined h p d fp m1 b1 off1 m2 b2 z :
  vbuf h p d fp → mut_view p d m1 off1 b1 → mut_view p d m2 (off1 + zlen b1) b2 → m_cap m1 = zlen b1 →
  mut_view p d (joined m1 m2) off1 (b1 ++ b2) → zlen b1 ≠ 0 → m_cap m2 ≠ 0 →
  apart (HMut m1) z → apart (HMut m2) z → apart (HMut (joined m1 m2)) z.
Proof.
  intros Hb H1 H2 Hc1 H12 Hne1 Hne2 Ha1 Ha2 _.
  destruct (mut_range _ _ _ _ _ _ _ Hb H1) as [Hlo1 Hhi1].
  destruct (mut_range _ _ _ _ _ _ _ Hb H2) as [Hlo2 Hhi2].
  destruct (mut_range _ _ _ _ _ _ _ Hb H12) as [Hlo3 Hhi3].
  specialize (Ha1 (or_introl I)). specialize (Ha2 (or_introl I)).
  rewrite Hlo1, Hhi1 in Ha1. rewrite Hlo2, Hhi2 in Ha2. rewrite Hlo3, Hhi3. cbn.
  destruct H2 as (_ & _ & Hc2 & _). pose proof (zlen_nonneg b1). pose proof (zlen_nonneg b2). lia.
Qed.

Lemma mut_join h m1 b1 m2 b2 rest fp o :
  storage h ((HMut m1, b1) :: (HMut m2, b2) :: rest) fp → m_data m1 = PObj o → m_data m2 = PObj o →
  zlen ((HMut m1, b1) :: (HMut m2, b2) :: rest) <= isize_max →
  ptr_addr (ptr_add (m_ptr m1) (m_len m1)) = ptr_addr (m_ptr m2) → zlen b1 ≠ 0 → m_cap m2 ≠ 0 →
  ∃ h', bm_drop m2 h = Ret (tt, h') ∧ local_step h h' fp [((HMut (joined m1 m2), b1 ++ b2) :: rest, fp)].
Proof.
  intros Hst Hd1 Hd2 Hmax Haddr Hne1 Hne2.
  apply storage_mut_inv in Hst as [(E & _)|(o' & p & d & fp' & n & r & -> & Ho & Hb & Hof & Hr & Hf & Hex)]; [done|].
  apply Forall_cons in Hf as [(Hd1' & off1 & Hv1) Hf]. assert (o' = o) as -> by congruence.
  apply Forall_cons in Hf as [(_ & off2 & Hv2) Hf]. destruct Hex as ([Ha12 Ha1]%Forall_cons & Ha2 & Hex).
  destruct (join_views h p d fp' m1 b1 off1 m2 b2 off2) as (-> & Hc1 & Hv12); try done.
  rewrite !zlen_cons in Ho, Hmax. pose proof (zlen_nonneg rest).
  pose proof (release_shared_v_many h o _ Ho) as E. cbn [sv_ref_count] in E. specialize (E ltac:(lia)).
  eexists. split; [unfold bm_drop; rewrite (bm_kind_arc m2 o Hd2), Hd2; exact E|].
  eapply sharedv_recount; try done.
  - unfold with_count. cbn. f_equal. rewrite !zlen_cons. lia.
  - apply Forall_cons. split; [|done]. split; [done|]. by exists off1.
  - split; [|done]. rewrite Forall_forall in Ha1, Ha2 |- *. intros z Hz. cbn [fst].
    eapply apart_joined; try done; [by apply Ha1|by apply Ha2].
Qed.

Lemma kind_arc_obj h m bs hcs :
  pool_ok h ((HMut m, bs) :: hcs) → bm_kind m = KIND_ARC → ∃ o, m_data m = PObj o.
Proof.
  intros (rest & fp & gs & Hwf & _)%pool_focus Hk. apply wf_storage, storage_mut_inv in Hwf as
    [(_ & p & d & off & r & _ & _ & _ & Hd & _)|
     (o' & p & d & fp' & n & r & -> & _ & _ & _ & _ & [(Hd' & _) _]%Forall_cons & _)]; [|by eexists].
  rewrite (bm_kind_vec m r off Hd) in Hk. done.
Qed.

(** [try_unsplit] of a non-empty handle: the two are joined, or the second comes back. *)
Lemma pool_try_unsplit h m1 b1 m2 b2 hcs :
  pool_ok h ((HMut m1, b1) :: (HMut m2, b2) :: hcs) →
  zlen ((HMut m1, b1) :: (HMut m2, b2) :: hcs) <= isize_max → zlen b1 ≠ 0 →
  (∃ m h', try_unsplit m1 m2 h = Ret ((Ok tt, m), h') ∧ pool_ok h' ((HMut m, b1 ++ b2) :: hcs)) ∨
  try_unsplit m1 m2 h = Ret ((Err m2, m1), h).
Proof.
  intros Hpool Hmax Hne1. pose proof (pool_mut_len _ _ _ _ Hpool) as (Hl1 & Hc1 & _).
  assert (Hpool2 : pool_ok h ((HMut m2, b2) :: (HMut m1, b1) :: hcs)) by
    (eapply pool_perm; [apply Permutation_swap|done]).
  pose proof (pool_mut_len _ _ _ _ Hpool2) as (Hl2 & Hc2 & _). pose proof (zlen_nonneg b2).
  unfold try_unsplit. destruct (Z.eqb_spec (m_cap m2) 0) as [Hz|Hne2].
  { left. assert (b2 = []) as -> by (apply zlen_0_nil; lia).
    destruct (pool_drop h (HMut m2) _ _ Hpool2) as (h' & E & Hp'); [by rewrite !zlen_cons in *|].
    cbn [drop_handle] in E. exists m1, h'. rewrite app_nil_r. by hstep E. }
  cbv zeta. destruct (ptr_eqb _ _ && _ && _ && _) eqn:Eb; [|by right]. left.
  apply andb_prop in Eb as [Eb Hsame%bool_decide_eq_true_1]. apply andb_prop in Eb as [Eb _].
  apply andb_prop in Eb as [Haddr%Z.eqb_eq Hk%Z.eqb_eq].
  destruct (kind_arc_obj _ _ _ _ Hpool Hk) as [o Hd1]. assert (Hd2 : m_data m2 = PObj o) by congruence.
  destruct (pool_focus_two _ _ _ _ _ _ _ Hpool Hd1 Hd2) as (rest & fp & gs & Hwf & Hp).
  destruct (mut_join h m1 b1 m2 b2 rest fp o) as (h' & E & Hloc); try done.
  { by eapply wf_storage. }
  { apply Permutation_length in Hp. rewrite length_app in Hp. unfold zlen in *. cbn in *. lia. }
  pose proof usize_isize_max.
  assert (U1 : uadd (m_len m1) (m_len m2) = Ret (m_len m1 + m_len m2)) by (apply uadd_ok; lia).
  assert (U2 : uadd (m_cap m1) (m_cap m2) = Ret (m_cap m1 + m_cap m2)) by (apply uadd_ok; lia).
  hstep (lift_ok _ _ h U1). hstep (lift_ok _ _ h U2). hstep E.
  eexists _, h'. split; [reflexivity|].
  eapply (pool_replace _ _ _ _ _ _ [_] rest hcs Hwf Hloc); [|done]. cbn. by rewrite app_nil_r.
Qed.

Lemma pool_unsplit h m1 b1 m2 b2 hcs :
  pool_ok h ((HMut m1, b1) :: (HMut m2, b2) :: hcs) →
  zlen ((HMut m1, b1) :: (HMut m2, b2) :: hcs) <= isize_max →
  (∃ m h', unsplit m1 m2 h = Ret (m, h') ∧ pool_ok h' ((HMut m, b1 ++ b2) :: hcs)) ∨
  out_of_room (unsplit m1 m2 h) h m1 (zlen b2).
Proof.
  intros Hpool Hmax. pose proof (pool_mut_len _ _ _ _ Hpool) as (Hl1 & Hc1 & _).
  assert (Hpool2 : pool_ok h ((HMut m2, b2) :: (HMut m1, b1) :: hcs)) by
    (eapply pool_perm; [apply Permutation_swap|done]).
  unfold unsplit. rewrite Hl1. destruct (Z.eqb_spec (zlen b1) 0) as [Hz|Hne1].
  { left. apply zlen_0_nil in Hz as ->.
    destruct (pool_drop h (HMut m1) _ _ Hpool) as (h' & E & Hp'); [done|].
    cbn [drop_handle] in E. exists m2, h'. by hstep E. }
  destruct (pool_try_unsplit h m1 b1 m2 b2 hcs Hpool Hmax Hne1) as [(m & h' & E & Hp')|E].
  { left. exists m, h'. by hstep E. }
  rewrite (hm_bind_Ret _ _ _ _ _ E). cbv beta iota. hstep (pool_mut_read _ _ _ _ Hpool2).
  destruct (pool_extend h m1 b1 _ b2 Hpool Hmax) as [(m' & h1 & Ee & Hp1 & _)|H].
  2: { right. destruct H as (Hh & Hc & f & Ee & Hf). split; [done|]. split; [done|].
       exists f. split; [by rewrite (hm_bind_Fault _ _ _ _ Ee)|done]. }
  hstep Ee. eapply pool_perm in Hp1; [|apply Permutation_swap].
  destruct (pool_drop h1 (HMut m2) _ _ Hp1) as (h2 & Ed & Hp2); [by rewrite !zlen_cons in *|].
  cbn [drop_handle] in Ed. hstep Ed. left. by exists m', h2.
Qed.

(** ** Splitting and joining again *)

(** What [unsplit] does with the two halves of a split: it drops one of them. *)
Lemma unsplit_halves m o n h :
  m_data m = PObj o → 0 <= n <= m_len m → m_len m <= m_cap m <= isize_max →
  let m1 := with_view m (m_ptr m) (Z.min (m_len m) n) n in
  let m2 := moved_on m n in
  ∃ x y, unsplit m1 m2 h = (_ ← bm_drop x; mret y) h ∧ (x = m1 ∨ x = m2) ∧
    m_ptr y = m_ptr m ∧ m_len y = m_len m ∧ m_cap y = m_cap m.
Proof.
  intros Hd Hn Hc m1 m2. pose proof usize_isize_max. unfold unsplit, m1, m2, moved_on, saturating_sub.
  cbn [m_len m_cap m_ptr m_data with_view]. rewrite Z.min_r by lia. destruct (Z.eqb_spec n 0) as [->|Hne].
  { eexists _, _. split; [reflexivity|]. split; [by left|]. cbn [m_ptr m_len m_cap with_view]. rewrite ptr_add_0. split; [done|]. lia. }
  unfold try_unsplit. cbn [m_len m_cap m_ptr m_data with_view].
  destruct (Z.eqb_spec (m_cap m - n) 0) as [Hz|Hnz].
  { eexists _, (with_view m (m_ptr m) n n). split; [by rewrite hm_bind_assoc|]. split; [by right|]. cbn [m_ptr m_len m_cap with_view]. split; [done|]. lia. }
  unfold ptr_eqb, bm_kind. cbn [m_data with_view]. rewrite Hd, Z.eqb_refl. cbn [ptr_addr].
  unfold KIND_MASK, KIND_ARC. rewrite obj_addr_even, Z.eqb_refl, bool_decide_true by done. cbn [andb].
  rewrite Z.max_l by lia.
  set (m2' := with_view m (ptr_add (m_ptr m) n) (m_len m - n) (m_cap m - n)).
  set (y := with_view m (m_ptr m) (n + (m_len m - n)) (n + (m_cap m - n))).
  exists m2', y. split.
  - assert (U1 : uadd n (m_len m - n) = Ret (n + (m_len m - n))) by (apply uadd_ok; lia).
    assert (U2 : uadd n (m_cap m - n) = Ret (n + (m_cap m - n))) by (apply uadd_ok; lia).
    rewrite U1, hm_bind_assoc, hm_bind_lift. rewrite U2, hm_bind_assoc, hm_bind_lift.
    by rewrite hm_bind_assoc.
  - split; [by right|]. unfold y. cbn [m_ptr m_len m_cap with_view]. split; [done|]. lia.
Qed.

End join.
