(* ===== verification/BytesMutReclaim.v ===== *)
(** * BytesMutReclaim: when [try_reclaim] succeeds

    A buffer that other handles share is never reclaimed; once the last of them is
    gone, a handle whose bytes do not reach past the free space in front of them gets
    the whole vector back. *)

From S2P Require Import Prelude Machine Loom Heap Bytes BytesMut BytesInv BytesOps BytesPool.
From S2P Require Import BytesMutOps BytesMutReserve BytesMutPool BytesMutShare.
From stdpp Require Import fin_maps fin_sets.
Open Scope Z_scope.

Section reclaim.
Context `{T : Target, A : Allocator}.

(** The arc representation, up to the question who else is there. *)
Lemma reserve_inner_arc h m o p d fp n r bs rest k :
  shares_vec h o p d fp n r ((HMut m, bs) :: rest) → 0 <= k → zlen bs + k <= usize_max →
  reserve_inner m k false h =
    (if zlen rest =? 0 then reserve_inner_unique m (PObj o) (zlen bs + k) false else mret (false, m)) h.
Proof.
  intros (Ho & Hb & Hof & Hr & [(Hd & off & Hv) _]%Forall_cons & _) Hk Hmax.
  pose proof Hv as (_ & Hl & _). unfold reserve_inner. rewrite (bm_kind_arc m o Hd). cbv zeta.
  change (KIND_ARC =? KIND_VEC) with false. cbv iota.
  rewrite (hm_bind_Ret _ _ _ tt h) by (by apply hdebug_assert_ok).
  unfold checked_add. rewrite Hl, Hd, (proj2 (Z.leb_le _ _)) by lia.
  hstep (proj1 (is_unique_ok h o _ Ho)). cbn [sv_ref_count]. rewrite zlen_cons.
  destruct (Z.eqb_spec (1 + zlen rest) 1), (Z.eqb_spec (zlen rest) 0); try lia; done.
Qed.

Lemma reclaim_alone h o p d fp n r m off bs k :
  shares_vec h o p d fp n r [(HMut m, bs)] → mut_view p d m off bs → zlen bs <= off →
  0 <= k → zlen bs + k <= zlen d →
  ∃ m' h', reserve_inner m k false h = Ret ((true, m'), h').
Proof.
  intros Hsh Hv Hoff Hk Hfit. pose proof Hsh as (Ho & Hb & _).
  pose proof Hv as ((Hp & ? & _) & Hl & Hc & Hle). pose proof (vbuf_size _ _ _ _ Hb).
  pose proof usize_isize_max. pose proof isize_max_pos. pose proof (zlen_nonneg bs).
  pose proof (vbuf_addr h p d fp 0 Hb ltac:(lia)) as Ha. rewrite ptr_add_0 in Ha.
  rewrite (reserve_inner_arc h m o p d fp n r bs [] k Hsh Hk) by lia. rewrite zlen_nil, Z.eqb_refl.
  unfold reserve_inner_unique. hstep (get_vec_ok h o _ Ho). cbn [sv_vec hv_ptr hv_cap hv_len]. cbv zeta.
  assert (Eo : offset_from (m_ptr m) p h = Ret (off, h)) by (rewrite Hp; eapply vbuf_offset_from; [done|lia]).
  hstep Eo. unfold checked_add. rewrite Hl, (proj2 (Z.leb_le (_ + _ + off) _)) by lia.
  destruct (Z.leb_spec (zlen bs + k + off) (zlen d)); [by eexists _, h|].
  rewrite !(proj2 (Z.leb_le _ _)) by lia. cbn [andb].
  destruct (copy_back_ok h p d fp (m_ptr m) off bs Hb (proj1 Hv)) as (h' & E & _); [lia|].
  hstep E. hstep (vptr_ok p h' Ha). by eexists _, h'.
Qed.

(** The last handle on a box, with no bytes to move. *)
Lemma pool_reclaim_last h m hcs o s k :
  pool_ok h ((HMut m, []) :: hcs) → zlen ((HMut m, []) :: hcs) <= isize_max →
  m_data m = PObj o → cells h !! o = Some (CSharedV s) → sv_ref_count s = 1 →
  0 <= k <= hv_cap (sv_vec s) →
  ∃ m' h', try_reclaim m k h = Ret ((true, m'), h') ∧ pool_ok h' ((HMut m', []) :: hcs) ∧ k <= m_cap m'.
Proof.
  intros Hpool Hmax Hd Ho Hone Hk. pose proof (pool_mut_len _ _ _ _ Hpool) as (Hl & Hc & _).
  destruct (pool_try_reclaim h m [] hcs k Hpool Hmax) as (b & m' & h' & E & Hp' & Hb).
  exists m', h'. enough (b = true) as -> by done.
  unfold try_reclaim in E. cbv zeta in E. rewrite usub_ok, hm_bind_lift in E by lia.
  destruct (Z.leb_spec k (m_cap m - m_len m)); [by injection E as <- _ _|].
  apply pool_focus in Hpool as (rest & fp & gs & Hwf & _). apply wf_storage in Hwf.
  apply storage_mut_inv in Hwf as [(_ & p & d & off & r & _ & _ & _ & Hd' & _)|
    (o' & p & d & fp' & n & r & -> & Hsh)]; [unfold vec_word in Hd'; congruence|].
  pose proof Hsh as (Ho' & _ & _ & _ & [(Hd' & off & Hv) _]%Forall_cons & _).
  assert (o' = o) as -> by congruence. rewrite Ho in Ho'. injection Ho' as ->. cbn in *.
  rewrite zlen_cons in Hone. assert (rest = []) as -> by (apply zlen_0_nil; lia).
  pose proof Hv as ((Hp & H0 & _) & _).
  destruct (reclaim_alone h o p d fp' n r m off [] k Hsh Hv) as (m1 & h1 & E1); [done|lia|zlia|].
  rewrite E1 in E. by injection E as <- _ _.
Qed.

Lemma pool_reclaim_shared h m bs hcs k :
  pool_ok h ((HMut m, bs) :: hcs) → zlen ((HMut m, bs) :: hcs) <= isize_max →
  Exists (λ y, same_storage (HMut m) y.1) hcs → m_cap m - m_len m < k →
  try_reclaim m k h = Ret ((false, m), h).
Proof.
  intros Hpool Hmax Hsame Hk. pose proof (pool_mut_len _ _ _ _ Hpool) as (Hl & Hc & _).
  unfold try_reclaim. cbv zeta. rewrite usub_ok, hm_bind_lift by lia. rewrite (proj2 (Z.leb_gt _ _)) by lia.
  apply pool_focus in Hpool as (rest & fp & gs & Hwf & Hp).
  assert (Hrest : rest ≠ []).
  { destruct (sharing_rest _ _ _ _ _ _ Hwf Hp) as [(_ & Hno)|(H & _)]; [|done].
    rewrite Exists_exists in Hsame. destruct Hsame as (y & Hy & Hs).
    rewrite Forall_forall in Hno. by destruct (Hno y Hy). }
  apply wf_storage in Hwf. apply storage_mut_inv in Hwf as [(-> & _)|(o & p & d & fp' & n & r & -> & Hsh)]; [done|].
  destruct (Z.leb_spec (zlen bs + k) usize_max) as [Hm|Hm].
  - rewrite (reserve_inner_arc h m o p d fp' n r bs rest k Hsh) by lia.
    destruct (Z.eqb_spec (zlen rest) 0) as [E|E]; [by apply zlen_0_nil in E|done].
  - pose proof Hsh as (_ & _ & _ & _ & [(Hd & _) _]%Forall_cons & _).
    unfold reserve_inner. rewrite (bm_kind_arc m o Hd). cbv zeta.
    change (KIND_ARC =? KIND_VEC) with false. cbv iota.
    rewrite (hm_bind_Ret _ _ _ tt h) by (by apply hdebug_assert_ok).
    unfold checked_add. by rewrite Hl, (proj2 (Z.leb_gt _ _)) by lia.
Qed.

(** A handle that owns its vector, split at its length: both halves count in a new box. *)
Lemma split_owned h m bs hcs :
  pool_ok h ((HMut m, bs) :: hcs) → zlen ((HMut m, bs) :: hcs) <= isize_max → bm_kind m = KIND_VEC →
  ∃ front back o s h1, bm_split m h = Ret ((front, back), h1) ∧
    m_data front = PObj o ∧ m_data back = PObj o ∧ m_cap back = m_cap m - m_len m ∧
    cells h1 !! o = Some (CSharedV s) ∧ sv_ref_count s = 2 ∧ m_cap m <= hv_cap (sv_vec s) ∧
    pool_ok h1 ((HMut back, []) :: (HMut front, bs) :: hcs).
Proof.
  intros Hpool Hmax Hk. pose proof (pool_mut_len _ _ _ _ Hpool) as (Hl & Hc & _).
  destruct (pool_mut_split h m bs hcs (m_len m) Hpool Hmax) as
    (m1 & h1 & o & E & H1 & H2 & H3 & Hd & E2 & Hp); [pose proof (zlen_nonneg bs); lia|].
  apply pool_focus in Hpool as (rest & fp & gs & Hwf & _). apply wf_storage in Hwf.
  apply storage_mut_inv in Hwf as [(_ & p & d & off & r & Hb & Hv & Hend & Hw & Hr & _)|
    (o' & p & d & fp' & n & r & _ & _ & _ & _ & _ & [(Hd' & _) _]%Forall_cons & _)];
    [|by rewrite (bm_kind_arc m o' Hd') in Hk].
  pose proof Hv as ((Hptr & Ho & _) & _).
  pose proof (promote_ok h p d fp m off r 2 Hb Hptr Hend ltac:(lia) Hw Hr (or_intror eq_refl)) as Ep.
  assert (Es := E). unfold shallow_clone in Es. rewrite Hk in Es. change (KIND_VEC =? KIND_ARC) with false in Es.
  cbv iota in Es. rewrite (hm_bind_Ret _ _ _ _ _ Ep) in Es. injection Es as Em _ Eh.
  assert (Eo : PObj (next_loc h) = PObj o) by (rewrite <- Hd, <- Em; done). injection Eo as Eo.
  eexists (with_view m1 (m_ptr m1) (m_len m) (m_len m)), (moved_on m1 (m_len m)), o, _, h1. split.
  { unfold bm_split, bm_split_to. cbv zeta. rewrite (hm_bind_Ret _ _ _ tt h) by (apply hassert_ok, Z.leb_refl).
    hstep E. by hstep E2. }
  split; [done|]. split; [done|]. split; [cbn; by rewrite H2|].
  split; [rewrite <- Eh, <- Eo; apply lookup_insert_eq|]. split; [done|]. split; [cbn; lia|].
  eapply pool_perm; [apply Permutation_swap|]. rewrite ztake_ge, zdrop_ge, H1, Z.min_id in Hp by lia. exact Hp.
Qed.

Lemma drop_counted h m o s :
  m_data m = PObj o → cells h !! o = Some (CSharedV s) → sv_ref_count s = 2 →
  bm_drop m h = Ret (tt, heap_insert o (CSharedV (with_count s (sv_ref_count s - 1))) h).
Proof.
  intros Hd Ho Hrc. unfold bm_drop. rewrite (bm_kind_arc m o Hd). cbv zeta. change (KIND_ARC =? KIND_VEC) with false.
  cbv iota. rewrite Z.eqb_refl, Hd. apply release_shared_v_many; [done|].
  pose proof usize_max_ge. pose proof usize_isize_max. lia.
Qed.

End reclaim.
