(* ===== verification/HBuf.v ===== *)
(** * HBuf: reading from shared storage, [copy_to_bytes] and [BytesMut::put]

    The trait [Buf] once more, for sources that live on the heap ([Bytes], [BytesMut] and
    the adapters around them): the methods run in [HM].  [HBufCore] holds the required
    methods and the destructor, [HBuf] adds [copy_to_bytes]
    (src/patches/bytes/src/buf/buf_impl.rs, chain.rs, take.rs, bytes.rs, bytes_mut.rs).
    Slices, cursors and queues are sources too, through their methods of Buf.v.

    [BytesMut::put] calls [copy_to_bytes] of its source when it has no memory of its own,
    and the provided [copy_to_bytes] calls [put] on a new [BytesMut]: the recursion is on
    a fuel, and HBufSpec.v shows that one round is enough for every source. *)

From S2P Require Import Prelude Machine Buf BufSpec BufSources BufAdapters Loom Heap Bytes BytesMut.
Open Scope Z_scope.

Class HBufCore (B : Type) := {
  hremaining : B → Z;
  hchunk : B → HM (list byte);
  hadvance : B → Z → HM B;
  hdrop : B → HM unit;               (* [drop] of a source passed by value *)
}.

(** A [&mut B] passed by value: reading goes to the buffer behind it and dropping it
    leaves that buffer alone. *)
Record RefMut (B : Type) := { referent : B }.
Arguments referent {B} _.
Arguments Build_RefMut {B} _.

(** ** The required methods *)
Section cores.
Context `{T : Target, AL : Allocator}.

(** A source of Buf.v; its bytes are not on this heap. *)
Definition plain_core {B} `{!Buf B} : HBufCore B := {|
  hremaining := remaining;
  hchunk := λ self, mret (chunk self);
  hadvance := λ self cnt, lift (advance self cnt);
  hdrop := λ _, mret tt |}.

#[export] Instance bytes_hcore : HBufCore Bytes := {
  hremaining := b_len;
  hchunk := bytes_as_slice;
  hadvance := bytes_advance;
  hdrop := bytes_drop;
}.

#[export] Instance bm_hcore : HBufCore BytesMut := {
  hremaining := m_len;
  hchunk := bm_as_slice;
  hadvance := bm_advance;
  hdrop := bm_drop;
}.

#[export] Instance ref_hcore {B} `{!HBufCore B} : HBufCore (RefMut B) := {
  hremaining self := hremaining (referent self);
  hchunk self := hchunk (referent self);
  hadvance self cnt := b ← hadvance (referent self) cnt; mret (Build_RefMut b);
  hdrop _ := mret tt;
}.

#[export] Instance boxed_hcore {B} `{!HBufCore B} : HBufCore (Boxed B) := {
  hremaining self := hremaining (deref self);
  hchunk self := hchunk (deref self);
  hadvance self cnt := b ← hadvance (deref self) cnt; mret (Build_Boxed b);
  hdrop self := hdrop (deref self);
}.

Definition hhas_remaining {B} `{!HBufCore B} (self : B) : bool := 0 <? hremaining self.

Section chain.
Context {B C : Type} `{!HBufCore B, !HBufCore C}.

Definition hchain_advance (self : Chain B C) (cnt : Z) : HM (Chain B C) :=
  let a_rem := hremaining (chain_a self) in
  if negb (a_rem =? 0) then
    if cnt <=? a_rem then
      a ← hadvance (chain_a self) cnt;
      mret (Build_Chain a (chain_b self))
    else
      a ← hadvance (chain_a self) a_rem;
      cnt ← lift (usub cnt a_rem);
      b ← hadvance (chain_b self) cnt;
      mret (Build_Chain a b)
  else
    b ← hadvance (chain_b self) cnt;
    mret (Build_Chain (chain_a self) b).

#[export] Instance chain_hcore : HBufCore (Chain B C) := {
  hremaining self := saturating_add (hremaining (chain_a self)) (hremaining (chain_b self));
  hchunk self := if hhas_remaining (chain_a self) then hchunk (chain_a self) else hchunk (chain_b self);
  hadvance := hchain_advance;
  hdrop self := _ ← hdrop (chain_a self); hdrop (chain_b self);
}.
End chain.

Section take.
Context {B : Type} `{!HBufCore B}.

Definition htake_chunk (self : Take B) : HM (list byte) :=
  bytes ← hchunk (take_inner self);
  mret (ztake (Z.min (zlen bytes) (take_limit self)) bytes).

Definition htake_advance (self : Take B) (cnt : Z) : HM (Take B) :=
  _ ← hassert (cnt <=? take_limit self);
  inner ← hadvance (take_inner self) cnt;
  limit ← lift (usub (take_limit self) cnt);
  mret (Build_Take inner limit).

#[export] Instance take_hcore : HBufCore (Take B) := {
  hremaining self := Z.min (hremaining (take_inner self)) (take_limit self);
  hchunk := htake_chunk;
  hadvance := htake_advance;
  hdrop self := hdrop (take_inner self);
}.
End take.

(** ** [BytesMut::put] *)

(** The loop [while src.has_remaining()]; each round reads at least one byte of a lawful
    source. *)
Fixpoint bm_put_loop {B} `{!HBufCore B} (fuel : nat) (self : BytesMut) (src : B) : HM (BytesMut * B) :=
  if hhas_remaining src then
    match fuel with
    | O => hfault Diverge
    | S fuel =>
      s ← hchunk src;
      let l := zlen s in
      self ← bm_extend_from_slice self s;
      src ← hadvance src l;
      bm_put_loop fuel self src
    end
  else mret (self, src).

(** [put], given [src.copy_to_bytes].  [src] is dropped before the allocation of its copy
    is taken over, and at the end otherwise; the value returned beside [self] is what is
    left behind a source that is a reference. *)
Definition bm_put_with {B} `{!HBufCore B} (src_copy_to_bytes : B → Z → HM (Bytes * B))
    (self : BytesMut) (src : B) : HM (BytesMut * B) :=
  if negb (hhas_remaining src) then
    _ ← hdrop src;
    mret (self, src)
  else if m_cap self =? 0 then
    '(src_copy, src) ← src_copy_to_bytes src (hremaining src);
    _ ← hdrop src;
    r ← try_into_mut src_copy;
    match r with
    | Ok bytes_mut =>
      _ ← bm_drop self;
      mret (bytes_mut, src)
    | Err bytes =>
      s ← bytes_as_slice bytes;
      self ← bm_extend_from_slice self s;
      _ ← bytes_drop bytes;
      mret (self, src)
    end
  else
    self ← reserve self (hremaining src);
    '(self, src) ← bm_put_loop (Z.to_nat (hremaining src)) self src;
    _ ← hdrop src;
    mret (self, src).

(** ** [copy_to_bytes] *)
Definition htake_copy {B} (inner_copy_to_bytes : B → Z → HM (Bytes * B)) `{!HBufCore B}
    (self : Take B) (len : Z) : HM (Bytes * Take B) :=
  _ ← hassert (len <=? hremaining self);
  '(r, inner) ← inner_copy_to_bytes (take_inner self) len;
  limit ← lift (usub (take_limit self) len);
  mret (r, Build_Take inner limit).

Definition ref_copy {B} (copy_to_bytes : B → Z → HM (Bytes * B)) (self : RefMut B) (len : Z) :
    HM (Bytes * RefMut B) :=
  '(r, b) ← copy_to_bytes (referent self) len;
  mret (r, Build_RefMut b).

(** The provided method; [self.take(len)] is a [Take] of the reference [self]. *)
Fixpoint copy_to_bytes_default {B} `{HC : !HBufCore B} (fuel : nat) (self : B) (len : Z) : HM (Bytes * B) :=
  if hremaining self <? len
  then lift (panic_advance {| requested := len; available := hremaining self |})
  else
    match fuel with
    | O => hfault Diverge
    | S fuel =>
      ret ← with_capacity len;
      '(ret, src) ← bm_put_with (htake_copy (ref_copy (copy_to_bytes_default fuel))) ret
                      (take_new (Build_RefMut self) len);
      b ← freeze ret;
      mret (b, referent (take_inner src))
    end.

End cores.

Class HBuf (B : Type) := {
  #[global] hbuf_core :: HBufCore B;
  copy_to_bytes : B → Z → HM (Bytes * B);
}.

Section implementations.
Context `{T : Target, AL : Allocator}.

Definition bm_put {B} `{!HBuf B} (self : BytesMut) (src : B) : HM (BytesMut * B) :=
  bm_put_with copy_to_bytes self src.

(** Sources that do not override [copy_to_bytes]. *)
Definition plain_hbuf {B} `{!Buf B} : HBuf B :=
  {| hbuf_core := plain_core; copy_to_bytes := copy_to_bytes_default (HC := plain_core) 1 |}.
#[export] Instance slice_hbuf : HBuf (list byte) := plain_hbuf.
#[export] Instance cursor_hbuf : HBuf Cursor := plain_hbuf.
#[export] Instance vec_deque_hbuf : HBuf VecDeque := plain_hbuf.

#[export] Instance bytes_hbuf : HBuf Bytes := { hbuf_core := bytes_hcore; copy_to_bytes := split_to }.
#[export] Instance bm_hbuf : HBuf BytesMut := { hbuf_core := bm_hcore; copy_to_bytes := bm_copy_to_bytes }.

#[export] Instance ref_hbuf {B} `{!HBuf B} : HBuf (RefMut B) :=
  { hbuf_core := ref_hcore; copy_to_bytes := ref_copy copy_to_bytes }.

Definition boxed_copy_to_bytes {B} `{!HBuf B} (self : Boxed B) (len : Z) : HM (Bytes * Boxed B) :=
  '(r, b) ← copy_to_bytes (deref self) len;
  mret (r, Build_Boxed b).
#[export] Instance boxed_hbuf {B} `{!HBuf B} : HBuf (Boxed B) :=
  { hbuf_core := boxed_hcore; copy_to_bytes := boxed_copy_to_bytes }.

Definition take_copy_to_bytes {B} `{!HBuf B} (self : Take B) (len : Z) : HM (Bytes * Take B) :=
  htake_copy copy_to_bytes self len.
#[export] Instance take_hbuf {B} `{!HBuf B} : HBuf (Take B) :=
  { hbuf_core := take_hcore; copy_to_bytes := take_copy_to_bytes }.

Definition chain_copy_to_bytes {B C} `{!HBuf B, !HBuf C} (self : Chain B C) (len : Z) :
    HM (Bytes * Chain B C) :=
  let a_rem := hremaining (chain_a self) in
  if len <=? a_rem then
    '(r, a) ← copy_to_bytes (chain_a self) len;
    mret (r, Build_Chain a (chain_b self))
  else if a_rem =? 0 then
    '(r, b) ← copy_to_bytes (chain_b self) len;
    mret (r, Build_Chain (chain_a self) b)
  else
    rest ← lift (usub len a_rem);
    _ ← hassert (rest <=? hremaining (chain_b self));
    ret ← with_capacity len;
    '(ret, a) ← bm_put ret (Build_RefMut (chain_a self));
    '(ret, b) ← bm_put ret (take_new (Build_RefMut (chain_b self)) rest);
    r ← freeze ret;
    mret (r, Build_Chain (referent a) (referent (take_inner b))).
#[export] Instance chain_hbuf {B C} `{!HBuf B, !HBuf C} : HBuf (Chain B C) :=
  { hbuf_core := chain_hcore; copy_to_bytes := chain_copy_to_bytes }.

End implementations.
