(* ===== verification/HBufSpec.v ===== *)
(** * HBufSpec: [copy_to_bytes] and [put] against the contract of heap sources

    [HBufLaws] is the contract of a source on the heap: it shows some bytes and holds some
    of the live handles, its own and those behind references, and its methods keep the
    pool of handles good.  [BytesMut::put] and the provided [copy_to_bytes] are proved
    once, against the contract; the sources and adapters of HBuf.v discharge it. *)

From S2P Require Import Prelude Machine Buf BufSpec BufSources BufAdapters Loom Heap Bytes BytesMut.
From S2P Require Import BytesInv BytesOps BytesPool BytesProps BytesMutOps BytesMutReserve BytesMutPool BytesMutShare HBuf.
Open Scope Z_scope.

Abbreviation shown := (list (handle * list byte)).

Lemma capacity_panic_is_panic f : capacity_panic f → is_panic f.
Proof. by intros [-> | ->]. Qed.

Section contract.
Context `{T : Target, AL : Allocator}.

Section held.
Context {B : Type} (rep : B → list byte → shown → shown → Prop).

(** In the heap [h] the source [b] shows [bs] and holds at most [n] live handles; the
    other ones are [hcs].  [rep b bs own ref] splits them into the handles [b] owns and
    those it only borrows. *)
Definition held (h : heap) (b : B) (bs : list byte) (n : nat) (hcs : shown) : Prop :=
  ∃ own ref, rep b bs own ref ∧ (length (own ++ ref) <= n)%nat ∧ pool_ok h (own ++ ref ++ hcs).

(** The same once [b] is dropped: what it borrowed is left. *)
Definition left_behind (h : heap) (b : B) (bs : list byte) (n : nat) (hcs : shown) : Prop :=
  ∃ own ref, rep b bs own ref ∧ (length (own ++ ref) <= n)%nat ∧ pool_ok h (ref ++ hcs).

Lemma held_frame h b bs n hcs hcs' : held h b bs n hcs → hcs ≡ₚ hcs' → held h b bs n hcs'.
Proof.
  intros (own & ref & Hr & Hn & Hp) E. exists own, ref. split; [done|]. split; [done|].
  eapply pool_perm; [|exact Hp]. by rewrite E.
Qed.

(** A step that changes only the first of the other handles. *)
Lemma held_step h h' b bs n x hcs ys :
  held h b bs n (x :: hcs) → (∀ l, pool_ok h (x :: l) → pool_ok h' (ys ++ l)) → held h' b bs n (ys ++ hcs).
Proof.
  intros (own & ref & Hr & Hn & Hp) Hs. exists own, ref. split; [done|]. split; [done|].
  eapply pool_perm; [|apply (Hs (own ++ ref ++ hcs)); eapply pool_perm; [|exact Hp]]; solve_Permutation.
Qed.

End held.

(** What the required methods promise. *)
Record hcore_laws {B} `{HC : !HBufCore B} (rep : B → list byte → shown → shown → Prop) : Prop := {
  hl_remaining h b bs n hcs : held rep h b bs n hcs → hremaining b = zlen bs;
  hl_chunk h b bs n hcs : held rep h b bs n hcs →
    ∃ c, hchunk b h = Ret (c, h) ∧ c `prefix_of` bs ∧ (c = [] → bs = []);
  hl_advance h b bs n hcs cnt : held rep h b bs n hcs → 0 <= cnt <= zlen bs →
    ∃ b' h', hadvance b cnt h = Ret (b', h') ∧ held rep h' b' (zdrop cnt bs) n hcs;
  hl_drop h b bs n hcs : held rep h b bs n hcs → Z.of_nat n + zlen hcs <= isize_max →
    ∃ h', hdrop b h = Ret (tt, h') ∧ left_behind rep h' b bs n hcs;
}.

Class HBufLaws (B : Type) `{HF : !HBuf B} := {
  hrep : B → list byte → shown → shown → Prop;
  hrep_core : hcore_laws hrep;
  copy_to_bytes_ok h b bs n hcs len :
    held hrep h b bs n hcs → Z.of_nat n + zlen hcs + 2 <= isize_max →
    0 <= len <= zlen bs → len <= isize_max →
    ∃ x b' h', copy_to_bytes b len h = Ret ((x, b'), h') ∧
      held hrep h' b' (zdrop len bs) n ((HBytes x, ztake len bs) :: hcs);
  copy_to_bytes_past h b bs n hcs len :
    held hrep h b bs n hcs → zlen bs < len ∨ isize_max < len →
    ∃ f, copy_to_bytes b len h = Fault f ∧ is_panic f;
}.

(** ** [put] *)
Section put.
Context {B : Type} `{!HBufCore B} {rep : B → list byte → shown → shown → Prop} (L : hcore_laws rep).

Lemma held_has_remaining h src bs n hcs :
  held rep h src bs n hcs → hhas_remaining src = negb (bool_decide (bs = [])).
Proof using L.
  intros Hh. unfold hhas_remaining. rewrite (hl_remaining _ L _ _ _ _ _ Hh).
  destruct bs; [done|]. apply Z.ltb_lt. zlia.
Qed.

Lemma held_pool_mut h src bs n m cur hcs :
  held rep h src bs n ((HMut m, cur) :: hcs) → ∃ l, pool_ok h ((HMut m, cur) :: l).
Proof.
  intros (own & ref & _ & _ & Hp). exists (own ++ ref ++ hcs).
  eapply pool_perm; [|exact Hp]. solve_Permutation.
Qed.

(** Appending to [m] while the source is held. *)
Lemma held_extend h src bs n m cur hcs new :
  held rep h src bs n ((HMut m, cur) :: hcs) → Z.of_nat n + zlen hcs + 1 <= isize_max →
  zlen cur + zlen new <= m_cap m →
  ∃ m' h', bm_extend_from_slice m new h = Ret (m', h') ∧ m_cap m' = m_cap m ∧
    held rep h' src bs n ((HMut m', cur ++ new) :: hcs).
Proof.
  intros (own & ref & Hr & Hn & Hp) Hmax Hroom.
  assert (Hp1 : pool_ok h ((HMut m, cur) :: own ++ ref ++ hcs)) by (eapply pool_perm; [|exact Hp]; solve_Permutation).
  pose proof (pool_mut_len _ _ _ _ Hp1) as (Hl & Hc & _).
  destruct (pool_extend h m cur _ new Hp1) as [(m' & h' & E & Hp' & Hsame)|(_ & Hlt & _)]; [|  |lia].
  { rewrite app_assoc, zlen_cons, zlen_app. unfold zlen at 1. lia. }
  exists m', h'. split; [done|]. split; [by apply Hsame; lia|]. exists own, ref. split; [done|]. split; [done|].
  eapply pool_perm; [|exact Hp']. solve_Permutation.
Qed.

Lemma bm_put_loop_ok fuel h src bs n m cur hcs :
  held rep h src bs n ((HMut m, cur) :: hcs) → Z.of_nat n + zlen hcs + 1 <= isize_max →
  (length bs <= fuel)%nat → zlen cur + zlen bs <= m_cap m →
  ∃ m' src' h', bm_put_loop fuel m src h = Ret ((m', src'), h') ∧ m_cap m' = m_cap m ∧
    held rep h' src' [] n ((HMut m', cur ++ bs) :: hcs).
Proof using L.
  revert h src bs m cur. induction fuel as [|fuel IH]; intros h src bs m cur Hh Hmax Hf Hroom; cbn [bm_put_loop];
    rewrite (held_has_remaining _ _ _ _ _ Hh).
  all: destruct (decide (bs = [])) as [->|Hne];
    [exists m, src, h; rewrite app_nil_r; by repeat (split; [done|])|].
  { destruct bs; [done|cbn in Hf; lia]. }
  rewrite bool_decide_eq_false_2 by done. cbn.
  destruct (hl_chunk _ L _ _ _ _ _ Hh) as (c & Ec & [rest ->] & Hc). hstep Ec.
  rewrite zlen_app in Hroom. pose_zlen.
  destruct (held_extend _ _ _ _ _ _ _ c Hh Hmax) as (m1 & h1 & E1 & Hcap & Hh1); [lia|]. hstep E1.
  destruct (hl_advance _ L _ _ _ _ _ (zlen c) Hh1) as (src2 & h2 & E2 & Hh2); [zlia|]. hstep E2.
  rewrite zdrop_app_exact in Hh2 by done.
  destruct (IH h2 src2 rest m1 (cur ++ c) Hh2 Hmax) as (m' & src' & h' & E & Hcap' & Hh').
  { destruct c; [by destruct Hne; apply Hc|]. rewrite length_app in Hf. cbn in Hf. lia. }
  { rewrite zlen_app. lia. }
  exists m', src', h'. rewrite app_assoc. split; [done|]. split; [lia|done].
Qed.

(** [put] where [copy_to_bytes] is not called: the destination has memory of its own, or
    there is nothing to put. *)
Lemma put_with_ok copy h src bs n m cur hcs :
  held rep h src bs n ((HMut m, cur) :: hcs) → Z.of_nat n + zlen hcs + 1 <= isize_max →
  bs = [] ∨ m_cap m ≠ 0 →
  (∃ m' src' h', bm_put_with copy m src h = Ret ((m', src'), h') ∧
     (zlen bs <= m_cap m - m_len m → m_cap m' = m_cap m) ∧
     left_behind rep h' src' [] n ((HMut m', cur ++ bs) :: hcs)) ∨
  out_of_room (bm_put_with copy m src h) h m (zlen bs).
Proof using L.
  intros Hh Hmax Hcase. unfold bm_put_with. rewrite (held_has_remaining _ _ _ _ _ Hh), negb_involutive.
  destruct (decide (bs = [])) as [->|Hne].
  { destruct (hl_drop _ L _ _ _ _ _ Hh) as (h' & E & Hl); [zlia|]. left. exists m, src, h'.
    rewrite app_nil_r. rewrite bool_decide_eq_true_2 by done. split; [by hstep E|done]. }
  destruct Hcase as [|Hcap]; [done|]. rewrite bool_decide_eq_false_2 by done.
  rewrite (proj2 (Z.eqb_neq _ _) Hcap), (hl_remaining _ L _ _ _ _ _ Hh).
  destruct Hh as (own & ref & Hr & Hn & Hp).
  eapply (pool_perm _ _ ((HMut m, cur) :: own ++ ref ++ hcs)) in Hp; [|solve_Permutation].
  destruct (pool_reserve h m cur _ (zlen bs) Hp) as [(m1 & h1 & E1 & Hp1 & Hroom & Hsame)|(Hh & Hlt & f & E & Hf)].
  { rewrite app_assoc, zlen_cons, zlen_app. unfold zlen at 1. lia. }
  2: { right. split; [done|]. split; [done|]. exists f. split; [by apply hm_bind_Fault|done]. }
  left. hstep E1. destruct (bm_put_loop_ok (Z.to_nat (zlen bs)) h1 src bs n m1 cur hcs) as (m2 & src' & h2 & E2 & Hc2 & Hh2).
  { exists own, ref. split; [done|]. split; [done|]. eapply pool_perm; [|exact Hp1]. solve_Permutation. }
  { done. }
  { unfold zlen. lia. }
  { done. }
  hstep E2. destruct (hl_drop _ L _ _ _ _ _ Hh2) as (h' & E & Hl); [zlia|]. hstep E.
  exists m2, src', h'. split; [done|]. split; [|done]. intros Hz. destruct (Hsame Hz) as [-> _]. done.
Qed.

End put.

(** ** References and prefixes *)
Section adapters.
Context {B : Type} `{!HBufCore B} {rep : B → list byte → shown → shown → Prop} (L : hcore_laws rep).

(** Everything behind a reference is borrowed. *)
Definition ref_rep (rep : B → list byte → shown → shown → Prop) (b : RefMut B) (bs : list byte) (own ref : shown) : Prop :=
  own = [] ∧ ∃ o r, ref = o ++ r ∧ rep (referent b) bs o r.

Lemma held_ref h b bs n hcs : held (ref_rep rep) h (Build_RefMut b) bs n hcs ↔ held rep h b bs n hcs.
Proof.
  split.
  - intros (? & ? & (-> & own & ref & -> & Hr) & Hn & Hp). exists own, ref. by rewrite <- app_assoc in Hp.
  - intros (own & ref & Hr & Hn & Hp). exists [], (own ++ ref). rewrite <- app_assoc.
    split; [|done]. split; [done|]. by exists own, ref.
Qed.

Lemma left_behind_ref h b bs n hcs :
  left_behind (ref_rep rep) h (Build_RefMut b) bs n hcs ↔ held rep h b bs n hcs.
Proof.
  split.
  - intros (? & ? & (-> & own & ref & -> & Hr) & Hn & Hp). exists own, ref. by rewrite <- app_assoc in Hp.
  - intros (own & ref & Hr & Hn & Hp). exists [], (own ++ ref). rewrite <- app_assoc.
    split; [|done]. split; [done|]. by exists own, ref.
Qed.

Lemma ref_core_laws : hcore_laws (ref_rep rep).
Proof using L.
  constructor; intros h [b] bs n hcs; cbn.
  - intros Hh%held_ref. by eapply hl_remaining.
  - intros Hh%held_ref. by eapply hl_chunk.
  - intros cnt Hh%held_ref Hc. destruct (hl_advance _ L _ _ _ _ _ cnt Hh Hc) as (b' & h' & E & Hh').
    exists (Build_RefMut b'), h'. split; [by hstep E|by apply held_ref].
  - intros Hh%held_ref _. exists h. split; [done|by apply left_behind_ref].
Qed.

(** A [Take] of limit [lim] over a source that showed [W], while it is read. *)
Definition take_rep_at (rep : B → list byte → shown → shown → Prop) (W : list byte) (lim : Z)
    (t : Take B) (bs : list byte) (own ref : shown) : Prop :=
  0 <= lim <= usize_max ∧ ∃ k, 0 <= k <= Z.min lim (zlen W) ∧ take_limit t = lim - k ∧
    bs = zdrop k (ztake lim W) ∧ rep (take_inner t) (zdrop k W) own ref.

Lemma held_take h t bs n hcs W lim :
  held (take_rep_at rep W lim) h t bs n hcs ↔
  0 <= lim <= usize_max ∧ ∃ k, 0 <= k <= Z.min lim (zlen W) ∧ take_limit t = lim - k ∧
    bs = zdrop k (ztake lim W) ∧ held rep h (take_inner t) (zdrop k W) n hcs.
Proof.
  split.
  - intros (own & ref & (Hlim & k & Hk & Ht & Hbs & Hr) & Hn & Hp). split; [done|]. exists k.
    repeat (split; [done|]). by exists own, ref.
  - intros (Hlim & k & Hk & Ht & Hbs & own & ref & Hr & Hn & Hp). exists own, ref.
    split; [|done]. split; [done|]. by exists k.
Qed.

Lemma left_behind_take h t bs n hcs W lim :
  left_behind (take_rep_at rep W lim) h t bs n hcs ↔
  0 <= lim <= usize_max ∧ ∃ k, 0 <= k <= Z.min lim (zlen W) ∧ take_limit t = lim - k ∧
    bs = zdrop k (ztake lim W) ∧ left_behind rep h (take_inner t) (zdrop k W) n hcs.
Proof.
  split.
  - intros (own & ref & (Hlim & k & Hk & Ht & Hbs & Hr) & Hn & Hp). split; [done|]. exists k.
    repeat (split; [done|]). by exists own, ref.
  - intros (Hlim & k & Hk & Ht & Hbs & own & ref & Hr & Hn & Hp). exists own, ref.
    split; [|done]. split; [done|]. by exists k.
Qed.

Lemma take_core_laws_at W lim : hcore_laws (take_rep_at rep W lim).
Proof using L.
  constructor; intros h [b l] bs n hcs; cbn.
  - intros (Hlim & k & Hk & Ht & -> & Hh)%held_take. cbn in *. rewrite (hl_remaining _ L _ _ _ _ _ Hh).
    autorewrite with zlen. zlia.
  - intros (Hlim & k & Hk & Ht & -> & Hh)%held_take. cbn in *. unfold htake_chunk. cbn.
    destruct (hl_chunk _ L _ _ _ _ _ Hh) as (c & Ec & Hpre & Hc). hstep Ec. eexists. split; [reflexivity|].
    pose proof (prefix_zlen _ _ Hpre). pose_zlen. rewrite zdrop_ztake, <- Ht by lia. split.
    + rewrite (prefix_ztake_l _ _ _ Hpre) by lia. exists (zdrop (zlen c) (ztake l (zdrop k W))).
      rewrite <- (ztake_zdrop (zlen c) (ztake l (zdrop k W))) at 1. by rewrite ztake_ztake.
    + intros E. apply zlen_0_nil in E. rewrite zlen_take_min in E.
      destruct (decide (l = 0)) as [->|]; [done|]. rewrite Hc, ztake_nil; [done|]. apply zlen_0_nil. lia.
  - intros cnt (Hlim & k & Hk & Ht & -> & Hh)%held_take Hc. cbn in *. autorewrite with zlen in Hc.
    unfold htake_advance. cbn. rewrite (hm_bind_Ret _ _ _ tt h) by (apply hassert_ok, Z.leb_le; zlia).
    destruct (hl_advance _ L _ _ _ _ _ cnt Hh) as (b' & h' & E & Hh'); [zlia|]. hstep E.
    rewrite usub_ok, hm_bind_lift by zlia. eexists _, h'. split; [reflexivity|]. apply held_take.
    split; [done|]. exists (k + cnt). rewrite !zdrop_zdrop in * by lia. cbn. repeat split; try done; zlia.
  - intros (Hlim & k & Hk & Ht & -> & Hh)%held_take Hmax. cbn in *.
    destruct (hl_drop _ L _ _ _ _ _ Hh Hmax) as (h' & E & Hl). exists h'. split; [done|].
    apply left_behind_take. split; [done|]. by exists k.
Qed.

End adapters.

(** ** The provided [copy_to_bytes] *)
Section default_copy.
Context {B : Type} `{!HBufCore B} {rep : B → list byte → shown → shown → Prop} (L : hcore_laws rep).

(** A [Take] read to its end has moved the source by its limit. *)
Lemma take_at_end h t n hcs W lim :
  left_behind (take_rep_at (ref_rep rep) W lim) h t [] n hcs → lim <= zlen W →
  held rep h (referent (take_inner t)) (zdrop lim W) n hcs.
Proof.
  destruct t as [[b] l]. intros (Hlim & k & Hk & Ht & E & Hh)%left_behind_take Hle. cbn in *.
  apply left_behind_ref in Hh. apply (f_equal zlen) in E. autorewrite with zlen in E.
  replace lim with k by zlia. done.
Qed.

(** A new [BytesMut] next to a source. *)
Lemma held_with_capacity h b bs n hcs cap :
  held rep h b bs n hcs → 0 <= cap <= isize_max →
  ∃ m h', with_capacity cap h = Ret (m, h') ∧ m_cap m = cap ∧ m_len m = 0 ∧
    held rep h' b bs n ((HMut m, []) :: hcs).
Proof.
  intros (own & ref & Hr & Hn & Hp) Hcap. unfold with_capacity.
  destruct (pool_with_capacity h _ cap Hp Hcap) as (v & h' & E & Hp' & Hc). hstep E.
  destruct (pool_mut_from_vec h' v [] _ Hp') as (m & Em & Hpm & Hcm).
  pose proof (pool_mut_len _ _ _ _ Hpm) as (Hl & _).
  exists m, h'. split; [done|]. split; [lia|]. split; [done|]. exists own, ref. split; [done|]. split; [done|].
  eapply pool_perm; [|exact Hpm]. solve_Permutation.
Qed.

Lemma held_freeze h b bs n hcs m cur :
  held rep h b bs n ((HMut m, cur) :: hcs) →
  ∃ x h', freeze m h = Ret (x, h') ∧ held rep h' b bs n ((HBytes x, cur) :: hcs).
Proof.
  intros (own & ref & Hr & Hn & Hp).
  eapply (pool_perm _ _ ((HMut m, cur) :: own ++ ref ++ hcs)) in Hp; [|solve_Permutation].
  destruct (pool_freeze _ _ _ _ Hp) as (x & h' & E & Hp'). exists x, h'. split; [done|].
  exists own, ref. split; [done|]. split; [done|]. eapply pool_perm; [|exact Hp']. solve_Permutation.
Qed.

(** Putting the next [lim] bytes of a source behind a reference, where there is room. *)
Lemma put_take_ok copy h b bs n m cur hcs lim :
  held rep h b bs n ((HMut m, cur) :: hcs) → Z.of_nat n + zlen hcs + 1 <= isize_max →
  0 <= lim <= zlen bs → lim <= usize_max → lim <= m_cap m - m_len m → lim = 0 ∨ m_cap m ≠ 0 →
  ∃ m' src' h', bm_put_with copy m (take_new (Build_RefMut b) lim) h = Ret ((m', src'), h') ∧
    m_cap m' = m_cap m ∧
    held rep h' (referent (take_inner src')) (zdrop lim bs) n ((HMut m', cur ++ ztake lim bs) :: hcs).
Proof using L.
  intros Hh Hmax Hlim Hu Hroom Hcase.
  destruct (put_with_ok (take_core_laws_at (ref_core_laws L) bs lim) copy h (take_new (Build_RefMut b) lim)
              (ztake lim bs) n m cur hcs) as [(m' & src' & h' & E & Hc & Hl)|(_ & Hlt & _)].
  - apply held_take. split; [lia|]. exists 0. cbn. rewrite !zdrop_0. split; [pose_zlen; lia|]. split; [lia|].
    split; [done|]. by apply held_ref.
  - done.
  - destruct Hcase as [->|]; [by left|by right].
  - exists m', src', h'. split; [done|]. rewrite zlen_take in Hc by lia. split; [by apply Hc|].
    by apply take_at_end in Hl; [|lia].
  - rewrite zlen_take in Hlt by lia. lia.
Qed.

Lemma default_copy_ok fuel h b bs n hcs len :
  held rep h b bs n hcs → Z.of_nat n + zlen hcs + 2 <= isize_max → 0 <= len <= zlen bs → len <= isize_max →
  ∃ x b' h', copy_to_bytes_default (S fuel) b len h = Ret ((x, b'), h') ∧
    held rep h' b' (zdrop len bs) n ((HBytes x, ztake len bs) :: hcs).
Proof using L.
  intros Hh Hmax Hlen Hi. pose proof usize_isize_max. pose proof isize_max_pos. cbn [copy_to_bytes_default].
  rewrite (hl_remaining _ L _ _ _ _ _ Hh), (proj2 (Z.ltb_ge _ _)) by lia.
  destruct (held_with_capacity h b bs n hcs len Hh) as (m & h1 & E1 & Hc1 & Hl1 & Hh1); [lia|]. hstep E1.
  destruct (put_take_ok (htake_copy (ref_copy (copy_to_bytes_default fuel))) h1 b bs n m [] hcs len Hh1)
    as (m2 & src2 & h2 & E2 & _ & Hh2); [lia|done|lia|lia|lia|].
  hstep E2. destruct (held_freeze _ _ _ _ _ _ _ Hh2) as (x & h3 & E3 & Hh3). hstep E3. by eexists _, _, h3.
Qed.

Lemma with_capacity_panics cap h : isize_max < cap → with_capacity cap h = Fault PanicCapacity.
Proof. intros Hc. unfold with_capacity. apply hm_bind_Fault. unfold hvec_with_capacity. by rewrite (proj2 (Z.ltb_lt _ _)). Qed.

Lemma default_copy_past fuel h b bs n hcs len :
  held rep h b bs n hcs → zlen bs < len ∨ isize_max < len →
  ∃ f, copy_to_bytes_default (S fuel) b len h = Fault f ∧ is_panic f.
Proof using L.
  intros Hh Hlen. cbn [copy_to_bytes_default]. rewrite (hl_remaining _ L _ _ _ _ _ Hh).
  destruct (Z.ltb_spec (zlen bs) len); [by eexists|].
  exists PanicCapacity. split; [|done]. apply hm_bind_Fault, with_capacity_panics. lia.
Qed.

End default_copy.
End contract.
