(* ===== verification/HBufSources.v ===== *)
(** * HBufSources: the sources and adapters that satisfy [HBufLaws]

    Slices, cursors and queues; [Bytes] and [BytesMut]; references, boxes, prefixes and
    chains of lawful sources. *)

From S2P Require Import Prelude Machine Buf BufSpec BufSources BufAdapters Loom Heap Bytes BytesMut.
From S2P Require Import BytesInv BytesOps BytesPool BytesProps BytesMutOps BytesMutReserve BytesMutPool BytesMutShare HBuf HBufSpec.
Open Scope Z_scope.

Section sources.
Context `{T : Target, AL : Allocator}.

(** ** Sources off the heap *)
Section plain.
Context {B : Type} `{HB : !Buf B, HL : !BufLaws B}.

Definition plain_rep (b : B) (bs : list byte) (own ref : shown) : Prop :=
  binv b ∧ bview b = bs ∧ own = [] ∧ ref = [].

Lemma held_plain h b bs n hcs : held plain_rep h b bs n hcs ↔ binv b ∧ bview b = bs ∧ pool_ok h hcs.
Proof.
  split.
  - by intros (own & ref & (Hb & Hv & -> & ->) & _ & Hp).
  - intros (Hb & Hv & Hp). exists [], []. split; [done|]. split; [cbn; lia|done].
Qed.

Lemma plain_core_laws : hcore_laws (HC := plain_core) plain_rep.
Proof.
  constructor; intros h b bs n hcs; cbn.
  - intros (Hb & <- & _)%held_plain. by apply remaining_view.
  - intros (Hb & <- & _)%held_plain. exists (chunk b). split; [done|].
    split; [by apply chunk_prefix|by apply chunk_progress].
  - intros cnt (Hb & <- & Hp)%held_plain Hc. destruct (advance_ok b cnt Hb Hc) as (b' & E & Hb' & Hv).
    exists b', h. split; [by apply lift_ok|by apply held_plain].
  - intros (Hb & Hv & Hp)%held_plain _. exists h. split; [done|]. exists [], []. split; [done|].
    split; [cbn; lia|done].
Qed.

Lemma plain_hbuf_core : hcore_laws (HC := @hbuf_core B (plain_hbuf (B := B))) plain_rep.
Proof. exact plain_core_laws. Qed.

Definition plain_hlaws : @HBufLaws T AL B (@plain_hbuf T AL B HB) :=
  @Build_HBufLaws T AL B (@plain_hbuf T AL B HB) plain_rep plain_hbuf_core
    (default_copy_ok plain_core_laws 0) (default_copy_past plain_core_laws 0).
End plain.

#[export] Instance slice_hlaws : HBufLaws (list byte) := plain_hlaws.
#[export] Instance cursor_hlaws : HBufLaws Cursor := plain_hlaws.
#[export] Instance vec_deque_hlaws : HBufLaws VecDeque := plain_hlaws.

(** ** [Bytes] and [BytesMut] *)
Definition handle_rep {B} (as_handle : B → handle) (b : B) (bs : list byte) (own ref : shown) : Prop :=
  own = [(as_handle b, bs)] ∧ ref = [].

Lemma held_handle {B} (as_handle : B → handle) h b bs n hcs :
  held (handle_rep as_handle) h b bs n hcs ↔ (1 <= n)%nat ∧ pool_ok h ((as_handle b, bs) :: hcs).
Proof.
  split; [by intros (own & ref & (-> & ->) & Hn & Hp)|].
  intros (Hn & Hp). by exists [(as_handle b, bs)], [].
Qed.

Lemma handle_drop {B} (as_handle : B → handle) h b bs n hcs :
  held (handle_rep as_handle) h b bs n hcs → Z.of_nat n + zlen hcs <= isize_max →
  ∃ h', drop_handle (as_handle b) h = Ret (tt, h') ∧ left_behind (handle_rep as_handle) h' b bs n hcs.
Proof.
  intros (Hn & Hp)%held_handle Hmax. destruct (pool_drop h (as_handle b) bs hcs Hp) as (h' & E & Hp'); [zlia|].
  exists h'. split; [done|]. by exists [(as_handle b, bs)], [].
Qed.

Lemma bytes_core_laws : hcore_laws (handle_rep HBytes).
Proof.
  constructor; intros h b bs n hcs; cbn.
  - intros (Hn & Hp)%held_handle. by apply pool_bytes_len in Hp as [? _].
  - intros (Hn & Hp)%held_handle. exists bs. by rewrite (pool_read _ _ _ _ Hp).
  - intros cnt (Hn & Hp)%held_handle Hc. destruct (pool_advance h b bs hcs cnt Hp Hc) as (b' & E & Hp').
    exists b', h. split; [done|by apply held_handle].
  - apply (handle_drop HBytes).
Qed.

#[export] Instance bytes_hlaws : HBufLaws Bytes.
Proof.
  refine {| hrep := handle_rep HBytes; hrep_core := bytes_core_laws |}.
  - intros h b bs n hcs len (Hn & Hp)%held_handle Hmax Hlen _.
    destruct (pool_split_to h b bs hcs len Hp) as (y & x' & h' & E & Hp'); [zlia|done|].
    exists y, x', h'. split; [done|by apply held_handle].
  - intros h b bs n hcs len (Hn & Hp)%held_handle Hlen. apply pool_bytes_len in Hp as (El & _ & Hi).
    cbn. unfold split_to. exists PanicAssert. split; [|done]. rewrite El.
    destruct (Z.eqb_spec len (zlen bs)); [lia|]. destruct (Z.eqb_spec len 0); [pose_zlen; lia|].
    apply hm_bind_Fault. by rewrite (proj2 (Z.leb_gt _ _)) by lia.
Defined.

Lemma bm_core_laws : hcore_laws (handle_rep HMut).
Proof.
  constructor; intros h b bs n hcs; cbn.
  - intros (Hn & Hp)%held_handle. by apply pool_mut_len in Hp as [? _].
  - intros (Hn & Hp)%held_handle. exists bs. by rewrite (pool_mut_read _ _ _ _ Hp).
  - intros cnt (Hn & Hp)%held_handle Hc. destruct (pool_mut_advance h b bs hcs cnt Hp Hc) as (b' & h' & E & Hp' & _).
    exists b', h'. split; [done|by apply held_handle].
  - apply (handle_drop HMut).
Qed.

#[export] Instance bm_hlaws : HBufLaws BytesMut.
Proof.
  refine {| hrep := handle_rep HMut; hrep_core := bm_core_laws |}.
  - intros h b bs n hcs len (Hn & Hp)%held_handle Hmax Hlen _. cbn. unfold bm_copy_to_bytes.
    destruct (pool_mut_split_to h b bs hcs len Hp) as (m1 & m2 & h1 & E & _ & _ & Hp1); [zlia|done|].
    eapply pool_perm in Hp1; [|apply Permutation_swap].
    destruct (pool_freeze _ _ _ _ Hp1) as (x & h2 & E2 & Hp2). exists x, m2, h2.
    split; [hstep E; by hstep E2|]. apply held_handle. split; [done|].
    eapply pool_perm; [apply Permutation_swap|done].
  - intros h b bs n hcs len (Hn & Hp)%held_handle Hlen. apply pool_mut_len in Hp as (El & Hc & _).
    cbn. unfold bm_copy_to_bytes, bm_split_to. exists PanicAssert. split; [|done].
    apply hm_bind_Fault, hm_bind_Fault. by rewrite (proj2 (Z.leb_gt _ _)) by lia.
Defined.

(** ** References and boxes *)
Section forward.
Context {B : Type} `{HB : !HBuf B, HL : !HBufLaws B}.

#[export] Instance ref_hlaws : HBufLaws (RefMut B).
Proof using HL.
  refine {| hrep := ref_rep hrep; hrep_core := ref_core_laws hrep_core |}.
  - intros h [b] bs n hcs len Hh%(proj1 (held_ref _ _ _ _ _)) Hmax Hlen Hi. cbn. unfold ref_copy. cbn.
    destruct (copy_to_bytes_ok h b bs n hcs len Hh Hmax Hlen Hi) as (x & b' & h' & E & Hh').
    exists x, (Build_RefMut b'), h'. split; [by hstep E|by apply held_ref].
  - intros h [b] bs n hcs len Hh%(proj1 (held_ref _ _ _ _ _)) Hlen. cbn. unfold ref_copy. cbn.
    destruct (copy_to_bytes_past h b bs n hcs len Hh Hlen) as (f & E & Hf). exists f.
    split; [by apply hm_bind_Fault|done].
Defined.

Definition boxed_rep (b : Boxed B) : list byte → shown → shown → Prop := hrep (deref b).

Lemma boxed_hcore_laws : hcore_laws boxed_rep.
Proof.
  constructor; intros h [b] bs n hcs; cbn; unfold held, left_behind, boxed_rep; cbn.
  - apply (hl_remaining _ hrep_core).
  - apply (hl_chunk _ hrep_core).
  - intros cnt Hh Hc. destruct (hl_advance _ hrep_core _ _ _ _ _ cnt Hh Hc) as (b' & h' & E & Hh').
    exists (Build_Boxed b'), h'. split; [by hstep E|done].
  - apply (hl_drop _ hrep_core).
Qed.

#[export] Instance boxed_hlaws : HBufLaws (Boxed B).
Proof using HL.
  refine {| hrep := boxed_rep; hrep_core := boxed_hcore_laws |}.
  - intros h [b] bs n hcs len Hh Hmax Hlen Hi. cbn. unfold boxed_copy_to_bytes. cbn.
    destruct (copy_to_bytes_ok h b bs n hcs len Hh Hmax Hlen Hi) as (x & b' & h' & E & Hh').
    exists x, (Build_Boxed b'), h'. split; [by hstep E|done].
  - intros h [b] bs n hcs len Hh Hlen. cbn. unfold boxed_copy_to_bytes. cbn.
    destruct (copy_to_bytes_past h b bs n hcs len Hh Hlen) as (f & E & Hf). exists f.
    split; [by apply hm_bind_Fault|done].
Defined.
End forward.

(** ** Prefixes *)
Section take.
Context {B : Type} `{HB : !HBuf B, HL : !HBufLaws B}.

Definition htake_rep (t : Take B) (bs : list byte) (own ref : shown) : Prop :=
  ∃ W lim, take_rep_at hrep W lim t bs own ref.

Lemma held_htake h t bs n hcs :
  held htake_rep h t bs n hcs ↔ ∃ W lim, held (take_rep_at hrep W lim) h t bs n hcs.
Proof.
  split.
  - intros (own & ref & (W & lim & Hr) & Hn & Hp). exists W, lim, own, ref. done.
  - intros (W & lim & own & ref & Hr & Hn & Hp). exists own, ref. split; [by exists W, lim|done].
Qed.

Lemma htake_core_laws : hcore_laws htake_rep.
Proof.
  constructor; intros h t bs n hcs.
  - intros (W & lim & Hh)%held_htake. by eapply (hl_remaining _ (take_core_laws_at hrep_core W lim)).
  - intros (W & lim & Hh)%held_htake. by eapply (hl_chunk _ (take_core_laws_at hrep_core W lim)).
  - intros cnt (W & lim & Hh)%held_htake Hc.
    destruct (hl_advance _ (take_core_laws_at hrep_core W lim) _ _ _ _ _ cnt Hh Hc) as (t' & h' & E & Hh').
    exists t', h'. split; [done|]. apply held_htake. by exists W, lim.
  - intros (W & lim & Hh)%held_htake Hmax.
    destruct (hl_drop _ (take_core_laws_at hrep_core W lim) _ _ _ _ _ Hh Hmax) as (h' & E & own & ref & Hr & H).
    exists h'. split; [done|]. exists own, ref. split; [by exists W, lim|done].
Qed.

#[export] Instance take_hlaws : HBufLaws (Take B).
Proof using HL.
  refine {| hrep := htake_rep; hrep_core := htake_core_laws |}.
  - intros h t bs n hcs len (W & lim & Hh)%held_htake Hmax Hlen Hi. pose proof Hh as Hh0.
    apply held_take in Hh as (Hlim & k & Hk & Ht & -> & Hh). cbn. unfold take_copy_to_bytes, htake_copy.
    rewrite (hl_remaining _ (take_core_laws_at hrep_core W lim) _ _ _ _ _ Hh0).
    rewrite (hm_bind_Ret _ _ _ tt h) by (apply hassert_ok, Z.leb_le; lia).
    autorewrite with zlen in Hlen.
    destruct (copy_to_bytes_ok h (take_inner t) _ n hcs len Hh Hmax) as (x & b' & h' & E & Hh'); [zlia|done|].
    hstep E. rewrite usub_ok, hm_bind_lift by zlia. eexists x, _, h'. split; [reflexivity|].
    apply held_htake. exists W, lim. apply held_take. split; [done|]. exists (k + len).
    rewrite !zdrop_zdrop in * by lia. cbn. split; [zlia|]. split; [lia|]. split; [done|].
    rewrite zdrop_ztake, ztake_ztake, Z.min_l by zlia. done.
  - intros h t bs n hcs len (W & lim & Hh)%held_htake Hlen. pose proof Hh as Hh0.
    apply held_take in Hh as (Hlim & k & Hk & Ht & -> & Hh). cbn. unfold take_copy_to_bytes, htake_copy.
    rewrite (hl_remaining _ (take_core_laws_at hrep_core W lim) _ _ _ _ _ Hh0).
    destruct (Z.leb_spec len (zlen (zdrop k (ztake lim W)))); [|by exists PanicAssert].
    destruct (copy_to_bytes_past h (take_inner t) _ n hcs len Hh) as (f & E & Hf); [lia|].
    exists f. split; [|done]. rewrite (hm_bind_Ret _ _ _ tt h) by done. by apply hm_bind_Fault.
Defined.
End take.

(** ** Chains *)
Section chain.
Context {B C : Type} `{HB : !HBuf B, HLB : !HBufLaws B, HC : !HBuf C, HLC : !HBufLaws C}.

Definition chain_rep (c : Chain B C) (bs : list byte) (own ref : shown) : Prop :=
  ∃ bs1 own1 ref1 bs2 own2 ref2,
    bs = bs1 ++ bs2 ∧ own = own1 ++ own2 ∧ ref = ref1 ++ ref2 ∧ zlen bs <= usize_max ∧
    hrep (chain_a c) bs1 own1 ref1 ∧ hrep (chain_b c) bs2 own2 ref2.

(** Either part of a chain is held with the handles of the other one around it. *)
Definition chain_held (h : heap) (c : Chain B C) (bs1 bs2 : list byte) (n : nat) (hcs : shown) : Prop :=
  ∃ own1 ref1 own2 ref2, zlen (bs1 ++ bs2) <= usize_max ∧
    hrep (chain_a c) bs1 own1 ref1 ∧ hrep (chain_b c) bs2 own2 ref2 ∧
    (length (own1 ++ ref1) + length (own2 ++ ref2) <= n)%nat ∧
    pool_ok h ((own1 ++ ref1) ++ (own2 ++ ref2) ++ hcs).

Lemma held_chain h c bs n hcs :
  held chain_rep h c bs n hcs ↔ ∃ bs1 bs2, bs = bs1 ++ bs2 ∧ chain_held h c bs1 bs2 n hcs.
Proof.
  split.
  - intros (? & ? & (bs1 & own1 & ref1 & bs2 & own2 & ref2 & -> & -> & -> & Hu & H1 & H2) & Hn & Hp).
    exists bs1, bs2. split; [done|]. exists own1, ref1, own2, ref2. repeat (split; [done|]).
    split; [rewrite !length_app in *; lia|]. eapply pool_perm; [|exact Hp]. solve_Permutation.
  - intros (bs1 & bs2 & -> & own1 & ref1 & own2 & ref2 & Hu & H1 & H2 & Hn & Hp).
    exists (own1 ++ own2), (ref1 ++ ref2). split; [by exists bs1, own1, ref1, bs2, own2, ref2|].
    split; [rewrite !length_app in *; lia|]. eapply pool_perm; [|exact Hp]. solve_Permutation.
Qed.

(** Running a step of the first part ... *)
Lemma chain_first h c bs1 bs2 n hcs :
  chain_held h c bs1 bs2 n hcs →
  ∃ k hs, held hrep h (chain_a c) bs1 k (hs ++ hcs) ∧ Z.of_nat k + zlen hs <= Z.of_nat n ∧
    ∀ h' a' bs1' hcs', held hrep h' a' bs1' k (hs ++ hcs') → zlen bs1' <= zlen bs1 →
      chain_held h' (Build_Chain a' (chain_b c)) bs1' bs2 n hcs'.
Proof.
  intros (own1 & ref1 & own2 & ref2 & Hu & H1 & H2 & Hn & Hp).
  exists (length (own1 ++ ref1)), (own2 ++ ref2). split; [|split; [unfold zlen; lia|]].
  - exists own1, ref1. split; [done|]. split; [lia|]. by rewrite app_assoc.
  - intros h' a' bs1' hcs' (own1' & ref1' & H1' & Hn' & Hp') Hz. exists own1', ref1', own2, ref2.
    rewrite zlen_app in *. split; [lia|]. repeat (split; [done|]). split; [lia|].
    eapply pool_perm; [|exact Hp']. solve_Permutation.
Qed.

(** ... and of the second. *)
Lemma chain_second h c bs1 bs2 n hcs :
  chain_held h c bs1 bs2 n hcs →
  ∃ k hs, held hrep h (chain_b c) bs2 k (hs ++ hcs) ∧ Z.of_nat k + zlen hs <= Z.of_nat n ∧
    ∀ h' b' bs2' hcs', held hrep h' b' bs2' k (hs ++ hcs') → zlen bs2' <= zlen bs2 →
      chain_held h' (Build_Chain (chain_a c) b') bs1 bs2' n hcs'.
Proof.
  intros (own1 & ref1 & own2 & ref2 & Hu & H1 & H2 & Hn & Hp).
  exists (length (own2 ++ ref2)), (own1 ++ ref1). split; [|split; [unfold zlen; lia|]].
  - exists own2, ref2. split; [done|]. split; [lia|]. eapply pool_perm; [|exact Hp]. solve_Permutation.
  - intros h' b' bs2' hcs' (own2' & ref2' & H2' & Hn' & Hp') Hz. exists own1, ref1, own2', ref2'.
    rewrite zlen_app in *. split; [lia|]. repeat (split; [done|]). split; [lia|].
    eapply pool_perm; [|exact Hp']. solve_Permutation.
Qed.

Lemma chain_held_remaining h c bs1 bs2 n hcs :
  chain_held h c bs1 bs2 n hcs →
  hremaining (chain_a c) = zlen bs1 ∧ hremaining (chain_b c) = zlen bs2 ∧ zlen bs1 + zlen bs2 <= usize_max.
Proof.
  intros Hh. destruct (chain_first _ _ _ _ _ _ Hh) as (k & hs & H1 & _).
  destruct (chain_second _ _ _ _ _ _ Hh) as (k' & hs' & H2 & _). destruct Hh as (? & ? & ? & ? & Hu & _).
  rewrite zlen_app in Hu. split; [by eapply (hl_remaining _ hrep_core)|].
  split; [by eapply (hl_remaining _ hrep_core)|done].
Qed.

Lemma chain_held_advance h c bs1 bs2 n hcs cnt :
  chain_held h c bs1 bs2 n hcs → 0 <= cnt <= zlen bs1 + zlen bs2 →
  ∃ c' h', hchain_advance c cnt h = Ret (c', h') ∧ held chain_rep h' c' (zdrop cnt (bs1 ++ bs2)) n hcs.
Proof.
  intros Hh Hc. pose proof (chain_held_remaining _ _ _ _ _ _ Hh) as (E1 & E2 & Hu).
  destruct (chain_first _ _ _ _ _ _ Hh) as (k & hs & H1 & _ & Hk1). unfold hchain_advance. rewrite E1.
  assert (Hadv2 : ∀ h c bs1 cnt, chain_held h c bs1 bs2 n hcs → 0 <= cnt <= zlen bs2 →
    ∃ b' h', hadvance (chain_b c) cnt h = Ret (b', h') ∧
      chain_held h' (Build_Chain (chain_a c) b') bs1 (zdrop cnt bs2) n hcs).
  { clear -HLC. intros h c bs1 cnt Hh Hc. destruct (chain_second _ _ _ _ _ _ Hh) as (k & hs & H2 & _ & Hk).
    destruct (hl_advance _ hrep_core _ _ _ _ _ cnt H2 Hc) as (b' & h' & E & H'). exists b', h'.
    split; [done|]. apply (Hk h' b' _ hcs); [done|]. zlia. }
  destruct (Z.eqb_spec (zlen bs1) 0) as [E0|E0]; cbn.
  - apply zlen_0_nil in E0 as ->. destruct (Hadv2 h c [] cnt Hh) as (b' & h' & E & Hh'); [zlia|].
    exists (Build_Chain (chain_a c) b'), h'. split; [by hstep E|]. apply held_chain. by eexists [], _.
  - destruct (Z.leb_spec cnt (zlen bs1)) as [Hle|Hgt].
    + destruct (hl_advance _ hrep_core _ _ _ _ _ cnt H1 ltac:(lia)) as (a' & h' & E & H').
      exists (Build_Chain a' (chain_b c)), h'. split; [by hstep E|]. apply held_chain.
      exists (zdrop cnt bs1), bs2. rewrite zdrop_app_l by lia. split; [done|]. apply (Hk1 _ _ _ hcs); [done|zlia].
    + destruct (hl_advance _ hrep_core _ _ _ _ _ (zlen bs1) H1 ltac:(zlia)) as (a' & h1 & Ea & H').
      assert (Hh1 : chain_held h1 (Build_Chain a' (chain_b c)) (zdrop (zlen bs1) bs1) bs2 n hcs)
        by (apply (Hk1 _ _ _ hcs); [done|zlia]).
      destruct (Hadv2 h1 _ _ (cnt - zlen bs1) Hh1) as (b' & h' & Eb & Hh'); [lia|].
      exists (Build_Chain a' b'), h'. split.
      { hstep Ea. rewrite usub_ok, hm_bind_lift by lia. by hstep Eb. }
      apply held_chain. rewrite zdrop_ge in Hh' by lia. eexists [], _. rewrite zdrop_app_r by lia. done.
Qed.

Lemma chain_held_drop h c bs1 bs2 n hcs :
  chain_held h c bs1 bs2 n hcs → Z.of_nat n + zlen hcs <= isize_max →
  ∃ h', hdrop c h = Ret (tt, h') ∧ left_behind chain_rep h' c (bs1 ++ bs2) n hcs.
Proof.
  intros (own1 & ref1 & own2 & ref2 & Hu & H1 & H2 & Hn & Hp) Hmax. cbn.
  destruct (hl_drop _ hrep_core h (chain_a c) bs1 (length (own1 ++ ref1)) (own2 ++ ref2 ++ hcs))
    as (h1 & E1 & own1' & ref1' & H1' & Hn1 & Hp1).
  { exists own1, ref1. split; [done|]. split; [lia|]. eapply pool_perm; [|exact Hp]. solve_Permutation. }
  { rewrite app_assoc, zlen_app. unfold zlen at 1. lia. }
  destruct (hl_drop _ hrep_core h1 (chain_b c) bs2 (length (own2 ++ ref2)) (ref1' ++ hcs))
    as (h2 & E2 & own2' & ref2' & H2' & Hn2 & Hp2).
  { exists own2, ref2. split; [done|]. split; [lia|]. eapply pool_perm; [|exact Hp1]. solve_Permutation. }
  { rewrite zlen_app. rewrite length_app in Hn1. unfold zlen at 1. lia. }
  exists h2. split; [by hstep E1|]. exists (own1' ++ own2'), (ref1' ++ ref2').
  split; [by exists bs1, own1', ref1', bs2, own2', ref2'|]. split; [rewrite !length_app in *; lia|].
  eapply pool_perm; [|exact Hp2]. solve_Permutation.
Qed.

Lemma chain_hcore_laws : hcore_laws chain_rep.
Proof.
  constructor; intros h c bs n hcs.
  - intros (bs1 & bs2 & -> & Hh)%held_chain. destruct (chain_held_remaining _ _ _ _ _ _ Hh) as (E1 & E2 & Hu).
    cbn. rewrite E1, E2, zlen_app. by apply saturating_add_small.
  - intros (bs1 & bs2 & -> & Hh)%held_chain. destruct (chain_held_remaining _ _ _ _ _ _ Hh) as (E1 & _).
    cbn. unfold hhas_remaining. rewrite E1. destruct (chain_first _ _ _ _ _ _ Hh) as (k1 & hs1 & H1 & _).
    destruct (chain_second _ _ _ _ _ _ Hh) as (k2 & hs2 & H2 & _).
    destruct (Z.ltb_spec 0 (zlen bs1)) as [Hz|Hz].
    + destruct (hl_chunk _ hrep_core _ _ _ _ _ H1) as (x & Ex & Hpre & Hx). exists x. split; [done|].
      split; [by apply prefix_app_r|]. intros E%Hx. rewrite E in Hz. zlia.
    + assert (bs1 = []) as -> by (apply zlen_0_nil; pose_zlen; lia). by eapply (hl_chunk _ hrep_core).
  - intros cnt (bs1 & bs2 & -> & Hh)%held_chain Hc. rewrite zlen_app in Hc. by apply chain_held_advance.
  - intros (bs1 & bs2 & -> & Hh)%held_chain Hmax. by apply chain_held_drop.
Qed.

(** The two calls of [put] when the bytes asked for cross the boundary. *)
Lemma chain_copy_cross h c bs1 bs2 n hcs len :
  chain_held h c bs1 bs2 n hcs → Z.of_nat n + zlen hcs + 2 <= isize_max →
  0 < zlen bs1 < len → len <= zlen bs1 + zlen bs2 → len <= isize_max →
  ∃ x c' h', (ret ← with_capacity len;
              '(ret, a) ← bm_put ret (Build_RefMut (chain_a c));
              '(ret, b) ← bm_put ret (take_new (Build_RefMut (chain_b c)) (len - zlen bs1));
              r ← freeze ret;
              mret (r, Build_Chain (referent a) (referent (take_inner b)))) h = Ret ((x, c'), h') ∧
    chain_held h' c' [] (zdrop (len - zlen bs1) bs2) n ((HBytes x, bs1 ++ ztake (len - zlen bs1) bs2) :: hcs).
Proof.
  intros Hh Hmax Hz Hle Hi. pose proof usize_isize_max. pose proof isize_max_pos.
  destruct (chain_first _ _ _ _ _ _ Hh) as (k1 & hs1 & H1 & Hk1 & Hnext1).
  destruct (held_with_capacity h _ _ _ _ len H1) as (m & h1 & E1 & Hc1 & Hl1 & Hh1); [lia|]. hstep E1.
  destruct (put_with_ok (ref_core_laws hrep_core) copy_to_bytes h1 (Build_RefMut (chain_a c)) bs1 k1 m [] (hs1 ++ hcs))
    as [(m2 & [a'] & h2 & E2 & Hc2 & Hh2)|(_ & Hlt & _)]; [by apply held_ref|zlia|right; lia| |lia].
  unfold bm_put. hstep E2. apply left_behind_ref in Hh2. specialize (Hc2 ltac:(lia)).
  apply (held_frame _ _ _ _ _ _ (hs1 ++ (HMut m2, bs1) :: hcs)) in Hh2; [|solve_Permutation].
  specialize (Hnext1 h2 a' [] _ Hh2 ltac:(zlia)).
  destruct (chain_second _ _ _ _ _ _ Hnext1) as (k2 & hs2 & H2 & Hk2 & Hnext2). cbn in H2, Hnext2.
  apply (held_frame _ _ _ _ _ _ ((HMut m2, bs1) :: hs2 ++ hcs)) in H2; [|solve_Permutation].
  assert (Hl2 : m_len m2 = zlen bs1)
    by (destruct (held_pool_mut _ _ _ _ _ _ _ H2) as [l Hl]; by apply pool_mut_len in Hl as [? _]).
  destruct (put_take_ok hrep_core copy_to_bytes h2 _ bs2 k2 m2 bs1 (hs2 ++ hcs) (len - zlen bs1) H2)
    as (m3 & src3 & h3 & E3 & _ & Hh3); [zlia|lia|lia|lia|lia|].
  destruct (held_freeze _ _ _ _ _ _ _ Hh3) as (x & h4 & E4 & Hh4).
  eexists x, _, h4. split; [hstep E3; by hstep E4|].
  apply (Hnext2 h4); [|zlia]. eapply held_frame; [exact Hh4|solve_Permutation].
Qed.

Lemma chain_copy_ok h c bs1 bs2 n hcs len :
  chain_held h c bs1 bs2 n hcs → Z.of_nat n + zlen hcs + 2 <= isize_max →
  0 <= len <= zlen bs1 + zlen bs2 → len <= isize_max →
  ∃ x c' h', chain_copy_to_bytes c len h = Ret ((x, c'), h') ∧
    held chain_rep h' c' (zdrop len (bs1 ++ bs2)) n ((HBytes x, ztake len (bs1 ++ bs2)) :: hcs).
Proof.
  intros Hh Hmax Hlen Hi. destruct (chain_held_remaining _ _ _ _ _ _ Hh) as (E1 & E2 & _).
  unfold chain_copy_to_bytes. rewrite E1. destruct (Z.leb_spec len (zlen bs1)) as [Hle|Hgt].
  - destruct (chain_first _ _ _ _ _ _ Hh) as (k & hs & H1 & Hk & Hnext).
    destruct (copy_to_bytes_ok h _ bs1 k _ len H1) as (x & a' & h' & E & Hh'); [zlia|lia|done|].
    eexists x, _, h'. split; [by hstep E|]. rewrite zdrop_app_l, ztake_app_l by lia.
    apply held_chain. eexists _, _. split; [done|]. apply Hnext; [|zlia].
    eapply held_frame; [exact Hh'|solve_Permutation].
  - destruct (Z.eqb_spec (zlen bs1) 0) as [E0|E0].
    + apply zlen_0_nil in E0 as ->. destruct (chain_second _ _ _ _ _ _ Hh) as (k & hs & H2 & Hk & Hnext).
      destruct (copy_to_bytes_ok h _ bs2 k _ len H2) as (x & b' & h' & E & Hh'); [zlia|zlia|done|].
      eexists x, _, h'. split; [by hstep E|]. apply held_chain. exists [], (zdrop len bs2). split; [done|].
      apply Hnext; [|pose_zlen; rewrite zlen_drop_max; lia]. eapply held_frame; [exact Hh'|solve_Permutation].
    + rewrite usub_ok, hm_bind_lift by lia. rewrite E2.
      rewrite (hm_bind_Ret _ _ _ tt h) by (apply hassert_ok, Z.leb_le; lia).
      destruct (chain_copy_cross h c bs1 bs2 n hcs len Hh) as (x & c' & h' & E & Hh'); [done|zlia|lia|done|].
      exists x, c', h'. split; [done|]. rewrite zdrop_app_r, ztake_app_r by lia.
      apply held_chain. by eexists [], _.
Qed.

Lemma chain_copy_past h c bs1 bs2 n hcs len :
  chain_held h c bs1 bs2 n hcs → zlen bs1 + zlen bs2 < len ∨ isize_max < len →
  ∃ f, chain_copy_to_bytes c len h = Fault f ∧ is_panic f.
Proof.
  intros Hh Hlen. destruct (chain_held_remaining _ _ _ _ _ _ Hh) as (E1 & E2 & _). pose_zlen.
  unfold chain_copy_to_bytes. rewrite E1. destruct (Z.leb_spec len (zlen bs1)) as [Hle|Hgt].
  - destruct (chain_first _ _ _ _ _ _ Hh) as (k & hs & H1 & _).
    destruct (copy_to_bytes_past h _ bs1 k _ len H1) as (f & E & Hf); [lia|].
    exists f. split; [by apply hm_bind_Fault|done].
  - destruct (Z.eqb_spec (zlen bs1) 0) as [E0|E0].
    + destruct (chain_second _ _ _ _ _ _ Hh) as (k & hs & H2 & _).
      destruct (copy_to_bytes_past h _ bs2 k _ len H2) as (f & E & Hf); [lia|].
      exists f. split; [by apply hm_bind_Fault|done].
    + rewrite usub_ok, hm_bind_lift by lia. rewrite E2.
      destruct (Z.leb_spec (len - zlen bs1) (zlen bs2)); [|by exists PanicAssert].
      exists PanicCapacity. split; [|done].
      rewrite (hm_bind_Ret _ _ _ tt h) by done. apply hm_bind_Fault, with_capacity_panics. lia.
Qed.

#[export] Instance chain_hlaws : HBufLaws (Chain B C).
Proof using HLB HLC.
  refine {| hrep := chain_rep; hrep_core := chain_hcore_laws |}.
  - intros h c bs n hcs len (bs1 & bs2 & -> & Hh)%held_chain Hmax Hlen Hi. rewrite zlen_app in Hlen.
    by apply chain_copy_ok.
  - intros h c bs n hcs len (bs1 & bs2 & -> & Hh)%held_chain Hlen. rewrite zlen_app in Hlen.
    by eapply chain_copy_past.
Defined.
End chain.
End sources.
