(* ===== verification/HBufPut.v ===== *)
(** * HBufPut: [BytesMut::put] from any lawful source

    With memory of its own the destination copies the chunks of the source; without, it
    takes over the memory of a copy of the source, if nothing shares it. *)

From S2P Require Import Prelude Machine Buf BufSpec BufSources BufAdapters Loom Heap Bytes BytesMut.
From S2P Require Import BytesInv BytesOps BytesPool BytesProps BytesMutOps BytesMutReserve BytesMutPool BytesMutShare.
From S2P Require Import HBuf HBufSpec HBufSources.
Open Scope Z_scope.

Section put.
Context `{T : Target, AL : Allocator} {B : Type} `{HB : !HBuf B, HL : !HBufLaws B}.

(** Once the copy of the source is the first handle: take its memory over, or append it. *)
Lemma put_copied h x bs m hcs src :
  pool_ok h ((HBytes x, bs) :: (HMut m, []) :: hcs) → zlen hcs + 2 <= isize_max →
  let run := (r ← try_into_mut x;
              match r with
              | Ok bytes_mut => _ ← bm_drop m; mret (bytes_mut, src)
              | Err bytes =>
                s ← bytes_as_slice bytes;
                self ← bm_extend_from_slice m s;
                _ ← bytes_drop bytes;
                mret (self, src)
              end) h : outcome (BytesMut * B * heap) in
  (∃ m' h', run = Ret ((m', src), h') ∧ pool_ok h' ((HMut m', bs) :: hcs)) ∨
  (m_cap m - m_len m < zlen bs ∧ ∃ f, run = Fault f ∧ capacity_panic f).
Proof.
  intros Hp Hmax. cbv zeta.
  destruct (pool_try_into_mut h x bs _ Hp) as [(_ & _ & m' & h1 & E & Hp1 & _)|[_ E]]; [zlia|left|]; hstep E.
  - eapply pool_perm in Hp1; [|apply Permutation_swap].
    destruct (pool_drop h1 (HMut m) _ _ Hp1) as (h2 & E2 & Hp2); [zlia|]. cbn in E2. hstep E2. by exists m', h2.
  - hstep (pool_read _ _ _ _ Hp). eapply pool_perm in Hp; [|apply Permutation_swap].
    destruct (pool_extend h m [] _ bs Hp) as [(m' & h1 & E1 & Hp1 & _)|(_ & Hlt & f & Ef & Hf)]; [zlia|left|right].
    + hstep E1. eapply pool_perm in Hp1; [|apply Permutation_swap].
      destruct (pool_drop h1 (HBytes x) _ _ Hp1) as (h2 & E2 & Hp2); [zlia|]. cbn in E2. hstep E2.
      by exists m', h2.
    + split; [done|]. exists f. split; [by apply hm_bind_Fault|done].
Qed.

(** A destination with no memory. *)
Lemma put_empty h src bs n m hcs :
  held hrep h src bs n ((HMut m, []) :: hcs) → Z.of_nat n + zlen hcs + 3 <= isize_max →
  m_cap m = 0 → m_len m = 0 → bs ≠ [] →
  (∃ m' src' h', bm_put m src h = Ret ((m', src'), h') ∧ left_behind hrep h' src' [] n ((HMut m', bs) :: hcs)) ∨
  (∃ f, bm_put m src h = Fault f ∧ is_panic f).
Proof.
  intros Hh Hmax Hc Hl Hne. unfold bm_put, bm_put_with.
  rewrite (held_has_remaining hrep_core _ _ _ _ _ Hh), negb_involutive, bool_decide_eq_false_2 by done.
  rewrite Hc, (hl_remaining _ hrep_core _ _ _ _ _ Hh). cbn [Z.eqb].
  destruct (Z.leb_spec (zlen bs) isize_max) as [Hi|Hi].
  2: { destruct (copy_to_bytes_past h src bs n _ (zlen bs) Hh) as (f & E & Hf); [lia|].
       right. exists f. split; [by apply hm_bind_Fault|done]. }
  destruct (copy_to_bytes_ok h src bs n _ (zlen bs) Hh) as (x & src' & h1 & E1 & Hh1); [zlia|zlia|done|].
  hstep E1. rewrite zdrop_ge, ztake_ge in Hh1 by lia.
  destruct (hl_drop _ hrep_core _ _ _ _ _ Hh1) as (h2 & E2 & own & ref & Hr & Hn & Hp2); [zlia|]. hstep E2.
  rewrite length_app in Hn.
  eapply (pool_perm _ _ ((HBytes x, bs) :: (HMut m, []) :: ref ++ hcs)) in Hp2; [|solve_Permutation].
  destruct (put_copied h2 x bs m (ref ++ hcs) src' Hp2) as [(m' & h' & E & Hp')|(_ & f & E & Hf)].
  { rewrite zlen_app. unfold zlen at 1. lia. }
  - left. exists m', src', h'. split; [exact E|]. exists own, ref. split; [done|].
    split; [by rewrite length_app|]. eapply pool_perm; [|exact Hp']. solve_Permutation.
  - right. exists f. split; [exact E|]. by apply capacity_panic_is_panic.
Qed.


Lemma bm_put_ok h src bs n m cur hcs :
  held hrep h src bs n ((HMut m, cur) :: hcs) → Z.of_nat n + zlen hcs + 3 <= isize_max →
  (∃ m' src' h', bm_put m src h = Ret ((m', src'), h') ∧
     left_behind hrep h' src' [] n ((HMut m', cur ++ bs) :: hcs) ∧
     (zlen bs <= m_cap m - m_len m → m_cap m' = m_cap m)) ∨
  (m_cap m - m_len m < zlen bs ∧ ∃ f, bm_put m src h = Fault f ∧ is_panic f).
Proof.
  intros Hh Hmax. destruct (held_pool_mut _ _ _ _ _ _ _ Hh) as [l Hl]. apply pool_mut_len in Hl as (El & Hc & _).
  destruct (decide (bs = [] ∨ m_cap m ≠ 0)) as [Hcase|Hcase].
  - destruct (put_with_ok hrep_core copy_to_bytes h src bs n m cur hcs Hh) as [(m' & src' & h' & E & Hs & Hl)|(_ & Hlt & f & E & Hf)];
      [lia|done| |].
    + left. by exists m', src', h'.
    + right. split; [done|]. exists f. split; [done|by apply capacity_panic_is_panic].
  - assert (m_cap m = 0 ∧ bs ≠ []) as [H0 Hne] by (destruct (decide (m_cap m = 0)), (decide (bs = [])); tauto).
    assert (cur = []) as -> by (apply zlen_0_nil; pose_zlen; lia). rewrite zlen_nil in El.
    assert (0 < zlen bs) by (destruct bs; [done|zlia]).
    destruct (put_empty h src bs n m hcs Hh Hmax H0 El Hne) as [(m' & src' & h' & E & Hl)|Hf].
    + left. exists m', src', h'. split; [done|]. split; [done|lia].
    + right. split; [lia|done].
Qed.

End put.

Section put_handles.
Context `{T : Target, AL : Allocator}.

(** One live handle put into another. *)
Lemma pool_put_handle {B} `{!HBuf B} (HL : HBufLaws B) (as_handle : B → handle) h m cur src bs hcs :
  hrep (HBufLaws := HL) = handle_rep as_handle →
  pool_ok h ((as_handle src, bs) :: (HMut m, cur) :: hcs) → zlen hcs + 4 <= isize_max →
  (∃ m' src' h', bm_put m src h = Ret ((m', src'), h') ∧ pool_ok h' ((HMut m', cur ++ bs) :: hcs) ∧
     (zlen bs <= m_cap m - m_len m → m_cap m' = m_cap m)) ∨
  (m_cap m - m_len m < zlen bs ∧ ∃ f, bm_put m src h = Fault f ∧ is_panic f).
Proof.
  intros Hrep Hp Hmax. destruct (bm_put_ok h src bs 1 m cur hcs) as [(m' & src' & h' & E & Hl & Hc)|H]; [| |left|by right].
  - rewrite Hrep. by apply held_handle.
  - lia.
  - exists m', src', h'. split; [done|]. split; [|done]. rewrite Hrep in Hl. by destruct Hl as (? & ? & (-> & ->) & _ & Hl).
Qed.

End put_handles.
