(* ===== verification/BytesMutProps.v ===== *)
(** * BytesMutProps: [BytesMut], [Bytes] and [Vec<u8>] together

    Programs over all three kinds of handles, with shared storage on one heap, refine a
    pool of byte strings.  The specification is a relation: how much capacity a growing
    operation ends with, and whether it panics for lack of it, is left open there and
    pinned down by the theorem on [reserve]. *)

From S2P Require Import Prelude Machine Loom Heap Bytes BytesMut BytesInv BytesOps BytesPool BytesProps.
From S2P Require Import BytesMutOps BytesMutReserve BytesMutPool BytesMutShare BytesMutJoin BytesMutReclaim.
From S2P Require Import HBuf HBufSpec HBufSources HBufPut.
From stdpp Require Import fin_maps fin_sets.
Open Scope Z_scope.

(** ** The operations *)
Inductive mop :=
| Base (o : op)                  (* the operations of [Bytes] and dropping *)
| MAdvance (n : Z)
| MSplitOff (n : Z)
| MSplitTo (n : Z)
| MCopyToBytes (n : Z)
| MTruncate (n : Z)
| MResize (n : Z) (b : byte)
| MReserve (n : Z)
| MTryReclaim (n : Z)
| MExtend (bs : list byte)
| MPutBytes (b : byte) (n : Z)
| MWrite (i : Z) (b : byte)      (* [m[i] = b] *)
| MClone
| Freeze
| MIntoVec
| IntoMut                        (* [BytesMut::from(Bytes)] *)
| TryIntoMut.

Definition mop_size_ok (o : mop) : Prop :=
  match o with
  | Base o => op_size_ok o
  | MAdvance n | MSplitOff n | MSplitTo n | MCopyToBytes n | MTruncate n | MResize n _ | MReserve n
  | MTryReclaim n | MPutBytes _ n => 0 <= n
  | _ => True
  end.

(** ** The specification *)

(** Growing [bs] to [bs'] within or beyond the capacity [cap]; [None] is a panic. *)
Definition grown (bs bs' : list byte) (cap n : Z) (r : option (list avalue)) : Prop :=
  (∃ cap', zlen bs + n <= cap' ∧ (n <= cap - zlen bs → cap' = cap) ∧ r = Some [AMut bs' cap']) ∨
  (cap - zlen bs < n ∧ r = None).

Section spec.
Context `{T : Target}.

Definition mspec (o : mop) (a : avalue) (r : option (list avalue)) : Prop :=
  match o, a with
  | Base o, a => r = spec o a
  | MAdvance n, AMut bs cap =>
    r = if n <=? zlen bs then Some [AMut (zdrop n bs) (cap - n)] else None
  | MSplitOff n, AMut bs cap =>
    r = if n <=? cap then Some [AMut (ztake n bs) n; AMut (zdrop n bs) (cap - n)] else None
  | MSplitTo n, AMut bs cap =>
    r = if n <=? zlen bs then Some [AMut (zdrop n bs) (cap - n); AMut (ztake n bs) n] else None
  | MCopyToBytes n, AMut bs cap =>
    r = if n <=? zlen bs then Some [AMut (zdrop n bs) (cap - n); ABytes (ztake n bs)] else None
  | MTruncate n, AMut bs cap => r = Some [AMut (ztake n bs) cap]
  | MResize n b, AMut bs cap => grown bs (resized bs n b) cap (n - zlen bs) r
  | MReserve n, AMut bs cap => grown bs bs cap n r
  | MTryReclaim n, AMut bs cap => ∃ cap', (cap' = cap ∨ zlen bs + n <= cap') ∧ r = Some [AMut bs cap']
  | MExtend new, AMut bs cap => grown bs (bs ++ new) cap (zlen new) r
  | MPutBytes b n, AMut bs cap => grown bs (bs ++ zreplicate n b) cap n r
  | MWrite i b, AMut bs cap =>
    r = if (0 <=? i) && (i <? zlen bs) then Some [AMut (splice bs i [b]) cap] else None
  | MClone, AMut bs cap => r = Some [AMut bs cap; AMut bs (zlen bs)]
  | Freeze, AMut bs _ => r = Some [ABytes bs]
  | MIntoVec, AMut bs _ => r = Some [AVec bs]
  | IntoMut, ABytes bs => ∃ cap, zlen bs <= cap ∧ r = Some [AMut bs cap]
  | TryIntoMut, ABytes bs => r = Some [ABytes bs] ∨ ∃ cap, zlen bs <= cap ∧ r = Some [AMut bs cap]
  | _, a => r = Some [a]
  end.

End spec.

(** ** The code *)
Section exec.
Context `{T : Target, A : Allocator}.

Definition mexec (o : mop) (x : handle) : HM (list handle) :=
  match o, x with
  | Base o, x => exec o x
  | MAdvance n, HMut m => m ← bm_advance m n; mret [HMut m]
  | MSplitOff n, HMut m => '(other, m) ← bm_split_off m n; mret [HMut m; HMut other]
  | MSplitTo n, HMut m => '(other, m) ← bm_split_to m n; mret [HMut m; HMut other]
  | MCopyToBytes n, HMut m => '(b, m) ← bm_copy_to_bytes m n; mret [HMut m; HBytes b]
  | MTruncate n, HMut m => m ← bm_truncate m n; mret [HMut m]
  | MResize n b, HMut m => m ← bm_resize m n b; mret [HMut m]
  | MReserve n, HMut m => m ← reserve m n; mret [HMut m]
  | MTryReclaim n, HMut m => '(_, m) ← try_reclaim m n; mret [HMut m]
  | MExtend bs, HMut m => m ← bm_extend_from_slice m bs; mret [HMut m]
  | MPutBytes b n, HMut m => m ← bm_put_bytes m b n; mret [HMut m]
  | MWrite i b, HMut m => _ ← bm_write m i b; mret [HMut m]
  | MClone, HMut m => m' ← bm_clone m; mret [HMut m; HMut m']
  | Freeze, HMut m => b ← freeze m; mret [HBytes b]
  | MIntoVec, HMut m => v ← bm_into_vec m; mret [HVec v]
  | IntoMut, HBytes x => m ← bytes_into_mut x; mret [HMut m]
  | TryIntoMut, HBytes x =>
    r ← try_into_mut x;
    mret [match r with Ok m => HMut m | Err x => HBytes x end]
  | _, x => mret [x]
  end.

(** One operation, on the first handle of the pool. *)
Definition run_refines (run : outcome (list handle * heap)) (r : option (list avalue))
    (xs : list handle) (avs : list avalue) : Prop :=
  match r with
  | Some new => (length new <= 2)%nat ∧
      ∃ ys h', run = Ret (ys, h') ∧ represents h' (ys ++ xs) (new ++ avs)
  | None => ∃ f, run = Fault f ∧ is_panic f
  end.

(** One handle becomes one handle. *)
Lemma refines_one run h' y a xs avs :
  run = Ret ([y], h') → shows y a → Forall2 shows xs avs →
  pool_ok h' ((y, bytes_of a) :: zip xs (bytes_of <$> avs)) → run_refines run (Some [a]) xs avs.
Proof.
  intros E Hs Hss Hp. split; [cbn; lia|]. exists [y], h'. split; [done|].
  apply represents_app; [by repeat constructor|done|done].
Qed.

(** One handle becomes two. *)
Lemma refines_two run h' y1 a1 y2 a2 xs avs :
  run = Ret ([y1; y2], h') → shows y1 a1 → shows y2 a2 → Forall2 shows xs avs →
  pool_ok h' ((y1, bytes_of a1) :: (y2, bytes_of a2) :: zip xs (bytes_of <$> avs)) →
  run_refines run (Some [a1; a2]) xs avs.
Proof.
  intros E Hs1 Hs2 Hss Hp. split; [cbn; lia|]. exists [y1; y2], h'. split; [done|].
  apply represents_app; [by repeat constructor|done|done].
Qed.

(** The growing operations all have the shape of [grown]. *)
Lemma refines_grown (code : HM BytesMut) h m bs bs' cap n xs avs :
  m_cap m = cap → m_len m = zlen bs → Forall2 shows xs avs →
  (∃ m' h', code h = Ret (m', h') ∧ pool_ok h' ((HMut m', bs') :: zip xs (bytes_of <$> avs)) ∧
     zlen bs + n <= m_cap m' ∧ (n <= m_cap m - m_len m → m_cap m' = m_cap m)) ∨
  out_of_room (code h) h m n →
  ∃ r, grown bs bs' cap n r ∧ run_refines ((m ← code; mret [HMut m]) h) r xs avs.
Proof.
  intros Hcap Hlen Hss [(m' & h' & E & Hp & Hroom & Hsame)|(_ & Hn & f & E & Hf)].
  - exists (Some [AMut bs' (m_cap m')]). split.
    + left. exists (m_cap m'). split; [done|]. split; [|done]. rewrite <- Hlen, <- Hcap. done.
    + eapply refines_one; [hstep E; reflexivity|done|done|done].
  - exists None. split; [right; split; [lia|done]|]. exists f.
    split; [by rewrite (hm_bind_Fault _ _ _ _ E)|by apply capacity_panic_is_panic].
Qed.

Definition mexec_ok (o : mop) (x : handle) (a : avalue) : Prop :=
  ∀ h xs avs, represents h (x :: xs) (a :: avs) → mop_size_ok o → zlen xs + 2 <= isize_max →
    ∃ r, mspec o a r ∧ run_refines (mexec o x h) r xs avs.

Lemma refines_panic run f xs avs : run = Fault f → is_panic f → run_refines run None xs avs.
Proof. by exists f. Qed.

Lemma hassert_fails (c : bool) {X} (k : unit → HM X) h : c = false → (hassert c ≫= k) h = Fault PanicAssert.
Proof. by intros ->. Qed.

Lemma mexec_base o x a : mexec_ok (Base o) x a.
Proof.
  intros h xs avs Hr Ho Hmax. exists (spec o a). split; [done|]. cbn [mexec].
  pose proof (exec_refines o x a h xs avs Hr Ho Hmax) as H. unfold run_refines.
  destruct (spec o a) as [new|] eqn:E; [|done]. split; [by eapply spec_at_most_two|done].
Qed.

(** An operation that does not apply to this kind of handle. *)
Lemma mexec_same o x a :
  mexec o x = mret [x] → (mspec o a = λ r, r = Some [a]) → mexec_ok o x a.
Proof.
  intros E1 E2 h xs avs Hr _ _. exists (Some [a]). rewrite E2, E1. split; [done|]. split; [cbn; lia|].
  by exists [x], h.
Qed.

Lemma mexec_mut_views m bs cap o :
  match o with MAdvance _ | MSplitOff _ | MSplitTo _ | MCopyToBytes _ | MTruncate _ | MWrite _ _ => True | _ => False end →
  mexec_ok o (HMut m) (AMut bs cap).
Proof.
  intros Hop h xs avs Hr Ho Hmax. pose proof (pool_size _ _ _ _ _ Hr) as Hz.
  apply represents_inv in Hr as (Hcap & Hs & Hp). cbn [bytes_of shows] in *.
  pose proof (pool_mut_len _ _ _ _ Hp) as (Hl & Hc & _).
  destruct o as [|n|n|n|n|n| | | | | |i b| | | | |]; try done; cbn in Ho; cbn [mexec mspec];
    (eexists; split; [reflexivity|]).
  - destruct (Z.leb_spec n (zlen bs)).
    + destruct (pool_mut_advance h m bs _ n Hp) as (m' & h' & E & Hp' & Hc'); [lia|].
      eapply refines_one; [hstep E; reflexivity|cbn; lia|done|done].
    + eapply (refines_panic _ PanicAssert); [|done]. unfold bm_advance. apply hm_bind_Fault, hassert_fails, Z.leb_gt. lia.
  - destruct (Z.leb_spec n cap).
    + destruct (pool_mut_split_off h m bs _ n Hp) as (m1 & m2 & h' & E & Hc1 & Hc2 & Hp'); [lia|lia|].
      eapply refines_two; [hstep E; reflexivity|done|cbn; lia|done|done].
    + eapply (refines_panic _ PanicAssert); [|done]. unfold bm_split_off. apply hm_bind_Fault, hassert_fails, Z.leb_gt. lia.
  - destruct (Z.leb_spec n (zlen bs)).
    + destruct (pool_mut_split_to h m bs _ n Hp) as (m1 & m2 & h' & E & Hc1 & Hc2 & Hp'); [lia|lia|].
      eapply refines_two; [hstep E; reflexivity|cbn; lia|done|done|done].
    + eapply (refines_panic _ PanicAssert); [|done]. unfold bm_split_to. apply hm_bind_Fault, hassert_fails, Z.leb_gt. lia.
  - unfold bm_copy_to_bytes. destruct (Z.leb_spec n (zlen bs)).
    + destruct (pool_mut_split_to h m bs _ n Hp) as (m1 & m2 & h' & E & Hc1 & Hc2 & Hp'); [lia|lia|].
      eapply pool_perm in Hp'; [|apply Permutation_swap].
      destruct (pool_freeze h' m1 _ _ Hp') as (x & h2 & E2 & Hp2).
      eapply pool_perm in Hp2; [|apply Permutation_swap].
      eapply (refines_two _ h2 (HMut m2) _ (HBytes x)); [|cbn; lia|done|done|exact Hp2].
      rewrite (hm_bind_Ret _ _ _ (x, m2) h2); [done|]. hstep E. by hstep E2.
    + eapply (refines_panic _ PanicAssert); [|done]. unfold bm_split_to.
      apply hm_bind_Fault, hm_bind_Fault, hassert_fails, Z.leb_gt. lia.
  - destruct (pool_mut_truncate h m bs _ n Hp Ho) as (m' & E & Hp' & Hc').
    eapply refines_one; [hstep E; reflexivity|cbn; lia|done|done].
  - destruct ((0 <=? i) && (i <? zlen bs)) eqn:Eb.
    + apply andb_prop in Eb as [H1%Z.leb_le H2%Z.ltb_lt].
      destruct (pool_bm_write h m bs _ i b Hp) as (h' & E & Hp'); [lia|].
      eapply refines_one; [hstep E; reflexivity|done|done|done].
    + eapply (refines_panic _ PanicIndex); [|done]. apply hm_bind_Fault. unfold bm_write. by rewrite Hl, Eb.
Qed.

Lemma mexec_mut_grow m bs cap o :
  match o with MResize _ _ | MReserve _ | MExtend _ | MPutBytes _ _ => True | _ => False end →
  mexec_ok o (HMut m) (AMut bs cap).
Proof.
  intros Hop h xs avs Hr Ho Hmax. pose proof (pool_size _ _ _ _ _ Hr) as Hz.
  apply represents_inv in Hr as (Hcap & Hs & Hp). cbn [bytes_of shows] in *.
  pose proof (pool_mut_len _ _ _ _ Hp) as (Hl & Hc & _).
  destruct o as [| | | | | |n b|n| |new|b n| | | | | |]; try done; cbn in Ho; cbn [mexec mspec];
    apply (refines_grown _ h m); try done.
  - destruct (pool_resize h m bs _ n b Hp) as [(m' & h' & E & Hp' & Hsame)|H]; [lia|done| |by right].
    left. exists m', h'. split; [done|]. split; [done|]. split; [|rewrite Hl in Hsame |- *; exact Hsame].
    pose proof (pool_mut_len _ _ _ _ Hp') as (_ & Hc' & _). unfold resized in Hc'.
    rewrite zlen_app, zlen_take_min in Hc'. pose proof (zlen_nonneg (zreplicate (n - zlen bs) b)).
    unfold zlen at 2 in Hc'. unfold zreplicate in Hc'. rewrite length_replicate in Hc'. lia.
  - destruct (pool_reserve h m bs _ n Hp) as [(m' & h' & E & Hp' & Hroom & Hsame)|H]; [lia| |by right].
    left. exists m', h'. split; [done|]. split; [done|]. split; [done|]. intros Hn. by destruct (Hsame Hn) as [-> _].
  - destruct (pool_extend h m bs _ new Hp) as [(m' & h' & E & Hp' & Hsame)|H]; [lia| |by right].
    left. exists m', h'. split; [done|]. split; [done|]. pose proof (pool_mut_len _ _ _ _ Hp') as (_ & Hc' & _).
    rewrite zlen_app in Hc'. split; [lia|]. intros Hn. by destruct (Hsame Hn).
  - pose proof (put_bytes_extend h m b n Ho) as Eq. rewrite Eq. pose proof (zlen_replicate n b Ho) as Hzn.
    destruct (pool_extend h m bs _ (zreplicate n b) Hp) as [(m' & h' & E & Hp' & Hsame)|H];
      [lia| |right; by rewrite Hzn in H].
    left. exists m', h'. split; [done|]. split; [done|]. pose proof (pool_mut_len _ _ _ _ Hp') as (_ & Hc' & _).
    rewrite zlen_app in Hc'. rewrite Hzn in *. split; [lia|]. intros Hn. by destruct (Hsame Hn).
Qed.

Lemma to_vec_cap bs h v h' : to_vec bs h = Ret (v, h') → hv_cap v = zlen bs.
Proof.
  intros (v0 & h0 & E0 & (u & h1 & E1 & [= <- <-])%hm_bind_inv)%hm_bind_inv. cbn.
  unfold hvec_with_capacity in E0. destruct (Z.ltb_spec isize_max (zlen bs)); [done|].
  destruct (Z.eqb_spec (zlen bs) 0) as [E|E]; [by injection E0 as <- _|].
  apply hm_bind_inv in E0 as (l & h2 & _ & [= <- _]). done.
Qed.

Lemma mexec_mut_convert m bs cap o :
  match o with MTryReclaim _ | MClone | Freeze | MIntoVec => True | _ => False end →
  mexec_ok o (HMut m) (AMut bs cap).
Proof.
  intros Hop h xs avs Hr Ho Hmax. pose proof (pool_size _ _ _ _ _ Hr) as Hz.
  apply represents_inv in Hr as (Hcap & Hs & Hp). cbn [bytes_of shows] in *.
  pose proof (pool_mut_len _ _ _ _ Hp) as (Hl & Hc & _).
  destruct o as [| | | | | | | |n| | | | | | | |]; try done; cbn in Ho; cbn [mexec mspec].
  - destruct (pool_try_reclaim h m bs _ n Hp) as (b & m' & h' & E & Hp' & Hb); [lia|].
    exists (Some [AMut bs (m_cap m')]). split.
    + exists (m_cap m'). split; [|done]. destruct b; [by right|]. destruct Hb as [-> _]. by left.
    + eapply refines_one; [hstep E; reflexivity|done|done|done].
  - eexists. split; [reflexivity|].
    destruct (pool_to_vec h bs _ Hp ltac:(lia)) as (v & h1 & E1 & Hp1).
    destruct (pool_mut_from_vec h1 v bs _ Hp1) as (m' & E2 & Hp2 & Hc').
    rewrite (to_vec_cap _ _ _ _ E1) in Hc'. eapply pool_perm in Hp2; [|apply Permutation_swap].
    eapply (refines_two _ h1 (HMut m) _ (HMut m')); [|done|done|done|exact Hp2].
    rewrite (hm_bind_Ret _ _ _ m' h1); [done|]. unfold bm_clone, bm_from_slice.
    hstep (pool_mut_read _ _ _ _ Hp). by hstep E1.
  - eexists. split; [reflexivity|]. destruct (pool_freeze h m bs _ Hp) as (x & h' & E & Hp').
    eapply refines_one; [hstep E; reflexivity|done|done|done].
  - eexists. split; [reflexivity|]. destruct (pool_mut_into_vec h m bs _ Hp) as (v & h' & E & Hp'); [lia|].
    eapply refines_one; [hstep E; reflexivity|done|done|done].
Qed.

Lemma mexec_into_mut x bs o :
  match o with IntoMut | TryIntoMut => True | _ => False end → mexec_ok o (HBytes x) (ABytes bs).
Proof.
  intros Hop h xs avs Hr Ho Hmax. pose proof (pool_size _ _ _ _ _ Hr) as Hz.
  apply represents_inv in Hr as (_ & Hs & Hp). cbn [bytes_of] in *.
  destruct o; try done; cbn [mexec mspec].
  - destruct (pool_into_mut h x bs _ Hp) as (m & h' & E & Hp'); [lia|].
    pose proof (pool_mut_len _ _ _ _ Hp') as (_ & Hc & _).
    exists (Some [AMut bs (m_cap m)]). split; [exists (m_cap m); split; [lia|done]|].
    eapply refines_one; [hstep E; reflexivity|done|done|done].
  - destruct (pool_try_into_mut h x bs _ Hp) as [(_ & _ & m & h' & E & Hp' & _)|(_ & E)]; [lia| |].
    + pose proof (pool_mut_len _ _ _ _ Hp') as (_ & Hc & _).
      exists (Some [AMut bs (m_cap m)]). split; [right; exists (m_cap m); split; [lia|done]|].
      eapply refines_one; [hstep E; reflexivity|done|done|done].
    + exists (Some [ABytes bs]). split; [by left|].
      eapply refines_one; [hstep E; reflexivity|done|done|done].
Qed.

Lemma mexec_refines o x a : shows x a → mexec_ok o x a.
Proof.
  intros Hs. destruct x, a; try done; destruct o;
    first [by apply mexec_base | by apply mexec_mut_views | by apply mexec_mut_grow
          | by apply mexec_mut_convert | by apply mexec_into_mut | by apply mexec_same].
Qed.

End exec.

(** ** Programs *)
Inductive minstr :=
| Old (c : instr)                (* a new vector, static data *)
| WithCapacity (n : Z)           (* [BytesMut::with_capacity(n)] *)
| FromSlice (bs : list byte)     (* [BytesMut::from(&bs[..])] *)
| MDo (i : nat) (o : mop)        (* an operation on the [i]-th handle *)
| Unsplit (i j : nat)            (* [i].unsplit([j]), [j] counted without [i] *)
| Put (i j : nat).               (* [i].put([j]), a [Bytes] or a [BytesMut] *)

Section programs.
Context `{T : Target, A : Allocator}.

Definition minstr_ok (c : minstr) : Prop :=
  match c with
  | Old c => instr_ok c
  | WithCapacity n => 0 <= n
  | MDo _ o => mop_size_ok o
  | _ => True
  end.

Definition mexec_instr (c : minstr) (pool : list handle) : HM (list handle) :=
  match c with
  | Old c => exec_instr c pool
  | WithCapacity n => m ← with_capacity n; mret (HMut m :: pool)
  | FromSlice bs => m ← bm_from_slice bs; mret (HMut m :: pool)
  | MDo i o =>
    match pool !! i with
    | Some x => ys ← mexec o x; mret (ys ++ delete i pool)
    | None => mret pool
    end
  | Unsplit i j =>
    match pool !! i, delete i pool !! j with
    | Some (HMut m1), Some (HMut m2) => m ← unsplit m1 m2; mret (HMut m :: delete j (delete i pool))
    | _, _ => mret pool
    end
  | Put i j =>
    match pool !! i, delete i pool !! j with
    | Some (HMut m), Some (HBytes x) => '(m, _) ← bm_put m x; mret (HMut m :: delete j (delete i pool))
    | Some (HMut m), Some (HMut m2) => '(m, _) ← bm_put m m2; mret (HMut m :: delete j (delete i pool))
    | _, _ => mret pool
    end
  end.

Definition mspec_instr (c : minstr) (avs : list avalue) (r : option (list avalue)) : Prop :=
  match c with
  | Old c => r = spec_instr c avs
  | WithCapacity n => r = if n <=? isize_max then Some (AMut [] n :: avs) else None
  | FromSlice bs => r = if zlen bs <=? isize_max then Some (AMut bs (zlen bs) :: avs) else None
  | MDo i o =>
    match avs !! i with
    | Some a => ∃ new, mspec o a new ∧ r = ((λ new, new ++ delete i avs) <$> new)
    | None => r = Some avs
    end
  | Unsplit i j =>
    match avs !! i, delete i avs !! j with
    | Some (AMut b1 c1), Some (AMut b2 c2) =>
      (∃ cap, zlen (b1 ++ b2) <= cap ∧ r = Some (AMut (b1 ++ b2) cap :: delete j (delete i avs))) ∨
      (c1 - zlen b1 < zlen b2 ∧ r = None)
    | _, _ => r = Some avs
    end
  | Put i j =>
    match avs !! i, delete i avs !! j with
    | Some (AMut b1 c1), Some (ABytes b2 | AMut b2 _) =>
      ∃ new, grown b1 (b1 ++ b2) c1 (zlen b2) new ∧ r = ((λ new, new ++ delete j (delete i avs)) <$> new)
    | _, _ => r = Some avs
    end
  end.

Fixpoint run_mprog (prog : list minstr) (pool : list handle) : HM (list handle) :=
  match prog with
  | [] => mret pool
  | c :: prog => pool ← mexec_instr c pool; run_mprog prog pool
  end.

Fixpoint mspec_prog (prog : list minstr) (avs : list avalue) (r : option (list avalue)) : Prop :=
  match prog with
  | [] => r = Some avs
  | c :: prog => ∃ r1, mspec_instr c avs r1 ∧
      match r1 with Some avs' => mspec_prog prog avs' r | None => r = None end
  end.

(** One instruction: a result of the specification that the code reaches. *)
Definition instr_refined (run : outcome (list handle * heap)) (r : option (list avalue)) (xs : list handle) : Prop :=
  match r with
  | Some avs' => ∃ xs' h', run = Ret (xs', h') ∧ represents h' xs' avs' ∧ zlen xs' <= zlen xs + 1
  | None => ∃ f, run = Fault f ∧ is_panic f
  end.

Lemma minstr_new h xs avs (code : HM hvec) bs cap :
  represents h xs avs →
  (∃ v h', code h = Ret (v, h') ∧ pool_ok h' ((HVec v, bs) :: zip xs (bytes_of <$> avs)) ∧ hv_cap v = cap) →
  instr_refined ((v ← code; m ← bm_from_vec v; mret (HMut m :: xs)) h) (Some (AMut bs cap :: avs)) xs.
Proof.
  intros [Hs _] (v & h' & E & Hp & Hc). destruct (pool_mut_from_vec h' v bs _ Hp) as (m & E2 & Hp2 & Hc2).
  exists (HMut m :: xs), h'. split; [hstep E; by hstep E2|]. split; [|rewrite zlen_cons; lia].
  split; [|done]. constructor; [cbn; lia|done].
Qed.

(** Allocation above [isize::MAX]. *)
Lemma minstr_too_big (code : HM hvec) h xs r :
  code h = Fault PanicCapacity → r = None →
  instr_refined ((v ← code; m ← bm_from_vec v; mret (HMut m :: xs)) h) r xs.
Proof. intros E ->. exists PanicCapacity. split; [by apply hm_bind_Fault|done]. Qed.

Lemma minstr_do h xs avs i o :
  represents h xs avs → mop_size_ok o → zlen xs + 2 <= isize_max →
  ∃ r, mspec_instr (MDo i o) avs r ∧ instr_refined (mexec_instr (MDo i o) xs h) r xs.
Proof.
  intros Hr Hc Hmax. cbn [mspec_instr mexec_instr]. destruct (xs !! i) as [x|] eqn:Hx.
  - destruct (represents_focus h xs avs i x Hr Hx) as (a & Ha & Hr'). rewrite Ha.
    assert (Hd : (length (delete i xs) + 1 = length xs)%nat).
    { rewrite length_delete by eauto. apply lookup_lt_Some in Hx. lia. }
    pose proof (represents_inv _ _ _ _ _ Hr') as (Hxa & _).
    destruct (mexec_refines o x a Hxa h _ _ Hr' Hc) as (r & Hsp & Hrun); [unfold zlen in *; lia|].
    eexists. split; [exists r; split; [done|reflexivity]|]. destruct r as [new|]; cbn in *.
    + destruct Hrun as (Hlen & ys & h' & E & Hr2). exists (ys ++ delete i xs), h'.
      split; [by hstep E|]. split; [done|].
      pose proof (represents_length _ _ _ Hr2) as Hl2. apply represents_length in Hr'.
      rewrite !length_app in Hl2. cbn in Hr'. unfold zlen. rewrite length_app. lia.
    + destruct Hrun as (f & E & Hf). exists f. split; [by apply hm_bind_Fault|done].
  - assert (avs !! i = None) as ->.
    { apply lookup_ge_None. apply lookup_ge_None in Hx. apply represents_length in Hr. lia. }
    exists (Some avs). split; [done|]. exists xs, h. split; [done|]. split; [done|lia].
Qed.

(** Two handles taken out of the pool. *)
Lemma represents_pair h xs avs i j x y :
  represents h xs avs → xs !! i = Some x → delete i xs !! j = Some y →
  ∃ a b, avs !! i = Some a ∧ delete i avs !! j = Some b ∧ shows x a ∧ shows y b ∧
    Forall2 shows (delete j (delete i xs)) (delete j (delete i avs)) ∧
    zlen (delete j (delete i xs)) = zlen xs - 2 ∧
    zlen (zip (delete j (delete i xs)) (bytes_of <$> delete j (delete i avs))) <= zlen xs - 2 ∧
    pool_ok h ((x, bytes_of a) :: (y, bytes_of b) ::
               zip (delete j (delete i xs)) (bytes_of <$> delete j (delete i avs))).
Proof.
  intros Hr Hx Hy. destruct (represents_focus h xs avs i x Hr Hx) as (a & Ha & Hr1).
  pose proof Hr1 as (Hxa & Hs1 & Hp1)%represents_inv.
  destruct (Forall2_lookup_l _ _ _ _ _ Hs1 Hy) as (b & Hb & Hyb). exists a, b.
  repeat (split; [done|]). split; [by apply Forall2_delete|].
  assert (Hlen : zlen (delete j (delete i xs)) = zlen xs - 2).
  { apply lookup_lt_Some in Hx as Hx', Hy as Hy'. unfold zlen. rewrite !length_delete in * by eauto. lia. }
  split; [done|]. split; [unfold zlen in *; rewrite length_zip_with; lia|].
  eapply pool_perm; [|exact Hp1]. apply Permutation_skip.
  assert (bytes_of <$> delete j (delete i avs) = delete j (bytes_of <$> delete i avs)) as ->
    by apply list_fmap_delete.
  apply (zip_focus _ _ j y (bytes_of b)); [done|]. by rewrite list_lookup_fmap, Hb.
Qed.

(** A place without a handle has no value either. *)
Lemma represents_none h xs avs i j x :
  represents h xs avs → xs !! i = Some x → delete i xs !! j = None → delete i avs !! j = None.
Proof.
  intros Hr Hx Hy. destruct (represents_focus h xs avs i x Hr Hx) as (a & Ha & Hr1).
  apply represents_inv in Hr1 as (_ & Hs1 & _). apply lookup_ge_None. apply lookup_ge_None in Hy.
  apply Forall2_length in Hs1. lia.
Qed.

(** An instruction that does nothing. *)
Lemma instr_same h xs avs : represents h xs avs → instr_refined ((mret xs : HM (list handle)) h) (Some avs) xs.
Proof. intros Hr. exists xs, h. split; [done|]. split; [done|lia]. Qed.

Lemma instr_joined h xs avs i j m bs cap h' :
  represents h xs avs → (∃ x y, xs !! i = Some x ∧ delete i xs !! j = Some y) → m_cap m = cap →
  pool_ok h' ((HMut m, bs) :: zip (delete j (delete i xs)) (bytes_of <$> delete j (delete i avs))) →
  instr_refined (Ret (HMut m :: delete j (delete i xs), h')) (Some (AMut bs cap :: delete j (delete i avs))) xs.
Proof.
  intros Hr (x & y & Hx & Hy) Hc Hp. destruct (represents_pair _ _ _ _ _ _ _ Hr Hx Hy) as (a & b & _ & _ & _ & _ & Hs & Hl & _).
  eexists _, h'. split; [reflexivity|]. split; [|rewrite zlen_cons; lia]. split; [by constructor|done].
Qed.

Lemma minstr_unsplit h xs avs i j :
  represents h xs avs → zlen xs + 2 <= isize_max →
  ∃ r, mspec_instr (Unsplit i j) avs r ∧ instr_refined (mexec_instr (Unsplit i j) xs h) r xs.
Proof.
  intros Hr Hmax. cbn [mspec_instr mexec_instr]. pose proof (instr_same _ _ _ Hr) as Hsame.
  destruct (xs !! i) as [x|] eqn:Hx.
  2: { apply represents_length in Hr. rewrite (proj2 (lookup_ge_None avs i)) by (apply lookup_ge_None in Hx; lia).
       by exists (Some avs). }
  destruct (delete i xs !! j) as [y|] eqn:Hy.
  2: { rewrite (represents_none _ _ _ _ _ _ Hr Hx Hy). exists (Some avs). split; [by repeat case_match|by repeat case_match]. }
  destruct (represents_pair _ _ _ _ _ _ _ Hr Hx Hy) as (a & b & -> & -> & Hxa & Hyb & Hs & Hl & Hz & Hp).
  destruct x as [x|v|m1], a as [b1|b1|b1 c1]; try done; try (by exists (Some avs)).
  destruct y as [y|v|m2], b as [b2|b2|b2 c2]; try done; try (by exists (Some avs)).
  cbn [shows bytes_of] in *. pose proof (pool_mut_len _ _ _ _ Hp) as (Hl1 & _).
  destruct (pool_unsplit h m1 b1 m2 b2 _ Hp) as [(m & h' & E & Hp')|(_ & Hroom & f & E & Hf)].
  { rewrite !zlen_cons. lia. }
  - pose proof (pool_mut_len _ _ _ _ Hp') as (_ & Hcap & _).
    eexists. split; [left; exists (m_cap m); split; [lia|reflexivity]|]. hstep E.
    eapply (instr_joined h); eauto.
  - exists None. split; [right; split; [lia|done]|]. exists f.
    split; [by apply hm_bind_Fault|by apply capacity_panic_is_panic].
Qed.

Lemma put_refines {B} `{!HBuf B} (HL : HBufLaws B) (as_handle : B → handle) h xs avs i j m src b1 c1 b2 :
  hrep (HBufLaws := HL) = handle_rep as_handle → represents h xs avs →
  (∃ x y, xs !! i = Some x ∧ delete i xs !! j = Some y) → m_cap m = c1 → zlen xs + 2 <= isize_max →
  zlen (zip (delete j (delete i xs)) (bytes_of <$> delete j (delete i avs))) <= zlen xs - 2 →
  pool_ok h ((HMut m, b1) :: (as_handle src, b2) :: zip (delete j (delete i xs)) (bytes_of <$> delete j (delete i avs))) →
  ∃ r, (∃ new, grown b1 (b1 ++ b2) c1 (zlen b2) new ∧ r = ((λ new, new ++ delete j (delete i avs)) <$> new)) ∧
    instr_refined (('(m, _) ← bm_put m src; mret (HMut m :: delete j (delete i xs))) h) r xs.
Proof.
  intros Hrep Hr Hxy <- Hmax Hz Hp. pose proof (pool_mut_len _ _ _ _ Hp) as (Hl1 & _).
  eapply pool_perm in Hp; [|apply Permutation_swap].
  destruct (pool_put_handle HL as_handle h m b1 src b2 _ Hrep Hp) as [(m' & src' & h' & E & Hp' & Hc)|(Hroom & f & E & Hf)].
  { lia. }
  - pose proof (pool_mut_len _ _ _ _ Hp') as (_ & Hcap & _). rewrite zlen_app in Hcap.
    eexists. split.
    + exists (Some [AMut (b1 ++ b2) (m_cap m')]). split; [|reflexivity]. left. exists (m_cap m').
      split; [lia|]. split; [|done]. by rewrite <- Hl1.
    + hstep E. eapply (instr_joined h); eauto.
  - exists None. split; [exists None; split; [right; split; [lia|done]|done]|]. exists f.
    split; [by apply hm_bind_Fault|done].
Qed.

Lemma minstr_put h xs avs i j :
  represents h xs avs → zlen xs + 2 <= isize_max →
  ∃ r, mspec_instr (Put i j) avs r ∧ instr_refined (mexec_instr (Put i j) xs h) r xs.
Proof.
  intros Hr Hmax. cbn [mspec_instr mexec_instr]. pose proof (instr_same _ _ _ Hr) as Hsame.
  destruct (xs !! i) as [x|] eqn:Hx.
  2: { apply represents_length in Hr. rewrite (proj2 (lookup_ge_None avs i)) by (apply lookup_ge_None in Hx; lia).
       by exists (Some avs). }
  destruct (delete i xs !! j) as [y|] eqn:Hy.
  2: { rewrite (represents_none _ _ _ _ _ _ Hr Hx Hy). exists (Some avs). split; [by repeat case_match|by repeat case_match]. }
  destruct (represents_pair _ _ _ _ _ _ _ Hr Hx Hy) as (a & b & -> & -> & Hxa & Hyb & Hs & Hl & Hz & Hp).
  destruct x as [x|v|m1], a as [b1|b1|b1 c1]; try done; try (by exists (Some avs)).
  destruct y as [y|v|m2], b as [b2|b2|b2 c2]; try done; try (by exists (Some avs)).
  - by apply (put_refines bytes_hlaws HBytes); eauto.
  - by apply (put_refines bm_hlaws HMut); eauto.
Qed.

Lemma minstr_refines c h xs avs :
  represents h xs avs → minstr_ok c → zlen xs + 2 <= isize_max →
  ∃ r, mspec_instr c avs r ∧ instr_refined (mexec_instr c xs h) r xs.
Proof.
  intros Hr Hc Hmax. destruct c as [c|n|bs|i o|i j|i j];
    [| | |by apply minstr_do|by apply minstr_unsplit|by apply minstr_put].
  - exists (spec_instr c avs). split; [done|]. exact (instr_refines c h xs avs Hr Hc Hmax).
  - eexists. split; [reflexivity|]. cbn [mexec_instr]. unfold with_capacity.
    assert (Eq : ∀ r, instr_refined (((v ← hvec_with_capacity n; m ← bm_from_vec v; mret (HMut m :: xs))) h) r xs →
      instr_refined ((m ← (v ← hvec_with_capacity n; bm_from_vec v); mret (HMut m :: xs)) h) r xs).
    { intros r. by rewrite (hm_bind_assoc (hvec_with_capacity n)). }
    apply Eq. cbn in Hc. destruct (Z.leb_spec n isize_max).
    + apply minstr_new; [done|]. apply pool_with_capacity; [apply Hr|lia].
    + apply minstr_too_big; [|done]. unfold hvec_with_capacity. by rewrite (proj2 (Z.ltb_lt _ _)).
  - eexists. split; [reflexivity|]. cbn [mexec_instr]. unfold bm_from_slice.
    assert (Eq : ∀ r, instr_refined (((v ← to_vec bs; m ← bm_from_vec v; mret (HMut m :: xs))) h) r xs →
      instr_refined ((m ← (v ← to_vec bs; bm_from_vec v); mret (HMut m :: xs)) h) r xs).
    { intros r. by rewrite (hm_bind_assoc (to_vec bs)). }
    apply Eq. destruct (Z.leb_spec (zlen bs) isize_max) as [Hle|Hgt].
    + apply minstr_new; [done|]. destruct Hr as [_ Hp]. destruct (pool_to_vec h bs _ Hp Hle) as (v & h' & E & Hp').
      exists v, h'. split; [done|]. split; [done|]. by eapply to_vec_cap.
    + apply minstr_too_big; [|done]. unfold to_vec, hvec_with_capacity. by rewrite (proj2 (Z.ltb_lt _ _)).
Qed.

Lemma mprog_refines prog : ∀ h xs avs,
  represents h xs avs → Forall minstr_ok prog → zlen xs + zlen prog + 1 <= isize_max →
  ∃ r, mspec_prog prog avs r ∧
  match r with
  | Some avs' => ∃ xs' h', run_mprog prog xs h = Ret (xs', h') ∧ represents h' xs' avs' ∧
      zlen xs' <= zlen xs + zlen prog
  | None => ∃ f, run_mprog prog xs h = Fault f ∧ is_panic f
  end.
Proof.
  induction prog as [|c prog IH]; intros h xs avs Hr Hok Hmax; cbn [mspec_prog run_mprog].
  { exists (Some avs). split; [done|]. exists xs, h. split; [done|]. split; [done|zlia]. }
  apply Forall_cons in Hok as [Hc Hok]. rewrite zlen_cons in Hmax. pose proof (zlen_nonneg prog).
  destruct (minstr_refines c h xs avs Hr Hc ltac:(lia)) as (r1 & Hs1 & Hrun).
  destruct r1 as [avs'|]; cbn in Hrun.
  - destruct Hrun as (xs' & h' & E & Hr' & Hlen).
    destruct (IH h' xs' avs' Hr' Hok ltac:(lia)) as (r & Hs & H'). exists r. split; [by exists (Some avs')|].
    hstep E. destruct r; [|done]. destruct H' as (xs2 & h2 & E2 & Hr2 & Hl2). exists xs2, h2.
    split; [done|]. split; [done|]. rewrite zlen_cons. lia.
  - destruct Hrun as (f & E & Hf). exists None. split; [by exists None|]. exists f.
    split; [by apply hm_bind_Fault|done].
Qed.

End programs.

Section facts.
Context `{T : Target, A : Allocator}.

(** What a handle of any kind shows when it is read. *)
Definition handle_slice (x : handle) : HM (list byte) :=
  match x with
  | HBytes x => bytes_as_slice x
  | HVec v => read_slice (hv_ptr v) (hv_len v)
  | HMut m => bm_as_slice m
  end.

Lemma pool_slice_of h x bs hcs : pool_ok h ((x, bs) :: hcs) → handle_slice x h = Ret (bs, h).
Proof.
  intros Hp. destruct x as [x|v|m]; [by eapply pool_read| |by eapply pool_mut_read].
  apply pool_focus in Hp as (rest & fp & gs & Hwf & _).
  apply wf_storage, storage_vec_inv in Hwf as (_ & p & d & Hb & -> & Hv). by eapply view_at_read.
Qed.

Lemma represents_slice h xs avs i x a :
  represents h xs avs → xs !! i = Some x → avs !! i = Some a →
  shows x a ∧ handle_slice x h = Ret (bytes_of a, h).
Proof.
  intros Hr Hx Ha. destruct (represents_focus _ _ _ _ _ Hr Hx) as (a' & Ha' & Hr'). simplify_eq.
  apply represents_inv in Hr' as (Hs & _ & Hp). split; [done|]. by eapply pool_slice_of.
Qed.

(** ** Code that does not allocate *)
Definition no_alloc {X} (c : HM X) : Prop := ∀ h a h', c h = Ret (a, h') → next_loc h' = next_loc h.

Lemma no_alloc_ret {X} (a : X) : no_alloc (mret a).
Proof. by intros h a' h' [= _ <-]. Qed.

Lemma no_alloc_lift {X} (m : outcome X) : no_alloc (lift m).
Proof. intros h a h'. unfold lift. destruct m; [|done]. by intros [= _ <-]. Qed.

Lemma no_alloc_fault {X} f : no_alloc (hfault f : HM X).
Proof. by intros h a h'. Qed.

Lemma no_alloc_bind {X Y} (c : HM X) (k : X → HM Y) :
  no_alloc c → (∀ a, no_alloc (k a)) → no_alloc (c ≫= k).
Proof.
  intros Hc Hk h b h' (a & h1 & E1 & E2)%hm_bind_inv. rewrite (Hk _ _ _ _ E2). by eapply Hc.
Qed.

Lemma no_alloc_get l : no_alloc (get_cell l).
Proof. intros h a h'. unfold get_cell. case_match; [|done]. by intros [= _ <-]. Qed.

Lemma no_alloc_set l c : no_alloc (set_cell l c).
Proof. by intros h a h' [= _ <-]. Qed.

Create HintDb no_alloc.
#[local] Hint Resolve no_alloc_ret no_alloc_lift no_alloc_fault no_alloc_get no_alloc_set : no_alloc.

(** Walks through a body whose calls are known not to allocate. *)
Ltac no_alloc :=
  repeat first
    [ solve [auto with no_alloc]
    | apply no_alloc_bind; [|intros ?]
    | case_match
    | progress cbv zeta ].

Lemma no_alloc_copy p q n : no_alloc (copy_nonoverlapping p q n).
Proof. unfold copy_nonoverlapping, ptr_copy, read_raw, write_raw, ub. no_alloc. Qed.

Lemma no_alloc_vptr p : no_alloc (vptr p).
Proof. unfold vptr. no_alloc. Qed.

Lemma no_alloc_get_vec p : no_alloc (get_vec p).
Proof. unfold get_vec, ub. no_alloc. Qed.

Lemma no_alloc_is_unique p : no_alloc (is_unique p).
Proof. unfold is_unique, on_ref_count, response_val, ub. no_alloc. Qed.

Lemma no_alloc_offset p q : no_alloc (offset_from p q).
Proof. unfold offset_from, ub. no_alloc. Qed.

#[local] Hint Resolve no_alloc_copy no_alloc_vptr no_alloc_get_vec no_alloc_is_unique no_alloc_offset : no_alloc.

Lemma no_alloc_try_reclaim m n : no_alloc (try_reclaim m n).
Proof.
  unfold try_reclaim, reserve_inner, reserve_inner_vec, reserve_inner_unique, get_vec_pos, set_vec_pos, hdebug_assert.
  cbn [negb]. no_alloc.
Qed.

(** ** The class of the original capacity *)
Lemma original_capacity_class cap :
  0 <= cap →
  let c := original_capacity_from_repr (original_capacity_to_repr cap) in
  c <= cap ∧ c <= 65536 ∧ (cap < 1024 → c = 0) ∧ (1024 <= cap → c = 65536 ∨ cap < 2 * c).
Proof.
  intros Hc. cbv zeta. unfold original_capacity_from_repr, original_capacity_to_repr, leading_zeros,
    MAX_ORIGINAL_CAPACITY_WIDTH, MIN_ORIGINAL_CAPACITY_WIDTH.
  rewrite Z.shiftr_div_pow2 by lia. change (2 ^ 10) with 1024.
  destruct (Z.ltb_spec cap 1024) as [Hlt|Hge].
  { rewrite Z.div_small by lia. change (0 =? 0) with true. cbv iota. rewrite Z.sub_diag.
    change (Z.min 0 (17 - 10)) with 0. cbn. lia. }
  assert (Hq : 1 <= cap / 1024) by (apply Z.div_le_lower_bound; lia).
  rewrite (proj2 (Z.eqb_neq (cap / 1024) 0)) by lia.
  set (k := Z.log2 (cap / 1024)). pose proof (Z.log2_nonneg (cap / 1024)) as Hk. fold k in Hk.
  pose proof (Z.log2_spec (cap / 1024) ltac:(lia)) as [Hlo Hhi]. fold k in Hlo, Hhi.
  replace (ptr_width - (ptr_width - 1 - k)) with (k + 1) by lia.
  rewrite (proj2 (Z.eqb_neq _ _)) by lia. rewrite Z.shiftl_1_l.
  set (e := Z.min (k + 1) (17 - 10) + (10 - 1)).
  assert (He : e = Z.min (k + 10) 16) by lia.
  assert (Hpow : 2 ^ e <= 65536) by (change 65536 with (2 ^ 16); apply Z.pow_le_mono_r; lia).
  rewrite wrap_unsigned_small by (pose proof usize_max_ge; unfold usize_max in *; lia).
  pose proof (Z.mul_div_le cap 1024 ltac:(lia)). pose proof (Z.mod_pos_bound cap 1024 ltac:(lia)).
  pose proof (Z.div_mod cap 1024 ltac:(lia)).
  assert (Hk10 : 2 ^ (k + 10) = 2 ^ k * 1024) by (rewrite Z.pow_add_r by lia; done).
  assert (Hle : 2 ^ e <= 2 ^ (k + 10)) by (apply Z.pow_le_mono_r; lia).
  split; [lia|]. split; [done|]. split; [lia|]. intros _.
  destruct (Z.leb_spec (k + 10) 16).
  - right. replace e with (k + 10) by lia. rewrite Z.pow_succ_r in Hhi by lia. lia.
  - left. replace e with 16 by lia. done.
Qed.

End facts.

(** C33: [BytesMut], [Bytes] and [Vec<u8>] together implement the pool of byte strings.
    Every program of constructors, reads and writes in place, growing and shrinking,
    splits and joins, freezing, conversions in all directions, clones and drops ends as
    the specification allows: it panics only where the specification has a panic, and
    otherwise every handle shows exactly the bytes (and a [BytesMut] the capacity) of
    its value, so a write through one handle is never seen by another.  In no case does
    it read, write or free memory it must not. *)
Theorem bytes_mut_programs_refine `{T : Target, A : Allocator} prog :
  Forall minstr_ok prog → zlen prog < isize_max →
  ∃ r, mspec_prog prog [] r ∧
  match r with
  | Some avs =>
    ∃ xs h, run_mprog prog [] empty_heap = Ret (xs, h) ∧ length xs = length avs ∧
      ∀ i x a, xs !! i = Some x → avs !! i = Some a → shows x a ∧ handle_slice x h = Ret (bytes_of a, h)
  | None => ∃ f, run_mprog prog [] empty_heap = Fault f ∧ is_panic f
  end.
Proof.
  intros Hok Hmax.
  destruct (mprog_refines prog empty_heap [] [] represents_empty Hok) as (r & Hs & H);
    [rewrite zlen_nil; lia|].
  exists r. split; [done|]. destruct r as [avs|]; [|done]. destruct H as (xs & h & E & Hr & _).
  exists xs, h. split; [done|]. split; [by eapply represents_length|]. intros i x a. by apply represents_slice.
Qed.

Definition demo_mprog : list minstr :=
  [FromSlice [x01; x02; x03; x04]; MDo 0 (MSplitOff 2); MDo 1 (MWrite 0 x09); MDo 1 (MExtend [x05]);
   MDo 0 Freeze; MDo 0 (Base Clone); MDo 0 (Base Drop); MDo 0 IntoMut; WithCapacity 8; Unsplit 0 0;
   WithCapacity 0; Put 0 0].

Lemma bytes_mut_programs_refine_witness :
  ∃ r, mspec_prog (T := riscv64) demo_mprog [] r ∧
  match r with
  | Some avs =>
    ∃ xs h, run_mprog (T := riscv64) (A := demo_alloc) demo_mprog [] empty_heap = Ret (xs, h) ∧
      length xs = length avs ∧
      ∀ i x a, xs !! i = Some x → avs !! i = Some a → shows x a ∧ handle_slice x h = Ret (bytes_of a, h)
  | None => ∃ f, run_mprog (T := riscv64) (A := demo_alloc) demo_mprog [] empty_heap = Fault f ∧ is_panic f
  end.
Proof.
  apply (bytes_mut_programs_refine (T := riscv64) (A := demo_alloc) demo_mprog); [|done].
  unfold demo_mprog. repeat constructor; done.
Defined.

(** C34: no memory is leaked.  When a program over all three kinds of handles ends with
    no live handle, the heap is empty: every buffer and both kinds of [Shared] boxes
    have been freed. *)
Theorem bytes_mut_no_leak `{T : Target, A : Allocator} prog h :
  Forall minstr_ok prog → zlen prog < isize_max → run_mprog prog [] empty_heap = Ret ([], h) →
  cells h = ∅.
Proof.
  intros Hok Hmax E.
  destruct (mprog_refines prog empty_heap [] [] represents_empty Hok) as (r & Hs & H);
    [rewrite zlen_nil; lia|].
  destruct r as [avs|]; [|by destruct H as (f & E' & _); rewrite E in E'].
  destruct H as (xs & h' & E' & Hr & _). rewrite E in E'. injection E' as <- <-.
  destruct avs; [|by apply represents_length in Hr]. by apply represents_no_leak.
Qed.

Definition demo_mprog_dropped : list minstr :=
  [FromSlice [x01; x02; x03; x04]; MDo 0 (MSplitOff 2); MDo 0 Freeze; MDo 0 (Base Drop);
   MDo 0 (MReserve 100); WithCapacity 0; Put 0 0; MDo 0 MIntoVec; MDo 0 (Base (FromOwner (λ len, (0, len))));
   MDo 0 (Base Clone); MDo 0 (Base Drop); MDo 0 (Base Drop)].

Lemma bytes_mut_no_leak_witness :
  ∃ h, run_mprog (T := riscv64) (A := demo_alloc) demo_mprog_dropped [] empty_heap = Ret ([], h) ∧
    cells h = ∅.
Proof.
  assert (E : ∃ h, run_mprog (T := riscv64) (A := demo_alloc) demo_mprog_dropped [] empty_heap = Ret ([], h)).
  { eexists. vm_compute. reflexivity. }
  destruct E as [h E]. exists h. split; [exact E|].
  apply (bytes_mut_no_leak (T := riscv64) (A := demo_alloc) demo_mprog_dropped); [|done|exact E].
  unfold demo_mprog_dropped. repeat constructor; done.
Defined.

(** A [BytesMut] of two bytes in a vector of four. *)
Definition demo_heap : heap :=
  {| cells := {[0%nat := CBlock [Some x01; Some x02; None; None]]}; next_loc := 1%nat |}.
Definition demo_mut : BytesMut :=
  {| m_ptr := PHeap 0 0; m_len := 2; m_cap := 4; m_data := vec_word 0 0 |}.

Lemma demo_pool : pool_ok (T := riscv64) (A := demo_alloc) demo_heap [(HMut demo_mut, [x01; x02])].
Proof.
  exists [([(HMut demo_mut, [x01; x02])], {[0%nat]})]. split; [|done]. split; [|split; [|split]].
  - apply Forall_singleton.
    eapply (StMutVec (T := riscv64) (A := demo_alloc) demo_heap (PHeap 0 0)
      [Some x01; Some x02; None; None] _ _ 0 0); [by constructor|by repeat split|done..].
  - split; [unfold footprint; cbn; set_solver|done].
  - unfold demo_heap. cbn [cells]. rewrite dom_singleton_L. unfold footprint. cbn. set_solver.
  - intros l. unfold demo_heap. cbn [cells next_loc]. rewrite dom_singleton_L, elem_of_singleton. lia.
Qed.

(** [try_reclaim] keeps the bytes and allocates nothing. *)
Lemma try_reclaim_ok `{T : Target, A : Allocator} h m bs hcs n :
  pool_ok h ((HMut m, bs) :: hcs) → zlen hcs < isize_max →
  ∃ b m' h', try_reclaim m n h = Ret ((b, m'), h') ∧ pool_ok h' ((HMut m', bs) :: hcs) ∧
    next_loc h' = next_loc h ∧ (if b : bool then m_len m' + n <= m_cap m' else m' = m ∧ h' = h) ∧
    (n <= m_cap m - m_len m → b = true ∧ m' = m ∧ h' = h) ∧
    (Exists (λ y, same_storage (HMut m) y.1) hcs → m_cap m - m_len m < n → b = false).
Proof.
  intros Hp Hmax. destruct (pool_try_reclaim h m bs hcs n Hp) as (b & m' & h' & E & Hp' & Hb);
    [rewrite zlen_cons; lia|].
  pose proof (pool_mut_len _ _ _ _ Hp') as (Hl' & _). exists b, m', h'. split; [done|]. split; [done|].
  split; [by eapply no_alloc_try_reclaim|]. split; [destruct b; [lia|done]|]. split.
  - intros Hle. pose proof (pool_mut_len _ _ _ _ Hp) as (Hl & Hc & _). unfold try_reclaim in E. cbv zeta in E.
    rewrite usub_ok, hm_bind_lift, (proj2 (Z.leb_le _ _)) in E by lia. by injection E as <- <- <-.
  - intros Hs Hn. rewrite (pool_reclaim_shared h m bs hcs n) in E; [by injection E as <- _ _|done| |done|done].
    rewrite zlen_cons. lia.
Qed.

(** C35: making room.  In any pool of live handles [reserve] returns a handle that
    shows the same bytes and has room for [n] more, and all other handles show what
    they showed; if there was room already nothing changes at all.  It can only fail
    by a capacity panic, and only when the request, or twice the size of a live buffer
    plus the request, exceeds [isize::MAX].  [try_reclaim] never panics and never
    allocates: it answers [true] with room for [n] more bytes, or [false] and leaves the
    handle and the heap as they were.  It answers [true] if there is room already, and
    [false] if there is not and another live handle shares the buffer. *)
Theorem reserve_correct `{T : Target, A : Allocator} h m bs hcs n :
  pool_ok h ((HMut m, bs) :: hcs) → zlen hcs < isize_max →
  ((∃ m' h', reserve m n h = Ret (m', h') ∧ pool_ok h' ((HMut m', bs) :: hcs) ∧
      m_len m' = m_len m ∧ m_len m' + n <= m_cap m' ∧ (n <= m_cap m - m_len m → m' = m ∧ h' = h)) ∨
   (m_cap m - m_len m < n ∧ huge h n ∧ ∃ f, reserve m n h = Fault f ∧ capacity_panic f)) ∧
  (∃ b m' h', try_reclaim m n h = Ret ((b, m'), h') ∧ pool_ok h' ((HMut m', bs) :: hcs) ∧
     next_loc h' = next_loc h ∧ (if b : bool then m_len m' + n <= m_cap m' else m' = m ∧ h' = h) ∧
     (n <= m_cap m - m_len m → b = true ∧ m' = m ∧ h' = h) ∧
     (Exists (λ y, same_storage (HMut m) y.1) hcs → m_cap m - m_len m < n → b = false)).
Proof.
  intros Hp Hmax. split; [|by apply try_reclaim_ok]. pose proof (pool_mut_len _ _ _ _ Hp) as (Hl & _).
  destruct (pool_reserve h m bs hcs n Hp) as [(m' & h' & E & Hp' & Hroom & Hsame)|(Hh & Hn & Hf)];
    [rewrite zlen_cons; lia|left|by right].
  pose proof (pool_mut_len _ _ _ _ Hp') as (Hl' & _). exists m', h'. split; [done|]. split; [done|].
  split; [lia|]. split; [lia|done].
Qed.

Lemma reserve_correct_witness :
  ∃ b m' h', try_reclaim (T := riscv64) (A := demo_alloc) demo_mut 3 demo_heap = Ret ((b, m'), h') ∧
    pool_ok (T := riscv64) (A := demo_alloc) h' [(HMut m', [x01; x02])] ∧ next_loc h' = next_loc demo_heap.
Proof.
  destruct (reserve_correct (T := riscv64) (A := demo_alloc) demo_heap demo_mut [x01; x02] [] 3) as (_ & b & m' & h' & E & Hp & Hn & _);
    [exact demo_pool|done|]. exists b, m', h'. split; [exact E|]. split; [exact Hp|exact Hn].
Defined.

(** [split_off] and [unsplit] are inverse. *)
Lemma split_unsplit `{T : Target, A : Allocator} h m bs hcs n :
  pool_ok h ((HMut m, bs) :: hcs) → zlen hcs + 2 <= isize_max → 0 <= n <= zlen bs →
  ∃ m1 m2 h1 m' h2, bm_split_off m n h = Ret ((m2, m1), h1) ∧ unsplit m1 m2 h1 = Ret (m', h2) ∧
    m_ptr m' = m_ptr m ∧ m_len m' = m_len m ∧ m_cap m' = m_cap m ∧ pool_ok h2 ((HMut m', bs) :: hcs).
Proof.
  intros Hp Hmax Hn. pose proof (pool_mut_len _ _ _ _ Hp) as (Hl & Hc & Ha).
  destruct (pool_mut_split h m bs hcs n Hp) as (mm & h1 & o & E & H1 & H2 & H3 & Hd & E2 & Hp1);
    [rewrite zlen_cons; lia|lia|].
  set (m1 := with_view mm (m_ptr mm) (Z.min (m_len mm) n) n) in *. set (m2 := moved_on mm n) in *.
  destruct (unsplit_halves mm o n h1 Hd) as (x & y & Eu & Hx & Hy1 & Hy2 & Hy3); [lia|lia|].
  fold m1 m2 in Eu, Hx.
  assert (Hsz : zlen ((HMut m1, ztake n bs) :: (HMut m2, zdrop n bs) :: hcs) <= isize_max)
    by (rewrite !zlen_cons; lia).
  assert (Hdrop : ∃ h2, bm_drop x h1 = Ret (tt, h2)).
  { destruct Hx as [-> | ->].
    - destruct (pool_drop h1 (HMut m1) _ _ Hp1 Hsz) as (h2 & Ed & _). by exists h2.
    - eapply pool_perm in Hp1; [|apply Permutation_swap].
      destruct (pool_drop h1 (HMut m2) _ _ Hp1) as (h2 & Ed & _); [by rewrite !zlen_cons in *|]. by exists h2. }
  destruct Hdrop as [h2 Ed]. rewrite (hm_bind_Ret _ _ _ _ _ Ed) in Eu.
  exists m1, m2, h1, y, h2. split.
  { unfold bm_split_off. rewrite (hm_bind_Ret _ _ _ tt h) by (apply hassert_ok, Z.leb_le; lia).
    hstep E. by hstep E2. }
  split; [done|]. do 3 (split; [congruence|]).
  destruct (pool_unsplit h1 m1 _ m2 _ hcs Hp1 Hsz) as [(m' & h2' & Eu' & Hp')|(_ & _ & f & Ef & _)].
  - rewrite Eu in Eu'. injection Eu' as <- <-. by rewrite ztake_zdrop in Hp'.
  - by rewrite Eu in Ef.
Qed.

(** C36: the data word of a [BytesMut] in the vector representation.  Storing any
    position up to [MAX_VEC_POS] keeps the kind and the class of the original capacity
    and reads back; the class stands for a power of two between half the capacity and
    the capacity, cut off at 64 KiB, and for 0 below 1 KiB. *)
Theorem data_word_roundtrip `{T : Target, A : Allocator} v m h h' pos :
  bm_from_vec v h = Ret (m, h') → 0 <= hv_cap v → 0 <= pos <= MAX_VEC_POS →
  let repr := original_capacity_to_repr (hv_cap v) in
  let c := original_capacity_from_repr repr in
  (∃ m', set_vec_pos m pos h = Ret (m', h) ∧ get_vec_pos m' h = Ret (pos, h) ∧ bm_kind m' = KIND_VEC ∧
     Z.shiftr (Z.land (ptr_addr (m_data m')) ORIGINAL_CAPACITY_MASK) ORIGINAL_CAPACITY_OFFSET = repr) ∧
  c <= hv_cap v ∧ c <= 65536 ∧ (hv_cap v < 1024 → c = 0) ∧
  (1024 <= hv_cap v → c = 65536 ∨ hv_cap v < 2 * c).
Proof.
  intros (p & h1 & _ & [= <- <-])%hm_bind_inv Hc Hpos. cbv zeta. split; [|by apply original_capacity_class].
  pose proof (original_capacity_to_repr_ok _ Hc) as Hr. rewrite vec_data_ok by done.
  set (r := original_capacity_to_repr (hv_cap v)) in *.
  eexists. split; [by eapply set_vec_pos_ok|].
  split; [by eapply get_vec_pos_ok|]. split; [by eapply bm_kind_vec|]. by apply vec_word_repr.
Qed.

Lemma data_word_roundtrip_witness :
  let v := {| hv_ptr := PHeap 0 0; hv_len := 2; hv_cap := 3000 |} in
  let m := {| m_ptr := PHeap 0 0; m_len := 2; m_cap := 3000; m_data := PAddr 9 |} in
  (∃ m', set_vec_pos (T := riscv64) (A := demo_alloc) m 77 empty_heap = Ret (m', empty_heap) ∧
     get_vec_pos (T := riscv64) (A := demo_alloc) m' empty_heap = Ret (77, empty_heap) ∧
     bm_kind (A := demo_alloc) m' = KIND_VEC ∧
     Z.shiftr (Z.land (ptr_addr (A := demo_alloc) (m_data m')) ORIGINAL_CAPACITY_MASK) ORIGINAL_CAPACITY_OFFSET = 2) ∧
  2048 <= 3000 ∧ 2048 <= 65536 ∧ (3000 < 1024 → 2048 = 0) ∧ (1024 <= 3000 → 2048 = 65536 ∨ 3000 < 2 * 2048).
Proof.
  cbv zeta.
  exact (data_word_roundtrip (T := riscv64) (A := demo_alloc) {| hv_ptr := PHeap 0 0; hv_len := 2; hv_cap := 3000 |}
    _ empty_heap empty_heap 77 eq_refl ltac:(done) ltac:(done)).
Defined.

(** C37: [try_into_mut] takes no copy.  It returns a [BytesMut] at the same address with
    the same bytes exactly when the storage is on the heap, does not belong to a user's
    owner and no other live handle shares it; otherwise it gives the [Bytes] back with nothing changed.  The other
    handles show what they showed. *)
Theorem try_into_mut_correct `{T : Target, A : Allocator} h x bs hcs :
  pool_ok h ((HBytes x, bs) :: hcs) → zlen hcs < isize_max →
  (borrowed_vtable (b_vtable x) = false ∧ Forall (λ y, ¬ same_storage (HBytes x) y.1) hcs ∧
   ∃ m h', try_into_mut x h = Ret (Ok m, h') ∧ m_ptr m = b_ptr x ∧ m_len m = b_len x ∧
     pool_ok h' ((HMut m, bs) :: hcs)) ∨
  ((borrowed_vtable (b_vtable x) = true ∨ Exists (λ y, same_storage (HBytes x) y.1) hcs) ∧
   try_into_mut x h = Ret (Err x, h)).
Proof.
  intros Hp Hmax. pose proof (pool_bytes_len _ _ _ _ Hp) as (Hl & _).
  destruct (pool_try_into_mut h x bs hcs Hp) as [(H1 & H2 & m & h' & E & Hp' & Hptr)|H];
    [rewrite zlen_cons; lia|left|by right].
  pose proof (pool_mut_len _ _ _ _ Hp') as (Hl' & _). split; [done|]. split; [done|]. exists m, h'.
  split; [done|]. split; [done|]. split; [lia|done].
Qed.

Lemma try_into_mut_correct_witness :
  (borrowed_vtable (b_vtable boxed_bytes) = false ∧
   Forall (λ y : handle * list byte, ¬ same_storage (HBytes boxed_bytes) y.1) [] ∧
   ∃ m h', try_into_mut (T := riscv64) (A := demo_alloc) boxed_bytes boxed_heap = Ret (Ok m, h') ∧
     m_ptr m = b_ptr boxed_bytes ∧ m_len m = b_len boxed_bytes ∧
     pool_ok (T := riscv64) (A := demo_alloc) h' [(HMut m, [x02; x03])]) ∨
  ((borrowed_vtable (b_vtable boxed_bytes) = true ∨
    Exists (λ y : handle * list byte, same_storage (HBytes boxed_bytes) y.1) []) ∧
   try_into_mut (T := riscv64) (A := demo_alloc) boxed_bytes boxed_heap = Ret (Err boxed_bytes, boxed_heap)).
Proof.
  apply (try_into_mut_correct (T := riscv64) (A := demo_alloc) boxed_heap _ [x02; x03] []); [exact boxed_pool|done].
Defined.

(** The front's memory comes back once it is dropped. *)
Lemma reclaim_split `{T : Target, A : Allocator} h m bs hcs n :
  pool_ok h ((HMut m, bs) :: hcs) → zlen hcs + 2 <= isize_max → bm_kind m = KIND_VEC →
  m_cap m - m_len m < n <= m_cap m →
  ∃ front back h1 h2 back' h3, bm_split m h = Ret ((front, back), h1) ∧
    try_reclaim back n h1 = Ret ((false, back), h1) ∧
    bm_drop front h1 = Ret (tt, h2) ∧
    try_reclaim back n h2 = Ret ((true, back'), h3) ∧
    m_len back' = 0 ∧ n <= m_cap back' ∧ pool_ok h3 ((HMut back', []) :: hcs).
Proof.
  intros Hp Hmax Hk Hn. pose proof (pool_mut_len _ _ _ _ Hp) as (Hl & Hc & _). pose proof (zlen_nonneg bs).
  destruct (split_owned h m bs hcs Hp) as (front & back & o & s & h1 & E & Hd1 & Hd2 & Hcap & Ho & Hone & Hs & Hp1);
    [by rewrite zlen_cons; lia|done|].
  assert (Hsz : zlen ((HMut back, []) :: (HMut front, bs) :: hcs) <= isize_max) by (rewrite !zlen_cons; lia).
  assert (Hfree : m_cap back - m_len back < n).
  { pose proof (pool_mut_len _ _ _ _ Hp1) as (Hlb & _). rewrite zlen_nil in Hlb. lia. }
  pose proof (pool_reclaim_shared h1 back [] _ n Hp1 Hsz) as Hno.
  eapply pool_perm in Hp1; [|apply Permutation_swap].
  destruct (pool_drop h1 (HMut front) bs _ Hp1) as (h2 & Ed & Hp2); [by rewrite !zlen_cons in *|].
  cbn [drop_handle] in Ed. pose proof (drop_counted h1 front o s Hd1 Ho ltac:(lia)) as Ed'. rewrite Ed in Ed'.
  injection Ed' as ->.
  destruct (pool_reclaim_last _ back hcs o (with_count s (sv_ref_count s - 1)) n Hp2) as (b' & h3 & Er & Hp3 & Hr);
    [by rewrite !zlen_cons in *; lia|done|apply lookup_insert_eq|cbn; lia|cbn; lia|].
  pose proof (pool_mut_len _ _ _ _ Hp3) as (Hl3 & _). rewrite zlen_nil in Hl3.
  eexists front, back, h1, _, b', h3. split; [done|]. split; [|by repeat split].
  apply Hno; [|done]. apply Exists_cons. left. exists o. cbn. by rewrite Hd1, Hd2.
Qed.

(** C38: the halves of a split.  Splitting a [BytesMut] within its bytes and joining the two
    halves with [unsplit] gives back the same bytes at the same address with the same
    capacity.  Otherwise the memory is reused: when a [BytesMut] that owns its vector is
    split, the back half cannot get the front's memory while the front is alive; once the
    front is dropped, [try_reclaim] gives the back half the whole vector again. *)
Theorem split_join_reclaim `{T : Target, A : Allocator} h m bs hcs :
  pool_ok h ((HMut m, bs) :: hcs) → zlen hcs + 2 <= isize_max →
  (∀ n, 0 <= n <= zlen bs →
     ∃ m1 m2 h1 m' h2, bm_split_off m n h = Ret ((m2, m1), h1) ∧ unsplit m1 m2 h1 = Ret (m', h2) ∧
       m_ptr m' = m_ptr m ∧ m_len m' = m_len m ∧ m_cap m' = m_cap m ∧ pool_ok h2 ((HMut m', bs) :: hcs)) ∧
  (∀ n, bm_kind m = KIND_VEC → m_cap m - m_len m < n <= m_cap m →
     ∃ front back h1 h2 back' h3, bm_split m h = Ret ((front, back), h1) ∧
       try_reclaim back n h1 = Ret ((false, back), h1) ∧
       bm_drop front h1 = Ret (tt, h2) ∧
       try_reclaim back n h2 = Ret ((true, back'), h3) ∧
       m_len back' = 0 ∧ n <= m_cap back' ∧ pool_ok h3 ((HMut back', []) :: hcs)).
Proof. intros Hp Hmax. split; [intros n; by apply split_unsplit|intros n; by apply (reclaim_split h m bs)]. Qed.

Lemma split_join_reclaim_witness :
  (∃ m1 m2 h1 m' h2,
    bm_split_off (T := riscv64) (A := demo_alloc) demo_mut 1 demo_heap = Ret ((m2, m1), h1) ∧
    unsplit (T := riscv64) (A := demo_alloc) m1 m2 h1 = Ret (m', h2) ∧
    m_ptr m' = m_ptr demo_mut ∧ m_len m' = m_len demo_mut ∧ m_cap m' = m_cap demo_mut ∧
    pool_ok (T := riscv64) (A := demo_alloc) h2 [(HMut m', [x01; x02])]) ∧
  (∃ front back h1 h2 back' h3,
    bm_split (T := riscv64) (A := demo_alloc) demo_mut demo_heap = Ret ((front, back), h1) ∧
    try_reclaim (T := riscv64) (A := demo_alloc) back 4 h1 = Ret ((false, back), h1) ∧
    bm_drop (T := riscv64) (A := demo_alloc) front h1 = Ret (tt, h2) ∧
    try_reclaim (T := riscv64) (A := demo_alloc) back 4 h2 = Ret ((true, back'), h3) ∧
    m_len back' = 0 ∧ 4 <= m_cap back' ∧ pool_ok (T := riscv64) (A := demo_alloc) h3 [(HMut back', [])]).
Proof.
  destruct (split_join_reclaim (T := riscv64) (A := demo_alloc) demo_heap demo_mut [x01; x02] []) as [H1 H2]; [exact demo_pool|done|].
  split; [apply (H1 1); done|apply (H2 4); done].
Defined.
