(* ===== verification/HBufProps.v ===== *)
(** * HBufProps: the properties of [copy_to_bytes] and [BytesMut::put] *)

From S2P Require Import Prelude Machine Buf BufSpec BufSources BufAdapters Loom Heap Bytes BytesMut.
From S2P Require Import BytesInv BytesOps BytesPool BytesProps BytesMutOps BytesMutReserve BytesMutPool BytesMutShare.
From S2P Require Import HBuf HBufSpec HBufSources HBufPut BytesMutProps.
Open Scope Z_scope.

Section copies.
Context `{T : Target, AL : Allocator}.

(** [copy] hands out the next [len] bytes of its source as a [Bytes] and moves the source
    on; it panics exactly when there are not so many, or more than an allocation holds. *)
Definition copies_front {B} (rep : B → list byte → shown → shown → Prop)
    (copy : B → Z → HM (Bytes * B)) : Prop :=
  ∀ h b bs n hcs len, held rep h b bs n hcs → Z.of_nat n + zlen hcs + 2 <= isize_max → 0 <= len →
  if (len <=? zlen bs) && (len <=? isize_max) then
    ∃ x b' h', copy b len h = Ret ((x, b'), h') ∧
      held rep h' b' (zdrop len bs) n ((HBytes x, ztake len bs) :: hcs)
  else ∃ f, copy b len h = Fault f ∧ is_panic f.

Lemma copies_front_intro {B} (rep : B → list byte → shown → shown → Prop) copy :
  (∀ h b bs n hcs len, held rep h b bs n hcs → Z.of_nat n + zlen hcs + 2 <= isize_max →
    0 <= len <= zlen bs → len <= isize_max →
    ∃ x b' h', copy b len h = Ret ((x, b'), h') ∧
      held rep h' b' (zdrop len bs) n ((HBytes x, ztake len bs) :: hcs)) →
  (∀ h b bs n hcs len, held rep h b bs n hcs → zlen bs < len ∨ isize_max < len →
    ∃ f, copy b len h = Fault f ∧ is_panic f) →
  copies_front rep copy.
Proof.
  intros Hok Hpast h b bs n hcs len Hh Hmax Hlen.
  destruct (Z.leb_spec len (zlen bs)), (Z.leb_spec len isize_max); cbn; [apply Hok|eapply Hpast|eapply Hpast|eapply Hpast];
    eauto with lia.
Qed.

Lemma lawful_copies_front {B} `{!HBuf B} (HL : HBufLaws B) : copies_front hrep copy_to_bytes.
Proof. apply copies_front_intro; [apply copy_to_bytes_ok|apply copy_to_bytes_past]. Qed.


End copies.

(** The platform and the allocator of the witnesses. *)
#[local] Existing Instances riscv64 demo_alloc.

(** C39: [copy_to_bytes] returns for every source, with the next [len] bytes in a [Bytes]
    of their own, and leaves the source just behind them; it panics exactly when fewer
    bytes remain (or [len] is more than an allocation can hold).  This holds of the
    provided method, whatever the required methods of a lawful source are and although it
    and [BytesMut::put] call each other, of [Bytes] and [BytesMut], and of references,
    boxes, prefixes and chains of lawful sources. *)
Theorem copy_to_bytes_correct `{T : Target, AL : Allocator} :
  (∀ B (HC : HBufCore B) rep fuel, hcore_laws rep → copies_front rep (copy_to_bytes_default (HC := HC) (S fuel))) ∧
  copies_front (handle_rep HBytes) split_to ∧
  copies_front (handle_rep HMut) bm_copy_to_bytes ∧
  (∀ B C (HB : HBuf B) (HC : HBuf C) (LB : HBufLaws B) (LC : HBufLaws C),
     copies_front (ref_rep hrep) (ref_copy (B := B) copy_to_bytes) ∧
     copies_front boxed_rep (boxed_copy_to_bytes (B := B)) ∧
     copies_front htake_rep (take_copy_to_bytes (B := B)) ∧
     copies_front chain_rep (chain_copy_to_bytes (B := B) (C := C))).
Proof.
  split; [|split; [|split]].
  - intros B HC rep fuel L. apply copies_front_intro; [apply (default_copy_ok L)|apply (default_copy_past L)].
  - exact (lawful_copies_front bytes_hlaws).
  - exact (lawful_copies_front bm_hlaws).
  - intros B C HB HC LB LC. split; [exact (lawful_copies_front ref_hlaws)|].
    split; [exact (lawful_copies_front boxed_hlaws)|].
    split; [exact (lawful_copies_front take_hlaws)|exact (lawful_copies_front chain_hlaws)].
Qed.

(** Three bytes across the boundary of a chain of two slices. *)
Lemma copy_to_bytes_correct_witness :
  ∃ x c h, chain_copy_to_bytes (Build_Chain [x01; x02] [x03; x04]) 3 empty_heap
      = Ret ((x, c), h) ∧
    held chain_rep h c [x04] 0 [(HBytes x, [x01; x02; x03])].
Proof.
  destruct copy_to_bytes_correct as (_ & _ & _ & H).
  destruct (H (list byte) (list byte) slice_hbuf slice_hbuf slice_hlaws slice_hlaws) as (_ & _ & _ & Hc).
  specialize (Hc empty_heap (Build_Chain [x01; x02] [x03; x04]) [x01; x02; x03; x04] 0%nat [] 3). apply Hc.
  - apply held_chain. exists [x01; x02], [x03; x04]. split; [done|]. exists [], [], [], [].
    split; [done|]. split; [done|]. split; [done|]. split; [done|]. apply represents_empty.
  - done.
  - done.
Defined.


