(* ===== verification/VtablesProps.v ===== *)
(** * VtablesProps: what the calls through the vtable of a [Bytes] do

    The functions of the six vtables ([Vtables]) against the pool of live handles: the calls
    [clone], [drop], [is_unique], [into_vec] and [into_mut] of any handle, whatever stores
    its bytes. *)

From S2P Require Import Prelude Machine Loom Heap Bytes BytesMut Vtables BytesInv BytesOps BytesPool BytesProps.
From S2P Require Import BytesMutShare BytesMutProps.
Open Scope Z_scope.

Section calls.
Context `{T : Target, A : Allocator}.

(** ** A clone and its original count in the same box *)
Lemma clone_arc_data sh p len h y h' :
  shallow_clone_arc sh p len h = Ret (y, h') → b_data y = sh ∧ b_vtable y = SHARED_VTABLE.
Proof. intros E. unfold shallow_clone_arc in E. by hm_inv E. Qed.

Lemma promotable_clone_data vt data p len h y d h' :
  promotable_clone vt data p len h = Ret ((y, d), h') → b_data y = d ∧ b_vtable y = SHARED_VTABLE.
Proof.
  intros E. unfold promotable_clone in E. cbn [run atomic_load] in E.
  destruct (kind_of data =? KIND_ARC); [hm_inv E; by eapply clone_arc_data|].
  unfold shallow_clone_vec in E. apply hm_bind_inv in E as (? & ? & _ & E). do 4 apply hm_bind_inv in E as (? & ? & _ & E).
  cbn [run atomic_compare_exchange] in E. rewrite decide_True in E by done. cbn in E. by hm_inv E.
Qed.

Lemma clone_counted x y x' h h' :
  bytes_clone x h = Ret ((y, x'), h') → b_vtable x ≠ STATIC_VTABLE →
  b_data y = b_data x' ∧ b_vtable x' = b_vtable x ∧ b_vtable y ≠ STATIC_VTABLE.
Proof.
  intros E Hv. unfold bytes_clone, shared_v_clone, owned_clone in E.
  destruct (b_vtable x) eqn:Ev; [done|..]; hm_inv E; rewrite ?Ev;
    repeat match goal with
    | H : promotable_clone _ _ _ _ _ = _ |- _ => apply promotable_clone_data in H as [-> ->]
    | H : shallow_clone_arc _ _ _ _ = _ |- _ => apply clone_arc_data in H as [-> ->]
    | H : (_ ≫= _) _ = Ret _ |- _ => hm_inv H
    end; done.
Qed.

Lemma clone_same_storage h x bs hcs y x' h' :
  pool_ok h ((HBytes x, bs) :: hcs) → zlen ((HBytes x, bs) :: hcs) <= isize_max →
  bytes_clone x h = Ret ((y, x'), h') → b_vtable x ≠ STATIC_VTABLE → same_storage (HBytes x') (HBytes y).
Proof.
  intros Hp Hmax E Hv. destruct (clone_counted _ _ _ _ _ E Hv) as (Hd & Hvx & Hvy).
  destruct (pool_clone h x bs hcs Hp Hmax) as (y0 & x0 & h0 & E0 & [Hs|[o Ho]] & _).
  - rewrite E in E0. simplify_eq. congruence.
  - rewrite E in E0. simplify_eq. exists o. cbn. rewrite Hd, Ho. rewrite <- Hvx in Hv.
    by destruct (b_vtable x0), (b_vtable y0).
Qed.

(** After a clone neither handle is unique. *)
Lemma clone_not_unique h x bs hcs y x' h' :
  pool_ok h ((HBytes x, bs) :: hcs) → zlen hcs + 2 <= isize_max →
  bytes_clone x h = Ret ((y, x'), h') →
  bytes_is_unique x' h' = Ret (false, h') ∧ bytes_is_unique y h' = Ret (false, h').
Proof.
  intros Hp Hmax E. destruct (pool_clone h x bs hcs Hp) as (y0 & x0 & h0 & E0 & _ & _ & Hp' & _);
    [rewrite zlen_cons; lia|]. rewrite E in E0. simplify_eq.
  pose proof (pool_perm _ _ _ (Permutation_swap _ _ _) Hp') as Hpy.
  destruct (pool_into_mut_cases _ _ _ _ Hp') as (b1 & m1 & h1 & E1 & _ & _ & H1); [rewrite !zlen_cons; lia|].
  destruct (pool_into_mut_cases _ _ _ _ Hpy) as (b2 & m2 & h2 & E2 & _ & _ & H2); [rewrite !zlen_cons; lia|].
  rewrite E1, E2. destruct (decide (b_vtable x = STATIC_VTABLE)) as [Hs|Hs].
  - unfold bytes_clone in E. rewrite Hs in E. unfold static_clone in E. hm_inv E.
    match goal with H : (_ ≫= _) _ = Ret _ |- _ => hm_inv H end. rewrite Hs in H1.
    destruct b1; [by destruct H1|]. by destruct b2; [destruct H2|].
  - pose proof (clone_same_storage _ _ _ _ _ _ _ Hp ltac:(rewrite zlen_cons; lia) E Hs) as (o & Ho1 & Ho2).
    destruct b1; [destruct H1 as (_ & [H1 _]%Forall_cons & _); exfalso; apply H1; by exists o|].
    destruct b2; [destruct H2 as (_ & [H2 _]%Forall_cons & _); exfalso; apply H2; by exists o|done].
Qed.

End calls.

(** C30: the vtable calls.  For every live handle, whichever of the six tables it carries,
    the call through that table does what the operation promises.  [clone] gives a view of
    the same memory, leaves the original where it is and neither is unique from then on.
    [drop] takes the handle out of the pool and leaves the others their bytes; when it was
    the last one, every allocation is gone.  [into_vec] and [into_mut] give a vector and a
    [BytesMut] of the same bytes.  [is_unique] changes nothing and answers [true] exactly
    when the bytes are neither static nor an owner's and no other handle counts in the same
    box; then [into_mut] keeps the memory where it is. *)
Theorem vtable_calls_correct `{T : Target, A : Allocator} h x bs hcs :
  pool_ok h ((HBytes x, bs) :: hcs) → zlen hcs + 2 <= isize_max →
  (∃ y x' h', call_clone x h = Ret ((y, x'), h') ∧ b_ptr x' = b_ptr x ∧ shares x y 0 (zlen bs) ∧
     pool_ok h' ((HBytes x', bs) :: (HBytes y, bs) :: hcs) ∧
     call_is_unique x' h' = Ret (false, h') ∧ call_is_unique y h' = Ret (false, h')) ∧
  (∃ h', call_drop x h = Ret (tt, h') ∧ pool_ok h' hcs ∧ (hcs = [] → cells h' = ∅)) ∧
  (∃ v h', call_into_vec x h = Ret (v, h') ∧ pool_ok h' ((HVec v, bs) :: hcs)) ∧
  (∃ b m h', call_is_unique x h = Ret (b, h) ∧ call_into_mut x h = Ret (m, h') ∧
     pool_ok h' ((HMut m, bs) :: hcs) ∧
     if b : bool
     then borrowed_vtable (b_vtable x) = false ∧ Forall (λ y, ¬ same_storage (HBytes x) y.1) hcs ∧ m_ptr m = b_ptr x
     else borrowed_vtable (b_vtable x) = true ∨ Exists (λ y, same_storage (HBytes x) y.1) hcs).
Proof.
  intros Hp Hmax. assert (Hn : zlen ((HBytes x, bs) :: hcs) <= isize_max) by (rewrite zlen_cons; lia).
  destruct (calls_are_operations x h) as (-> & -> & -> & -> & ->). split; [|split; [|split]].
  - destruct (pool_clone_shares h x bs hcs Hp Hn) as (y & x' & h' & E & Hx & Hy & Hp').
    exists y, x', h'. do 4 (split; [done|]).
    destruct (calls_are_operations x' h') as (_ & _ & -> & _), (calls_are_operations y h') as (_ & _ & -> & _).
    eapply (clone_not_unique h x bs hcs); [exact Hp|exact Hmax|exact E].
  - destruct (pool_drop h (HBytes x) bs hcs Hp Hn) as (h' & E & Hp'). exists h'. split; [done|]. split; [done|].
    intros ->. apply represents_no_leak. by split.
  - by apply pool_into_vec.
  - by apply pool_into_mut_cases.
Qed.

(** A boxed slice at an odd address: unshared, then cloned, moved into a [BytesMut] or dropped. *)
Lemma vtable_calls_correct_witness :
  (∃ y x' h', call_clone (T := riscv64) (A := demo_alloc) boxed_bytes boxed_heap = Ret ((y, x'), h') ∧
     pool_ok (T := riscv64) (A := demo_alloc) h' [(HBytes x', [x02; x03]); (HBytes y, [x02; x03])]) ∧
  (∃ h', call_drop (T := riscv64) (A := demo_alloc) boxed_bytes boxed_heap = Ret (tt, h') ∧ cells h' = ∅) ∧
  call_is_unique (T := riscv64) (A := demo_alloc) boxed_bytes boxed_heap = Ret (true, boxed_heap) ∧
  (∃ m h', call_into_mut (T := riscv64) (A := demo_alloc) boxed_bytes boxed_heap = Ret (m, h') ∧
     m_ptr m = PHeap 0 1 ∧ pool_ok (T := riscv64) (A := demo_alloc) h' [(HMut m, [x02; x03])]).
Proof.
  destruct (vtable_calls_correct (T := riscv64) (A := demo_alloc) boxed_heap boxed_bytes [x02; x03] [] boxed_pool)
    as ((y & x' & h1 & E1 & _ & _ & Hp1 & _) & (h2 & E2 & _ & Hc) & _ & b & m & h3 & E3 & E4 & Hp3 & Hb); [done|].
  split; [by exists y, x', h1|]. split; [exists h2; split; [exact E2|exact (Hc eq_refl)]|].
  destruct b; [|destruct Hb as [Hb|Hb]; [discriminate Hb|by apply Exists_nil in Hb]].
  split; [exact E3|]. exists m, h3. destruct Hb as (_ & _ & Hptr). by split.
Defined.
