(* ===== verification/Compare.v ===== *)
(** * Compare: equality, order and hashing of [Bytes] and [BytesMut]

    One instance per [impl] of [PartialEq], [PartialOrd], [Ord] and [Hash] in
    src/patches/bytes/src/bytes.rs and bytes_mut.rs, with the body of the source, over the
    types the crate compares its buffers with: slices, strings, vectors, and references to
    them.  What they are proved against is the comparison of the bytes themselves. *)

From S2P Require Import Prelude Machine Loom Heap Bytes BytesMut BytesInv BytesOps BytesPool BytesProps.
From S2P Require Import BytesMutOps BytesMutPool.
Open Scope Z_scope.

(** ** The language's comparisons of [[u8]] *)

(** Bytes compare as numbers, slices lexicographically. *)
Definition byte_cmp (a b : byte) : comparison := Z.compare (u8_to_Z a) (u8_to_Z b).

Fixpoint slice_cmp (xs ys : list byte) : comparison :=
  match xs, ys with
  | [], [] => Eq
  | [], _ :: _ => Lt
  | _ :: _, [] => Gt
  | x :: xs, y :: ys =>
    match byte_cmp x y with
    | Eq => slice_cmp xs ys
    | c => c
    end
  end.

Definition slice_eq (xs ys : list byte) : bool := bool_decide (xs = ys).

(** ** Traits *)
Class PartialEq (A B : Type) := partial_eq : A → B → HM bool.
Class PartialOrd (A B : Type) := partial_cmp : A → B → HM (option comparison).
Class Ord (A : Type) := cmp : A → A → HM comparison.

(** [hash::Hasher]: the state of the caller and how it takes in data. *)
Class Hasher (S : Type) := {
  write_usize : S → Z → S;
  write : S → list byte → S;
}.

(** [<[u8] as Hash>::hash]: the length, then the bytes. *)
Definition hash_slice {S} `{!Hasher S} (bs : list byte) (state : S) : S :=
  write (write_usize state (zlen bs)) bs.

(** ** Types to compare with *)
Record Slice := { slice_bytes : list byte }.       (* [[u8]] *)
Record Str := { str_bytes : list byte }.           (* [str], by its bytes *)
Record RString := { string_vec : hvec }.           (* [String] *)
Record Ref (A : Type) := { ref_of : A }.           (* [&A] *)
Arguments ref_of {A} _.
Arguments Build_Ref {A} _.

Section impls.
Context `{T : Target, A : Allocator}.

(** [&other[..]] of a [Vec<u8>], and [as_bytes] of a [String]. *)
Definition vec_slice (v : hvec) : HM (list byte) := read_slice (hv_ptr v) (hv_len v).
Definition string_as_bytes (s : RString) : HM (list byte) := vec_slice (string_vec s).

(** ** [Bytes] *)
#[export] Instance bytes_eq : PartialEq Bytes Bytes := λ self other,
  a ← bytes_as_slice self; b ← bytes_as_slice other; mret (slice_eq a b).
#[export] Instance bytes_cmp : Ord Bytes := λ self other,
  a ← bytes_as_slice self; b ← bytes_as_slice other; mret (slice_cmp a b).
#[export] Instance bytes_partial_cmp : PartialOrd Bytes Bytes := λ self other,
  c ← cmp self other; mret (Some c).

#[export] Instance bytes_eq_slice : PartialEq Bytes Slice := λ self other,
  a ← bytes_as_slice self; mret (slice_eq a (slice_bytes other)).
#[export] Instance bytes_cmp_slice : PartialOrd Bytes Slice := λ self other,
  a ← bytes_as_slice self; mret (Some (slice_cmp a (slice_bytes other))).
#[export] Instance slice_eq_bytes : PartialEq Slice Bytes := λ self other, partial_eq other self.
#[export] Instance slice_cmp_bytes : PartialOrd Slice Bytes := λ self other,
  b ← bytes_as_slice other; mret (Some (slice_cmp (slice_bytes self) b)).

#[export] Instance bytes_eq_str : PartialEq Bytes Str := λ self other,
  a ← bytes_as_slice self; mret (slice_eq a (str_bytes other)).
#[export] Instance bytes_cmp_str : PartialOrd Bytes Str := λ self other,
  a ← bytes_as_slice self; mret (Some (slice_cmp a (str_bytes other))).
#[export] Instance str_eq_bytes : PartialEq Str Bytes := λ self other, partial_eq other self.
#[export] Instance str_cmp_bytes : PartialOrd Str Bytes := λ self other,
  b ← bytes_as_slice other; mret (Some (slice_cmp (str_bytes self) b)).

#[export] Instance bytes_eq_vec : PartialEq Bytes hvec := λ self other,
  b ← vec_slice other; partial_eq self {| slice_bytes := b |}.
#[export] Instance bytes_cmp_vec : PartialOrd Bytes hvec := λ self other,
  a ← bytes_as_slice self; b ← vec_slice other; mret (Some (slice_cmp a b)).
#[export] Instance vec_eq_bytes : PartialEq hvec Bytes := λ self other, partial_eq other self.
#[export] Instance vec_cmp_bytes : PartialOrd hvec Bytes := λ self other,
  a ← vec_slice self; b ← bytes_as_slice other; mret (Some (slice_cmp a b)).

#[export] Instance bytes_eq_string : PartialEq Bytes RString := λ self other,
  b ← string_as_bytes other; partial_eq self {| str_bytes := b |}.
#[export] Instance bytes_cmp_string : PartialOrd Bytes RString := λ self other,
  a ← bytes_as_slice self; b ← string_as_bytes other; mret (Some (slice_cmp a b)).
#[export] Instance string_eq_bytes : PartialEq RString Bytes := λ self other, partial_eq other self.
#[export] Instance string_cmp_bytes : PartialOrd RString Bytes := λ self other,
  a ← string_as_bytes self; b ← bytes_as_slice other; mret (Some (slice_cmp a b)).

(** [*self == **other] and [self.partial_cmp(&**other)]. *)
#[export] Instance bytes_eq_ref {B} `{!PartialEq Bytes B} : PartialEq Bytes (Ref B) := λ self other,
  partial_eq self (ref_of other).
#[export] Instance bytes_cmp_ref {B} `{!PartialOrd Bytes B} : PartialOrd Bytes (Ref B) := λ self other,
  partial_cmp self (ref_of other).

#[export] Instance refslice_eq_bytes : PartialEq (Ref Slice) Bytes := λ self other, partial_eq other self.
#[export] Instance refslice_cmp_bytes : PartialOrd (Ref Slice) Bytes := λ self other,
  b ← bytes_as_slice other; mret (Some (slice_cmp (slice_bytes (ref_of self)) b)).
#[export] Instance refstr_eq_bytes : PartialEq (Ref Str) Bytes := λ self other, partial_eq other self.
#[export] Instance refstr_cmp_bytes : PartialOrd (Ref Str) Bytes := λ self other,
  b ← bytes_as_slice other; mret (Some (slice_cmp (str_bytes (ref_of self)) b)).

Definition bytes_hash {S} `{!Hasher S} (self : Bytes) (state : S) : HM S :=
  s ← bytes_as_slice self; mret (hash_slice s state).

(** ** [BytesMut] *)
#[export] Instance mut_eq : PartialEq BytesMut BytesMut := λ self other,
  a ← bm_as_slice self; b ← bm_as_slice other; mret (slice_eq a b).
#[export] Instance mut_cmp : Ord BytesMut := λ self other,
  a ← bm_as_slice self; b ← bm_as_slice other; mret (slice_cmp a b).
#[export] Instance mut_partial_cmp : PartialOrd BytesMut BytesMut := λ self other,
  c ← cmp self other; mret (Some c).

#[export] Instance mut_eq_slice : PartialEq BytesMut Slice := λ self other,
  a ← bm_as_slice self; mret (slice_eq a (slice_bytes other)).
#[export] Instance mut_cmp_slice : PartialOrd BytesMut Slice := λ self other,
  a ← bm_as_slice self; mret (Some (slice_cmp a (slice_bytes other))).
#[export] Instance slice_eq_mut : PartialEq Slice BytesMut := λ self other, partial_eq other self.
#[export] Instance slice_cmp_mut : PartialOrd Slice BytesMut := λ self other,
  b ← bm_as_slice other; mret (Some (slice_cmp (slice_bytes self) b)).

#[export] Instance mut_eq_str : PartialEq BytesMut Str := λ self other,
  a ← bm_as_slice self; mret (slice_eq a (str_bytes other)).
#[export] Instance mut_cmp_str : PartialOrd BytesMut Str := λ self other,
  a ← bm_as_slice self; mret (Some (slice_cmp a (str_bytes other))).
#[export] Instance str_eq_mut : PartialEq Str BytesMut := λ self other, partial_eq other self.
#[export] Instance str_cmp_mut : PartialOrd Str BytesMut := λ self other,
  b ← bm_as_slice other; mret (Some (slice_cmp (str_bytes self) b)).

#[export] Instance mut_eq_vec : PartialEq BytesMut hvec := λ self other,
  b ← vec_slice other; partial_eq self {| slice_bytes := b |}.
#[export] Instance mut_cmp_vec : PartialOrd BytesMut hvec := λ self other,
  a ← bm_as_slice self; b ← vec_slice other; mret (Some (slice_cmp a b)).
#[export] Instance vec_eq_mut : PartialEq hvec BytesMut := λ self other, partial_eq other self.
#[export] Instance vec_cmp_mut : PartialOrd hvec BytesMut := λ self other, partial_cmp other self.

#[export] Instance mut_eq_string : PartialEq BytesMut RString := λ self other,
  b ← string_as_bytes other; partial_eq self {| str_bytes := b |}.
#[export] Instance mut_cmp_string : PartialOrd BytesMut RString := λ self other,
  a ← bm_as_slice self; b ← string_as_bytes other; mret (Some (slice_cmp a b)).
#[export] Instance string_eq_mut : PartialEq RString BytesMut := λ self other, partial_eq other self.
#[export] Instance string_cmp_mut : PartialOrd RString BytesMut := λ self other,
  a ← string_as_bytes self; b ← bm_as_slice other; mret (Some (slice_cmp a b)).

#[export] Instance mut_eq_ref {B} `{!PartialEq BytesMut B} : PartialEq BytesMut (Ref B) := λ self other,
  partial_eq self (ref_of other).
#[export] Instance mut_cmp_ref {B} `{!PartialOrd BytesMut B} : PartialOrd BytesMut (Ref B) := λ self other,
  partial_cmp self (ref_of other).

#[export] Instance refslice_eq_mut : PartialEq (Ref Slice) BytesMut := λ self other, partial_eq other self.
#[export] Instance refslice_cmp_mut : PartialOrd (Ref Slice) BytesMut := λ self other,
  b ← bm_as_slice other; mret (Some (slice_cmp (slice_bytes (ref_of self)) b)).
#[export] Instance refstr_eq_mut : PartialEq (Ref Str) BytesMut := λ self other, partial_eq other self.
#[export] Instance refstr_cmp_mut : PartialOrd (Ref Str) BytesMut := λ self other, partial_cmp other self.

(** Between the two. *)
#[export] Instance bytes_eq_mut : PartialEq Bytes BytesMut := λ self other,
  b ← bm_as_slice other; a ← bytes_as_slice self; mret (slice_eq b a).
#[export] Instance mut_eq_bytes : PartialEq BytesMut Bytes := λ self other,
  b ← bytes_as_slice other; a ← bm_as_slice self; mret (slice_eq b a).

Definition mut_hash {S} `{!Hasher S} (self : BytesMut) (state : S) : HM S :=
  s ← bm_as_slice self; mret (hash_slice s state).

End impls.

(** ** The order of slices *)
Lemma byte_cmp_eq a b : byte_cmp a b = Eq ↔ a = b.
Proof.
  unfold byte_cmp. rewrite Z.compare_eq_iff. split; [|by intros ->].
  intros E. rewrite <- (u8_of_Z_to_Z a), E. apply u8_of_Z_to_Z.
Qed.

Lemma byte_cmp_opp a b : byte_cmp b a = CompOpp (byte_cmp a b).
Proof. apply Z.compare_antisym. Qed.

Lemma slice_cmp_eq xs : ∀ ys, slice_cmp xs ys = Eq ↔ xs = ys.
Proof.
  induction xs as [|x xs IH]; intros [|y ys]; cbn; [done|done|done|].
  pose proof (byte_cmp_eq x y) as Hxy. destruct (byte_cmp x y) eqn:E.
  - assert (x = y) as -> by tauto. rewrite IH. split; [by intros ->|by intros [= ->]].
  - split; [done|]. intros [= -> ->]. assert (Lt = Eq) by tauto. done.
  - split; [done|]. intros [= -> ->]. assert (Gt = Eq) by tauto. done.
Qed.

Lemma slice_cmp_opp xs : ∀ ys, slice_cmp ys xs = CompOpp (slice_cmp xs ys).
Proof.
  induction xs as [|x xs IH]; intros [|y ys]; cbn; [done|done|done|].
  rewrite (byte_cmp_opp x y). destruct (byte_cmp x y); [apply IH|done|done].
Qed.

Lemma slice_cmp_trans xs : ∀ ys zs,
  slice_cmp xs ys = Lt → slice_cmp ys zs = Lt → slice_cmp xs zs = Lt.
Proof.
  induction xs as [|x xs IH]; intros [|y ys] [|z zs]; cbn; try done.
  destruct (byte_cmp x y) eqn:E1; [|intros _|done].
  - apply byte_cmp_eq in E1 as ->. destruct (byte_cmp y z); [apply IH|done|done].
  - destruct (byte_cmp y z) eqn:E2; [intros _|intros _|done].
    + apply byte_cmp_eq in E2 as <-. by rewrite E1.
    + unfold byte_cmp in *. rewrite Z.compare_lt_iff in E1, E2.
      by rewrite (proj2 (Z.compare_lt_iff _ _)) by lia.
Qed.

(** The first byte that differs decides, and a proper prefix comes first. *)
Lemma slice_cmp_prefix xs ys zs : slice_cmp (xs ++ ys) (xs ++ zs) = slice_cmp ys zs.
Proof.
  induction xs as [|x xs IH]; [done|]. cbn. by rewrite (proj2 (byte_cmp_eq x x) eq_refl).
Qed.

Lemma slice_eq_sym xs ys : slice_eq xs ys = slice_eq ys xs.
Proof. unfold slice_eq. apply bool_decide_ext. naive_solver. Qed.

(** ** What the instances are compared with *)
Class AsBytes (A : Type) := as_bytes : A → HM (list byte).

Section agreement.
Context `{T : Target, A : Allocator}.

#[export] Instance bytes_as_bytes : AsBytes Bytes := bytes_as_slice.
#[export] Instance mut_as_bytes : AsBytes BytesMut := bm_as_slice.
#[export] Instance slice_as_bytes : AsBytes Slice := λ s, mret (slice_bytes s).
#[export] Instance str_as_bytes : AsBytes Str := λ s, mret (str_bytes s).
#[export] Instance vec_as_bytes : AsBytes hvec := vec_slice.
#[export] Instance rstring_as_bytes : AsBytes RString := string_as_bytes.
#[export] Instance ref_as_bytes {B} `{!AsBytes B} : AsBytes (Ref B) := λ r, as_bytes (ref_of r).

(** Both sides can be read, and show [xs] and [ys]. *)
Definition both {B C} `{!AsBytes B, !AsBytes C} (b : B) (c : C) (h : heap) (xs ys : list byte) : Prop :=
  as_bytes b h = Ret (xs, h) ∧ as_bytes c h = Ret (ys, h).

Definition eq_agrees (B C : Type) `{!AsBytes B, !AsBytes C, !PartialEq B C} : Prop :=
  ∀ (b : B) (c : C) h xs ys, both b c h xs ys → partial_eq b c h = Ret (slice_eq xs ys, h).
Definition cmp_agrees (B C : Type) `{!AsBytes B, !AsBytes C, !PartialOrd B C} : Prop :=
  ∀ (b : B) (c : C) h xs ys, both b c h xs ys → partial_cmp b c h = Ret (Some (slice_cmp xs ys), h).
Definition cmp_reversed (B C : Type) `{!AsBytes B, !AsBytes C, !PartialOrd B C} : Prop :=
  ∀ (b : B) (c : C) h xs ys, both b c h xs ys → partial_cmp b c h = Ret (Some (CompOpp (slice_cmp xs ys)), h).

Definition agrees (B C : Type) `{!AsBytes B, !AsBytes C, !PartialEq B C, !PartialOrd B C} : Prop :=
  eq_agrees B C ∧ cmp_agrees B C.

(** Unfolds the instances, reads both sides and compares the results. *)
Ltac compare :=
  intros b c h xs ys [Hb Hc];
  unfold as_bytes, bytes_as_bytes, mut_as_bytes, slice_as_bytes, str_as_bytes, vec_as_bytes, rstring_as_bytes,
    ref_as_bytes, string_as_bytes, as_bytes, slice_as_bytes, str_as_bytes, mret, HM_ret in Hb, Hc;
  lazy beta iota delta [partial_eq partial_cmp cmp mbind HM_bind mret HM_ret string_as_bytes
    bytes_eq bytes_cmp bytes_partial_cmp bytes_eq_slice bytes_cmp_slice slice_eq_bytes slice_cmp_bytes
    bytes_eq_str bytes_cmp_str str_eq_bytes str_cmp_bytes bytes_eq_vec bytes_cmp_vec vec_eq_bytes vec_cmp_bytes
    bytes_eq_string bytes_cmp_string string_eq_bytes string_cmp_bytes bytes_eq_ref bytes_cmp_ref
    refslice_eq_bytes refslice_cmp_bytes refstr_eq_bytes refstr_cmp_bytes
    mut_eq mut_cmp mut_partial_cmp mut_eq_slice mut_cmp_slice slice_eq_mut slice_cmp_mut
    mut_eq_str mut_cmp_str str_eq_mut str_cmp_mut mut_eq_vec mut_cmp_vec vec_eq_mut vec_cmp_mut
    mut_eq_string mut_cmp_string string_eq_mut string_cmp_mut mut_eq_ref mut_cmp_ref
    refslice_eq_mut refslice_cmp_mut refstr_eq_mut refstr_cmp_mut bytes_eq_mut mut_eq_bytes
    ];
  try injection Hb as <-; try injection Hc as <-; rewrite ?Hb, ?Hc, ?Hb; cbn [slice_bytes str_bytes];
  first [reflexivity | f_equal; f_equal; apply slice_eq_sym | by rewrite <- slice_cmp_opp].

Lemma bytes_agrees :
  agrees Bytes Bytes ∧ agrees Bytes Slice ∧ agrees Slice Bytes ∧ agrees Bytes Str ∧ agrees Str Bytes ∧
  agrees Bytes hvec ∧ agrees hvec Bytes ∧ agrees Bytes RString ∧ agrees RString Bytes ∧
  agrees (Ref Slice) Bytes ∧ agrees (Ref Str) Bytes.
Proof. repeat split; compare. Qed.

Lemma mut_agrees :
  agrees BytesMut BytesMut ∧ agrees BytesMut Slice ∧ agrees Slice BytesMut ∧ agrees BytesMut Str ∧
  agrees Str BytesMut ∧ agrees BytesMut hvec ∧ agrees BytesMut RString ∧ agrees RString BytesMut ∧
  agrees (Ref Slice) BytesMut ∧ eq_agrees hvec BytesMut ∧ eq_agrees (Ref Str) BytesMut ∧
  eq_agrees Bytes BytesMut ∧ eq_agrees BytesMut Bytes.
Proof. repeat split; compare. Qed.

(** The two orders that call the other side with the arguments exchanged. *)
Lemma mut_reversed : cmp_reversed hvec BytesMut ∧ cmp_reversed (Ref Str) BytesMut.
Proof. split; compare. Qed.

(** A reference compares as what it refers to. *)
Lemma ref_agrees (B C : Type) `{!AsBytes B, !AsBytes C, !PartialEq B C, !PartialOrd B C}
    `{!PartialEq B (Ref C), !PartialOrd B (Ref C)} :
  (∀ b r, partial_eq b r = partial_eq b (ref_of r :> C)) → (∀ b r, partial_cmp b r = partial_cmp b (ref_of r :> C)) →
  agrees B C → agrees B (Ref C).
Proof.
  intros E1 E2 [H1 H2]. split; intros b r h xs ys Hb; [rewrite E1; by apply H1|rewrite E2; by apply H2].
Qed.

Lemma ord_agrees :
  (∀ (a b : Bytes) h xs ys, both a b h xs ys → cmp a b h = Ret (slice_cmp xs ys, h)) ∧
  (∀ (a b : BytesMut) h xs ys, both a b h xs ys → cmp a b h = Ret (slice_cmp xs ys, h)).
Proof. split; compare. Qed.

End agreement.

(** C28: [Bytes] and [BytesMut] compare as their bytes do.  Equality with a buffer, a slice,
    a string, a vector or a reference on either side is equality of the bytes; the orders
    are the lexicographic order of the bytes, which is total and agrees with equality;
    buffers with equal bytes hash equally, and as the slice they borrow as.  Two orders are
    the other way round: [Vec<u8>] against [BytesMut] and [&str] against [BytesMut] give
    the opposite of the order of the bytes. *)
Theorem comparisons_correct `{T : Target, A : Allocator} :
  (agrees Bytes Bytes ∧ agrees Bytes Slice ∧ agrees Slice Bytes ∧ agrees Bytes Str ∧ agrees Str Bytes ∧
   agrees Bytes hvec ∧ agrees hvec Bytes ∧ agrees Bytes RString ∧ agrees RString Bytes ∧
   agrees (Ref Slice) Bytes ∧ agrees (Ref Str) Bytes) ∧
  (agrees BytesMut BytesMut ∧ agrees BytesMut Slice ∧ agrees Slice BytesMut ∧ agrees BytesMut Str ∧
   agrees Str BytesMut ∧ agrees BytesMut hvec ∧ agrees BytesMut RString ∧ agrees RString BytesMut ∧
   agrees (Ref Slice) BytesMut ∧ eq_agrees hvec BytesMut ∧ eq_agrees (Ref Str) BytesMut ∧
   eq_agrees Bytes BytesMut ∧ eq_agrees BytesMut Bytes) ∧
  (cmp_reversed hvec BytesMut ∧ cmp_reversed (Ref Str) BytesMut) ∧
  (agrees Bytes (Ref Slice) ∧ agrees Bytes (Ref Str) ∧ agrees BytesMut (Ref Slice) ∧ agrees BytesMut (Ref Str)) ∧
  ((∀ (a b : Bytes) h xs ys, both a b h xs ys → cmp a b h = Ret (slice_cmp xs ys, h)) ∧
   (∀ (a b : BytesMut) h xs ys, both a b h xs ys → cmp a b h = Ret (slice_cmp xs ys, h))) ∧
  ((∀ xs ys, slice_cmp xs ys = Eq ↔ slice_eq xs ys = true) ∧
   (∀ xs ys, slice_cmp ys xs = CompOpp (slice_cmp xs ys)) ∧
   (∀ xs ys zs, slice_cmp xs ys = Lt → slice_cmp ys zs = Lt → slice_cmp xs zs = Lt) ∧
   (∀ p x y xs ys, u8_to_Z x < u8_to_Z y → slice_cmp (p ++ x :: xs) (p ++ y :: ys) = Lt) ∧
   (∀ p y ys, slice_cmp p (p ++ y :: ys) = Lt)) ∧
  (∀ S (HS : Hasher S) (a : Bytes) (m : BytesMut) h bs st,
     both a m h bs bs → bytes_hash a st h = Ret (hash_slice bs st, h) ∧ mut_hash m st h = Ret (hash_slice bs st, h)).
Proof.
  split; [exact bytes_agrees|]. split; [exact mut_agrees|]. split; [exact mut_reversed|].
  split; [|split; [exact ord_agrees|]; split].
  - destruct bytes_agrees as (_ & H1 & _ & H2 & _), mut_agrees as (_ & H3 & _ & H4 & _).
    split; [by apply (ref_agrees Bytes Slice)|]. split; [by apply (ref_agrees Bytes Str)|].
    split; [by apply (ref_agrees BytesMut Slice)|by apply (ref_agrees BytesMut Str)].
  - split. { intros xs ys. rewrite slice_cmp_eq. unfold slice_eq. by rewrite bool_decide_eq_true. }
    split; [intros; apply slice_cmp_opp|]. split; [intros ? ? ?; apply slice_cmp_trans|]. split.
    + intros p x y xs ys Hlt. rewrite slice_cmp_prefix. cbn. unfold byte_cmp.
      by rewrite (proj2 (Z.compare_lt_iff _ _) Hlt).
    + intros p y ys. rewrite <- (app_nil_r p) at 1. by rewrite slice_cmp_prefix.
  - intros S HS a m h bs st [Ha Hm]. unfold bytes_hash, mut_hash. split; [by hstep Ha|by hstep Hm].
Qed.
