(* ===== verification/Collect.v ===== *)
(** * Collect: [Extend], [FromIterator] and iteration of [Bytes] and [BytesMut]

    src/patches/bytes/src/bytes.rs, bytes_mut.rs and buf/iter.rs.  An iterator passed in is
    the items it yields and the lower bound its [size_hint] claims, which the code must not
    rely on for more than speed. *)

From S2P Require Import Prelude Machine Buf BufSpec BufSources BufAdapters Loom Heap Bytes BytesMut.
From S2P Require Import BytesInv BytesOps BytesPool BytesProps BytesMutOps BytesMutReserve BytesMutPool BytesMutShare.
From S2P Require Import HBuf HBufSpec HBufSources BytesMutProps.
Open Scope Z_scope.

Record iterator (I : Type) := { it_items : list I; it_lower : Z }.
Arguments it_items {I} _.
Arguments it_lower {I} _.

Section collect.
Context `{T : Target, A : Allocator}.

(** ** [Extend] *)

(** [for b in iter { self.put_u8(b) }]; [put_u8] is the provided method. *)
Fixpoint put_each (self : BytesMut) (items : list byte) : HM BytesMut :=
  match items with
  | [] => mret self
  | b :: items =>
    self ← bm_put_slice self [b];
    put_each self items
  end.

(** [Extend<u8>]; [Extend<&u8>] copies the items and is the same. *)
Definition extend_u8 (self : BytesMut) (iter : iterator byte) : HM BytesMut :=
  let lower := it_lower iter in
  self ← reserve self lower;
  put_each self (it_items iter).

(** [Extend<Bytes>]: each item is dropped at the end of its round. *)
Fixpoint extend_bytes (self : BytesMut) (items : list Bytes) : HM BytesMut :=
  match items with
  | [] => mret self
  | bytes :: items =>
    s ← bytes_as_slice bytes;
    self ← bm_extend_from_slice self s;
    _ ← bytes_drop bytes;
    extend_bytes self items
  end.

(** ** [FromIterator] *)

(** [v.push(b)]: the same growth as [reserve(1)]. *)
Definition hvec_push (v : hvec) (b : byte) : HM hvec := hvec_extend_from_slice v [b].

Fixpoint push_each (v : hvec) (items : list byte) : HM hvec :=
  match items with
  | [] => mret v
  | b :: items =>
    v ← hvec_push v b;
    push_each v items
  end.

(** [Vec::from_iter(iter)]; the capacity to start with is the standard library's choice. *)
Definition vec_from_iter (capacity : Z) (items : list byte) : HM hvec :=
  v ← hvec_with_capacity capacity;
  push_each v items.

Definition bm_from_iter (capacity : Z) (items : list byte) : HM BytesMut :=
  v ← vec_from_iter capacity items;
  bm_from_vec v.

Definition bytes_from_iter (capacity : Z) (items : list byte) : HM Bytes :=
  v ← vec_from_iter capacity items;
  from_vec v.

(** ** [IntoIter] over sources on the heap *)
Definition hnext {B} `{!HBufCore B} (self : IntoIter B) : HM (option byte * IntoIter B) :=
  if negb (hhas_remaining (iter_inner self)) then mret (None, self)
  else
    c ← hchunk (iter_inner self);
    b ← lift (index c 0);
    inner ← hadvance (iter_inner self) 1;
    mret (Some b, Build_IntoIter inner).

(** [iter.collect()]: calls [next] until it is [None], at most [fuel] times, and drops the
    iterator. *)
Fixpoint hcollect {B} `{!HBufCore B} (fuel : nat) (self : IntoIter B) : HM (list byte) :=
  '(r, self) ← hnext self;
  match r with
  | None => _ ← hdrop (iter_inner self); mret []
  | Some b =>
    match fuel with
    | O => hfault Diverge
    | S fuel => bs ← hcollect fuel self; mret (b :: bs)
    end
  end.

(** ** Vectors that grow *)
Lemma storage_vec_intro h p d fp bs :
  vbuf h p d fp → view_at p d p 0 bs →
  storage h [(HVec {| hv_ptr := p; hv_len := zlen bs; hv_cap := zlen d |}, bs)] fp.
Proof.
  intros [l d' Hl Hi Hd|] (_ & _ & Hle & E); rewrite zdrop_0 in E.
  - by eapply StVec.
  - rewrite (zlen_nil (A:=option byte)) in *. assert (bs = []) as -> by (apply zlen_0_nil; pose_zlen; lia).
    apply StEmptyVec.
Qed.

Lemma pool_vec_extend h v bs hcs new :
  pool_ok h ((HVec v, bs) :: hcs) →
  (∃ v' h', hvec_extend_from_slice v new h = Ret (v', h') ∧ pool_ok h' ((HVec v', bs ++ new) :: hcs)) ∨
  (hvec_extend_from_slice v new h = Fault PanicCapacity ∧ hv_cap v - hv_len v < zlen new ∧
   (isize_max < 2 * hv_cap v ∨ isize_max < zlen bs + zlen new)).
Proof.
  intros (rest & fp & gs & Hwf & Hp)%pool_focus. pose proof (wf_storage _ _ _ _ Hwf) as Hst.
  pose proof (storage_vec_inv _ _ _ _ _ Hst) as (-> & p & d & Hb & -> & Hv). pose proof Hv as (_ & _ & Hle & _).
  unfold hvec_extend_from_slice. cbn [hv_cap hv_len]. pose_zlen.
  destruct (hvec_reserve_ok h p d fp (zlen bs) (zlen new) Hb ltac:(lia)) as
    [(E & Hlt & Hbig)|(p' & d' & fp' & h1 & E & Hb1 & (M1 & M2 & M3 & M4) & Hroom & Et)].
  { intros l. by eapply wf_fresh. }
  { right. split; [by apply hm_bind_Fault|]. done. }
  left. hstep E. cbn [hv_ptr hv_len hv_cap].
  destruct (vbuf_write h1 p' d' fp' (zlen bs) (Some <$> new) Hb1) as (h2 & Ew & Hb2 & Hn2 & Hs2);
    [lia|rewrite zlen_fmap; lia|]. hstep Ew. eexists _, h2. split; [reflexivity|].
  assert (Hv' : view_at p' d' p' 0 bs).
  { pose proof (view_at_moved p d p 0 bs p' d' (zlen bs) Hv Et ltac:(lia) ltac:(lia)) as H'. by rewrite ptr_add_0 in H'. }
  pose proof (view_at_write p' d' p' 0 bs (zlen bs) new Hv' ltac:(lia) ltac:(lia)) as Hv2.
  rewrite splice_end in Hv2. cbn [Z.add] in Hv2.
  pose proof (storage_vec_intro h2 p' _ fp' _ Hb2 Hv2) as Hst2.
  rewrite zlen_app, zlen_splice in Hst2 by (rewrite ?zlen_fmap; lia).
  eapply (pool_replace _ _ _ _ _ [([_], fp')] [_] [] hcs Hwf); [|cbn; reflexivity|done].
  apply local_one; [|exact Hst2]. split; [lia|]. split; [intros l Hl; rewrite Hn2; by apply M2|].
  split; intros l Hl1 Hl2; rewrite Hs2 by done; auto.
Qed.

Lemma push_each_ok items : ∀ h v bs hcs,
  pool_ok h ((HVec v, bs) :: hcs) →
  (∃ v' h', push_each v items h = Ret (v', h') ∧ pool_ok h' ((HVec v', bs ++ items) :: hcs)) ∨
  (push_each v items h = Fault PanicCapacity ∧ isize_max < 2 * (zlen bs + zlen items)).
Proof.
  induction items as [|b items IH]; intros h v bs hcs Hp; cbn [push_each].
  - left. exists v, h. by rewrite app_nil_r.
  - pose proof (pool_vec_len _ _ _ _ Hp) as Hl. pose_zlen. rewrite zlen_cons.
    destruct (pool_vec_extend h v bs hcs [b] Hp) as [(v1 & h1 & E & Hp1)|(E & Hlt & Hbig)]; unfold hvec_push.
    + hstep E. destruct (IH h1 v1 _ _ Hp1) as [(v' & h' & E' & Hp')|[E' Hbig]];
        [left|right; split; [done|]; rewrite zlen_app in Hbig; change (zlen [b]) with 1 in Hbig; lia].
      exists v', h'. change (bs ++ b :: items) with (bs ++ [b] ++ items). by rewrite app_assoc.
    + right. split; [by apply hm_bind_Fault|]. change (zlen [b]) with 1 in *. lia.
Qed.

(** A vector collected from any iterator holds its items. *)
Lemma vec_from_iter_ok h hcs cap items :
  pool_ok h hcs → 0 <= cap <= isize_max →
  (∃ v h', vec_from_iter cap items h = Ret (v, h') ∧ pool_ok h' ((HVec v, items) :: hcs)) ∨
  (vec_from_iter cap items h = Fault PanicCapacity ∧ isize_max < 2 * zlen items).
Proof.
  intros Hp Hc. unfold vec_from_iter. destruct (pool_with_capacity h hcs cap Hp Hc) as (v & h1 & E & Hp1 & _).
  hstep E. by apply (push_each_ok items h1 v []).
Qed.

(** ** Appending *)

(** [run] panics at one of the items: it returns on the items before, and there the buffer
    has no room for the next one, of [size] bytes, and cannot be given any. *)
Definition stops_at {I} (run : list I → HM BytesMut) (size : I → Z) (items : list I) (h : heap) : Prop :=
  ∃ done i rest m1 h1, items = done ++ i :: rest ∧ run done h = Ret (m1, h1) ∧
    out_of_room (run items h) h1 m1 (size i).

Lemma stops_eq {I} (run run' : list I → HM BytesMut) size items h h1 :
  (∀ l, run l h = run' l h1) → stops_at run' size items h1 → stops_at run size items h.
Proof.
  intros Hrun (done & i & rest & m1 & h2 & -> & E & H). exists done, i, rest, m1, h2. by rewrite !Hrun.
Qed.

Lemma stops_cons {I} (run run' : list I → HM BytesMut) size i items h h1 :
  (∀ l, run (i :: l) h = run' l h1) → stops_at run' size items h1 → stops_at run size (i :: items) h.
Proof.
  intros Hrun (done & j & rest & m1 & h2 & -> & E & H). exists (i :: done), j, rest, m1, h2. by rewrite !Hrun.
Qed.

Lemma stops_here {I} (run : list I → HM BytesMut) size i items h m f :
  run [] h = Ret (m, h) → run (i :: items) h = Fault f → huge h (size i) → m_cap m - m_len m < size i →
  capacity_panic f → stops_at run size (i :: items) h.
Proof. intros E1 E2 Hh Hr Hf. exists [], i, items, m, h. do 2 (split; [done|]). split; [done|]. eauto. Qed.

Lemma put_each_ok items : ∀ h m cur hcs,
  pool_ok h ((HMut m, cur) :: hcs) → zlen hcs + 1 <= isize_max →
  (∃ m' h', put_each m items h = Ret (m', h') ∧ pool_ok h' ((HMut m', cur ++ items) :: hcs)) ∨
  (m_cap m - m_len m < zlen items ∧ stops_at (put_each m) (λ _, 1) items h).
Proof.
  induction items as [|b items IH]; intros h m cur hcs Hp Hmax; cbn [put_each].
  { left. exists m, h. by rewrite app_nil_r. }
  pose proof (pool_mut_len _ _ _ _ Hp) as (Hl & Hc & _). rewrite zlen_cons. pose proof (zlen_nonneg items).
  destruct (pool_extend h m cur hcs [b] Hp) as [(m1 & h1 & E & Hp1 & Hs)|(Hh & Hlt & f & E & Hf)].
  { rewrite zlen_cons. lia. }
  2: { right. split; [zlia|]. apply (stops_here _ _ _ _ _ m f); [done| |done..]. cbn. by apply hm_bind_Fault. }
  unfold bm_put_slice. hstep E. pose proof (pool_mut_len _ _ _ _ Hp1) as (Hl1 & Hc1 & _).
  rewrite zlen_app, zlen_cons, (zlen_nil (A:=byte)) in Hl1. change (zlen [b]) with 1 in Hs.
  destruct (IH h1 m1 _ hcs Hp1 Hmax) as [(m' & h' & E' & Hp')|(Hlt & Hst)].
  - left. exists m', h'. change (cur ++ b :: items) with (cur ++ [b] ++ items). by rewrite app_assoc.
  - right. split.
    + destruct (Z.leb_spec 1 (m_cap m - m_len m)); [|lia]. destruct (Hs ltac:(lia)) as [Hcap _]. lia.
    + eapply stops_cons; [|exact Hst]. intros l. cbn [put_each]. unfold bm_put_slice. by hstep E.
Qed.

(** What [Extend<u8>] may do instead of appending: the lower bound its iterator claims, or
    the growth for one of the items, does not fit the address space. *)
Definition extend_u8_panics (m : BytesMut) (it : iterator byte) (h : heap) : Prop :=
  m_cap m - m_len m < Z.max (it_lower it) (zlen (it_items it)) ∧
  (out_of_room (extend_u8 m it h) h m (it_lower it) ∨
   stops_at (λ l, extend_u8 m {| it_items := l; it_lower := it_lower it |}) (λ _, 1) (it_items it) h).

Lemma extend_u8_panics_fault m it h :
  extend_u8_panics m it h → ∃ f, extend_u8 m it h = Fault f ∧ capacity_panic f.
Proof. intros (_ & [(_ & _ & H)|(? & ? & ? & ? & ? & _ & _ & _ & _ & H)]); by destruct it. Qed.

Lemma extend_u8_ok h m cur hcs it :
  pool_ok h ((HMut m, cur) :: hcs) → zlen hcs + 1 <= isize_max →
  (∃ m' h', extend_u8 m it h = Ret (m', h') ∧ pool_ok h' ((HMut m', cur ++ it_items it) :: hcs)) ∨
  extend_u8_panics m it h.
Proof.
  intros Hp Hmax. pose proof (pool_mut_len _ _ _ _ Hp) as (Hl & _). unfold extend_u8_panics, extend_u8. cbv zeta.
  destruct (pool_reserve h m cur hcs (it_lower it) Hp) as [(m1 & h1 & E & Hp1 & Hroom & Hs)|(Hh & Hlt & f & E & Hf)].
  { rewrite zlen_cons. lia. }
  2: { right. split; [lia|]. left. split; [done|]. split; [done|]. exists f. split; [by apply hm_bind_Fault|done]. }
  destruct (put_each_ok (it_items it) h1 m1 cur hcs Hp1 Hmax) as [(m' & h' & E' & Hp')|(Hlt & Hst)].
  - left. exists m', h'. split; [by hstep E|done].
  - right. split.
    + pose proof (pool_mut_len _ _ _ _ Hp1) as (Hl1 & _).
      destruct (Z.leb_spec (it_lower it) (m_cap m - m_len m)); [destruct Hs as [-> _]; lia|lia].
    + right. eapply stops_eq; [|exact Hst]. intros l. cbn. by hstep E.
Qed.

(** The items of [Extend<Bytes>] are live handles until their round. *)
Lemma extend_bytes_ok items : ∀ bss h m cur hcs,
  pool_ok h ((HMut m, cur) :: zip (HBytes <$> items) bss ++ hcs) → length bss = length items →
  zlen items + zlen hcs + 1 <= isize_max →
  (∃ m' h', extend_bytes m items h = Ret (m', h') ∧ pool_ok h' ((HMut m', cur ++ concat bss) :: hcs)) ∨
  (m_cap m - m_len m < zlen (concat bss) ∧ stops_at (extend_bytes m) b_len items h).
Proof.
  induction items as [|x items IH]; intros [|bs bss] h m cur hcs Hp Hlen Hmax; try done; cbn [extend_bytes].
  { left. exists m, h. by rewrite app_nil_r. }
  cbn [fmap list_fmap zip zip_with app concat] in *. rewrite zlen_cons in Hmax. injection Hlen as Hlen.
  assert (Hz : zlen (zip (HBytes <$> items) bss ++ hcs) = zlen items + zlen hcs).
  { rewrite zlen_app. unfold zlen. rewrite length_zip_with, length_fmap. lia. }
  pose proof (pool_perm _ _ _ (Permutation_swap _ _ _) Hp) as Hpx. pose proof (pool_read _ _ _ _ Hpx) as Er.
  pose proof (pool_bytes_len _ _ _ _ Hpx) as (Hlx & _). pose proof (pool_mut_len _ _ _ _ Hp) as (Hl & Hc & _).
  pose proof (zlen_nonneg (concat bss)). rewrite zlen_app.
  destruct (pool_extend h m cur _ bs Hp) as [(m1 & h1 & E & Hp1 & Hs)|(Hh & Hlt & f & E & Hf)].
  { rewrite !zlen_cons. unfold prod_map in *. lia. }
  2: { right. split; [lia|]. apply (stops_here _ _ _ _ _ m f); [done| |by rewrite Hlx..|done]. cbn.
       hstep Er. by apply hm_bind_Fault. }
  pose proof (pool_mut_len _ _ _ _ Hp1) as (Hl1 & Hc1 & _). rewrite zlen_app in Hl1.
  eapply pool_perm in Hp1; [|apply Permutation_swap].
  destruct (pool_drop h1 (HBytes x) _ _ Hp1) as (h2 & E2 & Hp2); [rewrite !zlen_cons; lia|]. cbn in E2.
  assert (Hrun : ∀ l, extend_bytes m (x :: l) h = extend_bytes m1 l h2).
  { intros l. cbn. hstep Er. hstep E. by hstep E2. }
  destruct (IH bss h2 m1 _ hcs Hp2 Hlen ltac:(lia)) as [(m' & h' & E' & Hp')|(Hlt & Hst)]; [left|right].
  - exists m', h'. rewrite app_assoc. by rewrite <- E', <- Hrun.
  - split; [|by eapply stops_cons].
    destruct (Z.leb_spec (zlen bs) (m_cap m - m_len m)); [destruct (Hs ltac:(lia)) as [Hcap _]; lia|lia].
Qed.

(** ** Iteration *)
Lemma hcollect_ok {B} `{!HBufCore B} {rep : B → list byte → shown → shown → Prop} (L : hcore_laws rep) bs :
  ∀ fuel h b n hcs, held rep h b bs n hcs → Z.of_nat n + zlen hcs <= isize_max → (length bs <= fuel)%nat →
  ∃ b' h', hcollect fuel (Build_IntoIter b) h = Ret (bs, h') ∧ left_behind rep h' b' [] n hcs.
Proof.
  induction bs as [|x bs IH]; intros fuel h b n hcs Hh Hmax Hf.
  - destruct (hl_drop _ L _ _ _ _ _ Hh Hmax) as (h' & E & Hl). exists b, h'. split; [|done].
    assert (En : hnext (Build_IntoIter b) h = Ret ((None, Build_IntoIter b), h)).
    { unfold hnext. cbn. by rewrite (held_has_remaining L _ _ _ _ _ Hh). }
    destruct fuel; cbn [hcollect]; hstep En; by hstep E.
  - destruct fuel as [|fuel]; [cbn in Hf; lia|]. cbn [hcollect].
    destruct (hl_chunk _ L _ _ _ _ _ Hh) as ([|y c] & Ec & [k Hk] & Hc); [by specialize (Hc eq_refl)|].
    injection Hk as <- Hk.
    destruct (hl_advance _ L _ _ _ _ _ 1 Hh) as (b1 & h1 & Ea & Hh1); [rewrite zlen_cons; pose_zlen; lia|].
    assert (En : hnext (Build_IntoIter b) h = Ret ((Some x, Build_IntoIter b1), h1)).
    { unfold hnext. cbn [iter_inner]. rewrite (held_has_remaining L _ _ _ _ _ Hh). cbn. hstep Ec.
      rewrite index_0_cons, hm_bind_lift. by hstep Ea. }
    hstep En. destruct (IH fuel h1 b1 n hcs Hh1 Hmax) as (b' & h' & E & Hl); [cbn in Hf; lia|].
    exists b', h'. split; [by hstep E|done].
Qed.

End collect.

(** C29: collecting and extending.  [Extend<u8>] appends the items of any iterator, also
    when its [size_hint] is wrong; [Extend<Bytes>] appends the bytes of its items in order
    and drops them.  They panic only when the spare capacity is too small and, after some
    of the items have been appended, the room for the next one (or, before any, for the
    lower bound the iterator claims) does not fit the address space ([huge]).
    [FromIterator] gives a buffer of the items and panics only when twice their number does
    not fit.  Iterating a [Bytes] or a [BytesMut] to its end yields its bytes in order and
    releases its memory. *)
Theorem collect_correct `{T : Target, A : Allocator} :
  (∀ h m cur hcs it,
     pool_ok h ((HMut m, cur) :: hcs) → zlen hcs + 1 <= isize_max →
     (∃ m' h', extend_u8 m it h = Ret (m', h') ∧ pool_ok h' ((HMut m', cur ++ it_items it) :: hcs)) ∨
     extend_u8_panics m it h) ∧
  (∀ items bss h m cur hcs,
     pool_ok h ((HMut m, cur) :: zip (HBytes <$> items) bss ++ hcs) → length bss = length items →
     zlen items + zlen hcs + 1 <= isize_max →
     (∃ m' h', extend_bytes m items h = Ret (m', h') ∧ pool_ok h' ((HMut m', cur ++ concat bss) :: hcs)) ∨
     (m_cap m - m_len m < zlen (concat bss) ∧ stops_at (extend_bytes m) b_len items h)) ∧
  (∀ h hcs cap items,
     pool_ok h hcs → 0 <= cap <= isize_max →
     ((∃ x h1, bytes_from_iter cap items h = Ret (x, h1) ∧ pool_ok h1 ((HBytes x, items) :: hcs)) ∧
      (∃ m h2, bm_from_iter cap items h = Ret (m, h2) ∧ pool_ok h2 ((HMut m, items) :: hcs))) ∨
     (isize_max < 2 * zlen items ∧ bytes_from_iter cap items h = Fault PanicCapacity ∧
      bm_from_iter cap items h = Fault PanicCapacity)) ∧
  (∀ h x m bs bs' hcs,
     pool_ok h ((HBytes x, bs) :: (HMut m, bs') :: hcs) → zlen hcs + 2 <= isize_max →
     ∃ h1 h2, hcollect (length bs) (Build_IntoIter x) h = Ret (bs, h1) ∧
       hcollect (length bs') (Build_IntoIter m) h1 = Ret (bs', h2) ∧ pool_ok h2 hcs).
Proof.
  split; [intros; by apply extend_u8_ok|]. split; [intros; by apply extend_bytes_ok|]. split.
  - intros h hcs cap items Hp Hc. unfold bytes_from_iter, bm_from_iter.
    destruct (vec_from_iter_ok h hcs cap items Hp Hc) as [(v & h' & E & Hp')|[E Hbig]].
    + left. destruct (pool_from_vec _ _ _ _ Hp') as (x & h1 & E1 & Hp1).
      destruct (pool_mut_from_vec _ _ _ _ Hp') as (m & E2 & Hp2 & _).
      split; [exists x, h1; split; [by hstep E|done]|exists m, h'; split; [by hstep E|done]].
    + right. split; [done|]. split; by apply hm_bind_Fault.
  - intros h x m bs bs' hcs Hp Hmax.
    destruct (hcollect_ok bytes_core_laws bs (length bs) h x 1 ((HMut m, bs') :: hcs)) as (x' & h1 & E1 & Hl1).
    { by apply held_handle. }
    { rewrite zlen_cons. lia. }
    { done. }
    destruct Hl1 as (? & ? & (-> & ->) & _ & Hp1).
    destruct (hcollect_ok bm_core_laws bs' (length bs') h1 m 1 hcs) as (m' & h2 & E2 & Hl2).
    { by apply held_handle. }
    { lia. }
    { done. }
    destruct Hl2 as (? & ? & (-> & ->) & _ & Hp2). by exists h1, h2.
Qed.

(** Three items, of which the iterator promises none, into a vector with room for two, and
    five bytes from two [Bytes] into the same vector: both grow it. *)
Lemma collect_correct_witness :
  let it := {| it_items := [x05; x06; x07]; it_lower := 0 |} in
  let x := from_static {| st_addr := 64; st_bytes := [x05; x06] |} in
  let y := from_static {| st_addr := 72; st_bytes := [x07; x08; x09] |} in
  (∃ m' h', extend_u8 (T := riscv64) (A := demo_alloc) demo_mut it demo_heap = Ret (m', h') ∧
     pool_ok (T := riscv64) (A := demo_alloc) h' [(HMut m', [x01; x02; x05; x06; x07])]) ∧
  (∃ m' h', extend_bytes (T := riscv64) (A := demo_alloc) demo_mut [x; y] demo_heap = Ret (m', h') ∧
     pool_ok (T := riscv64) (A := demo_alloc) h' [(HMut m', [x01; x02; x05; x06; x07; x08; x09])]).
Proof.
  intros it x y. destruct (collect_correct (T := riscv64) (A := demo_alloc)) as (H1 & H2 & _). split.
  - destruct (H1 demo_heap demo_mut [x01; x02] [] it demo_pool ltac:(done)) as
      [H|(_ & [(_ & _ & f & E & _)|(? & ? & ? & ? & ? & _ & _ & _ & _ & f & E & _)])]; [exact H| |];
      vm_compute in E; discriminate E.
  - destruct (H2 [x; y] [[x05; x06]; [x07; x08; x09]] demo_heap demo_mut [x01; x02] []) as
      [H|(_ & ? & ? & ? & ? & ? & _ & _ & _ & _ & f & E & _)]; [|done|done|exact H|].
    + eapply pool_perm; [symmetry; apply (Permutation_app_comm [(HMut demo_mut, [x01; x02])])|]. cbn.
      apply pool_static; [|vm_compute; intuition discriminate].
      apply pool_static; [exact demo_pool|vm_compute; intuition discriminate].
    + vm_compute in E. discriminate E.
Defined.
