(* ===== verification/Fmt.v ===== *)
(** * Fmt: printing buffers (src/patches/bytes/src/fmt/, and [fmt::Write] of bytes_mut.rs)

    [Debug], [LowerHex] and [UpperHex] of [Bytes] and [BytesMut], [Display] of
    [TryGetError] (lib.rs) and [BytesMut] as a destination of formatted text.  A formatter
    is its sink; [write!] is a sequence of [write_str] calls that stops at the first error,
    as [?] does.  The text is ASCII, a list of bytes. *)

From S2P Require Import Prelude Machine Text Buf Loom Heap Bytes BytesMut BytesInv BytesOps BytesPool BytesProps.
From S2P Require Import BytesMutOps BytesMutReserve BytesMutPool.
Open Scope Z_scope.

(** [fmt::Result]; [fmt::Error] has no contents. *)
Abbreviation fmt_result := (result unit unit).

(** [fmt::Write]: the sinks of a formatter. *)
Class FmtWrite (W : Type) := write_str : W → list byte → HM (fmt_result * W).

(** A [String] on its own memory takes any text. *)
#[export] Instance string_write : FmtWrite (list byte) := λ out s, mret (Ok tt, out ++ s).

(** [fmt::Write for BytesMut]. *)
#[export] Instance bm_write_str `{T : Target, A : Allocator} : FmtWrite BytesMut := λ self s,
  n ← bm_remaining_mut self;
  if zlen s <=? n then
    self ← bm_put_slice self s;
    mret (Ok tt, self)
  else mret (Err tt, self).

(** [{}] of a [usize]. *)
Definition dec (n : Z) : list byte := to_radix 10 n.

Section fmt.
Context `{T : Target, A : Allocator} {W : Type} `{!FmtWrite W}.

(** [m?; k]. *)
Definition try_then (m k : W → HM (fmt_result * W)) : W → HM (fmt_result * W) := λ f,
  '(r, f) ← m f;
  match r with
  | Ok _ => k f
  | Err e => mret (Err e, f)
  end.

Definition fmt_ok : W → HM (fmt_result * W) := λ f, mret (Ok tt, f).

(** [write!(f, ...)], given its pieces. *)
Fixpoint write_pieces (pieces : list (list byte)) : W → HM (fmt_result * W) :=
  match pieces with
  | [] => fmt_ok
  | p :: pieces => try_then (λ f, write_str f p) (write_pieces pieces)
  end.

(** The body of the loop of [Debug::fmt]. *)
Definition debug_byte (b : byte) : W → HM (fmt_result * W) :=
  if bool_decide (b = x0a) then write_pieces [[x5c; x6e]]
  else if bool_decide (b = x0d) then write_pieces [[x5c; x72]]
  else if bool_decide (b = x09) then write_pieces [[x5c; x74]]
  else if bool_decide (b = x5c) || bool_decide (b = x22) then write_pieces [[x5c]; [b]]
  else if bool_decide (b = x00) then write_pieces [[x5c; x30]]
  else if (0x20 <=? u8_to_Z b) && (u8_to_Z b <? 0x7f) then write_pieces [[b]]
  else write_pieces [[x5c; x78]; hex2 false b].

Fixpoint for_each (body : byte → W → HM (fmt_result * W)) (bs : list byte) : W → HM (fmt_result * W) :=
  match bs with
  | [] => fmt_ok
  | b :: bs => try_then (body b) (for_each body bs)
  end.

(** [Debug for BytesRef]. *)
Definition debug_fmt (self : list byte) : W → HM (fmt_result * W) :=
  try_then (write_pieces [[x62; x22]])
    (try_then (for_each debug_byte self) (try_then (write_pieces [[x22]]) fmt_ok)).

(** [LowerHex for BytesRef] and [UpperHex for BytesRef]. *)
Definition lower_hex_fmt (self : list byte) : W → HM (fmt_result * W) :=
  for_each (λ b, write_pieces [hex2 false b]) self.
Definition upper_hex_fmt (self : list byte) : W → HM (fmt_result * W) :=
  for_each (λ b, write_pieces [hex2 true b]) self.

(** [fmt_impl!]: the traits for [Bytes] and [BytesMut], through [as_ref]. *)
Definition bytes_fmt (fmt : list byte → W → HM (fmt_result * W)) (self : Bytes) (f : W) : HM (fmt_result * W) :=
  s ← bytes_as_slice self; fmt s f.
Definition bm_fmt (fmt : list byte → W → HM (fmt_result * W)) (self : BytesMut) (f : W) : HM (fmt_result * W) :=
  s ← bm_as_slice self; fmt s f.

(** [Display for TryGetError]. *)
Definition try_get_error_fmt (self : TryGetError) : W → HM (fmt_result * W) :=
  write_pieces [bstr "Not enough bytes remaining in buffer to read value (requested "; dec (requested self);
                bstr " but only "; dec (available self); bstr " available)"].

End fmt.

(** ** The text *)
Definition debug_escape (b : byte) : list byte :=
  if bool_decide (b = x0a) then [x5c; x6e]
  else if bool_decide (b = x0d) then [x5c; x72]
  else if bool_decide (b = x09) then [x5c; x74]
  else if bool_decide (b = x5c) || bool_decide (b = x22) then [x5c; b]
  else if bool_decide (b = x00) then [x5c; x30]
  else if (0x20 <=? u8_to_Z b) && (u8_to_Z b <? 0x7f) then [b]
  else [x5c; x78] ++ hex2 false b.

Definition debug_text (bs : list byte) : list byte := [x62; x22] ++ flat_map debug_escape bs ++ [x22].
Definition try_get_error_text (e : TryGetError) : list byte :=
  bstr "Not enough bytes remaining in buffer to read value (requested " ++ dec (requested e) ++
  bstr " but only " ++ dec (available e) ++ bstr " available)".

(** ** Reading it back *)
(** The escapes of one letter: newline, carriage return, tab, backslash, zero and both
    quotes. *)
Definition simple_escape (e : byte) : option byte :=
  if bool_decide (e = x6e) then Some x0a
  else if bool_decide (e = x72) then Some x0d
  else if bool_decide (e = x74) then Some x09
  else if bool_decide (e = x30) then Some x00
  else if bool_decide (e = x5c) || bool_decide (e = x27) || bool_decide (e = x22) then Some e
  else None.

(** The contents of a byte-string literal up to its closing quote, as the Rust reference
    has them, and what follows: escapes of one letter, [x] with two digits, or an ASCII
    character. *)
Fixpoint literal_body (cs : list byte) : option (list byte * list byte) :=
  match cs with
  | [] => None
  | c :: cs =>
    if bool_decide (c = x22) then Some ([], cs)
    else if bool_decide (c = x5c) then
      match cs with
      | [] => None
      | e :: cs =>
        if bool_decide (e = x78) then
          match cs with
          | d1 :: d2 :: cs => b ← hex_pair d1 d2; '(bs, rest) ← literal_body cs; Some (b :: bs, rest)
          | _ => None
          end
        else b ← simple_escape e; '(bs, rest) ← literal_body cs; Some (b :: bs, rest)
      end
    else if u8_to_Z c <? 128 then '(bs, rest) ← literal_body cs; Some (c :: bs, rest)
    else None
  end.

Definition literal (cs : list byte) : option (list byte * list byte) :=
  match cs with
  | b :: q :: cs => if bool_decide (b = x62) && bool_decide (q = x22) then literal_body cs else None
  | _ => None
  end.

Lemma literal_escape b cs :
  literal_body (debug_escape b ++ cs) = '(bs, rest) ← literal_body cs; Some (b :: bs, rest).
Proof. by destruct b. Qed.

Lemma literal_body_debug bs rest : literal_body (flat_map debug_escape bs ++ [x22] ++ rest) = Some (bs, rest).
Proof.
  induction bs as [|b bs IH]; [done|]. cbn [flat_map]. by rewrite <- app_assoc, literal_escape, IH.
Qed.

Lemma literal_debug bs rest : literal (debug_text bs ++ rest) = Some (bs, rest).
Proof. unfold debug_text. rewrite <- !app_assoc. apply literal_body_debug. Qed.

Lemma debug_escape_printable b : Forall (λ c, 0x20 <= u8_to_Z c < 0x7f) (debug_escape b).
Proof. by destruct b; repeat constructor. Qed.

Lemma debug_text_printable bs : Forall (λ c, 0x20 <= u8_to_Z c < 0x7f) (debug_text bs).
Proof.
  unfold debug_text. apply Forall_app. split; [by repeat constructor|]. apply Forall_app.
  split; [|by repeat constructor]. induction bs as [|b bs IH]; [constructor|]. cbn.
  apply Forall_app. split; [apply debug_escape_printable|done].
Qed.

(** ** What the code writes *)
Section sink.
Context `{T : Target, A : Allocator} {W : Type} `{!FmtWrite W}.
(** In heap [h] the sink [w] holds the text [out] and takes [room] more bytes. *)
Context (rep : heap → W → list byte → Z → Prop).
Context (rep_write : ∀ h w out room s, rep h w out room → zlen s <= room →
  ∃ w' h', write_str w s h = Ret ((Ok tt, w'), h') ∧ rep h' w' (out ++ s) (room - zlen s)).

(** [m] writes [text] where there is room for it. *)
Definition writes (m : W → HM (fmt_result * W)) (text : list byte) : Prop :=
  ∀ h w out room, rep h w out room → zlen text <= room →
    ∃ w' h', m w h = Ret ((Ok tt, w'), h') ∧ rep h' w' (out ++ text) (room - zlen text).

Lemma writes_ok : writes fmt_ok [].
Proof. intros h w out room Hr _. exists w, h. rewrite app_nil_r, Z.sub_0_r. done. Qed.

Lemma writes_then m1 m2 t1 t2 : writes m1 t1 → writes m2 t2 → writes (try_then m1 m2) (t1 ++ t2).
Proof.
  intros H1 H2 h w out room Hr Hroom. rewrite zlen_app in *. pose_zlen. unfold try_then.
  destruct (H1 h w out room Hr) as (w1 & h1 & E1 & Hr1); [lia|]. hstep E1.
  destruct (H2 h1 w1 _ _ Hr1) as (w2 & h2 & E2 & Hr2); [lia|]. exists w2, h2. split; [done|].
  rewrite app_assoc. by replace (room - (zlen t1 + zlen t2)) with (room - zlen t1 - zlen t2) by lia.
Qed.

Lemma writes_pieces pieces : writes (write_pieces pieces) (concat pieces).
Proof using rep_write.
  induction pieces as [|p pieces IH]; [apply writes_ok|]. apply writes_then; [|done].
  intros h w out room. apply rep_write.
Qed.

Lemma writes_for_each body text bs :
  (∀ b, writes (body b) (text b)) → writes (for_each body bs) (flat_map text bs).
Proof. intros Hb. induction bs as [|b bs IH]; [apply writes_ok|]. by apply writes_then. Qed.

Lemma writes_debug_byte b : writes (debug_byte b) (debug_escape b).
Proof using rep_write.
  unfold debug_byte, debug_escape. repeat case_match; apply writes_pieces.
Qed.

Lemma writes_debug bs : writes (debug_fmt bs) (debug_text bs).
Proof using rep_write.
  unfold debug_fmt, debug_text. apply writes_then; [apply writes_pieces|].
  apply writes_then; [apply writes_for_each, writes_debug_byte|].
  rewrite <- (app_nil_r [x22]). apply writes_then; [apply writes_pieces|apply writes_ok].
Qed.

Lemma writes_hex bs : writes (lower_hex_fmt bs) (hex_text false bs) ∧ writes (upper_hex_fmt bs) (hex_text true bs).
Proof using rep_write. split; apply writes_for_each; intros b; apply writes_pieces. Qed.

Lemma writes_try_get_error e : writes (try_get_error_fmt e) (try_get_error_text e).
Proof using rep_write.
  unfold try_get_error_text. eenough (concat _ = _) as <- by apply writes_pieces. cbn [concat]. by rewrite app_nil_r.
Qed.

End sink.

(** ** The sinks *)
Section sinks.
Context `{T : Target, A : Allocator}.

(** A [String] never runs out of room, and is not on this heap. *)
Definition string_rep (h0 h : heap) (w out : list byte) (room : Z) : Prop := h = h0 ∧ w = out.

Lemma string_rep_write h0 h w out room s :
  string_rep h0 h w out room → zlen s <= room →
  ∃ w' h', write_str w s h = Ret ((Ok tt, w'), h') ∧ string_rep h0 h' w' (out ++ s) (room - zlen s).
Proof. intros [-> ->] _. by exists (out ++ s), h0. Qed.

(** A [BytesMut] has the room of its spare capacity. *)
Definition bm_rep (hcs : list (handle * list byte)) (h : heap) (m : BytesMut) (out : list byte) (room : Z) : Prop :=
  pool_ok h ((HMut m, out) :: hcs) ∧ room = m_cap m - m_len m.

Lemma bm_remaining_ok h m bs hcs :
  pool_ok h ((HMut m, bs) :: hcs) → bm_remaining_mut m h = Ret (isize_max - zlen bs, h).
Proof.
  intros Hp. apply pool_mut_len in Hp as (Hl & Hc & _). unfold bm_remaining_mut. rewrite Hl.
  apply lift_ok, usub_ok. lia.
Qed.

Lemma bm_rep_write hcs h m out room s :
  zlen hcs + 1 <= isize_max → bm_rep hcs h m out room → zlen s <= room →
  ∃ m' h', write_str m s h = Ret ((Ok tt, m'), h') ∧ bm_rep hcs h' m' (out ++ s) (room - zlen s).
Proof.
  intros Hmax [Hp ->] Hs. pose proof (pool_mut_len _ _ _ _ Hp) as (Hl & Hc & _).
  unfold write_str, bm_write_str. hstep (bm_remaining_ok _ _ _ _ Hp). rewrite (proj2 (Z.leb_le _ _)) by lia.
  destruct (pool_extend h m out hcs s Hp) as [(m' & h' & E & Hp' & Hsame)|(_ & Hlt & _)];
    [rewrite zlen_cons; lia| |lia].
  pose proof (pool_mut_len _ _ _ _ Hp') as (Hl' & _). rewrite zlen_app in Hl'.
  exists m', h'. split; [by hstep E|]. split; [done|]. destruct (Hsame ltac:(lia)) as [-> _]. lia.
Qed.

(** Text of any length that a buffer can hold, with growth. *)
Lemma bm_write_str_ok hcs h m out s :
  pool_ok h ((HMut m, out) :: hcs) → zlen hcs + 1 <= isize_max → zlen out + zlen s <= isize_max →
  (∃ m' h', write_str m s h = Ret ((Ok tt, m'), h') ∧ pool_ok h' ((HMut m', out ++ s) :: hcs)) ∨
  out_of_room (write_str m s h) h m (zlen s).
Proof.
  intros Hp Hmax Hs. unfold write_str, bm_write_str. hstep (bm_remaining_ok _ _ _ _ Hp).
  rewrite (proj2 (Z.leb_le _ _)) by lia.
  destruct (pool_extend h m out hcs s Hp) as [(m' & h' & E & Hp' & _)|(Hh & Hlt & f & E & Hf)];
    [rewrite zlen_cons; lia|left|right].
  - exists m', h'. split; [by hstep E|done].
  - split; [done|]. split; [done|]. exists f. split; [by apply hm_bind_Fault|done].
Qed.

(** Text that cannot fit is refused, and nothing is written. *)
Lemma bm_write_str_full hcs h m out s :
  pool_ok h ((HMut m, out) :: hcs) → isize_max < zlen out + zlen s → write_str m s h = Ret ((Err tt, m), h).
Proof.
  intros Hp Hs. unfold write_str, bm_write_str. hstep (bm_remaining_ok _ _ _ _ Hp).
  by rewrite (proj2 (Z.leb_gt _ _)) by lia.
Qed.

(** [fmt] prints [text] to a string. *)
Definition prints (fmt : list byte → HM (fmt_result * list byte)) (text : list byte) : Prop :=
  ∀ out h, fmt out h = Ret ((Ok tt, out ++ text), h).

Lemma writes_prints (fmt : list byte → HM (fmt_result * list byte)) text :
  (∀ h0, writes (string_rep h0) fmt text) → prints fmt text.
Proof.
  intros Hw out h. destruct (Hw h h out out (zlen text)) as (w' & h' & E & -> & ->); [done|lia|done].
Qed.

Lemma prints_debug bs : prints (debug_fmt bs) (debug_text bs).
Proof. apply writes_prints. intros h0. apply writes_debug, string_rep_write. Qed.

Lemma prints_hex bs : prints (lower_hex_fmt bs) (hex_text false bs) ∧ prints (upper_hex_fmt bs) (hex_text true bs).
Proof. split; apply writes_prints; intros h0; apply (writes_hex _ (string_rep_write h0)). Qed.

Lemma prints_try_get_error e : prints (try_get_error_fmt e) (try_get_error_text e).
Proof. apply writes_prints. intros h0. apply writes_try_get_error, string_rep_write. Qed.

End sinks.

(** C15: what is printed can be read back.  [Debug] writes printable ASCII that is the
    byte-string literal of exactly the bytes; the hexadecimal formats write two digits a
    byte that decode to the bytes; the message of a [TryGetError] carries both numbers in
    decimal.  [Bytes] and [BytesMut] print as the bytes they show.  Text written into a
    [BytesMut] is appended, in place when the spare capacity holds it and else with growth,
    which panics only when the request does not fit the address space; the [Debug] text of
    a value goes into the spare capacity whole.  Text that no buffer can hold is refused
    and leaves the buffer as it was. *)
Theorem formatting_roundtrip `{T : Target, A : Allocator} :
  (∀ bs, ∃ text, prints (debug_fmt bs) text ∧ Forall (λ c, 0x20 <= u8_to_Z c < 0x7f) text ∧
     ∀ rest, literal (text ++ rest) = Some (bs, rest)) ∧
  (∀ bs, ∃ lower upper, prints (lower_hex_fmt bs) lower ∧ prints (upper_hex_fmt bs) upper ∧
     unhex lower = Some bs ∧ unhex upper = Some bs ∧ zlen lower = 2 * zlen bs ∧ zlen upper = 2 * zlen bs) ∧
  (∀ e, 0 <= requested e → 0 <= available e → ∃ r a, radix_value 10 r = requested e ∧ radix_value 10 a = available e ∧
     prints (try_get_error_fmt e)
       (bstr "Not enough bytes remaining in buffer to read value (requested " ++ r ++
        bstr " but only " ++ a ++ bstr " available)")) ∧
  (∀ W (HW : FmtWrite W) (fmt : list byte → W → HM (fmt_result * W)) f h x m bs bs' hcs,
     pool_ok h ((HBytes x, bs) :: (HMut m, bs') :: hcs) →
     bytes_fmt fmt x f h = fmt bs f h ∧ bm_fmt fmt m f h = fmt bs' f h) ∧
  (∀ h m cur hcs bs, pool_ok h ((HMut m, cur) :: hcs) → zlen hcs + 1 <= isize_max →
     zlen (debug_text bs) <= m_cap m - m_len m →
     ∃ m' h', debug_fmt bs m h = Ret ((Ok tt, m'), h') ∧ pool_ok h' ((HMut m', cur ++ debug_text bs) :: hcs)) ∧
  (∀ h m cur hcs s, pool_ok h ((HMut m, cur) :: hcs) → zlen hcs + 1 <= isize_max →
     zlen cur + zlen s <= isize_max →
     (∃ m' h', write_str m s h = Ret ((Ok tt, m'), h') ∧ pool_ok h' ((HMut m', cur ++ s) :: hcs)) ∨
     out_of_room (write_str m s h) h m (zlen s)) ∧
  (∀ h m cur hcs s, pool_ok h ((HMut m, cur) :: hcs) → isize_max < zlen cur + zlen s →
     write_str m s h = Ret ((Err tt, m), h)).
Proof.
  split; [|split; [|split; [|split; [|split; [|split]]]]].
  - intros bs. exists (debug_text bs). split; [apply prints_debug|]. split; [apply debug_text_printable|].
    apply literal_debug.
  - intros bs. destruct (prints_hex bs) as [H1 H2]. exists (hex_text false bs), (hex_text true bs).
    repeat (split; [done || apply unhex_text || apply hex_text_length|]). apply hex_text_length.
  - intros e Hr Ha. exists (dec (requested e)), (dec (available e)). unfold dec. rewrite !to_radix_value by lia.
    split; [done|]. split; [done|]. apply prints_try_get_error.
  - intros W HW fmt f h x m bs bs' hcs Hp. unfold bytes_fmt, bm_fmt. hstep (pool_read _ _ _ _ Hp).
    split; [done|]. eapply pool_perm in Hp; [|apply Permutation_swap]. by hstep (pool_mut_read _ _ _ _ Hp).
  - intros h m cur hcs bs Hp Hmax Hroom.
    destruct (writes_debug (bm_rep hcs) (λ h m out room s, bm_rep_write hcs h m out room s Hmax) bs h m cur _ (conj Hp eq_refl) Hroom)
      as (m' & h' & E & Hp' & _). by exists m', h'.
  - intros h m cur hcs s. apply bm_write_str_ok.
  - intros h m cur hcs s. apply bm_write_str_full.
Qed.

(** The text of two bytes, one of them a quote. *)
Example debug_text_example : debug_text [x61; x22; xff] = [x62; x22; x61; x5c; x22; x5c; x78; x66; x66; x22].
Proof. reflexivity. Qed.
