(* ===== verification/Serde.v ===== *)
(** * Serde: serializing [Bytes] and [BytesMut] (src/patches/bytes/src/serde.rs)

    The macro [serde_impl!] for both types.  The crate serde is not in the repository: a
    serializer is what [serialize_bytes] does, and a deserializer hands what it decoded to
    one of the methods of the visitor it is given, as the trait documents.  A data format
    whose two sides agree on byte strings ([SerdeFormat]) is the hypothesis of the round
    trip. *)

From S2P Require Import Prelude Machine Loom Heap Bytes BytesMut BytesInv BytesOps BytesPool BytesProps.
From S2P Require Import BytesMutOps BytesMutReserve BytesMutPool BytesMutShare BytesMutProps Collect.
Open Scope Z_scope.

(** [de::SeqAccess]: its size hint, the elements it yields and how it ends. *)
Record seq_access (E : Type) := { sa_hint : option Z; sa_items : list byte; sa_error : option E }.
Arguments sa_hint {E} _.
Arguments sa_items {E} _.
Arguments sa_error {E} _.

(** [de::Visitor], the methods the crate implements. *)
Record visitor (V E : Type) := {
  visit_seq : seq_access E → HM (result V E);
  visit_bytes : list byte → HM (result V E);
  visit_byte_buf : hvec → HM (result V E);
  visit_str : list byte → HM (result V E);
  visit_string : hvec → HM (result V E);
}.
Arguments visit_seq {V E} _.
Arguments visit_bytes {V E} _.
Arguments visit_byte_buf {V E} _.
Arguments visit_str {V E} _.
Arguments visit_string {V E} _.

(** [Serializer], its output or its error. *)
Class Serializer (S O E : Type) := serialize_bytes : S → list byte → result O E.

(** [Deserializer]. *)
Class Deserializer (D E : Type) := deserialize_byte_buf : ∀ V, D → visitor V E → HM (result V E).
Arguments deserialize_byte_buf {D E _ V} _ _.

Section serde.
Context `{T : Target, A : Allocator} {E : Type}.

(** [while let Some(value) = seq.next_element()? { values.push(value) }]: an error drops
    the vector. *)
Fixpoint visit_elements (items : list byte) (error : option E) (values : hvec) : HM (result hvec E) :=
  match items with
  | value :: items =>
    values ← hvec_push values value;
    visit_elements items error values
  | [] =>
    match error with
    | Some e => _ ← drop_vec values; mret (Err e)
    | None => mret (Ok values)
    end
  end.

Definition serde_visit_seq {V} (from_vec : hvec → HM V) (seq : seq_access E) : HM (result V E) :=
  let len := Z.min (default 0 (sa_hint seq)) 4096 in
  values ← hvec_with_capacity len;
  r ← visit_elements (sa_items seq) (sa_error seq) values;
  match r with
  | Ok values => v ← from_vec values; mret (Ok v)
  | Err e => mret (Err e)
  end.

(** The visitor of [serde_impl!($ty, $visitor_ty, $from_slice, $from_vec)]. *)
Definition serde_visitor {V} (from_slice : list byte → HM V) (from_vec : hvec → HM V) : visitor V E := {|
  visit_seq := serde_visit_seq from_vec;
  visit_bytes := λ v, x ← from_slice v; mret (Ok x);
  visit_byte_buf := λ v, x ← from_vec v; mret (Ok x);
  visit_str := λ v, x ← from_slice v; mret (Ok x);
  visit_string := λ v, x ← from_vec v; mret (Ok x) |}.

Definition BytesVisitor : visitor Bytes E := serde_visitor copy_from_slice from_vec.
Definition BytesMutVisitor : visitor BytesMut E := serde_visitor bm_from_slice bm_from_vec.

(** [Serialize] and [Deserialize]. *)
Definition bytes_serialize {S O} `{!Serializer S O E} (self : Bytes) (serializer : S) : HM (result O E) :=
  s ← bytes_as_slice self;
  mret (serialize_bytes serializer s).
Definition bm_serialize {S O} `{!Serializer S O E} (self : BytesMut) (serializer : S) : HM (result O E) :=
  s ← bm_as_slice self;
  mret (serialize_bytes serializer s).
Definition bytes_deserialize {D} `{!Deserializer D E} (deserializer : D) : HM (result Bytes E) :=
  deserialize_byte_buf deserializer BytesVisitor.
Definition bm_deserialize {D} `{!Deserializer D E} (deserializer : D) : HM (result BytesMut E) :=
  deserialize_byte_buf deserializer BytesMutVisitor.

(** ** What a deserializer may hand over *)
Inductive input :=
| InSeq (s : seq_access E)
| InBytes (bs : list byte)
| InByteBuf (v : hvec)
| InStr (bs : list byte)
| InString (v : hvec).

Definition visit {V} (vis : visitor V E) (i : input) : HM (result V E) :=
  match i with
  | InSeq s => visit_seq vis s
  | InBytes bs => visit_bytes vis bs
  | InByteBuf v => visit_byte_buf vis v
  | InStr bs => visit_str vis bs
  | InString v => visit_string vis v
  end.

(** The input [i] is the byte string [bs]; a vector is handed over with its memory. *)
Definition carries (h : heap) (i : input) (bs : list byte) (hcs : list (handle * list byte)) : Prop :=
  match i with
  | InSeq s => sa_items s = bs ∧ sa_error s = None ∧ 0 <= default 0 (sa_hint s) ∧ pool_ok h hcs
  | InBytes b | InStr b => b = bs ∧ pool_ok h hcs
  | InByteBuf v | InString v => pool_ok h ((HVec v, bs) :: hcs)
  end.

(** ** Collecting the elements *)
Lemma visit_elements_ok items error : ∀ h v bs hcs,
  pool_ok h ((HVec v, bs) :: hcs) → zlen hcs + 1 <= isize_max →
  match error with
  | None => ∃ v' h', visit_elements items error v h = Ret (Ok v', h') ∧ pool_ok h' ((HVec v', bs ++ items) :: hcs)
  | Some e => ∃ h', visit_elements items error v h = Ret (Err e, h') ∧ pool_ok h' hcs
  end ∨
  (visit_elements items error v h = Fault PanicCapacity ∧ isize_max < 2 * (zlen bs + zlen items)).
Proof.
  induction items as [|b items IH]; intros h v bs hcs Hp Hmax; cbn [visit_elements].
  - left. destruct error as [e|].
    + destruct (pool_drop h (HVec v) bs hcs Hp) as (h' & E1 & Hp'); [rewrite zlen_cons; lia|].
      exists h'. cbn in E1. split; [by hstep E1|done].
    + exists v, h. by rewrite app_nil_r.
  - pose proof (pool_vec_len _ _ _ _ Hp) as Hl. pose_zlen. rewrite zlen_cons.
    change (bs ++ b :: items) with (bs ++ [b] ++ items). rewrite app_assoc.
    destruct (pool_vec_extend h v bs hcs [b] Hp) as [(v1 & h1 & E1 & Hp1)|(E1 & Hlt & Hbig)]; unfold hvec_push.
    + hstep E1. destruct (IH h1 v1 _ hcs Hp1 Hmax) as [H'|[E' Hbig]]; [by left|right].
      split; [done|]. rewrite zlen_app in Hbig. change (zlen [b]) with 1 in Hbig. lia.
    + right. split; [by apply hm_bind_Fault|]. change (zlen [b]) with 1 in *. lia.
Qed.

(** ** The visitors *)
Section visitor.
Context {V : Type} (as_handle : V → handle) (from_slice : list byte → HM V) (from_vec : hvec → HM V).
(** The constructors the macro is given keep the bytes. *)
Context (from_slice_ok : ∀ h bs hcs, pool_ok h hcs → zlen bs <= isize_max →
  ∃ x h', from_slice bs h = Ret (x, h') ∧ pool_ok h' ((as_handle x, bs) :: hcs)).
Context (from_vec_ok : ∀ h v bs hcs, pool_ok h ((HVec v, bs) :: hcs) →
  ∃ x h', from_vec v h = Ret (x, h') ∧ pool_ok h' ((as_handle x, bs) :: hcs)).

Lemma serde_visit_seq_ok h s hcs :
  pool_ok h hcs → zlen hcs + 1 <= isize_max → 0 <= default 0 (sa_hint s) →
  match sa_error s with
  | None => ∃ x h', serde_visit_seq from_vec s h = Ret (Ok x, h') ∧ pool_ok h' ((as_handle x, sa_items s) :: hcs)
  | Some e => ∃ h', serde_visit_seq from_vec s h = Ret (Err e, h') ∧ pool_ok h' hcs
  end ∨
  (serde_visit_seq from_vec s h = Fault PanicCapacity ∧ isize_max < 2 * zlen (sa_items s)).
Proof using from_vec_ok.
  intros Hp Hmax Hhint. pose proof usize_max_ge. pose proof usize_isize_max. unfold serde_visit_seq. cbv zeta.
  destruct (pool_with_capacity h hcs (Z.min (default 0 (sa_hint s)) 4096) Hp) as (v & h1 & E1 & Hp1 & _); [lia|].
  hstep E1. destruct (visit_elements_ok (sa_items s) (sa_error s) h1 v [] hcs Hp1 Hmax) as [H'|[E' Hbig]].
  - left. destruct (sa_error s) as [e|].
    + destruct H' as (h' & E' & Hp'). exists h'. split; [by hstep E'|done].
    + destruct H' as (v' & h' & E' & Hp'). hstep E'. destruct (from_vec_ok _ _ _ _ Hp') as (x & h2 & E2 & Hp2).
      exists x, h2. split; [by hstep E2|done].
  - right. split; [by apply hm_bind_Fault|done].
Qed.

Lemma serde_visitor_ok h i bs hcs :
  carries h i bs hcs → zlen hcs + 1 <= isize_max → zlen bs <= isize_max →
  (∃ x h', visit (serde_visitor from_slice from_vec) i h = Ret (Ok x, h') ∧ pool_ok h' ((as_handle x, bs) :: hcs)) ∨
  (visit (serde_visitor from_slice from_vec) i h = Fault PanicCapacity ∧ isize_max < 2 * zlen bs).
Proof using from_slice_ok from_vec_ok.
  intros Hc Hmax Hbs. destruct i as [s|b|v|b|v]; cbn in *.
  - destruct Hc as (<- & He & Hh & Hp). destruct (serde_visit_seq_ok h s hcs Hp Hmax Hh) as [H'|H']; [|by right].
    left. by rewrite He in H'.
  - destruct Hc as [-> Hp]. left. destruct (from_slice_ok h bs hcs Hp Hbs) as (x & h' & E1 & Hp').
    exists x, h'. split; [by hstep E1|done].
  - left. destruct (from_vec_ok h v bs hcs Hc) as (x & h' & E1 & Hp'). exists x, h'. split; [by hstep E1|done].
  - destruct Hc as [-> Hp]. left. destruct (from_slice_ok h bs hcs Hp Hbs) as (x & h' & E1 & Hp').
    exists x, h'. split; [by hstep E1|done].
  - left. destruct (from_vec_ok h v bs hcs Hc) as (x & h' & E1 & Hp'). exists x, h'. split; [by hstep E1|done].
Qed.

End visitor.
End serde.

(** A data format: what its serializer writes for a byte string, its deserializer hands to
    any visitor as that byte string. *)
Class SerdeFormat (S D E : Type) `{T : Target, A : Allocator, HS : !Serializer S D E, HD : !Deserializer D E} : Prop :=
  format_ok (s : S) bs : ∃ out, serialize_bytes s bs = Ok out ∧
    ∀ h hcs, pool_ok h hcs → ∃ i h', carries h' i bs hcs ∧
      ∀ V (vis : visitor V E), deserialize_byte_buf out vis h = visit vis i h'.

Section constructors.
Context `{T : Target, A : Allocator}.

Lemma pool_copy_from_slice h bs hcs :
  pool_ok h hcs → zlen bs <= isize_max →
  ∃ x h', copy_from_slice bs h = Ret (x, h') ∧ pool_ok h' ((HBytes x, bs) :: hcs).
Proof.
  intros Hp Hbs. unfold copy_from_slice. destruct (pool_to_vec h bs hcs Hp Hbs) as (v & h1 & E1 & Hp1).
  destruct (pool_from_vec _ _ _ _ Hp1) as (x & h2 & E2 & Hp2). exists x, h2. split; [by hstep E1|done].
Qed.

Lemma pool_bm_from_slice h bs hcs :
  pool_ok h hcs → zlen bs <= isize_max →
  ∃ m h', bm_from_slice bs h = Ret (m, h') ∧ pool_ok h' ((HMut m, bs) :: hcs).
Proof.
  intros Hp Hbs. unfold bm_from_slice. destruct (pool_to_vec h bs hcs Hp Hbs) as (v & h1 & E1 & Hp1).
  destruct (pool_mut_from_vec _ _ _ _ Hp1) as (m & E2 & Hp2 & _). exists m, h1. split; [by hstep E1|done].
Qed.

Lemma pool_bm_from_vec h v bs hcs :
  pool_ok h ((HVec v, bs) :: hcs) → ∃ m h', bm_from_vec v h = Ret (m, h') ∧ pool_ok h' ((HMut m, bs) :: hcs).
Proof. intros Hp. destruct (pool_mut_from_vec _ _ _ _ Hp) as (m & E & Hp' & _). by exists m, h. Qed.

End constructors.

(** C18: serialization.  In any data format whose two sides agree on byte strings, a
    [Bytes] or a [BytesMut] that is serialized and read back shows the same bytes in
    memory of its own, however the format hands the bytes over: borrowed, owned, as a
    string or as a sequence; twice the bytes must fit an allocation.  When a sequence of
    elements ends in an error, both visitors return the error and free the elements read so
    far. *)
Theorem serde_roundtrip `{T : Target, A : Allocator} S D E `{HS : !Serializer S D E, HD : !Deserializer D E}
    (s : S) h x m bs bs' hcs :
  SerdeFormat S D E →
  pool_ok h ((HBytes x, bs) :: (HMut m, bs') :: hcs) → zlen hcs + 4 <= isize_max →
  2 * zlen bs <= isize_max → 2 * zlen bs' <= isize_max →
  (∃ out y h', bytes_serialize x s h = Ret (Ok out, h) ∧ bytes_deserialize out h = Ret (Ok y, h') ∧
     pool_ok h' ((HBytes y, bs) :: (HBytes x, bs) :: (HMut m, bs') :: hcs)) ∧
  (∃ out n h', bm_serialize m s h = Ret (Ok out, h) ∧ bm_deserialize out h = Ret (Ok n, h') ∧
     pool_ok h' ((HMut n, bs') :: (HBytes x, bs) :: (HMut m, bs') :: hcs)) ∧
  (∀ seq e, sa_error seq = Some e → 0 <= default 0 (sa_hint seq) → 2 * zlen (sa_items seq) <= isize_max →
     (∃ h', visit_seq (BytesVisitor (E := E)) seq h = Ret (Err e, h') ∧
        pool_ok h' ((HBytes x, bs) :: (HMut m, bs') :: hcs)) ∧
     (∃ h', visit_seq (BytesMutVisitor (E := E)) seq h = Ret (Err e, h') ∧
        pool_ok h' ((HBytes x, bs) :: (HMut m, bs') :: hcs))).
Proof.
  intros HF Hp Hmax Hb Hb'. pose_zlen. split; [|split].
  - destruct (format_ok s bs) as (out & Es & Hd). destruct (Hd _ _ Hp) as (i & h1 & Hc & Ed).
    destruct (serde_visitor_ok HBytes copy_from_slice from_vec pool_copy_from_slice pool_from_vec h1 i bs _ Hc)
      as [(y & h' & Ey & Hp')|[_ Hbig]]; [rewrite !zlen_cons; lia|lia| |lia].
    exists out, y, h'. unfold bytes_serialize. hstep (pool_read _ _ _ _ Hp). rewrite Es. split; [done|].
    split; [|done]. unfold bytes_deserialize. by rewrite Ed.
  - destruct (format_ok s bs') as (out & Es & Hd). destruct (Hd _ _ Hp) as (i & h1 & Hc & Ed).
    destruct (serde_visitor_ok HMut bm_from_slice bm_from_vec pool_bm_from_slice pool_bm_from_vec h1 i bs' _ Hc)
      as [(y & h' & Ey & Hp')|[_ Hbig]]; [rewrite !zlen_cons; lia|lia| |lia].
    exists out, y, h'. unfold bm_serialize. eapply pool_perm in Hp; [|apply Permutation_swap].
    hstep (pool_mut_read _ _ _ _ Hp). rewrite Es. split; [done|]. split; [|done]. unfold bm_deserialize. by rewrite Ed.
  - intros seq e He Hh Hz. split.
    + destruct (serde_visit_seq_ok HBytes from_vec pool_from_vec h seq _ Hp) as [H'|[_ Hbig]];
        [rewrite !zlen_cons; lia|done| |lia]. by rewrite He in H'.
    + destruct (serde_visit_seq_ok HMut bm_from_vec pool_bm_from_vec h seq _ Hp) as [H'|[_ Hbig]];
        [rewrite !zlen_cons; lia|done| |lia]. by rewrite He in H'.
Qed.

(** A format that writes the bytes as they are and reads them as a sequence, the length of
    which it knows. *)
#[local] Instance plain_serializer : Serializer unit (list byte) unit := λ _ bs, Ok bs.
#[local] Instance plain_deserializer : Deserializer (list byte) unit := λ V d vis,
  visit_seq vis {| sa_hint := Some (zlen d); sa_items := d; sa_error := None |}.

Lemma plain_format `{T : Target, A : Allocator} : SerdeFormat unit (list byte) unit.
Proof.
  intros s bs. exists bs. split; [done|]. intros h hcs Hp. eexists (InSeq _), h. split; [|done].
  cbn. split; [reflexivity|]. split; [done|]. split; [apply zlen_nonneg|done].
Qed.

Lemma serde_roundtrip_witness :
  let h := boxed_heap in
  let m := {| m_ptr := dangling; m_len := 0; m_cap := 0; m_data := vec_word 0 0 |} in
  let x := boxed_bytes in
  ∃ out y h', bytes_serialize x tt h = Ret (Ok out, h) ∧
    bytes_deserialize (T := riscv64) (A := demo_alloc) (E := unit) out h = Ret (Ok y, h') ∧
    pool_ok (T := riscv64) (A := demo_alloc) h' [(HBytes y, [x02; x03]); (HBytes x, [x02; x03]); (HMut m, [])].
Proof.
  intros h m x.
  destruct (serde_roundtrip (T := riscv64) (A := demo_alloc) unit (list byte) unit tt h x m [x02; x03] [] [])
    as (H & _); [exact (plain_format (T := riscv64) (A := demo_alloc))| |done|done|done|exact H].
  destruct (pool_with_capacity (T := riscv64) (A := demo_alloc) h _ 0 boxed_pool ltac:(done)) as (v & h' & E & Hp & _).
  injection E as <- <-. destruct (pool_mut_from_vec _ _ _ _ Hp) as (m' & [= <-] & Hp' & _).
  eapply pool_perm; [apply Permutation_swap|exact Hp'].
Defined.
