(* ===== verification/HandleTypes.v ===== *)
(** * HandleTypes: what the fields of a live handle may hold

    The invariants that the comments of src/patches/bytes/src/bytes.rs and bytes_mut.rs
    state for the fields of [Bytes], [BytesMut] and [Vec<u8>], as a boolean on a handle and
    the heap, and the exclusive access of a [BytesMut] to its bytes. *)

From S2P Require Import Prelude Machine Loom Heap Bytes BytesMut BytesInv BytesOps BytesPool BytesProps.
From S2P Require Import BytesMutOps BytesMutReserve BytesMutPool BytesMutProps.
From stdpp Require Import fin_maps fin_sets.
Open Scope Z_scope.

Section types.
Context `{T : Target, A : Allocator}.

(** The count of handles in the box a data word points to, if it is a live box of the kind
    that is expected there. *)
Definition shared_cnt (h : heap) (data : ptr) : option Z :=
  match data with
  | PObj o => match cells h !! o with Some (CShared s) => Some (sh_ref_cnt s) | _ => None end
  | _ => None
  end.
Definition sharedv_cnt (h : heap) (data : ptr) : option Z :=
  match data with
  | PObj o => match cells h !! o with Some (CSharedV s) => Some (sv_ref_count s) | _ => None end
  | _ => None
  end.
Definition owned_cnt (h : heap) (data : ptr) : option Z :=
  match data with
  | PObj o => match cells h !! o with Some (COwned s) => Some (ow_ref_cnt s) | _ => None end
  | _ => None
  end.

(** At least this handle, and no more than [clone] lets through. *)
Definition count_ok (n : option Z) : bool :=
  match n with Some n => (1 <=? n) && (n <=? isize_max) | None => false end.

Definition data_wf (h : heap) (x : Bytes) : bool :=
  match b_vtable x with
  | STATIC_VTABLE => true
  | PROMOTABLE_EVEN_VTABLE | PROMOTABLE_ODD_VTABLE =>
    if kind_of (b_data x) =? KIND_ARC then count_ok (shared_cnt h (b_data x)) else true
  | SHARED_VTABLE => count_ok (shared_cnt h (b_data x))
  | SHARED_V_VTABLE => count_ok (sharedv_cnt h (b_data x))
  | OWNED_VTABLE => count_ok (owned_cnt h (b_data x))
  end.

(** [ptr] is not null, [len] is at most [cap] and [cap] at most [isize::MAX], and the data
    word has the form its tag bit announces. *)
Definition handle_wf (h : heap) (x : handle) : bool :=
  match x with
  | HBytes x =>
    (0 <? ptr_addr (b_ptr x)) && (0 <=? b_len x) && (b_len x <=? isize_max) && data_wf h x
  | HVec v =>
    (0 <? ptr_addr (hv_ptr v)) && (0 <=? hv_len v) && (hv_len v <=? hv_cap v) && (hv_cap v <=? isize_max)
  | HMut m =>
    (0 <? ptr_addr (m_ptr m)) && (0 <=? m_len m) && (m_len m <=? m_cap m) && (m_cap m <=? isize_max) &&
    (if bm_kind m =? KIND_VEC then Z.shiftr (ptr_addr (m_data m)) VEC_POS_OFFSET <=? MAX_VEC_POS
     else count_ok (sharedv_cnt h (m_data m)))
  end.

(** The memory a handle points into. *)
Definition handle_ptr (x : handle) : ptr :=
  match x with HBytes x => b_ptr x | HVec v => hv_ptr v | HMut m => m_ptr m end.

(** ** Within one group *)
Lemma count_ok_len (xs : list (handle * list byte)) :
  xs ≠ [] → zlen xs <= isize_max → count_ok (Some (zlen xs)) = true.
Proof.
  intros Hne Hmax. cbn. destruct xs; [done|]. rewrite zlen_cons in *. pose_zlen.
  by rewrite (proj2 (Z.leb_le _ _)), (proj2 (Z.leb_le _ _)) by lia.
Qed.

Lemma data_wf_ok h x bs rest fp :
  storage h ((HBytes x, bs) :: rest) fp → zlen ((HBytes x, bs) :: rest) <= isize_max → data_wf h x = true.
Proof.
  intros Hst Hmax. unfold data_wf.
  inversion Hst as [? ? Hv|? ? ? ? ? ? ? ? Hw|? ? ? ? ? Ho ? ? ? ? Hne -> Hf| | | |
    ? ? ? ? ? ? ? ? Ho ? ? ? Hne -> Hf|? ? ? ? ? ? ? Ho ? ? Hne -> Hf]; subst.
  - by destruct Hv as [-> _].
  - destruct Hw as [(Hb & -> & ->)|(Hb & -> & ->)]; unfold kind_of; cbn [ptr_addr]; unfold KIND_MASK, KIND_ARC.
    + rewrite land_1 in *. rewrite <- Zplus_mod_idemp_l, Hb. done.
    + rewrite Z.add_0_r, Hb. done.
  - apply Forall_cons in Hf as [(Hvt & Hd & _) _]. rewrite Hd, kind_of_obj. cbn [shared_cnt]. rewrite Ho. cbn [sh_ref_cnt].
    by destruct Hvt as [-> | [-> | ->]]; apply count_ok_len.
  - apply Forall_cons in Hf as [(-> & Hd & _) _]. rewrite Hd. cbn [sharedv_cnt]. rewrite Ho. by apply count_ok_len.
  - apply Forall_cons in Hf as [(-> & Hd & _) _]. rewrite Hd. cbn [owned_cnt]. rewrite Ho. by apply count_ok_len.
Qed.

Lemma storage_wf h x bs rest fp :
  storage h ((x, bs) :: rest) fp → zlen ((x, bs) :: rest) <= isize_max → handle_wf h x = true.
Proof.
  intros Hst Hmax. unfold handle_wf. pose proof (zlen_nonneg bs). destruct x as [x|v|m].
  - rewrite (data_wf_ok _ _ _ _ _ Hst Hmax). apply storage_bytes_len in Hst as (Hl & Ha & Hi).
    rewrite Hl, !andb_true_iff, Z.ltb_lt, !Z.leb_le. repeat split; (lia || done).
  - apply storage_vec_inv in Hst as (-> & p & d & Hb & -> & (_ & _ & Hle & _)). cbn [hv_ptr hv_len hv_cap].
    pose proof (vbuf_size _ _ _ _ Hb). assert (0 < ptr_addr p).
    { destruct Hb; [|done]. cbn. pose proof (block_addr_pos l). lia. }
    rewrite !andb_true_iff, Z.ltb_lt, !Z.leb_le. repeat split; (lia || done).
  - pose proof (mut_len _ _ _ _ _ Hst) as (Hl & Hc & Ha). rewrite Hl.
    rewrite !andb_true_iff, Z.ltb_lt, !Z.leb_le. split; [lia|].
    apply storage_mut_inv in Hst as [(-> & p & d & off & r & Hb & Hv & Hend & Hd & Hr & Hpos)|
      (o & p & d & fp' & n & r & -> & Ho & Hb & Hof & Hr & Hf & Hex)].
    + rewrite (bm_kind_vec _ _ _ Hd), Hd, vec_word_pos by done. by apply Z.leb_le.
    + pose proof Hf as [(Hd & _) _]%Forall_cons. rewrite (bm_kind_arc _ _ Hd), Hd. cbn [sharedv_cnt]. rewrite Ho.
      by apply count_ok_len.
Qed.

(** A handle into a buffer belongs to the group that owns it. *)
Lemma storage_ptr h x bs rest fp l off :
  storage h ((x, bs) :: rest) fp → handle_ptr x = PHeap l off → l ∈ fp.
Proof.
  assert (Hvb : ∀ p d fp' q k, vbuf h p d fp' → view_at p d q k bs → q = PHeap l off → l ∈ fp').
  { intros p d fp' q k [] (-> & _) E; cbn in E; [injection E as <- <-; set_solver|done]. }
  intros Hst E.
  inversion Hst as [? ? Hv|? ? ? ? ? ? ? ? ? Hv|? ? ? ? ? ? ? ? ? ? ? ? Hf| | |? ? ? ? ? ? ? Hb Hv|
    ? ? ? ? ? ? ? ? Ho Hb ? ? ? ? Hf|? ? ? ? ? ? ? Ho Hb ? ? ? Hf]; subst; cbn in E.
  - destruct Hv as (_ & _ & _ & _ & Hp). by rewrite E in Hp.
  - destruct Hv as (Hp & _). rewrite E in Hp. injection Hp as -> _. set_solver.
  - apply Forall_cons in Hf as [Hx _]. destruct x as [x| |]; [|done|done]. destruct Hx as (_ & _ & k & Hp & _).
    cbn in E. rewrite E in Hp. injection Hp as -> _. set_solver.
  - injection E as <- _. set_solver.
  - done.
  - destruct Hv as [Hv _]. by eapply Hvb.
  - apply Forall_cons in Hf as [Hx _]. apply elem_of_union_r. destruct x as [x| |m]; [|done|].
    + destruct Hx as (_ & _ & _ & k & Hv). by eapply Hvb.
    + destruct Hx as (_ & k & Hv & _). by eapply Hvb.
  - apply Forall_cons in Hf as [Hx _]. apply elem_of_union_r. destruct x as [x| |m]; [|done|done].
    destruct Hx as (_ & _ & _ & k & Hv). by eapply Hvb.
Qed.

(** ** In the whole pool *)
Lemma pool_wf h x bs hcs :
  pool_ok h ((x, bs) :: hcs) → zlen ((x, bs) :: hcs) <= isize_max → handle_wf h x = true.
Proof.
  intros (rest & fp & gs & Hwf & Hp)%pool_focus Hmax. eapply storage_wf; [by eapply wf_storage|].
  pose proof (rest_len (x, bs) _ _ _ Hp). lia.
Qed.

(** A [BytesMut] and another handle into the same buffer have no byte in common. *)
Lemma pool_apart h m bs y cs hcs l i j :
  pool_ok h ((HMut m, bs) :: (y, cs) :: hcs) → m_ptr m = PHeap l i → handle_ptr y = PHeap l j →
  apart (HMut m) y.
Proof.
  intros (rest & fp & gs & Hwf & Hp)%pool_focus Hm Hy. pose proof (wf_storage _ _ _ _ Hwf) as Hst.
  assert (Hin : (y, cs) ∈ rest ++ concat (fst <$> gs)) by (rewrite <- Hp; by left).
  apply elem_of_app in Hin as [Hin|Hin].
  - apply storage_mut_inv in Hst as [(-> & _)|(o & p & d & fp' & n & r & _ & _ & _ & _ & _ & _ & Hex & _)];
      [by apply not_elem_of_nil in Hin|].
    rewrite Forall_forall in Hex. exact (Hex _ Hin).
  - pose proof (storage_ptr _ _ _ _ _ _ _ Hst Hm) as Hl.
    apply list_elem_of_In, in_concat in Hin as (ys & Hys & Hin). apply list_elem_of_In in Hys, Hin.
    apply list_elem_of_fmap in Hys as ([ys' fp'] & -> & Hg). cbn in Hin.
    destruct Hwf as (Hall & [Hsep _] & _). apply Forall_cons in Hall as [_ Hall]. rewrite Forall_forall in Hall.
    specialize (Hall _ Hg). cbn in Hall. apply elem_of_Permutation in Hin as [k Hk].
    pose proof (storage_ptr _ _ _ _ _ _ _ (storage_perm _ _ _ _ Hall Hk) Hy) as Hl'.
    exfalso. apply (Hsep l); [done|]. apply elem_footprint. by exists (ys', fp').
Qed.

(** Two places of a pool, focused. *)
Lemma represents_two h xs avs i j x y :
  represents h xs avs → i ≠ j → xs !! i = Some x → xs !! j = Some y →
  ∃ bs cs hcs, pool_ok h ((x, bs) :: (y, cs) :: hcs).
Proof.
  intros Hr Hij Hx Hy.
  assert (∃ k, delete i xs !! k = Some y) as [k Hk].
  { destruct (decide (j < i)%nat); [exists j|exists (pred j)].
    - by rewrite list_lookup_delete_lt.
    - rewrite list_lookup_delete_ge by lia. by replace (S (pred j)) with j by lia. }
  destruct (represents_pair _ _ _ _ _ _ _ Hr Hx Hk) as (a & b & _ & _ & _ & _ & _ & _ & _ & Hp). eauto.
Qed.

End types.

(** C27: the handles of every program stay well formed.  Whatever operations built them,
    no handle has a null pointer, a length above its capacity or a capacity above
    [isize::MAX]; the data word has the form its tag and vtable say, and a box it points to
    is alive, of the right kind, and counts at least this handle.  And the bytes a
    [BytesMut] may write are its own: no other handle into the same buffer reaches them. *)
Theorem handles_well_formed `{T : Target, A : Allocator} prog xs h :
  Forall minstr_ok prog → zlen prog < isize_max → run_mprog prog [] empty_heap = Ret (xs, h) →
  Forall (λ x, handle_wf h x = true) xs ∧
  (∀ i j m y l a b, i ≠ j → xs !! i = Some (HMut m) → xs !! j = Some y →
     m_ptr m = PHeap l a → handle_ptr y = PHeap l b → 0 < m_cap m → h_lo y < h_hi y →
     a + m_cap m <= h_lo y ∨ h_hi y <= a).
Proof.
  intros Hok Hmax E.
  destruct (mprog_refines prog empty_heap [] [] represents_empty Hok) as (r & Hs & H);
    [rewrite zlen_nil; lia|].
  destruct r as [avs|]; [|by destruct H as (f & E' & _); rewrite E in E'].
  destruct H as (xs' & h' & E' & Hr & Hl). rewrite E in E'. injection E' as <- <-. rewrite zlen_nil in Hl. split.
  - apply Forall_lookup. intros i x Hx. destruct (represents_focus _ _ _ _ _ Hr Hx) as (a & Ha & Hr').
    pose proof (represents_inv _ _ _ _ _ Hr') as (_ & _ & Hp). eapply pool_wf; [exact Hp|].
    pose proof (lookup_lt_Some _ _ _ Hx). rewrite zlen_cons. unfold zlen in *.
    rewrite length_zip_with, length_delete by eauto. lia.
  - intros i j m y l a b Hij Hm Hy Em Ey Hc Hne.
    destruct (represents_two _ _ _ _ _ _ _ Hr Hij Hm Hy) as (bs & cs & hcs & Hp).
    pose proof (pool_apart _ _ _ _ _ _ _ _ _ Hp Em Ey (or_introl I)) as Hap.
    assert (Elo : h_lo (HMut m) = a) by (cbn; by rewrite Em).
    assert (Ehi : h_hi (HMut m) = a + m_cap m) by (unfold h_hi; by rewrite Elo). lia.
Qed.

(** A split [BytesMut]; the back half is frozen and cloned. *)
Definition demo_typed : list minstr :=
  [FromSlice [x01; x02; x03; x04]; MDo 0 (MSplitOff 2); MDo 1 Freeze; MDo 0 (Base Clone)].

Lemma handles_well_formed_witness :
  ∃ xs h, run_mprog (T := riscv64) (A := demo_alloc) demo_typed [] empty_heap = Ret (xs, h) ∧ length xs = 3%nat ∧
    Forall (λ x, handle_wf (T := riscv64) (A := demo_alloc) h x = true) xs.
Proof.
  assert (E : ∃ xs h, run_mprog (T := riscv64) (A := demo_alloc) demo_typed [] empty_heap = Ret (xs, h) ∧ length xs = 3%nat).
  { eexists _, _. split; vm_compute; reflexivity. }
  destruct E as (xs & h & E & Hl). exists xs, h. split; [exact E|]. split; [exact Hl|].
  apply (handles_well_formed (T := riscv64) (A := demo_alloc) demo_typed xs h); [|done|exact E].
  unfold demo_typed. repeat constructor; done.
Defined.
