(* ===== verification/Conversions.v ===== *)
(** * Conversions: views of [Bytes] and [BytesMut], and how they are made from other types

    The accessors and the one-call trait implementations of bytes.rs and bytes_mut.rs:
    [Deref], [AsRef], [Borrow] and their mutable forms, [Default], the [From] conversions,
    iteration by reference and [Extend] and [FromIterator] over references. *)

From S2P Require Import Prelude Machine Buf BufSpec BufSources BufAdapters Loom Heap Bytes BytesMut.
From S2P Require Import BytesInv BytesOps BytesPool BytesProps BytesMutOps BytesMutReserve BytesMutPool BytesMutShare.
From S2P Require Import HBuf HBufSpec HBufSources BytesMutProps Compare Collect Serde.
Open Scope Z_scope.

Section conversions.
Context `{T : Target, A : Allocator}.

(** ** [Bytes] *)
Definition bytes_len (self : Bytes) : Z := b_len self.
Definition bytes_is_empty (self : Bytes) : bool := b_len self =? 0.
Definition bytes_deref (self : Bytes) : HM (list byte) := bytes_as_slice self.
Definition bytes_as_ref (self : Bytes) : HM (list byte) := bytes_as_slice self.
Definition bytes_borrow (self : Bytes) : HM (list byte) := bytes_as_slice self.
Definition bytes_default : Bytes := bytes_new.
Definition bytes_from_static_slice (slice : static_slice) : Bytes := from_static slice.
(** [From<&'static str>]; [as_bytes] is the same memory. *)
Definition bytes_from_static_str (slice : static_slice) : Bytes := from_static slice.
(** [From<String>]; [into_bytes] gives the vector of the string. *)
Definition bytes_from_string (s : RString) : HM Bytes := from_vec (string_vec s).
Definition bytes_into_iter (self : Bytes) : IntoIter Bytes := Build_IntoIter self.
(** [&Bytes] iterates over references to the bytes. *)
Definition bytes_ref_into_iter (self : Bytes) : HM (iterator (Ref byte)) :=
  slice ← bytes_as_slice self;
  mret {| it_items := Build_Ref <$> slice; it_lower := zlen slice |}.

(** ** [BytesMut] *)
Definition bm_len (self : BytesMut) : Z := m_len self.
Definition bm_is_empty (self : BytesMut) : bool := m_len self =? 0.
Definition bm_capacity (self : BytesMut) : Z := m_cap self.
Definition bm_as_ref (self : BytesMut) : HM (list byte) := bm_as_slice self.
Definition bm_deref (self : BytesMut) : HM (list byte) := bm_as_ref self.
Definition bm_borrow (self : BytesMut) : HM (list byte) := bm_as_ref self.
(** [as_slice_mut]: the bytes, and what the heap becomes when they are replaced. *)
Definition bm_as_slice_mut (self : BytesMut) : HM (borrow (HM unit) (list byte)) :=
  slice ← bm_as_slice self;
  mret {| borrowed := slice; give_back := λ new, write_raw (m_ptr self) (Some <$> new) |}.
Definition bm_as_mut (self : BytesMut) : HM (borrow (HM unit) (list byte)) := bm_as_slice_mut self.
Definition bm_deref_mut (self : BytesMut) : HM (borrow (HM unit) (list byte)) := bm_as_mut self.
Definition bm_borrow_mut (self : BytesMut) : HM (borrow (HM unit) (list byte)) := bm_as_mut self.
Definition bm_default : HM BytesMut := bm_new.
Definition bm_from_str (src : Str) : HM BytesMut := bm_from_slice (str_bytes src).
Definition bytes_from_bytes_mut (src : BytesMut) : HM Bytes := freeze src.
Definition bm_into_iter (self : BytesMut) : IntoIter BytesMut := Build_IntoIter self.
Definition bm_ref_into_iter (self : BytesMut) : HM (iterator (Ref byte)) :=
  slice ← bm_as_ref self;
  mret {| it_items := Build_Ref <$> slice; it_lower := zlen slice |}.

(** [iter.copied()]. *)
Definition copied (iter : iterator (Ref byte)) : iterator byte :=
  {| it_items := ref_of <$> it_items iter; it_lower := it_lower iter |}.
Definition extend_u8_ref (self : BytesMut) (iter : iterator (Ref byte)) : HM BytesMut := extend_u8 self (copied iter).
Definition bm_from_iter_ref (capacity : Z) (iter : iterator (Ref byte)) : HM BytesMut :=
  bm_from_iter capacity (it_items (copied iter)).

(** ** What they show *)
Lemma len_is_empty (bs : list byte) : (zlen bs =? 0) = bool_decide (bs = []).
Proof. case_bool_decide as H; [by rewrite H|]. apply Z.eqb_neq. by rewrite zlen_0_nil. Qed.

Lemma from_static_view h hcs s : pool_ok h hcs → 0 < st_addr s → zlen (st_bytes s) <= isize_max →
  pool_ok h ((HBytes (from_static s), st_bytes s) :: hcs).
Proof.
  intros Hp H1 H2. apply pool_static; [done|]. unfold static_view. cbn. rewrite zdrop_0.
  repeat split; try done; try lia. by apply ztake_ge.
Qed.

Lemma pool_replace_all h m bs hcs new : pool_ok h ((HMut m, bs) :: hcs) → zlen new = zlen bs →
  ∃ h', write_raw (m_ptr m) (Some <$> new) h = Ret (tt, h') ∧ pool_ok h' ((HMut m, new) :: hcs).
Proof.
  intros Hp Hn. pose proof (pool_mut_len _ _ _ _ Hp) as (Hl & Hc & _). pose proof (zlen_nonneg bs).
  destruct (pool_mut_update h m bs hcs 0 new Hp) as (h' & E & Hp'); [lia|lia|]. cbv zeta in Hp'.
  assert (splice bs 0 new = new) as Hs.
  { unfold splice. rewrite ztake_0, zdrop_ge by lia. by rewrite app_nil_r. }
  rewrite Hs, Hn, <- Hl, with_view_same in Hp'. exists h'. split; [|done]. by rewrite ptr_add_0 in E.
Qed.

Lemma default_mut h hcs : pool_ok h hcs → ∃ m h', bm_default h = Ret (m, h') ∧ pool_ok h' ((HMut m, []) :: hcs).
Proof.
  intros Hp. pose proof isize_max_pos. destruct (pool_with_capacity h hcs 0 Hp) as (v & h' & E & Hp' & _); [lia|].
  destruct (pool_mut_from_vec _ _ _ _ Hp') as (m & E2 & Hp2 & _). exists m, h'. split; [|done].
  unfold bm_default, bm_new, with_capacity. by hstep E.
Qed.

Lemma refs_copied (bs : list byte) : ref_of <$> (Build_Ref <$> bs) = bs.
Proof. rewrite <- list_fmap_compose. apply list_fmap_id. Qed.

Lemma bytes_views h x bs rest : pool_ok h ((HBytes x, bs) :: rest) →
  bytes_len x = zlen bs ∧ bytes_is_empty x = bool_decide (bs = []) ∧
  bytes_deref x h = Ret (bs, h) ∧ bytes_as_ref x h = Ret (bs, h) ∧ bytes_borrow x h = Ret (bs, h) ∧
  ∃ it, bytes_ref_into_iter x h = Ret (it, h) ∧ it_items (copied it) = bs.
Proof.
  intros Hp. pose proof (pool_bytes_len _ _ _ _ Hp) as [Hl _]. pose proof (pool_read _ _ _ _ Hp) as E.
  split; [done|]. split; [unfold bytes_is_empty; by rewrite Hl, len_is_empty|]. do 3 (split; [done|]).
  eexists. split; [unfold bytes_ref_into_iter; by hstep E|]. apply refs_copied.
Qed.

Lemma mut_views h m bs rest : pool_ok h ((HMut m, bs) :: rest) → zlen ((HMut m, bs) :: rest) < isize_max →
  bm_len m = zlen bs ∧ bm_is_empty m = bool_decide (bs = []) ∧ zlen bs <= bm_capacity m ∧
  bm_deref m h = Ret (bs, h) ∧ bm_borrow m h = Ret (bs, h) ∧
  (∃ it, bm_ref_into_iter m h = Ret (it, h) ∧ it_items (copied it) = bs) ∧
  (∃ v, bm_deref_mut m h = Ret (v, h) ∧ bm_borrow_mut m h = Ret (v, h) ∧ borrowed v = bs ∧
     ∀ new, zlen new = zlen bs →
       ∃ h', give_back v new h = Ret (tt, h') ∧ pool_ok h' ((HMut m, new) :: rest)) ∧
  (∃ x h', bytes_from_bytes_mut m h = Ret (x, h') ∧ pool_ok h' ((HBytes x, bs) :: rest)) ∧
  (∀ it, (∃ m' h', extend_u8_ref m it h = Ret (m', h') ∧ pool_ok h' ((HMut m', bs ++ (ref_of <$> it_items it)) :: rest)) ∨
         extend_u8_panics m (copied it) h ∧ ∃ f, extend_u8_ref m it h = Fault f ∧ capacity_panic f).
Proof.
  intros Hp Hmax. rewrite zlen_cons in Hmax. pose proof (pool_mut_len _ _ _ _ Hp) as (Hl & [Hc _] & _).
  pose proof (pool_mut_read _ _ _ _ Hp) as E. split; [done|]. split; [unfold bm_is_empty; by rewrite Hl, len_is_empty|].
  split; [done|]. do 2 (split; [done|]).
  split; [eexists; split; [unfold bm_ref_into_iter, bm_as_ref; by hstep E|apply refs_copied]|].
  split; [|split; [by apply pool_freeze|]].
  - eexists. split; [unfold bm_deref_mut, bm_as_mut, bm_as_slice_mut; by hstep E|].
    split; [unfold bm_borrow_mut, bm_as_mut, bm_as_slice_mut; by hstep E|]. split; [done|].
    intros new Hn. by apply (pool_replace_all h m bs).
  - intros it. destruct (extend_u8_ok h m bs rest (copied it) Hp) as [H|H]; [lia|by left|right].
    split; [done|]. by apply extend_u8_panics_fault.
Qed.

Lemma from_iter_ref_ok h hcs cap it : pool_ok h hcs → 0 <= cap <= isize_max →
  (∃ m h', bm_from_iter_ref cap it h = Ret (m, h') ∧ pool_ok h' ((HMut m, ref_of <$> it_items it) :: hcs)) ∨
  isize_max < 2 * zlen (it_items it) ∧ bm_from_iter_ref cap it h = Fault PanicCapacity.
Proof.
  intros Hp Hc. unfold bm_from_iter_ref, bm_from_iter.
  destruct (vec_from_iter_ok h hcs cap (it_items (copied it)) Hp Hc) as [(v & h' & E & Hp')|[E Hbig]].
  - left. destruct (pool_mut_from_vec _ _ _ _ Hp') as (m & E2 & Hp2 & _). exists m, h'. split; [by hstep E|done].
  - right. split; [|by apply hm_bind_Fault]. cbn in Hbig. unfold zlen in *. by rewrite length_fmap in Hbig.
Qed.

(** A buffer iterated by value is used up. *)
Lemma into_iter_bytes h x bs hcs : pool_ok h ((HBytes x, bs) :: hcs) → zlen hcs + 1 <= isize_max →
  ∃ h', hcollect (length bs) (bytes_into_iter x) h = Ret (bs, h') ∧ pool_ok h' hcs.
Proof.
  intros Hp Hmax. destruct (hcollect_ok bytes_core_laws bs (length bs) h x 1 hcs) as (x' & h1 & E & Hl); [by apply held_handle|lia|done|].
  destruct Hl as (? & ? & (-> & ->) & _ & Hp1). by exists h1.
Qed.
Lemma into_iter_mut h m bs hcs : pool_ok h ((HMut m, bs) :: hcs) → zlen hcs + 1 <= isize_max →
  ∃ h', hcollect (length bs) (bm_into_iter m) h = Ret (bs, h') ∧ pool_ok h' hcs.
Proof.
  intros Hp Hmax. destruct (hcollect_ok bm_core_laws bs (length bs) h m 1 hcs) as (m' & h1 & E & Hl); [by apply held_handle|lia|done|].
  destruct Hl as (? & ? & (-> & ->) & _ & Hp1). by exists h1.
Qed.
End conversions.

(** C31: views and conversions.  [len], [is_empty], [Deref], [AsRef], [Borrow] and iteration by
    reference of a live handle show its bytes and change nothing; replacing the bytes
    through a mutable view replaces those of this handle only.  [Default], the [From]
    conversions and [FromIterator] give a handle that shows the bytes of what it was made
    from, and [Extend] over references appends the bytes they refer to, or panics when the
    growth it needs does not fit the address space.  Iterating by value yields the bytes and
    releases the memory. *)
Theorem conversions_correct `{T : Target, A : Allocator} h hcs :
  pool_ok h hcs → zlen hcs < isize_max →
  (∀ x bs rest, hcs = (HBytes x, bs) :: rest →
     bytes_len x = zlen bs ∧ bytes_is_empty x = bool_decide (bs = []) ∧
     bytes_deref x h = Ret (bs, h) ∧ bytes_as_ref x h = Ret (bs, h) ∧ bytes_borrow x h = Ret (bs, h) ∧
     (∃ h', hcollect (length bs) (bytes_into_iter x) h = Ret (bs, h') ∧ pool_ok h' rest) ∧
     ∃ it, bytes_ref_into_iter x h = Ret (it, h) ∧ it_items (copied it) = bs) ∧
  (∀ m bs rest, hcs = (HMut m, bs) :: rest →
     bm_len m = zlen bs ∧ bm_is_empty m = bool_decide (bs = []) ∧ zlen bs <= bm_capacity m ∧
     bm_deref m h = Ret (bs, h) ∧ bm_borrow m h = Ret (bs, h) ∧
     (∃ h', hcollect (length bs) (bm_into_iter m) h = Ret (bs, h') ∧ pool_ok h' rest) ∧
     (∃ it, bm_ref_into_iter m h = Ret (it, h) ∧ it_items (copied it) = bs) ∧
     (∃ v, bm_deref_mut m h = Ret (v, h) ∧ bm_borrow_mut m h = Ret (v, h) ∧ borrowed v = bs ∧
        ∀ new, zlen new = zlen bs →
          ∃ h', give_back v new h = Ret (tt, h') ∧ pool_ok h' ((HMut m, new) :: rest)) ∧
     (∃ x h', bytes_from_bytes_mut m h = Ret (x, h') ∧ pool_ok h' ((HBytes x, bs) :: rest)) ∧
     (∀ it, (∃ m' h', extend_u8_ref m it h = Ret (m', h') ∧ pool_ok h' ((HMut m', bs ++ (ref_of <$> it_items it)) :: rest)) ∨
            extend_u8_panics m (copied it) h ∧ ∃ f, extend_u8_ref m it h = Fault f ∧ capacity_panic f)) ∧
  pool_ok h ((HBytes bytes_default, []) :: hcs) ∧
  (∃ m h', bm_default h = Ret (m, h') ∧ pool_ok h' ((HMut m, []) :: hcs)) ∧
  (∀ s, 0 < st_addr s → zlen (st_bytes s) <= isize_max →
     pool_ok h ((HBytes (bytes_from_static_slice s), st_bytes s) :: hcs) ∧
     pool_ok h ((HBytes (bytes_from_static_str s), st_bytes s) :: hcs)) ∧
  (∀ cap it, 0 <= cap <= isize_max →
     (∃ m h', bm_from_iter_ref cap it h = Ret (m, h') ∧ pool_ok h' ((HMut m, ref_of <$> it_items it) :: hcs)) ∨
     isize_max < 2 * zlen (it_items it) ∧ bm_from_iter_ref cap it h = Fault PanicCapacity) ∧
  (∀ src, zlen (str_bytes src) <= isize_max →
     ∃ m h', bm_from_str src h = Ret (m, h') ∧ pool_ok h' ((HMut m, str_bytes src) :: hcs)) ∧
  (∀ s bs rest, hcs = (HVec (string_vec s), bs) :: rest →
     ∃ x h', bytes_from_string s h = Ret (x, h') ∧ pool_ok h' ((HBytes x, bs) :: rest)).
Proof.
  intros Hp Hmax. split.
  { intros x bs rest ->. destruct (bytes_views h x bs rest Hp) as (H1 & H2 & H3 & H4 & H5 & H6). rewrite zlen_cons in Hmax.
    do 5 (split; [done|]). split; [|done]. apply into_iter_bytes; [done|lia]. }
  split.
  { intros m bs rest ->. destruct (mut_views h m bs rest Hp Hmax) as (H1 & H2 & H3 & H4 & H5 & H6). rewrite zlen_cons in Hmax.
    do 5 (split; [done|]). split; [|done]. apply into_iter_mut; [done|lia]. }
  split; [apply (from_static_view h hcs EMPTY Hp); [done|]; change (zlen (st_bytes EMPTY)) with 0; pose proof isize_max_pos; lia|].
  split; [by apply default_mut|]. split; [intros s H1 H2; split; by apply from_static_view|].
  split; [intros; by apply from_iter_ref_ok|]. split; [intros src H; by apply pool_bm_from_slice|]. intros s bs rest ->. by apply pool_from_vec.
Qed.

Lemma conversions_correct_witness :
  (bm_len demo_mut = 2 ∧ bm_is_empty demo_mut = false) ∧
  ∃ x h', bytes_from_bytes_mut (T := riscv64) (A := demo_alloc) demo_mut demo_heap = Ret (x, h') ∧
    pool_ok (T := riscv64) (A := demo_alloc) h' [(HBytes x, [x01; x02])].
Proof.
  destruct (conversions_correct (T := riscv64) (A := demo_alloc) demo_heap [(HMut demo_mut, [x01; x02])]) as (_ & H & _);
    [exact demo_pool|done|].
  destruct (H demo_mut [x01; x02] [] eq_refl) as (H1 & H2 & _ & _ & _ & _ & _ & _ & H3 & _).
  split; [split; [exact H1|exact H2]|exact H3].
Defined.
