(* ===== verification/SdkUtil.v ===== *)
(** * SdkUtil: bytes, hexadecimal strings and numbers of the wallet SDK (src/sdk/src/util.ts)

    A JavaScript string is a list of ASCII characters, a [Uint8Array] a byte list, a
    [bigint] a [Z], and an exception an [Err].  The bitwise operators of JavaScript work on
    32-bit integers and are written out with their wrap-around. *)

From S2P Require Import Prelude Machine Text Witness.
Open Scope Z_scope.
Local Open Scope rust_scope.

(** The exceptions of util.ts, address.ts and wallet.ts, one per [throw], and those of the
    standard library. *)
Inductive SdkError :=
| HexPrefix | HexOdd | U32Range | U64Range | NumberRange | NegativeBigInt
| RangeError | SyntaxError
| UnsupportedPrefix | UnsupportedHashType | UnsupportedHashTypeByte
| InvalidBitValue | InvalidPadding
| MixedCase | InvalidAddress | InvalidCharacter | InvalidChecksum
| CodeHashLength | PayloadTooShort | NotFullFormat
| UnsafeInteger | AmountBelowMinimum | InsufficientCapacity
| HashLength | LockArgsLength | SecretKeyLength | PublicKeyLength | SignatureLength | WasmThrew (message : option (list byte)) | WitnessThrew (e : WitnessError)
| InvalidRecipientNetwork | InsufficientTotal | InsufficientForFee.

(** ** The language *)

(** [ToInt32], and the operators on its results. *)
Definition int32 (z : Z) : Z := wrap_signed 32 z.
Definition js_shl (a n : Z) : Z := int32 (Z.shiftl (int32 a) n).
Definition js_shr (a n : Z) : Z := Z.shiftr (int32 a) n.
Definition js_and (a b : Z) : Z := Z.land (int32 a) (int32 b).
Definition js_or (a b : Z) : Z := Z.lor (int32 a) (int32 b).
Definition js_xor (a b : Z) : Z := Z.lxor (int32 a) (int32 b).
(** [z >>> 0]. *)
Definition js_uint32 (z : Z) : Z := wrap_unsigned 32 z.

Definition starts_with (p s : list byte) : bool := bool_decide (take (length p) s = p).

Definition lower_char (c : byte) : byte :=
  let n := u8_to_Z c in if (65 <=? n) && (n <=? 90) then u8_of_Z (n + 32) else c.
Definition upper_char (c : byte) : byte :=
  let n := u8_to_Z c in if (97 <=? n) && (n <=? 122) then u8_of_Z (n - 32) else c.
Definition toLowerCase (s : list byte) : list byte := lower_char <$> s.
Definition toUpperCase (s : list byte) : list byte := upper_char <$> s.

Fixpoint drop_while (f : byte → bool) (s : list byte) : list byte :=
  match s with
  | c :: s' => if f c then drop_while f s' else s
  | [] => []
  end.

(** [StringToBigInt]: surrounding white space is dropped, the empty string is zero, a
    prefix selects another base, and only a decimal number has a sign. *)
Definition is_space (c : byte) : bool :=
  let n := u8_to_Z c in ((9 <=? n) && (n <=? 13)) || (n =? 32).
Definition trim (s : list byte) : list byte :=
  reverse (drop_while is_space (reverse (drop_while is_space s))).
Definition string_to_bigint (s : list byte) : option Z :=
  let s := trim s in
  if is_empty s then Some 0
  else if starts_with (bstr "0x") s || starts_with (bstr "0X") s then parse_radix 16 (zdrop 2 s)
  else if starts_with (bstr "0o") s || starts_with (bstr "0O") s then parse_radix 8 (zdrop 2 s)
  else if starts_with (bstr "0b") s || starts_with (bstr "0B") s then parse_radix 2 (zdrop 2 s)
  else if starts_with (bstr "-") s then Z.opp <$> parse_radix 10 (zdrop 1 s)
  else if starts_with (bstr "+") s then parse_radix 10 (zdrop 1 s)
  else parse_radix 10 s.
Definition BigInt (s : list byte) : result Z SdkError :=
  match string_to_bigint s with Some z => Ok z | None => Err SyntaxError end.

(** [Buffer.from(hex, "hex")] stops at the first pair that is not two digits. *)
Fixpoint buffer_from_hex (cs : list byte) : list byte :=
  match cs with
  | c :: d :: cs => match hex_pair c d with Some b => b :: buffer_from_hex cs | None => [] end
  | _ => []
  end.

(** [TypedArray.prototype.set(source, offset)]. *)
Definition array_set (out src : list byte) (offset : Z) : result (list byte) SdkError :=
  if offset + zlen src <=? zlen out then Ok (splice out offset src) else Err RangeError.

(** [items.map(f)] for an [f] that can throw. *)
Fixpoint map_ok {A B E} (f : A → result B E) (l : list A) : result (list B) E :=
  match l with
  | [] => Ok []
  | a :: l => let? b := f a in let? bs := map_ok f l in Ok (b :: bs)
  end.

(** A [bigint | number | string]; a number is the integer it is, if it is one. *)
Inductive quantity :=
| QString (s : list byte)
| QNumber (n : option Z)
| QBigInt (z : Z).

Definition is_safe_integer (z : Z) : bool := Z.abs z <=? 2 ^ 53 - 1.

(** ** util.ts *)
Definition bytesToHex (bytes : list byte) : list byte := bstr "0x" ++ hex_text false bytes.

Definition hexToBytes (value : list byte) : result (list byte) SdkError :=
  if negb (starts_with (bstr "0x") value) then Err HexPrefix
  else
    let hex := zdrop 2 value in
    if negb (zlen hex mod 2 =? 0) then Err HexOdd
    else Ok (buffer_from_hex hex).

Fixpoint set_chunks (output : list byte) (offset : Z) (chunks : list (list byte)) : result (list byte) SdkError :=
  match chunks with
  | [] => Ok output
  | chunk :: chunks =>
    let? output := array_set output chunk offset in
    set_chunks output (offset + zlen chunk) chunks
  end.
Definition concatBytes (chunks : list (list byte)) : result (list byte) SdkError :=
  let size := fold_left (λ sum chunk, sum + zlen chunk) chunks 0 in
  set_chunks (zreplicate size x00) 0 chunks.

Definition u32ToLeBytes (value : Z) : result (list byte) SdkError :=
  if (value <? 0) || (0xffffffff <? value) then Err U32Range else Ok (to_le_bytes 4 value).

Definition u64ToLeBytes (value : Z) : result (list byte) SdkError :=
  if (value <? 0) || (0xffffffffffffffff <? value) then Err U64Range else Ok (to_le_bytes 8 value).

Definition normalizeHex (value : list byte) : result (list byte) SdkError :=
  if negb (starts_with (bstr "0x") value) then Err HexPrefix
  else
    let digits := drop_while (λ c, bool_decide (c = x30)) (zdrop 2 value) in
    Ok (bstr "0x" ++ if is_empty digits then bstr "0" else toLowerCase digits).

(** The branches of [toHexQuantity] for a [bigint] and for the rest. *)
Definition bigint_to_hex (value : Z) : result (list byte) SdkError :=
  if value <? 0 then Err NegativeBigInt else Ok (bstr "0x" ++ to_radix 16 value).
Definition toHexQuantity (value : quantity) : result (list byte) SdkError :=
  match value with
  | QString s =>
    if starts_with (bstr "0x") s then normalizeHex s
    else let? z := BigInt s in bigint_to_hex z
  | QNumber (Some n) => if negb (is_safe_integer n) || (n <? 0) then Err NumberRange else Ok (bstr "0x" ++ to_radix 16 n)
  | QNumber None => Err NumberRange
  | QBigInt z => bigint_to_hex z
  end.

Definition hexToBigInt (value : list byte) : result Z SdkError :=
  let? h := normalizeHex value in BigInt h.

(** ** What they compute *)
(** Takes apart a computation that returned: its first part returned [x]. *)
Tactic Notation "ok_inv" hyp(H) "as" ident(x) ident(E) :=
  lazymatch type of H with
  | result_bind ?m _ = Ok _ => destruct m as [x|] eqn:E; cbn [result_bind] in H; [|discriminate H]
  end.

Lemma Ok_inj {A E} (a b : A) : Ok (E := E) a = Ok b → a = b.
Proof. congruence. Qed.

Lemma result_bind_Ok {A B E} (a : A) (k : A → result B E) : result_bind (Ok a) k = k a.
Proof. done. Qed.

Lemma map_ok_inv {A B E} (f : A → result B E) l bs :
  map_ok f l = Ok bs ↔ Forall2 (λ a b, f a = Ok b) l bs.
Proof.
  revert bs. induction l as [|a l IH]; intros bs; cbn [map_ok].
  - split; [intros [= <-]; constructor|by intros ->%Forall2_nil_inv_l].
  - split.
    + intros H. ok_inv H as b Eb. ok_inv H as bs' Ebs. injection H as <-. constructor; [done|]. by apply IH.
    + intros (b & bs' & Ha & Hl & ->)%Forall2_cons_inv_l. rewrite Ha, result_bind_Ok.
      by rewrite (proj2 (IH _) Hl).
Qed.

Lemma buffer_from_hex_text bs : buffer_from_hex (hex_text false bs) = bs.
Proof.
  induction bs as [|b bs IH]; [done|]. rewrite hex_text_cons. cbn [buffer_from_hex].
  by rewrite hex_pair_hex2, IH.
Qed.

Lemma starts_0x s : starts_with (bstr "0x") (bstr "0x" ++ s) = true.
Proof. done. Qed.

Lemma drop_0x {s : list byte} : zdrop 2 (bstr "0x" ++ s) = s.
Proof. done. Qed.

Lemma hexToBytes_bytesToHex bs : hexToBytes (bytesToHex bs) = Ok bs.
Proof.
  unfold hexToBytes, bytesToHex. rewrite starts_0x, drop_0x. cbn [negb]. cbv zeta. rewrite hex_text_length, Z.mul_comm, Z.mod_mul by lia. cbn. by rewrite buffer_from_hex_text.
Qed.

Lemma bytesToHex_inj a b : bytesToHex a = bytesToHex b → a = b.
Proof.
  intros E. pose proof (hexToBytes_bytesToHex a) as Ha. rewrite E, hexToBytes_bytesToHex in Ha. by injection Ha.
Qed.

Lemma fold_sum chunks : ∀ n, fold_left (λ sum chunk, sum + zlen chunk) chunks n = n + zlen (concat (A:=byte) chunks).
Proof.
  induction chunks as [|c cs IH]; intros n; cbn; [rewrite zlen_nil; lia|]. rewrite IH, zlen_app. lia.
Qed.

Lemma set_chunks_ok chunks : ∀ pre,
  set_chunks (pre ++ zreplicate (zlen (concat chunks)) x00) (zlen pre) chunks = Ok (pre ++ concat chunks).
Proof.
  induction chunks as [|c cs IH]; intros pre; cbn [set_chunks concat].
  - by rewrite zlen_nil.
  - unfold array_set. pose_zlen. rewrite (zlen_app c), zlen_app, (proj2 (Z.leb_le _ _)) by zlia. rewrite result_bind_Ok.
    assert (splice (pre ++ zreplicate (zlen c + zlen (concat cs)) x00) (zlen pre) c
      = (pre ++ c) ++ zreplicate (zlen (concat cs)) x00) as ->.
    { unfold splice. rewrite ztake_app_exact, zdrop_app_r, <- app_assoc by lia. do 2 f_equal.
      replace (zlen pre + zlen c - zlen pre) with (zlen c) by lia. unfold zdrop, zreplicate.
      rewrite drop_replicate. f_equal. lia. }
    rewrite <- zlen_app, IH. by rewrite app_assoc.
Qed.

(** The loop of [concatBytes] never throws and concatenates. *)
Lemma concatBytes_ok chunks : concatBytes chunks = Ok (concat chunks).
Proof. unfold concatBytes. rewrite fold_sum. exact (set_chunks_ok chunks []). Qed.

Lemma concatBytes_two a b : concatBytes [a; b] = Ok (a ++ b).
Proof. rewrite concatBytes_ok. cbn [concat]. by rewrite app_nil_r. Qed.

Lemma u32ToLeBytes_Ok n bs : u32ToLeBytes n = Ok bs ↔ 0 <= n < 2 ^ 32 ∧ bs = to_le_bytes 4 n.
Proof.
  unfold u32ToLeBytes. destruct (Z.ltb_spec n 0), (Z.ltb_spec 0xffffffff n); cbn [orb];
    (split; [first [done|intros [= <-]; split; [lia|done]]|intros [? ->]; first [done|lia]]).
Qed.

Lemma u64ToLeBytes_Ok n bs : u64ToLeBytes n = Ok bs ↔ 0 <= n < 2 ^ 64 ∧ bs = to_le_bytes 8 n.
Proof.
  unfold u64ToLeBytes. destruct (Z.ltb_spec n 0), (Z.ltb_spec 0xffffffffffffffff n); cbn [orb];
    (split; [first [done|intros [= <-]; split; [lia|done]]|intros [? ->]; first [done|lia]]).
Qed.

Lemma to_le_bytes_inj size a b :
  0 <= size → 0 <= a < 2 ^ (8 * size) → 0 <= b < 2 ^ (8 * size) → to_le_bytes size a = to_le_bytes size b → a = b.
Proof.
  intros Hs Ha Hb E. apply (f_equal u_from_le_bytes) in E. rewrite !u_from_to_le, !Z.mod_small in E by lia. done.
Qed.

(** A digit that is not hexadecimal ends the bytes, without an error. *)
Lemma hexToBytes_truncates : hexToBytes (bstr "0x11zz22") = Ok [x11].
Proof. reflexivity. Qed.

(** ** Quantities *)
Lemma drop_while_head f c s : f c = false → drop_while f (c :: s) = c :: s.
Proof. intros E. cbn. by rewrite E. Qed.

Lemma is_digit_not_space base c : is_digit base c = true → is_space c = false.
Proof. unfold is_digit. by destruct c. Qed.

Lemma trim_digits base pre ds :
  is_space (hd x00 pre) = false → pre ≠ [] → ds ≠ [] → forallb (is_digit base) ds = true → trim (pre ++ ds) = pre ++ ds.
Proof.
  intros Hp Hne Hd Hds. unfold trim. destruct pre as [|c pre]; [done|]. cbn [hd app] in *.
  rewrite drop_while_head by done. destruct (exists_last Hd) as (ds' & d & ->).
  rewrite app_comm_cons, app_assoc, reverse_snoc, drop_while_head, <- reverse_snoc, reverse_involutive; [done|].
  rewrite forallb_app in Hds. apply andb_prop in Hds as [_ Hds]. cbn in Hds. rewrite andb_true_r in Hds.
  by eapply is_digit_not_space.
Qed.

Lemma lower_digit d : 0 <= d < 16 → lower_char (hex_digit false d) = hex_digit false d.
Proof. apply (forall_below (λ d, lower_char (hex_digit false d) = hex_digit false d)). by repeat constructor. Qed.

Lemma lower_digits fuel n : toLowerCase (digits 16 fuel n) = digits 16 fuel n.
Proof.
  revert n. induction fuel as [|fuel IH]; intros n; [done|]. cbn [digits]. unfold toLowerCase.
  rewrite fmap_app. f_equal; [by destruct (_ <? _); [|apply IH]|]. cbn.
  by rewrite lower_digit by (apply Z.mod_pos_bound; lia).
Qed.

(** What [bigint_to_hex] writes [hexToBigInt] reads. *)
Lemma hexToBigInt_hex n s : bigint_to_hex n = Ok s → 0 <= n ∧ hexToBigInt s = Ok n.
Proof.
  unfold bigint_to_hex. destruct (Z.ltb_spec n 0) as [|Hn]; [done|]. intros Hs. split; [done|].
  assert (s = bstr "0x" ++ to_radix 16 n) as -> by congruence. clear Hs.
  unfold hexToBigInt, normalizeHex. rewrite starts_0x, drop_0x. cbn [negb].
  destruct (Z.eq_dec n 0) as [->|Hn0]; [done|].
  assert (∃ d ds, to_radix 16 n = d :: ds ∧ d ≠ x30) as (d & ds & E & Hd).
  { apply digits_head; [lia|]. split; [lia|]. rewrite Nat2Z.inj_succ, Z2Nat.id by apply Z.log2_nonneg.
    apply Z.log2_spec. lia. }
  assert (drop_while (λ c, bool_decide (c = x30)) (to_radix 16 n) = to_radix 16 n) as ->.
  { rewrite E. apply drop_while_head. by rewrite bool_decide_false. }
  assert (is_empty (to_radix 16 n) = false) as -> by (by rewrite E). rewrite result_bind_Ok.
  unfold to_radix at 1. rewrite lower_digits. fold (to_radix 16 n). unfold BigInt, string_to_bigint.
  assert (forallb (is_digit 16) (to_radix 16 n) = true) as Hds by (apply digits_ok; lia).
  rewrite (trim_digits 16) by (done || by rewrite E).
  change (is_empty (bstr "0x" ++ to_radix 16 n)) with false. rewrite starts_0x, drop_0x. cbn [orb].
  by rewrite parse_to_radix by lia.
Qed.

Lemma drop_while_app f l m : m ≠ [] → f (hd x00 m) = false → ∃ l', drop_while f (l ++ m) = l' ++ m.
Proof.
  intros Hm Hf. induction l as [|c l [l' IH]]; cbn.
  - exists []. destruct m; [done|]. by apply drop_while_head.
  - destruct (f c); [by exists l'|by exists (c :: l)].
Qed.

Lemma digit_value_nonneg c : 0 <= digit_value c.
Proof. unfold digit_value. destruct (hex_value c) as [d|] eqn:E; [|done]. revert E. unfold hex_value. pose proof (u8_to_Z_range c). repeat case_match; intros [= <-]; cbn; lia. Qed.

Lemma parse_radix_nonneg base ds n : 0 <= base → parse_radix base ds = Some n → 0 <= n.
Proof.
  unfold parse_radix. intros Hb. destruct (_ && _); [|done]. intros [= <-]. unfold radix_value.
  assert (∀ m, 0 <= m → 0 <= fold_left (λ n d, base * n + digit_value d) ds m) as H; [|by apply H].
  induction ds as [|d ds IH]; intros m Hm; [done|]. cbn [fold_left]. apply IH.
  pose proof (digit_value_nonneg d). pose proof (Z.mul_nonneg_nonneg base m). lia.
Qed.

(** A quantity of an RPC message is never negative. *)
Lemma hexToBigInt_nonneg s n : hexToBigInt s = Ok n → 0 <= n.
Proof.
  unfold hexToBigInt, normalizeHex. destruct (negb _); [done|]. rewrite result_bind_Ok.
  set (ds := if is_empty _ then _ else _). unfold BigInt, string_to_bigint, trim.
  change (drop_while is_space (bstr "0x" ++ ds)) with (bstr "0x" ++ ds). rewrite reverse_app.
  destruct (drop_while_app is_space (reverse ds) (reverse (bstr "0x"))) as [r ->]; [done..|].
  rewrite reverse_app, reverse_involutive. change (is_empty (bstr "0x" ++ reverse r)) with false.
  rewrite starts_0x. cbn [orb]. destruct (parse_radix _ _) eqn:E; [|done]. intros [= <-]. by eapply parse_radix_nonneg; [|done].
Qed.
