(* ===== verification/SdkAddress.v ===== *)
(** * SdkAddress: CKB addresses (src/sdk/src/address.ts)

    A lock script is written as a bech32m string: the payload (code hash, hash type and
    args) regrouped into 5-bit words, six checksum words, and a human-readable prefix for
    the network. *)

From S2P Require Import Prelude Machine Text SdkUtil.
Open Scope Z_scope.
Local Open Scope rust_scope.

(** ** types.ts *)

(** [data${number}] is [HashDataN]; its number is an integer. *)
Inductive ScriptHashType := HashData | HashType | HashDataN (version : Z).
Inductive Network := mainnet | testnet | devnet.
Record LockScript := { codeHash : list byte; hashType : ScriptHashType; script_args : list byte }.
Record DecodedCkbAddress := { decoded_network : Network; decoded_script : LockScript }.

#[export] Instance hash_type_eq_dec : EqDecision ScriptHashType.
Proof. solve_decision. Defined.
#[export] Instance network_eq_dec : EqDecision Network.
Proof. solve_decision. Defined.
#[export] Instance lock_script_eq_dec : EqDecision LockScript.
Proof. solve_decision. Defined.

(** ** address.ts *)
Definition CHARSET : list byte := bstr "qpzry9x8gf2tvdw0s3jn54khce6mua7l".
Definition BECH32M_CONST : Z := 0x2bc830a3.
Definition FULL_ADDRESS_TYPE : byte := x00.
Definition CODE_HASH_BYTES : Z := 32.

(** [CHARSET_MAP.get(char)]. *)
Definition charset_index (c : byte) : option Z := Z.of_nat ∘ fst <$> list_find (c =.) CHARSET.

(** [CHARSET[value]]; [join] writes nothing for an index out of range. *)
Definition charset_char (value : Z) : list byte :=
  match (if 0 <=? value then CHARSET !! Z.to_nat value else None) with Some c => [c] | None => [] end.

Definition hrpForNetwork (network : Network) : list byte :=
  match network with mainnet => bstr "ckb" | _ => bstr "ckt" end.

Definition networkForHrp (hrp : list byte) : result Network SdkError :=
  if bool_decide (hrp = bstr "ckb") then Ok mainnet
  else if bool_decide (hrp = bstr "ckt") then Ok testnet
  else Err UnsupportedPrefix.

Definition hashTypeToByte (hashType : ScriptHashType) : result Z SdkError :=
  match hashType with
  | HashData => Ok 0
  | HashType => Ok 1
  | HashDataN version =>
    if (version <? 1) || (127 <? version) then Err UnsupportedHashType else Ok (js_shl version 1)
  end.

Definition byteToHashType (value : Z) : result ScriptHashType SdkError :=
  if value =? 0 then Ok HashData
  else if value =? 1 then Ok HashType
  else if (1 <? value) && (value <=? 254) && (value mod 2 =? 0) then Ok (HashDataN (js_shr value 1))
  else Err UnsupportedHashTypeByte.

Definition generators : list Z := [0x3b6a57b2; 0x26508e6d; 0x1ea119fa; 0x3d4233dd; 0x2a1462b3].

(** The loop over [generators]. *)
Fixpoint mix_generators (gens : list Z) (index top checksum : Z) : Z :=
  match gens with
  | [] => checksum
  | g :: gens =>
    mix_generators gens (index + 1) top
      (if negb (js_and (js_shr top index) 1 =? 0) then js_xor checksum g else checksum)
  end.

Definition polymod_step (checksum value : Z) : Z :=
  let top := js_shr checksum 25 in
  let checksum := js_xor (js_shl (js_and checksum 0x1ffffff) 5) value in
  mix_generators generators 0 top checksum.

Definition polymod (values : list Z) : Z := js_uint32 (fold_left polymod_step values 1).

Definition hrpExpand (hrp : list byte) : list Z :=
  ((λ c, js_shr (u8_to_Z c) 5) <$> hrp) ++ [0] ++ ((λ c, js_and (u8_to_Z c) 31) <$> hrp).

Definition createChecksum (hrp : list byte) (data : list Z) : list Z :=
  let values := hrpExpand hrp ++ data ++ [0; 0; 0; 0; 0; 0] in
  let mod_ := js_xor (polymod values) BECH32M_CONST in
  (λ index, js_and (js_shr mod_ (5 * (5 - index))) 31) <$> seqZ 0 6.

Definition verifyChecksum (hrp : list byte) (data : list Z) : bool :=
  polymod (hrpExpand hrp ++ data) =? BECH32M_CONST.

(** The loop [while (bits >= toBits)], which takes [toBits] of the [bits] each round. *)
Fixpoint emit_words (fuel : nat) (toBits accumulator bits : Z) (words : list Z) : Z * list Z :=
  if toBits <=? bits then
    match fuel with
    | O => (bits, words)
    | S fuel =>
      let bits := bits - toBits in
      emit_words fuel toBits accumulator bits
        (words ++ [js_and (js_shr accumulator bits) (js_shl 1 toBits - 1)])
    end
  else (bits, words).

Fixpoint convert_loop (data : list Z) (fromBits toBits accumulator bits : Z) (words : list Z) :
    result (Z * Z * list Z) SdkError :=
  match data with
  | [] => Ok (accumulator, bits, words)
  | value :: data =>
    if (value <? 0) || negb (js_shr value fromBits =? 0) then Err InvalidBitValue
    else
      let accumulator := js_or (js_shl accumulator fromBits) value in
      let bits := bits + fromBits in
      let '(bits, words) := emit_words (Z.to_nat bits) toBits accumulator bits words in
      convert_loop data fromBits toBits accumulator bits words
  end.

Definition convertBits (data : list Z) (fromBits toBits : Z) (pad : bool) : result (list Z) SdkError :=
  let maxValue := js_shl 1 toBits - 1 in
  let? r := convert_loop data fromBits toBits 0 0 [] in
  let '(accumulator, bits, words) := r in
  if pad then
    if 0 <? bits then Ok (words ++ [js_and (js_shl accumulator (toBits - bits)) maxValue])
    else Ok words
  else if (fromBits <=? bits) || negb (js_and (js_shl accumulator (toBits - bits)) maxValue =? 0)
  then Err InvalidPadding
  else Ok words.

Definition encodeBech32m (hrp payload : list byte) : result (list byte) SdkError :=
  let? words := convertBits (u8_to_Z <$> payload) 8 5 true in
  let checksum := createChecksum hrp words in
  Ok (hrp ++ bstr "1" ++ concat (charset_char <$> (words ++ checksum))).

(** [s.lastIndexOf(c)], or -1. *)
Fixpoint last_index_from (c : byte) (s : list byte) (i found : Z) : Z :=
  match s with
  | [] => found
  | x :: s => last_index_from c s (i + 1) (if bool_decide (x = c) then i else found)
  end.
Definition lastIndexOf (s : list byte) (c : byte) : Z := last_index_from c s 0 (-1).

Definition char_value (c : byte) : result Z SdkError :=
  match charset_index c with Some v => Ok v | None => Err InvalidCharacter end.

Definition decodeBech32m (address : list byte) : result (list byte * list byte) SdkError :=
  let normalized := toLowerCase address in
  if bool_decide (normalized ≠ address) && bool_decide (toUpperCase normalized ≠ address) then Err MixedCase
  else
    let separator := lastIndexOf normalized x31 in
    if (separator <=? 0) || (zlen normalized <? separator + 7) then Err InvalidAddress
    else
      let hrp := ztake separator normalized in
      let dataPart := zdrop (separator + 1) normalized in
      let? data := map_ok char_value dataPart in
      if negb (verifyChecksum hrp data) then Err InvalidChecksum
      else
        let payloadWords := ztake (zlen data - 6) data in
        let? payload := convertBits payloadWords 5 8 false in
        Ok (hrp, u8_of_Z <$> payload).

Definition encodeCkbAddress (script : LockScript) (network : Network) : result (list byte) SdkError :=
  let? codeHash := hexToBytes (codeHash script) in
  if negb (zlen codeHash =? CODE_HASH_BYTES) then Err CodeHashLength
  else
    let? args := hexToBytes (script_args script) in
    let? hashType := hashTypeToByte (hashType script) in
    let? payload := concatBytes [[FULL_ADDRESS_TYPE]; codeHash; [u8_of_Z hashType]; args] in
    encodeBech32m (hrpForNetwork network) payload.

Definition decodeCkbAddress (address : list byte) : result DecodedCkbAddress SdkError :=
  let? r := decodeBech32m address in
  let '(hrp, payload) := r in
  if zlen payload <? 1 + CODE_HASH_BYTES + 1 then Err PayloadTooShort
  else if negb (bool_decide (payload !! 0%nat = Some FULL_ADDRESS_TYPE)) then Err NotFullFormat
  else
    let codeHash := zdrop 1 (ztake (1 + CODE_HASH_BYTES) payload) in
    let hashType := default 0 (u8_to_Z <$> payload !! Z.to_nat (1 + CODE_HASH_BYTES)) in
    let args := zdrop (1 + CODE_HASH_BYTES + 1) payload in
    let? network := networkForHrp hrp in
    let? hashType := byteToHashType hashType in
    Ok {| decoded_network := network;
          decoded_script := {| codeHash := bytesToHex codeHash; hashType := hashType;
                               script_args := bytesToHex args |} |}.

(** The script of the SDK's tests. *)
Example address_example :
  let script := {| codeHash := bytesToHex (zreplicate 32 x11); hashType := HashDataN 2;
                   script_args := bytesToHex (zreplicate 32 x22) |} in
  match encodeCkbAddress script testnet with
  | Ok a => zlen a = 116 ∧ decodeCkbAddress a = Ok {| decoded_network := testnet; decoded_script := script |}
  | Err _ => False
  end.
Proof. vm_compute. by split. Qed.
