(* ===== verification/SdkBits.v ===== *)
(** * SdkBits: the regrouping of bits and the checksum of bech32m

    What the 32-bit arithmetic of [convertBits] and [polymod] (SdkAddress.v) computes:
    regrouping keeps the number that the words spell, and the checksum is linear, so that a
    string has exactly one valid checksum and no single changed word goes unnoticed. *)

From S2P Require Import Prelude Machine Text SdkUtil SdkAddress.
Open Scope Z_scope.
Local Open Scope rust_scope.

(** ** 32-bit integers *)
Lemma int32_small z : 0 <= z < 2 ^ 31 → int32 z = z.
Proof. intros. apply wrap_signed_small; lia. Qed.

Lemma int32_mod k z : 0 <= k <= 32 → int32 z mod 2 ^ k = z mod 2 ^ k.
Proof.
  intros Hk. assert (∃ q, int32 z = z + q * 2 ^ 32) as [q ->].
  { unfold int32, wrap_signed. pose proof (Z.div_mod (z + 2 ^ (32 - 1)) (2 ^ 32) ltac:(lia)) as E.
    exists (- ((z + 2 ^ (32 - 1)) / 2 ^ 32)). lia. }
  replace 32 with ((32 - k) + k) by lia. rewrite Z.pow_add_r, Z.mul_assoc, Z.mod_add by lia. done.
Qed.

(** Bits that do not overlap add up. *)
Lemma lor_add a v k : 0 <= k → a mod 2 ^ k = 0 → 0 <= v < 2 ^ k → Z.lor a v = a + v.
Proof.
  intros Hk Ha Hv. assert (Z.land a v = 0) as Hl.
  { apply Z.bits_inj'. intros i Hi. rewrite Z.land_spec, Z.bits_0.
    destruct (Z.lt_ge_cases i k).
    - rewrite <- (Z.mod_pow2_bits_low a k) by lia. by rewrite Ha, Z.bits_0.
    - rewrite <- (Z.mod_small v (2 ^ k)), Z.mod_pow2_bits_high by lia. apply andb_false_r. }
  rewrite <- Z.lxor_lor by done. symmetry. by apply Z.add_nocarry_lxor.
Qed.

Lemma js_shl_mod a n k : 0 <= n → 0 <= k <= 32 → js_shl a n mod 2 ^ k = (a * 2 ^ n) mod 2 ^ k.
Proof.
  intros Hn Hk. unfold js_shl. rewrite int32_mod, Z.shiftl_mul_pow2 by lia.
  rewrite Z.mul_mod, int32_mod, <- Z.mul_mod by lia. done.
Qed.

(** [(a << n) | v]. *)
Lemma js_or_shl a n v k : 0 <= n <= 30 → 0 <= k <= 32 → 0 <= v < 2 ^ n →
  js_or (js_shl a n) v mod 2 ^ k = (a * 2 ^ n + v) mod 2 ^ k.
Proof.
  intros Hn Hk Hv. unfold js_or. assert (2 ^ n <= 2 ^ 30) by (apply Z.pow_le_mono_r; lia).
  rewrite (int32_small v) by lia. rewrite (lor_add _ v n); [|lia| |lia].
  - rewrite Z.add_mod, int32_mod, js_shl_mod, <- Z.add_mod by lia. done.
  - rewrite int32_mod, js_shl_mod by lia. apply Z.mod_mul. lia.
Qed.

Lemma js_mask n : 0 <= n <= 30 → js_shl 1 n - 1 = Z.ones n ∧ int32 (Z.ones n) = Z.ones n.
Proof.
  intros Hn. assert (0 < 2 ^ n <= 2 ^ 30) by (split; [lia|apply Z.pow_le_mono_r; lia]). unfold js_shl.
  rewrite (int32_small 1), Z.shiftl_mul_pow2, Z.mul_1_l, int32_small by lia.
  rewrite Z.ones_equiv. split; [lia|]. apply int32_small. lia.
Qed.

(** [(a >> n) & ((1 << w) - 1)] and [a & ((1 << w) - 1)]. *)
Lemma js_and_mask a w : 0 <= w <= 30 → js_and a (js_shl 1 w - 1) = a mod 2 ^ w.
Proof.
  intros Hw. destruct (js_mask w Hw) as [-> E]. unfold js_and. rewrite E, Z.land_ones by lia.
  apply int32_mod. lia.
Qed.

Lemma js_shr_mask a n w : 0 <= n → 0 <= w <= 30 → n + w <= 32 →
  js_and (js_shr a n) (js_shl 1 w - 1) = (a / 2 ^ n) mod 2 ^ w.
Proof.
  intros Hn Hw Hnw. rewrite js_and_mask by done. unfold js_shr. rewrite Z.shiftr_div_pow2 by done.
  assert (∀ z, (z / 2 ^ n) mod 2 ^ w = z mod 2 ^ (n + w) / 2 ^ n) as H.
  { intros z. rewrite Z.pow_add_r, Z.rem_mul_r, Z.mul_comm, Z.div_add by lia.
    rewrite (Z.div_small (z mod 2 ^ n)) by (apply Z.mod_pos_bound; lia). lia. }
  rewrite !H, int32_mod by lia. done.
Qed.

(** ** Numbers spelled by words *)
Definition spells (w : Z) (ws : list Z) : Z := fold_left (λ n d, n * 2 ^ w + d) ws 0.
Definition words_ok (w : Z) (ws : list Z) : Prop := Forall (λ d, 0 <= d < 2 ^ w) ws.

Lemma spells_snoc w ws d : spells w (ws ++ [d]) = spells w ws * 2 ^ w + d.
Proof. unfold spells. by rewrite fold_left_app. Qed.

Lemma spells_inj w xs ys :
  0 <= w → length xs = length ys → words_ok w xs → words_ok w ys → spells w xs = spells w ys → xs = ys.
Proof.
  intros Hw. revert ys. induction xs as [|x xs IH] using rev_ind; intros ys Hl Hx Hy E.
  - by destruct ys.
  - destruct ys as [|y ys _] using rev_ind; [rewrite length_app in Hl; cbn in Hl; lia|].
    rewrite !length_app in Hl. cbn in Hl. rewrite !spells_snoc in E.
    apply Forall_app in Hx as [Hx Hx1], Hy as [Hy Hy1].
    apply Forall_cons in Hx1 as [Hx1 _], Hy1 as [Hy1 _]. pose proof (Z.pow_pos_nonneg 2 w ltac:(lia) Hw).
    destruct (Z.div_mod_unique (2 ^ w) (spells w xs) (spells w ys) x y) as [Eq ->]; [by left|by left|by rewrite !(Z.mul_comm (2 ^ w))|].
    by rewrite (IH ys) by (done || lia).
Qed.

(** ** [convertBits] *)
Section convert.
Context (fromBits toBits : Z) (Hfrom : 1 <= fromBits <= 8) (Hto : 1 <= toBits <= 8).

(** The state of the loop after [data]: the words written and the low [bits] of the
    accumulator spell the same number as [data]. *)
Definition converted (data : list Z) (accumulator bits : Z) (words : list Z) : Prop :=
  0 <= bits ∧ fromBits * zlen data = toBits * zlen words + bits ∧ words_ok toBits words ∧
  spells fromBits data = spells toBits words * 2 ^ bits + accumulator mod 2 ^ bits.

Lemma emit_words_ok fuel data acc bits words :
  (Z.to_nat bits <= fuel)%nat → bits <= 16 → converted data acc bits words →
  ∃ bits' words', emit_words fuel toBits acc bits words = (bits', words') ∧ bits' < toBits ∧
    converted data acc bits' words'.
Proof.
  revert bits words. induction fuel as [|fuel IH]; intros bits words Hf H16 (Hb & Hl & Hw & E); cbn [emit_words].
  - rewrite (proj2 (Z.leb_gt _ _)) by lia. exists bits, words. by repeat split; [lia|..].
  - destruct (Z.leb_spec toBits bits) as [Hle|]; [|exists bits, words; by repeat split].
    rewrite js_shr_mask by lia. apply IH; [lia|lia|]. split; [lia|]. split; [zlia|].
    split.
    + apply Forall_app. split; [done|]. apply Forall_singleton. apply Z.mod_pos_bound. lia.
    + rewrite spells_snoc, E. replace bits with ((bits - toBits) + toBits) at 1 2 by lia.
      rewrite Z.pow_add_r, Z.rem_mul_r by lia. nia.
Qed.

Lemma convert_loop_ok todo : ∀ data acc bits words,
  words_ok fromBits todo → bits < toBits → converted data acc bits words →
  ∃ acc' bits' words', convert_loop todo fromBits toBits acc bits words = Ok (acc', bits', words') ∧
    bits' < toBits ∧ converted (data ++ todo) acc' bits' words'.
Proof.
  induction todo as [|v todo IH]; intros data acc bits words Hok Hb Hc; cbn [convert_loop].
  - rewrite app_nil_r. by exists acc, bits, words.
  - apply Forall_cons in Hok as [Hv Hok]. assert (2 ^ fromBits <= 2 ^ 8) by (apply Z.pow_le_mono_r; lia).
    rewrite (proj2 (Z.ltb_ge v 0)) by lia. cbn [orb].
    assert (js_shr v fromBits = 0) as ->.
    { unfold js_shr. rewrite int32_small, Z.shiftr_div_pow2 by lia. by apply Z.div_small. }
    cbn [Z.eqb negb]. destruct Hc as (Hb0 & Hl & Hw & E).
    destruct (emit_words_ok (Z.to_nat (bits + fromBits)) (data ++ [v]) (js_or (js_shl acc fromBits) v)
      (bits + fromBits) words) as (bits' & words' & -> & Hlt & Hc'); [lia|lia| |].
    { split; [lia|]. split; [zlia|]. split; [done|].
      rewrite spells_snoc, E, js_or_shl by lia. rewrite (Z.add_comm bits), Z.pow_add_r by lia.
      rewrite (Z.rem_mul_r _ (2 ^ fromBits)) by lia.
      rewrite (Z.add_comm (acc * _)), Z.mod_add, Z.div_add, (Z.mod_small v), (Z.div_small v) by lia.
      rewrite Z.add_0_l. lia. }
    destruct (IH (data ++ [v]) (js_or (js_shl acc fromBits) v) bits' words' Hok Hlt Hc') as (a & b & w & -> & Ha & Hc3).
    exists a, b, w. by rewrite <- app_assoc in Hc3.
Qed.

(** [words] is [data] regrouped, with [p] zero bits at the end. *)
Definition regrouped (data words : list Z) (p : Z) : Prop :=
  words_ok toBits words ∧ toBits * zlen words = fromBits * zlen data + p ∧
  spells toBits words = spells fromBits data * 2 ^ p.

Lemma convertBits_pad data :
  words_ok fromBits data → ∃ words p, convertBits data fromBits toBits true = Ok words ∧
    0 <= p < toBits ∧ regrouped data words p.
Proof.
  intros Hd. unfold convertBits.
  destruct (convert_loop_ok data [] 0 0 [] Hd ltac:(lia)) as (acc & bits & words & -> & Hlt & Hb0 & Hl & Hw & E).
  { repeat split; [lia|zlia|constructor]. }
  rewrite result_bind_Ok. cbn [app] in *. destruct (Z.ltb_spec 0 bits) as [Hb|Hb].
  - rewrite js_and_mask, js_shl_mod by lia. exists (words ++ [(acc * 2 ^ (toBits - bits)) mod 2 ^ toBits]), (toBits - bits).
    split; [done|]. split; [lia|]. split; [|split].
    + apply Forall_app. split; [done|]. apply Forall_singleton, Z.mod_pos_bound. lia.
    + zlia.
    + rewrite spells_snoc, E. replace (2 ^ toBits) with (2 ^ bits * 2 ^ (toBits - bits)) by (rewrite <- Z.pow_add_r by lia; f_equal; lia).
      rewrite Z.mul_mod_distr_r by lia. lia.
  - assert (bits = 0) as -> by lia. exists words, 0. split; [done|]. split; [lia|]. split; [done|].
    split; [lia|]. rewrite E, Z.mod_1_r. lia.
Qed.

Lemma convertBits_pad_iff data words :
  words_ok fromBits data →
  convertBits data fromBits toBits true = Ok words ↔ ∃ p, 0 <= p < toBits ∧ regrouped data words p.
Proof.
  intros Hd. destruct (convertBits_pad data Hd) as (words' & p' & E' & Hp' & Hw' & Hl' & Hs'). split.
  - intros E. assert (words' = words) as -> by congruence. by exists p'.
  - intros (p & Hp & Hw & Hl & Hs). rewrite E'. f_equal.
    assert (zlen words' = zlen words) as Hz by nia. assert (p' = p) as -> by nia.
    apply (spells_inj toBits); [lia|unfold zlen in Hz; lia|done|done|congruence].
Qed.

(** Without padding: what is left over must be fewer bits than a word, all zero. *)
Lemma convertBits_exact data words :
  fromBits <= toBits → words_ok fromBits data →
  convertBits data fromBits toBits false = Ok words ↔
  ∃ p, 0 <= p < fromBits ∧ words_ok toBits words ∧ fromBits * zlen data = toBits * zlen words + p ∧
       spells fromBits data = spells toBits words * 2 ^ p.
Proof.
  intros Hle Hd. unfold convertBits.
  destruct (convert_loop_ok data [] 0 0 [] Hd ltac:(lia)) as (acc & bits & ws & -> & Hlt & Hb0 & Hl & Hw & E).
  { repeat split; [lia|zlia|constructor]. }
  rewrite result_bind_Ok. cbn [app] in *. rewrite js_and_mask, js_shl_mod by lia.
  replace (2 ^ toBits) with (2 ^ bits * 2 ^ (toBits - bits)) by (rewrite <- Z.pow_add_r by lia; f_equal; lia).
  rewrite Z.mul_mod_distr_r by lia. pose proof (Z.pow_pos_nonneg 2 (toBits - bits) ltac:(lia) ltac:(lia)).
  pose proof (Z.mod_pos_bound acc (2 ^ bits) ltac:(lia)) as Hr. split.
  - destruct (Z.leb_spec fromBits bits); [done|]. cbn [orb]. destruct (Z.eqb_spec (acc mod 2 ^ bits * 2 ^ (toBits - bits)) 0) as [Hz|]; [|done].
    intros [= <-]. exists bits. split; [lia|]. split; [done|]. split; [lia|]. nia.
  - intros (p & Hp & Hw' & Hl' & Hs'). assert (zlen words = zlen ws) as Hz by nia. assert (bits = p) as -> by nia.
    destruct (Z.div_mod_unique (2 ^ p) (spells toBits ws) (spells toBits words) (acc mod 2 ^ p) 0) as [Eq Er];
      [by left|left; lia|lia|]. rewrite Er, (proj2 (Z.leb_gt _ _)) by lia. cbn. f_equal.
    by apply (spells_inj toBits); [lia|unfold zlen in Hz; lia|..].
Qed.
End convert.

(** The two directions of the address codec are inverse to each other. *)
Lemma convertBits_inverse bytes words :
  words_ok 8 bytes → words_ok 5 words →
  convertBits bytes 8 5 true = Ok words ↔ convertBits words 5 8 false = Ok bytes.
Proof.
  intros Hb Hw. rewrite (convertBits_pad_iff 8 5), (convertBits_exact 5 8) by (lia || done).
  unfold regrouped. naive_solver.
Qed.

Lemma words_ok_bytes bs : words_ok 8 (u8_to_Z <$> bs).
Proof. apply Forall_fmap, Forall_true. intros b. apply u8_to_Z_range. Qed.

Lemma words_ok_convert bytes words : words_ok 8 bytes → convertBits bytes 8 5 true = Ok words → words_ok 5 words.
Proof. intros Hb. rewrite (convertBits_pad_iff 8 5) by (lia || done). by intros (p & _ & H & _). Qed.

Lemma convert_words_ok words bytes : words_ok 5 words → convertBits words 5 8 false = Ok bytes → words_ok 8 bytes.
Proof. intros Hb. rewrite (convertBits_exact 5 8) by (lia || done). by intros (p & _ & H & _). Qed.

(** ** The checksum *)
Lemma lxor_range n a b : 0 <= n → 0 <= a < 2 ^ n → 0 <= b < 2 ^ n → 0 <= Z.lxor a b < 2 ^ n.
Proof.
  intros Hn Ha Hb. assert (Z.lxor a b mod 2 ^ n = Z.lxor a b) as <-; [|apply Z.mod_pos_bound; lia].
  apply Z.bits_inj'. intros i Hi. destruct (Z.lt_ge_cases i n).
  - by rewrite Z.mod_pow2_bits_low.
  - rewrite Z.mod_pow2_bits_high, Z.lxor_spec by lia.
    by rewrite <- (Z.mod_small a (2 ^ n)), <- (Z.mod_small b (2 ^ n)), !Z.mod_pow2_bits_high by lia.
Qed.

Lemma js_xor_small a b : 0 <= a < 2 ^ 31 → 0 <= b < 2 ^ 31 → js_xor a b = Z.lxor a b.
Proof. intros. unfold js_xor. by rewrite !int32_small. Qed.

(** The low and the high bits of a sum of disjoint bits, under [lxor]. *)
Lemma lxor_pieces k a b c d : 0 <= k → 0 <= b < 2 ^ k → 0 <= d < 2 ^ k →
  Z.lxor (a * 2 ^ k + b) (c * 2 ^ k + d) = Z.lxor a c * 2 ^ k + Z.lxor b d.
Proof.
  intros Hk Hb Hd. pose proof (lxor_range k b d Hk Hb Hd) as Hx.
  assert (∀ x y, 0 <= y < 2 ^ k → x * 2 ^ k + y = Z.lor (Z.shiftl x k) y) as E.
  { intros x y Hy. rewrite Z.shiftl_mul_pow2 by done. rewrite (lor_add _ y k); [done|done|apply Z.mod_mul; lia|done]. }
  rewrite !E by done. apply Z.bits_inj'. intros i Hi.
  rewrite Z.lxor_spec, !Z.lor_spec, Z.lxor_spec, !Z.shiftl_spec, Z.lxor_spec by done.
  destruct (Z.lt_ge_cases i k).
  - rewrite !(Z.testbit_neg_r _ (i - k)) by lia. done.
  - rewrite <- (Z.mod_small b (2 ^ k)), <- (Z.mod_small d (2 ^ k)), !Z.mod_pow2_bits_high by lia.
    by rewrite !orb_false_r.
Qed.

Lemma mix_linear top gens : ∀ index c,
  0 <= c < 2 ^ 30 → Forall (λ g, 0 <= g < 2 ^ 30) gens →
  mix_generators gens index top c = Z.lxor c (mix_generators gens index top 0) ∧
  0 <= mix_generators gens index top c < 2 ^ 30.
Proof.
  induction gens as [|g gens IH]; intros index c Hc Hg; cbn [mix_generators].
  - by rewrite Z.lxor_0_r.
  - apply Forall_cons in Hg as [Hg Hgs]. destruct (negb _).
    + rewrite !js_xor_small by lia. pose proof (lxor_range 30 c g ltac:(lia) Hc Hg).
      pose proof (lxor_range 30 0 g ltac:(lia) ltac:(lia) Hg).
      destruct (IH (index + 1) (Z.lxor c g)) as [E Hr]; [done|done|]. split; [|done].
      destruct (IH (index + 1) (Z.lxor 0 g)) as [E0 _]; [done|done|].
      rewrite E, E0, Z.lxor_0_l. apply Z.lxor_assoc.
    + by apply IH.
Qed.

(** What the top five bits contribute. *)
Definition mixed (top : Z) : Z := mix_generators generators 0 top 0.

Lemma mixed_range top : 0 <= mixed top < 2 ^ 30.
Proof. apply mix_linear; [lia|]. by repeat constructor. Qed.

Lemma mixed_low top top' : 0 <= top < 32 → 0 <= top' < 32 → mixed top mod 32 = mixed top' mod 32 → top = top'.
Proof.
  intros Ht Ht'. assert (∀ t, 0 <= t < 32 → ∃ i, seqZ 0 32 !! i = Some t) as H.
  { intros t Hlt. exists (Z.to_nat t). apply lookup_seqZ. lia. }
  destruct (H _ Ht) as [i Hi], (H _ Ht') as [j Hj]. intros E.
  assert (NoDup ((λ t, mixed t mod 32) <$> seqZ 0 32)) as Hnd by (apply (bool_decide_unpack _); by vm_compute).
  assert (i = j) as ->.
  { eapply (NoDup_lookup _ i j _ Hnd); rewrite list_lookup_fmap; [by rewrite Hi|]. rewrite Hj. exact (f_equal Some (eq_sym E)). }
  congruence.
Qed.

Lemma step_ok c v : 0 <= c < 2 ^ 30 → 0 <= v < 32 →
  polymod_step c v = Z.lxor ((c mod 2 ^ 25) * 2 ^ 5 + v) (mixed (c / 2 ^ 25)) ∧ 0 <= polymod_step c v < 2 ^ 30.
Proof.
  intros Hc Hv. unfold polymod_step. cbv zeta.
  assert (js_shr c 25 = c / 2 ^ 25) as -> by (unfold js_shr; rewrite int32_small, Z.shiftr_div_pow2 by lia; done).
  assert (js_and c 0x1ffffff = c mod 2 ^ 25) as ->.
  { change 0x1ffffff with (js_shl 1 25 - 1). apply js_and_mask. lia. }
  pose proof (Z.mod_pos_bound c (2 ^ 25) ltac:(lia)) as Hm. set (a := c mod 2 ^ 25) in *.
  assert (js_shl a 5 = a * 2 ^ 5) as ->.
  { unfold js_shl. rewrite (int32_small a), Z.shiftl_mul_pow2, int32_small by lia. done. }
  rewrite js_xor_small by lia.
  assert (Z.lxor (a * 2 ^ 5) v = a * 2 ^ 5 + v) as ->.
  { pose proof (lxor_pieces 5 a 0 0 v ltac:(lia) ltac:(lia) ltac:(lia)) as E.
    rewrite Z.add_0_r, Z.mul_0_l, Z.add_0_l, Z.lxor_0_r, Z.lxor_0_l in E. done. }
  apply mix_linear; [lia|]. by repeat constructor.
Qed.

(** A difference below the top five bits moves up unchanged. *)
Lemma step_shift c d v : 0 <= c < 2 ^ 30 → 0 <= d < 2 ^ 25 → 0 <= v < 32 →
  polymod_step (Z.lxor c d) v = Z.lxor (polymod_step c 0) (d * 2 ^ 5 + v).
Proof.
  intros Hc Hd Hv. pose proof (Z.mod_pos_bound c (2 ^ 25) ltac:(lia)) as Hm.
  assert (Z.lxor c d = (c / 2 ^ 25) * 2 ^ 25 + Z.lxor (c mod 2 ^ 25) d) as E.
  { pose proof (lxor_pieces 25 (c / 2 ^ 25) (c mod 2 ^ 25) 0 d ltac:(lia) Hm Hd) as E.
    rewrite Z.lxor_0_r, Z.mul_0_l, Z.add_0_l in E. rewrite <- E. f_equal.
    rewrite (Z.div_mod c (2 ^ 25)) at 1 by lia. lia. }
  pose proof (lxor_range 25 _ d ltac:(lia) Hm Hd) as Hx. pose proof (lxor_range 30 c d ltac:(lia) Hc ltac:(lia)) as Hx'.
  rewrite (proj1 (step_ok _ v Hx' Hv)), (proj1 (step_ok c 0 Hc ltac:(lia))), Z.add_0_r.
  assert (Z.lxor c d mod 2 ^ 25 = Z.lxor (c mod 2 ^ 25) d ∧ Z.lxor c d / 2 ^ 25 = c / 2 ^ 25) as [-> ->].
  { rewrite E, (Z.add_comm (_ * _)), Z.mod_add, Z.div_add, Z.mod_small, (Z.div_small (Z.lxor _ _)) by lia. done. }
  pose proof (lxor_pieces 5 (c mod 2 ^ 25) 0 d v ltac:(lia) ltac:(lia) ltac:(lia)) as Ev.
  rewrite Z.add_0_r, Z.lxor_0_l in Ev. rewrite <- Ev, !Z.lxor_assoc. f_equal. apply Z.lxor_comm.
Qed.

Lemma steps_range ws : ∀ c, 0 <= c < 2 ^ 30 → words_ok 5 ws → 0 <= fold_left polymod_step ws c < 2 ^ 30.
Proof.
  induction ws as [|w ws IH]; intros c Hc Hw; [done|]. apply Forall_cons in Hw as [Hw Hws]. cbn.
  apply IH; [|done]. by apply step_ok.
Qed.

(** Up to six words only add what they spell. *)
Lemma steps_linear ws : ∀ c d,
  (length ws <= 6)%nat → 0 <= c < 2 ^ 30 → 0 <= d < 2 ^ (5 * (6 - zlen ws)) → words_ok 5 ws →
  fold_left polymod_step ws (Z.lxor c d) =
  Z.lxor (fold_left polymod_step (replicate (length ws) 0) c) (fold_left (λ n w, n * 2 ^ 5 + w) ws d).
Proof.
  induction ws as [|w ws IH]; intros c d Hl Hc Hd Hw; [done|].
  apply Forall_cons in Hw as [Hw Hws]. rewrite zlen_cons in Hd. cbn [length] in Hl.
  assert (2 ^ (5 * (6 - (1 + zlen ws))) <= 2 ^ 25) by (apply Z.pow_le_mono_r; pose_zlen; lia).
  cbn [fold_left length replicate]. rewrite step_shift by lia. apply IH; [lia| |split|done].
  - apply step_ok; lia.
  - lia.
  - replace (5 * (6 - zlen ws)) with (5 * (6 - (1 + zlen ws)) + 5) by lia.
    rewrite Z.pow_add_r by (unfold zlen; lia). lia.
Qed.

Lemma polymod_small ws : words_ok 5 ws → polymod ws = fold_left polymod_step ws 1 ∧ 0 <= polymod ws < 2 ^ 30.
Proof.
  intros Hw. pose proof (steps_range ws 1 ltac:(lia) Hw) as H. unfold polymod, js_uint32.
  rewrite wrap_unsigned_small by lia. done.
Qed.

(** Six words after [ws] change the checksum by what they spell. *)
Lemma polymod_app ws cs : words_ok 5 ws → words_ok 5 cs → length cs = 6%nat →
  polymod (ws ++ cs) = Z.lxor (polymod (ws ++ replicate 6 0)) (spells 5 cs).
Proof.
  intros Hw Hc Hl. rewrite (proj1 (polymod_small (ws ++ cs) (Forall_app_2 _ _ _ Hw Hc))).
  rewrite (proj1 (polymod_small (ws ++ replicate 6 0) ltac:(apply Forall_app_2; [done|by repeat constructor]))).
  rewrite !fold_left_app. rewrite <- (Z.lxor_0_r (fold_left polymod_step ws 1)) at 1.
  rewrite steps_linear; [by rewrite Hl|lia|by apply steps_range| |done]. unfold zlen. rewrite Hl. cbn. lia.
Qed.

(** Reading the same words from different states leads to different states. *)
Lemma step_inj c c' v : 0 <= c < 2 ^ 30 → 0 <= c' < 2 ^ 30 → 0 <= v < 32 →
  polymod_step c v = polymod_step c' v → c = c'.
Proof.
  intros Hc Hc' Hv. rewrite (proj1 (step_ok c v Hc Hv)), (proj1 (step_ok c' v Hc' Hv)).
  pose proof (Z.mod_pos_bound c (2 ^ 25) ltac:(lia)). pose proof (Z.mod_pos_bound c' (2 ^ 25) ltac:(lia)).
  set (a := c mod 2 ^ 25) in *. set (a' := c' mod 2 ^ 25) in *. intros E.
  assert (c / 2 ^ 25 = c' / 2 ^ 25) as Et.
  { assert (∀ x y, 0 <= x < 2 ^ 25 → Z.lxor (x * 2 ^ 5 + v) y mod 2 ^ 5 = Z.lxor v (y mod 2 ^ 5)) as Hlow.
    { intros x y Hx. pose proof (Z.mod_pos_bound y (2 ^ 5) ltac:(lia)).
      rewrite (Z.div_mod y (2 ^ 5)) at 1 by lia. rewrite (Z.mul_comm (2 ^ 5)), lxor_pieces by lia.
      rewrite Z.add_comm, Z.mod_add by lia. apply Z.mod_small, lxor_range; lia. }
    apply (f_equal (λ z, z mod 2 ^ 5)) in E. rewrite !Hlow in E by done.
    apply (f_equal (Z.lxor v)) in E. rewrite <- !Z.lxor_assoc, Z.lxor_nilpotent, !Z.lxor_0_l in E.
    apply mixed_low; [..|done]; (split; [apply Z.div_pos; lia|apply Z.div_lt_upper_bound; lia]). }
  rewrite Et in E. apply (f_equal (λ z, Z.lxor z (mixed (c' / 2 ^ 25)))) in E.
  rewrite !Z.lxor_assoc, Z.lxor_nilpotent, !Z.lxor_0_r in E.
  rewrite (Z.div_mod c (2 ^ 25)), (Z.div_mod c' (2 ^ 25)) by lia. fold a a'. lia.
Qed.

Lemma steps_inj ws : ∀ c c', 0 <= c < 2 ^ 30 → 0 <= c' < 2 ^ 30 → words_ok 5 ws →
  fold_left polymod_step ws c = fold_left polymod_step ws c' → c = c'.
Proof.
  induction ws as [|w ws IH]; intros c c' Hc Hc' Hw E; [done|]. apply Forall_cons in Hw as [Hw Hws].
  apply (step_inj c c' w); [done..|]. apply IH; [by apply step_ok|by apply step_ok|done|done].
Qed.

(** A single changed word changes the checksum. *)
Lemma polymod_single pre v v' post : words_ok 5 (pre ++ v :: post) → words_ok 5 (pre ++ v' :: post) →
  polymod (pre ++ v :: post) = polymod (pre ++ v' :: post) → v = v'.
Proof.
  intros Hw Hw'. rewrite (proj1 (polymod_small _ Hw)), (proj1 (polymod_small _ Hw')).
  apply Forall_app in Hw as [Hpre Hw], Hw' as [_ Hw']. apply Forall_cons in Hw as [Hv Hpost], Hw' as [Hv' _].
  rewrite !fold_left_app. cbn [fold_left]. pose proof (steps_range pre 1 ltac:(lia) Hpre) as Hc.
  set (c := fold_left polymod_step pre 1) in *. intros E.
  apply steps_inj in E; [|by apply step_ok|by apply step_ok|done].
  rewrite (proj1 (step_ok c v Hc Hv)), (proj1 (step_ok c v' Hc Hv')) in E.
  apply (f_equal (λ z, Z.lxor z (mixed (c / 2 ^ 25)))) in E.
  rewrite !Z.lxor_assoc, Z.lxor_nilpotent, !Z.lxor_0_r in E. lia.
Qed.

Lemma hrpExpand_ok hrp : words_ok 5 (hrpExpand hrp).
Proof.
  assert (∀ f : byte → Z, (∀ c, (0 <=? f c) && (f c <? 2 ^ 5) = true) → words_ok 5 (f <$> hrp)) as H.
  { intros f Hf. apply Forall_fmap, Forall_true. intros c. cbn. specialize (Hf c). lia. }
  unfold hrpExpand. apply Forall_app_2; [|apply Forall_app_2; [by repeat constructor|]]; apply H; intros c; destruct c; reflexivity.
Qed.

Lemma checksum_words m : 0 <= m < 2 ^ 30 →
  let cs := (λ index, js_and (js_shr m (5 * (5 - index))) 31) <$> seqZ 0 6 in
  words_ok 5 cs ∧ length cs = 6%nat ∧ spells 5 cs = m.
Proof.
  intros Hm. change 31 with (js_shl 1 5 - 1).
  change (seqZ 0 6) with [0; 1; 2; 3; 4; 5]. cbn [fmap list_fmap]. rewrite !js_shr_mask by lia.
  set (w := λ k, m / 2 ^ (5 * k)). assert (∀ k, 0 <= k → w k = w (k + 1) * 2 ^ 5 + w k mod 2 ^ 5) as Hk.
  { intros k Hk. unfold w. replace (5 * (k + 1)) with (5 * k + 5) by lia.
    rewrite Z.pow_add_r, <- Z.div_div by lia. rewrite (Z.div_mod (m / 2 ^ (5 * k)) (2 ^ 5)) at 1 by lia. lia. }
  assert (w 6 = 0) as H6 by (apply Z.div_small; exact Hm). assert (w 0 = m) as H0 by (unfold w; cbn; apply Z.div_1_r).
  pose proof (Hk 0 ltac:(lia) : w 0 = w 1 * 2 ^ 5 + _). pose proof (Hk 1 ltac:(lia) : w 1 = w 2 * 2 ^ 5 + _).
  pose proof (Hk 2 ltac:(lia) : w 2 = w 3 * 2 ^ 5 + _). pose proof (Hk 3 ltac:(lia) : w 3 = w 4 * 2 ^ 5 + _).
  pose proof (Hk 4 ltac:(lia) : w 4 = w 5 * 2 ^ 5 + _). pose proof (Hk 5 ltac:(lia) : w 5 = w 6 * 2 ^ 5 + _).
  split; [|split; [done|]].
  - repeat constructor; apply Z.mod_pos_bound; lia.
  - change ((((((0 * 2 ^ 5 + w 5 mod 2 ^ 5) * 2 ^ 5 + w 4 mod 2 ^ 5) * 2 ^ 5 + w 3 mod 2 ^ 5) * 2 ^ 5
      + w 2 mod 2 ^ 5) * 2 ^ 5 + w 1 mod 2 ^ 5) * 2 ^ 5 + w 0 mod 2 ^ 5 = m). lia.
Qed.

(** Exactly one checksum makes a string valid. *)
Lemma verifyChecksum_iff hrp ws cs : words_ok 5 ws → words_ok 5 cs → length cs = 6%nat →
  verifyChecksum hrp (ws ++ cs) = true ↔ cs = createChecksum hrp ws.
Proof.
  intros Hw Hc Hl. unfold verifyChecksum, createChecksum. pose proof (hrpExpand_ok hrp) as Hh.
  rewrite Z.eqb_eq, !app_assoc. change [0; 0; 0; 0; 0; 0] with (replicate 6 0).
  rewrite polymod_app by (done || by apply Forall_app_2).
  assert (words_ok 5 ((hrpExpand hrp ++ ws) ++ replicate 6 0)) as Hz
    by (apply Forall_app_2; [by apply Forall_app_2|by repeat constructor]).
  pose proof (proj2 (polymod_small _ Hz)) as Hp. set (p := polymod _) in *.
  assert (0 <= BECH32M_CONST < 2 ^ 30) as HC by done. rewrite js_xor_small by lia.
  pose proof (lxor_range 30 p BECH32M_CONST ltac:(lia) Hp HC) as Hm.
  destruct (checksum_words _ Hm) as (Hok & Hlen & Hs). split.
  - intros E. apply (spells_inj 5); [lia|by rewrite Hlen|done|done|]. rewrite Hs, <- E.
    by rewrite <- Z.lxor_assoc, Z.lxor_nilpotent, Z.lxor_0_l.
  - intros ->. rewrite Hs. by rewrite <- Z.lxor_assoc, Z.lxor_nilpotent, Z.lxor_0_l.
Qed.

Lemma createChecksum_ok hrp ws : words_ok 5 ws →
  words_ok 5 (createChecksum hrp ws) ∧ length (createChecksum hrp ws) = 6%nat.
Proof.
  intros Hw. assert (words_ok 5 (hrpExpand hrp ++ ws ++ replicate 6 0)) as Hz
    by (apply Forall_app_2; [apply hrpExpand_ok|apply Forall_app_2; [done|by repeat constructor]]).
  pose proof (proj2 (polymod_small _ Hz)) as Hp. assert (0 <= BECH32M_CONST < 2 ^ 30) as HC by done.
  unfold createChecksum. change [0; 0; 0; 0; 0; 0] with (replicate 6 0). rewrite js_xor_small by lia.
  destruct (checksum_words _ (lxor_range 30 _ _ ltac:(lia) Hp HC)) as (H1 & H2 & _). done.
Qed.
