(* ===== verification/SdkAddressProps.v ===== *)
(** * SdkAddressProps: addresses decode to what was encoded, and to nothing else

    The decoder of SdkAddress.v accepts exactly the strings the encoder writes, in lower or
    in upper case, and no change of a single character of an address is accepted. *)

From S2P Require Import Prelude Machine Text SdkUtil SdkAddress SdkBits.
Open Scope Z_scope.
Local Open Scope rust_scope.

(** ** Characters *)
Definition charset_at (v : Z) : byte := default x00 (CHARSET !! Z.to_nat v).
Definition value_of (c : byte) : Z := default 0 (charset_index c).
Definition spelled (ws : list Z) : list byte := charset_at <$> ws.

Lemma charset_ok v : 0 <= v < 32 →
  charset_char v = [charset_at v] ∧ charset_index (charset_at v) = Some v ∧ charset_at v ≠ x31 ∧
  lower_char (charset_at v) = charset_at v.
Proof.
  apply (forall_below (λ v, charset_char v = [charset_at v] ∧ charset_index (charset_at v) = Some v ∧
    charset_at v ≠ x31 ∧ lower_char (charset_at v) = charset_at v)).
  apply (bool_decide_unpack _). by vm_compute.
Qed.

Lemma charset_index_inv c v : charset_index c = Some v → 0 <= v < 32 ∧ c = charset_at v.
Proof. destruct c; vm_compute; intros [= <-]; by split. Qed.

Lemma spelled_concat ws : words_ok 5 ws → concat (charset_char <$> ws) = spelled ws.
Proof.
  induction 1 as [|v ws Hv _ IH]; [done|]. cbn. fold (spelled ws).
  by rewrite (proj1 (charset_ok v Hv)), IH.
Qed.

Lemma spelled_values ws : words_ok 5 ws → value_of <$> spelled ws = ws.
Proof.
  induction 1 as [|v ws Hv _ IH]; [done|].
  change (value_of (charset_at v) :: (value_of <$> spelled ws) = v :: ws). rewrite IH. f_equal.
  unfold value_of. by rewrite (proj1 (proj2 (charset_ok v Hv))).
Qed.

Lemma map_char_value s ws : map_ok char_value s = Ok ws ↔ words_ok 5 ws ∧ s = spelled ws.
Proof.
  rewrite map_ok_inv. split.
  - induction 1 as [|c v s ws Hc _ IH]; [by split; [constructor|]|]. destruct IH as [Hw ->].
    unfold char_value in Hc. destruct (charset_index c) as [v'|] eqn:E; [|done].
    assert (v' = v) as -> by congruence. apply charset_index_inv in E as [Hv ->]. by split; [constructor|].
  - intros [Hw ->]. induction Hw as [|v ws Hv _ IH]; [constructor|]. constructor; [|done].
    unfold char_value. by rewrite (proj1 (proj2 (charset_ok v Hv))).
Qed.

Lemma spelled_plain ws : words_ok 5 ws → (x31 ∉ spelled ws) ∧ toLowerCase (spelled ws) = spelled ws.
Proof.
  induction 1 as [|v ws Hv _ [IH1 IH2]]; [by split; [apply not_elem_of_nil|]|].
  destruct (charset_ok v Hv) as (_ & _ & H1 & H2). cbn. fold (spelled ws). split.
  - rewrite not_elem_of_cons. done.
  - unfold toLowerCase in *. cbn. by rewrite H2, IH2.
Qed.

(** ** The separator *)
Lemma last_index_absent c s : ∀ i f, c ∉ s → last_index_from c s i f = f.
Proof.
  induction s as [|x s IH]; intros i f Hn; [done|]. apply not_elem_of_cons in Hn as [Hx Hs].
  cbn. rewrite bool_decide_false by done. by apply IH.
Qed.

Lemma last_index_at c pre post i f :
  c ∉ post → last_index_from c (pre ++ c :: post) i f = i + zlen pre.
Proof.
  intros Hn. revert i f. induction pre as [|x pre IH]; intros i f; cbn [app last_index_from].
  - rewrite bool_decide_true by done. rewrite last_index_absent by done. rewrite zlen_nil. lia.
  - rewrite IH, zlen_cons. lia.
Qed.

Lemma split_last (c : byte) (s : list byte) : (c ∉ s) ∨ ∃ pre post, s = pre ++ c :: post ∧ (c ∉ post).
Proof.
  induction s as [|x s [IH|(pre & post & -> & Hp)]].
  - left. apply not_elem_of_nil.
  - destruct (decide (x = c)) as [->|Hx]; [right; by exists [], s|]. left. by apply not_elem_of_cons.
  - right. by exists (x :: pre), post.
Qed.

(** ** [decodeBech32m] is the inverse of [encodeBech32m] up to case *)
Definition one_case (a : list byte) : Prop := toLowerCase a = a ∨ toUpperCase (toLowerCase a) = a.

Lemma encodeBech32m_Ok hrp payload a :
  encodeBech32m hrp payload = Ok a ↔ ∃ words, convertBits (u8_to_Z <$> payload) 8 5 true = Ok words ∧
    words_ok 5 words ∧ a = hrp ++ x31 :: spelled (words ++ createChecksum hrp words).
Proof.
  unfold encodeBech32m. split.
  - intros H. ok_inv H as words E. pose proof (words_ok_convert _ _ (words_ok_bytes payload) E) as Hw.
    rewrite spelled_concat in H by (apply Forall_app_2; [done|by apply createChecksum_ok]).
    exists words. split; [done|]. split; [done|]. by injection H.
  - intros (words & -> & Hw & ->). rewrite result_bind_Ok, spelled_concat; [done|].
    apply Forall_app_2; [done|by apply createChecksum_ok].
Qed.

Lemma bytes_words p : words_ok 8 p → u8_to_Z <$> (u8_of_Z <$> p) = p.
Proof.
  induction 1 as [|v p Hv _ IH]; [done|]. cbn. rewrite u8_to_Z_of_Z, Z.mod_small by done. by f_equal.
Qed.

Lemma words_bytes (p : list byte) : u8_of_Z <$> (u8_to_Z <$> p) = p.
Proof. induction p as [|b p IH]; [done|]. cbn. by rewrite u8_of_Z_to_Z, IH. Qed.

Lemma decodeBech32m_inv a hrp payload :
  decodeBech32m a = Ok (hrp, payload) → one_case a ∧ hrp ≠ [] ∧ encodeBech32m hrp payload = Ok (toLowerCase a).
Proof.
  unfold decodeBech32m, one_case, lastIndexOf. cbv zeta. set (n := toLowerCase a).
  destruct (bool_decide (n ≠ a) && bool_decide (toUpperCase n ≠ a)) eqn:Ec; [done|].
  assert (n = a ∨ toUpperCase n = a) as Hcase.
  { apply andb_false_iff in Ec as [Ec|Ec]; apply bool_decide_eq_false in Ec; apply dec_stable in Ec; auto. }
  destruct (split_last x31 n) as [Hn|(pre & post & En & Hpost)].
  { by rewrite last_index_absent. }
  rewrite En, last_index_at, Z.add_0_l by done.
  destruct (Z.leb_spec (zlen pre) 0) as [|Hpre]; [done|]. cbn [orb].
  destruct (Z.ltb_spec (zlen (pre ++ x31 :: post)) (zlen pre + 7)) as [|Hlong]; [done|].
  rewrite ztake_app_exact, zdrop_app_r by lia. replace (zlen pre + 1 - zlen pre) with 1 by lia.
  change (zdrop 1 (x31 :: post)) with post.
  intros H. ok_inv H as data E. apply map_char_value in E as [Hw ->].
  assert (6 <= zlen data) as H6 by (revert Hlong; rewrite zlen_app, zlen_cons; unfold spelled; rewrite zlen_fmap; lia).
  assert (∃ words cs, data = words ++ cs ∧ zlen cs = 6) as (words & cs & -> & Hcs).
  { exists (ztake (zlen data - 6) data), (zdrop (zlen data - 6) data). rewrite ztake_zdrop.
    split; [done|]. rewrite zlen_drop; lia. }
  apply Forall_app in Hw as [Hw Hc]. destruct (verifyChecksum _ _) eqn:Ev; cbn [negb] in H; [|done].
  apply verifyChecksum_iff in Ev as ->; [|done|done|unfold zlen in Hcs; lia].
  rewrite zlen_app, Hcs, Z.add_simpl_r, ztake_app_exact in H by done.
  ok_inv H as bytes E. injection H as <- <-. split; [by rewrite <- En|]. split; [by intros ->|].
  pose proof (convert_words_ok _ _ Hw E) as Hb. apply encodeBech32m_Ok. exists words.
  rewrite bytes_words by done. split; [by apply convertBits_inverse|done].
Qed.

Lemma decodeBech32m_encoded a hrp payload :
  one_case a → hrp ≠ [] → encodeBech32m hrp payload = Ok (toLowerCase a) → decodeBech32m a = Ok (hrp, payload).
Proof.
  unfold decodeBech32m, one_case, lastIndexOf. cbv zeta. set (n := toLowerCase a).
  intros Hcase Hne (words & Econv & Hw & En)%encodeBech32m_Ok.
  assert (bool_decide (n ≠ a) && bool_decide (toUpperCase n ≠ a) = false) as ->.
  { apply andb_false_iff. by destruct Hcase as [E|E]; [left|right]; rewrite E; apply bool_decide_eq_false; intros []. }
  destruct (createChecksum_ok hrp words Hw) as [Hcs Hl]. set (cs := createChecksum hrp words) in *.
  assert (words_ok 5 (words ++ cs)) as Hws by by apply Forall_app_2.
  destruct (spelled_plain _ Hws) as [H1 _]. rewrite En, last_index_at, Z.add_0_l by done.
  assert (zlen (spelled (words ++ cs)) = zlen words + 6) as Hz.
  { unfold spelled. rewrite zlen_fmap, zlen_app. unfold zlen at 2. rewrite Hl. done. }
  assert (0 < zlen hrp) by (destruct hrp; [done|rewrite zlen_cons; pose_zlen; lia]). pose_zlen.
  rewrite (proj2 (Z.leb_gt _ _)), (proj2 (Z.ltb_ge _ _)) by zlia. cbn [orb].
  rewrite ztake_app_exact, zdrop_app_r by lia. replace (zlen hrp + 1 - zlen hrp) with 1 by lia.
  change (zdrop 1 (x31 :: spelled (words ++ cs))) with (spelled (words ++ cs)).
  rewrite (proj2 (map_char_value _ _) (conj Hws eq_refl)), result_bind_Ok.
  rewrite (proj2 (verifyChecksum_iff hrp words cs Hw Hcs Hl) eq_refl). cbn [negb].
  rewrite zlen_app. replace (zlen words + zlen cs - 6) with (zlen words) by (unfold zlen; lia). rewrite ztake_app_exact by done.
  apply convertBits_inverse in Econv; [|apply words_ok_bytes|done]. rewrite Econv, result_bind_Ok.
  by rewrite words_bytes.
Qed.

(** ** Scripts *)
Definition payload_of (ch : list byte) (t : Z) (args : list byte) : list byte :=
  FULL_ADDRESS_TYPE :: ch ++ u8_of_Z t :: args.

(** The network an address of [network] decodes to: there is no prefix for [devnet]. *)
Definition address_network (network : Network) : Network :=
  match network with mainnet => mainnet | _ => testnet end.

Lemma hash_type_roundtrip t b : hashTypeToByte t = Ok b → 0 <= b < 256 ∧ byteToHashType b = Ok t.
Proof.
  destruct t as [| |v]; cbn [hashTypeToByte]; [by intros [= <-]|by intros [= <-]|].
  destruct (Z.ltb_spec v 1), (Z.ltb_spec 127 v); cbn [orb]; try done. intros [= <-].
  assert (js_shl v 1 = 2 * v) as -> by (unfold js_shl; rewrite (int32_small v), Z.shiftl_mul_pow2, int32_small; lia).
  split; [lia|]. unfold byteToHashType. rewrite !(proj2 (Z.eqb_neq _ _)) by lia.
  rewrite (proj2 (Z.ltb_lt _ _)), (proj2 (Z.leb_le _ _)), Z.mul_comm, Z.mod_mul by lia. cbn.
  unfold js_shr. rewrite int32_small, Z.shiftr_div_pow2, Z.div_mul by lia. done.
Qed.

Lemma hash_type_inverse b t : 0 <= b < 256 → byteToHashType b = Ok t → hashTypeToByte t = Ok b.
Proof.
  intros Hb. unfold byteToHashType. destruct (Z.eqb_spec b 0) as [->|]; [by intros [= <-]|].
  destruct (Z.eqb_spec b 1) as [->|]; [by intros [= <-]|].
  destruct (Z.ltb_spec 1 b), (Z.leb_spec b 254), (Z.eqb_spec (b mod 2) 0) as [Hm|]; cbn [andb]; try done.
  intros [= <-]. cbn [hashTypeToByte]. unfold js_shr. rewrite int32_small, Z.shiftr_div_pow2 by lia.
  change (2 ^ 1) with 2. pose proof (Z.div_mod b 2 ltac:(lia)).
  rewrite !(proj2 (Z.ltb_ge _ _)) by lia. cbn [orb]. unfold js_shl.
  rewrite (int32_small (b / 2)), Z.shiftl_mul_pow2, int32_small by lia. f_equal. lia.
Qed.

Lemma encode_hex ch t b args network :
  zlen ch = CODE_HASH_BYTES → hashTypeToByte t = Ok b →
  encodeCkbAddress {| codeHash := bytesToHex ch; hashType := t; script_args := bytesToHex args |} network =
  encodeBech32m (hrpForNetwork network) (payload_of ch b args).
Proof.
  intros Hch Ht. unfold encodeCkbAddress. cbn [codeHash hashType script_args].
  rewrite !hexToBytes_bytesToHex, !result_bind_Ok, Hch, Ht. cbn [negb Z.eqb CODE_HASH_BYTES Pos.eqb].
  rewrite !result_bind_Ok, concatBytes_ok, result_bind_Ok. cbn [concat]. by rewrite app_nil_r.
Qed.

Lemma payload_parts ch b args : zlen ch = CODE_HASH_BYTES → 0 <= b < 256 →
  let p := payload_of ch b args in
  1 + CODE_HASH_BYTES + 1 <= zlen p ∧ p !! 0%nat = Some FULL_ADDRESS_TYPE ∧
  zdrop 1 (ztake (1 + CODE_HASH_BYTES) p) = ch ∧ u8_to_Z <$> p !! Z.to_nat (1 + CODE_HASH_BYTES) = Some b ∧
  zdrop (1 + CODE_HASH_BYTES + 1) p = args.
Proof.
  intros Hch Hb. unfold payload_of. cbv zeta. pose proof (zlen_nonneg args).
  assert (length ch = 32%nat) as Hl by (unfold zlen in Hch; unfold CODE_HASH_BYTES in Hch; lia).
  split; [rewrite zlen_cons, zlen_app, zlen_cons, Hch; lia|]. split; [done|].
  rewrite app_comm_cons. unfold zdrop, ztake. change (Z.to_nat (1 + CODE_HASH_BYTES)) with 33%nat.
  change (Z.to_nat (1 + CODE_HASH_BYTES + 1)) with 34%nat.
  rewrite take_app_length' by (cbn; lia). split; [done|]. split.
  - rewrite lookup_app_r by (cbn; lia). cbn [length]. rewrite Hl. cbn. rewrite u8_to_Z_of_Z, Z.mod_small by lia. done.
  - rewrite drop_app_ge by (cbn; lia). cbn [length]. by rewrite Hl.
Qed.

(** ** Whole addresses *)
Lemma network_hrp network : networkForHrp (hrpForNetwork network) = Ok (address_network network).
Proof. by destruct network. Qed.

Lemma networkForHrp_Ok hrp network : networkForHrp hrp = Ok network → hrp = hrpForNetwork network ∧ network = address_network network.
Proof.
  unfold networkForHrp. repeat case_bool_decide; [intros [= <-]; by split|intros [= <-]; by split|done].
Qed.

Lemma decode_encoded ch t b args network a :
  zlen ch = CODE_HASH_BYTES → hashTypeToByte t = Ok b → one_case a →
  encodeBech32m (hrpForNetwork network) (payload_of ch b args) = Ok (toLowerCase a) →
  decodeCkbAddress a = Ok {| decoded_network := address_network network;
    decoded_script := {| codeHash := bytesToHex ch; hashType := t; script_args := bytesToHex args |} |}.
Proof.
  intros Hch Ht Hc E. destruct (hash_type_roundtrip t b Ht) as [Hb Ht'].
  destruct (payload_parts ch b args Hch Hb) as (H1 & H2 & H3 & H4 & H5). unfold decodeCkbAddress.
  assert (hrpForNetwork network ≠ []) as Hne by by destruct network.
  rewrite (decodeBech32m_encoded a _ _ Hc Hne E), result_bind_Ok.
  rewrite (proj2 (Z.ltb_ge _ _)) by lia. rewrite bool_decide_true by done. cbn [negb]. cbv zeta.
  rewrite network_hrp, result_bind_Ok, H4, H3, H5. change (default 0 (Some b)) with b. by rewrite Ht', result_bind_Ok.
Qed.

(** An accepted address is the encoding of what it decodes to. *)
Lemma decode_canonical a d : decodeCkbAddress a = Ok d →
  ∃ ch t b args network, zlen ch = CODE_HASH_BYTES ∧ hashTypeToByte t = Ok b ∧ network = address_network network ∧
    d = {| decoded_network := network;
           decoded_script := {| codeHash := bytesToHex ch; hashType := t; script_args := bytesToHex args |} |} ∧
    one_case a ∧ encodeBech32m (hrpForNetwork network) (payload_of ch b args) = Ok (toLowerCase a).
Proof.
  unfold decodeCkbAddress. intros H. ok_inv H as r E. destruct r as [hrp p].
  apply decodeBech32m_inv in E as (Hc & Hne & E).
  destruct (Z.ltb_spec (zlen p) (1 + CODE_HASH_BYTES + 1)) as [|Hlen]; [done|].
  destruct (bool_decide (p !! 0%nat = Some FULL_ADDRESS_TYPE)) eqn:E0; cbn [negb] in H; [|done].
  apply bool_decide_eq_true in E0. ok_inv H as network En. ok_inv H as t Et. injection H as <-.
  apply networkForHrp_Ok in En as [-> Hn].
  assert (∃ ch b args, p = payload_of ch b args ∧ zlen ch = CODE_HASH_BYTES ∧ 0 <= b < 256) as (ch & b & args & -> & Hch & Hb).
  { destruct p as [|x p]; [done|]. injection E0 as ->. unfold CODE_HASH_BYTES in *. rewrite zlen_cons in Hlen.
    destruct (zdrop 32 p) as [|y args] eqn:Ed.
    { apply (f_equal zlen) in Ed. rewrite zlen_drop, zlen_nil in Ed by lia. lia. }
    exists (ztake 32 p), (u8_to_Z y), args. split; [|split; [apply zlen_take; lia|apply u8_to_Z_range]].
    unfold payload_of. by rewrite u8_of_Z_to_Z, <- Ed, ztake_zdrop. }
  destruct (payload_parts ch b args Hch Hb) as (H1 & H2 & H3 & H4 & H5). rewrite H4 in Et.
  change (default 0 (Some b)) with b in Et.
  rewrite H3, H5. exists ch, t, b, args, network. by apply hash_type_inverse in Et.
Qed.

Lemma lower_upper c : lower_char c = c → lower_char (upper_char c) = c ∧ upper_char (lower_char (upper_char c)) = upper_char c.
Proof. by destruct c. Qed.

Lemma lower_upper_text s : toLowerCase s = s →
  toLowerCase (toUpperCase s) = s ∧ one_case s ∧ one_case (toUpperCase s).
Proof.
  intros E. assert (toLowerCase (toUpperCase s) = s) as Es.
  { unfold toLowerCase, toUpperCase in *. induction s as [|c s IH]; [done|]. cbn in E |- *. injection E as Ec E.
    by rewrite (proj1 (lower_upper c Ec)), IH. }
  split; [done|]. split; [by left|]. right. by rewrite Es.
Qed.

Lemma encoded_lower network p a : encodeBech32m (hrpForNetwork network) p = Ok a → toLowerCase a = a.
Proof.
  intros (ws & _ & Hw & ->)%encodeBech32m_Ok. unfold toLowerCase. rewrite fmap_app, fmap_cons.
  f_equal; [by destruct network|]. f_equal. apply spelled_plain, Forall_app_2; [done|by apply createChecksum_ok].
Qed.

(** ** Changed characters *)
Lemma encoded_form network p a : encodeBech32m (hrpForNetwork network) p = Ok a →
  ∃ data, words_ok 5 data ∧ a = hrpForNetwork network ++ x31 :: spelled data ∧
    polymod (hrpExpand (hrpForNetwork network) ++ data) = BECH32M_CONST.
Proof.
  intros (words & _ & Hw & ->)%encodeBech32m_Ok. destruct (createChecksum_ok (hrpForNetwork network) words Hw) as [Hc Hl].
  exists (words ++ createChecksum (hrpForNetwork network) words).
  split; [by apply Forall_app_2|]. split; [done|]. apply Z.eqb_eq, (verifyChecksum_iff _ words); done.
Qed.

Lemma spelled_inj ws ws' : words_ok 5 ws → words_ok 5 ws' → spelled ws = spelled ws' → ws = ws'.
Proof. intros H H' E. rewrite <- (spelled_values ws H), E. by apply spelled_values. Qed.

Lemma hrp_parts network (s : list byte) :
  take 3 (hrpForNetwork network ++ x31 :: s) = hrpForNetwork network ∧
  drop 4 (hrpForNetwork network ++ x31 :: s) = s.
Proof. by destruct network. Qed.

(** Two valid strings that differ in one word of the data. *)
Lemma changed_word hrp data k v v' :
  words_ok 5 data → data !! k = Some v → 0 <= v' < 32 →
  polymod (hrpExpand hrp ++ data) = polymod (hrpExpand hrp ++ <[k := v']> data) → v = v'.
Proof.
  intros Hw Hk Hv'. rewrite insert_take_drop by (by eapply lookup_lt_Some).
  rewrite <- (take_drop_middle data k v Hk) in Hw |- * at 1. rewrite !app_assoc. apply Forall_app in Hw as [H1 H2].
  apply Forall_cons in H2 as [H2 H3]. pose proof (hrpExpand_ok hrp) as Hh.
  apply polymod_single; (apply Forall_app_2; [by apply Forall_app_2|by constructor]).
Qed.

(** An address with one letter changed that still decodes is in lower case. *)
Lemma changed_lower network s i c' :
  one_case (<[i := c']> (hrpForNetwork network ++ s)) →
  toLowerCase (<[i := c']> (hrpForNetwork network ++ s)) = <[i := c']> (hrpForNetwork network ++ s).
Proof.
  set (a := hrpForNetwork network ++ s). intros [|E]; [done|]. exfalso.
  assert (∃ j x, i ≠ j ∧ a !! j = Some x ∧ upper_char (lower_char x) ≠ x) as (j & x & Hij & Hj & Hx).
  { destruct (decide (i = 0%nat)) as [->|]; [exists 1%nat, x6b|exists 0%nat, x63]; by destruct network. }
  apply (f_equal (.!! j)) in E. unfold toUpperCase, toLowerCase in E.
  rewrite !list_lookup_fmap, list_lookup_insert_ne, Hj in E by done. cbn in E. congruence.
Qed.

Lemma ckb_ckt data : words_ok 5 data →
  polymod (hrpExpand (bstr "ckb") ++ data) ≠ polymod (hrpExpand (bstr "ckt") ++ data).
Proof.
  intros Hw E. change (hrpExpand (bstr "ckb")) with ([3; 3; 3; 0; 3; 11] ++ [2]) in E.
  change (hrpExpand (bstr "ckt")) with ([3; 3; 3; 0; 3; 11] ++ [20]) in E. rewrite <- !app_assoc in E.
  assert (words_ok 5 [3; 3; 3; 0; 3; 11]) as H6 by by repeat constructor.
  apply polymod_single in E; [lia|..]; (apply Forall_app_2; [done|by constructor]).
Qed.

Lemma changed_rejected network network' p p' a i c c' :
  encodeBech32m (hrpForNetwork network) p = Ok a → a !! i = Some c →
  encodeBech32m (hrpForNetwork network') p' = Ok (<[i := c']> a) → c = c'.
Proof.
  intros (data & Hw & -> & Hp)%encoded_form Hi (data' & Hw' & E & Hp')%encoded_form.
  pose proof (list_lookup_insert_eq _ i c' (lookup_lt_Some _ _ _ Hi)) as Hi'. rewrite E in Hi'.
  pose proof (f_equal (take 3) E) as Et. pose proof (f_equal (drop 4) E) as Ed.
  destruct (hrp_parts network (spelled data)) as [T1 D1], (hrp_parts network' (spelled data')) as [T2 D2].
  rewrite T2 in Et. rewrite D2 in Ed. destruct (decide (4 <= i)%nat) as [Hge|Hlt].
  - rewrite take_insert_ge, T1 in Et by lia. rewrite drop_insert_ge, D1 in Ed by lia.
    assert (spelled data !! (i - 4)%nat = Some c) as Hc.
    { rewrite <- D1, lookup_drop. by replace (4 + (i - 4))%nat with i by lia. }
    unfold spelled in Hc. rewrite list_lookup_fmap in Hc. destruct (data !! (i - 4)%nat) as [v|] eqn:Hv; [|done].
    apply (f_equal (fmap value_of)) in Ed. rewrite list_fmap_insert, !spelled_values in Ed by done.
    assert (∃ v', data' !! (i - 4)%nat = Some v' ∧ charset_at v' = c') as (v' & Hv' & <-).
    { revert Hi'. replace i with (4 + (i - 4))%nat at 1 by lia. rewrite <- lookup_drop, D2.
      unfold spelled. rewrite list_lookup_fmap. destruct (data' !! _) eqn:E'; [|done]. intros [= <-]. by eexists. }
    assert (value_of (charset_at v') = v') as Hval.
    { unfold value_of. pose proof (Forall_lookup_1 _ _ _ _ Hw' Hv') as Hr. by rewrite (proj1 (proj2 (charset_ok v' Hr))). }
    rewrite Hval in Ed. subst data'. rewrite <- Et in Hp'. assert (v = v') as ->; [|by injection Hc].
    eapply (changed_word _ data); [done|done| |by rewrite Hp, Hp']. exact (Forall_lookup_1 _ _ _ _ Hw' Hv').
  - rewrite drop_insert_lt, D1 in Ed by lia. apply spelled_inj in Ed as <-; [|done|done].
    destruct (decide (hrpForNetwork network' = hrpForNetwork network)) as [Eh|Hne].
    { rewrite Eh, Hi in Hi'. by injection Hi'. }
    exfalso. pose proof (ckb_ckt data Hw). by destruct network, network'; cbn [hrpForNetwork] in *; congruence.
Qed.

(** Encoding and decoding. *)
Lemma encode_decode ch t b args network :
  zlen ch = CODE_HASH_BYTES → hashTypeToByte t = Ok b →
  let script := {| codeHash := bytesToHex ch; hashType := t; script_args := bytesToHex args |} in
  let decoded := {| decoded_network := address_network network; decoded_script := script |} in
  ∃ a, encodeCkbAddress script network = Ok a ∧
    decodeCkbAddress a = Ok decoded ∧ decodeCkbAddress (toUpperCase a) = Ok decoded ∧
    ∀ a', decodeCkbAddress a' = Ok decoded → toLowerCase a' = a.
Proof.
  intros Hch Ht. cbv zeta.
  destruct (convertBits_pad 8 5 ltac:(lia) ltac:(lia) _ (words_ok_bytes (payload_of ch b args))) as (ws & _ & Ew & _ & Hws & _).
  pose proof (proj2 (encodeBech32m_Ok (hrpForNetwork network) (payload_of ch b args) _) (ex_intro _ ws (conj Ew (conj Hws eq_refl)))) as E.
  set (a := _ ++ x31 :: _) in E. destruct (lower_upper_text a (encoded_lower _ _ _ E)) as (Hu & H1 & H2).
  pose proof (encoded_lower _ _ _ E) as Hl. exists a. split; [by rewrite (encode_hex ch t b)|].
  split; [eapply decode_encoded; [done|done|done|by rewrite Hl]|].
  split; [eapply decode_encoded; [done|done|done|by rewrite Hu]|]. intros a' Hd.
  apply decode_canonical in Hd as (ch' & t' & b' & args' & network' & Hch' & Ht' & Hn & Hd & _ & E').
  pose proof (f_equal decoded_network Hd) as En. pose proof (f_equal (λ d, hashType (decoded_script d)) Hd) as Et.
  pose proof (bytesToHex_inj _ _ (f_equal (λ d, codeHash (decoded_script d)) Hd)) as <-.
  pose proof (bytesToHex_inj _ _ (f_equal (λ d, script_args (decoded_script d)) Hd)) as <-.
  cbn in En, Et. subst t'. rewrite Ht in Ht'. injection Ht' as <-.
  assert (hrpForNetwork network' = hrpForNetwork network) as Eh by (rewrite <- En; by destruct network).
  rewrite Eh, E in E'. by injection E'.
Qed.

(** C9: addresses.  A script with a 32-byte code hash
    and a known hash type, in canonical hexadecimal, encodes to an address that decodes to
    the same script, in lower and in upper case; the network comes back too, but [devnet]
    as [testnet], whose prefix it shares.  No other string decodes to it: what is
    accepted is, up to case, the encoding of what it decodes to.  And mistyped addresses are
    noticed: whatever one character of an address is replaced by, in the prefix, the
    separator or the data, the result is rejected. *)
Theorem address_codec_correct :
  (∀ ch t b args network, zlen ch = CODE_HASH_BYTES → hashTypeToByte t = Ok b →
     let script := {| codeHash := bytesToHex ch; hashType := t; script_args := bytesToHex args |} in
     let decoded := {| decoded_network := address_network network; decoded_script := script |} in
     ∃ a, encodeCkbAddress script network = Ok a ∧
       decodeCkbAddress a = Ok decoded ∧ decodeCkbAddress (toUpperCase a) = Ok decoded ∧
       ∀ a', decodeCkbAddress a' = Ok decoded → toLowerCase a' = a) ∧
  (∀ script network a i c c', encodeCkbAddress script network = Ok a → a !! i = Some c → c' ≠ c →
     ∃ e, decodeCkbAddress (<[i := c']> a) = Err e) ∧
  (∀ a d, decodeCkbAddress a = Ok d →
     one_case a ∧ encodeCkbAddress (decoded_script d) (decoded_network d) = Ok (toLowerCase a)).
Proof.
  split; [intros ch t b args network; apply encode_decode|]. split.
  - intros script network a i c c' E Hi Hne. destruct (decodeCkbAddress _) as [d|e] eqn:Ed; [|by exists e].
    exfalso. apply Hne. symmetry. unfold encodeCkbAddress in E. ok_inv E as ch Ech.
    destruct (negb _); [done|]. ok_inv E as args Ea. ok_inv E as t Et. ok_inv E as p Ep.
    apply decode_canonical in Ed as (? & ? & ? & ? & ? & _ & _ & _ & _ & Hc & E').
    assert (toLowerCase (<[i := c']> a) = <[i := c']> a) as Hl.
    { apply encodeBech32m_Ok in E as (ws & _ & _ & ->). by apply changed_lower. }
    rewrite Hl in E'. exact (changed_rejected _ _ _ _ _ _ _ _ E Hi E').
  - intros a d (ch & t & b & args & network & Hch & Ht & _ & -> & Hc & E)%decode_canonical.
    split; [done|]. cbn [decoded_script decoded_network]. by rewrite (encode_hex ch t b).
Qed.
