(* ===== verification/SdkMolecule.v ===== *)
(** * SdkMolecule: transactions and their serialization (src/sdk/src/wallet.ts, types.ts)

    The molecule encoding of CKB transactions: fixed-size items in a vector are a count and
    the items, all other sequences a table of offsets and the items.  The hash that is
    signed is the hash of this encoding, so that what a signature covers is what the
    encoding determines. *)

From S2P Require Import Prelude Machine Text SdkUtil SdkAddress SdkBits SdkAddressProps.
Open Scope Z_scope.
Local Open Scope rust_scope.

(** ** types.ts *)
Inductive DepType := code | depGroup.
Record OutPoint := { txHash : list byte; index_ : list byte }.
Record CellDep := { dep_outPoint : OutPoint; depType : DepType }.
Record CellOutput := { capacity : list byte; lock : LockScript; type_ : option LockScript }.
Record TransactionInput := { previousOutput : OutPoint; since : list byte }.
Record RawTransaction := {
  version : list byte;
  cellDeps : list CellDep;
  headerDeps : list (list byte);
  inputs : list TransactionInput;
  outputs : list CellOutput;
  outputsData : list (list byte) }.
Record Transaction := { raw : RawTransaction; witnesses : list (list byte) }.

(** ** wallet.ts *)
Definition serializeFixVec (items : list (list byte)) : result (list byte) SdkError :=
  let? n := u32ToLeBytes (zlen items) in concatBytes (n :: items).

(** The loop that numbers the items: their offsets, and the offset after the last. *)
Fixpoint offsets_from (offset : Z) (items : list (list byte)) : result (list (list byte) * Z) SdkError :=
  match items with
  | [] => Ok ([], offset)
  | item :: items =>
    let? current := u32ToLeBytes offset in
    let? r := offsets_from (offset + zlen item) items in
    Ok (current :: r.1, r.2)
  end.
Definition serializeDynVec (items : list (list byte)) : result (list byte) SdkError :=
  let headerSize := 4 + zlen items * 4 in
  let? r := offsets_from headerSize items in
  let? size := u32ToLeBytes r.2 in
  concatBytes (size :: r.1 ++ items).

Definition serializeTable (fields : list (list byte)) : result (list byte) SdkError := serializeDynVec fields.

Definition serializeBytes (bytes : list byte) : result (list byte) SdkError :=
  serializeFixVec ((λ b, [b]) <$> bytes).

Definition serializeBytesVec (items : list (list byte)) : result (list byte) SdkError :=
  let? items := map_ok serializeBytes items in serializeDynVec items.

Definition serializeByte32Vec (items : list (list byte)) : result (list byte) SdkError := serializeFixVec items.

Definition serializeOutPoint (outPoint : OutPoint) : result (list byte) SdkError :=
  let? hash := hexToBytes (txHash outPoint) in
  let? i := hexToBigInt (index_ outPoint) in
  let? index := u32ToLeBytes i in
  concatBytes [hash; index].

Definition hashTypeByte (hashType : ScriptHashType) : result Z SdkError :=
  match hashType with
  | HashData => Ok 0
  | HashType => Ok 1
  | HashDataN version =>
    if (version <? 1) || (127 <? version) then Err UnsupportedHashType else Ok (js_shl version 1)
  end.

Definition serializeScript (script : LockScript) : result (list byte) SdkError :=
  let? hash := hexToBytes (codeHash script) in
  let? t := hashTypeByte (hashType script) in
  let? a := hexToBytes (script_args script) in
  let? args := serializeBytes a in
  serializeTable [hash; [u8_of_Z t]; args].

Definition serializeScriptOpt (script : option LockScript) : result (list byte) SdkError :=
  match script with Some s => serializeScript s | None => Ok [] end.

Definition serializeCellOutput (output : CellOutput) : result (list byte) SdkError :=
  let? c := hexToBigInt (capacity output) in
  let? cap := u64ToLeBytes c in
  let? l := serializeScript (lock output) in
  let? t := serializeScriptOpt (type_ output) in
  serializeTable [cap; l; t].

Definition serializeCellOutputVec (outputs : list CellOutput) : result (list byte) SdkError :=
  let? items := map_ok serializeCellOutput outputs in serializeDynVec items.

Definition serializeCellInput (input : TransactionInput) : result (list byte) SdkError :=
  let? s := hexToBigInt (since input) in
  let? since := u64ToLeBytes s in
  let? outPoint := serializeOutPoint (previousOutput input) in
  concatBytes [since; outPoint].
Definition serializeCellInputVec (inputs : list TransactionInput) : result (list byte) SdkError :=
  let? items := map_ok serializeCellInput inputs in serializeFixVec items.

Definition serializeCellDep (cellDep : CellDep) : result (list byte) SdkError :=
  let? outPoint := serializeOutPoint (dep_outPoint cellDep) in
  concatBytes [outPoint; [match depType cellDep with code => x00 | depGroup => x01 end]].
Definition serializeCellDepVec (cellDeps : list CellDep) : result (list byte) SdkError :=
  let? items := map_ok serializeCellDep cellDeps in serializeFixVec items.

Definition serializeRawTransaction (tx : RawTransaction) : result (list byte) SdkError :=
  let? v := hexToBigInt (version tx) in
  let? v := u32ToLeBytes v in
  let? deps := serializeCellDepVec (cellDeps tx) in
  let? headers := map_ok hexToBytes (headerDeps tx) in
  let? headers := serializeByte32Vec headers in
  let? ins := serializeCellInputVec (inputs tx) in
  let? outs := serializeCellOutputVec (outputs tx) in
  let? data := map_ok hexToBytes (outputsData tx) in
  let? data := serializeBytesVec data in
  serializeTable [v; deps; headers; ins; outs; data].

Definition serializeTransaction (tx : Transaction) : result (list byte) SdkError :=
  let? r := serializeRawTransaction (raw tx) in
  let? ws := map_ok hexToBytes (witnesses tx) in
  let? ws := serializeBytesVec ws in
  serializeTable [r; ws].

Definition encodeOptionBytes (value : option (list byte)) : result (list byte) SdkError :=
  match value with Some v => serializeBytes v | None => Ok [] end.

Definition encodeWitnessArgs (lock : option (list byte)) : result (list byte) SdkError :=
  let? l := encodeOptionBytes lock in
  let? a := encodeOptionBytes None in
  let? b := encodeOptionBytes None in
  let? t := serializeTable [l; a; b] in
  Ok (bytesToHex t).

(** ** Vectors *)

(** What the loops of [serializeFixVec] and [serializeDynVec] write. *)
Fixpoint offset_bytes (offset : Z) (items : list (list byte)) : list byte :=
  match items with
  | [] => []
  | item :: items => to_le_bytes 4 offset ++ offset_bytes (offset + zlen item) items
  end.

Lemma fixvec_ok items b : serializeFixVec items = Ok b ↔
  zlen items < 2 ^ 32 ∧ b = to_le_bytes 4 (zlen items) ++ concat items.
Proof.
  unfold serializeFixVec. pose proof (zlen_nonneg items) as Hz. split.
  - intros H. ok_inv H as n E. apply u32ToLeBytes_Ok in E as [Hn ->]. rewrite concatBytes_ok in H.
    split; [lia|]. by injection H.
  - intros [Hn ->]. rewrite (proj2 (u32ToLeBytes_Ok (zlen items) _) (conj (conj Hz Hn) eq_refl)), result_bind_Ok.
    by rewrite concatBytes_ok.
Qed.

Lemma offsets_from_Ok items : ∀ offset r, offsets_from offset items = Ok r →
  concat r.1 = offset_bytes offset items ∧ r.2 = offset + zlen (concat items).
Proof.
  induction items as [|item items IH]; intros offset r H; cbn [offsets_from offset_bytes concat] in *.
  - apply Ok_inj in H as <-. rewrite zlen_nil. by split; [|cbn; lia].
  - ok_inv H as current E. ok_inv H as r' E'. apply Ok_inj in H as <-. cbn [fst snd concat].
    apply u32ToLeBytes_Ok in E as [_ ->]. apply IH in E' as [-> ->]. rewrite zlen_app. split; [done|lia].
Qed.

Lemma dynvec_Ok items b : serializeDynVec items = Ok b →
  let size := 4 + zlen items * 4 + zlen (concat items) in
  size < 2 ^ 32 ∧ b = to_le_bytes 4 size ++ offset_bytes (4 + zlen items * 4) items ++ concat items.
Proof.
  unfold serializeDynVec. intros H. ok_inv H as r Er. ok_inv H as size Es.
  apply offsets_from_Ok in Er as [E1 E2]. apply u32ToLeBytes_Ok in Es as [Hs ->]. rewrite concatBytes_ok in H.
  apply Ok_inj in H as <-. rewrite E2 in *. split; [lia|]. cbn [concat]. by rewrite concat_app, E1.
Qed.

Lemma zlen_offsets items : ∀ offset, zlen (offset_bytes offset items) = zlen items * 4.
Proof.
  induction items as [|item items IH]; intros offset; [done|]. cbn [offset_bytes].
  rewrite zlen_app, IH, zlen_cons, zlen_to_le_bytes by lia. lia.
Qed.

Lemma zlen_dynvec items b : serializeDynVec items = Ok b → zlen b = 4 + zlen items * 4 + zlen (concat items).
Proof. intros [_ ->]%dynvec_Ok. rewrite !zlen_app, zlen_offsets, zlen_to_le_bytes by lia. lia. Qed.

(** ** The encoding determines the transaction *)
Lemma app_inj_len {A} (xs xs' ys ys' : list A) : zlen xs = zlen xs' → xs ++ ys = xs' ++ ys' → xs = xs' ∧ ys = ys'.
Proof. unfold zlen. intros. apply app_inj_1; [lia|done]. Qed.

Lemma offset_bytes_inj xs : ∀ ys offset,
  length xs = length ys → 0 <= offset → offset + zlen (concat xs) < 2 ^ 32 → zlen (concat xs) = zlen (concat ys) →
  offset_bytes offset xs = offset_bytes offset ys → concat xs = concat ys → xs = ys.
Proof.
  induction xs as [|x xs IH]; intros [|y ys] offset Hl H0 Hmax Hz E Ec; [done|done|done|].
  cbn [offset_bytes concat] in *. rewrite !zlen_app in *. pose_zlen.
  apply app_inj_len in E as [_ E]; [|done].
  assert (zlen x = zlen y) as Hxy.
  { destruct xs as [|x' xs], ys as [|y' ys]; [cbn [concat] in Hz; lia|done|done|].
    cbn [offset_bytes] in E. apply app_inj_len in E as [E _]; [|by rewrite !zlen_to_le_bytes].
    apply (to_le_bytes_inj 4) in E; pose proof (zlen_nonneg (concat ys)); cbn [concat] in *; rewrite ?zlen_app in *; pose_zlen; lia. }
  apply app_inj_len in Ec as [-> Ec]; [|done]. f_equal.
  eapply (IH ys (offset + zlen y)); [cbn in Hl; lia|lia|lia|lia|done|done].
Qed.

Lemma dynvec_inj xs ys b : serializeDynVec xs = Ok b → serializeDynVec ys = Ok b → xs = ys.
Proof.
  intros Hx Hy. pose proof (zlen_dynvec _ _ Hx) as Zx. pose proof (zlen_dynvec _ _ Hy) as Zy.
  apply dynvec_Ok in Hx as [Sx Ex], Hy as [Sy Ey]. pose_zlen. rewrite Ex in Ey. clear Ex.
  apply app_inj_len in Ey as [_ E]; [|by rewrite !zlen_to_le_bytes].
  assert (zlen xs = zlen ys) as Hl.
  { destruct xs as [|x xs], ys as [|y ys]; [done|cbn [concat] in *; rewrite ?zlen_cons, ?zlen_app, ?(zlen_nil (A:=byte)), ?(zlen_nil (A:=list byte)) in *; pose_zlen; lia..|].
    cbn [offset_bytes] in E. rewrite <- !app_assoc in E. apply app_inj_len in E as [E _]; [|by rewrite !zlen_to_le_bytes].
    apply (to_le_bytes_inj 4) in E; rewrite !zlen_cons in *; pose_zlen; lia. }
  apply app_inj_len in E as [E Ec]; [|by rewrite !zlen_offsets, Hl]. rewrite Hl in E.
  eapply (offset_bytes_inj xs ys (4 + zlen ys * 4)); [unfold zlen in Hl; lia|lia|lia|lia|done|done].
Qed.

(** Items of the same size are found by counting. *)
Lemma fixvec_inj k xs ys b :
  0 < k → Forall (λ x, zlen x = k) xs → Forall (λ y, zlen y = k) ys →
  serializeFixVec xs = Ok b → serializeFixVec ys = Ok b → xs = ys.
Proof.
  intros Hk Hxs Hys [_ ->]%fixvec_ok [_ E]%fixvec_ok. apply app_inj_len in E as [_ E]; [|by rewrite !zlen_to_le_bytes].
  revert ys Hys E. induction Hxs as [|x xs Hx _ IH]; intros ys Hys E; destruct Hys as [|y ys Hy Hys]; cbn [concat] in E.
  - done.
  - apply (f_equal zlen) in E. rewrite zlen_app, zlen_nil in E. pose_zlen. lia.
  - apply (f_equal zlen) in E. rewrite zlen_app, zlen_nil in E. pose_zlen. lia.
  - apply app_inj_len in E as [-> E]; [|lia]. f_equal. by apply IH.
Qed.

Lemma bytes_inj xs ys b : serializeBytes xs = Ok b → serializeBytes ys = Ok b → xs = ys.
Proof.
  assert (∀ bs : list byte, Forall (λ x, zlen x = 1) ((λ b, [b]) <$> bs)) as H1
    by (intros bs; apply Forall_fmap, Forall_true; done).
  intros Hx Hy. pose proof (fixvec_inj 1 _ _ b ltac:(lia) (H1 xs) (H1 ys) Hx Hy) as E.
  by apply list_fmap_eq_inj in E; [|intros ? ? [=]].
Qed.

(** [ser] determines [view] of what it writes, for values that satisfy [P]. *)
Definition determines {A V} (P : A → Prop) (ser : A → result (list byte) SdkError) (view : A → V) : Prop :=
  ∀ x y b, P x → P y → ser x = Ok b → ser y = Ok b → view x = view y.

Lemma map_determines {A V} (P : A → Prop) ser (view : A → V) xs ys bs :
  determines P ser view → Forall P xs → Forall P ys → map_ok ser xs = Ok bs → map_ok ser ys = Ok bs →
  view <$> xs = view <$> ys.
Proof.
  intros Hd Hxs Hys Hx Hy. rewrite map_ok_inv in Hx, Hy. revert ys Hys Hy.
  induction Hx as [|x b xs bs Hx Hxb IH]; intros ys Hys Hy.
  - by apply Forall2_nil_inv_r in Hy as ->.
  - apply Forall2_cons_inv_r in Hy as (y & ys' & Hy & Hyb & ->). apply Forall_cons in Hxs as [Px Hxs], Hys as [Py Hys].
    cbn. f_equal; [by eapply Hd|by apply IH].
Qed.

Lemma map_sized {A} (P : A → Prop) (ser : A → result (list byte) SdkError) k xs bs :
  (∀ x b, P x → ser x = Ok b → zlen b = k) → Forall P xs → map_ok ser xs = Ok bs → Forall (λ b, zlen b = k) bs.
Proof.
  rewrite map_ok_inv. intros Hk HP H. induction H as [|x b xs bs Hx _ IH]; [constructor|].
  apply Forall_cons in HP as [Px HP]. constructor; [by eapply Hk|by apply IH].
Qed.

(** What a transaction says: the bytes and numbers its strings stand for. *)
Definition view_outpoint (o : OutPoint) := (hexToBytes (txHash o), hexToBigInt (index_ o)).
Definition view_dep (d : CellDep) := (view_outpoint (dep_outPoint d), depType d).
Definition view_input (i : TransactionInput) := (hexToBigInt (since i), view_outpoint (previousOutput i)).
Definition view_script (s : LockScript) := (hexToBytes (codeHash s), hashType s, hexToBytes (script_args s)).
Definition view_output (o : CellOutput) := (hexToBigInt (capacity o), view_script (lock o), view_script <$> type_ o).
Definition view_tx (tx : RawTransaction) :=
  (hexToBigInt (version tx), view_dep <$> cellDeps tx, hexToBytes <$> headerDeps tx, view_input <$> inputs tx,
   view_output <$> outputs tx, hexToBytes <$> outputsData tx).

(** Transaction and header hashes have 32 bytes, which the code takes for granted. *)
Definition hash32 (s : list byte) : bool :=
  match hexToBytes s with Ok h => zlen h =? 32 | Err _ => false end.
Definition hashes_ok (tx : RawTransaction) : bool :=
  forallb (λ d, hash32 (txHash (dep_outPoint d))) (cellDeps tx) && forallb hash32 (headerDeps tx) &&
  forallb (λ i, hash32 (txHash (previousOutput i))) (inputs tx).

Lemma hash32_Ok s h : hash32 s = true → hexToBytes s = Ok h → zlen h = 32.
Proof. unfold hash32. intros H E. rewrite E in H. by apply Z.eqb_eq in H. Qed.

Lemma outpoint_Ok o b : serializeOutPoint o = Ok b →
  ∃ h i, hexToBytes (txHash o) = Ok h ∧ hexToBigInt (index_ o) = Ok i ∧ 0 <= i < 2 ^ 32 ∧ b = h ++ to_le_bytes 4 i.
Proof.
  unfold serializeOutPoint. intros H. ok_inv H as h Eh. ok_inv H as i Ei. ok_inv H as ib Eb.
  apply u32ToLeBytes_Ok in Eb as [Hi ->]. rewrite concatBytes_two in H. apply Ok_inj in H as <-.
  by exists h, i.
Qed.

Lemma outpoint_sized o b : hash32 (txHash o) = true → serializeOutPoint o = Ok b → zlen b = 36.
Proof.
  intros H (h & i & Eh & _ & _ & ->)%outpoint_Ok. rewrite zlen_app, (hash32_Ok _ _ H Eh), zlen_to_le_bytes; lia.
Qed.

Lemma outpoint_determines : determines (λ o, hash32 (txHash o) = true) serializeOutPoint view_outpoint.
Proof.
  intros x y b Px Py (h & i & Eh & Ei & Hi & ->)%outpoint_Ok (h' & i' & Eh' & Ei' & Hi' & E)%outpoint_Ok.
  apply app_inj_len in E as [-> E]; [|by rewrite (hash32_Ok _ _ Px Eh), (hash32_Ok _ _ Py Eh')].
  apply (to_le_bytes_inj 4) in E as ->; [|lia..]. unfold view_outpoint. congruence.
Qed.

Lemma dep_sized d b : hash32 (txHash (dep_outPoint d)) = true → serializeCellDep d = Ok b → zlen b = 37.
Proof.
  unfold serializeCellDep. intros P H. ok_inv H as o Eo. rewrite concatBytes_two in H. apply Ok_inj in H as <-.
  rewrite zlen_app, (outpoint_sized _ _ P Eo). done.
Qed.

Lemma dep_determines : determines (λ d, hash32 (txHash (dep_outPoint d)) = true) serializeCellDep view_dep.
Proof.
  intros x y b Px Py Hx Hy. unfold serializeCellDep in *. ok_inv Hx as o Eo. ok_inv Hy as o' Eo'.
  rewrite concatBytes_two in Hx, Hy. apply Ok_inj in Hx as <-. apply Ok_inj in Hy as E.
  apply app_inj_len in E as [-> E]; [|by rewrite (outpoint_sized _ _ Px Eo), (outpoint_sized _ _ Py Eo')].
  unfold view_dep. rewrite (outpoint_determines _ _ o Px Py Eo Eo').
  by destruct (depType x), (depType y).
Qed.

Lemma input_sized i b : hash32 (txHash (previousOutput i)) = true → serializeCellInput i = Ok b → zlen b = 44.
Proof.
  unfold serializeCellInput. intros P H. ok_inv H as s Es. ok_inv H as sb Esb. ok_inv H as o Eo.
  apply u64ToLeBytes_Ok in Esb as [_ ->]. rewrite concatBytes_two in H. apply Ok_inj in H as <-.
  rewrite zlen_app, zlen_to_le_bytes, (outpoint_sized _ _ P Eo) by lia. done.
Qed.

Lemma input_determines : determines (λ i, hash32 (txHash (previousOutput i)) = true) serializeCellInput view_input.
Proof.
  intros x y b Px Py Hx Hy. unfold serializeCellInput in *.
  ok_inv Hx as s Es. ok_inv Hx as sb Esb. ok_inv Hx as o Eo. ok_inv Hy as s' Es'. ok_inv Hy as sb' Esb'. ok_inv Hy as o' Eo'.
  apply u64ToLeBytes_Ok in Esb as [Hs ->], Esb' as [Hs' ->]. rewrite concatBytes_two in Hx, Hy.
  apply Ok_inj in Hx as <-. apply Ok_inj in Hy as E.
  apply app_inj_len in E as [E ->]; [|by rewrite !zlen_to_le_bytes].
  apply (to_le_bytes_inj 8) in E as ->; [|lia..]. unfold view_input.
  rewrite (outpoint_determines _ _ o Px Py Eo Eo'). congruence.
Qed.

Lemma script_fields s b : serializeScript s = Ok b →
  ∃ h t a ab, hexToBytes (codeHash s) = Ok h ∧ hashTypeToByte (hashType s) = Ok t ∧ hexToBytes (script_args s) = Ok a ∧
    serializeBytes a = Ok ab ∧ serializeDynVec [h; [u8_of_Z t]; ab] = Ok b.
Proof.
  unfold serializeScript. intros H. ok_inv H as h Eh. ok_inv H as t Et. ok_inv H as a Ea. ok_inv H as ab Eab.
  by exists h, t, a, ab.
Qed.

Lemma script_determines : determines (λ _, True) serializeScript view_script.
Proof.
  intros x y b _ _ (h & t & a & ab & Eh & Et & Ea & Eab & Hx)%script_fields.
  intros (h' & t' & a' & ab' & Eh' & Et' & Ea' & Eab' & Hy)%script_fields.
  pose proof (dynvec_inj _ _ _ Hx Hy) as [= E1 E2 E3]. subst h' ab'.
  destruct (hash_type_roundtrip _ _ Et) as [Ht R], (hash_type_roundtrip _ _ Et') as [Ht' R'].
  assert (t = t') as <-.
  { apply (f_equal u8_to_Z) in E2. rewrite !u8_to_Z_of_Z, !Z.mod_small in E2 by lia. done. }
  pose proof (bytes_inj _ _ _ Eab Eab') as <-. unfold view_script. congruence.
Qed.

Lemma script_opt_determines : determines (λ _, True) serializeScriptOpt (fmap view_script).
Proof.
  assert (∀ s, serializeScript s ≠ Ok []) as Hne.
  { intros s (h & t & a & ab & _ & _ & _ & _ & H)%script_fields. apply zlen_dynvec in H. rewrite zlen_nil in H.
    revert H. rewrite !zlen_cons. pose_zlen. lia. }
  intros [x|] [y|] b _ _ Hx Hy; cbn in *; [|congruence|congruence|done]. f_equal. by eapply script_determines.
Qed.

Lemma output_determines : determines (λ _, True) serializeCellOutput view_output.
Proof.
  intros x y b _ _ Hx Hy. unfold serializeCellOutput in *.
  ok_inv Hx as c Ec. ok_inv Hx as cb Ecb. ok_inv Hx as l El. ok_inv Hx as t Et.
  ok_inv Hy as c' Ec'. ok_inv Hy as cb' Ecb'. ok_inv Hy as l' El'. ok_inv Hy as t' Et'.
  pose proof (dynvec_inj _ _ _ Hx Hy) as E. injection E as -> -> ->.
  apply u64ToLeBytes_Ok in Ecb as [Hc ->], Ecb' as [Hc' E]. apply (to_le_bytes_inj 8) in E as ->; [|lia..].
  unfold view_output. rewrite (script_determines _ _ l' I I El El'), (script_opt_determines _ _ t' I I Et Et').
  congruence.
Qed.

Lemma hexes_determine (xs ys : list (list byte)) bs :
  map_ok hexToBytes xs = Ok bs → map_ok hexToBytes ys = Ok bs → hexToBytes <$> xs = hexToBytes <$> ys.
Proof.
  rewrite !map_ok_inv. intros Hx. revert ys. induction Hx as [|x b xs bs Hx _ IH]; intros ys Hy.
  - by apply Forall2_nil_inv_r in Hy as ->.
  - apply Forall2_cons_inv_r in Hy as (y & ys' & Hy & Hys & ->). cbn. rewrite Hx, Hy. f_equal. by apply IH.
Qed.

Lemma bytes_vec_inj xs ys b : serializeBytesVec xs = Ok b → serializeBytesVec ys = Ok b → xs = ys.
Proof.
  unfold serializeBytesVec. intros Hx Hy. ok_inv Hx as l El. ok_inv Hy as l' El'.
  pose proof (dynvec_inj _ _ _ Hx Hy) as <-.
  rewrite <- (list_fmap_id xs), <- (list_fmap_id ys).
  eapply (map_determines (λ _, True) serializeBytes id); [|by apply Forall_true|by apply Forall_true|done|done].
  intros x y c _ _. apply bytes_inj.
Qed.

Lemma forallb_Forall {A} (f : A → bool) l : forallb f l = true ↔ Forall (λ a, f a = true) l.
Proof. rewrite forallb_forall, Forall_forall. by setoid_rewrite list_elem_of_In. Qed.

Lemma fixed_vec_determines {A V} (P : A → Prop) ser (view : A → V) k xs ys b :
  0 < k → determines P ser view → (∀ x c, P x → ser x = Ok c → zlen c = k) → Forall P xs → Forall P ys →
  (let? items := map_ok ser xs in serializeFixVec items) = Ok b →
  (let? items := map_ok ser ys in serializeFixVec items) = Ok b → view <$> xs = view <$> ys.
Proof.
  intros Hk Hd Hs Hxs Hys Hx Hy. ok_inv Hx as bs Ebs. ok_inv Hy as bs' Ebs'.
  assert (bs = bs') as <-; [|exact (map_determines P ser view xs ys bs Hd Hxs Hys Ebs Ebs')].
  exact (fixvec_inj k _ _ b Hk (map_sized P ser k xs bs Hs Hxs Ebs) (map_sized P ser k ys bs' Hs Hys Ebs') Hx Hy).
Qed.

(** The encoding of a transaction determines everything it says. *)
Lemma raw_determines : determines (λ tx, hashes_ok tx = true) serializeRawTransaction view_tx.
Proof.
  intros x y b Px Py Hx Hy. unfold hashes_ok in *. rewrite !andb_true_iff, !forallb_Forall in Px, Py.
  destruct Px as [[Pxd Pxh] Pxi], Py as [[Pyd Pyh] Pyi].
  unfold serializeRawTransaction in *.
  ok_inv Hx as v Ev. ok_inv Hx as vb Evb. ok_inv Hx as deps Ed. ok_inv Hx as hs Eh. ok_inv Hx as hb Ehb.
  ok_inv Hx as ins Ei. ok_inv Hx as outs Eo. ok_inv Hx as da Eda. ok_inv Hx as db Edb.
  ok_inv Hy as v' Ev'. ok_inv Hy as vb' Evb'. ok_inv Hy as deps' Ed'. ok_inv Hy as hs' Eh'. ok_inv Hy as hb' Ehb'.
  ok_inv Hy as ins' Ei'. ok_inv Hy as outs' Eo'. ok_inv Hy as da' Eda'. ok_inv Hy as db' Edb'.
  pose proof (dynvec_inj _ _ _ Hx Hy) as E. injection E as -> -> -> -> -> ->.
  assert (hexToBigInt (version x) = hexToBigInt (version y)) as E1.
  { apply u32ToLeBytes_Ok in Evb as [Hv ->], Evb' as [Hv' E]. apply (to_le_bytes_inj 4) in E; [congruence|lia..]. }
  assert (view_dep <$> cellDeps x = view_dep <$> cellDeps y) as E2
    by exact (fixed_vec_determines _ _ _ 37 _ _ _ ltac:(lia) dep_determines dep_sized Pxd Pyd Ed Ed').
  assert (view_input <$> inputs x = view_input <$> inputs y) as E4
    by exact (fixed_vec_determines _ _ _ 44 _ _ _ ltac:(lia) input_determines input_sized Pxi Pyi Ei Ei').
  assert (hs = hs') as <-.
  { exact (fixvec_inj 32 _ _ _ ltac:(lia) (map_sized _ _ 32 _ _ hash32_Ok Pxh Eh) (map_sized _ _ 32 _ _ hash32_Ok Pyh Eh') Ehb Ehb'). }
  assert (view_output <$> outputs x = view_output <$> outputs y) as E5.
  { unfold serializeCellOutputVec in *. ok_inv Eo as os Eos. ok_inv Eo' as os' Eos'.
    pose proof (dynvec_inj _ _ _ Eo Eo') as <-.
    exact (map_determines _ _ _ _ _ _ output_determines (Forall_true _ _ (λ _, I)) (Forall_true _ _ (λ _, I)) Eos Eos'). }
  pose proof (bytes_vec_inj _ _ _ Edb Edb') as <-.
  unfold view_tx. by rewrite E1, E2, (hexes_determine _ _ _ Eh Eh'), E4, E5, (hexes_determine _ _ _ Eda Eda').
Qed.
