(* ===== verification/SdkTransfer.v ===== *)
(** * SdkTransfer: building, checking and sealing a transfer (src/sdk/src/wallet.ts)

    Coin selection over the live cells of the wallet, the fee and the change, the preflight
    checks, and the signed transaction.  Hashing and signing are calls into the WASM module,
    which is not in the repository: they are the interface [Wasm]. *)

From S2P Require Import Prelude Machine Text Witness SdkUtil SdkAddress SdkMolecule.
Open Scope Z_scope.
Local Open Scope rust_scope.

(** constants.ts *)
Definition SECRET_KEY_LEN : Z := 4032.
Definition SHANNONS_PER_CKB : Z := 100000000.
Definition DEFAULT_FEE_RATE : Z := 1000.

(** types.ts *)
Record LiveCell := {
  blockNumber : list byte;
  outPoint : OutPoint;
  output : CellOutput;
  outputData : list byte;
  txIndex : list byte }.
Record BuildTransferOptions := {
  cells : list LiveCell;
  fromLock : LockScript;
  toLock : LockScript;
  amount : quantity;
  cellDep : CellDep;
  sender_network : Network;
  changeLock : option LockScript;
  feeRate : option quantity }.
Record UnsignedTransferTransaction := {
  rawTransaction : RawTransaction;
  placeholderTransaction : Transaction;
  fee : Z;
  inputCapacity : Z;
  outputCapacity : Z;
  changeCapacity : Z;
  selectedCells : list LiveCell;
  txSize : Z }.

(** ** wallet.ts *)
Definition SCRIPT_SIZE_BASE : Z := 32 + 1.
Definition CELL_OUTPUT_BASE : Z := 8.

Definition normalizeBigInt (value : quantity) : result Z SdkError :=
  match value with
  | QBigInt z => Ok z
  | QNumber (Some n) => if negb (is_safe_integer n) then Err UnsafeInteger else Ok n
  | QNumber None => Err UnsafeInteger
  | QString s => if starts_with (bstr "0x") s then hexToBigInt s else BigInt s
  end.

Definition minimumCellCapacity (lock : LockScript) (dataHex : list byte) (type : option LockScript) :
    result Z SdkError :=
  let? lockArgs := hexToBytes (script_args lock) in
  let lockBytes := SCRIPT_SIZE_BASE + zlen lockArgs in
  let? typeBytes := match type with
                    | Some t => let? a := hexToBytes (script_args t) in Ok (SCRIPT_SIZE_BASE + zlen a)
                    | None => Ok 0
                    end in
  let? data := hexToBytes dataHex in
  Ok ((CELL_OUTPUT_BASE + lockBytes + typeBytes + zlen data) * SHANNONS_PER_CKB).

Definition sameLock (left right : LockScript) : bool :=
  bool_decide (codeHash left = codeHash right) && bool_decide (hashType left = hashType right) &&
  bool_decide (script_args left = script_args right).

(** [Array.from({ length: n }, (_, index) => index === 0 ? first : rest)]. *)
Definition witness_list (n : nat) (lock : list byte) : result (list (list byte)) SdkError :=
  map_ok (λ index : nat, match index with O => encodeWitnessArgs (Some lock) | S _ => encodeWitnessArgs None end) (seq 0 n).

Definition withPlaceholderWitnesses (tx : RawTransaction) (witnessCount : nat) : result Transaction SdkError :=
  let? ws := witness_list witnessCount (zreplicate WITNESS_LOCK_BYTES x00) in
  Ok {| raw := tx; witnesses := ws |}.

Definition estimateTransactionSize (tx : RawTransaction) (witnessCount : nat) : result Z SdkError :=
  let? t := withPlaceholderWitnesses tx witnessCount in
  let? b := serializeTransaction t in
  Ok (zlen b).

Definition estimateTransactionFee (tx : RawTransaction) (feeRate : Z) (witnessCount : nat) : result Z SdkError :=
  let? size := estimateTransactionSize tx witnessCount in
  Ok ((size * feeRate + 999) ÷ 1000).

(** The cells in the order of their capacities.  [sort] is stable, and compares nothing in
    an array of fewer than two cells. *)
Fixpoint insert_cell (k : Z) (c : LiveCell) (l : list (Z * LiveCell)) : list (Z * LiveCell) :=
  match l with
  | [] => [(k, c)]
  | (k', c') :: l' => if k <? k' then (k, c) :: l else (k', c') :: insert_cell k c l'
  end.
Definition sort_cells (cells : list LiveCell) : result (list LiveCell) SdkError :=
  if zlen cells <? 2 then Ok cells
  else
    let? keys := map_ok (λ c, hexToBigInt (capacity (output c))) cells in
    Ok (snd <$> fold_left (λ l kc, insert_cell kc.1 kc.2 l) (zip keys cells) []).

Section build.
Context (fromLock toLock changeLock : LockScript) (amount feeRate : Z) (cellDep : CellDep).

(** The rest of a round of the loop once a cell was added: [None] continues with the next
    cell. *)
Definition try_selection (selected : list LiveCell) (inputCapacity : Z) :
    result (option UnsignedTransferTransaction) SdkError :=
  let? amountHex := toHexQuantity (QBigInt amount) in
  let tentativeOutputs := [{| capacity := amountHex; lock := toLock; type_ := None |}] in
  let outputsData := [bstr "0x"] in
  let rawTx := {| version := bstr "0x0"; cellDeps := [cellDep]; headerDeps := [];
                  inputs := (λ c, {| previousOutput := outPoint c; since := bstr "0x0" |}) <$> selected;
                  outputs := tentativeOutputs; outputsData := outputsData |} in
  let? fee := estimateTransactionFee rawTx feeRate (length selected) in
  let adjustedChange := inputCapacity - amount - fee in
  if adjustedChange <? 0 then Ok None
  else
    let? minimumChange := minimumCellCapacity changeLock (bstr "0x") None in
    if (0 <? adjustedChange) && (adjustedChange <? minimumChange) then Ok None
    else
      let? changeOutput := if 0 <? adjustedChange then
                             let? h := toHexQuantity (QBigInt adjustedChange) in
                             Ok [{| capacity := h; lock := changeLock; type_ := None |}]
                           else Ok [] in
      let finalized := {| version := version rawTx; cellDeps := cellDeps rawTx; headerDeps := headerDeps rawTx;
                          inputs := inputs rawTx; outputs := tentativeOutputs ++ changeOutput;
                          outputsData := outputsData ++ if 0 <? adjustedChange then [bstr "0x"] else [] |} in
      let? txSize := estimateTransactionSize finalized (length selected) in
      let? placeholder := withPlaceholderWitnesses finalized (length selected) in
      Ok (Some {| rawTransaction := finalized; placeholderTransaction := placeholder; fee := fee;
                  inputCapacity := inputCapacity; outputCapacity := amount + adjustedChange;
                  changeCapacity := adjustedChange; selectedCells := selected; txSize := txSize |}).

Fixpoint select_cells (todo selected : list LiveCell) (inputCapacity : Z) :
    result UnsignedTransferTransaction SdkError :=
  match todo with
  | [] => Err InsufficientCapacity
  | cell :: todo =>
    if negb (sameLock (lock (output cell)) fromLock) then select_cells todo selected inputCapacity
    else
      let selected := selected ++ [cell] in
      let? c := hexToBigInt (capacity (output cell)) in
      let inputCapacity := inputCapacity + c in
      let? r := try_selection selected inputCapacity in
      match r with
      | Some best => Ok best
      | None => select_cells todo selected inputCapacity
      end
  end.
End build.

Definition change_lock (options : BuildTransferOptions) : LockScript := default (fromLock options) (changeLock options).

Definition buildTransferTransaction (options : BuildTransferOptions) : result UnsignedTransferTransaction SdkError :=
  let? amt := normalizeBigInt (amount options) in
  let? rate := normalizeBigInt (default (QBigInt DEFAULT_FEE_RATE) (feeRate options)) in
  let? minimumRecipientCapacity := minimumCellCapacity (toLock options) (bstr "0x") None in
  if amt <? minimumRecipientCapacity then Err AmountBelowMinimum
  else
    let? sortedCells := sort_cells (cells options) in
    select_cells (fromLock options) (toLock options) (change_lock options) amt rate (cellDep options) sortedCells [] 0.

(** ** The preflight checks *)
Record TransferPreflight := {
  preflight_amount : Z;
  recipientMinimumCapacity : Z;
  minimumChangeCapacity : Z;
  unsigned : UnsignedTransferTransaction }.

Definition recipientMatchesNetwork (sender recipient : Network) : bool :=
  match sender with
  | mainnet => bool_decide (recipient = mainnet)
  | _ => bool_decide (recipient ≠ mainnet)
  end.

Fixpoint total_capacity (cells : list LiveCell) (sum : Z) : result Z SdkError :=
  match cells with
  | [] => Ok sum
  | cell :: cells => let? c := hexToBigInt (capacity (output cell)) in total_capacity cells (sum + c)
  end.

Definition validateTransferRequest (options : BuildTransferOptions) (recipientNetwork : option Network) :
    result TransferPreflight SdkError :=
  if match recipientNetwork with Some n => negb (recipientMatchesNetwork (sender_network options) n) | None => false end
  then Err InvalidRecipientNetwork
  else
    let? amt := normalizeBigInt (amount options) in
    let? recipientMin := minimumCellCapacity (toLock options) (bstr "0x") None in
    let? changeMin := minimumCellCapacity (change_lock options) (bstr "0x") None in
    if amt <? recipientMin then Err AmountBelowMinimum
    else
      let? total := total_capacity (filter (λ c, sameLock (lock (output c)) (fromLock options) = true) (cells options)) 0 in
      if total <? amt then Err InsufficientTotal
      else
        match buildTransferTransaction options with
        | Ok u => Ok {| preflight_amount := amt; recipientMinimumCapacity := recipientMin;
                        minimumChangeCapacity := changeMin; unsigned := u |}
        | Err InsufficientCapacity => Err InsufficientForFee
        | Err e => Err e
        end.

(** ** Sealing *)

(** What the wallet uses of [WasmApi]; SdkWasm.v implements it over the exports of the
    module. *)
Class Wasm := {
  hashPubkey : list byte → result (list byte) SdkError;
  wasm_ckbHash : list byte → result (list byte) SdkError;
  signMessage : list byte → list byte → result (list byte) SdkError;
}.

Section seal.
Context `{W : Wasm}.

(** crypto.ts and hash.ts *)
Definition ckbHash (data : list byte) : result (list byte) SdkError :=
  let? output := wasm_ckbHash data in
  if negb (zlen output =? LOCK_ARGS_LEN) then Err HashLength else Ok output.
Definition computeLockArgs (publicKey : list byte) : result (list byte) SdkError :=
  let? output := hashPubkey publicKey in
  if negb (zlen output =? LOCK_ARGS_LEN) then Err LockArgsLength else Ok output.
Definition signTxHash (secretKey txHash : list byte) : result (list byte) SdkError :=
  if negb (zlen secretKey =? SECRET_KEY_LEN) then Err SecretKeyLength else signMessage secretKey txHash.

(** lock.ts *)
Definition buildLockScript (code_hash : list byte) (hash_type : ScriptHashType) (publicKey : list byte) :
    result LockScript SdkError :=
  let? args := computeLockArgs publicKey in
  Ok {| codeHash := code_hash; hashType := hash_type; script_args := bytesToHex args |}.

Definition computeTransactionHash (tx : RawTransaction) : result (list byte) SdkError :=
  let? b := serializeRawTransaction tx in ckbHash b.

Record SignedTransaction := { transaction : Transaction; signed_txHash : list byte; signed_witnessLock : list byte }.

Definition sealTransaction (tx : RawTransaction) (publicKey secretKey : list byte) (witnessCount : option nat) :
    result SignedTransaction SdkError :=
  let? txHashBytes := computeTransactionHash tx in
  let? signature := signTxHash secretKey txHashBytes in
  let? witnessLock := match buildWitnessLock publicKey signature with Ok w => Ok w | Err e => Err (WitnessThrew e) end in
  let? ws := witness_list (default (length (inputs tx)) witnessCount) witnessLock in
  Ok {| transaction := {| raw := tx; witnesses := ws |}; signed_txHash := bytesToHex txHashBytes;
        signed_witnessLock := bytesToHex witnessLock |}.

Definition buildSignedTransfer (options : BuildTransferOptions) (publicKey secretKey : list byte) :
    result (UnsignedTransferTransaction * SignedTransaction) SdkError :=
  let? u := buildTransferTransaction options in
  let? s := sealTransaction (rawTransaction u) publicKey secretKey (Some (length (selectedCells u))) in
  Ok (u, s).
End seal.
