(* ===== verification/SdkSizes.v ===== *)
(** * SdkSizes: how large the serialized transactions are

    A table or a vector serializes whenever it fits in 32 bits, and the witnesses the wallet
    attaches have a size known beforehand: the size estimated with placeholders is that of
    the sealed transaction. *)

From S2P Require Import Prelude Machine Text Witness SdkUtil SdkAddress SdkMolecule SdkTransfer.
Open Scope Z_scope.
Local Open Scope rust_scope.

(** ** What fits serializes *)
Lemma u32_fits n : 0 <= n < 2 ^ 32 → u32ToLeBytes n = Ok (to_le_bytes 4 n).
Proof. intros H. by apply u32ToLeBytes_Ok. Qed.

Lemma offsets_from_total items : ∀ offset, 0 <= offset → offset + zlen (concat items) < 2 ^ 32 →
  ∃ r, offsets_from offset items = Ok r.
Proof.
  induction items as [|item items IH]; intros offset H0 H; cbn [offsets_from concat] in *; [by eexists|].
  rewrite zlen_app in H. pose proof (zlen_nonneg item). pose proof (zlen_nonneg (concat items)).
  rewrite u32_fits, result_bind_Ok by lia.
  destruct (IH (offset + zlen item)) as [r ->]; [lia|lia|]. by eexists.
Qed.

Lemma dynvec_total items : 4 + zlen items * 4 + zlen (concat items) < 2 ^ 32 → ∃ b, serializeDynVec items = Ok b.
Proof.
  intros H. unfold serializeDynVec. pose proof (zlen_nonneg items). pose proof (zlen_nonneg (concat items)).
  destruct (offsets_from_total items (4 + zlen items * 4)) as [r E]; [lia|lia|].
  rewrite E, result_bind_Ok. apply offsets_from_Ok in E as [_ E].
  rewrite u32_fits, result_bind_Ok by lia. rewrite concatBytes_ok. by eexists.
Qed.

Lemma concat_singletons (bs : list byte) : concat ((λ b, [b]) <$> bs) = bs.
Proof. induction bs as [|b bs IH]; [done|]. cbn. by rewrite IH. Qed.

Lemma serializeBytes_ok bs : zlen bs < 2 ^ 32 → serializeBytes bs = Ok (to_le_bytes 4 (zlen bs) ++ bs).
Proof.
  intros H. apply fixvec_ok. rewrite concat_singletons. unfold zlen in *. by rewrite length_fmap.
Qed.

Lemma zlen_bytes bs b : serializeBytes bs = Ok b → zlen b = 4 + zlen bs.
Proof.
  intros [_ ->]%fixvec_ok. rewrite concat_singletons, zlen_app, zlen_to_le_bytes by lia. lia.
Qed.

(** The length of a literal table. *)
Ltac table_size := rewrite !zlen_app, !zlen_cons, ?(zlen_nil (A:=byte)), ?(zlen_nil (A:=list byte)).

(** ** Witnesses *)
Lemma witness_args_size lock w : encodeWitnessArgs lock = Ok w →
  ∃ t, w = bytesToHex t ∧ zlen t = match lock with Some l => 20 + zlen l | None => 16 end.
Proof.
  unfold encodeWitnessArgs, serializeTable. intros H. ok_inv H as l El. cbn [encodeOptionBytes] in H. rewrite !result_bind_Ok in H.
  ok_inv H as t Et. apply Ok_inj in H as <-. exists t. split; [done|]. apply zlen_dynvec in Et as ->.
  cbn [concat]. table_size. destruct lock; cbn in El; [apply zlen_bytes in El as ->; lia|]. by apply Ok_inj in El as <-.
Qed.

Lemma witness_args_total lock : zlen (default [] lock) < 2 ^ 31 → ∃ w, encodeWitnessArgs lock = Ok w.
Proof.
  intros H. unfold encodeWitnessArgs, serializeTable.
  assert (∃ l, encodeOptionBytes lock = Ok l ∧ zlen l <= 4 + zlen (default [] lock)) as (l & -> & Hl).
  { destruct lock as [l|]; cbn in *; [|exists []; split; [done|by rewrite zlen_nil]].
    rewrite serializeBytes_ok by lia. eexists. split; [done|]. rewrite zlen_app, zlen_to_le_bytes by lia. lia. }
  cbn [encodeOptionBytes]. rewrite !result_bind_Ok.
  destruct (dynvec_total [l; []; []]) as [t ->]; [|by eexists].
  cbn [concat]. table_size. lia.
Qed.

Lemma witness_list_total n lock : zlen lock < 2 ^ 31 → ∃ ws, witness_list n lock = Ok ws.
Proof.
  intros H. unfold witness_list. induction (seq 0 n) as [|i l [ws IH]]; [by exists []|].
  cbn [map_ok]. rewrite IH. destruct (witness_args_total (match i with O => Some lock | S _ => None end)) as [w E].
  - destruct i; cbn; [done|]. by rewrite zlen_nil.
  - exists (w :: ws). by destruct i; rewrite E, !result_bind_Ok.
Qed.

(** The bytes of the witnesses: the first carries the lock, the others are empty. *)
Definition witness_bytes (n : nat) (lock : list byte) : Z :=
  match n with O => 0 | S n => 20 + zlen lock + 16 * Z.of_nat n end.

Lemma witness_list_size n lock ws : witness_list n lock = Ok ws →
  ∃ ts, map_ok hexToBytes ws = Ok ts ∧ zlen ts = Z.of_nat n ∧ zlen (concat ts) = witness_bytes n lock.
Proof.
  assert (∀ m k ws, map_ok (λ index : nat, match index with O => encodeWitnessArgs (Some lock) | S _ => encodeWitnessArgs None end) (seq (S k) m) = Ok ws →
    ∃ ts, map_ok hexToBytes ws = Ok ts ∧ zlen ts = Z.of_nat m ∧ zlen (concat ts) = 16 * Z.of_nat m) as Htail.
  { intros m. induction m as [|m IH]; intros k vs H; cbn [seq map_ok] in H.
    - apply Ok_inj in H as <-. exists []. by rewrite !zlen_nil.
    - ok_inv H as w Ew. ok_inv H as vs' E. apply Ok_inj in H as <-. destruct (IH _ _ E) as (ts & E1 & E2 & E3).
      apply witness_args_size in Ew as (t & -> & Ht). exists (t :: ts). cbn [map_ok concat].
      rewrite hexToBytes_bytesToHex, E1, !result_bind_Ok, zlen_cons, zlen_app, E2, E3, Ht. split; [done|lia]. }
  destruct n as [|n]; unfold witness_list; cbn [seq map_ok].
  - intros [= <-]. exists []. by rewrite !zlen_nil.
  - intros H. ok_inv H as w Ew. ok_inv H as vs' E. apply Ok_inj in H as <-. destruct (Htail _ _ _ E) as (ts & E1 & E2 & E3).
    apply witness_args_size in Ew as (t & -> & Ht). exists (t :: ts). cbn [map_ok concat].
    rewrite hexToBytes_bytesToHex, E1, !result_bind_Ok, zlen_cons, zlen_app, E2, E3, Ht. split; [done|]. unfold witness_bytes. lia.
Qed.

Lemma bytes_vec_size ts b : serializeBytesVec ts = Ok b → zlen b = 4 + zlen ts * 8 + zlen (concat ts).
Proof.
  unfold serializeBytesVec. intros H. ok_inv H as items E. apply zlen_dynvec in H as ->. apply map_ok_inv in E.
  assert (zlen items = zlen ts ∧ zlen (concat items) = zlen ts * 4 + zlen (concat ts)); [|lia].
  induction E as [|t i ts items Hb _ IH]; [done|]. cbn [concat]. rewrite !zlen_cons, !zlen_app.
  apply zlen_bytes in Hb. lia.
Qed.

Lemma bytes_vec_total ts : 4 + zlen ts * 8 + zlen (concat ts) < 2 ^ 32 → ∃ b, serializeBytesVec ts = Ok b.
Proof.
  intros H. unfold serializeBytesVec.
  assert (zlen (concat ts) < 2 ^ 32 → ∃ items, map_ok serializeBytes ts = Ok items ∧ zlen items = zlen ts ∧
    zlen (concat items) = zlen ts * 4 + zlen (concat ts)) as Hitems.
  { clear H. induction ts as [|t ts IH]; cbn [map_ok concat]; [by exists []|]. rewrite zlen_app. intros H.
    pose proof (zlen_nonneg t). pose proof (zlen_nonneg (concat ts)). destruct IH as (items & -> & E1 & E2); [lia|].
    rewrite serializeBytes_ok by lia. rewrite !result_bind_Ok. eexists. split; [done|]. cbn [concat].
    rewrite !zlen_cons, !zlen_app, E1, E2, zlen_to_le_bytes by lia. lia. }
  pose proof (zlen_nonneg ts). destruct Hitems as (items & -> & E1 & E2); [lia|]. rewrite result_bind_Ok.
  apply dynvec_total. lia.
Qed.

(** ** Transactions *)
Definition transaction_size (r : list byte) (n : nat) (lock : list byte) : Z :=
  16 + zlen r + 8 * Z.of_nat n + witness_bytes n lock.

Lemma transaction_serializes tx r n lock ws : serializeRawTransaction tx = Ok r → witness_list n lock = Ok ws →
  transaction_size r n lock < 2 ^ 32 →
  ∃ b, serializeTransaction {| raw := tx; witnesses := ws |} = Ok b ∧ zlen b = transaction_size r n lock.
Proof.
  intros Hr (ts & E1 & E2 & E3)%witness_list_size Hs. unfold transaction_size in *. unfold serializeTransaction. cbn [raw witnesses].
  rewrite Hr, E1, !result_bind_Ok. pose proof (zlen_nonneg r). destruct (bytes_vec_total ts) as [v Ev]; [lia|].
  rewrite Ev, result_bind_Ok. apply bytes_vec_size in Ev. unfold serializeTable. destruct (dynvec_total [r; v]) as [b Eb].
  - cbn [concat]. table_size. lia.
  - exists b. split; [done|]. apply zlen_dynvec in Eb as ->. cbn [concat]. table_size. lia.
Qed.

Lemma estimate_ok tx r n : serializeRawTransaction tx = Ok r → let size := transaction_size r n (zreplicate WITNESS_LOCK_BYTES x00) in
  size < 2 ^ 32 → estimateTransactionSize tx n = Ok size ∧ ∃ t, withPlaceholderWitnesses tx n = Ok t.
Proof.
  intros Hr size Hs. unfold estimateTransactionSize, withPlaceholderWitnesses.
  destruct (witness_list_total n (zreplicate WITNESS_LOCK_BYTES x00)) as [ws E]; [by rewrite zlen_replicate by done|].
  rewrite E, !result_bind_Ok. destruct (transaction_serializes tx r n _ ws Hr E Hs) as (b & -> & Hb).
  rewrite result_bind_Ok, Hb. split; [done|by eexists].
Qed.

Lemma transaction_Ok tx n lock ws b : witness_list n lock = Ok ws → serializeTransaction {| raw := tx; witnesses := ws |} = Ok b →
  ∃ r, serializeRawTransaction tx = Ok r ∧ zlen b = transaction_size r n lock ∧ zlen b < 2 ^ 32.
Proof.
  intros (ts & E1 & E2 & E3)%witness_list_size. unfold serializeTransaction. cbn [raw witnesses]. intros H.
  ok_inv H as r Er. rewrite E1, !result_bind_Ok in H. ok_inv H as v Ev. exists r. split; [done|].
  apply bytes_vec_size in Ev. pose proof (zlen_dynvec _ _ H) as Hb. apply dynvec_Ok in H as [H _]. rewrite Hb. split; [|done].
  cbn [concat] in *. unfold transaction_size. revert H. table_size. lia.
Qed.

(** The size depends on the length of the witness lock only. *)
Lemma placeholder_size tx n lock ws size : zlen lock = WITNESS_LOCK_BYTES → witness_list n lock = Ok ws →
  estimateTransactionSize tx n = Ok size →
  ∃ b, serializeTransaction {| raw := tx; witnesses := ws |} = Ok b ∧ zlen b = size.
Proof.
  intros Hl E. unfold estimateTransactionSize, withPlaceholderWitnesses. intros H. ok_inv H as t Et. ok_inv Et as ws' E'.
  apply Ok_inj in Et as <-. ok_inv H as b Eb. apply Ok_inj in H as <-.
  destruct (transaction_Ok _ _ _ _ _ E' Eb) as (r & Hr & Hb & Hmax).
  assert (transaction_size r n (zreplicate WITNESS_LOCK_BYTES x00) = transaction_size r n lock) as Hs
    by (unfold transaction_size, witness_bytes; by rewrite Hl, zlen_replicate by done).
  rewrite Hs in Hb. rewrite Hb in *. by apply (transaction_serializes tx r n lock ws Hr E).
Qed.

(** ** An example, after the SDK's tests: 80 CKB from cells of 100 and 90 CKB *)
Definition demo_script : LockScript :=
  {| codeHash := bytesToHex (zreplicate 32 x11); hashType := HashDataN 2; script_args := bytesToHex (zreplicate 32 x22) |}.
Definition demo_cell (ckb : Z) (b : byte) : LiveCell :=
  {| blockNumber := bstr "0x1"; outPoint := {| txHash := bytesToHex (zreplicate 32 b); index_ := bstr "0x0" |};
     output := {| capacity := bstr "0x" ++ to_radix 16 (ckb * SHANNONS_PER_CKB); lock := demo_script; type_ := None |};
     outputData := bstr "0x"; txIndex := bstr "0x0" |}.
Definition demo_options : BuildTransferOptions :=
  {| cells := [demo_cell 100 xbb; demo_cell 90 xaa]; fromLock := demo_script; toLock := demo_script;
     amount := QBigInt (80 * SHANNONS_PER_CKB);
     cellDep := {| dep_outPoint := {| txHash := bytesToHex (zreplicate 32 x33); index_ := bstr "0x0" |}; depType := code |};
     sender_network := testnet; changeLock := None; feeRate := None |}.

(** The transactions the two rounds try, and the one that is built. *)
Definition demo_inputs (cs : list LiveCell) : list TransactionInput :=
  (λ c, {| previousOutput := outPoint c; since := bstr "0x0" |}) <$> cs.
Definition demo_output (z : Z) : CellOutput :=
  {| capacity := bstr "0x" ++ to_radix 16 z; lock := demo_script; type_ := None |}.
Definition demo_tx (cs : list LiveCell) (zs : list Z) : RawTransaction :=
  {| version := bstr "0x0"; cellDeps := [cellDep demo_options]; headerDeps := []; inputs := demo_inputs cs;
     outputs := demo_output <$> zs; outputsData := (λ _, bstr "0x") <$> zs |}.

Lemma demo_estimate cs zs k :
  match serializeRawTransaction (demo_tx cs zs) with Ok r => zlen r =? k | Err _ => false end = true → k < 2 ^ 31 →
  (length cs < 100)%nat → cs ≠ [] →
  estimateTransactionSize (demo_tx cs zs) (length cs) = Ok (k + 24 * Z.of_nat (length cs) + 5289) ∧
  ∃ t, withPlaceholderWitnesses (demo_tx cs zs) (length cs) = Ok t.
Proof.
  destruct (serializeRawTransaction _) as [r|] eqn:E; [|done]. intros Hk%Z.eqb_eq Hmax Hn Hne.
  pose proof (estimate_ok (demo_tx cs zs) r (length cs) E) as H. cbv zeta in H.
  assert (transaction_size r (length cs) (zreplicate WITNESS_LOCK_BYTES x00) = k + 24 * Z.of_nat (length cs) + 5289) as Hs.
  { unfold transaction_size, witness_bytes. destruct cs as [|c cs]; [by destruct Hne|]. cbn [length].
    rewrite zlen_replicate by done. unfold WITNESS_LOCK_BYTES, PUBLIC_KEY_LEN, SIGNATURE_LEN. lia. }
  rewrite Hs in H. apply H. lia.
Qed.

(** A round over cells of the example, from the sizes with and without change. *)
Lemma demo_round cs inp amt size s' pl : 0 <= amt →
  estimateTransactionSize (demo_tx cs [amt]) (length cs) = Ok size →
  let change := inp - amt - (size * 1000 + 999) ÷ 1000 in
  let minChange := 73 * SHANNONS_PER_CKB in
  change ≠ 0 →
  estimateTransactionSize (demo_tx cs [amt; change]) (length cs) = Ok s' →
  withPlaceholderWitnesses (demo_tx cs [amt; change]) (length cs) = Ok pl →
  try_selection demo_script demo_script amt 1000 (cellDep demo_options) cs inp =
    if change <? minChange then Ok None
    else Ok (Some {| rawTransaction := demo_tx cs [amt; change]; placeholderTransaction := pl; fee := (size * 1000 + 999) ÷ 1000;
                     inputCapacity := inp; outputCapacity := amt + change; changeCapacity := change;
                     selectedCells := cs; txSize := s' |}).
Proof.
  intros Ha E change minChange H0 Es Ep. unfold try_selection, estimateTransactionFee. unfold toHexQuantity at 1, bigint_to_hex at 1.
  rewrite (proj2 (Z.ltb_ge amt 0)), result_bind_Ok by done. cbv zeta.
  match goal with |- context [estimateTransactionSize ?t ?n] => change (estimateTransactionSize t n) with (estimateTransactionSize (demo_tx cs [amt]) n) end.
  rewrite E, !result_bind_Ok. fold change. change (minimumCellCapacity demo_script (bstr "0x") None) with (Ok (E := SdkError) minChange).
  rewrite result_bind_Ok. destruct (Z.ltb_spec change 0) as [Hneg|Hpos].
  { rewrite (proj2 (Z.ltb_lt change minChange)); [done|]. unfold minChange, SHANNONS_PER_CKB. lia. }
  rewrite (proj2 (Z.ltb_lt 0 change)) by lia. cbn [andb]. destruct (change <? minChange); [done|].
  unfold toHexQuantity, bigint_to_hex. rewrite (proj2 (Z.ltb_ge change 0)), !result_bind_Ok by done.
  match goal with |- context [estimateTransactionSize ?t ?n] => change (estimateTransactionSize t n) with (estimateTransactionSize (demo_tx cs [amt; change]) n) end.
  rewrite Es, result_bind_Ok.
  match goal with |- context [withPlaceholderWitnesses ?t ?n] => change (withPlaceholderWitnesses t n) with (withPlaceholderWitnesses (demo_tx cs [amt; change]) n) end.
  by rewrite Ep, result_bind_Ok.
Qed.

(** Both cells are spent, as the smaller would leave too little change. *)
Example transfer_example :
  match buildTransferTransaction demo_options with
  | Ok u => outPoint <$> selectedCells u = [outPoint (demo_cell 90 xaa); outPoint (demo_cell 100 xbb)] ∧
            inputCapacity u = 190 * SHANNONS_PER_CKB ∧ changeCapacity u = 110 * SHANNONS_PER_CKB - fee u ∧
            fee u = 5635 ∧ txSize u = 5756
  | Err _ => False
  end.
Proof.
  set (c90 := demo_cell 90 xaa). set (c100 := demo_cell 100 xbb). set (amt := 80 * SHANNONS_PER_CKB).
  destruct (demo_estimate [c90] [amt] 254) as [E1 _]; [vm_compute; reflexivity|lia|cbn; lia|done|].
  destruct (demo_estimate [c90] [amt; 10 * SHANNONS_PER_CKB - 5567] 375) as [F1 [p1 P1]]; [vm_compute; reflexivity|lia|cbn; lia|done|].
  destruct (demo_estimate [c90; c100] [amt] 298) as [E2 _]; [vm_compute; reflexivity|lia|cbn; lia|done|].
  destruct (demo_estimate [c90; c100] [amt; 110 * SHANNONS_PER_CKB - 5635] 419) as [F2 [p2 P2]];
    [vm_compute; reflexivity|lia|cbn; lia|done|].
  pose proof (demo_round [c90] (90 * SHANNONS_PER_CKB) amt _ _ _ ltac:(done) E1 ltac:(done) F1 P1) as R1.
  pose proof (demo_round [c90; c100] (190 * SHANNONS_PER_CKB) amt _ _ _ ltac:(done) E2 ltac:(done) F2 P2) as R2.
  unfold buildTransferTransaction.
  assert (sort_cells (cells demo_options) = Ok [c90; c100]) as -> by (vm_compute; reflexivity).
  assert (minimumCellCapacity (toLock demo_options) (bstr "0x") None = Ok (73 * SHANNONS_PER_CKB)) as -> by (vm_compute; reflexivity).
  change (normalizeBigInt (amount demo_options)) with (Ok (E := SdkError) amt).
  change (normalizeBigInt (default (QBigInt DEFAULT_FEE_RATE) (feeRate demo_options))) with (Ok (E := SdkError) 1000).
  change (fromLock demo_options) with demo_script. change (toLock demo_options) with demo_script. rewrite !result_bind_Ok.
  change (amt <? 73 * SHANNONS_PER_CKB) with false. change (change_lock demo_options) with demo_script.
  unfold select_cells.
  assert (sameLock (lock (output c90)) demo_script = true) as -> by (vm_compute; reflexivity).
  assert (sameLock (lock (output c100)) demo_script = true) as -> by (vm_compute; reflexivity).
  assert (hexToBigInt (capacity (output c90)) = Ok (90 * SHANNONS_PER_CKB)) as -> by (vm_compute; reflexivity).
  assert (hexToBigInt (capacity (output c100)) = Ok (100 * SHANNONS_PER_CKB)) as -> by (vm_compute; reflexivity).
  cbn [negb app]. rewrite !result_bind_Ok, Z.add_0_l, R1.
  change (90 * SHANNONS_PER_CKB + 100 * SHANNONS_PER_CKB) with (190 * SHANNONS_PER_CKB). rewrite R2.
  by repeat split.
Qed.
