(* ===== verification/SdkTransferProps.v ===== *)
(** * SdkTransferProps: what a built transfer spends, pays and covers

    Coin selection and change of SdkTransfer.v, the fee against the size, and the sealed
    transaction on chain. *)

From Stdlib Require Import Sorting.Sorted.
From S2P Require Import Prelude Machine Text Witness LockScript LockProtocol.
From S2P Require Import SdkUtil SdkAddress SdkMolecule SdkTransfer SdkSizes.
Open Scope Z_scope.
Local Open Scope rust_scope.

(** ** Sorting *)
Definition cell_capacity (c : LiveCell) : result Z SdkError := hexToBigInt (capacity (output c)).

(** The keys next to the cells are their capacities, in order. *)
Definition keyed (l : list (Z * LiveCell)) : Prop :=
  Forall (λ kc, cell_capacity kc.2 = Ok kc.1) l ∧ StronglySorted Z.le l.*1.

Lemma insert_cell_perm k c l : insert_cell k c l ≡ₚ (k, c) :: l.
Proof.
  induction l as [|[k' c'] l IH]; cbn [insert_cell]; [done|]. destruct (k <? k'); [done|].
  rewrite IH. apply Permutation_swap.
Qed.

Lemma insert_cell_keyed k c l : cell_capacity c = Ok k → keyed l → keyed (insert_cell k c l).
Proof.
  intros Hc [Hk Hs]. split; [by rewrite insert_cell_perm; constructor|]. revert Hs.
  induction l as [|[k' c'] l IH]; cbn; [by repeat constructor|]. intros Hs.
  apply StronglySorted_inv in Hs as [Hs Hf]. destruct (Z.ltb_spec k k'); cbn.
  - constructor; [by constructor|]. constructor; [lia|]. eapply Forall_impl; [done|]. cbn. lia.
  - apply Forall_cons in Hk as [_ Hk]. constructor; [by apply IH|].
    rewrite insert_cell_perm. cbn. by constructor.
Qed.

Lemma sort_cells_ok cs sorted : sort_cells cs = Ok sorted →
  sorted ≡ₚ cs ∧ ∀ keys, map_ok cell_capacity sorted = Ok keys → StronglySorted Z.le keys.
Proof.
  unfold sort_cells. destruct (Z.ltb_spec (zlen cs) 2) as [Hs|Hs].
  - intros [= <-]. split; [done|]. intros keys Hk%map_ok_inv%Forall2_length.
    destruct keys as [|k [|k' keys]]; [by repeat constructor..|]. unfold zlen in Hs. cbn in Hk. lia.
  - intros H. ok_inv H as keys Ek. apply Ok_inj in H as <-. apply map_ok_inv in Ek.
    assert (∀ l, keyed l → keyed (fold_left (λ l kc, insert_cell kc.1 kc.2 l) (zip keys cs) l) ∧
      (fold_left (λ l kc, insert_cell kc.1 kc.2 l) (zip keys cs) l).*2 ≡ₚ cs ++ l.*2) as H.
    { clear Hs. induction Ek as [|c k cs keys Hc _ IH]; intros l Hl; cbn [zip zip_with fold_left fst snd]; [done|].
      destruct (IH _ (insert_cell_keyed k c l Hc Hl)) as [H1 H2]. split; [done|]. rewrite H2, insert_cell_perm.
      cbn. by rewrite Permutation_middle. }
    destruct (H []) as [[H1 H2] H3]; [by split; constructor|]. rewrite app_nil_r in H3. split; [done|].
    intros keys' Hk%map_ok_inv. set (l := fold_left _ _ _) in *.
    assert (keys' = l.*1) as -> by (revert keys' Hk; clear -H1; induction H1 as [|[k c] l Hc _ IH]; intros keys' Hk; cbn in *;
      [by apply Forall2_nil_inv_l in Hk|apply Forall2_cons_inv_l in Hk as (k' & ks & Hk & Hks & ->); rewrite (IH ks Hks); cbn in Hc; congruence]).
    done.
Qed.

(** ** Sizes *)
Lemma map_ok_snoc {A B E} (f : A → result B E) l a bs :
  map_ok f (l ++ [a]) = Ok bs → ∃ bs' b, bs = bs' ++ [b] ∧ map_ok f l = Ok bs' ∧ f a = Ok b.
Proof.
  rewrite map_ok_inv. intros (bs' & b' & H1 & H2 & ->)%Forall2_app_inv_l.
  apply Forall2_cons_inv_l in H2 as (b & b'' & Hb & ->%Forall2_nil_inv_l & ->).
  exists bs', b. split; [done|]. split; [by apply map_ok_inv|done].
Qed.

Lemma dynvec_grows {A} (ser : A → result (list byte) SdkError) l a b b' :
  (let? items := map_ok ser l in serializeDynVec items) = Ok b →
  (let? items := map_ok ser (l ++ [a]) in serializeDynVec items) = Ok b' → zlen b < zlen b'.
Proof.
  intros H H'. ok_inv H as items E. ok_inv H' as items' E'. apply map_ok_snoc in E' as (it & x & -> & E' & _).
  assert (it = items) as -> by congruence. apply zlen_dynvec in H as ->, H' as ->.
  rewrite concat_app, !zlen_app. pose_zlen. rewrite zlen_cons, zlen_nil. lia.
Qed.

Definition with_output (tx : RawTransaction) (o : CellOutput) (d : list byte) : RawTransaction :=
  {| version := version tx; cellDeps := cellDeps tx; headerDeps := headerDeps tx; inputs := inputs tx;
     outputs := outputs tx ++ [o]; outputsData := outputsData tx ++ [d] |}.

(** One more output makes a transaction larger. *)
Lemma output_grows tx o d b b' :
  serializeRawTransaction tx = Ok b → serializeRawTransaction (with_output tx o d) = Ok b' → zlen b < zlen b'.
Proof.
  intros Hx Hy. unfold serializeRawTransaction in *. cbn [with_output version cellDeps headerDeps inputs outputs outputsData] in Hy.
  ok_inv Hx as v Ev. ok_inv Hx as vb Evb. ok_inv Hx as deps Ed. ok_inv Hx as hs Eh. ok_inv Hx as hb Ehb.
  ok_inv Hx as ins Ei. ok_inv Hx as outs Eo. ok_inv Hx as da Eda. ok_inv Hx as db Edb.
  rewrite result_bind_Ok, Evb, !result_bind_Ok, Ehb, !result_bind_Ok in Hy.
  ok_inv Hy as outs' Eo'. ok_inv Hy as da' Eda'. ok_inv Hy as db' Edb'.
  pose proof (dynvec_grows _ _ _ _ _ Eo Eo') as G1. apply map_ok_snoc in Eda' as (da'' & x & -> & Eda' & _).
  assert (da'' = da) as -> by congruence. pose proof (dynvec_grows _ _ _ _ _ Edb Edb') as G2.
  apply zlen_dynvec in Hx as ->, Hy as ->. cbn [concat]. rewrite !zlen_app, !zlen_cons. lia.
Qed.

Lemma estimate_grows tx o d n s s' :
  estimateTransactionSize tx n = Ok s → estimateTransactionSize (with_output tx o d) n = Ok s' → s < s'.
Proof.
  unfold estimateTransactionSize, withPlaceholderWitnesses. intros H H'. ok_inv H as t Et. ok_inv Et as ws Ews.
  rewrite !result_bind_Ok in H'. apply Ok_inj in Et as <-. ok_inv H as b Eb. apply Ok_inj in H as <-.
  ok_inv H' as b' Eb'. apply Ok_inj in H' as <-. unfold serializeTransaction in *. cbn [raw witnesses] in *.
  ok_inv Eb as r Er. ok_inv Eb as w Ew. ok_inv Eb as wb Ewb. ok_inv Eb' as r' Er'.
  rewrite ?result_bind_Ok, ?Ew, ?result_bind_Ok, ?Ewb, ?result_bind_Ok in Eb'. pose proof (output_grows _ _ _ _ _ Er Er').
  apply zlen_dynvec in Eb as ->, Eb' as ->. cbn [concat]. rewrite !zlen_app, !zlen_cons. lia.
Qed.

(** ** One round of coin selection *)
Definition pays (o : CellOutput) (l : LockScript) (z : Z) : Prop :=
  lock o = l ∧ type_ o = None ∧ hexToBigInt (capacity o) = Ok z.

(** The fee is the rate times a size, rounded up. *)
Definition fee_for (rate size f : Z) : Prop := size * rate <= f * 1000 < size * rate + 1000.

Lemma fee_rounds rate size : 0 <= rate → 0 <= size → fee_for rate size ((size * rate + 999) ÷ 1000).
Proof.
  intros Hr Hs. assert (0 <= size * rate) by (apply Z.mul_nonneg_nonneg; lia).
  unfold fee_for. rewrite Z.quot_div_nonneg by lia. pose proof (Z.div_mod (size * rate + 999) 1000 ltac:(lia)).
  pose proof (Z.mod_pos_bound (size * rate + 999) 1000 ltac:(lia)). lia.
Qed.

(** What a round returns: the selected cells are spent, the amount and the change paid. *)
Definition round_ok (toLock changeLock : LockScript) (amt rate minChange : Z)
    (sel : list LiveCell) (inp : Z) (u : UnsignedTransferTransaction) : Prop :=
  selectedCells u = sel ∧ inputCapacity u = inp ∧
  inputs (rawTransaction u) = (λ c, {| previousOutput := outPoint c; since := bstr "0x0" |}) <$> sel ∧
  raw (placeholderTransaction u) = rawTransaction u ∧
  inputCapacity u = outputCapacity u + fee u ∧ outputCapacity u = amt + changeCapacity u ∧
  (∃ o, pays o toLock amt ∧
     ((changeCapacity u = 0 ∧ outputs (rawTransaction u) = [o] ∧
         (0 <= rate → ∃ size, 0 <= size ∧ size = txSize u ∧ fee_for rate size (fee u))) ∨
      (0 < changeCapacity u ∧ minChange <= changeCapacity u ∧ ∃ o', pays o' changeLock (changeCapacity u) ∧
         outputs (rawTransaction u) = [o; o'] ∧
         (0 <= rate → ∃ size, 0 <= size ∧ size < txSize u ∧ fee_for rate size (fee u)) ∧
         (1000 <= rate → fee u * 1000 < txSize u * rate)))).

Lemma estimate_size_nonneg tx n s : estimateTransactionSize tx n = Ok s → 0 <= s.
Proof. unfold estimateTransactionSize. intros H. ok_inv H as t Et. ok_inv H as b Eb. apply Ok_inj in H as <-. apply zlen_nonneg. Qed.

Lemma try_selection_ok toL chL amt rate dep sel inp minChange u :
  minimumCellCapacity chL (bstr "0x") None = Ok minChange →
  try_selection toL chL amt rate dep sel inp = Ok (Some u) → round_ok toL chL amt rate minChange sel inp u.
Proof.
  unfold try_selection. intros Hmin H. ok_inv H as ah Ea. cbv zeta in H. set (tx := Build_RawTransaction _ _ _ _ _ _) in H at 1.
  ok_inv H as f Ef. unfold estimateTransactionFee in Ef. ok_inv Ef as size Es. apply Ok_inj in Ef as <-.
  set (f := (size * rate + 999) ÷ 1000) in *. destruct (Z.ltb_spec (inp - amt - f) 0) as [|Hge]; [done|].
  rewrite Hmin, result_bind_Ok in H. destruct (hexToBigInt_hex _ _ Ea) as [_ Ha].
  set (o := {| capacity := ah; lock := toL; type_ := None |}) in *. assert (pays o toL amt) as Ho by done.
  pose proof (estimate_size_nonneg _ _ _ Es) as Hs0. destruct (Z.ltb_spec 0 (inp - amt - f)) as [Hpos|Hz]; cbn [andb] in H.
  - destruct (Z.ltb_spec (inp - amt - f) minChange) as [|Hch]; [done|]. ok_inv H as co Eco. ok_inv Eco as ch Ech.
    apply Ok_inj in Eco as <-. ok_inv H as s' Es'. ok_inv H as pl Epl. injection H as <-.
    destruct (hexToBigInt_hex _ _ Ech) as [_ Hc]. unfold withPlaceholderWitnesses in Epl. ok_inv Epl as ws Ews.
    apply Ok_inj in Epl as <-. split; [done|]. split; [done|]. split; [done|]. split; [done|]. cbn. split; [lia|].
    split; [lia|]. exists o. split; [done|]. right. split; [done|]. split; [done|]. eexists. split; [|split; [done|]]; [done|].
    pose proof (estimate_grows tx {| capacity := ch; lock := chL; type_ := None |} (bstr "0x") _ _ _ Es Es') as Hgrow.
    split; [intros Hr; exists size; split; [done|]; split; [done|by apply fee_rounds]|]. intros Hr.
    pose proof (fee_rounds rate size ltac:(lia) Hs0) as [_ Hlt]. fold f in Hlt.
    assert ((size + 1) * rate <= s' * rate) by (apply Z.mul_le_mono_nonneg_r; lia). lia.
  - assert (inp - amt - f = 0) as Hz0 by lia. rewrite result_bind_Ok in H. ok_inv H as s' Es'.
    pose proof (eq_trans (eq_sym Es') Es) as Esize. apply Ok_inj in Esize as ->. ok_inv H as pl Epl. injection H as <-. unfold withPlaceholderWitnesses in Epl. ok_inv Epl as ws Ews.
    apply Ok_inj in Epl as <-. split; [done|]. split; [done|]. split; [done|]. split; [done|]. cbn. split; [lia|].
    split; [lia|]. exists o. split; [done|]. left. split; [done|]. split; [done|]. intros Hr. exists size. split; [done|]. split; [done|by apply fee_rounds].
Qed.

(** ** What a selection must pay

    Written without the builder: the fee is that of the transaction with the recipient's
    output only, and a selection suffices when it pays amount and fee exactly or leaves
    enough for a change cell. *)
Definition payment (toL : LockScript) (amountHex : list byte) (dep : CellDep) (sel : list LiveCell) : RawTransaction :=
  {| version := bstr "0x0"; cellDeps := [dep]; headerDeps := [];
     inputs := (λ c, {| previousOutput := outPoint c; since := bstr "0x0" |}) <$> sel;
     outputs := [{| capacity := amountHex; lock := toL; type_ := None |}]; outputsData := [bstr "0x"] |}.
Definition fee_of (toL : LockScript) (amt rate : Z) (dep : CellDep) (sel : list LiveCell) (f : Z) : Prop :=
  ∃ hex size, toHexQuantity (QBigInt amt) = Ok hex ∧ estimateTransactionSize (payment toL hex dep sel) (length sel) = Ok size ∧
    f = (size * rate + 999) ÷ 1000.
Definition sufficient (amt minChange inp f : Z) : Prop := inp = amt + f ∨ amt + f < inp ∧ amt + f + minChange <= inp.
(** Some quantity or transaction of the payment cannot be serialized. *)
Definition unserializable (toL chL : LockScript) (amt rate : Z) (dep : CellDep) (sel : list LiveCell) (inp : Z) (e : SdkError) : Prop :=
  toHexQuantity (QBigInt amt) = Err e ∨
  ∃ hex, toHexQuantity (QBigInt amt) = Ok hex ∧
    (estimateTransactionSize (payment toL hex dep sel) (length sel) = Err e ∨
     ∃ f, fee_of toL amt rate dep sel f ∧ amt + f < inp ∧
       (toHexQuantity (QBigInt (inp - amt - f)) = Err e ∨
        ∃ ch, toHexQuantity (QBigInt (inp - amt - f)) = Ok ch ∧
          estimateTransactionSize (with_output (payment toL hex dep sel) {| capacity := ch; lock := chL; type_ := None |} (bstr "0x"))
            (length sel) = Err e)).

Lemma placeholder_after_size tx n size : estimateTransactionSize tx n = Ok size → ∃ t, withPlaceholderWitnesses tx n = Ok t.
Proof. unfold estimateTransactionSize. intros H. ok_inv H as t Et. by exists t. Qed.

(** A round accepts exactly the selections that suffice. *)
Lemma try_selection_cases toL chL amt rate dep sel inp minChange :
  minimumCellCapacity chL (bstr "0x") None = Ok minChange →
  match try_selection toL chL amt rate dep sel inp with
  | Ok None => ∃ f, fee_of toL amt rate dep sel f ∧ ¬ sufficient amt minChange inp f
  | Ok (Some u) => fee_of toL amt rate dep sel (fee u) ∧ sufficient amt minChange inp (fee u)
  | Err e => unserializable toL chL amt rate dep sel inp e
  end.
Proof.
  intros Hmin. unfold try_selection. destruct (toHexQuantity (QBigInt amt)) as [hex|e] eqn:Eh; cbn [result_bind]; [|by left].
  cbv zeta. fold (payment toL hex dep sel). unfold estimateTransactionFee.
  destruct (estimateTransactionSize (payment toL hex dep sel) (length sel)) as [size|e] eqn:Es; cbn [result_bind];
    [|right; exists hex; split; [done|by left]].
  set (f := (size * rate + 999) ÷ 1000). assert (Hf : fee_of toL amt rate dep sel f) by (by exists hex, size).
  unfold sufficient. destruct (Z.ltb_spec (inp - amt - f) 0) as [Hneg|Hge]; [exists f; split; [done|lia]|].
  rewrite Hmin. cbn [result_bind]. destruct (Z.ltb_spec 0 (inp - amt - f)) as [Hpos|Hz]; cbn [andb].
  - destruct (Z.ltb_spec (inp - amt - f) minChange); [exists f; split; [done|lia]|].
    destruct (toHexQuantity (QBigInt (inp - amt - f))) as [ch|e] eqn:Ec; cbn [result_bind];
      [|right; exists hex; split; [done|]; right; exists f; split; [done|]; split; [lia|by left]].
    set (tx := with_output (payment toL hex dep sel) {| capacity := ch; lock := chL; type_ := None |} (bstr "0x")).
    match goal with |- context [estimateTransactionSize ?t _] => change t with tx end.
    match goal with |- context [withPlaceholderWitnesses ?t _] => change t with tx end.
    destruct (estimateTransactionSize tx _) as [size'|e] eqn:Es'; cbn [result_bind].
    + destruct (placeholder_after_size _ _ _ Es') as [t ->]. cbn [result_bind fee]. split; [done|lia].
    + right. exists hex. split; [done|]. right. exists f. split; [done|]. split; [lia|]. right. by exists ch.
  - cbn [result_bind]. match goal with |- context [estimateTransactionSize ?t _] => change t with (payment toL hex dep sel) end.
    match goal with |- context [withPlaceholderWitnesses ?t _] => change t with (payment toL hex dep sel) end. rewrite Es. cbn [result_bind]. destruct (placeholder_after_size _ _ _ Es) as [t ->]. cbn [result_bind fee]. split; [done|lia].
Qed.

(** ** The selection *)
Definition sum (zs : list Z) : Z := foldr Z.add 0 zs.

Section selection.
Context (from toL chL : LockScript) (amt rate : Z) (dep : CellDep).
Abbreviation attempt := (try_selection toL chL amt rate dep).
Abbreviation eligible := (filter (λ c, sameLock (lock (output c)) from = true)).

(** With [sel] selected before, trying more and more of [todo] gives [r]. *)
Definition selection_ok (todo sel : list LiveCell) (inp : Z) (r : result UnsignedTransferTransaction SdkError) : Prop :=
  let tried p r := ∀ caps, map_ok cell_capacity p = Ok caps → attempt (sel ++ p) (inp + sum caps) = r in
  match r with
  | Ok u => ∃ more rest caps, eligible todo = more ++ rest ∧ more ≠ [] ∧ map_ok cell_capacity more = Ok caps ∧
      attempt (sel ++ more) (inp + sum caps) = Ok (Some u) ∧
      ∀ p q, more = p ++ q → p ≠ [] → q ≠ [] → tried p (Ok None)
  | Err e =>
      (e = InsufficientCapacity ∧ ∀ p q, eligible todo = p ++ q → p ≠ [] → tried p (Ok None)) ∨
      (∃ c, c ∈ eligible todo ∧ cell_capacity c = Err e) ∨
      (∃ p q caps, eligible todo = p ++ q ∧ map_ok cell_capacity p = Ok caps ∧ attempt (sel ++ p) (inp + sum caps) = Err e)
  end.

Lemma map_cons_inv c p caps : map_ok cell_capacity (c :: p) = Ok caps →
  ∃ k ks, caps = k :: ks ∧ cell_capacity c = Ok k ∧ map_ok cell_capacity p = Ok ks.
Proof. cbn. intros H. ok_inv H as k Ek. ok_inv H as ks Eks. apply Ok_inj in H as <-. by exists k, ks. Qed.

Lemma map_cons_Ok c p k ks : cell_capacity c = Ok k → map_ok cell_capacity p = Ok ks → map_ok cell_capacity (c :: p) = Ok (k :: ks).
Proof. intros E1 E2. cbn. by rewrite E1, result_bind_Ok, E2, result_bind_Ok. Qed.

(** A cell that was not enough goes to the selected ones. *)
Lemma selection_cons c k todo sel inp r :
  sameLock (lock (output c)) from = true → cell_capacity c = Ok k → attempt (sel ++ [c]) (inp + k) = Ok None →
  selection_ok todo (sel ++ [c]) (inp + k) r → selection_ok (c :: todo) sel inp r.
Proof.
  intros Hc Hk Hnone. unfold selection_ok. rewrite filter_cons_True by done.
  assert (∀ p ks, attempt (sel ++ c :: p) (inp + sum (k :: ks)) = attempt ((sel ++ [c]) ++ p) (inp + k + sum ks)) as Hmove.
  { intros p ks. by rewrite <- app_assoc; cbn; rewrite Z.add_assoc. }
  assert (∀ (p q l : list LiveCell), c :: l = p ++ q → p ≠ [] → ∃ p', p = c :: p' ∧ l = p' ++ q) as Hsplit.
  { intros [|x p] q l E Hne; [done|]. injection E as <- ->. by exists p. }
  assert (∀ p, (p = [] ∨ ∀ caps, map_ok cell_capacity p = Ok caps → attempt ((sel ++ [c]) ++ p) (inp + k + sum caps) = Ok None) →
    ∀ caps, map_ok cell_capacity (c :: p) = Ok caps → attempt (sel ++ c :: p) (inp + sum caps) = Ok None) as Hstep.
  { intros p H caps (k' & ks & -> & Hk' & Hks)%map_cons_inv. assert (k' = k) as -> by congruence. rewrite Hmove.
    destruct H as [->|H]; [|by apply H]. apply Ok_inj in Hks as <-. by rewrite app_nil_r, Z.add_0_r. }
  destruct r as [u|e].
  - intros (more & rest & caps & E & Hne & Hcaps & Ha & Hp). exists (c :: more), rest, (k :: caps).
    split; [by rewrite E|]. split; [done|]. split; [by apply map_cons_Ok|]. split; [by rewrite Hmove|].
    intros p q Epq Hp' Hq. destruct (Hsplit _ _ _ Epq Hp') as (p' & -> & Ep). apply Hstep. destruct p'; [by left|right]. by eapply Hp.
  - intros [[-> Hp]|[(c' & Hin & Hc')|(p & q & caps & E & Hcaps & Ha)]].
    + left. split; [done|]. intros p q E Hne. destruct (Hsplit _ _ _ E Hne) as (p' & -> & Ep). apply Hstep.
      destruct p'; [by left|right]. by eapply Hp.
    + right. left. exists c'. split; [by right|done].
    + right. right. exists (c :: p), q, (k :: caps). split; [by rewrite E|]. split; [by apply map_cons_Ok|]. by rewrite Hmove.
Qed.

Lemma select_cells_ok todo : ∀ sel inp, selection_ok todo sel inp (select_cells from toL chL amt rate dep todo sel inp).
Proof.
  induction todo as [|c todo IH]; intros sel inp; cbn [select_cells].
  - left. split; [done|]. intros p q E. by destruct p.
  - destruct (sameLock (lock (output c)) from) eqn:Hc; cbn [negb].
    2: { unfold selection_ok. rewrite filter_cons_False by (by rewrite Hc). apply IH. }
    fold (cell_capacity c). destruct (cell_capacity c) as [k|e] eqn:Ek; cbn [result_bind].
    2: { right. left. exists c. split; [|done]. rewrite filter_cons_True by done. by left. }
    destruct (attempt (sel ++ [c]) (inp + k)) as [[u|]|e] eqn:Ea; cbn [result_bind].
    + exists [c], (eligible todo), [k]. rewrite filter_cons_True by done. split; [done|]. split; [done|].
      split; [by apply map_cons_Ok|]. split; [cbn; by rewrite Z.add_0_r|].
      intros [|x p] [|y q] E; [done..|]. intros _ _. by destruct p.
    + by apply (selection_cons c k).
    + right. right. exists [c], (eligible todo), [k]. rewrite filter_cons_True by done. split; [done|].
      split; [by apply map_cons_Ok|]. cbn. by rewrite Z.add_0_r.
Qed.
End selection.

(** What the builder returns, on every branch. *)
Lemma build_ok options amt rate minTo minChange sorted :
  normalizeBigInt (amount options) = Ok amt →
  normalizeBigInt (default (QBigInt DEFAULT_FEE_RATE) (feeRate options)) = Ok rate →
  minimumCellCapacity (toLock options) (bstr "0x") None = Ok minTo →
  minimumCellCapacity (change_lock options) (bstr "0x") None = Ok minChange →
  sort_cells (cells options) = Ok sorted →
  let mine := filter (λ c, sameLock (lock (output c)) (fromLock options) = true) sorted in
  let fee_of := fee_of (toLock options) amt rate (cellDep options) in
  let short p inp := ∃ f, fee_of p f ∧ ¬ sufficient amt minChange inp f in
  match buildTransferTransaction options with
  | Ok u => minTo <= amt ∧ ∃ rest caps, mine = selectedCells u ++ rest ∧ selectedCells u ≠ [] ∧
      map_ok cell_capacity (selectedCells u) = Ok caps ∧
      round_ok (toLock options) (change_lock options) amt rate minChange (selectedCells u) (sum caps) u ∧
      fee_of (selectedCells u) (fee u) ∧ sufficient amt minChange (sum caps) (fee u) ∧
      ∀ p q ks, selectedCells u = p ++ q → p ≠ [] → q ≠ [] → map_ok cell_capacity p = Ok ks → short p (sum ks)
  | Err e =>
      (e = AmountBelowMinimum ∧ amt < minTo) ∨
      (e = InsufficientCapacity ∧ ∀ p q ks, mine = p ++ q → p ≠ [] → map_ok cell_capacity p = Ok ks → short p (sum ks)) ∨
      (∃ c, c ∈ mine ∧ cell_capacity c = Err e) ∨
      (∃ p q ks, mine = p ++ q ∧ map_ok cell_capacity p = Ok ks ∧
         unserializable (toLock options) (change_lock options) amt rate (cellDep options) p (sum ks) e)
  end.
Proof.
  intros Ha Hr Hto Hch Hs. cbv zeta. unfold buildTransferTransaction. rewrite Ha, result_bind_Ok, Hr, result_bind_Ok, Hto, result_bind_Ok.
  destruct (Z.ltb_spec amt minTo) as [Hlt|Hge]; [by left|]. rewrite Hs, result_bind_Ok.
  pose proof (select_cells_ok (fromLock options) (toLock options) (change_lock options) amt rate (cellDep options) sorted [] 0) as H.
  pose proof (λ p inp, try_selection_cases (toLock options) (change_lock options) amt rate (cellDep options) p inp minChange Hch) as Hcases.
  unfold selection_ok in H. destruct (select_cells _ _ _ _ _ _ _ _ _) as [u|e].
  - destruct H as (more & rest & caps & E & Hne & Hcaps & Hat & Hp). split; [done|]. rewrite Z.add_0_l in Hat.
    pose proof (try_selection_ok _ _ _ _ _ _ _ _ _ Hch Hat) as Hround. pose proof (proj1 Hround) as Esel.
    pose proof (Hcases ([] ++ more) (sum caps)) as Hsel. rewrite Hat in Hsel. destruct Hsel as [Hfee Hsuf].
    cbn [app] in Esel, Hround. exists rest, caps. rewrite Esel. do 6 (split; [done|]).
    intros p q ks Epq Hp0 Hq0 Hks. pose proof (Hcases ([] ++ p) (0 + sum ks)) as Hc. by rewrite (Hp p q Epq Hp0 Hq0 ks Hks) in Hc.
  - right. destruct H as [[-> Hp]|[H|(p & q & ks & E & Hks & Ha')]]; [left|right; by left|right; right].
    + split; [done|]. intros p q ks E Hne Hks. pose proof (Hcases ([] ++ p) (0 + sum ks)) as Hc. by rewrite (Hp p q E Hne ks Hks) in Hc.
    + exists p, q, ks. split; [done|]. split; [done|]. pose proof (Hcases ([] ++ p) (0 + sum ks)) as Hc. by rewrite Ha' in Hc.
Qed.

(** ** The preflight checks *)
Lemma total_capacity_sum cs : ∀ z keys, map_ok cell_capacity cs = Ok keys → total_capacity cs z = Ok (z + sum keys).
Proof.
  induction cs as [|c cs IH]; intros z keys; cbn [total_capacity map_ok].
  - intros [= <-]. cbn. by rewrite Z.add_0_r.
  - intros H. ok_inv H as k Ek. ok_inv H as ks Eks. apply Ok_inj in H as <-. fold (cell_capacity c).
    rewrite Ek, result_bind_Ok, (IH _ _ eq_refl). cbn. by rewrite Z.add_assoc.
Qed.

Lemma map_filter_ok {A B E} (P : A → Prop) `{∀ a, Decision (P a)} (f : A → result B E) l bs :
  map_ok f l = Ok bs → ∃ bs', map_ok f (filter P l) = Ok bs'.
Proof.
  revert bs. induction l as [|a l IH]; intros bs H1; [by exists []|]. cbn [map_ok] in H1. ok_inv H1 as b Eb. ok_inv H1 as bs0 E0.
  destruct (IH _ eq_refl) as [bs' Ebs]. destruct (decide (P a)).
  - rewrite filter_cons_True by done. exists (b :: bs'). cbn. by rewrite Eb, result_bind_Ok, Ebs.
  - rewrite filter_cons_False by done. by exists bs'.
Qed.

Lemma sum_perm xs ys : xs ≡ₚ ys → sum xs = sum ys.
Proof. unfold sum. induction 1; cbn; lia. Qed.

Lemma map_perm (xs ys : list LiveCell) ks :
  xs ≡ₚ ys → map_ok cell_capacity xs = Ok ks → ∃ ks', map_ok cell_capacity ys = Ok ks' ∧ sum ks = sum ks'.
Proof.
  intros Hp Hk%map_ok_inv. destruct (Permutation_Forall2 Hp Hk) as (ks' & Hks & Hf).
  exists ks'. split; [by apply map_ok_inv|]. by apply sum_perm.
Qed.

Lemma sum_prefix xs ys ks ks' : map_ok cell_capacity (xs ++ ys) = Ok ks → map_ok cell_capacity xs = Ok ks' → sum ks' <= sum ks.
Proof.
  rewrite !map_ok_inv. intros (k1 & k2 & H1 & H2 & ->)%Forall2_app_inv_l H.
  assert (k1 = ks') as -> by (apply map_ok_inv in H1, H; congruence). unfold sum. rewrite foldr_app. fold (sum k2).
  assert (0 <= sum k2) as Hnn by (clear -H2; unfold sum; induction H2 as [|c k ? ? Hc%hexToBigInt_nonneg]; cbn in *; lia).
  fold (sum ks'). clear -Hnn. unfold sum in *. induction ks' as [|k ks IH]; cbn in *; lia.
Qed.

Definition network_ok (options : BuildTransferOptions) (net : option Network) : Prop :=
  ∀ n, net = Some n → recipientMatchesNetwork (sender_network options) n = true.

(** The eligible cells all have a capacity once some selection of them was built. *)
Lemma mine_capacities from cs sorted sel rest caps : sort_cells cs = Ok sorted →
  filter (λ c, sameLock (lock (output c)) from = true) sorted = sel ++ rest → sel ≠ [] → map_ok cell_capacity sel = Ok caps →
  ∃ ks, map_ok cell_capacity (filter (λ c, sameLock (lock (output c)) from = true) cs) = Ok ks ∧ sum caps <= sum ks.
Proof.
  intros Hs Hmine Hne Hcaps. destruct (sort_cells_ok _ _ Hs) as [Hperm _].
  assert (∃ ks, map_ok cell_capacity (sel ++ rest) = Ok ks) as [ks Hks].
  { unfold sort_cells in Hs. destruct (Z.ltb_spec (zlen cs) 2) as [Hlt|].
    - apply Ok_inj in Hs as <-. pose proof (length_filter (λ c, sameLock (lock (output c)) from = true) cs) as Hlen.
      rewrite Hmine, length_app in Hlen. unfold zlen in Hlt. destruct sel; [done|]. destruct rest; cbn in Hlen; [|lia].
      rewrite app_nil_r. by exists caps.
    - ok_inv Hs as keys Ek. clear Hs. destruct (map_perm cs sorted keys (symmetry Hperm) Ek) as (ks & Eks & _).
      rewrite <- Hmine. by eapply map_filter_ok. }
  pose proof (sum_prefix _ _ _ _ Hks Hcaps) as Hle. rewrite <- Hmine in Hks.
  eapply map_perm in Hks as (ks' & Hks & Hsum); [|by rewrite Hperm]. exists ks'. split; [done|lia].
Qed.

Lemma preflight_inv options net p : validateTransferRequest options net = Ok p →
  network_ok options net ∧ normalizeBigInt (amount options) = Ok (preflight_amount p) ∧
  buildTransferTransaction options = Ok (unsigned p).
Proof.
  unfold validateTransferRequest, network_ok. intros H.
  assert (∀ n, net = Some n → recipientMatchesNetwork (sender_network options) n = true) as Hn.
  { intros n ->. destruct (recipientMatchesNetwork _ n); [done|discriminate H]. }
  split; [done|]. destruct (match net with Some _ => _ | None => _ end); [done|].
  ok_inv H as amt Ea. ok_inv H as m1 E1. ok_inv H as m2 E2. destruct (amt <? m1); [done|]. ok_inv H as t Et.
  destruct (t <? amt); [done|]. destruct (buildTransferTransaction options) as [u|e]; [|by destruct e].
  by apply Ok_inj in H as <-.
Qed.

(** The checks pass for every transfer that can be built at a fee rate that is not negative. *)
Lemma preflight_passes options net amt rate minTo minChange sorted rest caps u :
  network_ok options net → normalizeBigInt (amount options) = Ok amt →
  minimumCellCapacity (toLock options) (bstr "0x") None = Ok minTo →
  minimumCellCapacity (change_lock options) (bstr "0x") None = Ok minChange → minTo <= amt → 0 <= rate →
  sort_cells (cells options) = Ok sorted → buildTransferTransaction options = Ok u →
  filter (λ c, sameLock (lock (output c)) (fromLock options) = true) sorted = selectedCells u ++ rest →
  selectedCells u ≠ [] → map_ok cell_capacity (selectedCells u) = Ok caps →
  round_ok (toLock options) (change_lock options) amt rate minChange (selectedCells u) (sum caps) u →
  validateTransferRequest options net =
    Ok {| preflight_amount := amt; recipientMinimumCapacity := minTo; minimumChangeCapacity := minChange; unsigned := u |}.
Proof.
  intros Hnet Ha Hto Hch Hmin Hr Hs Hb Hmine Hne Hcaps Hround. destruct (mine_capacities _ _ _ _ _ _ Hs Hmine Hne Hcaps) as (ks & Hks & Hle).
  assert (amt <= sum caps) as Hamt.
  { destruct Hround as (_ & Hin & _ & _ & Hio & Hout & o & _ & Hfee).
    assert (0 <= fee u ∧ 0 <= changeCapacity u); [|lia]. destruct Hfee as [(-> & _ & Hf)|(Hc & _ & o' & _ & _ & Hf & _)].
    all: destruct (Hf Hr) as (size & Hsize & _ & [Hf1 _]); pose proof (Z.mul_nonneg_nonneg size rate Hsize Hr); lia. }
  unfold validateTransferRequest.
  assert (match net with Some n => negb (recipientMatchesNetwork (sender_network options) n) | None => false end = false) as ->
    by (destruct net; [by rewrite Hnet|done]).
  rewrite Ha, result_bind_Ok, Hto, result_bind_Ok, Hch, result_bind_Ok, (proj2 (Z.ltb_ge amt minTo)) by done.
  rewrite (total_capacity_sum _ _ _ Hks), result_bind_Ok, (proj2 (Z.ltb_ge _ amt)) by lia. by rewrite Hb.
Qed.

(** C8: coin selection and change.  A transfer that is built spends the smallest cells of
    the sender, as many as the first sufficient prefix of them in order of capacity ([sufficient]:
    amount and fee exactly, or with change of at least a cell's minimum left), pays
    the recipient at least a cell's minimum, and returns the rest to the change lock,
    either nothing or at least a cell's minimum: inputs equal outputs plus fee.  It
    fails for lack of capacity only when no prefix suffices, and otherwise only when the
    amount is below the minimum, a capacity cannot be read or a payment cannot be serialized.
    At a rate that is not negative the preflight checks pass for exactly the transfers that
    can be built to a recipient on the right network.  The fee is the rate for the size of
    the transaction without the change output, so that with change, at a rate of 1000 or
    more, it is less than the rate asks for the transaction's size. *)
Theorem transfer_correct options amt rate minTo minChange sorted :
  normalizeBigInt (amount options) = Ok amt →
  normalizeBigInt (default (QBigInt DEFAULT_FEE_RATE) (feeRate options)) = Ok rate →
  minimumCellCapacity (toLock options) (bstr "0x") None = Ok minTo →
  minimumCellCapacity (change_lock options) (bstr "0x") None = Ok minChange →
  sort_cells (cells options) = Ok sorted →
  let mine := filter (λ c, sameLock (lock (output c)) (fromLock options) = true) sorted in
  let fee_of := fee_of (toLock options) amt rate (cellDep options) in
  let short p inp := ∃ f, fee_of p f ∧ ¬ sufficient amt minChange inp f in
  sorted ≡ₚ cells options ∧ (∀ keys, map_ok cell_capacity sorted = Ok keys → StronglySorted Z.le keys) ∧
  (0 <= rate → ∀ net u, network_ok options net ∧ buildTransferTransaction options = Ok u ↔
     validateTransferRequest options net = Ok {| preflight_amount := amt; recipientMinimumCapacity := minTo;
                                                 minimumChangeCapacity := minChange; unsigned := u |}) ∧
  match buildTransferTransaction options with
  | Ok u => minTo <= amt ∧ ∃ rest caps, mine = selectedCells u ++ rest ∧ selectedCells u ≠ [] ∧
      map_ok cell_capacity (selectedCells u) = Ok caps ∧
      round_ok (toLock options) (change_lock options) amt rate minChange (selectedCells u) (sum caps) u ∧
      fee_of (selectedCells u) (fee u) ∧ sufficient amt minChange (sum caps) (fee u) ∧
      ∀ p q ks, selectedCells u = p ++ q → p ≠ [] → q ≠ [] → map_ok cell_capacity p = Ok ks → short p (sum ks)
  | Err e =>
      (e = AmountBelowMinimum ∧ amt < minTo) ∨
      (e = InsufficientCapacity ∧ ∀ p q ks, mine = p ++ q → p ≠ [] → map_ok cell_capacity p = Ok ks → short p (sum ks)) ∨
      (∃ c, c ∈ mine ∧ cell_capacity c = Err e) ∨
      (∃ p q ks, mine = p ++ q ∧ map_ok cell_capacity p = Ok ks ∧
         unserializable (toLock options) (change_lock options) amt rate (cellDep options) p (sum ks) e)
  end.
Proof.
  intros Ha Hr Hto Hch Hs mine fee_of short. destruct (sort_cells_ok _ _ Hs) as [H1 H2]. split; [done|]. split; [done|].
  pose proof (build_ok options amt rate minTo minChange sorted Ha Hr Hto Hch Hs) as H. split; [|exact H].
  intros Hrate net u. split; [|by intros (? & _ & ?)%preflight_inv]. intros [Hnet Hb]. rewrite Hb in H.
  destruct H as (Hmin & rest & caps & E & Hne & Hcaps & Hround & _). by eapply preflight_passes.
Qed.

(** The transfer of the example, and its fee. *)
Lemma transfer_correct_witness :
  ∃ u, buildTransferTransaction demo_options = Ok u ∧ inputCapacity u = outputCapacity u + fee u ∧
    fee u * 1000 < txSize u * DEFAULT_FEE_RATE.
Proof.
  pose proof (transfer_correct demo_options (80 * SHANNONS_PER_CKB) 1000 (73 * SHANNONS_PER_CKB) (73 * SHANNONS_PER_CKB)
    [demo_cell 90 xaa; demo_cell 100 xbb]) as H.
  destruct H as (_ & _ & _ & H); [vm_compute; reflexivity..|].
  pose proof transfer_example as T. destruct (buildTransferTransaction demo_options) as [u|e]; [|destruct T].
  exists u. split; [reflexivity|]. destruct H as (_ & rest & caps & _ & _ & _ & Hround & _).
  destruct Hround as (_ & _ & _ & _ & Hio & _ & o & _ & [(Hz & _)|(_ & _ & o' & _ & _ & _ & Hfee)]).
  - destruct T as (_ & _ & Hc & Hf & _). rewrite Hz, Hf in Hc. discriminate Hc.
  - split; [exact Hio|]. apply Hfee. lia.
Defined.

(** ** Sealed transactions *)
Lemma witness_args_inj x y w : encodeWitnessArgs (Some x) = Ok w → encodeWitnessArgs (Some y) = Ok w → x = y.
Proof.
  unfold encodeWitnessArgs. cbn [encodeOptionBytes]. intros Hx Hy. ok_inv Hx as a Ea. ok_inv Hy as b Eb.
  ok_inv Hx as t Et. ok_inv Hy as t' Et'. apply Ok_inj in Hx as <-. apply Ok_inj in Hy as E.
  apply bytesToHex_inj in E as ->. pose proof (dynvec_inj _ _ _ Et Et') as E. injection E as ->. by eapply bytes_inj.
Qed.

Section sealed.
Context `{W : Wasm}.

(** The serialized forms of two transactions differ and have the same hash. *)
Definition hash_collision (tx tx' : RawTransaction) : Prop :=
  ∃ b b', serializeRawTransaction tx = Ok b ∧ serializeRawTransaction tx' = Ok b' ∧ b ≠ b' ∧ wasm_ckbHash b = wasm_ckbHash b'.

(** The hash of a transaction commits to all it says, unless the hash function collides. *)
Lemma hash_commits tx tx' h :
  hashes_ok tx = true → hashes_ok tx' = true → computeTransactionHash tx = Ok h → computeTransactionHash tx' = Ok h →
  view_tx tx' = view_tx tx ∨ hash_collision tx tx'.
Proof.
  unfold computeTransactionHash, ckbHash. intros Px Px' H H'. ok_inv H as b Eb. ok_inv H' as b' Eb'.
  ok_inv H as d Ed. ok_inv H' as d' Ed'.
  destruct (negb _); [done|]. destruct (negb _); [done|]. apply Ok_inj in H as <-. apply Ok_inj in H' as <-.
  destruct (decide (b = b')) as [->|Hne]; [left; by eapply raw_determines|right]. exists b, b'. by rewrite Ed, Ed'.
Qed.

Lemma seal_inv tx pk sk wc s : sealTransaction tx pk sk wc = Ok s →
  ∃ h sg wl ws, computeTransactionHash tx = Ok h ∧ signMessage sk h = Ok sg ∧ buildWitnessLock pk sg = Ok wl ∧
    witness_list (default (length (inputs tx)) wc) wl = Ok ws ∧
    s = {| transaction := {| raw := tx; witnesses := ws |}; signed_txHash := bytesToHex h; signed_witnessLock := bytesToHex wl |}.
Proof.
  unfold sealTransaction. intros H. ok_inv H as h Eh. ok_inv H as sg Es. ok_inv H as wl Ew. ok_inv H as ws Ews.
  apply Ok_inj in H as <-. unfold signTxHash in Es. destruct (negb _); [done|].
  destruct (buildWitnessLock pk sg) eqn:E; [|done]. apply Ok_inj in Ew as <-. by exists h, sg, a, ws.
Qed.

Lemma witness_lock_built pk sg wl : buildWitnessLock pk sg = Ok wl →
  wl = witness_format pk sg ∧ zlen wl = WITNESS_LOCK_BYTES.
Proof.
  intros H. assert (zlen pk = PUBLIC_KEY_LEN ∧ zlen sg = SIGNATURE_LEN) as [Hk Hs].
  { unfold buildWitnessLock in H. destruct (Z.eqb_spec (zlen pk) PUBLIC_KEY_LEN); [|done].
    by destruct (Z.eqb_spec (zlen sg) SIGNATURE_LEN). }
  rewrite buildWitnessLock_ok in H by done. apply Ok_inj in H as <-. split; [done|].
  rewrite zlen_witness_format, Hk, Hs. reflexivity.
Qed.

(** Sealing works whenever the signer does. *)
Lemma seal_total tx pk sk wc r d sg : serializeRawTransaction tx = Ok r → wasm_ckbHash r = Ok d → zlen d = LOCK_ARGS_LEN →
  zlen sk = SECRET_KEY_LEN → signMessage sk d = Ok sg → zlen pk = PUBLIC_KEY_LEN → zlen sg = SIGNATURE_LEN →
  ∃ s, sealTransaction tx pk sk wc = Ok s.
Proof.
  intros Er Ed Hh Hsk Es Hpk Hsg. unfold sealTransaction, computeTransactionHash, ckbHash, signTxHash.
  rewrite Er, result_bind_Ok, Ed, result_bind_Ok, Hh, Z.eqb_refl. cbn [negb]. rewrite result_bind_Ok, Hsk, Z.eqb_refl.
  cbn [negb]. rewrite Es, result_bind_Ok. rewrite buildWitnessLock_ok by done. rewrite !result_bind_Ok.
  destruct (witness_list_total (default (length (inputs tx)) wc) (witness_format pk sg)) as [ws ->]; [|by eexists].
  rewrite zlen_witness_format, Hpk, Hsg. reflexivity.
Qed.

Lemma witness_list_head n wl ws w : witness_list n wl = Ok ws → head ws = Some w → encodeWitnessArgs (Some wl) = Ok w.
Proof.
  unfold witness_list. destruct n as [|n]; cbn [seq map_ok]; [by intros [= <-]|]. intros H Hw.
  ok_inv H as x Ex. ok_inv H as xs Exs. apply Ok_inj in H as <-. cbn in Hw. congruence.
Qed.
End sealed.

(** C7: what the wallet seals, the lock accepts, and the signature covers the whole
    transaction.  The transaction and header hashes in it are of 32 bytes.  When the chain
    reads the first witness of a sealed transaction and its hash, and the args of the lock are
    the hash of the public key, the lock exits with 0 exactly when the public key decodes and
    the signature the wallet made verifies.  Any other transaction with the hash that was
    signed says the same, field by field, unless the hash function collides on the two.  And
    the sealed transaction has the size that [estimateTransactionSize] gives for the same raw
    transaction, with placeholders for the signature. *)
Theorem sealed_transaction_accepted `{T : Target, C : !CkbStd, F : !Fips204, B : !Blake2bRef, W : !Wasm}
    tx pk sk wc s :
  ptr_width = 64 → PK_LEN = PUBLIC_KEY_LEN → SIG_LEN = SIGNATURE_LEN → hashes_ok tx = true →
  sealTransaction tx pk sk wc = Ok s →
  ∃ h sg, computeTransactionHash tx = Ok h ∧ signMessage sk h = Ok sg ∧ raw (transaction s) = tx ∧
    (∀ sys w lock_field, head (witnesses (transaction s)) = Some w → encodeWitnessArgs (Some lock_field) = Ok w →
       run_inputs sys (blake2b_256 pk) h lock_field →
       (program_entry sys = Ret 0 ↔ ∃ key, try_from_bytes pk = Some key ∧ verify key h sg [] = true)) ∧
    (∀ tx', hashes_ok tx' = true → computeTransactionHash tx' = Ok h →
       view_tx tx' = view_tx tx ∨ hash_collision tx tx') ∧
    (∀ size, estimateTransactionSize tx (default (length (inputs tx)) wc) = Ok size →
       ∃ b, serializeTransaction (transaction s) = Ok b ∧ zlen b = size).
Proof.
  intros Hp Hpk Hsg Hok (h & sg & wl & ws & Eh & Es & Ew & Ews & ->)%seal_inv. exists h, sg.
  split; [done|]. split; [done|]. split; [done|]. split; [|split].
  - intros sys w lock_field Hw Hl Hr. pose proof (witness_list_head _ _ _ _ Ews Hw) as Hw'.
    pose proof (witness_args_inj _ _ _ Hl Hw') as ->. by apply (wallet_witness_accepted sys h wl).
  - intros tx' Hok' Hh. by apply (hash_commits tx tx' h).
  - intros size. apply (placeholder_size tx _ wl); [|done]. by apply (witness_lock_built pk sg).
Qed.

(** A signer for the example, and a run of the lock on what it sealed. *)
Definition demo_wasm : Wasm :=
  {| hashPubkey := λ _, Ok (zreplicate 32 x07); wasm_ckbHash := λ _, Ok (zreplicate 32 x01); signMessage := λ _ _, Ok demo_sig |}.
Definition demo_raw : RawTransaction :=
  {| version := bstr "0x0"; cellDeps := [cellDep demo_options]; headerDeps := [];
     inputs := [{| previousOutput := outPoint (demo_cell 90 xaa); since := bstr "0x0" |}];
     outputs := [output (demo_cell 80 xaa)]; outputsData := [bstr "0x"] |}.
Definition demo_secret : list byte := zreplicate SECRET_KEY_LEN x05.

(** The transaction is sealed, and its first witness carries the key and the signature. *)
Lemma seal_witness `{W : Wasm} tx pk sk s i : inputs tx = [i] → sealTransaction tx pk sk None = Ok s →
  ∃ h sg w, computeTransactionHash tx = Ok h ∧ signMessage sk h = Ok sg ∧
    head (witnesses (transaction s)) = Some w ∧ encodeWitnessArgs (Some (witness_format pk sg)) = Ok w.
Proof.
  intros Hi (h & sg & wl & ws & Eh & Esg & Ew & Ews & ->)%seal_inv. apply witness_lock_built in Ew as [-> _].
  unfold witness_list in Ews. rewrite Hi in Ews. cbn [length default seq map_ok] in Ews. ok_inv Ews as w Eww.
  apply Ok_inj in Ews as <-. exists h, sg, w. done.
Qed.

Lemma demo_seals : ∃ s, sealTransaction (W := demo_wasm) demo_raw demo_pk demo_secret None = Ok s.
Proof.
  assert (match serializeRawTransaction demo_raw with Ok _ => true | Err _ => false end = true) as H by (vm_compute; reflexivity).
  destruct (serializeRawTransaction demo_raw) as [r|] eqn:Er; [|discriminate H].
  apply (seal_total (W := demo_wasm) demo_raw demo_pk demo_secret None r (zreplicate 32 x01) demo_sig Er); try reflexivity; apply zlen_replicate; done.
Qed.

Lemma demo_hash h : computeTransactionHash (W := demo_wasm) demo_raw = Ok h → h = zreplicate 32 x01.
Proof.
  unfold computeTransactionHash, ckbHash. intros H. ok_inv H as b Eb. cbn [wasm_ckbHash demo_wasm] in H. rewrite result_bind_Ok in H.
  destruct (negb _); [done|]. by apply Ok_inj in H.
Qed.

Lemma sealed_transaction_accepted_witness :
  ∃ s sg, sealTransaction (W := demo_wasm) demo_raw demo_pk demo_secret None = Ok s ∧
    (program_entry (T := riscv64) (C := demo_ckb) (F := demo_fips) (B := demo_blake) demo_run = Ret 0 ↔
     ∃ key, @try_from_bytes demo_fips demo_pk = Some key ∧ @verify demo_fips key (zreplicate 32 x01) sg [] = true) ∧
    ∀ tx', hashes_ok tx' = true → computeTransactionHash (W := demo_wasm) tx' = Ok (zreplicate 32 x01) →
      view_tx tx' = view_tx demo_raw ∨ hash_collision (W := demo_wasm) demo_raw tx'.
Proof.
  destruct demo_seals as [s E]. pose proof (seal_witness (W := demo_wasm) demo_raw _ _ _ _ eq_refl E) as (h' & sg' & w & Eh' & Es' & Hw & Ew).
  apply Ok_inj in Es' as <-.
  assert (hashes_ok demo_raw = true) as Hok by (vm_compute; reflexivity).
  destruct (sealed_transaction_accepted (T := riscv64) (C := demo_ckb) (F := demo_fips) (B := demo_blake) (W := demo_wasm)
    demo_raw demo_pk demo_secret None s eq_refl eq_refl eq_refl Hok E) as (h & sg & H1 & _ & _ & H2 & H3 & _).
  rewrite (demo_hash h H1) in *. exists s, sg. split; [exact E|]. split; [|exact H3].
  exact (H2 demo_run w _ Hw Ew demo_run_inputs).
Defined.
