(* ===== verification/SdkWasm.v ===== *)
(** * SdkWasm: calling the WASM module (src/sdk/src/crypto.ts)

    The module is an instance with a linear memory and an allocator of its own.  Each
    function of the API copies its arguments into blocks it allocates there, calls an
    export, copies the result out and frees the blocks, also when something throws.  The
    exports are a parameter: [WasmExports] is what crypto.ts calls, [WasmLaws] what it relies
    on. *)

From S2P Require Import Prelude Machine Text Witness SdkUtil SdkTransfer.
Open Scope Z_scope.
Local Open Scope rust_scope.

(** What a call can throw: a trap of the module, the [RangeError] of writing past its memory
    and the [Error] of [encodeError]. *)
Inductive wasm_error := Trap | MemoryRange | ErrorMessage (message : list byte).

(** The exports.  A call gets the instance and returns it with its memory changed. *)
Class WasmExports (S : Type) := {
  memory : S → list byte;
  write_memory : list byte → S → S;
  alloc : Z → S → result Z wasm_error * S;
  dealloc : Z → Z → S → result unit wasm_error * S;
  sig_len : Z;
  args_len : Z;
  generate_keypair_from_seed : Z → Z → Z → Z → S → result Z wasm_error * S;
  hash_pubkey : Z → Z → Z → S → result Z wasm_error * S;
  ckb_hash : Z → Z → Z → S → result Z wasm_error * S;
  sign_message_with_seed : Z → Z → Z → Z → Z → Z → Z → S → result Z wasm_error * S;
  verify_signature : Z → Z → Z → Z → Z → Z → S → result Z wasm_error * S;
}.

(** [ERRORS[code] ?? ..]. *)
Definition ERRORS (code : Z) : option (list byte) :=
  if code =? 1 then Some (bstr "invalid input length")
  else if code =? 2 then Some (bstr "key generation failed")
  else if code =? 3 then Some (bstr "key deserialization failed")
  else if code =? 4 then Some (bstr "signature operation failed")
  else None.
Definition number_to_string (n : Z) : list byte := if n <? 0 then bstr "-" ++ to_radix 10 (- n) else to_radix 10 n.
Definition error_text (code : Z) : list byte := default (bstr "wasm error " ++ number_to_string code) (ERRORS code).

(** [ArrayBuffer.prototype.slice]: negative positions count from the end. *)
Definition clamp (len i : Z) : Z := if i <? 0 then Z.max 0 (len + i) else Z.min i len.
Definition buffer_slice (l : list byte) (from to : Z) : list byte :=
  let a := clamp (zlen l) from in ztake (clamp (zlen l) to - a) (zdrop a l).

Section api.
Context {S : Type} `{E : !WasmExports S}.

Definition WM (A : Type) : Type := S → result A wasm_error * S.
#[local] Instance WM_ret : MRet WM := λ A a s, (Ok a, s).
#[local] Instance WM_bind : MBind WM := λ A B k m s,
  match m s with (Ok a, s') => k a s' | (Err e, s') => (Err e, s') end.
(** [try { m } finally { f }]: what [f] throws replaces the result. *)
Definition try_finally {A} (m : WM A) (f : WM unit) : WM A := λ s,
  let '(r, s') := m s in
  match f s' with (Ok _, s'') => (r, s'') | (Err e, s'') => (Err e, s'') end.

Definition encodeError {A} (code : Z) : WM A := λ s, (Err (ErrorMessage (error_text code)), s).
Definition readBytes (ptr len : Z) : WM (list byte) := λ s, (Ok (buffer_slice (memory s) ptr (ptr + len)), s).
(** [new Uint8Array(exports.memory.buffer).set(bytes, ptr)]. *)
Definition memory_set (bytes : list byte) (ptr : Z) : WM unit := λ s,
  if (ptr <? 0) || (zlen (memory s) <? ptr + zlen bytes) then (Err MemoryRange, s)
  else (Ok tt, write_memory (splice (memory s) ptr bytes) s).

Definition withInput {A} (bytes : list byte) (callback : Z → WM A) : WM A :=
  ptr ← alloc (zlen bytes);
  _ ← memory_set bytes ptr;
  try_finally (callback ptr) (dealloc ptr (zlen bytes)).

(** ** The API *)

(** [seed] is what [randomBytes(32)] returned. *)
Definition api_generateKeypair (seed : list byte) : WM (list byte * list byte) :=
  publicKeyPtr ← alloc PUBLIC_KEY_LEN;
  secretKeyPtr ← alloc SECRET_KEY_LEN;
  try_finally
    (withInput seed (λ seedPtr,
       status ← generate_keypair_from_seed seedPtr (zlen seed) publicKeyPtr secretKeyPtr;
       if negb (status =? 0) then encodeError status
       else
         publicKey ← readBytes publicKeyPtr PUBLIC_KEY_LEN;
         secretKey ← readBytes secretKeyPtr SECRET_KEY_LEN;
         mret (publicKey, secretKey)))
    (_ ← dealloc publicKeyPtr PUBLIC_KEY_LEN;
     dealloc secretKeyPtr SECRET_KEY_LEN).

Definition api_hashPubkey (publicKey : list byte) : WM (list byte) :=
  outputPtr ← alloc args_len;
  try_finally
    (withInput publicKey (λ publicKeyPtr,
       status ← hash_pubkey publicKeyPtr (zlen publicKey) outputPtr;
       if negb (status =? 0) then encodeError status else readBytes outputPtr args_len))
    (dealloc outputPtr args_len).

Definition api_ckbHash (data : list byte) : WM (list byte) :=
  outputPtr ← alloc args_len;
  try_finally
    (withInput data (λ dataPtr,
       status ← ckb_hash dataPtr (zlen data) outputPtr;
       if negb (status =? 0) then encodeError status else readBytes outputPtr args_len))
    (dealloc outputPtr args_len).

Definition api_signMessage (seed secretKey message : list byte) : WM (list byte) :=
  outputPtr ← alloc sig_len;
  try_finally
    (withInput secretKey (λ secretKeyPtr,
       withInput message (λ messagePtr,
         withInput seed (λ seedPtr,
           status ← sign_message_with_seed secretKeyPtr (zlen secretKey) messagePtr (zlen message) seedPtr (zlen seed) outputPtr;
           if negb (status =? 0) then encodeError status else readBytes outputPtr SIGNATURE_LEN))))
    (dealloc outputPtr sig_len).

Definition api_verifySignature (publicKey message signature : list byte) : WM bool :=
  withInput publicKey (λ publicKeyPtr,
    withInput message (λ messagePtr,
      withInput signature (λ signaturePtr,
        status ← verify_signature publicKeyPtr (zlen publicKey) messagePtr (zlen message) signaturePtr (zlen signature);
        if status =? 0 then mret true
        else if status =? 4 then mret false
        else encodeError status))).

(** The exported [verifySignature], which checks the sizes first. *)
Definition sdk_result {A} (r : result A wasm_error) : result A SdkError :=
  match r with
  | Ok a => Ok a
  | Err (ErrorMessage m) => Err (WasmThrew (Some m))
  | Err _ => Err (WasmThrew None)
  end.
Definition verifySignature (publicKey txHash signature : list byte) (s : S) : result bool SdkError * S :=
  if negb (zlen publicKey =? PUBLIC_KEY_LEN) then (Err PublicKeyLength, s)
  else if negb (zlen signature =? SIGNATURE_LEN) then (Err SignatureLength, s)
  else let '(r, s') := api_verifySignature publicKey txHash signature s in (sdk_result r, s').

(** The wallet's view of an instance that draws [seed]. *)
Definition wasm_of (s : S) (seed : list byte) : Wasm :=
  {| hashPubkey := λ pk, sdk_result (api_hashPubkey pk s).1;
     wasm_ckbHash := λ data, sdk_result (api_ckbHash data s).1;
     signMessage := λ sk msg, sdk_result (api_signMessage seed sk msg s).1 |}.
End api.
