(* ===== verification/SdkWasmProps.v ===== *)
(** * SdkWasmProps: the API of the WASM module gives its blocks back

    Against a module whose allocator hands out separate blocks and whose exports read and
    write only the blocks they are given, every function of the API returns what the export
    computes from the arguments and leaves the memory others hold as it was. *)

From S2P Require Import Prelude Machine Text Witness SdkUtil SdkTransfer SdkWasm.
From stdpp Require Import sets list.
Open Scope Z_scope.
Local Open Scope rust_scope.

(** An address and a size, and the bytes there. *)
Definition block_of : Type := Z * Z.
Definition block {S} `{!WasmExports S} (s : S) (b : block_of) : list byte := ztake b.2 (zdrop b.1 (memory s)).

(** What an export computes: the contents of its outputs, or an error code. *)
Definition status_of {A} (r : result A Z) : Z := match r with Ok _ => 0 | Err code => code end.

(** A write leaves alone what it does not overlap. *)
Lemma splice_separate (l bs : list byte) p q k : 0 <= p → p + zlen bs <= zlen l → 0 <= q → 0 <= k →
  (0 < zlen bs → 0 < k → q + k <= p ∨ p + zlen bs <= q) → ztake k (zdrop q (splice l p bs)) = ztake k (zdrop q l).
Proof.
  intros Hp Hl Hq Hk Hsep. destruct (decide (k = 0)) as [->|]; [by rewrite !ztake_0|]. pose proof (zlen_nonneg bs).
  destruct (decide (zlen bs = 0)) as [Hn|].
  - apply zlen_0_nil in Hn as ->. unfold splice. rewrite zlen_nil, Z.add_0_r. cbn [app]. by rewrite ztake_zdrop.
  - apply splice_outside; lia.
Qed.

Section spec.
Context {S : Type} `{E : !WasmExports S} (blocks : S → list block_of) (winv : S → Prop).

(** [s'] has the blocks of [s], and those in [rest] have their contents. *)
Definition frame (rest : list block_of) (s s' : S) : Prop :=
  winv s' ∧ blocks s' ≡ₚ blocks s ∧ ∀ b, b ∈ rest → block s' b = block s b.

(** A call that computes [res] into the blocks [outs]. *)
Definition computes (call : WM (S := S) Z) (s : S) (outs rest : list block_of) (res : result (list (list byte)) Z) : Prop :=
  ∃ s', call s = (Ok (status_of res), s') ∧ frame rest s s' ∧
    match res with Ok contents => block s' <$> outs = contents | Err code => code ≠ 0 end.

Lemma frame_refl rest s : winv s → frame rest s s.
Proof. intros Hw. split; [exact Hw|]. by split. Qed.
End spec.

Definition one {A E} (r : result A E) : result (list A) E := match r with Ok a => Ok [a] | Err e => Err e end.
Definition two {A E} (r : result (A * A) E) : result (list A) E := match r with Ok (a, b) => Ok [a; b] | Err e => Err e end.

(** What the module promises.  [blocks] are the allocations not yet freed. *)
Class WasmLaws (S : Type) `{E : !WasmExports S} := {
  blocks : S → list block_of;
  winv : S → Prop;
  keypair_spec : list byte → result (list byte * list byte) Z;
  hash_spec : list byte → result (list byte) Z;
  ckb_hash_spec : list byte → result (list byte) Z;
  sign_spec : list byte → list byte → list byte → result (list byte) Z;
  verify_spec : list byte → list byte → list byte → Z;
  (** blocks lie in the memory and do not overlap *)
  blocks_ok s p n rest : winv s → blocks s ≡ₚ (p, n) :: rest →
    0 <= p ∧ 0 <= n ∧ p + n <= zlen (memory s) ∧
    ∀ q k, (q, k) ∈ rest → 0 < n → 0 < k → q + k <= p ∨ p + n <= q;
  write_ok s p n rest bs : winv s → blocks s ≡ₚ (p, n) :: rest → zlen bs = n →
    let s' := write_memory (splice (memory s) p bs) s in
    winv s' ∧ blocks s' ≡ₚ blocks s ∧ memory s' = splice (memory s) p bs;
  lengths_ok : 0 <= args_len ∧ 0 <= sig_len;
  alloc_ok n s : winv s → 0 <= n →
    (∃ p s', alloc n s = (Ok p, s') ∧ winv s' ∧ blocks s' ≡ₚ (p, n) :: blocks s ∧ ∀ b, b ∈ blocks s → block s' b = block s b) ∨
    (∃ s', alloc n s = (Err Trap, s') ∧ frame blocks winv (blocks s) s s');
  dealloc_ok p n rest s : winv s → blocks s ≡ₚ (p, n) :: rest →
    ∃ s', dealloc p n s = (Ok tt, s') ∧ winv s' ∧ blocks s' ≡ₚ rest ∧ ∀ b, b ∈ rest → block s' b = block s b;
  keypair_ok p n pk sk rest s :
    winv s → blocks s ≡ₚ (p, n) :: (sk, SECRET_KEY_LEN) :: (pk, PUBLIC_KEY_LEN) :: rest →
    computes blocks winv (generate_keypair_from_seed p n pk sk) s [(pk, PUBLIC_KEY_LEN); (sk, SECRET_KEY_LEN)] rest
      (two (keypair_spec (block s (p, n))));
  hash_ok p n out rest s : winv s → blocks s ≡ₚ (p, n) :: (out, args_len) :: rest →
    computes blocks winv (hash_pubkey p n out) s [(out, args_len)] rest (one (hash_spec (block s (p, n))));
  ckb_hash_ok p n out rest s : winv s → blocks s ≡ₚ (p, n) :: (out, args_len) :: rest →
    computes blocks winv (ckb_hash p n out) s [(out, args_len)] rest (one (ckb_hash_spec (block s (p, n))));
  sign_ok p1 n1 p2 n2 p3 n3 out rest s :
    winv s → blocks s ≡ₚ (p3, n3) :: (p2, n2) :: (p1, n1) :: (out, sig_len) :: rest →
    computes blocks winv (sign_message_with_seed p1 n1 p2 n2 p3 n3 out) s [(out, sig_len)] rest
      (one (sign_spec (block s (p1, n1)) (block s (p2, n2)) (block s (p3, n3))));
  verify_ok p1 n1 p2 n2 p3 n3 rest s : winv s → blocks s ≡ₚ (p3, n3) :: (p2, n2) :: (p1, n1) :: rest →
    ∃ s', verify_signature p1 n1 p2 n2 p3 n3 s = (Ok (verify_spec (block s (p1, n1)) (block s (p2, n2)) (block s (p3, n3))), s') ∧
      frame blocks winv rest s s';
}.

(** What the API makes of a result: an error code becomes an [Error]. *)
Definition api_result {A} (r : result A Z) : result A wasm_error :=
  match r with Ok a => Ok a | Err code => Err (ErrorMessage (error_text code)) end.

Section props.
Context {S : Type} `{E : !WasmExports S, L : !WasmLaws S}.
#[local] Existing Instances WM_ret WM_bind.
Abbreviation WM := (WM (S := S)).
Implicit Types (s : S) (rest : list block_of).

(** [m] returns [r], unless the module traps, and gives back all blocks. *)
Definition runs {A} (m : WM A) rest s (r : result A wasm_error) : Prop :=
  ∃ r' s', m s = (r', s') ∧ frame blocks winv rest s s' ∧ (r' = r ∨ r' = Err Trap).

Lemma wm_bind_Ok {A B} (m : WM A) (k : A → WM B) s a s' : m s = (Ok a, s') → (m ≫= k) s = k a s'.
Proof. intros H. unfold mbind, WM_bind. by rewrite H. Qed.
Lemma wm_bind_Err {A B} (m : WM A) (k : A → WM B) s e s' : m s = (Err e, s') → (m ≫= k) s = (Err e, s').
Proof. intros H. unfold mbind, WM_bind. by rewrite H. Qed.

Lemma read_block s p n rest : winv s → blocks s ≡ₚ (p, n) :: rest → readBytes p n s = (Ok (block s (p, n)), s).
Proof.
  intros Hw Hb. destruct (blocks_ok s p n rest Hw Hb) as (H1 & H2 & H3 & _). unfold readBytes, buffer_slice, clamp, block.
  rewrite !(proj2 (Z.ltb_ge _ _)) by lia. rewrite !Z.min_l by lia. cbn. do 3 f_equal. lia.
Qed.

Lemma read_in s p n : winv s → (p, n) ∈ blocks s → readBytes p n s = (Ok (block s (p, n)), s).
Proof. intros Hw (l1 & l2 & Hl)%list_elem_of_split. apply (read_block s p n (l1 ++ l2) Hw). by rewrite Hl, Permutation_middle. Qed.

(** Writing a block leaves the others alone. *)
Lemma set_block s p n rest bs : winv s → blocks s ≡ₚ (p, n) :: rest → zlen bs = n →
  ∃ s', memory_set bs p s = (Ok tt, s') ∧ frame blocks winv rest s s' ∧ block s' (p, n) = bs.
Proof.
  intros Hw Hb Hn. destruct (blocks_ok s p n rest Hw Hb) as (H1 & H2 & H3 & Hsep).
  destruct (write_ok s p n rest bs Hw Hb Hn) as (Hw' & Hb' & Hm). eexists. split.
  { unfold memory_set. rewrite (proj2 (Z.ltb_ge _ _)), (proj2 (Z.ltb_ge _ _)) by lia. done. }
  split; [|unfold block; cbn [fst snd]; rewrite Hm, <- Hn; apply splice_inside; lia].
  split; [done|]. split; [done|]. intros [q k] Hq. unfold block. cbn [fst snd]. rewrite Hm.
  destruct (list_elem_of_split _ _ Hq) as (l1 & l2 & Hl).
  destruct (blocks_ok s q k ((p, n) :: l1 ++ l2) Hw) as (Hq0 & Hk0 & _);
    [by rewrite Hb, Hl, <- Permutation_middle, perm_swap|].
  apply splice_separate; try lia. rewrite Hn. by apply Hsep.
Qed.

(** Running [m] and then freeing a block. *)
Lemma free_after {A} (m : WM A) p n others rest s r : blocks s ≡ₚ (p, n) :: others → rest ⊆ others → runs m rest s r →
  ∃ r' s', try_finally m (dealloc p n) s = (r', s') ∧ winv s' ∧ blocks s' ≡ₚ others ∧
    (∀ b, b ∈ rest → block s' b = block s b) ∧ (r' = r ∨ r' = Err Trap).
Proof.
  intros Hb Hsub (r' & s1 & Em & (Hw1 & Hb1 & Hk1) & Hr).
  destruct (dealloc_ok p n others s1 Hw1) as (s2 & Ed & Hw2 & Hb2 & Hk2); [by rewrite Hb1|].
  exists r', s2. unfold try_finally. rewrite Em, Ed. do 3 (split; [done|]). split; [|done].
  intros b Hin. rewrite Hk2 by auto. by apply Hk1.
Qed.

Lemma runs_withInput {A} bytes (callback : Z → WM A) rest s r : winv s → rest ⊆ blocks s →
  (∀ p s1, winv s1 → blocks s1 ≡ₚ (p, zlen bytes) :: blocks s → (∀ b, b ∈ blocks s → block s1 b = block s b) →
     block s1 (p, zlen bytes) = bytes → runs (callback p) rest s1 r) →
  runs (withInput bytes callback) rest s r.
Proof.
  intros Hw Hsub Hcb. unfold withInput.
  destruct (alloc_ok (zlen bytes) s Hw (zlen_nonneg _)) as [(p & s1 & Ea & Hw1 & Hb1 & Hk1)|(s1 & Ea & Hw1 & Hb1 & Hk1)].
  2: { exists (Err Trap), s1. split; [by apply wm_bind_Err|]. split; [|by right]. split; [done|]. split; [done|]. auto. }
  destruct (set_block s1 p (zlen bytes) (blocks s) bytes Hw1 Hb1 eq_refl) as (s2 & Es & (Hw2 & Hb2 & Hk2) & Hbytes).
  assert (Hk : ∀ b, b ∈ blocks s → block s2 b = block s b) by (intros b Hin; by rewrite Hk2, Hk1).
  assert (Hb : blocks s2 ≡ₚ (p, zlen bytes) :: blocks s) by by rewrite Hb2.
  destruct (free_after (callback p) p (zlen bytes) (blocks s) rest s2 r Hb Hsub) as (r' & s3 & Ef & Hw3 & Hb3 & Hk3 & Hr); [by apply Hcb|].
  exists r', s3. split; [rewrite (wm_bind_Ok _ _ _ _ _ Ea); by rewrite (wm_bind_Ok _ _ _ _ _ Es)|].
  split; [|done]. split; [done|]. split; [done|]. intros b Hin. rewrite Hk3 by done. auto.
Qed.

Lemma runs_withOutput {A} n (m : Z → WM A) s r : winv s → 0 <= n →
  (∀ out s1, winv s1 → blocks s1 ≡ₚ (out, n) :: blocks s → runs (m out) (blocks s) s1 r) →
  runs (out ← alloc n; try_finally (m out) (dealloc out n)) (blocks s) s r.
Proof.
  intros Hw Hn Hm. destruct (alloc_ok n s Hw Hn) as [(out & s1 & Ea & Hw1 & Hb1 & Hk1)|(s1 & Ea & Hf)].
  2: { exists (Err Trap), s1. split; [by apply wm_bind_Err|]. split; [done|]. by right. }
  destruct (free_after (m out) out n (blocks s) (blocks s) s1 r Hb1) as (r' & s2 & Ef & Hw2 & Hb2 & Hk2 & Hr); [done|by apply Hm|].
  exists r', s2. split; [by rewrite (wm_bind_Ok _ _ _ _ _ Ea)|]. split; [|done]. split; [done|]. split; [done|].
  intros b Hin. rewrite Hk2 by done. auto.
Qed.

(** A call with one output, and reading it. *)
Lemma runs_call call out n rest s res : (out, n) ∈ blocks s → computes blocks winv call s [(out, n)] rest (one res) →
  runs (status ← call; if negb (status =? 0) then encodeError status else readBytes out n) rest s (api_result res).
Proof.
  intros Hin (s' & Ec & Hf & Hres). assert (Hw : winv s' ∧ (out, n) ∈ blocks s') by (destruct Hf as (? & -> & ?); done).
  destruct res as [bs|code]; cbn [one status_of api_result] in *.
  - exists (Ok bs), s'. split; [|split; [done|by left]]. rewrite (wm_bind_Ok _ _ _ _ _ Ec). cbn [Z.eqb negb].
    injection Hres as <-. by destruct Hw; apply read_in.
  - exists (Err (ErrorMessage (error_text code))), s'. split; [|split; [done|by left]]. rewrite (wm_bind_Ok _ _ _ _ _ Ec).
    rewrite (proj2 (Z.eqb_neq _ _)) by done. done.
Qed.

(** ** The functions *)

(** A hash: one input, one output. *)
Lemma runs_hash (call : Z → Z → Z → WM Z) (spec : list byte → result (list byte) Z) data s :
  (∀ p n out rest s, winv s → blocks s ≡ₚ (p, n) :: (out, args_len) :: rest →
     computes blocks winv (call p n out) s [(out, args_len)] rest (one (spec (block s (p, n))))) → winv s →
  runs (out ← alloc args_len;
        try_finally (withInput data (λ p, status ← call p (zlen data) out;
                       if negb (status =? 0) then encodeError status else readBytes out args_len))
                    (dealloc out args_len)) (blocks s) s (api_result (spec data)).
Proof.
  intros Hcall Hw. apply runs_withOutput; [done|apply lengths_ok|]. intros out s1 Hw1 Hb1.
  apply runs_withInput; [done|rewrite Hb1; set_solver|]. intros p s2 Hw2 Hb2 _ Hp. apply runs_call.
  { rewrite Hb2, Hb1. set_solver. }
  rewrite <- Hp at 2. apply Hcall; [done|]. by rewrite Hb2, Hb1.
Qed.

Lemma runs_sign seed sk msg s : winv s → sig_len = SIGNATURE_LEN →
  runs (api_signMessage seed sk msg) (blocks s) s (api_result (sign_spec sk msg seed)).
Proof.
  intros Hw Hlen. unfold api_signMessage. apply runs_withOutput; [done|apply lengths_ok|]. intros out s1 Hw1 Hb1.
  apply runs_withInput; [done|rewrite Hb1; set_solver|]. intros p1 s2 Hw2 Hb2 _ Hp1.
  apply runs_withInput; [done|rewrite Hb2, Hb1; set_solver|]. intros p2 s3 Hw3 Hb3 Hk3 Hp2.
  apply runs_withInput; [done|rewrite Hb3, Hb2, Hb1; set_solver|]. intros p3 s4 Hw4 Hb4 Hk4 Hp3.
  rewrite <- Hlen. apply runs_call.
  { rewrite Hb4, Hb3, Hb2, Hb1. set_solver. }
  assert (block s4 (p2, zlen msg) = msg) as Ep2 by (rewrite Hk4; [done|rewrite Hb3; set_solver]).
  assert (block s4 (p1, zlen sk) = sk) as Ep1
    by (rewrite Hk4, Hk3; [done|rewrite Hb2; set_solver|rewrite Hb3, Hb2; set_solver]).
  rewrite <- Ep1 at 2. rewrite <- Ep2 at 2. rewrite <- Hp3 at 2. apply sign_ok; [done|]. by rewrite Hb4, Hb3, Hb2, Hb1.
Qed.

(** [verifySignature] reads the status as a verdict. *)
Definition verdict (status : Z) : result bool wasm_error :=
  if status =? 0 then Ok true else if status =? 4 then Ok false else Err (ErrorMessage (error_text status)).

Lemma runs_verify pk msg sg s : winv s → runs (api_verifySignature pk msg sg) (blocks s) s (verdict (verify_spec pk msg sg)).
Proof.
  intros Hw. unfold api_verifySignature.
  apply runs_withInput; [done|done|]. intros p1 s1 Hw1 Hb1 _ Hp1.
  apply runs_withInput; [done|rewrite Hb1; set_solver|]. intros p2 s2 Hw2 Hb2 Hk2 Hp2.
  apply runs_withInput; [done|rewrite Hb2, Hb1; set_solver|]. intros p3 s3 Hw3 Hb3 Hk3 Hp3.
  assert (block s3 (p2, zlen msg) = msg) as Ep2 by (rewrite Hk3; [done|rewrite Hb2; set_solver]).
  assert (block s3 (p1, zlen pk) = pk) as Ep1
    by (rewrite Hk3, Hk2; [done|rewrite Hb1; set_solver|rewrite Hb2, Hb1; set_solver]).
  destruct (verify_ok p1 (zlen pk) p2 (zlen msg) p3 (zlen sg) (blocks s) s3 Hw3) as (s4 & Ev & Hf); [by rewrite Hb3, Hb2, Hb1|].
  rewrite Ep1, Ep2, Hp3 in Ev. exists (verdict (verify_spec pk msg sg)), s4. split; [|split; [done|by left]].
  rewrite (wm_bind_Ok _ _ _ _ _ Ev). unfold verdict. by repeat case_match.
Qed.

(** The callback of [generateKeypair]. *)
Lemma runs_keypair_call seed pk sk others s : winv s → blocks s ≡ₚ (sk, SECRET_KEY_LEN) :: (pk, PUBLIC_KEY_LEN) :: others →
  runs (withInput seed (λ seedPtr,
          status ← generate_keypair_from_seed seedPtr (zlen seed) pk sk;
          if negb (status =? 0) then encodeError status
          else publicKey ← readBytes pk PUBLIC_KEY_LEN;
               secretKey ← readBytes sk SECRET_KEY_LEN;
               mret (publicKey, secretKey))) others s (api_result (keypair_spec seed)).
Proof.
  intros Hw Hb. apply runs_withInput; [done|rewrite Hb; set_solver|]. intros p s1 Hw1 Hb1 _ Hp.
  destruct (keypair_ok p (zlen seed) pk sk others s1 Hw1) as (s2 & Ec & Hf & Hres); [by rewrite Hb1, Hb|].
  rewrite Hp in *. pose proof Hf as (Hw2 & Hb2 & _).
  destruct (keypair_spec seed) as [[a b]|code]; cbn [two status_of api_result] in *.
  - exists (Ok (a, b)), s2. split; [|split; [done|by left]]. rewrite (wm_bind_Ok _ _ _ _ _ Ec). cbn [Z.eqb negb].
    injection Hres as Ha Hb'. rewrite <- Ha, <- Hb'.
    rewrite (wm_bind_Ok _ _ _ _ _ (read_in s2 pk PUBLIC_KEY_LEN Hw2 ltac:(rewrite Hb2, Hb1, Hb; set_solver))).
    by rewrite (wm_bind_Ok _ _ _ _ _ (read_in s2 sk SECRET_KEY_LEN Hw2 ltac:(rewrite Hb2, Hb1, Hb; set_solver))).
  - exists (Err (ErrorMessage (error_text code))), s2. split; [|split; [done|by left]]. rewrite (wm_bind_Ok _ _ _ _ _ Ec).
    rewrite (proj2 (Z.eqb_neq _ _)) by done. done.
Qed.

(** [generateKeypair] frees both outputs, unless the second cannot be allocated: then the
    first is lost. *)
Lemma runs_keypair seed s : winv s →
  runs (api_generateKeypair seed) (blocks s) s (api_result (keypair_spec seed)) ∨
  ∃ p s', api_generateKeypair seed s = (Err Trap, s') ∧ winv s' ∧ blocks s' ≡ₚ (p, PUBLIC_KEY_LEN) :: blocks s.
Proof.
  intros Hw. unfold runs, api_generateKeypair.
  destruct (alloc_ok PUBLIC_KEY_LEN s Hw ltac:(done)) as [(pk & s1 & E1 & Hw1 & Hb1 & Hk1)|(s1 & E1 & Hf)].
  2: { left. exists (Err Trap), s1. split; [by apply wm_bind_Err|]. split; [done|]. by right. }
  rewrite (wm_bind_Ok _ _ _ _ _ E1).
  destruct (alloc_ok SECRET_KEY_LEN s1 Hw1 ltac:(done)) as [(sk & s2 & E2 & Hw2 & Hb2 & Hk2)|(s2 & E2 & Hw2 & Hb2 & _)].
  2: { right. exists pk, s2. split; [by apply wm_bind_Err|]. split; [done|]. by rewrite Hb2. }
  left. rewrite (wm_bind_Ok _ _ _ _ _ E2).
  destruct (runs_keypair_call seed pk sk (blocks s) s2 Hw2) as (r & s3 & Ec & (Hw3 & Hb3 & Hk3) & Hr); [by rewrite Hb2, Hb1|].
  destruct (dealloc_ok pk PUBLIC_KEY_LEN ((sk, SECRET_KEY_LEN) :: blocks s) s3 Hw3) as (s4 & E4 & Hw4 & Hb4 & Hk4);
    [by rewrite Hb3, Hb2, Hb1, perm_swap|].
  destruct (dealloc_ok sk SECRET_KEY_LEN (blocks s) s4 Hw4 Hb4) as (s5 & E5 & Hw5 & Hb5 & Hk5).
  exists r, s5. split; [unfold try_finally; by rewrite Ec, (wm_bind_Ok _ _ _ _ _ E4), E5|].
  split; [|done]. split; [done|]. split; [done|]. intros b Hin.
  rewrite Hk5, Hk4, Hk3, Hk2, Hk1; [done|done|rewrite Hb1; set_solver|done|set_solver|done].
Qed.
End props.

(** A result the wallet sees is one of the module. *)
Lemma runs_sdk {S} `{!WasmExports S, !WasmLaws S} {A} (m : WM (S := S) A) s res a :
  runs m (blocks s) s (api_result res) → sdk_result (m s).1 = Ok a → res = Ok a.
Proof.
  intros (r & s' & -> & _ & [->| ->]); [|done]. destruct res; cbn; [|done]. by intros [= ->].
Qed.
Lemma sized_result {S} `{!WasmExports S, !WasmLaws S} (m : WM (S := S) (list byte)) s res a e :
  runs m (blocks s) s (api_result res) →
  (let? output := sdk_result (m s).1 in if negb (zlen output =? LOCK_ARGS_LEN) then Err e else Ok output) = Ok a →
  res = Ok a ∧ zlen a = LOCK_ARGS_LEN.
Proof.
  intros Hr H. ok_inv H as output Eo. destruct (Z.eqb_spec (zlen output) LOCK_ARGS_LEN); [|done].
  apply Ok_inj in H as <-. split; [by apply (runs_sdk m s)|done].
Qed.

(** C10: the API of the WASM module.  Whatever the module answers, every function returns
    what the export computes from copies of the arguments, an error with the text for its
    error code, or the module's trap, and gives back every block it allocated, with all
    other memory as it was.  Only [generateKeypair] can lose a block: the one for the public
    key, when the one for the secret key cannot be allocated.  [verifySignature] says true
    only for a key and a signature of the right sizes that the module accepts, and what the
    wallet computes through the interface is what the module computes. *)
Theorem wasm_api_correct {S : Type} `{E : !WasmExports S, L : !WasmLaws S} (s : S) (seed : list byte) :
  winv s → sig_len = SIGNATURE_LEN →
  ((∀ pk, runs (api_hashPubkey pk) (blocks s) s (api_result (hash_spec pk))) ∧
   (∀ data, runs (api_ckbHash data) (blocks s) s (api_result (ckb_hash_spec data))) ∧
   (∀ sk msg, runs (api_signMessage seed sk msg) (blocks s) s (api_result (sign_spec sk msg seed))) ∧
   (∀ pk msg sg, runs (api_verifySignature pk msg sg) (blocks s) s (verdict (verify_spec pk msg sg)))) ∧
  (runs (api_generateKeypair seed) (blocks s) s (api_result (keypair_spec seed)) ∨
   ∃ p s', api_generateKeypair seed s = (Err Trap, s') ∧ winv s' ∧ blocks s' ≡ₚ (p, PUBLIC_KEY_LEN) :: blocks s) ∧
  (∀ pk msg sg, (verifySignature pk msg sg s).1 = Ok true →
     zlen pk = PUBLIC_KEY_LEN ∧ zlen sg = SIGNATURE_LEN ∧ verify_spec pk msg sg = 0) ∧
  (∀ pk args, computeLockArgs (W := wasm_of s seed) pk = Ok args → hash_spec pk = Ok args ∧ zlen args = LOCK_ARGS_LEN) ∧
  (∀ data h, ckbHash (W := wasm_of s seed) data = Ok h → ckb_hash_spec data = Ok h ∧ zlen h = LOCK_ARGS_LEN) ∧
  (∀ sk msg sg, signTxHash (W := wasm_of s seed) sk msg = Ok sg → sign_spec sk msg seed = Ok sg ∧ zlen sk = SECRET_KEY_LEN).
Proof.
  intros Hw Hlen.
  assert (H1 : ∀ pk, runs (api_hashPubkey pk) (blocks s) s (api_result (hash_spec pk)))
    by (intros pk; apply runs_hash; [apply hash_ok|done]).
  assert (H2 : ∀ data, runs (api_ckbHash data) (blocks s) s (api_result (ckb_hash_spec data)))
    by (intros data; apply runs_hash; [apply ckb_hash_ok|done]).
  assert (H3 := λ sk msg, runs_sign seed sk msg s Hw Hlen). assert (H4 := λ pk msg sg, runs_verify pk msg sg s Hw).
  split; [done|]. split; [by apply runs_keypair|]. split; [|split; [|split]].
  - intros pk msg sg. unfold verifySignature. destruct (Z.eqb_spec (zlen pk) PUBLIC_KEY_LEN); [|done].
    destruct (Z.eqb_spec (zlen sg) SIGNATURE_LEN); [|done]. destruct (H4 pk msg sg) as (r & s' & -> & _ & Hr). cbn.
    intros Hok. split; [done|]. split; [done|]. destruct Hr as [->| ->]; [|done]. unfold verdict in Hok.
    destruct (Z.eqb_spec (verify_spec pk msg sg) 0); [done|]. by destruct (_ =? 4).
  - intros pk args. unfold computeLockArgs. cbn [hashPubkey wasm_of]. intros H.
    apply (sized_result (api_hashPubkey pk) s (hash_spec pk) args LockArgsLength); [apply H1|done].
  - intros data h. unfold ckbHash. cbn [wasm_ckbHash wasm_of]. intros H.
    apply (sized_result (api_ckbHash data) s (ckb_hash_spec data) h HashLength); [apply H2|done].
  - intros sk msg sg. unfold signTxHash. destruct (Z.eqb_spec (zlen sk) SECRET_KEY_LEN); [|done]. cbn [negb signMessage wasm_of].
    intros Hok. split; [|done]. by apply (runs_sdk (api_signMessage seed sk msg) s).
Qed.

(** ** A module that keeps the promises

    Its allocator only grows the memory. *)
Record demo_module := { demo_memory : list byte; demo_live : list block_of }.
Fixpoint remove_block (b : block_of) (l : list block_of) : list block_of :=
  match l with
  | [] => []
  | c :: l => if bool_decide (b = c) then l else c :: remove_block b l
  end.
Definition poke (p : Z) (bs : list byte) (s : demo_module) : demo_module :=
  {| demo_memory := splice (demo_memory s) p bs; demo_live := demo_live s |}.
#[local] Instance demo_exports : WasmExports demo_module := {
  memory := demo_memory;
  write_memory m s := {| demo_memory := m; demo_live := demo_live s |};
  alloc n s := let p := zlen (demo_memory s) in
    (Ok p, {| demo_memory := demo_memory s ++ zreplicate n x00; demo_live := (p, n) :: demo_live s |});
  dealloc p n s := (Ok tt, {| demo_memory := demo_memory s; demo_live := remove_block (p, n) (demo_live s) |});
  sig_len := SIGNATURE_LEN;
  args_len := LOCK_ARGS_LEN;
  generate_keypair_from_seed _ n pk sk s :=
    if n =? 32 then (Ok 0, poke sk (zreplicate SECRET_KEY_LEN x05) (poke pk (zreplicate PUBLIC_KEY_LEN x06) s)) else (Ok 1, s);
  hash_pubkey _ _ out s := (Ok 0, poke out (zreplicate LOCK_ARGS_LEN x07) s);
  ckb_hash _ _ out s := (Ok 0, poke out (zreplicate LOCK_ARGS_LEN x01) s);
  sign_message_with_seed _ n _ _ _ _ out s :=
    if n =? SECRET_KEY_LEN then (Ok 0, poke out (zreplicate SIGNATURE_LEN x09) s) else (Ok 1, s);
  verify_signature _ _ _ n _ _ s := (Ok (if n =? 32 then 0 else 4), s);
}.

(** The blocks lie below [len] and do not overlap. *)
Definition separate (b c : block_of) : Prop := 0 < b.2 → 0 < c.2 → c.1 + c.2 <= b.1 ∨ b.1 + b.2 <= c.1.
Definition layout (len : Z) (l : list block_of) : Prop :=
  (∀ b, b ∈ l → 0 <= b.1 ∧ 0 <= b.2 ∧ b.1 + b.2 <= len) ∧ (∀ b rest c, l ≡ₚ b :: rest → c ∈ rest → separate b c).
Definition demo_winv (s : demo_module) : Prop := layout (zlen (demo_memory s)) (demo_live s).

Lemma remove_block_perm b rest l : l ≡ₚ b :: rest → remove_block b l ≡ₚ rest.
Proof.
  intros H. assert (b ∈ l) as Hin by (rewrite H; set_solver). clear -H Hin.
  apply (Permutation_cons_inv (a := b)). rewrite <- H. clear H. induction l as [|c l IH]; [by apply not_elem_of_nil in Hin|].
  cbn. case_bool_decide as Hc; [by subst|]. rewrite perm_swap, IH; [done|]. by apply elem_of_cons in Hin as [?|?].
Qed.

Lemma layout_alloc len n l : 0 <= len → 0 <= n → layout len l → layout (len + n) ((len, n) :: l).
Proof.
  intros Hlen Hn [Hin Hsep]. split.
  - intros b [->|Hb]%elem_of_cons; [cbn; lia|]. destruct (Hin b Hb). lia.
  - intros b rest c Hp Hc. destruct (decide (b = (len, n))) as [->|Hne].
    + apply Permutation_cons_inv in Hp. assert (c ∈ l) as Hcl by (by rewrite Hp). destruct (Hin c Hcl). left. cbn. lia.
    + assert (b ∈ (len, n) :: l) as Hb by (rewrite Hp; set_solver). apply elem_of_cons in Hb as [?|Hb]; [done|].
      apply list_elem_of_split in Hb as (l1 & l2 & Hl). assert (l ≡ₚ b :: l1 ++ l2) as Hl' by (by rewrite Hl, Permutation_middle).
      assert (rest ≡ₚ (len, n) :: l1 ++ l2) as Hr.
      { apply (Permutation_cons_inv (a := b)). by rewrite <- Hp, Hl', perm_swap. }
      rewrite Hr in Hc. apply elem_of_cons in Hc as [->|Hc]; [|by apply (Hsep b (l1 ++ l2))].
      destruct (Hin b) as (H1 & H2 & H3); [rewrite Hl'; set_solver|]. intros _ _. right. cbn. lia.
Qed.

Lemma layout_free len b rest l : l ≡ₚ b :: rest → layout len l → layout len (remove_block b l).
Proof.
  intros Hp [Hin Hsep]. pose proof (remove_block_perm b rest l Hp) as Hr. split.
  - intros c Hc. apply Hin. rewrite Hp. rewrite Hr in Hc. set_solver.
  - intros c r2 d Hc Hd. apply (Hsep c (b :: r2)); [|set_solver]. by rewrite Hp, <- Hr, Hc, perm_swap.
Qed.

Lemma poke_ok s p n rest bs : demo_winv s → demo_live s ≡ₚ (p, n) :: rest → zlen bs = n →
  demo_winv (poke p bs s) ∧ block (poke p bs s) (p, n) = bs ∧ ∀ b, b ∈ rest → block (poke p bs s) b = block s b.
Proof.
  intros [Hin Hsep] Hb Hn. destruct (Hin (p, n)) as (H1 & H2 & H3); [rewrite Hb; set_solver|]. cbn in H1, H2, H3.
  split; [|split].
  - unfold demo_winv. cbn. rewrite zlen_splice by lia. done.
  - unfold block. cbn. rewrite <- Hn. apply splice_inside. lia.
  - intros [q k] Hq. destruct (Hin (q, k)) as (H4 & H5 & _); [rewrite Hb; set_solver|]. unfold block. cbn in *.
    apply splice_separate; try lia. rewrite Hn. by apply (Hsep (p, n) rest (q, k)).
Qed.

Lemma poke_computes s p n rest bs (call : WM (S := demo_module) Z) : demo_winv s → demo_live s ≡ₚ (p, n) :: rest → zlen bs = n →
  call s = (Ok 0, poke p bs s) → ∀ r2, r2 ⊆ rest → computes demo_live demo_winv call s [(p, n)] r2 (Ok [bs]).
Proof.
  intros Hw Hb Hn Hc r2 Hsub. destruct (poke_ok s p n rest bs Hw Hb Hn) as (Hw' & Hbs & Hk). exists (poke p bs s).
  split; [done|]. split; [|cbn; by rewrite Hbs]. split; [done|]. split; [done|]. auto.
Qed.

Lemma block_len s p n rest : demo_winv s → demo_live s ≡ₚ (p, n) :: rest → zlen (block s (p, n)) = n.
Proof.
  intros [Hin _] Hb. destruct (Hin (p, n)) as (H1 & H2 & H3); [rewrite Hb; set_solver|]. unfold block. cbn in *.
  rewrite zlen_take; [done|]. rewrite zlen_drop; lia.
Qed.

(** An error writes nothing. *)
Lemma error_computes s code outs rest (call : WM (S := demo_module) Z) : demo_winv s → call s = (Ok code, s) → code ≠ 0 →
  computes demo_live demo_winv call s outs rest (Err code).
Proof. intros Hw Hc Hne. exists s. split; [done|]. split; [by apply frame_refl|done]. Qed.

Definition demo_keypair (seed : list byte) : result (list byte * list byte) Z :=
  if zlen seed =? 32 then Ok (zreplicate PUBLIC_KEY_LEN x06, zreplicate SECRET_KEY_LEN x05) else Err 1.
Definition demo_sign (sk msg seed : list byte) : result (list byte) Z :=
  if zlen sk =? SECRET_KEY_LEN then Ok (zreplicate SIGNATURE_LEN x09) else Err 1.

Lemma demo_alloc_ok n s : demo_winv s → 0 <= n →
  ∃ p s', alloc n s = (Ok p, s') ∧ demo_winv s' ∧ demo_live s' ≡ₚ (p, n) :: demo_live s ∧ ∀ b, b ∈ demo_live s → block s' b = block s b.
Proof.
  intros Hw Hn. pose proof (zlen_nonneg (demo_memory s)). eexists _, _. split; [reflexivity|]. split; [|split; [done|]].
  - unfold demo_winv. cbn. rewrite zlen_app, zlen_replicate by done. by apply layout_alloc.
  - intros [q k] Hb. destruct Hw as [Hin _]. destruct (Hin _ Hb) as (H1 & H2 & H3). unfold block. cbn in *.
    rewrite zdrop_app_l by lia. rewrite ztake_app_l; [done|]. rewrite zlen_drop; lia.
Qed.

Lemma demo_keypair_ok p n pk sk rest s : demo_winv s →
  demo_live s ≡ₚ (p, n) :: (sk, SECRET_KEY_LEN) :: (pk, PUBLIC_KEY_LEN) :: rest →
  computes demo_live demo_winv (generate_keypair_from_seed p n pk sk) s [(pk, PUBLIC_KEY_LEN); (sk, SECRET_KEY_LEN)] rest
    (two (demo_keypair (block s (p, n)))).
Proof.
  intros Hw Hb. unfold demo_keypair. rewrite (block_len s p n _ Hw Hb).
  destruct (n =? 32) eqn:En; [|apply error_computes; [done|cbn; by rewrite En|done]].
  destruct (poke_ok s pk PUBLIC_KEY_LEN ((p, n) :: (sk, SECRET_KEY_LEN) :: rest) (zreplicate PUBLIC_KEY_LEN x06) Hw) as (Hw1 & H1 & Hk1);
    [rewrite Hb; solve_Permutation|by apply zlen_replicate|]. set (s1 := poke pk _ s) in *.
  destruct (poke_ok s1 sk SECRET_KEY_LEN ((p, n) :: (pk, PUBLIC_KEY_LEN) :: rest) (zreplicate SECRET_KEY_LEN x05) Hw1) as (Hw2 & H2 & Hk2);
    [cbn; rewrite Hb; solve_Permutation|by apply zlen_replicate|].
  eexists. split; [cbn; by rewrite En|]. fold s1. split; [|cbn; rewrite H2, Hk2, H1 by set_solver; done].
  split; [done|]. split; [done|]. intros b Hin. rewrite Hk2, Hk1 by set_solver. done.
Qed.

#[local] Instance demo_laws : WasmLaws demo_module.
Proof.
  refine {| blocks := demo_live; winv := demo_winv; keypair_spec := demo_keypair;
            hash_spec := λ _, Ok (zreplicate LOCK_ARGS_LEN x07); ckb_hash_spec := λ _, Ok (zreplicate LOCK_ARGS_LEN x01);
            sign_spec := demo_sign; verify_spec := λ _ msg _, if zlen msg =? 32 then 0 else 4 |}.
  - intros s p n rest [Hin Hsep] Hb. destruct (Hin (p, n)) as (H1 & H2 & H3); [rewrite Hb; set_solver|].
    split; [done|]. split; [done|]. split; [done|]. intros q k Hq Hn Hk. by apply (Hsep (p, n) rest (q, k)).
  - intros s p n rest bs Hw Hb Hn. split; [|done]. apply (poke_ok s p n rest bs Hw Hb Hn).
  - done.
  - intros n s Hw Hn. left. by apply demo_alloc_ok.
  - intros p n rest s Hw Hb. eexists. split; [reflexivity|]. split; [by apply (layout_free _ _ rest)|].
    split; [by apply remove_block_perm|done].
  - apply demo_keypair_ok.
  - intros p n out rest s Hw Hb. eapply (poke_computes s out LOCK_ARGS_LEN ((p, n) :: rest)); [done|by rewrite Hb, perm_swap|by apply zlen_replicate|done|set_solver].
  - intros p n out rest s Hw Hb. eapply (poke_computes s out LOCK_ARGS_LEN ((p, n) :: rest)); [done|by rewrite Hb, perm_swap|by apply zlen_replicate|done|set_solver].
  - intros p1 n1 p2 n2 p3 n3 out rest s Hw Hb. unfold demo_sign.
    rewrite (block_len s p1 n1 ((p3, n3) :: (p2, n2) :: (out, sig_len) :: rest) Hw) by (rewrite Hb; solve_Permutation).
    destruct (n1 =? SECRET_KEY_LEN) eqn:En; [|apply error_computes; [done|cbn; by rewrite En|done]].
    eapply (poke_computes s out SIGNATURE_LEN ((p3, n3) :: (p2, n2) :: (p1, n1) :: rest));
      [done|rewrite Hb; solve_Permutation|by apply zlen_replicate|cbn; by rewrite En|set_solver].
  - intros p1 n1 p2 n2 p3 n3 rest s Hw Hb. exists s. split; [|by apply frame_refl]. cbn.
    rewrite (block_len s p2 n2 ((p3, n3) :: (p1, n1) :: rest) Hw) by (rewrite Hb; solve_Permutation). done.
Defined.

(** The wallet gets the lock args of a key from this module, with a block of another user in
    the memory. *)
Definition demo_instance : demo_module := {| demo_memory := zreplicate 8 x2a; demo_live := [(2, 4)] |}.

Lemma wasm_api_correct_witness :
  runs (api_hashPubkey [x01; x02]) [(2, 4)] demo_instance (Ok (zreplicate LOCK_ARGS_LEN x07)) ∧
  runs (api_signMessage [x03] [x01] [x02]) [(2, 4)] demo_instance (Err (ErrorMessage (bstr "invalid input length"))).
Proof.
  assert (demo_winv demo_instance) as Hw.
  { split; [intros b Hb; apply list_elem_of_singleton in Hb as ->; vm_compute; by repeat split|].
    intros b rest c Hp Hc. apply Permutation_length in Hp. destruct rest; [by apply not_elem_of_nil in Hc|done]. }
  destruct (wasm_api_correct (S := demo_module) (L := demo_laws) demo_instance [x03] Hw eq_refl) as ((H1 & _ & H3 & _) & _).
  split; [exact (H1 [x01; x02])|exact (H3 [x01] [x02])].
Defined.
