(* ===== verification/SdkClient.v ===== *)
(** * SdkClient: the RPC client and the waiting loops of the wallet (src/sdk/src/wallet.ts)

    The world outside the wallet (the node, the network and the clock) is a state that every
    request, reading of the clock and sleep may change: the interface [Outside].  A method
    of the client runs in [CM], over that state and the client's request counter, and
    returns, throws, or, when the fuel of a loop runs out, is [None]. *)

From S2P Require Import Prelude Machine Text Witness SdkUtil SdkAddress SdkMolecule SdkTransfer.
Open Scope Z_scope.
Local Open Scope rust_scope.

(** ** The messages *)
Record RpcOutPoint := { tx_hash : list byte; rpc_index : list byte }.
Inductive RpcDepType := rpc_code | dep_group.
Record RpcCellDep := { out_point : RpcOutPoint; dep_type : RpcDepType }.
Record RpcScript := { code_hash : list byte; hash_type : ScriptHashType; rpc_args : list byte }.
Record RpcCellOutput := { rpc_capacity : list byte; rpc_lock : RpcScript; rpc_type : option RpcScript }.
Record RpcInput := { previous_output : RpcOutPoint; rpc_since : list byte }.
Record RpcTransaction := {
  rpc_version : list byte;
  cell_deps : list RpcCellDep;
  header_deps : list (list byte);
  rpc_inputs : list RpcInput;
  rpc_outputs : list RpcCellOutput;
  outputs_data : list (list byte);
  rpc_witnesses : list (list byte) }.
Record RpcIndexerCell := {
  block_number : list byte;
  cell_out_point : RpcOutPoint;
  cell_output : RpcCellOutput;
  output_data : list byte;
  tx_index : list byte }.
Record IndexerCellsResponse := { objects : list RpcIndexerCell; last_cursor : list byte }.
Record RpcTipHeader := { tip_hash : option (list byte); tip_block_hash : option (list byte);
                         tip_number : option (list byte); tip_block_number : option (list byte) }.
Record RpcLiveCell := { live_cell : option (RpcCellOutput * list byte); live_status : option (list byte) }.

Definition toRpcScript (lock : LockScript) : RpcScript :=
  {| code_hash := codeHash lock; hash_type := hashType lock; rpc_args := script_args lock |}.
Definition toRpcOutPoint (outPoint : OutPoint) : RpcOutPoint :=
  {| tx_hash := txHash outPoint; rpc_index := index_ outPoint |}.
Definition toRpcCellDep (cellDep : CellDep) : RpcCellDep :=
  {| out_point := toRpcOutPoint (dep_outPoint cellDep); dep_type := match depType cellDep with code => rpc_code | depGroup => dep_group end |}.
Definition toRpcCellOutput (output : CellOutput) : RpcCellOutput :=
  {| rpc_capacity := capacity output; rpc_lock := toRpcScript (lock output); rpc_type := toRpcScript <$> type_ output |}.
Definition toRpcInput (input : TransactionInput) : RpcInput :=
  {| previous_output := toRpcOutPoint (previousOutput input); rpc_since := since input |}.
Definition toRpcTransaction (tx : Transaction) : RpcTransaction :=
  {| rpc_version := version (raw tx); cell_deps := toRpcCellDep <$> cellDeps (raw tx); header_deps := headerDeps (raw tx);
     rpc_inputs := toRpcInput <$> inputs (raw tx); rpc_outputs := toRpcCellOutput <$> outputs (raw tx);
     outputs_data := outputsData (raw tx); rpc_witnesses := witnesses tx |}.

Definition fromRpcScript (script : RpcScript) : LockScript :=
  {| codeHash := code_hash script; hashType := hash_type script; script_args := rpc_args script |}.
Definition fromRpcOutPoint (outPoint : RpcOutPoint) : OutPoint :=
  {| txHash := tx_hash outPoint; index_ := rpc_index outPoint |}.
Definition fromRpcCellOutput (output : RpcCellOutput) : CellOutput :=
  {| capacity := rpc_capacity output; lock := fromRpcScript (rpc_lock output); type_ := fromRpcScript <$> rpc_type output |}.
Definition fromRpcResolvedOutPointCell (cell : RpcCellOutput * list byte) : CellOutput * list byte :=
  (fromRpcCellOutput cell.1, cell.2).
Definition fromRpcIndexerCell (cell : RpcIndexerCell) : LiveCell :=
  {| blockNumber := block_number cell; outPoint := fromRpcOutPoint (cell_out_point cell);
     output := fromRpcCellOutput (cell_output cell); outputData := output_data cell; txIndex := tx_index cell |}.

Record ChainTip := { blockHash : option (list byte); tip_blockNumber : list byte }.
Definition or_else {A} (a b : option A) : option A := match a with Some _ => a | None => b end.
Definition fromRpcTipHeader (tip : RpcTipHeader) : ChainTip :=
  {| blockHash := or_else (tip_hash tip) (tip_block_hash tip);
     tip_blockNumber := default (bstr "0x0") (or_else (tip_number tip) (tip_block_number tip)) |}.
Definition tipLag (rpcTip indexerTip : ChainTip) : result Z SdkError :=
  let? rpcBlock := hexToBigInt (tip_blockNumber rpcTip) in
  let? indexerBlock := hexToBigInt (tip_blockNumber indexerTip) in
  Ok (if indexerBlock <? rpcBlock then rpcBlock - indexerBlock else 0).

Inductive OutPointStatus := live | dead | status_unknown.
Definition liveCellStatus (status : option (list byte)) : OutPointStatus :=
  match status with
  | Some s => if bool_decide (s = bstr "live") then live else if bool_decide (s = bstr "dead") then dead else status_unknown
  | None => status_unknown
  end.

(** ** The status of a transaction *)

(** A value of the answer to [get_transaction]: [tx_status?.status] and [txStatus?.status] of
    an object, [None] when undefined or null. *)
Inductive json_status := JString (s : list byte) | JNotString.
Inductive json_transaction := JNull | JNotObject | JObject (tx_status txStatus : option json_status).

Inductive WalletTransactionStatus := unknown | pending | proposed | committed | rejected.
#[export] Instance status_eq_dec : EqDecision WalletTransactionStatus.
Proof. solve_decision. Defined.

Definition transactionStatus (transaction : json_transaction) : WalletTransactionStatus :=
  match transaction with
  | JNull | JNotObject => unknown
  | JObject tx_status txStatus =>
    match or_else tx_status txStatus with
    | Some (JString rawStatus) =>
      if bool_decide (rawStatus = bstr "pending") then pending
      else if bool_decide (rawStatus = bstr "proposed") then proposed
      else if bool_decide (rawStatus = bstr "committed") then committed
      else if bool_decide (rawStatus = bstr "rejected") then rejected
      else unknown
    | _ => pending
    end
  end.

(** ** The client *)
Record RpcConfig := { rpcUrl : list byte; indexerUrl : option (list byte) }.

(** What [fetch] and reading its body give: no answer, a status that is not ok, an error
    object or a result. *)
Inductive response_of (T : Type) := NoAnswer | HttpError (status : Z) | RpcFailure (message : list byte) | RpcSuccess (result : T).
Arguments NoAnswer {T}.
Arguments HttpError {T} status.
Arguments RpcFailure {T} message.
Arguments RpcSuccess {T} result.

(** The world outside: each request gets the endpoint, the id and its parameters. *)
Class Outside (W : Type) := {
  date_now : W → Z * W;
  sleep : Z → W → W;
  get_tip_header : list byte → Z → W → response_of RpcTipHeader * W;
  get_indexer_tip : list byte → Z → W → response_of RpcTipHeader * W;
  get_live_cell : RpcOutPoint → bool → list byte → Z → W → response_of RpcLiveCell * W;
  send_transaction : RpcTransaction → list byte → Z → W → response_of (list byte) * W;
  get_transaction : list byte → list byte → Z → W → response_of json_transaction * W;
  get_cells : RpcScript → list byte → option (list byte) → list byte → Z → W → response_of IndexerCellsResponse * W;
}.

Inductive client_error :=
| FetchFailed | HttpFailed (status : Z) | RpcFailed (message : list byte)
| IndexerUnavailable (cause : client_error)
| BalanceWaitTimeout (address : list byte) (attempts elapsedMs minCapacity observedCapacity liveCells : Z)
| TransactionConfirmationTimeout (txHash : list byte) (attempts elapsedMs : Z) (lastStatus : WalletTransactionStatus)
| Thrown (e : SdkError).

Record client_state (W : Type) := { nextId : Z; world : W }.
Arguments nextId {W} _.
Arguments world {W} _.
Arguments Build_client_state {W} _ _.

Section client.
Context {W : Type} `{OW : !Outside W} `{M : !Wasm}.
Context (config : RpcConfig).

Definition CM (A : Type) : Type := client_state W → option (result A client_error * client_state W).
#[local] Instance CM_ret : MRet CM := λ A a s, Some (Ok a, s).
#[local] Instance CM_bind : MBind CM := λ A B k m s,
  match m s with
  | Some (Ok a, s') => k a s'
  | Some (Err e, s') => Some (Err e, s')
  | None => None
  end.
Definition throw {A} (e : client_error) : CM A := λ s, Some (Err e, s).
Definition pure {A} (r : result A SdkError) : CM A :=
  λ s, Some (match r with Ok a => Ok a | Err e => Err (Thrown e) end, s).
Definition Date_now : CM Z := λ s, let '(t, w) := date_now (world s) in Some (Ok t, Build_client_state (nextId s) w).
Definition await_sleep (ms : Z) : CM unit := λ s, Some (Ok tt, Build_client_state (nextId s) (sleep ms (world s))).
(** [promise.catch(error => { throw f(error) })]. *)
Definition catch_throw {A} (m : CM A) (f : client_error → client_error) : CM A := λ s,
  match m s with Some (Err e, s') => Some (Err (f e), s') | r => r end.

(** [request]: the id is taken before the request is sent. *)
Definition request {T} (method : list byte → Z → W → response_of T * W) (url : list byte) : CM T := λ s,
  let id := nextId s + 1 in
  let '(r, w) := method url id (world s) in
  Some (match r with
        | NoAnswer => Err FetchFailed
        | HttpError status => Err (HttpFailed status)
        | RpcFailure message => Err (RpcFailed message)
        | RpcSuccess result => Ok result
        end, Build_client_state id w).

(** [wrapIndexerError]: a [WalletError] is passed on. *)
Definition wrapIndexerError (error : client_error) : client_error :=
  match error with
  | IndexerUnavailable _ | BalanceWaitTimeout _ _ _ _ _ _ | TransactionConfirmationTimeout _ _ _ _ => error
  | _ => IndexerUnavailable error
  end.
Definition endpoint : list byte := default (rpcUrl config) (indexerUrl config).

Definition getTipHeader : CM ChainTip :=
  tip ← request get_tip_header (rpcUrl config);
  mret (fromRpcTipHeader tip).
Definition getIndexerTip : CM ChainTip :=
  tip ← catch_throw (request get_indexer_tip endpoint) wrapIndexerError;
  mret (fromRpcTipHeader tip).
Definition getLiveCell (outPoint : OutPoint) (withData : bool) : CM (OutPointStatus * option (CellOutput * list byte)) :=
  result ← request (get_live_cell (toRpcOutPoint outPoint) withData) (rpcUrl config);
  mret (liveCellStatus (live_status result), fromRpcResolvedOutPointCell <$> live_cell result).
Definition sendTransaction (transaction : Transaction) : CM (list byte) :=
  request (send_transaction (toRpcTransaction transaction)) (rpcUrl config).
Definition getTransaction (txHash : list byte) : CM json_transaction := request (get_transaction txHash) (rpcUrl config).

(** The loop of [getCells]. *)
Fixpoint cells_loop (fuel : nat) (script : RpcScript) (limit : quantity) (found : list LiveCell) (cursor : option (list byte)) :
    CM (list LiveCell) :=
  match fuel with
  | O => λ _, None
  | S fuel =>
    limitHex ← pure (toHexQuantity limit);
    page ← catch_throw (request (get_cells script limitHex cursor) endpoint) wrapIndexerError;
    let found := found ++ (fromRpcIndexerCell <$> objects page) in
    if is_empty (objects page) || bool_decide (Some (last_cursor page) = cursor) then mret found
    else cells_loop fuel script limit found (Some (last_cursor page))
  end.
Definition getCells (fuel : nat) (lock : LockScript) (limit : quantity) : CM (list LiveCell) :=
  cells_loop fuel (toRpcScript lock) limit [] None.

(** ** The balance of a wallet *)
Record BalanceSummary := { balance_lock : LockScript; balance_totalCapacity : Z; balance_liveCells : Z }.
Definition getBalanceSummary (fuel : nat) (lock : LockScript) : CM BalanceSummary :=
  cells ← getCells fuel lock (QNumber (Some 100));
  totalCapacity ← pure (total_capacity cells 0);
  mret {| balance_lock := lock; balance_totalCapacity := totalCapacity; balance_liveCells := zlen cells |}.

Record DilithiumScriptConfig := { config_codeHash : list byte; config_hashType : ScriptHashType; config_network : Network }.
Definition addressFromPublicKey (publicKey : list byte) (scriptConfig : DilithiumScriptConfig) : result (list byte) SdkError :=
  let? lock := buildLockScript (config_codeHash scriptConfig) (config_hashType scriptConfig) publicKey in
  encodeCkbAddress lock (config_network scriptConfig).
Definition parseAddressToLock (address : list byte) : result LockScript SdkError :=
  let? d := decodeCkbAddress address in Ok (decoded_script d).

Record WalletState := {
  wallet_address : list byte;
  wallet_lock : LockScript;
  wallet_totalCapacity : Z;
  wallet_liveCells : Z;
  wallet_minimum : Z;
  funded : bool }.
Definition getWalletState (fuel : nat) (publicKey : list byte) (scriptConfig : DilithiumScriptConfig) : CM WalletState :=
  lock ← pure (buildLockScript (config_codeHash scriptConfig) (config_hashType scriptConfig) publicKey);
  address ← pure (encodeCkbAddress lock (config_network scriptConfig));
  balance ← getBalanceSummary fuel lock;
  minimum ← pure (minimumCellCapacity lock (bstr "0x") None);
  mret {| wallet_address := address; wallet_lock := lock; wallet_totalCapacity := balance_totalCapacity balance;
          wallet_liveCells := balance_liveCells balance; wallet_minimum := minimum;
          funded := (0 <? balance_liveCells balance) && (minimum <=? balance_totalCapacity balance) |}.

(** ** Inspections *)
Record OutPointInspection := {
  inspected_status : OutPointStatus;
  inspected_cell : option (CellOutput * list byte);
  lockMatchesExpected : option bool }.
Definition inspectOutPoint (outPoint : OutPoint) (expectedLock : option LockScript) : CM OutPointInspection :=
  '(status, cell) ← getLiveCell outPoint true;
  mret {| inspected_status := status; inspected_cell := cell;
          lockMatchesExpected := match cell, expectedLock with Some c, Some l => Some (sameLock (lock c.1) l) | _, _ => None end |}.

Record BalanceSourceInspection := {
  rpcTip : option ChainTip;
  indexerTip : option ChainTip;
  indexerReachable : bool;
  indexerLag : option Z;
  indexerError : option client_error }.
(** [try]: the result or the error, and the state either way. *)
Definition try_ {A} (m : CM A) : CM (result A client_error) := λ s,
  match m s with
  | Some (r, s') => Some (Ok r, s')
  | None => None
  end.
(** The [try] covers [tipLag] too. *)
Definition getBalanceSourceInspection : CM BalanceSourceInspection :=
  tip ← try_ getTipHeader;
  let tip := match tip with Ok t => Some t | Err _ => None end in
  r ← try_ (
    itip ← getIndexerTip;
    lag ← match tip with
          | Some t => lag ← pure (tipLag t itip); mret (Some lag)
          | None => mret None
          end;
    mret {| rpcTip := tip; indexerTip := Some itip; indexerReachable := true; indexerLag := lag; indexerError := None |});
  match r with
  | Ok inspection => mret inspection
  | Err error => mret {| rpcTip := tip; indexerTip := None; indexerReachable := false; indexerLag := None; indexerError := Some error |}
  end.

(** ** Waiting *)
Definition DEFAULT_WAIT_TIMEOUT_MS : Z := 120000.
Definition DEFAULT_WAIT_INTERVAL_MS : Z := 5000.

(** The loop of [waitForBalance], after [start] was read. *)
Fixpoint balance_loop (fuel cells_fuel : nat) (publicKey : list byte) (scriptConfig : DilithiumScriptConfig)
    (minCapacity : option Z) (start timeoutMs intervalMs attempts : Z) : CM (WalletState * Z * Z) :=
  match fuel with
  | O => λ _, None
  | S fuel =>
    let attempts := attempts + 1 in
    state ← getWalletState cells_fuel publicKey scriptConfig;
    let threshold := default (wallet_minimum state) minCapacity in
    if (threshold <=? wallet_totalCapacity state) && (0 <? wallet_liveCells state) then
      now ← Date_now;
      mret (state, attempts, now - start)
    else
      now ← Date_now;
      if timeoutMs <=? now - start then
        now ← Date_now;
        throw (BalanceWaitTimeout (wallet_address state) attempts (now - start) threshold (wallet_totalCapacity state) (wallet_liveCells state))
      else
        _ ← await_sleep intervalMs;
        balance_loop fuel cells_fuel publicKey scriptConfig minCapacity start timeoutMs intervalMs attempts
  end.
Definition waitForBalance (fuel cells_fuel : nat) (publicKey : list byte) (scriptConfig : DilithiumScriptConfig)
    (minCapacity : option quantity) (timeoutMs intervalMs : option Z) : CM (WalletState * Z * Z) :=
  start ← Date_now;
  let timeoutMs := default DEFAULT_WAIT_TIMEOUT_MS timeoutMs in
  let intervalMs := default DEFAULT_WAIT_INTERVAL_MS intervalMs in
  minCapacity ← match minCapacity with
                | None => mret None
                | Some q => z ← pure (normalizeBigInt q); mret (Some z)
                end;
  balance_loop fuel cells_fuel publicKey scriptConfig minCapacity start timeoutMs intervalMs 0.

(** The loop of [waitForTransactionConfirmation]. *)
Fixpoint confirmation_loop (fuel : nat) (txHash : list byte) (accepted : list WalletTransactionStatus)
    (start timeoutMs intervalMs attempts : Z) : CM (WalletTransactionStatus * json_transaction * Z * Z) :=
  match fuel with
  | O => λ _, None
  | S fuel =>
    let attempts := attempts + 1 in
    transaction ← getTransaction txHash;
    let status := transactionStatus transaction in
    if bool_decide (status ∈ accepted) then
      now ← Date_now;
      mret (status, transaction, attempts, now - start)
    else
      now ← Date_now;
      if timeoutMs <=? now - start then
        now ← Date_now;
        throw (TransactionConfirmationTimeout txHash attempts (now - start) status)
      else
        _ ← await_sleep intervalMs;
        confirmation_loop fuel txHash accepted start timeoutMs intervalMs attempts
  end.
Definition waitForTransactionConfirmation (fuel : nat) (txHash : list byte) (timeoutMs intervalMs : option Z)
    (acceptedStatuses : option (list WalletTransactionStatus)) : CM (WalletTransactionStatus * json_transaction * Z * Z) :=
  start ← Date_now;
  let timeoutMs := default DEFAULT_WAIT_TIMEOUT_MS timeoutMs in
  let intervalMs := default DEFAULT_WAIT_INTERVAL_MS intervalMs in
  let accepted := default [committed; proposed; pending] acceptedStatuses in
  confirmation_loop fuel txHash accepted start timeoutMs intervalMs 0.
End client.
