(* ===== verification/SdkClientProps.v ===== *)
(** * SdkClientProps: the client against a node that keeps its promises

    [getCells] pages through everything an indexer serves; the waiting loops end, because
    the clock goes on while they sleep, and answer what their last poll saw. *)

From S2P Require Import Prelude Machine Text Witness SdkUtil SdkAddress SdkMolecule SdkTransfer SdkSizes SdkTransferProps SdkClient.
Open Scope Z_scope.
Local Open Scope rust_scope.

(** The clock never goes back, and a sleep takes at least its time. *)
Class ClockLaws (W : Type) `{OW : !Outside W} := {
  clock : W → Z;
  date_now_clock w : clock w <= (date_now w).1 <= clock (date_now w).2;
  sleep_clock ms w : 0 <= ms → clock w + ms <= clock (sleep ms w);
  get_transaction_clock tx url id w : clock w <= clock (get_transaction tx url id w).2;
  get_cells_clock script limit cursor url id w : clock w <= clock (get_cells script limit cursor url id w).2;
}.

Section props.
Context {W : Type} `{OW : !Outside W} `{M : !Wasm} (config : RpcConfig).
#[local] Existing Instances CM_ret CM_bind.
Abbreviation CM := (CM (W := W)).
Abbreviation state := (client_state W).

Lemma cm_bind_Ok {A B} (m : CM A) (k : A → CM B) s a s' : m s = Some (Ok a, s') → (m ≫= k) s = k a s'.
Proof. intros E. unfold mbind, CM_bind. by rewrite E. Qed.
Lemma cm_bind_Err {A B} (m : CM A) (k : A → CM B) s e s' : m s = Some (Err e, s') → (m ≫= k) s = Some (Err e, s').
Proof. intros E. unfold mbind, CM_bind. by rewrite E. Qed.

(** ** Paging *)

(** An indexer that serves the cells [all] of [script], [n] per page, from the position its
    cursor stands for; it stays [good] while it is asked. *)
Record honest_indexer (script : RpcScript) (limit : list byte) (n : nat) (all : list RpcIndexerCell)
    (good : W → Prop) (cursor_at : nat → list byte) : Prop := {
  cursor_inj i j : cursor_at i = cursor_at j → i = j;
  serve w id cursor i : good w → (i <= length all)%nat → cursor = None ∧ i = O ∨ cursor = Some (cursor_at i) →
    ∃ last w', get_cells script limit cursor (endpoint config) id w =
        (RpcSuccess {| objects := take n (drop i all); last_cursor := last |}, w') ∧ good w' ∧
      (take n (drop i all) ≠ [] → last = cursor_at (i + length (take n (drop i all)))%nat) }.

Lemma cells_loop_ok script q limit n all good cursor_at :
  toHexQuantity q = Ok limit → honest_indexer script limit n all good cursor_at → (0 < n)%nat →
  ∀ fuel i cursor s found, good (world s) → (i <= length all)%nat → cursor = None ∧ i = O ∨ cursor = Some (cursor_at i) →
  (length all - i < fuel)%nat →
  ∃ s', cells_loop config fuel script q found cursor s = Some (Ok (found ++ (fromRpcIndexerCell <$> drop i all)), s') ∧ good (world s').
Proof.
  intros Hq [Hinj Hserve] Hn. induction fuel as [|fuel IH]; intros i cursor s found Hg Hi Hc Hf; [lia|].
  destruct (Hserve (world s) (nextId s + 1) cursor i Hg Hi Hc) as (last & w' & E & Hg' & Hlast).
  cbn [cells_loop]. erewrite cm_bind_Ok by (unfold pure; by rewrite Hq).
  set (page := {| objects := _; last_cursor := _ |}) in E.
  erewrite (cm_bind_Ok _ _ _ page) by (unfold catch_throw, request; by rewrite E). cbn [objects last_cursor page].
  destruct (take n (drop i all)) as [|c page'] eqn:Ep; cbn [is_empty orb].
  - assert (drop i all = []) as ->; [|by eexists]. destruct (drop i all); [done|]. by destruct n; [lia|].
  - specialize (Hlast ltac:(done)). rewrite bool_decide_false.
    2: { intros Heq. subst last. destruct Hc as [[-> _]| ->]; [done|]. injection Heq as Heq%Hinj. cbn in Heq. lia. }
    assert (length (c :: page') <= length all - i)%nat as Hlen by (rewrite <- Ep, length_take, length_drop; lia).
    assert (Hdrop : c :: page' ++ drop (i + length (c :: page')) all = drop i all).
    { rewrite <- (take_drop n (drop i all)), Ep at 1. cbn [app]. do 2 f_equal. rewrite drop_drop.
      destruct (Nat.le_gt_cases n (length (drop i all))).
      - assert (length (c :: page') = n) as -> by (rewrite <- Ep, length_take; lia). done.
      - rewrite length_drop in *. assert (length (c :: page') = length all - i)%nat as -> by (rewrite <- Ep, length_take, length_drop; lia).
        by rewrite !drop_ge by lia. }
    destruct (IH (i + length (c :: page'))%nat (Some last) (Build_client_state (nextId s + 1) w') (found ++ (fromRpcIndexerCell <$> c :: page')))
      as (s' & E' & Hs'); [done|lia|right; by rewrite Hlast|cbn in *; lia|].
    exists s'. split; [|done]. rewrite E'. do 3 f_equal. rewrite <- app_assoc, <- fmap_app. by rewrite <- Hdrop.
Qed.

(** An indexer whose paging comes to an end: each page that is not empty and moves the
    cursor gets closer to it.  It may also fail. *)
Record finite_indexer (script : RpcScript) (limit : list byte) (good : W → Prop) (rank : option (list byte) → nat) : Prop := {
  fi_serve w id cursor r w' : good w → get_cells script limit cursor (endpoint config) id w = (r, w') →
    good w' ∧ ∀ page, r = RpcSuccess page → objects page ≠ [] → Some (last_cursor page) ≠ cursor →
      (rank (Some (last_cursor page)) < rank cursor)%nat }.

Lemma cells_loop_ends script q limit good rank : toHexQuantity q = Ok limit → finite_indexer script limit good rank →
  ∀ fuel cursor s found, good (world s) → (rank cursor < fuel)%nat →
  ∃ r s', cells_loop config fuel script q found cursor s = Some (r, s') ∧ good (world s').
Proof.
  intros Hq [Hserve]. induction fuel as [|fuel IH]; intros cursor s found Hg Hf; [lia|].
  cbn [cells_loop]. erewrite cm_bind_Ok by (unfold pure; by rewrite Hq).
  destruct (get_cells script limit cursor (endpoint config) (nextId s + 1) (world s)) as [r w'] eqn:E.
  destruct (Hserve _ _ _ _ _ Hg E) as [Hg' Hrank].
  unfold mbind at 1, CM_bind, catch_throw, request. rewrite E. destruct r as [|st|msg|page]; try by eexists _, _.
  destruct (is_empty (objects page) || bool_decide (Some (last_cursor page) = cursor)) eqn:Ed; [by eexists _, _|].
  apply orb_false_iff in Ed as [E1 E2%bool_decide_eq_false]. apply IH; [done|].
  specialize (Hrank page eq_refl). destruct (objects page); [done|]. specialize (Hrank ltac:(done) E2). lia.
Qed.

(** ** The clock goes on *)
Context `{CL : !ClockLaws W}.

Definition later {A} (m : CM A) : Prop := ∀ s r s', m s = Some (r, s') → clock (world s) <= clock (world s').

Lemma later_bind {A B} (m : CM A) (k : A → CM B) : later m → (∀ a, later (k a)) → later (m ≫= k).
Proof.
  intros Hm Hk s r s'. unfold mbind, CM_bind. destruct (m s) as [[[a|e] s1]|] eqn:E; [| |done].
  - intros H. pose proof (Hm _ _ _ E). pose proof (Hk _ _ _ _ H). lia.
  - intros [= <- <-]. by apply (Hm _ _ _ E).
Qed.
Lemma later_ret {A} (a : A) : later (mret a : CM A).
Proof. intros s r s' [= <- <-]. lia. Qed.
Lemma later_pure {A} (r : result A SdkError) : later (pure r).
Proof. intros s r' s' [= <- <-]. lia. Qed.
Lemma later_request {T} (method : list byte → Z → W → response_of T * W) url :
  (∀ id w, clock w <= clock (method url id w).2) → later (request method url).
Proof.
  intros H s r s'. unfold request. specialize (H (nextId s + 1) (world s)). destruct (method url _ (world s)) as [x w].
  by intros [= <- <-].
Qed.
Lemma later_catch {A} (m : CM A) f : later m → later (catch_throw m f).
Proof.
  intros H s r s'. unfold catch_throw. destruct (m s) as [[[a|e] s1]|] eqn:E; [| |done]; intros [= <- <-]; by apply (H _ _ _ E).
Qed.
#[local] Hint Resolve later_bind later_ret later_pure later_request later_catch get_transaction_clock get_cells_clock : core.

Lemma later_cells fuel script q : ∀ found cursor, later (cells_loop config fuel script q found cursor).
Proof.
  induction fuel as [|fuel IH]; intros found cursor; [by intros s r s'|]. cbn [cells_loop].
  apply later_bind; [done|]. intros l. apply later_bind; [auto|]. intros page. by destruct (_ || _); [apply later_ret|].
Qed.

Lemma later_wallet fuel pk cfg : later (getWalletState config fuel pk cfg).
Proof.
  unfold getWalletState, getBalanceSummary, getCells.
  repeat (apply later_bind; [|intros ?]); auto using later_cells.
Qed.

(** ** Polling *)

(** The loop of both waiting functions. *)
Section poll.
Context {A R : Type} (query : CM A) (ok : A → bool) (answer : A → Z → Z → R) (late : A → Z → Z → client_error).
Context (start timeout interval : Z).

Fixpoint poll (fuel : nat) (attempts : Z) : CM R :=
  match fuel with
  | O => λ _, None
  | S fuel =>
    a ← query;
    if ok a then
      now ← Date_now;
      mret (answer a (attempts + 1) (now - start))
    else
      now ← Date_now;
      if timeout <=? now - start then
        now ← Date_now;
        throw (late a (attempts + 1) (now - start))
      else
        _ ← await_sleep interval;
        poll fuel (attempts + 1)
  end.

(** What a run that started [attempts] polls ago ends with, where the wait began when the
    clock read [start]: the answer to a poll that was good enough, a timeout after one that was
    not, each with the time between [start] and a last reading of the clock, or the error of a
    poll. *)
Definition poll_end (attempts : Z) (r : result R client_error) (s' : state) : Prop :=
  ∃ sq n, attempts <= n ∧ start + n * interval <= clock (world sq) ∧
    ((∃ a sa w t, query sq = Some (Ok a, sa) ∧ ok a = true ∧ clock (world sa) <= t ∧ date_now w = (t, world s') ∧
        r = Ok (answer a (n + 1) (t - start))) ∨
     (∃ a sa w t, query sq = Some (Ok a, sa) ∧ ok a = false ∧ clock (world sa) <= t ∧ date_now w = (t, world s') ∧
        timeout <= t - start ∧ r = Err (late a (n + 1) (t - start))) ∨
     (∃ e, query sq = Some (Err e, s') ∧ r = Err e)).

(** [good] holds of the world whenever it is asked. *)
Context (good : W → Prop) (Hnow : ∀ w, good w → good (date_now w).2) (Hsleep : ∀ ms w, good w → good (sleep ms w)).
Context (Hquery : ∀ s, good (world s) → ∃ r s', query s = Some (r, s') ∧ good (world s')).
Context (Hlater : later query) (Hint : 0 < interval).

Lemma now_ok (s : state) : good (world s) →
  ∃ t s', Date_now s = Some (Ok t, s') ∧ clock (world s) <= t <= clock (world s') ∧ date_now (world s) = (t, world s') ∧ good (world s').
Proof.
  intros Hg. unfold Date_now. pose proof (date_now_clock (world s)) as H. pose proof (Hnow _ Hg) as Hg'.
  destruct (date_now (world s)) as [t w] eqn:E. by exists t, (Build_client_state (nextId s) w).
Qed.

Lemma poll_ends fuel : ∀ attempts s, good (world s) → 0 <= attempts → attempts * interval <= clock (world s) - start →
  timeout - (clock (world s) - start) <= (Z.of_nat fuel - 1) * interval → (0 < fuel)%nat →
  ∃ r s', (∀ more, poll (fuel + more) attempts s = Some (r, s')) ∧ poll_end attempts r s'.
Proof.
  induction fuel as [|fuel IH]; intros attempts s Hg H0 Hat Hfuel Hpos; [lia|].
  destruct (Hquery s Hg) as ([a|e] & s1 & Eq & Hg1); pose proof (Hlater _ _ _ Eq) as Hl1.
  2: { exists (Err e), s1. split; [intros more; cbn [poll Nat.add]; by apply cm_bind_Err|].
       exists s, attempts. split; [lia|]. split; [lia|]. right. right. by exists e. }
  destruct (now_ok s1 Hg1) as (t & s2 & Et & Ht & Ew & Hg2).
  destruct (ok a) eqn:Ha.
  { exists (Ok (answer a (attempts + 1) (t - start))), s2. split.
    - intros more. cbn [poll Nat.add]. rewrite (cm_bind_Ok _ _ _ _ _ Eq), Ha. by rewrite (cm_bind_Ok _ _ _ _ _ Et).
    - exists s, attempts. split; [lia|]. split; [lia|]. left. exists a, s1, (world s1), t. do 3 (split; [done || lia|]). done. }
  destruct (Z.leb_spec timeout (t - start)) as [Hto|Hto].
  { destruct (now_ok s2 Hg2) as (t' & s3 & Et' & Ht' & Ew' & _). exists (Err (late a (attempts + 1) (t' - start))), s3. split.
    - intros more. cbn [poll Nat.add]. rewrite (cm_bind_Ok _ _ _ _ _ Eq), Ha, (cm_bind_Ok _ _ _ _ _ Et), (proj2 (Z.leb_le _ _)) by done.
      by rewrite (cm_bind_Ok _ _ _ _ _ Et').
    - exists s, attempts. split; [lia|]. split; [lia|]. right. left. exists a, s1, (world s2), t'.
      split; [done|]. split; [done|]. split; [lia|]. split; [done|]. split; [lia|done]. }
  set (s3 := Build_client_state (nextId s2) (sleep interval (world s2))).
  pose proof (sleep_clock interval (world s2) ltac:(lia)) as Hsl.
  destruct (IH (attempts + 1) s3) as (r & s' & E & Hend);
    [by apply Hsleep|lia|cbn; lia|cbn; lia|destruct fuel; [cbn in Hfuel; lia|lia]|].
  exists r, s'. split.
  - intros more. cbn [poll Nat.add]. rewrite (cm_bind_Ok _ _ _ _ _ Eq), Ha, (cm_bind_Ok _ _ _ _ _ Et), (proj2 (Z.leb_gt _ _)) by done.
    rewrite (cm_bind_Ok _ _ _ tt s3) by done. apply E.
  - destruct Hend as (sq & n & Hn & H). exists sq, n. split; [lia|done].
Qed.
End poll.

Lemma cm_bind_ext {A B} (m : CM A) (k k' : A → CM B) s : (∀ a s', k a s' = k' a s') → (m ≫= k) s = (m ≫= k') s.
Proof. intros H. unfold mbind, CM_bind. destruct (m s) as [[[a|e] s']|]; [apply H|done|done]. Qed.

(** Enough capacity in at least one cell. *)
Definition enough (minCapacity : option Z) (st : WalletState) : bool :=
  (default (wallet_minimum st) minCapacity <=? wallet_totalCapacity st) && (0 <? wallet_liveCells st).

(** The error of a wait that ran out of time. *)
Definition balance_late (minCapacity : option Z) (st : WalletState) (attempts elapsed : Z) : client_error :=
  BalanceWaitTimeout (wallet_address st) attempts elapsed (default (wallet_minimum st) minCapacity) (wallet_totalCapacity st) (wallet_liveCells st).

Lemma balance_loop_poll fuel cf pk cfg minC start timeout interval : ∀ attempts s,
  balance_loop config fuel cf pk cfg minC start timeout interval attempts s =
  poll (getWalletState config cf pk cfg) (enough minC) (λ st n e, (st, n, e)) (balance_late minC)
    start timeout interval fuel attempts s.
Proof.
  induction fuel as [|fuel IH]; intros attempts s; [done|]. cbn [balance_loop poll]. apply cm_bind_ext. intros st s1.
  unfold enough. destruct (_ && _); [done|]. apply cm_bind_ext. intros now s2. destruct (_ <=? _); [done|].
  apply cm_bind_ext. intros [] s3. apply IH.
Qed.

Lemma confirmation_loop_poll fuel tx accepted start timeout interval : ∀ attempts s,
  confirmation_loop config fuel tx accepted start timeout interval attempts s =
  poll (getTransaction config tx) (λ t, bool_decide (transactionStatus t ∈ accepted)) (λ t n e, (transactionStatus t, t, n, e))
    (λ t n e, TransactionConfirmationTimeout tx n e (transactionStatus t)) start timeout interval fuel attempts s.
Proof.
  induction fuel as [|fuel IH]; intros attempts s; [done|]. cbn [confirmation_loop poll]. apply cm_bind_ext. intros t s1.
  destruct (bool_decide _); [done|]. apply cm_bind_ext. intros now s2. destruct (_ <=? _); [done|].
  apply cm_bind_ext. intros [] s3. apply IH.
Qed.

(** Polls a timeout leaves time for, and one more. *)
Definition poll_fuel (timeout interval : Z) : nat := Z.to_nat (timeout / interval) + 2.

Lemma poll_fuel_ok timeout interval : 0 < interval → timeout <= (Z.of_nat (poll_fuel timeout interval) - 1) * interval.
Proof.
  intros H. unfold poll_fuel. pose proof (Z.div_mod timeout interval ltac:(lia)). pose proof (Z.mod_pos_bound timeout interval H).
  destruct (Z.le_gt_cases 0 (timeout / interval)); [|nia]. rewrite Nat2Z.inj_add, Z2Nat.id by done. nia.
Qed.

(** How a wait that began in [s] ended. *)
Definition wait_result {A R} (query : CM A) (ok : A → bool) (answer : A → Z → Z → R) (late : A → Z → Z → client_error)
    (timeout interval : Z) (s : state) (r : result R client_error) (s' : state) : Prop :=
  poll_end query ok answer late (date_now (world s)).1 timeout interval 0 r s'.

(** A wait: the clock is read, then polled. *)
Lemma wait_ends {A R} (query : CM A) ok (answer : A → Z → Z → R) late timeout interval (good : W → Prop) s :
  (∀ w, good w → good (date_now w).2) → (∀ ms w, good w → good (sleep ms w)) →
  (∀ s, good (world s) → ∃ r s', query s = Some (r, s') ∧ good (world s')) → later query → 0 < interval → good (world s) →
  ∃ start s1 r s', Date_now s = Some (Ok start, s1) ∧
    (∀ more, poll query ok answer late start timeout interval (poll_fuel timeout interval + more) 0 s1 = Some (r, s')) ∧
    wait_result query ok answer late timeout interval s r s'.
Proof.
  intros Hn Hs Hq Hl Hi Hg. destruct (now_ok good Hn s Hg) as (t & s1 & Et & Ht & Ew & Hg1).
  destruct (poll_ends query ok answer late t timeout interval good Hn Hs Hq Hl Hi (poll_fuel timeout interval) 0 s1) as (r & s' & E & Hend);
    [done|lia|lia|pose proof (poll_fuel_ok timeout interval Hi); lia|unfold poll_fuel; lia|].
  exists t, s1, r, s'. split; [done|]. split; [done|]. unfold wait_result. by rewrite Ew.
Qed.

(** The state of the wallet is found out, or an error. *)
Lemma wallet_ends fuel pk cfg good rank s :
  (∀ lock, buildLockScript (config_codeHash cfg) (config_hashType cfg) pk = Ok lock →
     finite_indexer (toRpcScript lock) (bstr "0x64") good rank) →
  (rank None < fuel)%nat → good (world s) →
  ∃ r s', getWalletState config fuel pk cfg s = Some (r, s') ∧ good (world s').
Proof.
  intros Hi Hf Hg. unfold getWalletState, getBalanceSummary, getCells. unfold mbind at 1, CM_bind at 1, pure at 1.
  destruct (buildLockScript _ _ pk) as [lock|e]; [|by eexists _, _].
  unfold mbind at 1, CM_bind at 1, pure at 1. destruct (encodeCkbAddress lock _) as [address|e]; [|by eexists _, _].
  destruct (cells_loop_ends (toRpcScript lock) (QNumber (Some 100)) _ good rank eq_refl (Hi lock eq_refl) fuel None s [] Hg Hf) as (r & s' & E & Hg').
  unfold mbind, CM_bind, pure, mret, CM_ret. rewrite E. destruct r as [cells|e]; [|by eexists _, _].
  destruct (total_capacity cells 0); [|by eexists _, _]. destruct (minimumCellCapacity _ _ _); by eexists _, _.
Qed.
End props.

Lemma map_ok_fmap {A B C E} (f : B → result C E) (g : A → B) l : map_ok f (g <$> l) = map_ok (λ a, f (g a)) l.
Proof. induction l as [|a l IH]; [done|]. cbn. by rewrite IH. Qed.

(** The messages keep what they carry. *)
Lemma rpc_roundtrip : (∀ l, fromRpcScript (toRpcScript l) = l) ∧ (∀ o, fromRpcOutPoint (toRpcOutPoint o) = o) ∧
  (∀ o, fromRpcCellOutput (toRpcCellOutput o) = o).
Proof. split; [by intros []|]. split; [by intros []|]. by intros [c [] [[]|]]. Qed.

(** An inspection of the balance source reports errors, it does not throw them. *)
Lemma inspection_returns {W} `{!Outside W} config (s : client_state W) : ∃ i s', getBalanceSourceInspection config s = Some (Ok i, s') ∧
  (indexerReachable i = true ↔ indexerError i = None) ∧ (indexerReachable i = false → indexerLag i = None).
Proof.
  unfold getBalanceSourceInspection, getTipHeader, getIndexerTip, catch_throw, try_, request, mbind, CM_bind, mret, CM_ret, pure.
  destruct (get_tip_header _ _ _) as [[|st|m|tip] w1]; destruct (get_indexer_tip _ _ _) as [[|st'|m'|itip] w2];
    try destruct (tipLag _ _); eexists _, _; (split; [reflexivity|]); by repeat split.
Qed.

(** C11: the client.  Against an indexer that serves its cells page by page, [getCells] returns
    all of them, in order and once, and [getBalanceSummary] their sum and number.  As long as
    the clock goes on and, for [waitForBalance], paging through the cells comes to an end,
    [waitForBalance] and [waitForTransactionConfirmation] end within the timeout's number of
    intervals, whatever the node answers: with the answer of a poll that was good enough; with
    a timeout error, once at least the timeout has passed since the wait began and the last
    poll was not good enough; or with the error of a poll.  The number of polls and the time
    since the wait began are reported.  The messages keep the scripts, out points and outputs
    they carry, and an inspection of the balance source returns whatever fails, reporting the
    indexer reachable exactly when there was no error. *)
Theorem wallet_client_correct {W : Type} `{OW : !Outside W, M : !Wasm, CL : !ClockLaws W} (config : RpcConfig) (s : client_state W) :
  (∀ lock n all good cursor_at fuel caps,
     honest_indexer config (toRpcScript lock) (bstr "0x64") n all good cursor_at → (0 < n)%nat → good (world s) →
     (length all < fuel)%nat → map_ok (λ c, hexToBigInt (rpc_capacity (cell_output c))) all = Ok caps →
     ∃ s', getCells config fuel lock (QNumber (Some 100)) s = Some (Ok (fromRpcIndexerCell <$> all), s') ∧
       getBalanceSummary config fuel lock s =
         Some (Ok {| balance_lock := lock; balance_totalCapacity := foldr Z.add 0 caps; balance_liveCells := zlen all |}, s')) ∧
  (∀ cells_fuel pk cfg minC timeout interval minZ good rank,
     (∀ lock, buildLockScript (config_codeHash cfg) (config_hashType cfg) pk = Ok lock →
        finite_indexer config (toRpcScript lock) (bstr "0x64") good rank) →
     (∀ w, good w → good (date_now w).2) → (∀ ms w, good w → good (sleep ms w)) → good (world s) →
     (rank None < cells_fuel)%nat → 0 < interval →
     match minC with Some q => ∃ z, normalizeBigInt q = Ok z ∧ minZ = Some z | None => minZ = None end →
     ∃ r s', (∀ more, waitForBalance config (poll_fuel timeout interval + more) cells_fuel pk cfg minC (Some timeout) (Some interval) s
                      = Some (r, s')) ∧
       wait_result (getWalletState config cells_fuel pk cfg) (enough minZ) (λ st n e, (st, n, e)) (balance_late minZ)
         timeout interval s r s') ∧
  (∀ tx accepted timeout interval, 0 < interval →
     ∃ r s', (∀ more, waitForTransactionConfirmation config (poll_fuel timeout interval + more) tx (Some timeout) (Some interval)
                        (Some accepted) s = Some (r, s')) ∧
       wait_result (getTransaction config tx) (λ t, bool_decide (transactionStatus t ∈ accepted)) (λ t n e, (transactionStatus t, t, n, e))
         (λ t n e, TransactionConfirmationTimeout tx n e (transactionStatus t)) timeout interval s r s') ∧
  ((∀ l, fromRpcScript (toRpcScript l) = l) ∧ (∀ o, fromRpcOutPoint (toRpcOutPoint o) = o) ∧
   (∀ o, fromRpcCellOutput (toRpcCellOutput o) = o)) ∧
  ∃ i s', getBalanceSourceInspection config s = Some (Ok i, s') ∧
    (indexerReachable i = true ↔ indexerError i = None) ∧ (indexerReachable i = false → indexerLag i = None).
Proof.
  split; [|split; [|split; [|split; [exact rpc_roundtrip|apply inspection_returns]]]].
  - intros lock n all good cursor_at fuel caps Hh Hn Hg Hf Hcaps.
    destruct (cells_loop_ok config _ (QNumber (Some 100)) _ _ _ _ _ eq_refl Hh Hn fuel 0 None s []) as (s' & E & _);
      [done|lia|by left|lia|]. cbn [app] in E. rewrite drop_0 in E. exists s'. split; [done|].
    unfold getBalanceSummary. rewrite (cm_bind_Ok _ _ _ _ _ E).
    assert (total_capacity (fromRpcIndexerCell <$> all) 0 = Ok (0 + sum caps)) as Et
      by (apply total_capacity_sum; by rewrite map_ok_fmap).
    erewrite (cm_bind_Ok _ _ _ (0 + sum caps)) by (unfold pure; by rewrite Et). cbn. unfold zlen. by rewrite length_fmap, Z.add_0_l.
  - intros cf pk cfg minC timeout interval minZ good rank Hfin Hnow Hsl Hg Hrank Hi Hmin.
    destruct (wait_ends (getWalletState config cf pk cfg) (enough minZ) (λ st n e, (st, n, e)) (balance_late minZ) timeout interval good s
      Hnow Hsl) as (t & s1 & r & s' & Et & E & Hend); [intros s0; by eapply wallet_ends|apply later_wallet|done|done|].
    exists r, s'. split; [|done]. intros more. unfold waitForBalance. rewrite (cm_bind_Ok _ _ _ _ _ Et). cbn [default].
    rewrite (cm_bind_Ok _ _ _ minZ s1), balance_loop_poll; [apply E|].
    destruct minC as [q|]; [|by subst]. destruct Hmin as (z & Ez & ->). by rewrite (cm_bind_Ok _ _ _ z s1) by (unfold pure; by rewrite Ez).
  - intros tx accepted timeout interval Hi.
    destruct (wait_ends (getTransaction config tx) (λ t, bool_decide (transactionStatus t ∈ accepted)) (λ t n e, (transactionStatus t, t, n, e))
      (λ t n e, TransactionConfirmationTimeout tx n e (transactionStatus t)) timeout interval (λ _, True) s)
      as (t & s1 & r & s' & Et & E & Hend); [done|done| |apply later_request; intros; apply get_transaction_clock|done|done|].
    { intros s0 _. unfold getTransaction, request. destruct (get_transaction _ _ _ _). by eexists _, _. }
    exists r, s'. split; [|done]. intros more. unfold waitForTransactionConfirmation. rewrite (cm_bind_Ok _ _ _ _ _ Et). cbn [default].
    rewrite confirmation_loop_poll. apply E.
Qed.

(** A node whose world is its clock: it serves two cells, one per page, and reports the
    transaction committed after seven seconds. *)
Definition demo_rpc_cell (ckb : Z) (b : byte) : RpcIndexerCell :=
  {| block_number := bstr "0x1"; cell_out_point := {| tx_hash := bytesToHex (zreplicate 32 b); rpc_index := bstr "0x0" |};
     cell_output := {| rpc_capacity := bstr "0x" ++ to_radix 16 (ckb * SHANNONS_PER_CKB); rpc_lock := toRpcScript demo_script; rpc_type := None |};
     output_data := bstr "0x"; tx_index := bstr "0x0" |}.
Definition demo_cells : list RpcIndexerCell := [demo_rpc_cell 100 xbb; demo_rpc_cell 90 xaa].
Definition demo_page (cursor : option (list byte)) : IndexerCellsResponse :=
  let i := length (default [] cursor) in
  {| objects := take 1 (drop i demo_cells); last_cursor := replicate (S i) x61 |}.
#[local] Instance demo_outside : Outside Z := {
  date_now w := (w, w);
  sleep ms w := w + ms;
  get_tip_header _ _ w := (NoAnswer, w);
  get_indexer_tip _ _ w := (NoAnswer, w);
  get_live_cell _ _ _ _ w := (NoAnswer, w);
  send_transaction _ _ _ w := (NoAnswer, w);
  get_transaction _ _ _ w := (RpcSuccess (JObject (Some (JString (if 7000 <=? w then bstr "committed" else bstr "pending"))) None), w);
  get_cells _ _ cursor _ _ w := (RpcSuccess (demo_page cursor), w);
}.
#[local] Instance demo_clock : ClockLaws Z.
Proof. refine {| clock := λ w, w |}; cbn; lia. Defined.
Definition demo_config : RpcConfig := {| rpcUrl := bstr "http"; indexerUrl := None |}.

Lemma demo_honest : honest_indexer (W := Z) demo_config (toRpcScript demo_script) (bstr "0x64") 1 demo_cells (λ _, True) (λ i, replicate i x61).
Proof.
  split; [intros i j E; apply (f_equal length) in E; by rewrite !length_replicate in E|].
  intros w id cursor i _ Hi Hc. cbn.
  assert (length (default [] cursor) = i) as E by (destruct Hc as [[-> ->]| ->]; [done|apply length_replicate]).
  unfold demo_page. rewrite E. eexists _, _. split; [reflexivity|]. split; [done|]. intros Hne.
  destruct (drop i demo_cells) as [|c l] eqn:Ed; [done|]. cbn. by rewrite Nat.add_1_r.
Qed.

(** Two more cells to come, then one, then none. *)
Lemma demo_finite script limit : finite_indexer (W := Z) demo_config script limit (λ _, True) (λ cursor, 2 - length (default [] cursor))%nat.
Proof.
  split. intros w id cursor r w' _ [= <- <-]. split; [done|]. intros page [= <-]. set (i := length (default [] cursor)).
  intros Hne _. assert (i < 2)%nat as Hi.
  { destruct (decide (i < 2)%nat); [done|]. destruct Hne. unfold demo_page. cbn [objects]. fold i. by rewrite drop_ge by (cbn; lia). }
  change (last_cursor (demo_page cursor)) with (replicate (S i) x61). change (length (default [] (Some (replicate (S i) x61)))) with (length (replicate (S i) x61)). rewrite length_replicate. lia.
Qed.

Lemma wallet_client_correct_witness :
  (∃ s', getCells (W := Z) demo_config 3 demo_script (QNumber (Some 100)) {| nextId := 0; world := 0 |}
         = Some (Ok (fromRpcIndexerCell <$> demo_cells), s')) ∧
  (∃ r s', ∀ more, waitForBalance (W := Z) (M := demo_wasm) demo_config (poll_fuel 10000 5000 + more) 3 [x01]
                     {| config_codeHash := codeHash demo_script; config_hashType := hashType demo_script; config_network := testnet |}
                     (Some (QBigInt 1)) (Some 10000) (Some 5000) {| nextId := 0; world := 0 |} = Some (r, s')) ∧
  ∃ r s', ∀ more, waitForTransactionConfirmation (W := Z) demo_config (poll_fuel 10000 5000 + more) (bstr "0x01") (Some 10000) (Some 5000)
                    (Some [committed]) {| nextId := 0; world := 0 |} = Some (r, s').
Proof.
  destruct (wallet_client_correct (W := Z) (M := demo_wasm) demo_config {| nextId := 0; world := 0 |}) as (H1 & H2 & H3 & _). split; [|split].
  - destruct (H1 demo_script 1%nat demo_cells (λ _, True) (λ i, replicate i x61) 3%nat [100 * SHANNONS_PER_CKB; 90 * SHANNONS_PER_CKB])
      as (s' & E & _); [exact demo_honest|lia|exact I|cbn; lia|vm_compute; reflexivity|]. exists s'. exact E.
  - destruct (H2 3%nat [x01] {| config_codeHash := codeHash demo_script; config_hashType := hashType demo_script; config_network := testnet |}
      (Some (QBigInt 1)) 10000 5000 (Some 1) (λ _, True) (λ cursor, 2 - length (default [] cursor))%nat) as (r & s' & E & _);
      [intros lock _; apply demo_finite|done|done|exact I|cbn; lia|lia|exists 1; done|]. exists r, s'. exact E.
  - destruct (H3 (bstr "0x01") [committed] 10000 5000) as (r & s' & E & _); [lia|]. exists r, s'. exact E.
Defined.

(** The wait above ends at its third poll. *)
Example confirmation_example :
  match waitForTransactionConfirmation (W := Z) demo_config 4 (bstr "0x01") (Some 10000) (Some 5000) (Some [committed])
          {| nextId := 0; world := 0 |} with
  | Some (Ok (status, _, attempts, elapsed), s) => status = committed ∧ attempts = 3 ∧ elapsed = 10000 ∧ nextId s = 3
  | _ => False
  end.
Proof. vm_compute. by repeat split. Qed.
